(* ===== verification/_CoqProject ===== *)
-Q . S2P
Prelude.v
HashFunc.v
Bitmapset.v
BitmapsetSpec.v
Gdd.v
GddBackend.v
GddSpec.v
GddProps.v
FsmPage.v
FreeSpace.v
FreeSpaceSpec.v
FreeSpaceProps.v
LibPQ.v
Fts.v
FtsSpec.v
FtsSegment.v
FtsWire.v
FtsProps.v
FtsView.v
Pglz.v
PglzSpec.v
PglzProps.v
PglzFormat.v
Sinval.v
SinvalSpec.v
SinvalProps.v
BitComp.v
BitCompSpec.v
Visimap.v
VisimapSpec.v
VisimapStoreSpec.v
VisimapScanSpec.v
VisimapDelete.v
VisimapDeleteSpec.v
VisimapProps.v
Dynahash.v
DynahashSpec.v
DynahashTable.v
DynahashExpand.v
DynahashSearch.v
DynahashCreate.v
DynahashScan.v
DynahashKeys.v
DynahashProps.v
