(* ===== verification/Prelude.v ===== *)
(** A verification of parts of Greenplum Database.

    Greenplum is a cluster of PostgreSQL servers: a dispatcher and segments, most
    of them pairs of a primary and a mirror.  The development models eleven parts of
    the server that keep their own state and have a contract: the bitmap sets,
    hash function and hash tables many others are built on, the global deadlock detector and the
    fault tolerance service of the cluster, the protocol messages of its answers, the
    free space map of a table, the compression of large values, the queue of cache
    invalidation messages, and the visibility map of append-only tables with the compression of its bitmaps.
    Definitions are named after the C functions and types they translate; paths
    below are relative to src/src/.

    * Conventions

    This file has what the parts share.  An int of width w is a [Z] with its
    wrap-around written out ([u8], [u16], [u32], [s32], [u64]); an array is a list
    read with [ws.[i]], 0 outside of it; a C loop over a counter is [for_up] or
    [find_up]; a function that may raise an ERROR returns a [result].  An Assert
    does not stop a program: the deadlock detector, the prober and the bitmap
    decompression record whether all of theirs held, and theorems say when they
    do; elsewhere they are hypotheses, follow from the invariants or are left out.  In
    a hash table an access to memory that is not there is an error.  What code outside of the part
    answers (system calls, libpq, other processes) is an argument or an input.

    * The parts

    - HashFunc: [hash_any] and [hash_uint32] of backend/access/hash/hashfunc.c, with
      the code for aligned and for unaligned keys.  Both compute the same value,
      [hash_uint32] is [hash_any] of the four bytes, and [mix] can be reversed.
    - Bitmapset, BitmapsetSpec: backend/nodes/bitmapset.c.  Every operation computes
      what its name says on the finite set of integers that a bitmap set stands
      for, errors included, whatever the lengths of the word arrays; the comparison
      is a total order; sets that are equal hash alike (this uses HashFunc).
    - Gdd, GddSpec, GddProps: backend/utils/gdd/gdddetector.c, with its graphs, verts
      and edges on explicit heaps.  [Rep] is the invariant; the reduction ends and
      leaves the greatest set of edges that cannot be removed, which is empty
      exactly when there is no deadlock; breaking deadlocks ends and cancels only
      what it must, except for transaction ids above the int range, for which it
      never ends.  GddBackend has the callers, gddfuncs.c and gddbackend.c: the
      set-returning function is the nested loop its comment promises, and a whole
      check cancels the victims' backends.
    - FsmPage: backend/storage/freespace/fsmpage.c, a page as a tree of maxima, for
      every block size [2 ^ K]; the search finds the first slot and ends on every
      page, damaged ones included.  FreeSpace, FreeSpaceSpec, FreeSpaceProps:
      freespace.c on a fork of such pages.  The map refines a function from blocks to
      categories; a page it hands out had the space; vacuuming makes the search
      complete; the addresses form a tree that reaches every block.
    - LibPQ: messages of the frontend/backend protocol, written by backend/libpq/pqformat.c,
      pqcomm.c and tcop/dest.c and parsed by interfaces/libpq/fe-protocol3.c, fe-misc.c and
      fe-exec.c: message lengths, row descriptions, rows, command tags, errors, and the
      state of a connection that waits for an answer.  The parser ends, consumes
      nothing of a message that has not arrived as a whole, and accepts a row description
      exactly when its columns fill it.
    - Fts: the prober of the fault tolerance service, backend/fts/ftsprobe.c and
      fts.c, as a state monad over [World] (the catalog, the status in shared memory,
      a trace of what was done).  FtsSegment: the answers of a segment,
      backend/fts/ftsmessagehandler.c and replication/gp_replication.c, and what the
      prober finds in the bytes of an answer; FtsWire: these bytes through the parser
      of LibPQ.  FtsSpec has the invariant of a pair
      at every point of an iteration; FtsProps the theorems about a probe cycle with
      arbitrary answers from outside: a mirror is promoted and a segment marked down
      only for a reason, no internal error can occur, the Asserts hold, the cycle
      ends when the time limit has passed often enough, responses survive the wire,
      whole or in pieces.  FtsView: over a round of the main loop the
      dispatcher ([FtsIsSegmentUp] of backend/cdb/cdbfts.c) sees what the catalog
      says, and the version tells of changes, until the version wraps to 0.
    - Pglz: backend/utils/adt/pg_lzcompress.c, the compressor with its history table
      and linked lists, and the decompressor.  PglzSpec has the invariant of the
      lists, what the search finds, and the encoding as a list of items; PglzProps
      the theorems about the compressor: decompressing gives back what was compressed,
      and it stays within its output area and keeps the rate of its strategy.
      PglzFormat reads any bytes as items and says what these mean: the decompressor
      computes exactly this or reports corrupt data, without storing outside of
      its area, although it may read in front of it.
    - Sinval: backend/storage/ipc/sinvaladt.c and sinval.c, the only part modelled with its
      concurrency.  The operations on the shared segment are functions; a process has
      a program counter, and every interleaving of the steps of all processes, with the
      acquisitions of the two locks, recursive calls, errors in callbacks and signals, is a run of a schedule.
      SinvalSpec has the invariant of the system and its preservation; SinvalProps the
      theorems: the queue refines one sequence of messages that all backends read, nothing
      is lost without a reset, a call returns only when it has dealt with all that was queued
      before, counters do not overflow, cleaning makes room, there is no deadlock, no
      catchup interrupt is left unserved, and local transaction ids are consecutive.
    - BitComp, BitCompSpec: backend/utils/misc/bitstream.c and bitmap_compression.c, a
      stream of bits over a buffer and the encoding of an array of words as flags and
      run lengths.  [Enc] is the format as a relation; what is compressed is
      decompressed to the same words, and the Asserts hold.
    - Visimap, VisimapDelete: backend/access/appendonly/appendonly_visimap.c with its
      entries and its store, the tuple ids of include/access/appendonlytid.h and the
      delete descriptor of appendonlyam.c.  An entry has a bitmap set (Bitmapset) of hidden rows
      and a buffer with its compressed form (BitComp); the relation is an array of row
      versions, visible to the snapshot of the command or live, with a unique index; the
      work file of a delete command is an array of bytes.  VisimapSpec has the entry and
      its bytes, VisimapStoreSpec the set of rows that the relation [represents],
      VisimapScanSpec the scans, VisimapDeleteSpec the invariant of a delete command;
      VisimapProps the theorems: delete commands refine a growing set of rows and never
      fail, a row is visible exactly when it is not in the set, scans and counts give the
      rows of the set, bitmaps fit into their buffers, and tuple ids are unique and ordered.

    - Dynahash: backend/utils/hash/dynahash.c, hash tables that grow by splitting one
      bucket at a time.  Elements, links, segments and the directory are memory cells, the
      allocator may refuse any request, and the list of open scans belongs to the state; an
      operation is a function of a state and error monad.  DynahashSpec has the chains and
      the masks, DynahashTable the layout of a table and the relocation of a bucket's
      entries, DynahashExpand the split, DynahashSearch the invariant [table_ok], which
      says that a table stands for a finite map, and its preservation, DynahashCreate
      the creation and the size estimates, DynahashScan the position of a scan.  Keys are
      a class of functions with laws: hash values respect the match function, and a copied
      key matches the original; DynahashKeys has the instances for strings, tags, OIDs, integers
      and bitmap sets (hashfn.c, with HashFunc and Bitmapset).  DynahashProps has the
      theorems: a table refines a finite map whatever the allocator does, a scan returns
      every entry once although entries are removed or added meanwhile, a table
      of the estimated size can be created, partitions never share a bucket, and the end
      of a subtransaction closes exactly its scans.

    * Fuel

    The loops that are not structural are run with a bound that is proved to be
    enough: a reduction takes one round more than there are edges and breaking
    deadlocks as many as there are edges; [bms_foreach] one step per bit; the search
    on an FSM page two attempts, as one repair suffices, and the search of the map
    its own limit of 10000 restarts; the compressor one round per input byte and a
    walk of a history list one per entry of the table; the decompressor one round
    per byte of its input; reading back a work file one round per byte, a call of the
    scan for hidden rows one per entry and two more, and all its calls one per row that
    the entries can have.  In a hash table walks of a chain take one round per element and
    one more, the scan one per bucket, taking a free element two attempts, and the loops
    that look for a power of two one per bit of the int.  The parser of messages takes
    one round per byte and one more, as every message has a byte at least.  The loop of a probe cycle takes a list of
    inputs, one per iteration; [fts_cycle_ends] says how long it can go on.

    * Not modelled

    Locks, latches and concurrent access to the modelled structures, except in the
    invalidation queue, and there weak memory order; full disks; memory
    management, except that hash tables can be refused memory, and logging; the catalog, the buffer manager and the network except
    for what the parts read from or write to them; the start of processes, signals
    other than the shutdown of the prober, and sleeping.  The other parts of the
    server (parser, planner, executor, access methods, WAL, dispatcher, commands,
    data types, client programs) are not modelled. *)

From Stdlib Require Import ZArith Lia.
From stdpp Require Import base list option numbers strings sets.

Declare Scope gp_scope.
Delimit Scope gp_scope with gp.
#[global] Open Scope Z_scope.
#[global] Open Scope gp_scope.

(** ** Machine words

    A C integer of width [w] is a [Z] kept in range by an explicit wrap-around. *)

Definition u8 (z : Z) : Z := z mod 2 ^ 8.
Definition u16 (z : Z) : Z := z mod 2 ^ 16.
Definition u32 (z : Z) : Z := z mod 2 ^ 32.
Definition s32 (z : Z) : Z := (z + 2 ^ 31) mod 2 ^ 32 - 2 ^ 31.
Definition u64 (z : Z) : Z := z mod 2 ^ 64.

Definition is_u8 (z : Z) : Prop := 0 <= z < 2 ^ 8.
Definition is_u16 (z : Z) : Prop := 0 <= z < 2 ^ 16.
Definition is_u32 (z : Z) : Prop := 0 <= z < 2 ^ 32.
Definition is_s32 (z : Z) : Prop := - 2 ^ 31 <= z < 2 ^ 31.

Lemma u32_range z : is_u32 (u32 z).
Proof. apply Z.mod_pos_bound. reflexivity. Qed.

Lemma u32_id z : is_u32 z → u32 z = z.
Proof. apply Z.mod_small. Qed.

Lemma s32_id z : is_s32 z → s32 z = z.
Proof. unfold is_s32, s32. intros ?. rewrite Z.mod_small; lia. Qed.

Lemma s32_range z : is_s32 (s32 z).
Proof.
  unfold is_s32, s32.
  pose proof (Z.mod_pos_bound (z + 2 ^ 31) (2 ^ 32) eq_refl). lia.
Qed.

Lemma u32_s32 z : u32 (s32 z) = u32 z.
Proof.
  unfold u32, s32. rewrite Zminus_mod_idemp_l. f_equal. lia.
Qed.

(** ** Bits of words *)

Create HintDb zbits.

Lemma u32_testbit z i : 0 <= i < 32 → Z.testbit (u32 z) i = Z.testbit z i.
Proof. intros. apply Z.mod_pow2_bits_low. lia. Qed.

Lemma testbit_above w i : is_u32 w → 32 <= i → Z.testbit w i = false.
Proof.
  intros Hw Hi. rewrite <- (u32_id w Hw). apply Z.mod_pow2_bits_high. lia.
Qed.

Lemma is_u32_bits w :
  0 <= w → (∀ i, 32 <= i → Z.testbit w i = false) → is_u32 w.
Proof.
  intros Hw Hb. replace w with (u32 w); [apply u32_range|].
  apply Z.bits_inj'. intros i Hi. unfold u32.
  destruct (decide (i < 32)).
  - by rewrite Z.mod_pow2_bits_low.
  - rewrite Z.mod_pow2_bits_high, Hb by lia. done.
Qed.

Lemma word_ext w v :
  is_u32 w → is_u32 v →
  (∀ i, 0 <= i < 32 → Z.testbit w i = Z.testbit v i) → w = v.
Proof.
  intros Hw Hv H. apply Z.bits_inj'. intros i Hi.
  destruct (decide (i < 32)); [apply H; lia|].
  rewrite !testbit_above by (done || lia). done.
Qed.

Lemma word_zero_iff w :
  is_u32 w → w = 0 ↔ ∀ i, 0 <= i < 32 → Z.testbit w i = false.
Proof.
  intros Hw. split; [intros -> i _; apply Z.bits_0|].
  intros H. apply word_ext; [done|unfold is_u32; lia|].
  intros i Hi. rewrite H, Z.bits_0; done.
Qed.

Lemma word_nonzero_bit w :
  is_u32 w → w ≠ 0 → ∃ i, 0 <= i < 32 ∧ Z.testbit w i = true.
Proof.
  intros Hw Hne. exists (Z.log2 w). unfold is_u32 in Hw.
  split; [|apply Z.bit_log2; lia].
  split; [apply Z.log2_nonneg|apply Z.log2_lt_pow2; lia].
Qed.

Lemma land_u32 a b : is_u32 a → 0 <= b → is_u32 (Z.land a b).
Proof.
  intros Ha Hb. apply is_u32_bits.
  - apply Z.land_nonneg. by right.
  - intros i Hi. by rewrite Z.land_spec, (testbit_above a).
Qed.

Lemma ldiff_u32 a b : is_u32 a → is_u32 (Z.ldiff a b).
Proof.
  intros Ha. apply is_u32_bits.
  - apply Z.ldiff_nonneg. left. apply Ha.
  - intros i Hi. by rewrite Z.ldiff_spec, (testbit_above a).
Qed.

Lemma lor_u32 a b : is_u32 a → is_u32 b → is_u32 (Z.lor a b).
Proof.
  intros Ha Hb. apply is_u32_bits.
  - apply Z.lor_nonneg. split; [apply Ha|apply Hb].
  - intros i Hi. by rewrite Z.lor_spec, !testbit_above.
Qed.

Lemma shiftr_u32 a n : is_u32 a → 0 <= n → is_u32 (Z.shiftr a n).
Proof.
  intros Ha Hn. unfold is_u32 in *. split; [apply Z.shiftr_nonneg; lia|].
  rewrite Z.shiftr_div_pow2 by lia.
  apply Z.le_lt_trans with a; [|lia].
  apply Z.div_le_upper_bound; [apply Z.pow_pos_nonneg; lia|].
  pose proof (Z.pow_pos_nonneg 2 n). nia.
Qed.

Lemma pow2_u32 n : 0 <= n < 32 → is_u32 (2 ^ n).
Proof.
  intros. split; [apply Z.pow_nonneg; lia|]. apply Z.pow_lt_mono_r; lia.
Qed.

#[export] Hint Resolve u32_range land_u32 ldiff_u32 lor_u32 shiftr_u32 pow2_u32 : zbits.

(** ** Arrays

    [ws.[i]] reads cell [i] of a C array modelled as a list; the loops below
    read only inside the array, and the components prove that they do. *)

Definition word_at (ws : list Z) (i : nat) : Z := default 0 (ws !! i).
Notation "ws .[ i ]" := (word_at ws i)
  (at level 1, left associativity, format "ws .[ i ]") : gp_scope.

Lemma word_at_lookup ws i w : ws !! i = Some w → ws.[i] = w.
Proof. unfold word_at. by intros ->. Qed.

Lemma lookup_word_at ws (i : nat) : (i < length ws)%nat → ws !! i = Some ws.[i].
Proof.
  intros [w Hw]%lookup_lt_is_Some. by rewrite (word_at_lookup _ _ _ Hw), Hw.
Qed.

Lemma word_at_ge ws (i : nat) : (length ws ≤ i)%nat → ws.[i] = 0.
Proof. intros. unfold word_at. by rewrite lookup_ge_None_2. Qed.

Lemma word_at_insert ws (i j : nat) v :
  (i < length ws)%nat → (<[i:=v]> ws).[j] = if decide (i = j) then v else ws.[j].
Proof.
  intros Hi. unfold word_at. destruct (decide (i = j)) as [->|Hne].
  - by rewrite list_lookup_insert_eq.
  - by rewrite list_lookup_insert_ne.
Qed.

Lemma word_at_replicate n v (i : nat) :
  (replicate n v).[i] = if decide (i < n)%nat then v else 0.
Proof.
  unfold word_at. case_decide.
  - by rewrite lookup_replicate_2.
  - by rewrite lookup_ge_None_2 by (rewrite length_replicate; lia).
Qed.

Lemma word_at_app ws vs (i : nat) :
  (ws ++ vs).[i] = if decide (i < length ws)%nat then ws.[i] else vs.[i - length ws].
Proof.
  unfold word_at. case_decide.
  - by rewrite lookup_app_l.
  - by rewrite lookup_app_r by lia.
Qed.

Lemma word_at_Forall (P : Z → Prop) ws :
  P 0 → Forall P ws → ∀ i, P ws.[i].
Proof.
  intros H0 HF i. unfold word_at. destruct (ws !! i) eqn:E; simpl; [|done].
  by eapply Forall_lookup_1.
Qed.

Lemma Forall_word_at (P : Z → Prop) ws :
  (∀ i, (i < length ws)%nat → P ws.[i]) → Forall P ws.
Proof.
  intros H. apply Forall_lookup_2. intros i w Hw.
  rewrite <- (word_at_lookup _ _ _ Hw). apply H. by eapply lookup_lt_Some.
Qed.

Lemma words_ext ws vs :
  length ws = length vs → (∀ i, (i < length ws)%nat → ws.[i] = vs.[i]) → ws = vs.
Proof.
  intros Hl H. apply list_eq_same_length with (length ws); [done|done|].
  intros i x y Hi Hx Hy.
  rewrite <- (word_at_lookup _ _ _ Hx), <- (word_at_lookup _ _ _ Hy). by apply H.
Qed.

Lemma filter_none {A} (P : A → Prop) `{!∀ x, Decision (P x)} (l : list A) :
  (∀ x, x ∈ l → ¬ P x) → filter P l = [].
Proof.
  induction l as [|x l IH]; intros Hn; [done|].
  rewrite filter_cons_False; [apply IH|]; intros; apply Hn; set_solver.
Qed.

Lemma list_filter_iff_in {A} (P Q : A → Prop)
    `{!∀ x, Decision (P x)} `{!∀ x, Decision (Q x)} (l : list A) :
  (∀ x, x ∈ l → P x ↔ Q x) → filter P l = filter Q l.
Proof.
  induction l as [|x l IH]; intros Hl; [done|].
  rewrite !filter_cons, IH by set_solver.
  assert (P x ↔ Q x) by (apply Hl; set_solver).
  do 2 case_decide; tauto || done.
Qed.

(** ** Loops *)

(** [for (i = lo; i < lo + n; i++) s = body (i, s)] *)
Fixpoint for_up {S : Type} (lo n : nat) (body : nat → S → S) (s : S) : S :=
  match n with
  | O => s
  | Datatypes.S n' => for_up (Datatypes.S lo) n' body (body lo s)
  end.

(** [for (i = lo; i < lo + n; i++) if (body i returns r) return r;] *)
Fixpoint find_up {R : Type} (lo n : nat) (body : nat → option R) : option R :=
  match n with
  | O => None
  | Datatypes.S n' =>
      match body lo with
      | Some r => Some r
      | None => find_up (Datatypes.S lo) n' body
      end
  end.

Lemma for_up_invariant {S} (P : nat → S → Prop) lo n body (s : S) :
  P lo s →
  (∀ i t, (lo ≤ i < lo + n)%nat → P i t → P (Datatypes.S i) (body i t)) →
  P (lo + n)%nat (for_up lo n body s).
Proof.
  revert lo s. induction n as [|n IH]; intros lo s H0 Hstep; simpl.
  - by rewrite Nat.add_0_r.
  - rewrite <- Nat.add_succ_comm. apply IH.
    + apply Hstep; [lia|done].
    + intros. apply Hstep; [lia|done].
Qed.

Lemma for_up_update_length f lo n ws :
  length (for_up lo n (λ i ws, <[i := f i ws.[i]]> ws) ws) = length ws.
Proof.
  apply (for_up_invariant (λ _ vs, length vs = length ws)); [done|].
  intros i t _ H. by rewrite length_insert.
Qed.

Lemma for_up_update f lo n ws (j : nat) :
  (lo + n ≤ length ws)%nat →
  (for_up lo n (λ i ws, <[i := f i ws.[i]]> ws) ws).[j]
  = if decide (lo ≤ j < lo + n)%nat then f j ws.[j] else ws.[j].
Proof.
  intros Hlen.
  pose proof (for_up_invariant
    (λ i vs, length vs = length ws ∧
       ∀ j, vs.[j] = if decide (lo ≤ j < i)%nat then f j ws.[j] else ws.[j])
    lo n (λ i ws, <[i := f i ws.[i]]> ws) ws) as Hinv.
  apply Hinv; clear Hinv.
  - split; [done|]. intros k. case_decide; [lia|done].
  - intros i t Hi [Hl Ht]. split; [by rewrite length_insert|].
    intros k. rewrite word_at_insert by lia.
    destruct (decide (i = k)) as [->|].
    + rewrite Ht. repeat case_decide; first [lia|done].
    + rewrite Ht. repeat case_decide; first [lia|done].
Qed.

Lemma find_up_None {R} lo n (body : nat → option R) :
  find_up lo n body = None ↔ ∀ i, (lo ≤ i < lo + n)%nat → body i = None.
Proof.
  revert lo. induction n as [|n IH]; intros lo; simpl.
  - split; [intros; lia|done].
  - destruct (body lo) eqn:E.
    + split; [done|]. intros H. by rewrite <- E, H by lia.
    + rewrite IH. split; intros H i Hi.
      * destruct (decide (i = lo)) as [->|]; [done|]. apply H. lia.
      * apply H. lia.
Qed.

Lemma find_up_Some {R} lo n (body : nat → option R) r :
  find_up lo n body = Some r ↔
  ∃ i, (lo ≤ i < lo + n)%nat ∧ body i = Some r ∧
       ∀ k, (lo ≤ k < i)%nat → body k = None.
Proof.
  revert lo. induction n as [|n IH]; intros lo; simpl.
  - split; [done|]. intros (i & ? & _). lia.
  - destruct (body lo) as [r'|] eqn:E.
    + split.
      * intros [= <-]. exists lo. repeat split; [lia|lia|done|intros; lia].
      * intros (i & Hi & Hr & Hk). destruct (decide (i = lo)) as [->|]; [congruence|].
        rewrite Hk in E by lia. done.
    + rewrite IH. split.
      * intros (i & Hi & Hr & Hk). exists i. repeat split; [lia|lia|done|].
        intros k Hk'. destruct (decide (k = lo)) as [->|]; [done|]. apply Hk. lia.
      * intros (i & Hi & Hr & Hk). destruct (decide (i = lo)) as [->|]; [congruence|].
        exists i. repeat split; [lia|lia|done|]. intros. apply Hk. lia.
Qed.

Lemma find_up_ext {R} lo n (f g : nat → option R) :
  (∀ i, (lo ≤ i < lo + n)%nat → f i = g i) → find_up lo n f = find_up lo n g.
Proof.
  revert lo. induction n as [|n IH]; intros lo H; simpl; [done|].
  rewrite H by lia. rewrite (IH (S lo)); [done|]. intros. apply H. lia.
Qed.

(** A loop that is continued by a second one when it has not returned. *)
Definition or_else {R : Type} (r s : option R) : option R :=
  match r with Some _ => r | None => s end.

Lemma find_up_join {R} lo n m (f : nat → option R) :
  or_else (find_up lo n f) (find_up (lo + n) m f) = find_up lo (n + m) f.
Proof.
  revert lo. induction n as [|n IH]; intros lo; simpl.
  - by rewrite Nat.add_0_r.
  - destruct (f lo); [done|]. rewrite <- IH. by rewrite Nat.add_succ_r.
Qed.

(** A search that answers [r] at the first index where [p] holds. *)
Lemma find_up_test {R} lo n (p : nat → bool) (r d : R) :
  r ≠ d →
  default d (find_up lo n (λ i, if p i then Some r else None)) = r ↔
  ∃ i, (lo ≤ i < lo + n)%nat ∧ p i = true.
Proof.
  intros Hne. destruct (find_up _ _ _) as [r'|] eqn:E; simpl.
  - apply find_up_Some in E as (i & Hi & Hp & _).
    destruct (p i) eqn:Hpi; simplify_eq. split; [by exists i|done].
  - rewrite find_up_None in E. split; [done|]. intros (i & Hi & Hp).
    specialize (E i Hi). simpl in E. by rewrite Hp in E.
Qed.

Lemma find_up_test_default {R} lo n (p : nat → bool) (r d : R) :
  r ≠ d →
  default d (find_up lo n (λ i, if p i then Some r else None)) = d ↔
  ∀ i, (lo ≤ i < lo + n)%nat → p i = false.
Proof.
  intros Hne. destruct (find_up _ _ _) as [r'|] eqn:E; simpl.
  - apply find_up_Some in E as (i & Hi & Hp & _).
    destruct (p i) eqn:Hpi; simplify_eq. split; [done|].
    intros H. by rewrite H in Hpi.
  - rewrite find_up_None in E. split; [|done]. intros _ i Hi.
    specialize (E i Hi). simpl in E. by destruct (p i).
Qed.

(** ** Errors

    [elog(ERROR, ...)] aborts the call: an operation that can raise one returns
    a [result]. *)

Inductive result (A : Type) : Type :=
| Ok (a : A)
| Err (msg : string).
Arguments Ok {A} _.
Arguments Err {A} _.

#[export] Instance result_ret : MRet result := λ A a, Ok a.
#[export] Instance result_bind : MBind result := λ A B f r,
  match r with Ok a => f a | Err m => Err m end.
#[export] Instance result_fmap : FMap result := λ A B f r,
  match r with Ok a => Ok (f a) | Err m => Err m end.

Lemma result_bind_Ok {A B} (f : A → result B) r b :
  (r ≫= f) = Ok b ↔ ∃ a, r = Ok a ∧ f a = Ok b.
Proof. destruct r; simpl; naive_solver. Qed.
