(* ===== verification/HashFunc.v ===== *)
(** The general hash function of the hash access method
    (src/backend/access/hash/hashfunc.c), a variant of Jenkins' lookup3:
    [rot], [mix], [final], [hash_any] with its word-aligned and byte-wise code
    paths (little-endian builds), and [hash_uint32].

    A key is the list of its bytes; [aligned] says whether the key's address is
    a multiple of four, which selects the code path.  The theorems: both paths
    compute the same value, [hash_uint32] is [hash_any] on the bytes of its
    argument, and [mix] loses no information. *)

From Stdlib Require Import ZArith Lia.
From stdpp Require Import base list option numbers.
From S2P Require Import Prelude.

Module HashFunc.

(** uint32 arithmetic *)
Definition addu (x y : Z) : Z := u32 (x + y).
Definition subu (x y : Z) : Z := u32 (x - y).

Definition rot (x k : Z) : Z :=
  Z.lor (u32 (Z.shiftl x k)) (Z.shiftr x (32 - k)).

Definition mix (a b c : Z) : Z * Z * Z :=
  let a := subu a c in let a := Z.lxor a (rot c 4) in let c := addu c b in
  let b := subu b a in let b := Z.lxor b (rot a 6) in let a := addu a c in
  let c := subu c b in let c := Z.lxor c (rot b 8) in let b := addu b a in
  let a := subu a c in let a := Z.lxor a (rot c 16) in let c := addu c b in
  let b := subu b a in let b := Z.lxor b (rot a 19) in let a := addu a c in
  let c := subu c b in let c := Z.lxor c (rot b 4) in let b := addu b a in
  (a, b, c).

Definition final (a b c : Z) : Z * Z * Z :=
  let c := Z.lxor c b in let c := subu c (rot b 14) in
  let a := Z.lxor a c in let a := subu a (rot c 11) in
  let b := Z.lxor b a in let b := subu b (rot a 25) in
  let c := Z.lxor c b in let c := subu c (rot b 16) in
  let a := Z.lxor a c in let a := subu a (rot c 4) in
  let b := Z.lxor b a in let b := subu b (rot a 14) in
  let c := Z.lxor c b in let c := subu c (rot b 24) in
  (a, b, c).

(** A 32-bit little-endian load of the word at byte [4 * i] of [k], [ka[i]]. *)
Definition load32 (k : list Z) (i : nat) : Z :=
  k.[4 * i] + Z.shiftl k.[4 * i + 1] 8 + Z.shiftl k.[4 * i + 2] 16
  + Z.shiftl k.[4 * i + 3] 24.

(** The little-endian bytes of a word, in memory order. *)
Definition le_bytes (w : Z) : list Z :=
  [ Z.land w 255; Z.land (Z.shiftr w 8) 255; Z.land (Z.shiftr w 16) 255;
    Z.land (Z.shiftr w 24) 255 ].

(** [if (len >= n) acc += v], one label of a switch that falls through *)
Definition fallthrough (len n : nat) (acc v : Z) : Z :=
  if (n <=? len)%nat then addu acc v else acc.

(** The aligned code path: whole words are fetched. *)
Fixpoint aligned_loop (fuel : nat) (k : list Z) (len : nat) (a b c : Z)
  : list Z * nat * (Z * Z * Z) :=
  match fuel with
  | O => (k, len, (a, b, c))
  | S fuel' =>
      if (12 <=? len)%nat then
        let '(a, b, c) :=
          mix (addu a (load32 k 0)) (addu b (load32 k 1)) (addu c (load32 k 2)) in
        aligned_loop fuel' (drop 12 k) (len - 12) a b c
      else (k, len, (a, b, c))
  end.

Definition aligned_tail (k : list Z) (len : nat) (a b c : Z) : Z * Z * Z :=
  if (8 <=? len)%nat then
    let c := fallthrough len 11 c (Z.shiftl k.[10] 24) in
    let c := fallthrough len 10 c (Z.shiftl k.[9] 16) in
    let c := fallthrough len 9 c (Z.shiftl k.[8] 8) in
    (addu a (load32 k 0), addu b (load32 k 1), c)
  else if (4 <=? len)%nat then
    let b := fallthrough len 7 b (Z.shiftl k.[6] 16) in
    let b := fallthrough len 6 b (Z.shiftl k.[5] 8) in
    let b := fallthrough len 5 b k.[4] in
    (addu a (load32 k 0), b, c)
  else
    let a := fallthrough len 3 a (Z.shiftl k.[2] 16) in
    let a := fallthrough len 2 a (Z.shiftl k.[1] 8) in
    let a := fallthrough len 1 a k.[0] in
    (a, b, c).

(** The unaligned code path: the words are assembled from bytes. *)
Fixpoint unaligned_loop (fuel : nat) (k : list Z) (len : nat) (a b c : Z)
  : list Z * nat * (Z * Z * Z) :=
  match fuel with
  | O => (k, len, (a, b, c))
  | S fuel' =>
      if (12 <=? len)%nat then
        let a := addu a (k.[0] + Z.shiftl k.[1] 8 + Z.shiftl k.[2] 16
                         + Z.shiftl k.[3] 24) in
        let b := addu b (k.[4] + Z.shiftl k.[5] 8 + Z.shiftl k.[6] 16
                         + Z.shiftl k.[7] 24) in
        let c := addu c (k.[8] + Z.shiftl k.[9] 8 + Z.shiftl k.[10] 16
                         + Z.shiftl k.[11] 24) in
        let '(a, b, c) := mix a b c in
        unaligned_loop fuel' (drop 12 k) (len - 12) a b c
      else (k, len, (a, b, c))
  end.

Definition unaligned_tail (k : list Z) (len : nat) (a b c : Z) : Z * Z * Z :=
  let c := fallthrough len 11 c (Z.shiftl k.[10] 24) in
  let c := fallthrough len 10 c (Z.shiftl k.[9] 16) in
  let c := fallthrough len 9 c (Z.shiftl k.[8] 8) in
  let b := fallthrough len 8 b (Z.shiftl k.[7] 24) in
  let b := fallthrough len 7 b (Z.shiftl k.[6] 16) in
  let b := fallthrough len 6 b (Z.shiftl k.[5] 8) in
  let b := fallthrough len 5 b k.[4] in
  let a := fallthrough len 4 a (Z.shiftl k.[3] 24) in
  let a := fallthrough len 3 a (Z.shiftl k.[2] 16) in
  let a := fallthrough len 2 a (Z.shiftl k.[1] 8) in
  let a := fallthrough len 1 a k.[0] in
  (a, b, c).

Definition hash_any (aligned : bool) (k : list Z) : Z :=
  let len := length k in
  let init := u32 (0x9e3779b9 + Z.of_nat len + 3923095) in
  let '(k, len, (a, b, c)) :=
    if aligned then aligned_loop len k len init init init
    else unaligned_loop len k len init init init in
  let '(a, b, c) :=
    if aligned then aligned_tail k len a b c else unaligned_tail k len a b c in
  let '(_, _, c) := final a b c in c.

Definition hash_uint32 (k : Z) : Z :=
  let init := u32 (0x9e3779b9 + 4 + 3923095) in
  let '(_, _, c) := final (addu init k) init init in c.

(** ** uint32 arithmetic *)

Lemma addu_range x y : is_u32 (addu x y).
Proof. apply u32_range. Qed.

Lemma subu_range x y : is_u32 (subu x y).
Proof. apply u32_range. Qed.

Lemma addu_assoc x y z : addu (addu x y) z = addu x (y + z).
Proof. unfold addu, u32. rewrite Zplus_mod_idemp_l. f_equal. lia. Qed.

Lemma subu_addu x y : is_u32 x → subu (addu x y) y = x.
Proof.
  intros Hx. unfold subu, addu, u32. rewrite Zminus_mod_idemp_l.
  rewrite Z.add_simpl_r. by apply Z.mod_small.
Qed.

Lemma addu_subu x y : is_u32 x → addu (subu x y) y = x.
Proof.
  intros Hx. unfold subu, addu, u32. rewrite Zplus_mod_idemp_l.
  rewrite Z.sub_add. by apply Z.mod_small.
Qed.

Lemma lxor_u32 x y : is_u32 x → is_u32 y → is_u32 (Z.lxor x y).
Proof.
  intros Hx Hy. apply is_u32_bits.
  - apply Z.lxor_nonneg. unfold is_u32 in *. lia.
  - intros i Hi. by rewrite Z.lxor_spec, !testbit_above.
Qed.

Lemma rot_range x k : is_u32 x → 0 <= k <= 32 → is_u32 (rot x k).
Proof. intros. apply lor_u32; [apply u32_range|]. apply shiftr_u32; [done|lia]. Qed.

#[local] Hint Resolve addu_range subu_range lxor_u32 rot_range : zbits.

Lemma lxor_cancel x y : Z.lxor (Z.lxor x y) y = x.
Proof. by rewrite Z.lxor_assoc, Z.lxor_nilpotent, Z.lxor_0_r. Qed.

(** ** [mix] is reversible *)

(** One of the six lines of [mix], and the step that undoes it. *)
Definition mix_line (k : Z) (t : Z * Z * Z) : Z * Z * Z :=
  let '(x, y, z) := t in (Z.lxor (subu x z) (rot z k), y, addu z y).
Definition unmix_line (k : Z) (t : Z * Z * Z) : Z * Z * Z :=
  let '(x, y, z) := t in
  let z := subu z y in (addu (Z.lxor x (rot z k)) z, y, z).
Definition turn (t : Z * Z * Z) : Z * Z * Z := let '(x, y, z) := t in (y, z, x).
Definition is_u32_triple (t : Z * Z * Z) : Prop :=
  let '(x, y, z) := t in is_u32 x ∧ is_u32 y ∧ is_u32 z.

Lemma mix_lines a b c :
  mix a b c =
  turn (mix_line 4 (turn (mix_line 19 (turn (mix_line 16
    (turn (mix_line 8 (turn (mix_line 6 (turn (mix_line 4 (a, b, c)))))))))))).
Proof. reflexivity. Qed.

Lemma mix_line_range k t :
  0 <= k <= 32 → is_u32_triple t → is_u32_triple (turn (mix_line k t)).
Proof. destruct t as [[x y] z]. simpl. intros ? (?&?&?). auto 6 with zbits. Qed.

Lemma unmix_mix_line k t :
  is_u32_triple t → unmix_line k (mix_line k t) = t.
Proof.
  destruct t as [[x y] z]. simpl. intros (Hx & Hy & Hz).
  rewrite (subu_addu z y), lxor_cancel, addu_subu by done. done.
Qed.

Definition unturn (t : Z * Z * Z) : Z * Z * Z := let '(x, y, z) := t in (z, x, y).

(** The inverse of [mix]: its six lines undone, last line first. *)
Definition unmix (t : Z * Z * Z) : Z * Z * Z :=
  fold_left (λ t k, unmix_line k (unturn t)) [4; 19; 16; 8; 6; 4] t.

Lemma unmix_mix_turn k t :
  is_u32_triple t → unmix_line k (unturn (turn (mix_line k t))) = t.
Proof.
  intros H. rewrite <- (unmix_mix_line k t H) at 2.
  by destruct (mix_line k t) as [[??]?].
Qed.

(** [mix] "is reversible, so any information in (a,b,c) before mix() is
    still in (a,b,c) after mix()": on triples of uint32 it returns a triple of
    uint32 from which [unmix] recovers the arguments. *)
Theorem mix_reversible a b c :
  is_u32_triple (a, b, c) →
  is_u32_triple (mix a b c) ∧ unmix (mix a b c) = (a, b, c).
Proof.
  rewrite mix_lines. intros H. unfold unmix. cbn [fold_left].
  split; [repeat (apply mix_line_range; [lia|]); done|].
  by rewrite !unmix_mix_turn by (repeat (apply mix_line_range; [lia|]); done).
Qed.

Lemma mix_reversible_witness :
  unmix (mix 2654435769 4294967295 1) = (2654435769, 4294967295, 1).
Proof. apply (mix_reversible 2654435769 4294967295 1). by vm_compute. Defined.

(** ** The two code paths agree *)

#[local] Opaque mix final.

Lemma aligned_unaligned_loop fuel k len a b c :
  aligned_loop fuel k len a b c = unaligned_loop fuel k len a b c.
Proof.
  revert k len a b c. induction fuel as [|fuel IH]; intros;
    cbn [aligned_loop unaligned_loop]; [done|].
  destruct (12 <=? len)%nat; [|done]. unfold load32. simpl. destruct (mix _ _ _) as [[??]?].
  apply IH.
Qed.

Lemma loop_tail_short fuel k len a b c :
  (len ≤ fuel)%nat →
  let '(_, len', _) := unaligned_loop fuel k len a b c in (len' < 12)%nat.
Proof.
  revert k len a b c. induction fuel as [|fuel IH]; intros k len a b c Hl;
    cbn [unaligned_loop]; [lia|].
  destruct (Nat.leb_spec 12 len); [|lia]. destruct (mix _ _ _) as [[??]?]. apply IH. lia.
Qed.

Lemma triple_eq (a b c a' b' c' : Z) :
  a = a' → b = b' → c = c' → (a, b, c) = (a', b', c').
Proof. by intros -> -> ->. Qed.

Lemma aligned_unaligned_tail k len a b c :
  (len < 12)%nat → aligned_tail k len a b c = unaligned_tail k len a b c.
Proof.
  intros Hl. unfold aligned_tail, unaligned_tail, fallthrough, load32.
  do 12 (destruct len as [|len]; [cbn [Nat.leb Nat.mul Nat.add];
    rewrite ?addu_assoc; apply triple_eq; first [done|f_equal; lia]|]).
  lia.
Qed.

Lemma hash_any_paths k : hash_any true k = hash_any false k.
Proof.
  unfold hash_any. rewrite aligned_unaligned_loop.
  set (i := u32 _).
  pose proof (loop_tail_short (length k) k (length k) i i i (le_n _)) as Hs.
  destruct (unaligned_loop _ _ _ _ _ _) as [[k' len'] [[a b] c]].
  by rewrite aligned_unaligned_tail.
Qed.

(** C11: the value of [hash_any] does not depend on the alignment of the key's
    address: the word-wise path and the byte-wise path compute the same hash. *)
Theorem hash_any_alignment k aligned aligned' : hash_any aligned k = hash_any aligned' k.
Proof. destruct aligned, aligned'; by rewrite ?hash_any_paths. Qed.

Lemma load32_le_bytes w : is_u32 w → load32 (le_bytes w) 0 = w.
Proof.
  intros Hw. unfold load32, le_bytes, word_at. simpl.
  rewrite !Z.shiftl_mul_pow2, !Z.shiftr_div_pow2 by lia.
  change 255 with (Z.ones 8). rewrite !Z.land_ones by lia.
  unfold is_u32 in Hw. change (2 ^ 32) with 4294967296 in Hw.
  change (2 ^ 8) with 256. change (2 ^ 16) with 65536. change (2 ^ 24) with 16777216.
  pose proof (Z.div_mod w 256 ltac:(lia)).
  pose proof (Z.div_mod (w / 256) 256 ltac:(lia)).
  pose proof (Z.div_mod (w / 256 / 256) 256 ltac:(lia)).
  pose proof (Z.div_div w 256 256 ltac:(lia) ltac:(lia)) as D1.
  pose proof (Z.div_div w 65536 256 ltac:(lia) ltac:(lia)) as D2.
  change (256 * 256) with 65536 in D1. change (65536 * 256) with 16777216 in D2.
  rewrite D1 in *. rewrite D2 in *.
  rewrite (Z.mod_small (w / 16777216) 256);
    [lia|split; [apply Z.div_pos; lia|apply Z.div_lt_upper_bound; lia]].
Qed.

(** [hash_uint32 k] "has the same result as hash_any(&k, sizeof(uint32))". *)
Theorem hash_uint32_hash_any w aligned :
  is_u32 w → hash_uint32 w = hash_any aligned (le_bytes w).
Proof.
  intros Hw.
  assert (hash_uint32 w = hash_any true (le_bytes w)) as E.
  { unfold hash_any, hash_uint32. cbn [aligned_loop length le_bytes Nat.leb].
    unfold aligned_tail, fallthrough. cbn [length le_bytes Nat.leb].
    by rewrite load32_le_bytes. }
  destruct aligned; [done|]. by rewrite E, hash_any_paths.
Qed.

Lemma hash_uint32_hash_any_witness :
  hash_uint32 3735928559 = hash_any false (le_bytes 3735928559).
Proof. apply (hash_uint32_hash_any 3735928559 false). by vm_compute. Defined.

End HashFunc.
