(* ===== verification/Bitmapset.v ===== *)
(** The bitmap-set package (src/backend/nodes/bitmapset.c): the data type and
    every operation of the file.

    A [Bitmapset *] is an [option Bitmapset], [None] being the NULL pointer that
    stands for the empty set.  The operations that recycle an input return the
    set the caller must use from then on; [elog(ERROR)] on a negative member is
    an [Err].  Int arguments are [Z]s; a set's words are [bitmapword]s, uint32.
    BitmapsetSpec states what the operations compute. *)

From Stdlib Require Import ZArith Lia.
From stdpp Require Import base list option numbers strings.
From S2P Require Import Prelude HashFunc.

Module Bitmapset.

Definition BITS_PER_BITMAPWORD : Z := 32.
Definition BITS_PER_BITMAPWORD_LOG2 : Z := 5.

Record Bitmapset := MkBitmapset {
  nwords : nat;
  words : list Z
}.

Inductive BMS_Membership := BMS_EMPTY_SET | BMS_SINGLETON | BMS_MULTIPLE.

#[export] Instance BMS_Membership_eq_dec : EqDecision BMS_Membership.
Proof. solve_decision. Defined.

Definition set_words (a : Bitmapset) (ws : list Z) : Bitmapset :=
  MkBitmapset (nwords a) ws.

Definition WORDNUM (x : Z) : nat :=
  Z.to_nat (Z.shiftr (u32 x) BITS_PER_BITMAPWORD_LOG2).
Definition BITNUM (x : Z) : Z := Z.land (u32 x) (BITS_PER_BITMAPWORD - 1).

(** [~w] of a bitmapword *)
Definition bitnot (w : Z) : Z := u32 (Z.lnot w).

(** [(signedbitmapword) x & -(signedbitmapword) x], two's complement *)
Definition RIGHTMOST_ONE (x : Z) : Z := Z.land (s32 x) (s32 (- s32 x)).
Definition HAS_MULTIPLE_ONES (x : Z) : bool := negb (u32 (RIGHTMOST_ONE x) =? x).

Definition number_of_ones : list Z := [
  0; 1; 1; 2; 1; 2; 2; 3; 1; 2; 2; 3; 2; 3; 3; 4;
  1; 2; 2; 3; 2; 3; 3; 4; 2; 3; 3; 4; 3; 4; 4; 5;
  1; 2; 2; 3; 2; 3; 3; 4; 2; 3; 3; 4; 3; 4; 4; 5;
  2; 3; 3; 4; 3; 4; 4; 5; 3; 4; 4; 5; 4; 5; 5; 6;
  1; 2; 2; 3; 2; 3; 3; 4; 2; 3; 3; 4; 3; 4; 4; 5;
  2; 3; 3; 4; 3; 4; 4; 5; 3; 4; 4; 5; 4; 5; 5; 6;
  2; 3; 3; 4; 3; 4; 4; 5; 3; 4; 4; 5; 4; 5; 5; 6;
  3; 4; 4; 5; 4; 5; 5; 6; 4; 5; 5; 6; 5; 6; 6; 7;
  1; 2; 2; 3; 2; 3; 3; 4; 2; 3; 3; 4; 3; 4; 4; 5;
  2; 3; 3; 4; 3; 4; 4; 5; 3; 4; 4; 5; 4; 5; 5; 6;
  2; 3; 3; 4; 3; 4; 4; 5; 3; 4; 4; 5; 4; 5; 5; 6;
  3; 4; 4; 5; 4; 5; 5; 6; 4; 5; 5; 6; 5; 6; 6; 7;
  2; 3; 3; 4; 3; 4; 4; 5; 3; 4; 4; 5; 4; 5; 5; 6;
  3; 4; 4; 5; 4; 5; 5; 6; 4; 5; 5; 6; 5; 6; 6; 7;
  3; 4; 4; 5; 4; 5; 5; 6; 4; 5; 5; 6; 5; 6; 6; 7;
  4; 5; 5; 6; 5; 6; 6; 7; 5; 6; 6; 7; 6; 7; 7; 8 ].

(** [for (i = BITS_PER_BITMAPWORD / 2; i; i >>= 1)]: six rounds reach [i = 0]. *)
Fixpoint low_zeros_loop (fuel : nat) (i w x : Z) : Z * Z :=
  match fuel with
  | O => (w, x)
  | S fuel' =>
      if i =? 0 then (w, x)
      else
        let m := Z.shiftl 1 i - 1 in
        if Z.land w m =? 0
        then low_zeros_loop fuel' (Z.shiftr i 1) (Z.shiftr w i) (x + i)
        else low_zeros_loop fuel' (Z.shiftr i 1) w x
  end.

Definition num_low_order_zero_bits (w : Z) : Z :=
  let '(w, x) := low_zeros_loop 6 (BITS_PER_BITMAPWORD / 2) w 0 in
  if w =? 0 then x + 1 else x.

Definition bms_copy (a : option Bitmapset) : option Bitmapset :=
  match a with
  | None => None
  | Some a => Some (MkBitmapset (nwords a) (words a))
  end.

Definition bms_is_empty (a : option Bitmapset) : bool :=
  match a with
  | None => true
  | Some a =>
      default true
        (find_up 0 (nwords a) (λ wordnum,
           let w := (words a).[wordnum] in
           if negb (w =? 0) then Some false else None))
  end.

Definition bms_equal (a b : option Bitmapset) : bool :=
  match a, b with
  | None, None => true
  | None, Some _ => bms_is_empty b
  | Some _, None => bms_is_empty a
  | Some a, Some b =>
      let '(shorter, longer) :=
        if (nwords a <=? nwords b)%nat then (a, b) else (b, a) in
      let shortlen := nwords shorter in
      let longlen := nwords longer in
      default true
        (or_else
           (find_up 0 shortlen (λ i,
              if negb ((words shorter).[i] =? (words longer).[i])
              then Some false else None))
           (find_up shortlen (longlen - shortlen) (λ i,
              if negb ((words longer).[i] =? 0) then Some false else None)))
  end.

Definition bms_compare (a b : option Bitmapset) : Z :=
  match a, b with
  | None, None => 0
  | None, Some _ => if bms_is_empty b then 0 else -1
  | Some _, None => if bms_is_empty a then 0 else 1
  | Some a, Some b =>
      let '(shortlen, longlen, longer, sign) :=
        if (nwords a <=? nwords b)%nat then (nwords a, nwords b, b, -1)
        else (nwords b, nwords a, a, 1) in
      default 0
        (or_else
           (find_up 0 shortlen (λ i,
              if (words a).[i] <? (words b).[i] then Some (-1)
              else if (words b).[i] <? (words a).[i] then Some 1
              else None))
           (find_up shortlen (longlen - shortlen) (λ i,
              if negb ((words longer).[i] =? 0) then Some sign else None)))
  end.

Definition negative_member : string := "negative bitmapset member not allowed".

Definition bms_make_singleton (x : Z) : result (option Bitmapset) :=
  if x <? 0 then Err negative_member
  else
    let wordnum := WORDNUM x in
    let bitnum := BITNUM x in
    let ws := replicate (wordnum + 1) 0 in
    Ok (Some (MkBitmapset (wordnum + 1) (<[wordnum := u32 (Z.shiftl 1 bitnum)]> ws))).

(** [for (i = 0; i < n; i++) ws[i] = f(ws[i], other[i])] *)
Definition words_op (f : Z → Z → Z) (n : nat) (ws other : list Z) : list Z :=
  for_up 0 n (λ i ws, <[i := f ws.[i] other.[i]]> ws) ws.

Definition bms_union (a b : option Bitmapset) : option Bitmapset :=
  match a, b with
  | None, _ => bms_copy b
  | _, None => bms_copy a
  | Some a, Some b =>
      let '(res, other) :=
        if (nwords a <=? nwords b)%nat then (b, a) else (a, b) in
      Some (set_words res
              (words_op Z.lor (nwords other) (words res) (words other)))
  end.

Definition bms_intersect (a b : option Bitmapset) : option Bitmapset :=
  match a, b with
  | None, _ => None
  | _, None => None
  | Some a, Some b =>
      let '(res, other) :=
        if (nwords a <=? nwords b)%nat then (a, b) else (b, a) in
      Some (set_words res
              (words_op Z.land (nwords res) (words res) (words other)))
  end.

Definition bms_difference (a b : option Bitmapset) : option Bitmapset :=
  match a, b with
  | None, _ => None
  | _, None => bms_copy a
  | Some a, Some b =>
      let shortlen := Nat.min (nwords a) (nwords b) in
      Some (set_words a
              (words_op (λ v w, Z.land v (bitnot w)) shortlen (words a) (words b)))
  end.

Definition bms_is_subset (a b : option Bitmapset) : bool :=
  match a, b with
  | None, _ => true
  | _, None => bms_is_empty a
  | Some a, Some b =>
      let shortlen := Nat.min (nwords a) (nwords b) in
      default true
        (or_else
           (find_up 0 shortlen (λ i,
              if negb (Z.land (words a).[i] (bitnot (words b).[i]) =? 0)
              then Some false else None))
           (if (nwords b <? nwords a)%nat then
              find_up shortlen (nwords a - shortlen) (λ i,
                if negb ((words a).[i] =? 0) then Some false else None)
            else None))
  end.

Definition bms_is_member (x : Z) (a : option Bitmapset) : result bool :=
  if x <? 0 then Err negative_member
  else
    match a with
    | None => Ok false
    | Some a =>
        let wordnum := WORDNUM x in
        let bitnum := BITNUM x in
        if (nwords a <=? wordnum)%nat then Ok false
        else if negb (Z.land (words a).[wordnum] (u32 (Z.shiftl 1 bitnum)) =? 0)
             then Ok true else Ok false
    end.

Definition bms_overlap (a b : option Bitmapset) : bool :=
  match a, b with
  | Some a, Some b =>
      let shortlen := Nat.min (nwords a) (nwords b) in
      default false
        (find_up 0 shortlen (λ i,
           if negb (Z.land (words a).[i] (words b).[i] =? 0)
           then Some true else None))
  | _, _ => false
  end.

Definition bms_nonempty_difference (a b : option Bitmapset) : bool :=
  match a, b with
  | None, _ => false
  | _, None => negb (bms_is_empty a)
  | Some a, Some b =>
      let shortlen := Nat.min (nwords a) (nwords b) in
      default false
        (or_else
           (find_up 0 shortlen (λ i,
              if negb (Z.land (words a).[i] (bitnot (words b).[i]) =? 0)
              then Some true else None))
           (find_up shortlen (nwords a - shortlen) (λ i,
              if negb ((words a).[i] =? 0) then Some true else None)))
  end.

Definition bms_singleton_member (a : option Bitmapset) : result Z :=
  match a with
  | None => Err "bitmapset is empty"
  | Some a =>
      res ← for_up 0 (nwords a) (λ wordnum (st : result Z),
        res ← st;
        let w := (words a).[wordnum] in
        if negb (w =? 0) then
          if (0 <=? res) || HAS_MULTIPLE_ONES w
          then Err "bitmapset has multiple members"
          else Ok (num_low_order_zero_bits w
                   + Z.of_nat wordnum * BITS_PER_BITMAPWORD)
        else Ok res) (Ok (-1));
      if res <? 0 then Err "bitmapset is empty" else Ok res
  end.

(** [while (w != 0)]: a uint32 is exhausted after four bytes. *)
Fixpoint count_bytes (fuel : nat) (w acc : Z) : Z :=
  match fuel with
  | O => acc
  | S fuel' =>
      if w =? 0 then acc
      else count_bytes fuel' (Z.shiftr w 8)
             (acc + number_of_ones.[Z.to_nat (Z.land w 255)])
  end.

Definition bms_num_members (a : option Bitmapset) : Z :=
  match a with
  | None => 0
  | Some a =>
      for_up 0 (nwords a) (λ wordnum acc,
        count_bytes 5 (words a).[wordnum] acc) 0
  end.

Definition bms_membership (a : option Bitmapset) : BMS_Membership :=
  match a with
  | None => BMS_EMPTY_SET
  | Some a =>
      (* [inl]: the loop goes on with this result; [inr]: it has returned *)
      let res := for_up 0 (nwords a)
        (λ wordnum (st : BMS_Membership + BMS_Membership),
           match st with
           | inr r => inr r
           | inl res =>
               let w := (words a).[wordnum] in
               if negb (w =? 0) then
                 if negb (bool_decide (res = BMS_EMPTY_SET)) || HAS_MULTIPLE_ONES w
                 then inr BMS_MULTIPLE
                 else inl BMS_SINGLETON
               else inl res
           end) (inl BMS_EMPTY_SET) in
      match res with inl r => r | inr r => r end
  end.

Definition bms_add_member (a : option Bitmapset) (x : Z) : result (option Bitmapset) :=
  if x <? 0 then Err negative_member
  else
    match a with
    | None => bms_make_singleton x
    | Some a =>
        let wordnum := WORDNUM x in
        let bitnum := BITNUM x in
        if (nwords a <=? wordnum)%nat then
          r ← bms_make_singleton x;
          match r with
          | None => Ok None
          | Some r =>
              Ok (Some (set_words r
                    (words_op Z.lor (nwords a) (words r) (words a))))
          end
        else
          Ok (Some (set_words a
                (<[wordnum := Z.lor (words a).[wordnum] (u32 (Z.shiftl 1 bitnum))]>
                   (words a))))
    end.

Definition bms_covers_member (a : option Bitmapset) (x : Z) : result bool :=
  if x <? 0 then Err negative_member
  else
    match a with
    | None => Ok false
    | Some a => Ok (WORDNUM x <? nwords a)%nat
    end.

Definition bms_resize (a : option Bitmapset) (wc : nat) : option Bitmapset :=
  match a with
  | Some a =>
      if (wc <=? nwords a)%nat then Some a
      else Some (MkBitmapset wc (words a ++ replicate (wc - nwords a) 0))
  | None => Some (MkBitmapset wc (replicate wc 0))
  end.

Definition bms_del_member (a : option Bitmapset) (x : Z) : result (option Bitmapset) :=
  if x <? 0 then Err negative_member
  else
    match a with
    | None => Ok None
    | Some a =>
        let wordnum := WORDNUM x in
        let bitnum := BITNUM x in
        if (wordnum <? nwords a)%nat then
          Ok (Some (set_words a
                (<[wordnum := Z.land (words a).[wordnum]
                                (bitnot (u32 (Z.shiftl 1 bitnum)))]> (words a))))
        else Ok (Some a)
    end.

Definition bms_add_members (a b : option Bitmapset) : option Bitmapset :=
  match a, b with
  | None, _ => bms_copy b
  | _, None => a
  | Some a, Some b =>
      let '(res, other) := if (nwords a <? nwords b)%nat then (b, a) else (a, b) in
      Some (set_words res
              (words_op Z.lor (nwords other) (words res) (words other)))
  end.

Definition bms_int_members (a b : option Bitmapset) : option Bitmapset :=
  match a, b with
  | None, _ => None
  | _, None => None
  | Some a, Some b =>
      let shortlen := Nat.min (nwords a) (nwords b) in
      let ws := words_op Z.land shortlen (words a) (words b) in
      Some (set_words a
              (for_up shortlen (nwords a - shortlen) (λ i ws, <[i := 0]> ws) ws))
  end.

Definition bms_del_members (a b : option Bitmapset) : option Bitmapset :=
  match a, b with
  | None, _ => None
  | _, None => a
  | Some a, Some b =>
      let shortlen := Nat.min (nwords a) (nwords b) in
      Some (set_words a
              (words_op (λ v w, Z.land v (bitnot w)) shortlen (words a) (words b)))
  end.

Definition bms_join (a b : option Bitmapset) : option Bitmapset :=
  match a, b with
  | None, _ => b
  | _, None => a
  | Some a, Some b =>
      let '(res, other) := if (nwords a <? nwords b)%nat then (b, a) else (a, b) in
      Some (set_words res
              (words_op Z.lor (nwords other) (words res) (words other)))
  end.

Definition bms_first_from (a : option Bitmapset) (x : Z) : Z :=
  match a with
  | None => -1
  | Some a =>
      let wordnum := WORDNUM x in
      if (nwords a <=? wordnum)%nat then -1
      else
        let w := Z.shiftr (words a).[wordnum] (BITNUM x) in
        if negb (Z.land w 1 =? 0) then x
        else if negb (w =? 0) then x + num_low_order_zero_bits w
        else
          default (-1)
            (find_up (wordnum + 1) (nwords a - (wordnum + 1)) (λ wordnum,
               let w := (words a).[wordnum] in
               if negb (w =? 0)
               then Some (Z.of_nat wordnum * BITS_PER_BITMAPWORD
                          + num_low_order_zero_bits w)
               else None))
  end.

(** [bms_foreach]: the members met by the iteration
    [for (x = bms_first_from(a, 0); x >= 0; x = bms_first_from(a, x + 1))]. *)
Fixpoint bms_foreach (fuel : nat) (a : option Bitmapset) (x : Z) : list Z :=
  match fuel with
  | O => []
  | S fuel' =>
      let m := bms_first_from a x in
      if m <? 0 then [] else m :: bms_foreach fuel' a (m + 1)
  end.

Definition bms_first_member (a : option Bitmapset) : Z * option Bitmapset :=
  match a with
  | None => (-1, None)
  | Some a =>
      default (-1, Some a)
        (find_up 0 (nwords a) (λ wordnum,
           let w := (words a).[wordnum] in
           if negb (w =? 0) then
             let w := u32 (RIGHTMOST_ONE w) in
             Some (num_low_order_zero_bits w + Z.of_nat wordnum * BITS_PER_BITMAPWORD,
                   Some (set_words a
                     (<[wordnum := Z.land (words a).[wordnum] (bitnot w)]> (words a))))
           else None))
  end.

(** [for (lastword = nwords; --lastword >= 0;) if (words[lastword] != 0) break;]:
    the number of words up to the last nonzero one. *)
Fixpoint strip_trailing (n : nat) (ws : list Z) : nat :=
  match n with
  | O => O
  | S n' => if negb (ws.[n'] =? 0) then n else strip_trailing n' ws
  end.

Definition bms_hash_value (a : option Bitmapset) : Z :=
  match a with
  | None => 0
  | Some a =>
      match strip_trailing (nwords a) (words a) with
      | O => 0
      | n => HashFunc.hash_any true
               (flat_map HashFunc.le_bytes (take n (words a)))
      end
  end.

End Bitmapset.
