(* ===== verification/BitmapsetSpec.v ===== *)
(** What the bitmap-set package computes.

    A set is read through its words extended with zeros ([bms_word]); [elem]
    is membership and [members] the sorted list of the members.  The lemmas
    characterise every operation of Bitmapset word by word; the theorems lift
    them to sets of integers ([gset Z]). *)

From Stdlib Require Import ZArith Lia Sorted.
From stdpp Require Import base list option numbers strings gmap sorting.
From S2P Require Import Prelude HashFunc Bitmapset.
Import Bitmapset.

Module BitmapsetSpec.

(** ** The invariant and the abstraction *)

(** A valid [Bitmapset]: [nwords] is the length of the array, the words are
    uint32 and every member is a nonnegative int. *)
Definition bms_wf (a : option Bitmapset) : Prop :=
  match a with
  | None => True
  | Some a =>
      length (words a) = nwords a ∧ Forall is_u32 (words a) ∧
      Z.of_nat (nwords a) * 32 <= 2 ^ 31
  end.

Definition bms_word (a : option Bitmapset) (i : nat) : Z :=
  match a with None => 0 | Some a => (words a).[i] end.

Definition bms_len (a : option Bitmapset) : nat :=
  match a with None => 0 | Some a => nwords a end.

(** [x] is a member of [a] *)
Definition has (a : option Bitmapset) (x : Z) : bool :=
  (0 <=? x) && Z.testbit (bms_word a (Z.to_nat (x / 32))) (x mod 32).
Definition elem (x : Z) (a : option Bitmapset) : Prop := has a x = true.

#[export] Instance elem_dec x a : Decision (elem x a).
Proof. unfold elem. apply _. Defined.

(** The members at or above [lo], in increasing order. *)
Definition members_from (a : option Bitmapset) (lo : Z) : list Z :=
  filter (λ x, elem x a) (seqZ lo (32 * Z.of_nat (bms_len a) - lo)).
Definition members (a : option Bitmapset) : list Z := members_from a 0.
Definition to_gset (a : option Bitmapset) : gset Z := list_to_set (members a).

Lemma bms_word_u32 a i : bms_wf a → is_u32 (bms_word a i).
Proof.
  destruct a as [a|]; simpl; [|unfold is_u32; lia].
  intros (_ & H & _). apply word_at_Forall; [unfold is_u32; lia|done].
Qed.
#[local] Hint Resolve bms_word_u32 : zbits.

Lemma bms_word_ge a i : bms_wf a → (bms_len a ≤ i)%nat → bms_word a i = 0.
Proof.
  destruct a as [a|]; simpl; [|done]. intros (Hl & _) Hi.
  apply word_at_ge. lia.
Qed.

Lemma words_ge a i : bms_wf (Some a) → (nwords a ≤ i)%nat → (words a).[i] = 0.
Proof. apply (bms_word_ge (Some a)). Qed.

Lemma words_u32 a i : bms_wf (Some a) → is_u32 (words a).[i].
Proof. apply (bms_word_u32 (Some a)). Qed.
#[local] Hint Resolve words_u32 : zbits.

Lemma has_lt a x : bms_wf a → elem x a → 0 <= x < 32 * Z.of_nat (bms_len a).
Proof.
  unfold elem, has. intros Hwf [H0 H]%andb_prop. apply Z.leb_le in H0. split; [done|].
  destruct (decide (x < 32 * Z.of_nat (bms_len a))) as [|Hge]; [done|].
  rewrite bms_word_ge, Z.bits_0 in H; [done|done|].
  pose proof (Z.div_le_mono (32 * Z.of_nat (bms_len a)) x 32).
  rewrite Z.mul_comm, Z.div_mul in H1 by lia. lia.
Qed.

Lemma elem_of_members_from a lo x :
  bms_wf a → x ∈ members_from a lo ↔ lo <= x ∧ elem x a.
Proof.
  intros Hwf. unfold members_from. rewrite list_elem_of_filter, elem_of_seqZ.
  split; [naive_solver lia|]. intros [Hlo Hx].
  pose proof (has_lt a x Hwf Hx). split; [done|lia].
Qed.

Lemma elem_of_to_gset a x : bms_wf a → x ∈ to_gset a ↔ elem x a.
Proof.
  intros Hwf. unfold to_gset, members.
  rewrite elem_of_list_to_set, elem_of_members_from by done.
  split; [naive_solver|]. intros Hx. pose proof (has_lt a x Hwf Hx). split; [lia|done].
Qed.

(** Membership bit by bit: [x = 32 * i + j]. *)
Lemma elem_split a i j :
  0 <= j < 32 → elem (32 * Z.of_nat i + j) a ↔ Z.testbit (bms_word a i) j = true.
Proof.
  intros Hj. unfold elem, has.
  replace ((32 * Z.of_nat i + j) / 32) with (Z.of_nat i)
    by (apply Z.div_unique with j; lia).
  replace ((32 * Z.of_nat i + j) mod 32) with j
    by (apply Z.mod_unique with (Z.of_nat i); lia).
  rewrite Nat2Z.id, (proj2 (Z.leb_le 0 _)) by lia. done.
Qed.

Lemma split_index x : 0 <= x → ∃ i j, x = 32 * Z.of_nat i + j ∧ 0 <= j < 32.
Proof.
  intros Hx. exists (Z.to_nat (x / 32)), (x mod 32).
  pose proof (Z.div_mod x 32 ltac:(lia)). pose proof (Z.mod_pos_bound x 32 ltac:(lia)).
  pose proof (Z.div_pos x 32 Hx ltac:(lia)). lia.
Qed.

(** Sets agree when their words do. *)
Lemma words_eq_elem a b :
  bms_wf a → bms_wf b →
  (∀ i, bms_word a i = bms_word b i) ↔ (∀ x, elem x a ↔ elem x b).
Proof.
  intros Ha Hb. split.
  - intros H x. unfold elem, has. by rewrite H.
  - intros H i. apply word_ext; [auto with zbits..|]. intros j Hj.
    apply eq_true_iff_eq. rewrite <- !elem_split by done. apply H.
Qed.

Lemma to_gset_eq a b :
  bms_wf a → bms_wf b → to_gset a = to_gset b ↔ (∀ i, bms_word a i = bms_word b i).
Proof.
  intros Ha Hb. rewrite words_eq_elem by done. rewrite set_eq.
  split; intros H x; specialize (H x); rewrite !elem_of_to_gset in * by done; done.
Qed.

(** ** Indexing *)

Lemma WORDNUM_spec x : is_u32 x → WORDNUM x = Z.to_nat (x / 32).
Proof.
  intros Hx. unfold WORDNUM, BITS_PER_BITMAPWORD_LOG2.
  rewrite u32_id by done. by rewrite Z.shiftr_div_pow2.
Qed.

Lemma BITNUM_spec x : is_u32 x → BITNUM x = x mod 32.
Proof.
  intros Hx. unfold BITNUM, BITS_PER_BITMAPWORD.
  rewrite u32_id by done. change (32 - 1) with (Z.ones 5).
  by rewrite Z.land_ones.
Qed.

Lemma WORDNUM_split i j :
  0 <= j < 32 → 32 * Z.of_nat i + j < 2 ^ 32 →
  WORDNUM (32 * Z.of_nat i + j) = i ∧ BITNUM (32 * Z.of_nat i + j) = j.
Proof.
  intros Hj Hx. rewrite WORDNUM_spec, BITNUM_spec by (unfold is_u32; lia). split.
  - rewrite <- (Z.div_unique _ 32 (Z.of_nat i) j) by lia. lia.
  - symmetry. apply Z.mod_unique with (Z.of_nat i); lia.
Qed.

Lemma one_bit j : 0 <= j < 32 → u32 (Z.shiftl 1 j) = 2 ^ j.
Proof.
  intros Hj. rewrite Z.shiftl_mul_pow2, Z.mul_1_l by lia.
  by apply u32_id, pow2_u32.
Qed.

Lemma bitnot_testbit w i : 0 <= i < 32 → Z.testbit (bitnot w) i = negb (Z.testbit w i).
Proof. intros Hi. unfold bitnot. rewrite u32_testbit by done. apply Z.lnot_spec. lia. Qed.

Lemma bitnot_u32 w : is_u32 (bitnot w).
Proof. apply u32_range. Qed.
#[local] Hint Resolve bitnot_u32 : zbits.

Lemma land_bitnot v w : is_u32 v → Z.land v (bitnot w) = Z.ldiff v w.
Proof.
  intros Hv. apply word_ext.
  - apply land_u32; [done|]. apply bitnot_u32.
  - by apply ldiff_u32.
  - intros i Hi. by rewrite Z.land_spec, Z.ldiff_spec, bitnot_testbit.
Qed.

Lemma land_pow2_testbit w j : 0 <= j < 32 → Z.land w (2 ^ j) = 0 ↔ Z.testbit w j = false.
Proof.
  intros Hj. split.
  - intros H. pose proof (Z.land_spec w (2 ^ j) j) as E.
    rewrite H, Z.bits_0, Z.pow2_bits_true in E by lia. by rewrite andb_true_r in E.
  - intros H. apply Z.bits_inj'. intros i Hi.
    rewrite Z.land_spec, Z.bits_0, Z.pow2_bits_eqb by lia.
    destruct (Z.eqb_spec j i) as [<-|]; [by rewrite H|apply andb_false_r].
Qed.

(** ** Operations that build a set, word by word *)

Lemma words_op_length f n ws other : length (words_op f n ws other) = length ws.
Proof. apply (for_up_update_length (λ i v, f v other.[i])). Qed.

Lemma words_op_at f n ws other (j : nat) :
  (n ≤ length ws)%nat →
  (words_op f n ws other).[j]
  = if decide (j < n)%nat then f ws.[j] other.[j] else ws.[j].
Proof.
  intros Hn. unfold words_op. rewrite (for_up_update (λ i v, f v other.[i])) by lia.
  repeat case_decide; first [lia|done].
Qed.

Lemma set_words_wf a ws :
  bms_wf (Some a) → length ws = nwords a → (∀ i, is_u32 ws.[i]) →
  bms_wf (Some (set_words a ws)).
Proof.
  intros (_ & _ & Hn) Hl Hu. simpl. repeat split; [done| |done].
  apply Forall_word_at. auto.
Qed.

(** The result of a loop over the first [n] words is a valid set holding
    [f]'s words; [f] must act as the identity where the loop does not reach. *)
Lemma words_op_spec f n a b :
  bms_wf (Some a) → bms_wf (Some b) → (n ≤ nwords a)%nat →
  (∀ v w, is_u32 v → is_u32 w → is_u32 (f v w)) →
  (∀ i, (n ≤ i)%nat → f (words a).[i] (words b).[i] = (words a).[i]) →
  bms_wf (Some (set_words a (words_op f n (words a) (words b)))) ∧
  ∀ i, bms_word (Some (set_words a (words_op f n (words a) (words b)))) i
       = f (bms_word (Some a) i) (bms_word (Some b) i).
Proof.
  intros Ha Hb Hn Hf Hid. pose proof (proj1 Ha) as Hl.
  assert (∀ i, (words_op f n (words a) (words b)).[i]
               = f (bms_word (Some a) i) (bms_word (Some b) i)) as Hat.
  { intros i. rewrite words_op_at by lia. case_decide as Hi; simpl; [done|].
    symmetry. apply Hid. lia. }
  split; [|done]. apply set_words_wf; [done|by rewrite words_op_length|].
  intros i. rewrite Hat. apply Hf; by apply bms_word_u32.
Qed.

Lemma bms_copy_id a : bms_copy a = a.
Proof. by destruct a as [[]|]. Qed.

Lemma union_words a b :
  bms_wf a → bms_wf b →
  bms_wf (bms_union a b) ∧
  ∀ i, bms_word (bms_union a b) i = Z.lor (bms_word a i) (bms_word b i).
Proof.
  intros Ha Hb. unfold bms_union. rewrite !bms_copy_id.
  destruct a as [a|], b as [b|].
  - destruct (Nat.leb_spec (nwords a) (nwords b)).
    + destruct (words_op_spec Z.lor (nwords a) b a) as [Hwf Hat];
        [done|done|lia|apply lor_u32| |].
      { intros i Hi. rewrite (words_ge a i Ha) by done. apply Z.lor_0_r. }
      split; [done|]. intros i. by rewrite Hat, Z.lor_comm.
    + apply words_op_spec; [done|done|lia|apply lor_u32|].
      intros i Hi. rewrite (words_ge b i Hb) by done. apply Z.lor_0_r.
  - split; [done|]. intros i. by rewrite Z.lor_0_r.
  - done.
  - done.
Qed.

Lemma add_members_words a b :
  bms_wf a → bms_wf b →
  bms_wf (bms_add_members a b) ∧
  ∀ i, bms_word (bms_add_members a b) i = Z.lor (bms_word a i) (bms_word b i).
Proof.
  intros Ha Hb. unfold bms_add_members. rewrite !bms_copy_id.
  destruct a as [a|], b as [b|].
  - destruct (Nat.ltb_spec (nwords a) (nwords b)).
    + destruct (words_op_spec Z.lor (nwords a) b a) as [Hwf Hat];
        [done|done|lia|apply lor_u32| |].
      { intros i Hi. rewrite (words_ge a i Ha) by done. apply Z.lor_0_r. }
      split; [done|]. intros i. by rewrite Hat, Z.lor_comm.
    + apply words_op_spec; [done|done|lia|apply lor_u32|].
      intros i Hi. rewrite (words_ge b i Hb) by done. apply Z.lor_0_r.
  - split; [done|]. intros i. by rewrite Z.lor_0_r.
  - done.
  - done.
Qed.

Lemma join_add_members a b : bms_join a b = bms_add_members a b.
Proof. destruct a as [[]|], b as [[]|]; done. Qed.

Lemma intersect_words a b :
  bms_wf a → bms_wf b →
  bms_wf (bms_intersect a b) ∧
  ∀ i, bms_word (bms_intersect a b) i = Z.land (bms_word a i) (bms_word b i).
Proof.
  intros Ha Hb. unfold bms_intersect.
  destruct a as [a|], b as [b|]; [|by split; [|intros; rewrite Z.land_0_r]|done..].
  assert (∀ v w, is_u32 v → is_u32 w → is_u32 (Z.land v w)) as Hf
    by (intros v w Hv [Hw _]; auto with zbits).
  destruct (Nat.leb_spec (nwords a) (nwords b)).
  - apply words_op_spec; [done|done|lia|done|].
    intros i Hi. by rewrite (words_ge a i Ha).
  - destruct (words_op_spec Z.land (nwords b) b a) as [Hwf Hat];
      [done|done|lia|done| |].
    { intros i Hi. by rewrite (words_ge b i Hb). }
    split; [done|]. intros i. by rewrite Hat, Z.land_comm.
Qed.

Lemma difference_words a b :
  bms_wf a → bms_wf b →
  bms_wf (bms_difference a b) ∧
  ∀ i, bms_word (bms_difference a b) i = Z.ldiff (bms_word a i) (bms_word b i).
Proof.
  intros Ha Hb. unfold bms_difference.
  destruct a as [a|], b as [b|]; [| |done..].
  - destruct (words_op_spec (λ v w, Z.land v (bitnot w))
      (Nat.min (nwords a) (nwords b)) a b) as [Hwf Hat]; [done|done|lia| | |].
    + intros v w Hv _. apply land_u32; [done|]. apply bitnot_u32.
    + intros i Hi. rewrite land_bitnot by auto with zbits.
      destruct (Nat.min_spec (nwords a) (nwords b)) as [[_ Hm]|[_ Hm]]; rewrite Hm in Hi.
      * rewrite (words_ge a i Ha) by done. apply Z.ldiff_0_l.
      * rewrite (words_ge b i Hb) by done. apply Z.ldiff_0_r.
    + split; [done|]. intros i. rewrite Hat. apply land_bitnot. by apply bms_word_u32.
  - rewrite bms_copy_id. split; [done|]. intros i. by rewrite Z.ldiff_0_r.
Qed.

Lemma del_members_difference a b : bms_del_members a b = bms_difference a b.
Proof. by destruct a as [[]|], b as [[]|]. Qed.

Lemma int_members_words a b :
  bms_wf a → bms_wf b →
  bms_wf (bms_int_members a b) ∧
  ∀ i, bms_word (bms_int_members a b) i = Z.land (bms_word a i) (bms_word b i).
Proof.
  intros Ha Hb. unfold bms_int_members.
  destruct a as [a|], b as [b|]; [|by split; [|intros; rewrite Z.land_0_r]|done..].
  set (n := Nat.min _ _).
  set (ws := for_up n _ _ _).
  pose proof (proj1 Ha) as Hl.
  assert (length ws = nwords a) as Hlws.
  { unfold ws. rewrite (for_up_update_length (λ _ _, 0)). by rewrite words_op_length. }
  assert (∀ i, ws.[i] = Z.land (bms_word (Some a) i) (bms_word (Some b) i)) as Hat.
  { intros i. unfold ws. rewrite (for_up_update (λ _ _, 0))
      by (rewrite words_op_length; lia).
    rewrite words_op_at by lia. simpl.
    repeat case_decide; try lia; try done.
    - by rewrite (words_ge b i Hb), Z.land_0_r by lia.
    - by rewrite (words_ge a i Ha) by lia. }
  split; [|done]. apply set_words_wf; [done|done|].
  intros i. rewrite Hat. apply land_u32; [by apply bms_word_u32|].
  by apply (bms_word_u32 (Some b)).
Qed.

(** The word at [i] of the set holding only [x]. *)
Definition single_word (x : Z) (i : nat) : Z :=
  if decide (i = WORDNUM x) then 2 ^ BITNUM x else 0.

Lemma BITNUM_range x : 0 <= x < 2 ^ 31 → 0 <= BITNUM x < 32.
Proof. intros. rewrite BITNUM_spec by (unfold is_u32; lia). by apply Z.mod_pos_bound. Qed.

Lemma WORDNUM_bound x : 0 <= x < 2 ^ 31 → Z.of_nat (WORDNUM x + 1) * 32 <= 2 ^ 31.
Proof.
  intros Hx. rewrite WORDNUM_spec by (unfold is_u32; lia).
  pose proof (Z.div_lt_upper_bound x 32 (2 ^ 26) ltac:(lia) ltac:(lia)).
  pose proof (Z.div_pos x 32 ltac:(lia) ltac:(lia)). lia.
Qed.

Lemma single_word_u32 x i : 0 <= x < 2 ^ 31 → is_u32 (single_word x i).
Proof.
  intros Hx. unfold single_word. case_decide; [|unfold is_u32; lia].
  by apply pow2_u32, BITNUM_range.
Qed.

Lemma make_singleton_words x :
  0 <= x < 2 ^ 31 →
  ∃ s, bms_make_singleton x = Ok (Some s) ∧ nwords s = (WORDNUM x + 1)%nat ∧
       bms_wf (Some s) ∧ ∀ i, bms_word (Some s) i = single_word x i.
Proof.
  intros Hx. unfold bms_make_singleton. rewrite (proj2 (Z.ltb_ge x 0)) by lia.
  eexists. split; [done|]. split; [done|].
  rewrite one_bit by (by apply BITNUM_range).
  assert (∀ i, (<[WORDNUM x:=2 ^ BITNUM x]> (replicate (WORDNUM x + 1) 0)).[i]
               = single_word x i) as Hat.
  { intros i. rewrite word_at_insert by (rewrite length_replicate; lia).
    rewrite word_at_replicate. unfold single_word.
    repeat case_decide; by subst. }
  split; [|done]. repeat split.
  - simpl. by rewrite length_insert, length_replicate.
  - apply Forall_word_at. intros i _. simpl. rewrite Hat. by apply single_word_u32.
  - simpl. pose proof (WORDNUM_bound x Hx). lia.
Qed.

Lemma add_member_words a x :
  bms_wf a → 0 <= x < 2 ^ 31 →
  ∃ c, bms_add_member a x = Ok c ∧ bms_wf c ∧
       ∀ i, bms_word c i = Z.lor (bms_word a i) (single_word x i).
Proof.
  intros Ha Hx. unfold bms_add_member. rewrite (proj2 (Z.ltb_ge x 0)) by lia.
  destruct (make_singleton_words x Hx) as (s & Es & Hns & Hs & Hat).
  destruct a as [a|]; [|exists (Some s); by rewrite Es].
  destruct (Nat.leb_spec (nwords a) (WORDNUM x)).
  - rewrite Es. simpl. eexists. split; [done|].
    destruct (words_op_spec Z.lor (nwords a) s a) as [Hwf Hw];
      [done|done|lia|apply lor_u32| |].
    { intros i Hi. rewrite (words_ge a i Ha) by done. apply Z.lor_0_r. }
    split; [done|]. intros i. by rewrite Hw, Z.lor_comm, Hat.
  - eexists. split; [done|].
    rewrite one_bit by (by apply BITNUM_range).
    assert (∀ i, (<[WORDNUM x:=Z.lor (words a).[WORDNUM x] (2 ^ BITNUM x)]> (words a)).[i]
                 = Z.lor (words a).[i] (single_word x i)) as Hw.
    { intros i. pose proof (proj1 Ha). rewrite word_at_insert by lia.
      unfold single_word. repeat case_decide; subst; rewrite ?Z.lor_0_r; done. }
    split; [|done]. apply set_words_wf; [done|rewrite length_insert; apply Ha|].
    intros i. rewrite Hw. apply lor_u32; [by apply words_u32|by apply single_word_u32].
Qed.

Lemma del_member_words a x :
  bms_wf a → 0 <= x < 2 ^ 31 →
  ∃ c, bms_del_member a x = Ok c ∧ bms_wf c ∧
       ∀ i, bms_word c i = Z.ldiff (bms_word a i) (single_word x i).
Proof.
  intros Ha Hx. unfold bms_del_member. rewrite (proj2 (Z.ltb_ge x 0)) by lia.
  destruct a as [a|]; [|by exists None].
  destruct (Nat.ltb_spec (WORDNUM x) (nwords a)).
  - eexists. split; [done|].
    rewrite one_bit by (by apply BITNUM_range).
    assert (∀ i, (<[WORDNUM x:=Z.land (words a).[WORDNUM x] (bitnot (2 ^ BITNUM x))]>
                    (words a)).[i]
                 = Z.ldiff (words a).[i] (single_word x i)) as Hw.
    { intros i. pose proof (proj1 Ha). rewrite word_at_insert by lia.
      rewrite land_bitnot by auto with zbits.
      unfold single_word. repeat case_decide; subst; rewrite ?Z.ldiff_0_r; done. }
    split; [|done]. apply set_words_wf; [done|rewrite length_insert; apply Ha|].
    intros i. rewrite Hw. by apply ldiff_u32, words_u32.
  - eexists. split; [done|]. split; [done|]. intros i. simpl. unfold single_word.
    case_decide; [|by rewrite Z.ldiff_0_r].
    by rewrite (words_ge a i Ha), Z.ldiff_0_l by lia.
Qed.

Lemma single_word_testbit x i j :
  0 <= x < 2 ^ 31 → 0 <= j < 32 →
  Z.testbit (single_word x i) j = bool_decide (32 * Z.of_nat i + j = x).
Proof.
  intros Hx Hj. destruct (split_index x) as (k & l & -> & Hl); [lia|].
  destruct (WORDNUM_split k l) as [E1 E2]; [done|lia|].
  unfold single_word. rewrite E1, E2. case_decide as E.
  - subst i. rewrite Z.pow2_bits_eqb by lia. apply eq_true_iff_eq.
    rewrite Z.eqb_eq, bool_decide_eq_true. lia.
  - rewrite Z.bits_0. symmetry. apply bool_decide_eq_false. intros ?. apply E. lia.
Qed.

(** Word-wise equations give the members of the result. *)
Lemma elem_lor a b c :
  (∀ i, bms_word c i = Z.lor (bms_word a i) (bms_word b i)) →
  ∀ x, elem x c ↔ elem x a ∨ elem x b.
Proof.
  intros H x. unfold elem, has. rewrite H, Z.lor_spec.
  destruct (0 <=? x), (Z.testbit _ _), (Z.testbit _ _); simpl; naive_solver.
Qed.

Lemma elem_land a b c :
  (∀ i, bms_word c i = Z.land (bms_word a i) (bms_word b i)) →
  ∀ x, elem x c ↔ elem x a ∧ elem x b.
Proof.
  intros H x. unfold elem, has. rewrite H, Z.land_spec.
  destruct (0 <=? x), (Z.testbit _ _), (Z.testbit _ _); simpl; naive_solver.
Qed.

Lemma elem_ldiff a b c :
  (∀ i, bms_word c i = Z.ldiff (bms_word a i) (bms_word b i)) →
  ∀ x, elem x c ↔ elem x a ∧ ¬ elem x b.
Proof.
  intros H x. unfold elem, has. rewrite H, Z.ldiff_spec.
  destruct (0 <=? x), (Z.testbit _ _), (Z.testbit _ _); simpl; naive_solver.
Qed.

Lemma elem_single s x y :
  bms_wf s → 0 <= x < 2 ^ 31 →
  (∀ i, bms_word s i = single_word x i) → elem y s ↔ y = x.
Proof.
  intros Hs Hx H. destruct (decide (0 <= y)) as [Hy|Hy].
  - destruct (split_index y Hy) as (i & j & -> & Hj).
    rewrite elem_split, H, single_word_testbit, bool_decide_eq_true by done. done.
  - split; [|lia]. intros Hy'. apply has_lt in Hy'; [lia|done].
Qed.

(** ** Operations that inspect a set, word by word *)

Lemma is_member_elem a x :
  bms_wf a → 0 <= x < 2 ^ 31 →
  bms_is_member x a = Ok (bool_decide (x ∈ to_gset a)).
Proof.
  intros Ha Hx. unfold bms_is_member. rewrite (proj2 (Z.ltb_ge x 0)) by lia.
  rewrite (bool_decide_ext _ (elem x a)) by (by apply elem_of_to_gset).
  destruct a as [a|].
  - destruct (split_index x ltac:(lia)) as (i & j & -> & Hj).
    destruct (WORDNUM_split i j Hj ltac:(lia)) as [-> ->].
    rewrite (bool_decide_ext _ _ (elem_split _ i j Hj)), one_bit by done.
    destruct (Nat.leb_spec (nwords a) i) as [Hn|Hn].
    + simpl. by rewrite (words_ge a i Ha Hn), Z.bits_0.
    + simpl. pose proof (land_pow2_testbit (words a).[i] j Hj) as Ht.
      destruct (Z.eqb_spec (Z.land (words a).[i] (2 ^ j)) 0) as [E|E]; simpl.
      * by rewrite (proj1 Ht E).
      * destruct (Z.testbit _ _); [done|]. by destruct E; apply Ht.
  - rewrite bool_decide_eq_false_2; [done|]. unfold elem, has. simpl.
    by rewrite Z.bits_0, andb_false_r.
Qed.

Lemma is_empty_words a :
  bms_wf a → bms_is_empty a = true ↔ ∀ i, bms_word a i = 0.
Proof.
  intros Ha. destruct a as [a|]; [|done]. simpl.
  rewrite find_up_test_default by done. split.
  - intros H i. destruct (decide (i < nwords a)%nat); [|apply words_ge; [done|lia]].
    specialize (H i ltac:(lia)). destruct (Z.eqb_spec (words a).[i] 0); done.
  - intros H i _. by rewrite H.
Qed.

Lemma is_empty_false a :
  bms_wf a → bms_is_empty a = false ↔ ∃ i, bms_word a i ≠ 0.
Proof.
  intros Ha. destruct a as [a|]; simpl.
  - rewrite find_up_test by done. split; intros (i & Hi).
    + exists i. destruct Hi as [_ Hi]. destruct (Z.eqb_spec (words a).[i] 0); done.
    + exists i. destruct (decide (i < nwords a)%nat); [|rewrite words_ge in Hi; done || lia].
      split; [lia|]. by destruct (Z.eqb_spec (words a).[i] 0).
  - split; [done|]. by intros (? & ?).
Qed.

(** The scan of the common words and then of the longer set's own words is a
    scan of all words extended with zeros. *)
Lemma scan_both {R} (f g : nat → option R) (n m : nat) :
  (n ≤ m)%nat → (∀ i, (n ≤ i < m)%nat → g i = f i) →
  or_else (find_up 0 n f) (find_up n (m - n) g) = find_up 0 m f.
Proof.
  intros Hnm H. rewrite (find_up_ext n (m - n) g f) by (intros; apply H; lia).
  pose proof (find_up_join 0 n (m - n) f) as E. simpl in E. rewrite E. f_equal. lia.
Qed.

Lemma equal_words a b :
  bms_wf a → bms_wf b →
  bms_equal a b = true ↔ ∀ i, bms_word a i = bms_word b i.
Proof.
  intros Ha Hb. destruct a as [a|], b as [b|]; simpl; [| | |done].
  - assert (∀ s l, bms_wf (Some s) → bms_wf (Some l) → (nwords s ≤ nwords l)%nat →
      default true (or_else
        (find_up 0 (nwords s) (λ i, if negb ((words s).[i] =? (words l).[i])
                                    then Some false else None))
        (find_up (nwords s) (nwords l - nwords s)
           (λ i, if negb ((words l).[i] =? 0) then Some false else None))) = true ↔
      ∀ i, (words s).[i] = (words l).[i]) as Hcore.
    { intros s l Hs Hl Hle. rewrite scan_both.
      - rewrite find_up_test_default by done. split.
        + intros H i. destruct (decide (i < nwords l)%nat).
          * specialize (H i ltac:(lia)).
            destruct (Z.eqb_spec (words s).[i] (words l).[i]); done.
          * by rewrite !words_ge by (done || lia).
        + intros H i _. by rewrite H, Z.eqb_refl.
      - done.
      - intros i Hi. by rewrite (words_ge s i Hs), Z.eqb_sym by lia. }
    destruct (Nat.leb_spec (nwords a) (nwords b)).
    + by apply Hcore.
    + rewrite Hcore by (done || lia). by split; intros Hi i; symmetry; apply Hi.
  - apply (is_empty_words (Some a) Ha).
  - rewrite (is_empty_words (Some b) Hb). by split; intros Hi i; symmetry; apply Hi.
Qed.

Definition word_cmp (v w : Z) : option Z :=
  if v <? w then Some (-1) else if w <? v then Some 1 else None.

Lemma word_cmp_None v w : word_cmp v w = None ↔ v = w.
Proof. unfold word_cmp. destruct (Z.ltb_spec v w), (Z.ltb_spec w v); naive_solver lia. Qed.

Lemma word_cmp_swap v w : word_cmp w v = Z.opp <$> word_cmp v w.
Proof.
  unfold word_cmp. destruct (Z.ltb_spec v w), (Z.ltb_spec w v); done || lia.
Qed.

(** [bms_compare] looks for the first word in which the sets differ. *)
Lemma compare_scan a b :
  bms_wf a → bms_wf b →
  bms_compare a b
  = default 0 (find_up 0 (Nat.max (bms_len a) (bms_len b))
                 (λ i, word_cmp (bms_word a i) (bms_word b i))).
Proof.
  intros Ha Hb.
  assert (∀ s v, bms_wf s → v ≠ 0 → ∀ n, n = bms_len s →
    default 0 (find_up 0 n (λ i, if negb (bms_word s i =? 0) then Some v else None))
    = if bms_is_empty s then 0 else v) as Hscan.
  { intros s v Hs Hv n ->. destruct (bms_is_empty s) eqn:E.
    - apply find_up_test_default; [done|]. rewrite is_empty_words in E by done.
      intros i _. by rewrite E.
    - apply find_up_test; [done|]. apply is_empty_false in E as [i Hi]; [|done].
      exists i. split; [|by destruct (Z.eqb_spec (bms_word s i) 0)].
      destruct (decide (i < bms_len s)%nat); [lia|]. rewrite bms_word_ge in Hi; done || lia. }
  assert (∀ w, is_u32 w → word_cmp 0 w = if negb (w =? 0) then Some (-1) else None) as H0l.
  { intros w [? ?]. unfold word_cmp.
    destruct (Z.eqb_spec w 0), (Z.ltb_spec 0 w), (Z.ltb_spec w 0); done || lia. }
  assert (∀ w, is_u32 w → word_cmp w 0 = if negb (w =? 0) then Some 1 else None) as H0r.
  { intros w Hw. rewrite word_cmp_swap, H0l by done. by destruct (negb _). }
  destruct a as [a|], b as [b|]; [| | |done].
  - cbn [bms_compare]. destruct (Nat.leb_spec (nwords a) (nwords b)).
    + rewrite Nat.max_r by done. f_equal. apply scan_both; [done|].
      intros i Hi. simpl. rewrite (words_ge a i Ha) by lia.
      rewrite <- H0l by (by apply words_u32). done.
    + rewrite Nat.max_l by (simpl; lia). f_equal. apply scan_both; [simpl; lia|].
      intros i Hi. simpl. rewrite (words_ge b i Hb) by lia.
      rewrite <- H0r by (by apply words_u32). done.
  - rewrite Nat.max_l by (simpl; lia). cbn [bms_compare].
    rewrite <- (Hscan (Some a) 1 Ha ltac:(done) (bms_len (Some a)) eq_refl). f_equal.
    apply find_up_ext. intros i _. by rewrite H0r by (by apply bms_word_u32).
  - rewrite Nat.max_r by (simpl; lia). cbn [bms_compare].
    rewrite <- (Hscan (Some b) (-1) Hb ltac:(done) (bms_len (Some b)) eq_refl). f_equal.
    apply find_up_ext. intros i _. by rewrite H0l by (by apply bms_word_u32).
Qed.

(** The sets' words compared in lexicographic order. *)
Definition lex_lt (a b : option Bitmapset) : Prop :=
  ∃ i, bms_word a i < bms_word b i ∧ ∀ j, (j < i)%nat → bms_word a j = bms_word b j.

Lemma compare_lt a b :
  bms_wf a → bms_wf b → bms_compare a b = -1 ↔ lex_lt a b.
Proof.
  intros Ha Hb. rewrite compare_scan by done. split.
  - destruct (find_up _ _ _) as [r|] eqn:E; [|done]. simpl. intros ->.
    apply find_up_Some in E as (i & Hi & Hr & Hj). exists i. split.
    + unfold word_cmp in Hr.
      destruct (Z.ltb_spec (bms_word a i) (bms_word b i)); [done|].
      destruct (_ <? _); done.
    + intros j Hji. apply word_cmp_None. apply Hj. lia.
  - intros (i & Hi & Hj).
    rewrite (proj2 (find_up_Some 0 _ _ (-1))); [done|]. exists i. split; [|split].
    + destruct (decide (i < Nat.max (bms_len a) (bms_len b))%nat); [lia|].
      rewrite !bms_word_ge in Hi by (done || lia). lia.
    + unfold word_cmp. by rewrite (proj2 (Z.ltb_lt _ _)).
    + intros k Hk. apply word_cmp_None. apply Hj. lia.
Qed.

Lemma compare_opp a b :
  bms_wf a → bms_wf b → bms_compare b a = - bms_compare a b.
Proof.
  intros Ha Hb. rewrite !compare_scan by done. rewrite Nat.max_comm.
  generalize (Nat.max (bms_len a) (bms_len b)). generalize 0%nat.
  intros lo n. revert lo. induction n as [|n IH]; intros lo; simpl; [done|].
  rewrite word_cmp_swap. destruct (word_cmp _ _); simpl; [done|apply IH].
Qed.

Lemma compare_zero a b :
  bms_wf a → bms_wf b →
  bms_compare a b = 0 ↔ ∀ i, bms_word a i = bms_word b i.
Proof.
  intros Ha Hb. rewrite compare_scan by done. split.
  - intros H i. destruct (find_up _ _ _) as [r|] eqn:E; simpl in H.
    + apply find_up_Some in E as (k & _ & Hr & _). unfold word_cmp in Hr.
      destruct (_ <? _); [naive_solver|]. destruct (_ <? _); naive_solver.
    + rewrite find_up_None in E.
      destruct (decide (i < Nat.max (bms_len a) (bms_len b))%nat).
      * apply word_cmp_None, E. lia.
      * by rewrite !bms_word_ge by (done || lia).
  - intros H. rewrite (proj2 (find_up_None 0 _ _)); [done|].
    intros i _. apply word_cmp_None, H.
Qed.

Lemma lex_lt_trans a b c : lex_lt a b → lex_lt b c → lex_lt a c.
Proof.
  intros (i & Hi & Hij) (k & Hk & Hkj).
  destruct (lt_eq_lt_dec i k) as [[Hlt|Heq]|Hgt].
  - exists i. rewrite <- Hkj by done. split; [done|]. intros j Hj.
    rewrite Hij, Hkj; [done|lia|done].
  - subst k. exists i. split; [lia|]. intros j Hj. by rewrite Hij, Hkj.
  - exists k. rewrite Hij by done. split; [done|]. intros j Hj.
    rewrite Hij, Hkj; [done|done|lia].
Qed.

Lemma compare_range a b :
  bms_wf a → bms_wf b → bms_compare a b ∈ [-1; 0; 1].
Proof.
  intros Ha Hb. rewrite compare_scan by done.
  destruct (find_up _ _ _) as [r|] eqn:E; simpl; [|set_solver].
  apply find_up_Some in E as (i & _ & Hr & _). unfold word_cmp in Hr.
  destruct (_ <? _); [|destruct (_ <? _)]; set_solver.
Qed.

(** A search over the words for one that passes [p], where words beyond both
    sets cannot pass. *)
Lemma exists_word n (p : nat → bool) (P : nat → Prop) :
  (∀ i, p i = true ↔ P i) → (∀ i, (n ≤ i)%nat → ¬ P i) →
  (∃ i, (0 ≤ i < 0 + n)%nat ∧ p i = true) ↔ ∃ i, P i.
Proof.
  intros Hp Hge. split; intros (i & Hi).
  - exists i. by apply Hp, Hi.
  - exists i. split; [|by apply Hp].
    destruct (decide (i < n)%nat); [lia|]. destruct (Hge i); [lia|done].
Qed.

Lemma neqb_true v : negb (v =? 0) = true ↔ v ≠ 0.
Proof. destruct (Z.eqb_spec v 0); naive_solver. Qed.

Lemma nonempty_difference_words a b :
  bms_wf a → bms_wf b →
  bms_nonempty_difference a b = true ↔ ∃ i, Z.ldiff (bms_word a i) (bms_word b i) ≠ 0.
Proof.
  intros Ha Hb. destruct a as [a|], b as [b|]; cbn [bms_nonempty_difference].
  - rewrite scan_both.
    + rewrite find_up_test by done. apply exists_word.
      * intros i. rewrite neqb_true, land_bitnot by auto with zbits. done.
      * intros i Hi. simpl. rewrite (words_ge a i Ha), Z.ldiff_0_l by done. by intros [].
    + lia.
    + intros i Hi. rewrite land_bitnot by auto with zbits.
      by rewrite (words_ge b i Hb), Z.ldiff_0_r by lia.
  - rewrite negb_true_iff, is_empty_false by done. simpl.
    by setoid_rewrite Z.ldiff_0_r.
  - split; [done|]. intros (i & Hi). by rewrite Z.ldiff_0_l in Hi.
  - split; [done|]. by intros (i & Hi).
Qed.

Lemma is_subset_difference a b :
  bms_wf a → bms_wf b → bms_is_subset a b = negb (bms_nonempty_difference a b).
Proof.
  intros Ha Hb. destruct a as [a|], b as [b|]; cbn [bms_is_subset bms_nonempty_difference];
    [|by rewrite negb_involutive|done..].
  set (f := λ r i, if negb (Z.land (words a).[i] (bitnot (words b).[i]) =? 0)
                   then Some r else None : option bool).
  set (g := λ r i, if negb ((words a).[i] =? 0) then Some r else None : option bool).
  assert (∀ lo n h, (∀ i, h true i = (negb <$> h false i : option bool)) →
            find_up lo n (h true) = negb <$> find_up lo n (h false)) as Hneg.
  { intros lo n h Hh. revert lo. induction n as [|n IH]; intros lo; simpl; [done|].
    rewrite Hh. destruct (h false lo); simpl; [done|apply IH]. }
  change (default true (or_else (find_up 0 (nwords a `min` nwords b) (f false))
    (if (nwords b <? nwords a)%nat then
       find_up (nwords a `min` nwords b) (nwords a - nwords a `min` nwords b) (g false)
     else None)) =
    negb (default false (or_else (find_up 0 (nwords a `min` nwords b) (f true))
      (find_up (nwords a `min` nwords b) (nwords a - nwords a `min` nwords b) (g true))))).
  rewrite !Hneg by (intros i; unfold f, g; by destruct (negb _)).
  destruct (find_up 0 _ (f false)) as [r|]; simpl; [by rewrite negb_involutive|].
  destruct (Nat.ltb_spec (nwords b) (nwords a)).
  - destruct (find_up _ _ (g false)) as [r|]; simpl; by rewrite ?negb_involutive.
  - by replace (nwords a - nwords a `min` nwords b)%nat with 0%nat by lia.
Qed.

Lemma overlap_words a b :
  bms_wf a → bms_wf b →
  bms_overlap a b = true ↔ ∃ i, Z.land (bms_word a i) (bms_word b i) ≠ 0.
Proof.
  intros Ha Hb. destruct a as [a|], b as [b|]; cbn [bms_overlap].
  - rewrite find_up_test by done. apply exists_word.
    + intros i. apply neqb_true.
    + intros i Hi. simpl. destruct (decide (nwords a ≤ i)%nat).
      * rewrite (words_ge a i Ha) by done. by intros [].
      * rewrite (words_ge b i Hb), Z.land_0_r by lia. by intros [].
  - split; [done|]. intros (i & Hi). by rewrite Z.land_0_r in Hi.
  - split; [done|]. by intros (i & Hi).
  - split; [done|]. by intros (i & Hi).
Qed.

(** A nonzero word somewhere is a member somewhere. *)
Lemma exists_elem c :
  bms_wf c → (∃ i, bms_word c i ≠ 0) ↔ ∃ x, elem x c.
Proof.
  intros Hc. split.
  - intros (i & Hi). destruct (word_nonzero_bit (bms_word c i)) as (j & Hj & Hb);
      [auto with zbits|done|].
    exists (32 * Z.of_nat i + j). by apply elem_split.
  - intros (x & Hx). pose proof (has_lt c x Hc Hx) as [H0 _].
    destruct (split_index x H0) as (i & j & -> & Hj). rewrite elem_split in Hx by done.
    exists i. intros E. by rewrite E, Z.bits_0 in Hx.
Qed.

(** ** Bits of a word *)

(** [k] is the position of the lowest one-bit of [w]. *)
Definition lowest_bit (w k : Z) : Prop :=
  0 <= k ∧ Z.testbit w k = true ∧ ∀ j, 0 <= j < k → Z.testbit w j = false.

Lemma mod_pow2_zero w n :
  0 <= n → w mod 2 ^ n = 0 ↔ ∀ j, 0 <= j < n → Z.testbit w j = false.
Proof.
  intros Hn. split.
  - intros H j Hj. rewrite <- (Z.mod_pow2_bits_low w n j) by lia. by rewrite H, Z.bits_0.
  - intros H. apply Z.bits_inj'. intros j Hj. rewrite Z.bits_0.
    destruct (decide (j < n)).
    + rewrite Z.mod_pow2_bits_low by lia. apply H. lia.
    + apply Z.mod_pow2_bits_high. lia.
Qed.

Lemma mod_pow2_shift w n m :
  0 <= n → 0 <= m → w mod 2 ^ n = 0 → Z.shiftr w n mod 2 ^ m = 0 → w mod 2 ^ (n + m) = 0.
Proof.
  intros Hn Hm Hw Hs. rewrite mod_pow2_zero in * by lia. intros j Hj.
  destruct (decide (j < n)); [apply Hw; lia|].
  specialize (Hs (j - n) ltac:(lia)). rewrite Z.shiftr_spec in Hs by lia.
  by replace (j - n + n) with j in Hs by lia.
Qed.

Lemma lowest_bit_shift w n j :
  0 <= n → w mod 2 ^ n = 0 → lowest_bit (Z.shiftr w n) j → lowest_bit w (n + j).
Proof.
  intros Hn Hw (Hj & Ht & Hl). rewrite mod_pow2_zero in Hw by lia.
  rewrite Z.shiftr_spec in Ht by lia. split; [lia|]. split; [by rewrite Z.add_comm|].
  intros l Hl'. destruct (decide (l < n)); [apply Hw; lia|].
  specialize (Hl (l - n) ltac:(lia)). rewrite Z.shiftr_spec in Hl by lia.
  by replace (l - n + n) with l in Hl by lia.
Qed.

Lemma lowest_bit_odd w : w mod 2 ^ 1 ≠ 0 → lowest_bit w 0.
Proof.
  intros H. split; [lia|]. split; [|intros; lia].
  rewrite Z.bit0_odd, Zodd_mod. apply Z.eqb_eq.
  pose proof (Z.mod_pos_bound w 2 ltac:(lia)). change (2 ^ 1) with 2 in H. lia.
Qed.

(** Round [k] of the loop tests the low [half_width k] bits of a word whose
    lowest one-bit is among the low [2 ^ k]. *)
Definition half_width (k : nat) : Z :=
  match k with O => 0 | S k => 2 ^ Z.of_nat k end.

Lemma half_width_S k : Z.shiftr (half_width (S k)) 1 = half_width k.
Proof.
  rewrite Z.shiftr_div_pow2 by lia. destruct k as [|k]; [done|]. simpl half_width.
  change (S k) with (1 + k)%nat. rewrite Nat2Z.inj_add, Z.pow_add_r by lia.
  rewrite Z.mul_comm. by apply Z.div_mul.
Qed.

Lemma low_zeros_loop_spec (k : nat) w x :
  w mod 2 ^ (2 ^ Z.of_nat k) ≠ 0 →
  ∃ j, lowest_bit w j ∧ j < 2 ^ Z.of_nat k ∧
       low_zeros_loop (S k) (half_width k) w x = (Z.shiftr w j, x + j).
Proof.
  revert w x. induction k as [|k IH]; intros w x Hmod.
  - exists 0. rewrite Z.shiftr_0_r, Z.add_0_r. auto using lowest_bit_odd with lia.
  - set (i := 2 ^ Z.of_nat k).
    assert (0 < i) by (apply Z.pow_pos_nonneg; lia).
    assert (2 ^ Z.of_nat (S k) = i + i) as Ei.
    { rewrite Nat2Z.inj_succ, Z.pow_succ_r by lia. fold i. lia. }
    rewrite Ei in *. remember (S k) as f eqn:Ef. cbn [low_zeros_loop]. subst f.
    rewrite half_width_S. change (half_width (S k)) with i.
    rewrite (proj2 (Z.eqb_neq i 0)) by lia.
    replace (Z.shiftl 1 i - 1) with (Z.ones i)
      by (rewrite Z.ones_equiv, Z.shiftl_mul_pow2; lia).
    rewrite Z.land_ones by lia. destruct (Z.eqb_spec (w mod 2 ^ i) 0) as [E|E].
    + destruct (IH (Z.shiftr w i) (x + i)) as (j & Hj & Hlt & ->).
      { intros E'. by apply Hmod, mod_pow2_shift; [lia..| |]. }
      exists (i + j). split; [by apply lowest_bit_shift; [lia|..]|].
      split; [fold i in Hlt; lia|].
      rewrite Z.shiftr_shiftr by (destruct Hj; lia). f_equal. lia.
    + destruct (IH w x E) as (j & Hj & Hlt & ->). exists j. fold i in Hlt. auto with lia.
Qed.

Lemma num_low_order_zero_bits_spec w :
  is_u32 w → w ≠ 0 → lowest_bit w (num_low_order_zero_bits w) ∧
                     num_low_order_zero_bits w < 32.
Proof.
  intros Hw Hne.
  destruct (low_zeros_loop_spec 5 w 0) as (j & Hj & Hlt & E).
  - change (2 ^ 2 ^ Z.of_nat 5) with (2 ^ 32). by rewrite Z.mod_small by apply Hw.
  - unfold num_low_order_zero_bits.
    change (BITS_PER_BITMAPWORD / 2) with (half_width 5). rewrite E.
    assert (Z.shiftr w j ≠ 0) as Hs.
    { intros Hs. pose proof (Z.shiftr_spec w j 0 ltac:(lia)) as Hb.
      rewrite Hs, Z.bits_0, Z.add_0_l in Hb. destruct Hj as (_ & Hj & _). congruence. }
    rewrite (proj2 (Z.eqb_neq _ _) Hs). by rewrite Z.add_0_l.
Qed.

Lemma lowest_bit_unique w k l : lowest_bit w k → lowest_bit w l → k = l.
Proof.
  intros (Hk & Hkt & Hkl) (Hl & Hlt & Hll).
  destruct (Z.lt_trichotomy k l) as [H|[H|H]]; [|done|].
  - rewrite Hll in Hkt by lia. done.
  - rewrite Hkl in Hlt by lia. done.
Qed.

Lemma s32_testbit z i : 0 <= i < 32 → Z.testbit (s32 z) i = Z.testbit z i.
Proof.
  intros Hi. rewrite <- (u32_testbit (s32 z)), u32_s32 by done. by apply u32_testbit.
Qed.

Lemma opp_testbit w k i :
  lowest_bit w k → 0 <= i →
  Z.testbit (- w) i = if decide (i <= k) then Z.testbit w i else negb (Z.testbit w i).
Proof.
  intros (Hk & Ht & Hl) Hi.
  assert (w mod 2 ^ k = 0) as Hm by (apply mod_pow2_zero; [lia|done]).
  set (m := Z.shiftr w (k + 1)).
  assert (w = (2 * m + 1) * 2 ^ k) as Ew.
  { pose proof (Z.div_mod w (2 ^ k) ltac:(apply Z.pow_nonzero; lia)) as E.
    rewrite Hm in E. unfold m. rewrite <- Z.shiftr_shiftr, !Z.shiftr_div_pow2 by lia.
    change (2 ^ 1) with 2.
    pose proof (Z.div_mod (w / 2 ^ k) 2 ltac:(lia)) as E2.
    rewrite <- (Z.add_0_l k), <- Z.div_pow2_bits in Ht by lia.
    rewrite Z.bit0_odd, Zodd_mod in Ht. apply Z.eqb_eq in Ht. nia. }
  assert (- w = (2 * Z.lnot m + 1) * 2 ^ k) as Eo.
  { rewrite Ew. unfold Z.lnot. nia. }
  rewrite Eo, Ew, !Z.mul_pow2_bits by lia.
  case_decide as Hik.
  - destruct (decide (i = k)) as [->|].
    + by rewrite Z.sub_diag, !Z.testbit_odd_0.
    + by rewrite !Z.testbit_neg_r by lia.
  - replace (i - k) with (Z.succ (i - k - 1)) by lia.
    rewrite !Z.testbit_odd_succ by lia. apply Z.lnot_spec. lia.
Qed.

Lemma RIGHTMOST_ONE_spec w k :
  is_u32 w → lowest_bit w k → k < 32 → u32 (RIGHTMOST_ONE w) = 2 ^ k.
Proof.
  intros Hw Hk Hk32. pose proof Hk as (Hk0 & Ht & Hl).
  apply word_ext; [apply u32_range|apply pow2_u32; lia|]. intros i Hi.
  rewrite u32_testbit by done. unfold RIGHTMOST_ONE.
  rewrite Z.land_spec, !s32_testbit by done.
  assert (Z.testbit (- s32 w) i = Z.testbit (- w) i) as Ho.
  { rewrite <- (u32_testbit (- s32 w)), <- (u32_testbit (- w)) by done. f_equal.
    unfold u32. rewrite <- (Z.sub_0_l (s32 w)), <- (Z.sub_0_l w).
    rewrite <- (Zminus_mod_idemp_r 0 (s32 w)), <- (Zminus_mod_idemp_r 0 w).
    pose proof (u32_s32 w) as E. unfold u32 in E. by rewrite E. }
  rewrite Ho, (opp_testbit w k) by (done || lia). rewrite Z.pow2_bits_eqb by lia.
  case_decide; destruct (Z.eqb_spec k i) as [->|]; try lia; try by rewrite Ht.
  - rewrite Hl by lia. done.
  - apply andb_negb_r.
Qed.

Lemma HAS_MULTIPLE_ONES_false w k :
  is_u32 w → lowest_bit w k → k < 32 → HAS_MULTIPLE_ONES w = false ↔ w = 2 ^ k.
Proof.
  intros Hw Hk Hk32. unfold HAS_MULTIPLE_ONES.
  rewrite (RIGHTMOST_ONE_spec w k) by done.
  rewrite negb_false_iff, Z.eqb_eq. done.
Qed.

(** ** Iterating over the members *)

Lemma members_from_cons a lo x :
  bms_wf a → 0 <= lo → elem x a → lo <= x → (∀ y, lo <= y < x → ¬ elem y a) →
  members_from a lo = x :: members_from a (x + 1).
Proof.
  intros Ha Hlo Hx Hle Hlow. pose proof (has_lt a x Ha Hx). unfold members_from.
  set (N := 32 * Z.of_nat (bms_len a)).
  replace (N - lo) with ((x - lo) + (1 + (N - (x + 1)))) by lia.
  rewrite !seqZ_app, !filter_app by lia. replace (lo + (x - lo)) with x by lia.
  rewrite (filter_none _ (seqZ lo _)).
  - change (seqZ x 1) with [x]. rewrite (filter_cons_True _ x []) by done. done.
  - intros y [? ?]%elem_of_seqZ. apply Hlow. lia.
Qed.

Lemma members_from_nil a lo :
  bms_wf a → (∀ y, lo <= y → ¬ elem y a) → members_from a lo = [].
Proof.
  intros Ha Hlow. apply filter_none.
  intros y [? ?]%elem_of_seqZ. apply Hlow. lia.
Qed.

(** The result of [bms_first_from]: the least member from [lo] on, or -1. *)
Definition first_at (a : option Bitmapset) (lo r : Z) : Prop :=
  (r = -1 ∧ ∀ y, lo <= y → ¬ elem y a) ∨
  (lo <= r ∧ elem r a ∧ ∀ y, lo <= y < r → ¬ elem y a).

(** The lowest bit of the first nonzero word. *)
Lemma lowest_in_word a (i : nat) k lo :
  bms_wf a → lowest_bit (bms_word a i) k → k < 32 →
  (∀ y, lo <= y < 32 * Z.of_nat i → ¬ elem y a) →
  ∀ y, lo <= y < 32 * Z.of_nat i + k → ¬ elem y a.
Proof.
  intros Ha (Hk & Ht & Hl) Hk32 Hlow y Hy.
  destruct (decide (y < 32 * Z.of_nat i)); [apply Hlow; lia|].
  replace y with (32 * Z.of_nat i + (y - 32 * Z.of_nat i)) by lia.
  rewrite elem_split, Hl by lia. done.
Qed.

Lemma zero_words_no_elem a (i n : nat) y :
  bms_wf a → (∀ j, (i ≤ j < n)%nat → bms_word a j = 0) →
  32 * Z.of_nat i <= y < 32 * Z.of_nat n → ¬ elem y a.
Proof.
  intros Ha Hz Hy. destruct (split_index y) as (j & l & -> & Hl); [lia|].
  rewrite elem_split, Hz, Z.bits_0 by lia. done.
Qed.

Lemma first_from_search a x :
  bms_wf (Some a) → is_u32 x →
  (∀ y, x <= y < 32 * Z.of_nat (WORDNUM x + 1) → ¬ elem y (Some a)) →
  first_at (Some a) x (default (-1)
    (find_up (WORDNUM x + 1) (nwords a - (WORDNUM x + 1)) (λ wordnum,
       let w := (words a).[wordnum] in
       if negb (w =? 0)
       then Some (Z.of_nat wordnum * BITS_PER_BITMAPWORD + num_low_order_zero_bits w)
       else None))).
Proof.
  intros Ha Hx Hlow. unfold is_u32 in Hx.
  assert (x < 32 * Z.of_nat (WORDNUM x + 1)) as Hxw.
  { rewrite WORDNUM_spec by done. pose proof (Z.div_mod x 32 ltac:(lia)).
    pose proof (Z.mod_pos_bound x 32 ltac:(lia)).
    pose proof (Z.div_pos x 32 ltac:(lia) ltac:(lia)). lia. }
  destruct (find_up _ _ _) as [r|] eqn:E; simpl.
  - apply find_up_Some in E as (i & Hi & Hr & Hz). right. cbv zeta beta in Hr.
    destruct (Z.eqb_spec (words a).[i] 0) as [|Hne]; [done|]. injection Hr as <-.
    destruct (num_low_order_zero_bits_spec (words a).[i]) as [Hk Hk32];
      [by apply words_u32|done|].
    unfold BITS_PER_BITMAPWORD. rewrite (Z.mul_comm _ 32).
    pose proof Hk as (Hk0 & Hkt & _). split; [lia|]. split; [by apply elem_split|].
    apply (lowest_in_word (Some a)); [done..|]. intros y Hy.
    destruct (decide (y < 32 * Z.of_nat (WORDNUM x + 1))); [apply Hlow; lia|].
    apply (zero_words_no_elem (Some a) (WORDNUM x + 1) i y Ha); [|lia].
    intros j Hj. specialize (Hz j ltac:(lia)). simpl in *.
    by destruct (Z.eqb_spec (words a).[j] 0).
  - left. split; [done|]. rewrite find_up_None in E. intros y Hy Hel.
    pose proof (has_lt (Some a) y Ha Hel) as Hb. simpl in Hb.
    destruct (decide (y < 32 * Z.of_nat (WORDNUM x + 1))); [by apply (Hlow y); [lia|]|].
    apply (zero_words_no_elem (Some a) (WORDNUM x + 1) (nwords a) y Ha); [|lia|done].
    intros j Hj. specialize (E j ltac:(lia)). simpl in *.
    by destruct (Z.eqb_spec (words a).[j] 0).
Qed.

Lemma first_from_spec a x :
  bms_wf a → is_u32 x → first_at a x (bms_first_from a x).
Proof.
  intros Ha Hx. pose proof Hx as [? ?]. destruct a as [a|]; cbn [bms_first_from].
  2: { left. split; [done|]. intros y Hy. unfold elem, has. simpl.
       rewrite Z.bits_0. by rewrite andb_false_r. }
  destruct (split_index x ltac:(lia)) as (i & j & E & Hj).
  destruct (WORDNUM_split i j Hj ltac:(lia)) as [Ew Eb]. rewrite <- E in Ew, Eb.
  destruct (Nat.leb_spec (nwords a) (WORDNUM x)) as [Hn|Hn].
  { left. split; [done|]. intros y Hy Hel. pose proof (has_lt (Some a) y Ha Hel) as Hb.
    simpl in Hb. lia. }
  rewrite Eb. set (w := Z.shiftr (words a).[WORDNUM x] j).
  assert (∀ l, 0 <= l < 32 - j → elem (x + l) (Some a) ↔ Z.testbit w l = true) as Hwl.
  { intros l Hl. replace (x + l) with (32 * Z.of_nat i + (j + l)) by lia.
    rewrite elem_split by lia. unfold w. rewrite Ew, Z.shiftr_spec by lia.
    by rewrite Z.add_comm. }
  assert (is_u32 w) as Hw by (apply shiftr_u32; [by apply words_u32|lia]).
  destruct (decide (w = 0)) as [Hz|Hne].
  { rewrite Hz. simpl. apply first_from_search; [done|done|].
    intros y Hy. replace y with (x + (y - x)) by lia. rewrite Hwl, Hz, Z.bits_0 by lia.
    done. }
  destruct (num_low_order_zero_bits_spec w Hw Hne) as [Hk Hk32].
  assert (num_low_order_zero_bits w < 32 - j) as Hkj.
  { destruct Hk as (? & Hkt & _). unfold w in Hkt at 1. rewrite Z.shiftr_spec in Hkt by lia.
    destruct (decide (num_low_order_zero_bits w < 32 - j)); [done|].
    rewrite testbit_above in Hkt; [done|by apply words_u32|lia]. }
  assert (first_at (Some a) x (x + num_low_order_zero_bits w)) as Hf.
  { right. destruct Hk as (Hk0 & Hkt & Hkl). split; [lia|].
    split; [by apply Hwl|]. intros y Hy. replace y with (x + (y - x)) by lia.
    rewrite Hwl, Hkl by lia. done. }
  change (Z.land w 1) with (Z.land w (2 ^ 0)).
  destruct (Z.eqb_spec (Z.land w (2 ^ 0)) 0) as [E1|E1]; cbn [negb].
  - by rewrite (proj2 (Z.eqb_neq w 0)).
  - rewrite land_pow2_testbit, not_false_iff_true in E1 by lia.
    assert (num_low_order_zero_bits w = 0) as E0.
    { apply (lowest_bit_unique w); [done|]. split; [lia|]. split; [done|intros; lia]. }
    rewrite E0, Z.add_0_r in Hf. done.
Qed.

Lemma wf_len a : bms_wf a → 32 * Z.of_nat (bms_len a) <= 2 ^ 31.
Proof. destruct a as [a|]; simpl; [intros (_ & _ & ?)|]; lia. Qed.

Lemma foreach_members_from fuel a lo :
  bms_wf a → 0 <= lo <= 2 ^ 31 → 32 * Z.of_nat (bms_len a) < lo + Z.of_nat fuel →
  bms_foreach fuel a lo = members_from a lo.
Proof.
  intros Ha. pose proof (wf_len a Ha). revert lo.
  induction fuel as [|fuel IH]; intros lo Hlo Hf.
  - simpl. symmetry. apply members_from_nil; [done|]. intros y Hy Hel.
    pose proof (has_lt a y Ha Hel). lia.
  - simpl. destruct (first_from_spec a lo Ha) as [[-> Hn]|(Hle & Hel & Hn)].
    + unfold is_u32. lia.
    + simpl. symmetry. by apply members_from_nil.
    + pose proof (has_lt _ _ Ha Hel).
      rewrite (proj2 (Z.ltb_ge _ 0)) by lia. rewrite IH by lia.
      symmetry. apply members_from_cons; done || lia.
Qed.

(** ** Counting *)

(** The number of one-bits among the low [n] bits. *)
Definition nbits (n w : Z) : nat := length (filter (λ i, Z.testbit w i = true) (seqZ 0 n)).

Lemma length_filter_shift (P Q : Z → Prop)
    `{!∀ x, Decision (P x)} `{!∀ x, Decision (Q x)} (m n : Z) :
  (∀ i, 0 <= i < n → P (m + i) ↔ Q i) →
  length (filter P (seqZ m n)) = length (filter Q (seqZ 0 n)).
Proof.
  intros HPQ. replace (seqZ m n) with (Z.add m <$> seqZ 0 n)
    by (rewrite fmap_add_seqZ; f_equal; lia).
  assert (∀ i, i ∈ seqZ 0 n → P (m + i) ↔ Q i) as Hl
    by (intros i [? ?]%elem_of_seqZ; apply HPQ; lia).
  clear HPQ. revert Hl. generalize (seqZ 0 n). induction l as [|i l IH]; intros Hl; [done|].
  rewrite fmap_cons, !filter_cons. specialize (IH ltac:(set_solver)).
  assert (P (m + i) ↔ Q i) by (apply Hl; set_solver).
  do 2 case_decide; simpl; tauto || lia.
Qed.

Lemma nbits_split n m w :
  0 <= n → 0 <= m → nbits (n + m) w = (nbits n w + nbits m (Z.shiftr w n))%nat.
Proof.
  intros Hn Hm. unfold nbits. rewrite seqZ_app, filter_app, length_app by lia. f_equal.
  apply length_filter_shift. intros i Hi. rewrite Z.shiftr_spec by lia.
  by replace (0 + n + i) with (i + n) by lia.
Qed.

Lemma nbits_0 n : nbits n 0 = 0%nat.
Proof. unfold nbits. by rewrite filter_none by (intros i _; by rewrite Z.bits_0). Qed.

Lemma number_of_ones_spec b :
  0 <= b < 256 → number_of_ones.[Z.to_nat b] = Z.of_nat (nbits 8 b).
Proof.
  intros Hb.
  assert (Forall (λ b, number_of_ones.[Z.to_nat b] = Z.of_nat (nbits 8 b)) (seqZ 0 256))
    as HF by (apply (bool_decide_unpack _); vm_compute; exact I).
  rewrite Forall_forall in HF. apply HF, elem_of_seqZ. lia.
Qed.

Lemma nbits_low_byte w : nbits 8 (Z.land w 255) = nbits 8 w.
Proof.
  unfold nbits. apply (length_filter_shift _ _ 0). intros i Hi.
  change 255 with (Z.ones 8). rewrite Z.land_ones, Z.mod_pow2_bits_low by lia. done.
Qed.

Lemma count_bytes_spec fuel w acc :
  0 <= w < 2 ^ (8 * Z.of_nat fuel) →
  count_bytes fuel w acc = acc + Z.of_nat (nbits (8 * Z.of_nat fuel) w).
Proof.
  revert w acc. induction fuel as [|fuel IH]; intros w acc Hw; cbn [count_bytes].
  - change (2 ^ (8 * Z.of_nat 0)) with 1 in Hw. assert (w = 0) as -> by lia.
    rewrite nbits_0. lia.
  - destruct (Z.eqb_spec w 0) as [->|]; [rewrite nbits_0; lia|].
    replace (8 * Z.of_nat (S fuel)) with (8 + 8 * Z.of_nat fuel) in * by lia.
    rewrite IH.
    + rewrite number_of_ones_spec, nbits_low_byte.
      * rewrite nbits_split by lia. lia.
      * change 255 with (Z.ones 8). rewrite Z.land_ones by lia. by apply Z.mod_pos_bound.
    + rewrite Z.pow_add_r in Hw by lia. split; [apply Z.shiftr_nonneg; lia|].
      rewrite Z.shiftr_div_pow2 by lia. apply Z.div_lt_upper_bound; lia.
Qed.

Lemma count_word w acc : is_u32 w → count_bytes 5 w acc = acc + Z.of_nat (nbits 32 w).
Proof.
  intros Hw. rewrite count_bytes_spec.
  - change (8 * Z.of_nat 5) with (32 + 8). rewrite nbits_split by lia.
    rewrite Z.shiftr_div_pow2, Z.div_small by (lia || apply Hw). rewrite nbits_0. lia.
  - unfold is_u32 in Hw. change (8 * Z.of_nat 5) with 40.
    pose proof (Z.pow_lt_mono_r 2 32 40). lia.
Qed.

(** The members below [32 * n]. *)
Definition members_upto (a : option Bitmapset) (n : nat) : list Z :=
  filter (λ x, elem x a) (seqZ 0 (32 * Z.of_nat n)).

Lemma members_upto_all a : members a = members_upto a (bms_len a).
Proof. unfold members, members_from, members_upto. by rewrite Z.sub_0_r. Qed.

Lemma members_upto_S a n :
  members_upto a (S n)
  = members_upto a n ++ filter (λ x, elem x a) (seqZ (32 * Z.of_nat n) 32).
Proof.
  unfold members_upto. replace (32 * Z.of_nat (S n)) with (32 * Z.of_nat n + 32) by lia.
  rewrite seqZ_app, filter_app by lia. done.
Qed.

Lemma length_word_members a n :
  length (filter (λ x, elem x a) (seqZ (32 * Z.of_nat n) 32)) = nbits 32 (bms_word a n).
Proof. apply length_filter_shift. intros i Hi. by apply elem_split. Qed.

Lemma num_members_length a :
  bms_wf a → bms_num_members a = Z.of_nat (length (members a)).
Proof.
  intros Ha. rewrite members_upto_all. destruct a as [a|]; [|done].
  apply (for_up_invariant (λ i acc, acc = Z.of_nat (length (members_upto (Some a) i)))
           0 (nwords a)); [done|].
  intros i acc _ ->. rewrite members_upto_S, length_app, length_word_members.
  rewrite count_word by (by apply words_u32). simpl. lia.
Qed.

Lemma members_NoDup a : NoDup (members a).
Proof. apply NoDup_filter, NoDup_seqZ. Qed.

Lemma size_to_gset a : size (to_gset a) = length (members a).
Proof. unfold to_gset. apply size_list_to_set, members_NoDup. Qed.

(** The members in word [i]. *)
Definition word_members (a : option Bitmapset) (i : nat) : list Z :=
  filter (λ x, elem x a) (seqZ (32 * Z.of_nat i) 32).

Lemma word_members_NoDup a i : NoDup (word_members a i).
Proof. apply NoDup_filter, NoDup_seqZ. Qed.

Lemma elem_of_word_members a i j :
  32 * Z.of_nat i + j ∈ word_members a i ↔
  0 <= j < 32 ∧ Z.testbit (bms_word a i) j = true.
Proof.
  unfold word_members. rewrite list_elem_of_filter, elem_of_seqZ. split.
  - intros [He Hj]. rewrite elem_split in He by lia. split; [lia|done].
  - intros [Hj Ht]. rewrite elem_split by lia. split; [done|lia].
Qed.

Lemma word_members_zero a i : bms_word a i = 0 → word_members a i = [].
Proof.
  intros E. apply filter_none. intros x [? ?]%elem_of_seqZ.
  replace x with (32 * Z.of_nat i + (x - 32 * Z.of_nat i)) by lia.
  rewrite elem_split, E, Z.bits_0 by lia. done.
Qed.

Lemma list_single_or_more {A} (l : list A) x :
  NoDup l → x ∈ l → ((∀ y, y ∈ l → y = x) ∧ l = [x]) ∨ (2 ≤ length l)%nat.
Proof.
  intros Hnd Hx. destruct l as [|y [|z l]]; [by apply not_elem_of_nil in Hx| |simpl; lia].
  left. apply list_elem_of_singleton in Hx as ->. split; [|done].
  intros y' Hy'. by apply list_elem_of_singleton in Hy'.
Qed.

(** A nonzero word has one member, its lowest bit, or [HAS_MULTIPLE_ONES]. *)
Lemma word_members_nonzero a i :
  bms_wf a → bms_word a i ≠ 0 →
  let k := num_low_order_zero_bits (bms_word a i) in
  if HAS_MULTIPLE_ONES (bms_word a i) then (2 ≤ length (word_members a i))%nat
  else word_members a i = [k + Z.of_nat i * BITS_PER_BITMAPWORD].
Proof.
  intros Ha Hne k. pose proof (bms_word_u32 a i Ha) as Hw.
  destruct (num_low_order_zero_bits_spec _ Hw Hne) as [Hk Hk32]. fold k in Hk, Hk32.
  assert (32 * Z.of_nat i + k ∈ word_members a i) as Hkin.
  { apply elem_of_word_members. destruct Hk as (? & ? & _). split; [lia|done]. }
  pose proof (HAS_MULTIPLE_ONES_false _ k Hw Hk Hk32) as HM.
  destruct (list_single_or_more _ _ (word_members_NoDup a i) Hkin) as [[Hall E]|H2].
  - assert (bms_word a i = 2 ^ k) as Ew.
    { apply word_ext; [done|apply pow2_u32; destruct Hk; lia|]. intros j Hj.
      rewrite Z.pow2_bits_eqb by (destruct Hk; lia).
      destruct (Z.testbit (bms_word a i) j) eqn:Ej.
      - specialize (Hall (32 * Z.of_nat i + j)).
        rewrite elem_of_word_members in Hall. symmetry. apply Z.eqb_eq.
        specialize (Hall (conj Hj Ej)). lia.
      - symmetry. apply Z.eqb_neq. intros <-. destruct Hk as (_ & ? & _). congruence. }
    rewrite (proj2 HM Ew). rewrite E. f_equal. unfold BITS_PER_BITMAPWORD. lia.
  - destruct (HAS_MULTIPLE_ONES _) eqn:EM; [done|]. exfalso.
    pose proof (proj1 HM eq_refl) as Ew.
    destruct (word_members a i) as [|x [|y l]] eqn:El; simpl in H2; [lia|lia|].
    assert (∀ z, z ∈ x :: y :: l → z = 32 * Z.of_nat i + k) as Hz.
    { intros z Hz. rewrite <- El in Hz. replace z with (32 * Z.of_nat i + (z - 32 * Z.of_nat i))
        in * by lia. apply elem_of_word_members in Hz as [Hz Ht].
      rewrite Ew, Z.pow2_bits_eqb in Ht by (destruct Hk; lia). apply Z.eqb_eq in Ht. lia. }
    pose proof (word_members_NoDup a i) as Hnd. rewrite El in Hnd.
    apply NoDup_cons in Hnd as [Hnd _]. apply Hnd.
    rewrite (Hz x) by set_solver. rewrite <- (Hz y) by set_solver. set_solver.
Qed.

Definition classify (n : nat) : BMS_Membership :=
  match n with O => BMS_EMPTY_SET | 1%nat => BMS_SINGLETON | _ => BMS_MULTIPLE end.

Lemma members_upto_word a i : members_upto a (S i) = members_upto a i ++ word_members a i.
Proof. apply members_upto_S. Qed.

Lemma membership_classify a :
  bms_wf a → bms_membership a = classify (length (members a)).
Proof.
  intros Ha. rewrite members_upto_all. destruct a as [a|]; [|done]. cbn [bms_membership].
  match goal with |- match ?loop with _ => _ end = _ =>
    assert (match loop with
            | inl r => r = classify (length (members_upto (Some a) (nwords a))) ∧
                       (length (members_upto (Some a) (nwords a)) ≤ 1)%nat
            | inr r => r = BMS_MULTIPLE ∧
                       (2 ≤ length (members_upto (Some a) (nwords a)))%nat
            end) as Hinv end.
  { apply (for_up_invariant (λ i st,
      match st with
      | inl r => r = classify (length (members_upto (Some a) i)) ∧
                 (length (members_upto (Some a) i) ≤ 1)%nat
      | inr r => r = BMS_MULTIPLE ∧ (2 ≤ length (members_upto (Some a) i))%nat
      end) 0 (nwords a)); [split; [done|simpl; lia]|].
    intros i st _ Hst. rewrite members_upto_word, length_app. cbv zeta.
    destruct st as [r|r]; [|destruct Hst as [-> ?]; split; [done|lia]].
    destruct Hst as [-> Hle].
    change ((words a).[i]) with (bms_word (Some a) i).
    destruct (Z.eqb_spec (bms_word (Some a) i) 0) as [E|Hne]; cbn [negb].
    { rewrite word_members_zero by done. rewrite Nat.add_0_r. done. }
    pose proof (word_members_nonzero (Some a) i Ha Hne) as Hw. cbv zeta in Hw.
    destruct (HAS_MULTIPLE_ONES _); [rewrite orb_true_r; split; [done|lia]|].
    rewrite Hw. destruct (length (members_upto _ _)) as [|[|n]] eqn:En; simpl; [| |lia].
    - split; [done|lia].
    - split; [done|lia]. }
  destruct (for_up _ _ _ _) as [r|r]; [apply Hinv|].
  destruct Hinv as [-> Hn]. by destruct (length _) as [|[|n]]; [lia|lia|].
Qed.

(** What [bms_singleton_member] answers for a set with the given members. *)
Definition singleton_answer (l : list Z) : result Z :=
  match l with
  | [] => Err "bitmapset is empty"
  | [x] => Ok x
  | _ => Err "bitmapset has multiple members"
  end.

Lemma singleton_member_answer a :
  bms_wf a → bms_singleton_member a = singleton_answer (members a).
Proof.
  intros Ha. rewrite members_upto_all. destruct a as [a|]; [|done].
  unfold bms_singleton_member. cbn [bms_len].
  match goal with |- (?loop ≫= _) = _ =>
    assert (match loop with
            | Ok r => (r = -1 ∧ members_upto (Some a) (nwords a) = []) ∨
                      (0 <= r ∧ members_upto (Some a) (nwords a) = [r])
            | Err m => m = "bitmapset has multiple members"%string ∧
                       (2 ≤ length (members_upto (Some a) (nwords a)))%nat
            end) as Hinv end.
  { apply (for_up_invariant (λ i st,
      match st with
      | Ok r => (r = -1 ∧ members_upto (Some a) i = []) ∨
                (0 <= r ∧ members_upto (Some a) i = [r])
      | Err m => m = "bitmapset has multiple members"%string ∧
                 (2 ≤ length (members_upto (Some a) i))%nat
      end) 0 (nwords a)); [by left|].
    intros i st _ Hst. rewrite members_upto_word.
    destruct st as [r|m]; simpl; [|rewrite length_app; destruct Hst; split; [done|lia]].
    change ((words a).[i]) with (bms_word (Some a) i).
    destruct (Z.eqb_spec (bms_word (Some a) i) 0) as [E|Hne]; cbn [negb].
    { by rewrite word_members_zero, app_nil_r. }
    pose proof (word_members_nonzero (Some a) i Ha Hne) as Hw. cbv zeta in Hw.
    destruct (num_low_order_zero_bits_spec (bms_word (Some a) i)) as [[Hk _] _];
      [by apply bms_word_u32|done|].
    destruct (HAS_MULTIPLE_ONES _).
    { rewrite orb_true_r, length_app. split; [done|simpl; lia]. }
    rewrite Hw. destruct Hst as [[-> ->]|[Hr ->]].
    - change (0 <=? -1) with false. cbn [orb]. right.
      split; [unfold BITS_PER_BITMAPWORD; lia|done].
    - rewrite (proj2 (Z.leb_le 0 r)) by done. split; [done|simpl; lia]. }
  destruct (for_up _ _ _ _) as [r|m]; simpl.
  - destruct Hinv as [[-> ->]|[Hr ->]]; [done|].
    by rewrite (proj2 (Z.ltb_ge r 0)).
  - destruct Hinv as [-> Hn]. by destruct (members_upto _ _) as [|x [|y l]];
      [simpl in Hn; lia..|].
Qed.

(** ** [bms_first_member] *)

Lemma members_from_ext a b lo :
  bms_wf a → bms_wf b → bms_len a = bms_len b →
  (∀ y, lo <= y → elem y a ↔ elem y b) → members_from a lo = members_from b lo.
Proof.
  intros Ha Hb Hl H. unfold members_from. rewrite Hl. apply list_filter_iff_in.
  intros y [? ?]%elem_of_seqZ. apply H. lia.
Qed.

Lemma members_from_skip a lo hi :
  bms_wf a → lo <= hi → hi <= 32 * Z.of_nat (bms_len a) →
  (∀ y, lo <= y < hi → ¬ elem y a) → members_from a lo = members_from a hi.
Proof.
  intros Ha Hle Hhi H. unfold members_from. set (N := 32 * Z.of_nat (bms_len a)) in *.
  replace (N - lo) with ((hi - lo) + (N - hi)) by lia.
  rewrite seqZ_app, filter_app by lia. rewrite filter_none.
  - by replace (lo + (hi - lo)) with hi by lia.
  - intros y [? ?]%elem_of_seqZ. apply H. lia.
Qed.

(** Clearing bit [k] of word [i] removes one member. *)
Lemma clear_bit a i k :
  bms_wf (Some a) → (i < nwords a)%nat → 0 <= k < 32 →
  let a' := set_words a (<[i:=Z.ldiff (words a).[i] (2 ^ k)]> (words a)) in
  bms_wf (Some a') ∧
  ∀ y, elem y (Some a') ↔ elem y (Some a) ∧ y ≠ 32 * Z.of_nat i + k.
Proof.
  intros Ha Hi Hk a'. pose proof (proj1 Ha) as Hlen.
  assert (bms_wf (Some a')) as Hwf.
  { apply set_words_wf; [done|by rewrite length_insert|].
    intros j. rewrite word_at_insert by lia.
    case_decide; [by apply ldiff_u32, words_u32|by apply words_u32]. }
  split; [done|]. intros y. destruct (decide (0 <= y)) as [Hy|Hy].
  - destruct (split_index y Hy) as (j & l & -> & Hl). rewrite !elem_split by done.
    simpl. rewrite word_at_insert by lia. case_decide as Hij.
    + subst j. rewrite Z.ldiff_spec, Z.pow2_bits_eqb by lia.
      destruct (Z.eqb_spec k l) as [->|]; simpl.
      * rewrite andb_false_r. split; [done|]. intros [_ []]. lia.
      * rewrite andb_true_r. split; [|tauto]. intros ?. split; [done|lia].
    + split; [|tauto]. intros ?. split; [done|lia].
  - split; [intros H|intros [H _]]; apply has_lt in H; done || lia.
Qed.

Lemma num_low_order_zero_bits_pow2 k : 0 <= k < 32 → num_low_order_zero_bits (2 ^ k) = k.
Proof.
  intros Hk. apply (lowest_bit_unique (2 ^ k)).
  - apply num_low_order_zero_bits_spec; [by apply pow2_u32|]. apply Z.pow_nonzero; lia.
  - split; [lia|]. rewrite Z.pow2_bits_true by lia.
    split; [done|]. intros j Hj. apply Z.pow2_bits_false. lia.
Qed.

Lemma zero_words_none a (n : nat) :
  bms_wf (Some a) →
  (∀ j, (0 ≤ j < n)%nat → (if negb ((words a).[j] =? 0) then false else true) = true) →
  ∀ y, 0 <= y < 32 * Z.of_nat n → ¬ elem y (Some a).
Proof.
  intros Ha Hz y Hy. apply (zero_words_no_elem (Some a) 0 n y Ha); [|lia].
  intros j Hj. specialize (Hz j Hj). simpl. by destruct (Z.eqb_spec (words a).[j] 0).
Qed.

(** What [bms_first_member] answers and leaves behind. *)
Lemma first_member_spec a :
  bms_wf a →
  let '(r, a') := bms_first_member a in
  bms_wf a' ∧
  ((members a = [] ∧ r = -1 ∧ a' = a) ∨ members a = r :: members a').
Proof.
  intros Ha. destruct a as [a|]; [|simpl; auto]. cbn [bms_first_member].
  destruct (find_up _ _ _) as [[r a']|] eqn:E; cbn [default from_option id].
  - apply find_up_Some in E as (i & Hi & Hr & Hz). cbv zeta beta in Hr.
    destruct (Z.eqb_spec (words a).[i] 0) as [|Hne]; [done|].
    destruct (num_low_order_zero_bits_spec (words a).[i]) as [Hk Hk32];
      [by apply words_u32|done|].
    set (k := num_low_order_zero_bits (words a).[i]) in *.
    pose proof Hk as (Hk0 & Hkt & _).
    rewrite (RIGHTMOST_ONE_spec _ k) in Hr by (done || by apply words_u32).
    rewrite num_low_order_zero_bits_pow2, land_bitnot in Hr by (done || by apply words_u32).
    cbn [negb] in Hr. replace (k + _) with (32 * Z.of_nat i + k) in Hr
      by (unfold BITS_PER_BITMAPWORD; lia).
    injection Hr as <- <-. destruct (clear_bit a i k Ha ltac:(lia) ltac:(lia)) as [Hwf Hel].
    set (r := 32 * Z.of_nat i + k) in *. set (a' := set_words a _) in *.
    split; [done|]. right.
    assert (elem r (Some a)) as Hra by (by apply elem_split).
    pose proof (has_lt _ _ Ha Hra) as Hrb. simpl in Hrb.
    assert (∀ y, 0 <= y < r → ¬ elem y (Some a)) as Hlow.
    { apply (lowest_in_word (Some a)); [done..|]. apply zero_words_none; [done|].
      intros j Hj. specialize (Hz j Hj). simpl in Hz. by destruct (negb _). }
    unfold members. rewrite (members_from_cons _ 0 r) by (done || lia). f_equal.
    rewrite (members_from_skip (Some a') 0 (r + 1)); [|done|lia|simpl; lia|].
    + apply members_from_ext; [done..|]. intros y Hy. rewrite Hel.
      split; [|tauto]. intros ?. split; [done|lia].
    + intros y Hy [He Hne']%Hel. apply (Hlow y); [lia|done].
  - split; [done|]. left. split; [|done]. rewrite find_up_None in E.
    apply members_from_nil; [done|]. intros y Hy He.
    pose proof (has_lt _ _ Ha He) as Hb. simpl in Hb.
    apply (zero_words_none a (nwords a) Ha) in He; [done| |lia].
    intros j Hj. specialize (E j Hj). simpl in E. by destruct (negb _).
Qed.

Lemma first_member_len a : bms_len (bms_first_member a).2 = bms_len a.
Proof.
  destruct a as [a|]; [|done]. cbn [bms_first_member].
  destruct (find_up _ _ _) as [[r a']|] eqn:E; [|done].
  apply find_up_Some in E as (i & _ & Hr & _). cbv zeta beta in Hr.
  destruct (negb _); [|done]. by injection Hr as _ <-.
Qed.

(** ** [bms_hash_value] *)

Lemma strip_trailing_spec n ws :
  (strip_trailing n ws ≤ n)%nat ∧
  (∀ i, (strip_trailing n ws ≤ i < n)%nat → ws.[i] = 0) ∧
  ∀ m, strip_trailing n ws = S m → ws.[m] ≠ 0.
Proof.
  induction n as [|n (IH1 & IH2 & IH3)]; simpl; [repeat split; lia || done|].
  destruct (Z.eqb_spec ws.[n] 0) as [E|E]; simpl.
  - repeat split; [lia| |done]. intros i Hi.
    destruct (decide (i = n)) as [->|]; [done|]. apply IH2. lia.
  - repeat split; [lia|intros; lia|]. intros m [= <-]. done.
Qed.

Lemma strip_trailing_eq a b :
  bms_wf (Some a) → bms_wf (Some b) → (∀ i, (words a).[i] = (words b).[i]) →
  strip_trailing (nwords a) (words a) = strip_trailing (nwords b) (words b).
Proof.
  intros Ha Hb H.
  assert (∀ c d, bms_wf (Some c) → bms_wf (Some d) → (∀ i, (words c).[i] = (words d).[i]) →
    (strip_trailing (nwords c) (words c) ≤ strip_trailing (nwords d) (words d))%nat) as Hle.
  { intros c d Hc Hd Hcd.
    destruct (strip_trailing_spec (nwords c) (words c)) as (_ & _ & Hnz).
    destruct (strip_trailing_spec (nwords d) (words d)) as (_ & Hz & _).
    destruct (strip_trailing (nwords c) (words c)) as [|m]; [lia|].
    destruct (decide (m < strip_trailing (nwords d) (words d))%nat); [lia|].
    destruct (Hnz m eq_refl). rewrite Hcd.
    destruct (decide (m < nwords d)%nat); [apply Hz; lia|apply words_ge; [done|lia]]. }
  apply Nat.le_antisymm; apply Hle; auto.
Qed.

Lemma hash_value_words a b :
  bms_wf a → bms_wf b → (∀ i, bms_word a i = bms_word b i) →
  bms_hash_value a = bms_hash_value b.
Proof.
  intros Ha Hb H.
  assert (∀ c, bms_wf (Some c) → (∀ i, (words c).[i] = 0) → bms_hash_value (Some c) = 0) as H0.
  { intros c Hc Hz. simpl. destruct (strip_trailing_spec (nwords c) (words c)) as (_ & _ & Hnz).
    destruct (strip_trailing _ _) as [|m]; [done|]. by destruct (Hnz m eq_refl). }
  destruct a as [a|], b as [b|].
  - simpl. rewrite (strip_trailing_eq a b) by done.
    pose proof (strip_trailing_spec (nwords a) (words a)) as [HA _].
    pose proof (strip_trailing_spec (nwords b) (words b)) as [HB _].
    rewrite (strip_trailing_eq a b) in HA by done.
    set (n := strip_trailing (nwords b) (words b)) in *.
    destruct n as [|m]; [done|]. do 2 f_equal.
    destruct Ha as [Hla _], Hb as [Hlb _].
    apply words_ext; [rewrite !length_take; lia|]. intros i Hi.
    rewrite length_take in Hi. unfold word_at. rewrite !lookup_take.
    rewrite !decide_True by lia. apply H.
  - by apply H0.
  - symmetry. apply H0; [done|]. intros i. symmetry. apply H.
  - done.
Qed.

(** ** The properties of the package *)

Lemma seqZ_sorted m n : StronglySorted Z.lt (seqZ m n).
Proof.
  destruct (decide (0 <= n)) as [Hn|]; [|rewrite seqZ_nil by lia; constructor].
  rewrite <- (Z2Nat.id n Hn). generalize (Z.to_nat n). clear n Hn. intros n. revert m.
  induction n as [|n IH]; intros m; [constructor|].
  rewrite seqZ_cons by lia. constructor.
  - replace (Z.pred (Z.of_nat (S n))) with (Z.of_nat n) by lia. apply IH.
  - apply Forall_forall. intros x Hx%elem_of_seqZ. lia.
Qed.

Lemma sorted_filter (P : Z → Prop) `{!∀ x, Decision (P x)} l :
  StronglySorted Z.lt l → StronglySorted Z.lt (filter P l).
Proof.
  induction 1 as [|x l Hs IH Hx]; [constructor|]. rewrite filter_cons.
  case_decide; [|done]. constructor; [done|].
  rewrite Forall_forall in *. intros y [_ Hy]%list_elem_of_filter. by apply Hx.
Qed.

Ltac gset_of_elem :=
  apply set_eq; intros ?; rewrite ?elem_of_union, ?elem_of_intersection,
    ?elem_of_difference, ?elem_of_singleton, !elem_of_to_gset by done.

Definition refines_op (c : option Bitmapset) (s : gset Z) : Prop :=
  bms_wf c ∧ to_gset c = s.

Lemma union_refines a b c :
  bms_wf a → bms_wf b →
  (bms_wf c ∧ ∀ i, bms_word c i = Z.lor (bms_word a i) (bms_word b i)) →
  refines_op c (to_gset a ∪ to_gset b).
Proof. intros Ha Hb [Hc H]. split; [done|]. gset_of_elem. by apply elem_lor. Qed.

Lemma intersection_refines a b c :
  bms_wf a → bms_wf b →
  (bms_wf c ∧ ∀ i, bms_word c i = Z.land (bms_word a i) (bms_word b i)) →
  refines_op c (to_gset a ∩ to_gset b).
Proof. intros Ha Hb [Hc H]. split; [done|]. gset_of_elem. by apply elem_land. Qed.

Lemma difference_refines a b c :
  bms_wf a → bms_wf b →
  (bms_wf c ∧ ∀ i, bms_word c i = Z.ldiff (bms_word a i) (bms_word b i)) →
  refines_op c (to_gset a ∖ to_gset b).
Proof. intros Ha Hb [Hc H]. split; [done|]. gset_of_elem. by apply elem_ldiff. Qed.

(** C10: on valid sets the binary operations return valid sets and compute
    union, intersection and difference, in the copying and in the recycling
    variants alike. *)
Theorem bms_set_operations a b :
  bms_wf a → bms_wf b →
  refines_op (bms_union a b) (to_gset a ∪ to_gset b) ∧
  refines_op (bms_add_members a b) (to_gset a ∪ to_gset b) ∧
  refines_op (bms_join a b) (to_gset a ∪ to_gset b) ∧
  refines_op (bms_intersect a b) (to_gset a ∩ to_gset b) ∧
  refines_op (bms_int_members a b) (to_gset a ∩ to_gset b) ∧
  refines_op (bms_difference a b) (to_gset a ∖ to_gset b) ∧
  refines_op (bms_del_members a b) (to_gset a ∖ to_gset b).
Proof.
  intros Ha Hb. rewrite join_add_members, del_members_difference.
  auto 10 using union_refines, intersection_refines, difference_refines,
    union_words, add_members_words, intersect_words, int_members_words, difference_words.
Qed.

Lemma single_refines s x :
  0 <= x < 2 ^ 31 → bms_wf s → (∀ i, bms_word s i = single_word x i) → to_gset s = {[x]}.
Proof. intros Hx Hs H. gset_of_elem. by apply elem_single. Qed.

(** the operations on one member: on a nonnegative int they succeed, build,
    extend, shrink or test the set accordingly and return a valid set; a
    negative argument raises the documented error. *)
Theorem bms_member_operations a x :
  bms_wf a → is_s32 x →
  if x <? 0 then
    bms_make_singleton x = Err negative_member ∧
    bms_add_member a x = Err negative_member ∧
    bms_del_member a x = Err negative_member ∧
    bms_is_member x a = Err negative_member
  else
    (∃ s, bms_make_singleton x = Ok s ∧ refines_op s {[x]}) ∧
    (∃ c, bms_add_member a x = Ok c ∧ refines_op c (to_gset a ∪ {[x]})) ∧
    (∃ c, bms_del_member a x = Ok c ∧ refines_op c (to_gset a ∖ {[x]})) ∧
    bms_is_member x a = Ok (bool_decide (x ∈ to_gset a)).
Proof.
  intros Ha Hx. destruct (Z.ltb_spec x 0) as [Hneg|Hpos].
  { unfold bms_make_singleton, bms_add_member, bms_del_member, bms_is_member.
    by rewrite (proj2 (Z.ltb_lt x 0)). }
  assert (0 <= x < 2 ^ 31) as Hx' by (unfold is_s32 in Hx; lia).
  destruct (make_singleton_words x Hx') as (s & Es & _ & Hs & Hsw).
  pose proof (single_refines (Some s) x Hx' Hs Hsw) as Hsx.
  split; [by exists (Some s)|]. split; [|split].
  - destruct (add_member_words a x Ha Hx') as (c & -> & Hc & Hw). exists c.
    split; [done|]. rewrite <- Hsx. apply union_refines; [done..|]. split; [done|].
    intros i. by rewrite Hw, Hsw.
  - destruct (del_member_words a x Ha Hx') as (c & -> & Hc & Hw). exists c.
    split; [done|]. rewrite <- Hsx. apply difference_refines; [done..|]. split; [done|].
    intros i. by rewrite Hw, Hsw.
  - apply is_member_elem; done.
Qed.

Lemma exists_elem_words (f : Z → Z → Z) (g : bool → bool → bool) a b (P : Z → Prop) :
  bms_wf a → bms_wf b →
  (∀ v w, is_u32 v → is_u32 w → is_u32 (f v w)) →
  (∀ v w i, Z.testbit (f v w) i = g (Z.testbit v i) (Z.testbit w i)) →
  g false false = false →
  (∀ x, P x ↔ g (has a x) (has b x) = true) →
  (∃ i, f (bms_word a i) (bms_word b i) ≠ 0) ↔ ∃ x, P x.
Proof.
  intros Ha Hb Hu Hbit Hff HP. split.
  - intros (i & Hi). destruct (word_nonzero_bit (f (bms_word a i) (bms_word b i)))
      as (j & Hj & Ht); [auto with zbits|done|].
    exists (32 * Z.of_nat i + j). apply HP.
    rewrite Hbit in Ht. pose proof (elem_split a i j Hj) as Ea.
    pose proof (elem_split b i j Hj) as Eb. unfold elem in Ea, Eb.
    apply eq_true_iff_eq in Ea, Eb. by rewrite Ea, Eb.
  - intros (x & Hx). apply HP in Hx.
    assert (0 <= x) as H0.
    { unfold has in Hx. destruct (Z.leb_spec 0 x); [done|]. simpl in Hx. congruence. }
    destruct (split_index x H0) as (i & j & -> & Hj). exists i. intros E.
    pose proof (elem_split a i j Hj) as Ea. pose proof (elem_split b i j Hj) as Eb.
    unfold elem in Ea, Eb. apply eq_true_iff_eq in Ea, Eb.
    rewrite Ea, Eb, <- Hbit, E, Z.bits_0 in Hx. done.
Qed.

Lemma nonempty_difference_elem a b :
  bms_wf a → bms_wf b →
  bms_nonempty_difference a b = true ↔ ∃ x, elem x a ∧ ¬ elem x b.
Proof.
  intros Ha Hb. rewrite nonempty_difference_words by done.
  apply (exists_elem_words Z.ldiff (λ p q, p && negb q)); auto with zbits.
  - intros v w i. apply Z.ldiff_spec.
  - intros x. unfold elem. rewrite andb_true_iff, negb_true_iff, not_true_iff_false. done.
Qed.

Lemma overlap_elem a b :
  bms_wf a → bms_wf b → bms_overlap a b = true ↔ ∃ x, elem x a ∧ elem x b.
Proof.
  intros Ha Hb. rewrite overlap_words by done.
  apply (exists_elem_words Z.land andb); auto.
  - intros v w Hv [Hw _]. auto with zbits.
  - intros v w i. apply Z.land_spec.
  - intros x. unfold elem. by rewrite andb_true_iff.
Qed.

Lemma is_empty_elem a : bms_wf a → bms_is_empty a = false ↔ ∃ x, elem x a.
Proof. intros Ha. by rewrite is_empty_false, exists_elem. Qed.

(** the tests decide the relations between the sets: emptiness, equality
    (NULL and an allocated set without members are equal), inclusion, overlap
    and a nonempty difference. *)
Theorem bms_set_predicates a b :
  bms_wf a → bms_wf b →
  bms_is_empty a = bool_decide (to_gset a = ∅) ∧
  bms_equal a b = bool_decide (to_gset a = to_gset b) ∧
  bms_is_subset a b = bool_decide (to_gset a ⊆ to_gset b) ∧
  bms_overlap a b = bool_decide (¬ to_gset a ## to_gset b) ∧
  bms_nonempty_difference a b = bool_decide (¬ to_gset a ⊆ to_gset b).
Proof.
  intros Ha Hb.
  assert (bms_nonempty_difference a b = bool_decide (¬ to_gset a ⊆ to_gset b)) as Hd.
  { apply eq_true_iff_eq. rewrite bool_decide_eq_true, nonempty_difference_elem by done.
    setoid_rewrite <- elem_of_to_gset; [|done..]. split; [set_solver|].
    intros Hn. apply dec_stable. contradict Hn. intros x Hx.
    destruct (decide (x ∈ to_gset b)); [done|]. destruct Hn. by exists x. }
  repeat split; [| | | |done].
  - apply Bool.eq_true_iff_eq. rewrite bool_decide_eq_true.
    rewrite is_empty_words by done. rewrite <- (to_gset_eq a None) by done. done.
  - apply Bool.eq_true_iff_eq. rewrite bool_decide_eq_true.
    rewrite equal_words by done. symmetry. by apply to_gset_eq.
  - rewrite is_subset_difference, Hd by done. rewrite <- bool_decide_not.
    apply bool_decide_ext. split; [apply dec_stable|tauto].
  - apply Bool.eq_true_iff_eq. rewrite bool_decide_eq_true, overlap_elem by done.
    setoid_rewrite <- elem_of_to_gset; [|done..]. split; [set_solver|].
    intros Hn. apply dec_stable. contradict Hn. intros x Hx Hx'. destruct Hn. by exists x.
Qed.

(** [bms_compare] is a total order on sets, fit for sorting: it answers -1,
    0 or 1, answers 0 exactly for equal sets, is antisymmetric and transitive. *)
Theorem bms_compare_total_order a b c :
  bms_wf a → bms_wf b → bms_wf c →
  bms_compare a b ∈ [-1; 0; 1] ∧
  (bms_compare a b = 0 ↔ to_gset a = to_gset b) ∧
  bms_compare b a = - bms_compare a b ∧
  (bms_compare a b = -1 → bms_compare b c = -1 → bms_compare a c = -1).
Proof.
  intros Ha Hb Hc. repeat split.
  - by apply compare_range.
  - intros H. apply to_gset_eq; [done..|]. by apply compare_zero.
  - intros H. apply compare_zero; [done..|]. by apply to_gset_eq.
  - by apply compare_opp.
  - rewrite !compare_lt by done. apply lex_lt_trans.
Qed.

(** the number of members, its zero/one/many classification and the sole
    member: [bms_num_members] is the cardinality, [bms_membership] classifies
    it, and [bms_singleton_member] returns the member of a one-element set and
    raises the right error otherwise. *)
Theorem bms_cardinality a :
  bms_wf a →
  bms_num_members a = Z.of_nat (size (to_gset a)) ∧
  bms_membership a = classify (size (to_gset a)) ∧
  match bms_singleton_member a with
  | Ok x => to_gset a = {[x]}
  | Err m => m = if decide (to_gset a = ∅) then "bitmapset is empty"%string
                 else "bitmapset has multiple members"%string
  end.
Proof.
  intros Ha. rewrite size_to_gset, num_members_length, membership_classify by done.
  split; [done|]. split; [done|]. rewrite singleton_member_answer by done.
  unfold to_gset. destruct (members a) as [|x [|y l]]; simpl.
  - by rewrite decide_True.
  - set_solver.
  - rewrite decide_False; [done|]. set_solver.
Qed.

(** the iteration [bms_foreach] visits every member exactly once, in
    increasing order, and ends within one round more than the set has bits;
    [bms_first_member] takes the least member off a copy and answers -1 on an
    empty set. *)
Theorem bms_iteration a fuel :
  bms_wf a → (32 * bms_len a < fuel)%nat →
  StronglySorted Z.lt (bms_foreach fuel a 0) ∧
  (∀ x, x ∈ bms_foreach fuel a 0 ↔ x ∈ to_gset a) ∧
  let '(r, a') := bms_first_member a in
  bms_wf a' ∧
  match bms_foreach fuel a 0 with
  | [] => r = -1 ∧ a' = a
  | x :: l => r = x ∧ bms_foreach fuel a' 0 = l
  end.
Proof.
  intros Ha Hf. rewrite foreach_members_from by (done || lia).
  split; [apply sorted_filter, seqZ_sorted|].
  split; [intros x; unfold to_gset; by rewrite elem_of_list_to_set|].
  pose proof (first_member_spec a Ha) as Hfm. pose proof (first_member_len a) as Hlen.
  destruct (bms_first_member a) as [r a']. simpl in Hlen. destruct Hfm as [Ha' Hfm].
  split; [done|]. unfold members in Hfm.
  destruct Hfm as [(E & Er & Ea)|E]; rewrite E; [done|]. split; [done|].
  apply foreach_members_from; [done|lia|]. rewrite Hlen. lia.
Qed.

(** "any two bitmapsets that are bms_equal() will hash to the same value". *)
Theorem bms_hash_respects_equal a b :
  bms_wf a → bms_wf b → bms_equal a b = true → bms_hash_value a = bms_hash_value b.
Proof. intros Ha Hb H. apply hash_value_words; [done..|]. by apply equal_words. Qed.

(** ** Instances *)

Ltac solve_bms_wf := repeat split; repeat constructor; vm_compute; intuition congruence.

Definition sample_a : option Bitmapset := Some (MkBitmapset 2 [5; 2147483648]).
Definition sample_b : option Bitmapset := Some (MkBitmapset 3 [4; 0; 0]).
Definition sample_c : option Bitmapset := Some (MkBitmapset 1 [4]).

Lemma bms_set_operations_witness :
  to_gset (bms_union sample_a sample_b) = to_gset sample_a ∪ to_gset sample_b.
Proof. apply (bms_set_operations sample_a sample_b); solve_bms_wf. Defined.

Lemma bms_member_operations_witness :
  ∃ c, bms_add_member sample_a 100 = Ok c ∧ refines_op c (to_gset sample_a ∪ {[100]}).
Proof. apply (bms_member_operations sample_a 100); solve_bms_wf. Defined.

Lemma bms_set_predicates_witness :
  bms_is_subset sample_b sample_a = bool_decide (to_gset sample_b ⊆ to_gset sample_a).
Proof. apply (bms_set_predicates sample_b sample_a); solve_bms_wf. Defined.

Lemma bms_compare_total_order_witness : bms_compare sample_c sample_a = -1.
Proof.
  apply (bms_compare_total_order sample_c (Some (MkBitmapset 2 [5; 1])) sample_a);
    solve_bms_wf.
Defined.

Lemma bms_cardinality_witness : bms_num_members sample_a = Z.of_nat (size (to_gset sample_a)).
Proof. refine (proj1 (bms_cardinality sample_a _)). solve_bms_wf. Defined.

Lemma bms_iteration_witness : StronglySorted Z.lt (bms_foreach 65 sample_a 0).
Proof. apply (bms_iteration sample_a 65); [solve_bms_wf|]. apply Nat.leb_le. reflexivity. Defined.

Lemma bms_hash_respects_equal_witness : bms_hash_value sample_b = bms_hash_value sample_c.
Proof. apply (bms_hash_respects_equal sample_b sample_c); solve_bms_wf. Defined.

End BitmapsetSpec.
