(* ===== verification/Gdd.v ===== *)
(** The global deadlock detector: src/src/backend/utils/gdd/gdddetector.c, the
    caller in gddbackend.c, the wait relation of gddfuncs.c and the two
    functions of src/src/backend/storage/ipc/procarray.c they use.

    Stats, graphs, verts and edges are objects on a heap; a pointer to one is
    the index at which it was allocated.  The context carries the four heaps
    and a flag that records whether every [Assert] executed so far held
    (execution goes on as in a build without assertions).  The pointer
    [vert->topstat] always is the address of the context's own [topstat], so
    [gddVertBindStats] binds [global] alone.  Pointers that the code checks
    against NULL are options. *)

From Stdlib Require Import ZArith Lia.
From stdpp Require Import base list option numbers strings pretty.
From S2P Require Import Prelude.

Module Gdd.

(** ** Data *)

(** [GddMap]: the array of pairs is the list, [length] its length. *)
Record GddMap := MkGddMap { pairs : list (Z * nat); capacity : Z }.

(** [GddListIter]: a cell is named by its position in [iter_list]. *)
Record GddListIter :=
  MkGddListIter { iter_list : list nat; iter_cell : option nat; iter_prev : option nat }.

Record GddStat := MkGddStat { stat_id : Z; indeg : Z; outdeg : Z }.

Record GddEdge := MkGddEdge { solid : bool; from : nat; to : nat }.

Record GddVert := MkGddVert {
  vert_id : Z;
  global : option nat;          (* None until gddVertBindStats *)
  edgesIn : list nat;
  edgesOut : list nat }.

Record GddGraph := MkGddGraph { graph_id : Z; verts : GddMap }.

Record GddCtx := MkGddCtx {
  topstat : GddStat;
  globals : GddMap;
  graphs : GddMap;
  stat_heap : list GddStat;
  graph_heap : list GddGraph;
  vert_heap : list GddVert;
  edge_heap : list GddEdge;
  asserts : bool }.

#[export] Instance GddStat_inhabited : Inhabited GddStat := populate (MkGddStat 0 0 0).
#[export] Instance GddEdge_inhabited : Inhabited GddEdge := populate (MkGddEdge false 0 0).
#[export] Instance GddVert_inhabited : Inhabited GddVert :=
  populate (MkGddVert 0 None [] []).
#[export] Instance GddMap_inhabited : Inhabited GddMap := populate (MkGddMap [] 0).
#[export] Instance GddGraph_inhabited : Inhabited GddGraph :=
  populate (MkGddGraph 0 inhabitant).

(** Dereferencing. *)
Definition stat_at (ctx : GddCtx) (a : nat) : GddStat := stat_heap ctx !!! a.
Definition graph_at (ctx : GddCtx) (a : nat) : GddGraph := graph_heap ctx !!! a.
Definition vert_at (ctx : GddCtx) (a : nat) : GddVert := vert_heap ctx !!! a.
Definition edge_at (ctx : GddCtx) (a : nat) : GddEdge := edge_heap ctx !!! a.

(** Stores. *)
Definition upd_topstat (f : GddStat → GddStat) (c : GddCtx) : GddCtx :=
  MkGddCtx (f (topstat c)) (globals c) (graphs c) (stat_heap c) (graph_heap c)
    (vert_heap c) (edge_heap c) (asserts c).
Definition upd_stat (a : nat) (f : GddStat → GddStat) (c : GddCtx) : GddCtx :=
  MkGddCtx (topstat c) (globals c) (graphs c) (alter f a (stat_heap c)) (graph_heap c)
    (vert_heap c) (edge_heap c) (asserts c).
Definition upd_graph (a : nat) (f : GddGraph → GddGraph) (c : GddCtx) : GddCtx :=
  MkGddCtx (topstat c) (globals c) (graphs c) (stat_heap c) (alter f a (graph_heap c))
    (vert_heap c) (edge_heap c) (asserts c).
Definition upd_vert (a : nat) (f : GddVert → GddVert) (c : GddCtx) : GddCtx :=
  MkGddCtx (topstat c) (globals c) (graphs c) (stat_heap c) (graph_heap c)
    (alter f a (vert_heap c)) (edge_heap c) (asserts c).
Definition set_globals (m : GddMap) (c : GddCtx) : GddCtx :=
  MkGddCtx (topstat c) m (graphs c) (stat_heap c) (graph_heap c)
    (vert_heap c) (edge_heap c) (asserts c).
Definition set_graphs (m : GddMap) (c : GddCtx) : GddCtx :=
  MkGddCtx (topstat c) (globals c) m (stat_heap c) (graph_heap c)
    (vert_heap c) (edge_heap c) (asserts c).

(** [Assert(b)] *)
Definition Assert (b : bool) (c : GddCtx) : GddCtx :=
  MkGddCtx (topstat c) (globals c) (graphs c) (stat_heap c) (graph_heap c)
    (vert_heap c) (edge_heap c) (asserts c && b).

Definition add_in (d : Z) (s : GddStat) : GddStat :=
  MkGddStat (stat_id s) (indeg s + d) (outdeg s).
Definition add_out (d : Z) (s : GddStat) : GddStat :=
  MkGddStat (stat_id s) (indeg s) (outdeg s + d).
Definition set_edgesIn (l : list nat) (v : GddVert) : GddVert :=
  MkGddVert (vert_id v) (global v) l (edgesOut v).
Definition set_edgesOut (l : list nat) (v : GddVert) : GddVert :=
  MkGddVert (vert_id v) (global v) (edgesIn v) l.
Definition set_verts (m : GddMap) (g : GddGraph) : GddGraph := MkGddGraph (graph_id g) m.

(** ** Safe iteration over a list *)

Definition list_head (l : list nat) : option nat :=
  match l with [] => None | _ => Some 0%nat end.
Definition lnext (l : list nat) (p : nat) : option nat :=
  if (S p <? length l)%nat then Some (S p) else None.

Definition gdd_list_iter_init (l : list nat) : GddListIter :=
  MkGddListIter l (list_head l) None.
Definition gdd_list_iter_next (it : GddListIter) : GddListIter :=
  MkGddListIter (iter_list it)
    (match iter_cell it with
     | Some p => lnext (iter_list it) p
     | None => list_head (iter_list it)
     end) (iter_cell it).

(** [list_delete_cell] removes the cell at [p]. *)
Definition gdd_list_iter_delete (it : GddListIter) : GddListIter :=
  let l := match iter_cell it with
           | Some p => delete p (iter_list it)
           | None => iter_list it
           end in
  let prev := match l with [] => None | _ => iter_prev it end in
  MkGddListIter l prev prev.

(** [list_delete_ptr]: remove the first cell that holds [x]. *)
Fixpoint list_delete_ptr (l : list nat) (x : nat) : list nat :=
  match l with
  | [] => []
  | y :: l => if (y =? x)%nat then l else y :: list_delete_ptr l x
  end.

(** [gdd_list_foreach_safe]; the body gets the pointer in the current cell.
    A round either moves to the next cell or deletes one, so [fuel] the length
    of the list is enough. *)
Fixpoint gdd_list_foreach_safe {S} (fuel : nat)
    (body : nat → GddListIter → S → GddListIter * S) (it : GddListIter) (s : S)
    : GddListIter * S :=
  match fuel, iter_cell it with
  | Datatypes.S fuel, Some p =>
      let '(it, s) := body (iter_list it !!! p) it s in
      gdd_list_foreach_safe fuel body (gdd_list_iter_next it) s
  | _, _ => (it, s)
  end.

Definition gdd_list_foreach {S} (l : list nat)
    (body : nat → GddListIter → S → GddListIter * S) (s : S) : GddListIter * S :=
  gdd_list_foreach_safe (length l) body (gdd_list_iter_init l) s.

(** ** Maps *)

Definition gddMapInit : GddMap := MkGddMap [] 4.

Definition gddMapEnsureCapacity (map : GddMap) (cap : Z) : GddMap :=
  if cap <=? capacity map then map else MkGddMap (pairs map) (Z.shiftl cap 1).

Fixpoint find_pair (l : list (Z * nat)) (key : Z) : option (Z * nat) :=
  match l with
  | [] => None
  | p :: l => if p.1 =? key then Some p else find_pair l key
  end.
Definition gddMapGetPair (map : GddMap) (key : Z) : option (Z * nat) :=
  find_pair (pairs map) key.

Definition gddMapGet (map : GddMap) (key : Z) : option nat :=
  match gddMapGetPair map key with Some p => Some p.2 | None => None end.

Definition gddMapSetUnsafe (map : GddMap) (key : Z) (ptr : nat) : GddMap :=
  let map := gddMapEnsureCapacity map (Z.of_nat (length (pairs map)) + 1) in
  MkGddMap (pairs map ++ [(key, ptr)]) (capacity map).

Definition map_ptr (map : GddMap) (pos : Z) : nat := (pairs map !!! Z.to_nat pos).2.

(** [pairs[pos--] = pairs[--length]] *)
Definition gdd_map_iter_delete (map : GddMap) (pos : Z) : GddMap * Z :=
  let n := length (pairs map) in
  (MkGddMap (take (n - 1) (<[Z.to_nat pos := pairs map !!! (n - 1)%nat]> (pairs map)))
     (capacity map), pos - 1).

(** [gdd_map_foreach_safe] over the map that [map_of] finds in the state; the
    body may delete the pair at its position.  The number of pairs at or after
    the position decreases in each round: the length of the map is enough fuel. *)
Fixpoint map_foreach_from {S} (fuel : nat) (map_of : S → GddMap)
    (body : Z → S → Z * S) (pos : Z) (s : S) : S :=
  match fuel with
  | O => s
  | Datatypes.S fuel =>
      if pos <? Z.of_nat (length (pairs (map_of s))) then
        let '(pos, s) := body pos s in map_foreach_from fuel map_of body (pos + 1) s
      else s
  end.
Definition gdd_map_foreach_safe {S} (map_of : S → GddMap) (body : Z → S → Z * S) (s : S) : S :=
  map_foreach_from (length (pairs (map_of s))) map_of body 0 s.

(** ** Allocation *)

Definition gddStatInit (vid : Z) : GddStat := MkGddStat vid 0 0.

Definition gddStatNew (vid : Z) (c : GddCtx) : nat * GddCtx :=
  (length (stat_heap c),
   MkGddCtx (topstat c) (globals c) (graphs c) (stat_heap c ++ [gddStatInit vid])
     (graph_heap c) (vert_heap c) (edge_heap c) (asserts c)).

Definition gddGraphNew (id : Z) (c : GddCtx) : nat * GddCtx :=
  (length (graph_heap c),
   MkGddCtx (topstat c) (globals c) (graphs c) (stat_heap c)
     (graph_heap c ++ [MkGddGraph id gddMapInit]) (vert_heap c) (edge_heap c) (asserts c)).

Definition gddVertNew (id : Z) (c : GddCtx) : nat * GddCtx :=
  (length (vert_heap c),
   MkGddCtx (topstat c) (globals c) (graphs c) (stat_heap c) (graph_heap c)
     (vert_heap c ++ [MkGddVert id None [] []]) (edge_heap c) (asserts c)).

Definition gddEdgeNew (vfrom vto : nat) (sol : bool) (c : GddCtx) : nat * GddCtx :=
  (length (edge_heap c),
   MkGddCtx (topstat c) (globals c) (graphs c) (stat_heap c) (graph_heap c)
     (vert_heap c) (edge_heap c ++ [MkGddEdge sol vfrom vto]) (asserts c)).

Definition GddCtxNew : GddCtx :=
  MkGddCtx (gddStatInit 0) gddMapInit gddMapInit [] [] [] [] true.

(** ** Verts, edges and graphs *)

Definition gddCtxGetGraph (segid : Z) (c : GddCtx) : nat * GddCtx :=
  match gddMapGet (graphs c) segid with
  | Some graph => (graph, c)
  | None =>
      let '(graph, c) := gddGraphNew segid c in
      (graph, set_graphs (gddMapSetUnsafe (graphs c) segid graph) c)
  end.

Definition gddCtxGetGlobalStat (vid : Z) (c : GddCtx) : nat * GddCtx :=
  match gddMapGet (globals c) vid with
  | Some global => (global, c)
  | None =>
      let '(global, c) := gddStatNew vid c in
      (global, set_globals (gddMapSetUnsafe (globals c) vid global) c)
  end.

Definition gddGraphGetVert (graph : nat) (vid : Z) (c : GddCtx) : nat * GddCtx :=
  match gddMapGet (verts (graph_at c graph)) vid with
  | Some vert => (vert, c)
  | None =>
      let '(vert, c) := gddVertNew vid c in
      (vert, upd_graph graph (λ g, set_verts (gddMapSetUnsafe (verts g) vid vert) g) c)
  end.

Definition gddGraphMakeEdge (graph : nat) (vfrom vto : Z) (sol : bool) (c : GddCtx)
    : nat * GddCtx :=
  let '(vfrom, c) := gddGraphGetVert graph vfrom c in
  let '(vto, c) := gddGraphGetVert graph vto c in
  gddEdgeNew vfrom vto sol c.

Definition gddVertBindStats (vert : nat) (glob : nat) (c : GddCtx) : GddCtx :=
  upd_vert vert (λ v, MkGddVert (vert_id v) (Some glob) (edgesIn v) (edgesOut v)) c.

(** [vert->global], asserted not to be NULL where it is dereferenced *)
Definition vert_global (c : GddCtx) (vert : nat) : nat := default 0%nat (global (vert_at c vert)).
Definition has_global (c : GddCtx) (vert : nat) : bool := bool_decide (is_Some (global (vert_at c vert))).

Definition gddEdgeLink (edge : nat) (c : GddCtx) : GddCtx :=
  let e := edge_at c edge in
  let c := Assert (has_global c (from e)) c in
  let c := Assert (has_global c (to e)) c in
  let c := upd_topstat (add_out 1) c in
  let c := upd_topstat (add_in 1) c in
  let c := Assert (outdeg (topstat c) =? indeg (topstat c)) c in
  let c := upd_stat (vert_global c (from e)) (add_out 1) c in
  let c := upd_stat (vert_global c (to e)) (add_in 1) c in
  let c := upd_vert (from e) (λ v, set_edgesOut (edgesOut v ++ [edge]) v) c in
  upd_vert (to e) (λ v, set_edgesIn (edgesIn v ++ [edge]) v) c.

Definition gddEdgeUnlinkFrom (edge : nat) (fromiter : option GddListIter) (c : GddCtx)
    : option GddListIter * GddCtx :=
  let v := from (edge_at c edge) in
  let c := Assert (has_global c v) c in
  let c := upd_topstat (add_out (-1)) c in
  let c := Assert (0 <=? outdeg (topstat c)) c in
  let c := upd_stat (vert_global c v) (add_out (-1)) c in
  let c := Assert (0 <=? outdeg (stat_at c (vert_global c v))) c in
  match fromiter with
  | Some it =>
      let it := gdd_list_iter_delete it in
      (Some it, upd_vert v (set_edgesOut (iter_list it)) c)
  | None => (None, upd_vert v (λ w, set_edgesOut (list_delete_ptr (edgesOut w) edge) w) c)
  end.

Definition gddEdgeUnlinkTo (edge : nat) (toiter : option GddListIter) (c : GddCtx)
    : option GddListIter * GddCtx :=
  let v := to (edge_at c edge) in
  let c := Assert (has_global c v) c in
  let c := upd_topstat (add_in (-1)) c in
  let c := Assert (0 <=? indeg (topstat c)) c in
  let c := upd_stat (vert_global c v) (add_in (-1)) c in
  let c := Assert (0 <=? indeg (stat_at c (vert_global c v))) c in
  match toiter with
  | Some it =>
      let it := gdd_list_iter_delete it in
      (Some it, upd_vert v (set_edgesIn (iter_list it)) c)
  | None => (None, upd_vert v (λ w, set_edgesIn (list_delete_ptr (edgesIn w) edge) w) c)
  end.

Definition gddEdgeUnlink (edge : nat) (fromiter toiter : option GddListIter) (c : GddCtx)
    : option GddListIter * option GddListIter * GddCtx :=
  let '(fromiter, c) := gddEdgeUnlinkFrom edge fromiter c in
  let '(toiter, c) := gddEdgeUnlinkTo edge toiter c in
  (fromiter, toiter, Assert (outdeg (topstat c) =? indeg (topstat c)) c).

(** [gddEdgeUnlink(edge, NULL, &edgeiter)] and [gddEdgeUnlink(edge, &edgeiter, NULL)] *)
Definition unlink_in_iter (edge : nat) (it : GddListIter) (c : GddCtx) : GddListIter * GddCtx :=
  let '(_, it', c) := gddEdgeUnlink edge None (Some it) c in (default it it', c).
Definition unlink_out_iter (edge : nat) (it : GddListIter) (c : GddCtx) : GddListIter * GddCtx :=
  let '(it', _, c) := gddEdgeUnlink edge (Some it) None c in (default it it', c).

Definition is_nil (l : list nat) : bool := match l with [] => true | _ => false end.

Definition gddVertUnlinkAll (vert : nat) (c : GddCtx) : bool * GddCtx :=
  let '(_, (dirty, c)) :=
    gdd_list_foreach (edgesIn (vert_at c vert))
      (λ edge it '(_, c), let '(it, c) := unlink_in_iter edge it c in (it, (true, c)))
      (false, c) in
  let c := Assert (is_nil (edgesIn (vert_at c vert))) c in
  let '(_, (dirty, c)) :=
    gdd_list_foreach (edgesOut (vert_at c vert))
      (λ edge it '(_, c), let '(it, c) := unlink_out_iter edge it c in (it, (true, c)))
      (dirty, c) in
  (dirty, Assert (is_nil (edgesOut (vert_at c vert))) c).

Definition gddVertGetInDegree (c : GddCtx) (vert : nat) : nat := length (edgesIn (vert_at c vert)).
Definition gddVertGetOutDegree (c : GddCtx) (vert : nat) : nat := length (edgesOut (vert_at c vert)).

Definition gddVertReduce (vert : nat) (c : GddCtx) : bool * GddCtx :=
  let c := Assert (has_global c vert) c in
  let glob := stat_at c (vert_global c vert) in
  if (indeg glob =? 0) || (outdeg glob =? 0) then gddVertUnlinkAll vert c
  else if (gddVertGetOutDegree c vert =? 0)%nat then
    let '(it, (dirty, c)) :=
      gdd_list_foreach (edgesIn (vert_at c vert))
        (λ edge it '(dirty, c),
           if solid (edge_at c edge) then (it, (dirty, c))
           else let '(it, c) := unlink_in_iter edge it c in (it, (true, c)))
        (false, c) in
    (dirty, Assert (negb (is_nil (iter_list it)) || is_nil (edgesIn (vert_at c vert))) c)
  else (false, c).

Definition gddGraphRemoveVid_scan (graph : nat) (vid : Z) :=
  fix scan (fuel : nat) (pos : Z) (c : GddCtx) : GddCtx :=
    match fuel with
    | O => c
    | S fuel =>
        let map := verts (graph_at c graph) in
        if pos <? Z.of_nat (length (pairs map)) then
          let vert := map_ptr map pos in
          if negb (vert_id (vert_at c vert) =? vid) then scan fuel (pos + 1) c
          else
            let '(_, c) := gddVertUnlinkAll vert c in
            let '(map, _) := gdd_map_iter_delete (verts (graph_at c graph)) pos in
            upd_graph graph (set_verts map) c
        else c
    end.
Definition gddGraphRemoveVid (graph : nat) (vid : Z) (c : GddCtx) : GddCtx :=
  gddGraphRemoveVid_scan graph vid (length (pairs (verts (graph_at c graph)))) 0 c.

Definition gddCtxRemoveVid (vid : Z) (c : GddCtx) : GddCtx :=
  gdd_map_foreach_safe graphs
    (λ pos c, (pos, gddGraphRemoveVid (map_ptr (graphs c) pos) vid c)) c.

(** The body of the loop over the verts, and of the loop over the graphs. *)
Definition max_vid_vert (graph : nat) (c : GddCtx) (pos maxvid : Z) : Z * Z :=
  let vert := map_ptr (verts (graph_at c graph)) pos in
  (pos, if negb (gddVertGetInDegree c vert =? 0)%nat || negb (gddVertGetOutDegree c vert =? 0)%nat
        then Z.max maxvid (vert_id (vert_at c vert)) else maxvid).
Definition max_vid_graph (c : GddCtx) (pos maxvid : Z) : Z * Z :=
  let graph := map_ptr (graphs c) pos in
  (pos, gdd_map_foreach_safe (λ _, verts (graph_at c graph)) (max_vid_vert graph c) maxvid).
Definition gddCtxGetMaxVid (c : GddCtx) : Z :=
  gdd_map_foreach_safe (λ _, graphs c) (max_vid_graph c) 0.

(** ** The entry points *)

Definition GddCtxAddEdge (segid vfrom vto : Z) (sol : bool) (c : GddCtx) : GddCtx :=
  let '(graph, c) := gddCtxGetGraph segid c in
  let '(edge, c) := gddGraphMakeEdge graph vfrom vto sol c in
  let '(glob, c) := gddCtxGetGlobalStat vfrom c in
  let c := gddVertBindStats (from (edge_at c edge)) glob c in
  let '(glob, c) := gddCtxGetGlobalStat vto c in
  let c := gddVertBindStats (to (edge_at c edge)) glob c in
  gddEdgeLink edge c.

(** The body of the inner loop of [GddCtxReduce]. *)
Definition reduce_vert (graph : nat) (pos : Z) (s : bool * GddCtx) : Z * (bool * GddCtx) :=
  let '(dirty, c) := s in
  let vert := map_ptr (verts (graph_at c graph)) pos in
  let '(d, c) := gddVertReduce vert c in
  let dirty := if d then true else dirty in
  if (gddVertGetInDegree c vert =? 0)%nat && (gddVertGetOutDegree c vert =? 0)%nat then
    let '(map, pos) := gdd_map_iter_delete (verts (graph_at c graph)) pos in
    (pos, (dirty, upd_graph graph (set_verts map) c))
  else (pos, (dirty, c)).

Definition reduce_graph (pos : Z) (s : bool * GddCtx) : Z * (bool * GddCtx) :=
  let graph := map_ptr (graphs s.2) pos in
  (pos, gdd_map_foreach_safe (λ s : bool * GddCtx, verts (graph_at s.2 graph))
          (reduce_vert graph) s).

(** One round of [while (dirty)]. *)
Definition reduce_round (c : GddCtx) : bool * GddCtx :=
  gdd_map_foreach_safe (λ s : bool * GddCtx, graphs s.2) reduce_graph (false, c).

(** [None]: the loop has not ended after [fuel] rounds. *)
Fixpoint GddCtxReduce (fuel : nat) (c : GddCtx) : option GddCtx :=
  match fuel with
  | O => None
  | S fuel =>
      let '(dirty, c) := reduce_round c in
      if dirty : bool then GddCtxReduce fuel c else Some c
  end.

Definition GddCtxEmpty (c : GddCtx) : bool := indeg (topstat c) =? 0.
(** the [Assert] of [GddCtxEmpty] *)
Definition GddCtxEmpty_assert (c : GddCtx) : GddCtx :=
  Assert (indeg (topstat c) =? outdeg (topstat c)) c.

(** [fuel] bounds the rounds of this loop, [rfuel] those of each [GddCtxReduce]. *)
Fixpoint GddCtxBreakDeadLock (fuel rfuel : nat) (c : GddCtx) (vids : list Z)
    : option (list Z * GddCtx) :=
  match fuel with
  | O => None
  | S fuel =>
      let c := GddCtxEmpty_assert c in
      if GddCtxEmpty c then Some (vids, c)
      else
        let maxvid := gddCtxGetMaxVid c in
        let c := gddCtxRemoveVid maxvid c in
        GddCtxReduce rfuel c ≫= λ c, GddCtxBreakDeadLock fuel rfuel c (vids ++ [maxvid])
  end.

(** ** Dumping *)

(** A slot of the process array: the distributed transaction and the pid. *)
Record Proc := MkProc { proc_gxid : Z; proc_pid : Z }.

Definition GetPidByGxid (procs : list Proc) (gxid : Z) : Z :=
  (fix scan (l : list Proc) : Z :=
     match l with
     | [] => 0
     | p :: l => if proc_gxid p =? gxid then proc_pid p else scan l
     end) procs.

(** [ListAllGxid]: the gxids in use, as ints. *)
Definition InvalidDistributedTransactionId : Z := 0.
Definition ListAllGxid (procs : list Proc) : list Z :=
  fold_left (λ gxids p, if proc_gxid p =? InvalidDistributedTransactionId then gxids
                        else gxids ++ [s32 (proc_gxid p)]) procs [].

Local Open Scope string_scope.

(** A double quote. *)
Definition dquote : string := String (Ascii.ascii_of_nat 34) EmptyString.

Section Dump.
Context (procs : list Proc).

Definition gddEdgeDump (c : GddCtx) (edge : nat) (str : string) : string :=
  let e := edge_at c edge in
  let vf := vert_id (vert_at c (from e)) in
  let vt := vert_id (vert_at c (to e)) in
  str +:+ dquote +:+ pretty vf +:+ "(Master Pid: " +:+ pretty (GetPidByGxid procs (u32 vf))
    +:+ ")" +:+ (if solid e then "==>" else "~~>")
    +:+ pretty vt +:+ "(Master Pid: " +:+ pretty (GetPidByGxid procs (u32 vt)) +:+ ")" +:+ dquote.

Definition gddGraphDump (c : GddCtx) (graph : nat) (str : string) : string :=
  let str := str +:+ dquote +:+ "seg" +:+ pretty (graph_id (graph_at c graph)) +:+ dquote +:+ ": [" in
  let '(_, str) :=
    gdd_map_foreach_safe (λ _, verts (graph_at c graph))
      (λ pos s,
         let vert := map_ptr (verts (graph_at c graph)) pos in
         (pos, (gdd_list_foreach (edgesOut (vert_at c vert))
            (λ edge it '(first, str),
               let '(first, str) := if first : bool then (false, str) else (false, str +:+ ",") in
               (it, (first, gddEdgeDump c edge str))) s).2))
      (true, str) in
  str +:+ "]".

Definition GddCtxDump (c : GddCtx) (str : string) : string :=
  let str := str +:+ "{" in
  let str :=
    gdd_map_foreach_safe (λ _, graphs c)
      (λ pos str,
         let graph := map_ptr (graphs c) pos in
         let str := gddGraphDump c graph str in
         (pos, if (pos + 1 <? Z.of_nat (length (pairs (graphs c))))%Z then str +:+ "," else str))
      str in
  str +:+ "}".

End Dump.

End Gdd.
