(* ===== verification/GddBackend.v ===== *)
(** The callers of the detector: the wait relation of gddfuncs.c, a function
    called once per row, and the check of gddbackend.c. *)

From Stdlib Require Import ZArith Lia Ascii.
From stdpp Require Import base list option numbers strings pretty.
From S2P Require Import Prelude Gdd.
Import Gdd.

Module GddBackend.

(** ** [pg_dist_wait_status] *)

(** One element of [LockData]: the PROCLOCK's [holdMask], the LOCK's tag (its
    bytes), type and [persistent], the PGPROC's pid and distributed xids. *)
Record LockElem := MkLockElem {
  holdMask : Z;
  tag : list Z;
  locktag_type : Z;
  persistent : bool;
  pid : Z;
  gxact_gxid : Z;
  distribXid : Z }.

#[export] Instance LockElem_inhabited : Inhabited LockElem :=
  populate (MkLockElem 0 [] 0 false 0 0 0).

Definition LOCKTAG_TRANSACTION : Z := 4.

Definition isGranted (l : LockElem) : bool := negb (holdMask l =? 0).
Definition lockEqual (l1 l2 : LockElem) : bool := bool_decide (tag l1 = tag l2).
Definition lockIsPersistent (l : LockElem) : bool :=
  if persistent l then true else locktag_type l =? LOCKTAG_TRANSACTION.

(** A row of the view: segid, waiter_dxid, holder_dxid, persistent. *)
Record WaitRow := MkWaitRow { row_seg : Z; row_waiter : Z; row_holder : Z; row_solid : bool }.

(** [GddWaitStatusCtx]: the cursors kept across calls. *)
Record WaitStatusCtx := MkWaitStatusCtx { ws_waiter : nat; ws_holder : nat; ws_seg : nat; ws_row : nat }.

(** A result of the dispatch: its status, its columns and its rows of strings. *)
Record PgResult := MkPgResult { tuples_ok : bool; nfields : Z; tuples : list (list string) }.
#[export] Instance PgResult_inhabited : Inhabited PgResult := populate (MkPgResult false 0 []).

(** [atoi]: white space, a sign and digits; the long is cut to an int. *)
Definition digit_of (c : Ascii.ascii) : option Z :=
  let n := Z.of_nat (Ascii.nat_of_ascii c) in
  if (48 <=? n) && (n <=? 57) then Some (n - 48) else None.
Fixpoint atoi_digits (s : string) (acc : Z) : Z :=
  match s with
  | EmptyString => acc
  | String c s => match digit_of c with Some d => atoi_digits s (10 * acc + d) | None => acc end
  end.
Fixpoint skip_space (s : string) : string :=
  match s with
  | String c s' =>
      let n := Ascii.nat_of_ascii c in
      if ((n =? 32) || ((9 <=? n) && (n <=? 13)))%nat then skip_space s' else s
  | EmptyString => s
  end.
Definition atoi (s : string) : Z :=
  match skip_space s with
  | String c s' =>
      if Ascii.eqb c "-"%char then s32 (- atoi_digits s' 0)
      else if Ascii.eqb c "+"%char then s32 (atoi_digits s' 0)
      else s32 (atoi_digits (String c s') 0)
  | EmptyString => 0
  end.

(** [strncmp(s, "t", 1) == 0] *)
Definition is_t (s : string) : bool :=
  match s with String c _ => Ascii.eqb c "t"%char | EmptyString => false end.

Section WaitStatus.
(** The role of this process (dispatcher or not), its segment, the locks and
    the results that the segments sent. *)
Context (dispatch : bool) (Gp_segment : Z) (lockData : list LockElem) (pg_results : list PgResult).

Definition PQgetvalue (r : PgResult) (row col : nat) : string :=
  nth col (nth row (tuples r) []) EmptyString.

(** The checks of the first call. *)
Fixpoint check_results (rs : list PgResult) : result unit :=
  match rs with
  | [] => Ok ()
  | r :: rs =>
      if negb (tuples_ok r) then Err "pg_dist_wait_status(): resultStatus not tuples_Ok"
      else if negb (nfields r =? 4) then
        Err "unexpected number of columns returned from pg_lock_status() on segment"
      else check_results rs
  end.
Definition wait_status_first : result WaitStatusCtx :=
  let ctx := MkWaitStatusCtx 0 0 0 0 in
  if dispatch then
    if (length pg_results =? 0)%nat then
      Err "pg_dist_wait_status() didn't get back any data from the segDBs"
    else check_results pg_results ≫= λ _, Ok ctx
  else Ok ctx.

Definition dxid (l : LockElem) : Z := if dispatch then gxact_gxid l else distribXid l.

(** The tests of the inner loop. *)
Definition is_relation (waiter holder : nat) : bool :=
  let w := lockData !!! waiter in
  let h := lockData !!! holder in
  if (holder =? waiter)%nat then false
  else if negb (isGranted h) then false
  else if pid w =? pid h then false
  else lockEqual w h.

Definition relation_row (waiter holder : nat) : WaitRow :=
  let w := lockData !!! waiter in
  let h := lockData !!! holder in
  MkWaitRow Gp_segment (dxid w) (dxid h) (lockIsPersistent w).

(** The inner loop: advance [holder] to the next relation of [waiter]. *)
Fixpoint holder_loop (fuel waiter holder : nat) : option WaitRow * nat :=
  match fuel with
  | O => (None, holder)
  | S fuel =>
      if (holder <? length lockData)%nat then
        if is_relation waiter holder then (Some (relation_row waiter holder), S holder)
        else holder_loop fuel waiter (S holder)
      else (None, holder)
  end.

(** The outer loop. *)
Fixpoint waiter_loop (fuel : nat) (ctx : WaitStatusCtx) : option WaitRow * WaitStatusCtx :=
  match fuel with
  | O => (None, ctx)
  | S fuel =>
      if (ws_waiter ctx <? length lockData)%nat then
        if isGranted (lockData !!! ws_waiter ctx) then
          waiter_loop fuel (MkWaitStatusCtx (S (ws_waiter ctx)) 0 (ws_seg ctx) (ws_row ctx))
        else
          match holder_loop (length lockData) (ws_waiter ctx) (ws_holder ctx) with
          | (Some r, h) => (Some r, MkWaitStatusCtx (ws_waiter ctx) h (ws_seg ctx) (ws_row ctx))
          | (None, _) =>
              waiter_loop fuel (MkWaitStatusCtx (S (ws_waiter ctx)) 0 (ws_seg ctx) (ws_row ctx))
          end
      else (None, ctx)
  end.

Definition remote_row (seg row : nat) : WaitRow :=
  let r := pg_results !!! seg in
  MkWaitRow (atoi (PQgetvalue r row 0)) (u32 (atoi (PQgetvalue r row 1)))
    (u32 (atoi (PQgetvalue r row 2))) (is_t (PQgetvalue r row 3)).

(** The rows of the segments. *)
Fixpoint seg_loop (fuel : nat) (ctx : WaitStatusCtx) : option WaitRow * WaitStatusCtx :=
  match fuel with
  | O => (None, ctx)
  | S fuel =>
      if (ws_seg ctx <? length pg_results)%nat then
        if (ws_row ctx <? length (tuples (pg_results !!! ws_seg ctx)))%nat then
          (Some (remote_row (ws_seg ctx) (ws_row ctx)),
           MkWaitStatusCtx (ws_waiter ctx) (ws_holder ctx) (ws_seg ctx) (S (ws_row ctx)))
        else seg_loop fuel (MkWaitStatusCtx (ws_waiter ctx) (ws_holder ctx) (S (ws_seg ctx)) 0)
      else (None, ctx)
  end.

(** One call: the next row, or [None] for SRF_RETURN_DONE. *)
Definition pg_dist_wait_status (ctx : WaitStatusCtx) : option WaitRow * WaitStatusCtx :=
  match waiter_loop (S (length lockData)) ctx with
  | (Some r, ctx) => (Some r, ctx)
  | (None, ctx) => if dispatch then seg_loop (S (length pg_results)) ctx else (None, ctx)
  end.

(** The caller: call until the function is done. [None]: not done in [fuel] calls. *)
Fixpoint wait_status_rows (fuel : nat) (ctx : WaitStatusCtx) : option (list WaitRow) :=
  match fuel with
  | O => None
  | S fuel =>
      match pg_dist_wait_status ctx with
      | (None, _) => Some []
      | (Some r, ctx) => rows ← wait_status_rows fuel ctx; Some (r :: rows)
      end
  end.

End WaitStatus.

(** ** gddbackend.c *)

Definition list_member_int (l : list Z) (x : Z) : bool := existsb (λ y, y =? x) l.

(** [buildWaitGraph]: the rows of the query, [None] when the SPI call did not
    return a result; a failing [SPI_connect] is an error. *)
Definition buildWaitGraph (procs : list Proc) (connect_ok : bool) (rows : option (list WaitRow))
    (ctx : GddCtx) : result GddCtx :=
  if negb connect_ok then Err "Unable to connect to execute internal query."
  else
    match rows with
    | None => Ok ctx
    | Some rows =>
        let gxids := ListAllGxid procs in
        Ok (fold_left
          (λ ctx r,
             if negb (list_member_int gxids (s32 (row_waiter r)))
                || negb (list_member_int gxids (s32 (row_holder r)))
             then ctx
             else GddCtxAddEdge (row_seg r) (s32 (row_waiter r)) (s32 (row_holder r))
                    (row_solid r) ctx) rows ctx)
    end.

Local Open Scope string_scope.

Fixpoint dumpCancelResult (procs : list Proc) (str : string) (xids : list Z) : string :=
  match xids with
  | [] => str
  | xid :: l =>
      let str := str +:+ pretty (u32 xid) +:+ "(Master Pid: "
                   +:+ pretty (GetPidByGxid procs (u32 xid)) +:+ ")" in
      dumpCancelResult procs (match l with [] => str | _ => str +:+ "," end) l
  end.

(** The messages logged and the backends cancelled. *)
Record CheckOutcome := MkCheckOutcome { logged : list string; cancelled : list Z }.

Definition breakDeadLock (procs : list Proc) (fuel rfuel : nat) (ctx : GddCtx) : option CheckOutcome :=
  '(xids, _) ← GddCtxBreakDeadLock fuel rfuel ctx [];
  Some (MkCheckOutcome
    ["these gxids will be cancelled to break global deadlock: " +:+ dumpCancelResult procs "" xids]
    (map (λ xid, GetPidByGxid procs (u32 xid)) xids)).

Definition RET_STATUS_OK : Z := 0.
Definition RET_STATUS_ERROR : Z := 1.

(** [doDeadLockCheck]: the status and what was logged and cancelled; [None]
    when a loop has not ended within its fuel. *)
Definition doDeadLockCheck (procs : list Proc) (fuel : nat) (connect_ok : bool)
    (rows : option (list WaitRow)) : option (Z * CheckOutcome) :=
  match buildWaitGraph procs connect_ok rows GddCtxNew with
  | Err m => Some (RET_STATUS_ERROR, MkCheckOutcome [m] [])
  | Ok ctx =>
      ctx ← GddCtxReduce fuel ctx;
      if negb (GddCtxEmpty ctx) then
        let msg := "global deadlock detected! Final graph is :" +:+ GddCtxDump procs ctx "" in
        out ← breakDeadLock procs fuel fuel ctx;
        Some (RET_STATUS_OK, MkCheckOutcome (msg :: logged out) (cancelled out))
      else Some (RET_STATUS_OK, MkCheckOutcome [] [])
  end.

End GddBackend.
