(* ===== verification/GddSpec.v ===== *)
(** What the global deadlock detector computes.

    The wait graph is a list of rows (segment, waiter, holder, solid or dotted);
    an edge of the detector is the index of its row and [L] lists the edges
    still linked.  [Rep] relates a context to the rows and to [L]: it is the
    invariant of every operation.  The theorems say what the reduction leaves
    (the greatest set of edges none of which may be removed), that it is empty
    exactly when the rows have no deadlock cycle, and what breaking a deadlock
    cancels. *)

From Stdlib Require Import ZArith Lia.
From stdpp Require Import base list option numbers strings relations.
From S2P Require Import Prelude Gdd GddBackend.
Import Gdd GddBackend.

Module GddSpec.

(** ** Lists and iterators *)

Lemma alter_total {A} `{!Inhabited A} (f : A → A) (l : list A) a b :
  alter f a l !!! b = if decide (a = b ∧ (b < length l)%nat) then f (l !!! b) else l !!! b.
Proof.
  case_decide as Hd; [destruct Hd as [-> Hb]; by apply list_lookup_total_alter_eq|].
  destruct (decide (a = b)) as [->|Hab]; [|by apply list_lookup_total_alter_ne].
  rewrite !list_lookup_total_alt, list_lookup_alter_eq.
  by rewrite lookup_ge_None_2 by lia.
Qed.

Lemma app_total {A} `{!Inhabited A} (l : list A) (x : A) a :
  (l ++ [x]) !!! a = if decide (a = length l) then x else l !!! a.
Proof.
  rewrite !list_lookup_total_alt. case_decide as Ha.
  - subst. by rewrite list_lookup_middle.
  - destruct (decide (a < length l)%nat).
    + by rewrite lookup_app_l.
    + rewrite (lookup_ge_None_2 (l ++ [x])), (lookup_ge_None_2 l); rewrite ?length_app; simpl; auto; lia.
Qed.

(** The edges of [L] but [i]. *)
Definition without (i : nat) (L : list nat) : list nat := filter (λ j, j ≠ i) L.

Lemma elem_of_without i j L : j ∈ without i L ↔ j ≠ i ∧ j ∈ L.
Proof. unfold without. by rewrite list_elem_of_filter. Qed.

Lemma without_notin i L : i ∉ L → without i L = L.
Proof.
  intros Hi. induction L as [|j L IH]; [done|]. unfold without in *.
  rewrite filter_cons_True by set_solver. f_equal. apply IH. set_solver.
Qed.

Lemma without_app i pre suf :
  NoDup (pre ++ i :: suf) → without i (pre ++ i :: suf) = pre ++ suf.
Proof.
  intros (_ & Hd & Hs)%NoDup_app. apply NoDup_cons in Hs as [Hs _].
  unfold without. rewrite filter_app, filter_cons_False by tauto.
  f_equal; apply without_notin; [|done]. intros Hp. apply (Hd i Hp). set_solver.
Qed.

Lemma list_delete_ptr_without i l : NoDup l → list_delete_ptr l i = without i l.
Proof.
  induction 1 as [|j l Hj Hl IH]; [done|]. simpl. unfold without in *.
  destruct (Nat.eqb_spec j i) as [->|Hne].
  - rewrite filter_cons_False by tauto. symmetry. by apply without_notin.
  - rewrite filter_cons_True by done. by rewrite IH.
Qed.

Lemma without_filter i (P : nat → Prop) `{!∀ j, Decision (P j)} L :
  without i (filter P L) = filter P (without i L).
Proof.
  unfold without. rewrite !list_filter_filter. apply list_filter_iff. tauto.
Qed.

Lemma length_without i L : NoDup L → i ∈ L → length L = S (length (without i L)).
Proof.
  intros HL Hi. apply list_elem_of_split in Hi as (l1 & l2 & ->).
  rewrite without_app by done. rewrite !length_app. simpl. lia.
Qed.

Lemma NoDup_without i L : NoDup L → NoDup (without i L).
Proof. apply NoDup_filter. Qed.

(** The iterator at position [p] of [l]. *)
Definition iter_at (l : list nat) (p : nat) : GddListIter :=
  MkGddListIter l (if (p <? length l)%nat then Some p else None)
    (match p with O => None | S p => Some p end).

Lemma iter_init_at l : gdd_list_iter_init l = iter_at l 0.
Proof. by destruct l. Qed.

Lemma iter_next_at l p : (p < length l)%nat → gdd_list_iter_next (iter_at l p) = iter_at l (S p).
Proof.
  intros Hp. unfold gdd_list_iter_next, iter_at. simpl.
  destruct (Nat.ltb_spec p (length l)); [|lia]. done.
Qed.

Lemma iter_delete_at l p :
  (p < length l)%nat →
  iter_list (gdd_list_iter_delete (iter_at l p)) = delete p l ∧
  gdd_list_iter_next (gdd_list_iter_delete (iter_at l p)) = iter_at (delete p l) p.
Proof.
  intros Hp. unfold gdd_list_iter_delete, gdd_list_iter_next, iter_at. simpl.
  destruct (Nat.ltb_spec p (length l)) as [_|]; [|lia]. split; [done|].
  assert (length (delete p l) = length l - 1)%nat as Hl.
  { rewrite length_delete by (by apply lookup_lt_is_Some). lia. }
  destruct p as [|p].
  - by destruct (delete 0%nat l).
  - destruct (delete (S p) l) as [|y l'] eqn:E; simpl in Hl; [lia|]. unfold lnext. simpl.
    destruct (Nat.ltb_spec (S p) (S (length l'))); done.
Qed.

(** Rule for loops that keep or delete the current cell. *)
Lemma list_foreach_rule {S} (I : list nat → list nat → S → Prop)
    (body : nat → GddListIter → S → GddListIter * S) l s :
  (∀ pre x suf s, I pre (x :: suf) s →
     let it := iter_at (pre ++ x :: suf) (length pre) in
     ((body x it s).1 = it ∧ I (pre ++ [x]) suf (body x it s).2) ∨
     ((body x it s).1 = gdd_list_iter_delete it ∧ I pre suf (body x it s).2)) →
  I [] l s →
  I (iter_list (gdd_list_foreach l body s).1) [] (gdd_list_foreach l body s).2.
Proof.
  intros Hbody H0. unfold gdd_list_foreach. rewrite iter_init_at.
  assert (∀ n pre suf s, length suf = n → I pre suf s →
    let r := gdd_list_foreach_safe n body (iter_at (pre ++ suf) (length pre)) s in
    I (iter_list r.1) [] r.2) as Hloop.
  { clear H0 s l. intros n. induction n as [|n IH]; intros pre suf s Hn HI.
    - destruct suf; [|done]. simpl. by rewrite app_nil_r.
    - destruct suf as [|x suf]; [done|]. cbn [gdd_list_foreach_safe].
      assert (iter_cell (iter_at (pre ++ x :: suf) (length pre)) = Some (length pre)) as ->.
      { unfold iter_at. simpl. rewrite length_app. simpl.
        destruct (Nat.ltb_spec (length pre) (length pre + Datatypes.S (length suf))); [done|lia]. }
      assert ((pre ++ x :: suf) !!! length pre = x) as Hx.
      { rewrite list_lookup_total_alt, list_lookup_middle; done. }
      cbn [iter_list iter_at]. rewrite Hx.
      pose proof (Hbody pre x suf s HI) as Hb. cbv zeta in Hb.
      assert (length pre < length (pre ++ x :: suf))%nat as Hlt
        by (rewrite length_app; simpl; lia).
      destruct (body x _ s) as [it' s']. simpl in Hb, Hn.
      destruct Hb as [[-> Hb]|[-> Hb]].
      + rewrite iter_next_at by done.
        pose proof (IH (pre ++ [x]) suf s' ltac:(lia) Hb) as H.
        rewrite <- app_assoc, length_app, Nat.add_1_r in H. exact H.
      + destruct (iter_delete_at (pre ++ x :: suf) (length pre) Hlt) as [_ ->].
        rewrite delete_middle. apply IH; [lia|done]. }
  exact (Hloop (length l) [] l s eq_refl H0).
Qed.

(** ** Maps *)

Definition map_ok (m : GddMap) : Prop :=
  NoDup (pairs m).*1 ∧ Z.of_nat (length (pairs m)) <= capacity m.

Lemma find_pair_elem l k p :
  NoDup l.*1 → find_pair l k = Some p ↔ p ∈ l ∧ p.1 = k.
Proof.
  induction l as [|q l IH]; simpl; intros Hn; [set_solver|].
  apply NoDup_cons in Hn as [Hq Hn]. destruct (Z.eqb_spec q.1 k) as [<-|Hne].
  - split; [intros [= ->]; set_solver|]. intros [[->|Hp]%elem_of_cons E]; [done|].
    destruct Hq. rewrite <- E. by apply list_elem_of_fmap_2.
  - rewrite (IH Hn). set_solver.
Qed.

Lemma gddMapGet_elem m k p :
  NoDup (pairs m).*1 → gddMapGet m k = Some p ↔ (k, p) ∈ pairs m.
Proof.
  intros Hn. unfold gddMapGet, gddMapGetPair.
  destruct (find_pair (pairs m) k) as [[k' p']|] eqn:E.
  - apply find_pair_elem in E as [E Ek]; [|done]. simpl in *. subst. split; [by intros [= <-]|].
    intros H. assert (find_pair (pairs m) k = Some (k, p)) as E2 by by apply find_pair_elem.
    assert (find_pair (pairs m) k = Some (k, p')) as E3 by by apply find_pair_elem.
    congruence.
  - split; [done|]. intros H.
    assert (find_pair (pairs m) k = Some (k, p)) by by apply find_pair_elem. congruence.
Qed.

Lemma gddMapGet_None m k : gddMapGet m k = None ↔ k ∉ (pairs m).*1.
Proof.
  unfold gddMapGet, gddMapGetPair. induction (pairs m) as [|q l IH]; simpl; [set_solver|].
  destruct (Z.eqb_spec q.1 k); set_solver.
Qed.

Lemma map_init_ok : map_ok gddMapInit.
Proof. split; [constructor|done]. Qed.

Lemma map_set_pairs m k p : pairs (gddMapSetUnsafe m k p) = pairs m ++ [(k, p)].
Proof. unfold gddMapSetUnsafe, gddMapEnsureCapacity. by destruct (_ <=? _). Qed.

Lemma map_set_ok m k p : map_ok m → gddMapGet m k = None → map_ok (gddMapSetUnsafe m k p).
Proof.
  intros [Hn Hc] Hk. apply gddMapGet_None in Hk. split.
  - rewrite map_set_pairs, fmap_app. apply NoDup_app. split; [done|].
    split; [set_solver|apply NoDup_singleton].
  - rewrite map_set_pairs, length_app. unfold gddMapSetUnsafe, gddMapEnsureCapacity.
    destruct (Z.leb_spec (Z.of_nat (length (pairs m)) + 1) (capacity m)); simpl; [lia|].
    rewrite Z.shiftl_mul_pow2 by lia. lia.
Qed.

Lemma map_set_get m k p k' :
  map_ok m → gddMapGet m k = None →
  gddMapGet (gddMapSetUnsafe m k p) k' = if decide (k' = k) then Some p else gddMapGet m k'.
Proof.
  intros Hm Hk. pose proof (map_set_ok m k p Hm Hk) as [Hn _]. apply option_eq. intros q.
  rewrite gddMapGet_elem, map_set_pairs by done.
  rewrite elem_of_app, list_elem_of_singleton. case_decide as E.
  - subst. apply gddMapGet_None in Hk. split; [|naive_solver].
    intros [H|H]; [|naive_solver]. destruct Hk. by apply (list_elem_of_fmap_2 fst _ (k, q)).
  - rewrite gddMapGet_elem by apply Hm. naive_solver.
Qed.

(** Deleting the pair at [pos] moves the last pair there. *)
Lemma map_delete_split m pos kp :
  pairs m !! pos = Some kp →
  ∃ l1 l2 l2', pairs m = l1 ++ kp :: l2 ∧ length l1 = pos ∧ l2' ≡ₚ l2 ∧
    pairs (gdd_map_iter_delete m (Z.of_nat pos)).1 = l1 ++ l2'.
Proof.
  intros Hp. unfold gdd_map_iter_delete. simpl. rewrite Nat2Z.id.
  apply list_elem_of_split_length in Hp as (l1 & l2 & -> & ->).
  exists l1, l2. rewrite length_app. simpl.
  replace (length l1 + S (length l2) - 1)%nat with (length l1 + length l2)%nat by lia.
  rewrite insert_app_r_alt, Nat.sub_diag by lia. simpl.
  destruct l2 as [|y l _] using rev_ind.
  - exists []. simpl. rewrite Nat.add_0_r. repeat split; auto.
    rewrite app_nil_r. apply take_app_length.
  - exists (y :: l). split; [done|]. split; [done|].
    split; [apply Permutation_cons_append|]. rewrite length_app. simpl.
    rewrite (list_lookup_total_correct _ _ y).
    + replace (length l1 + (length l + 1))%nat with (length (l1 ++ y :: l))
        by (rewrite length_app; simpl; lia).
      change (y :: l ++ [y]) with ((y :: l) ++ [y]). rewrite app_assoc. apply take_app_length.
    + rewrite lookup_app_r by lia.
      replace (length l1 + (length l + 1) - length l1)%nat with (S (length l)) by lia. simpl.
      by rewrite list_lookup_middle.
Qed.

Lemma map_delete_ok m pos k p :
  map_ok m → pairs m !! pos = Some (k, p) →
  let m' := (gdd_map_iter_delete m (Z.of_nat pos)).1 in
  map_ok m' ∧ (∀ k', gddMapGet m' k' = if decide (k' = k) then None else gddMapGet m k') ∧
  length (pairs m) = S (length (pairs m')) ∧
  (∀ i, (i < pos)%nat → pairs m' !! i = pairs m !! i).
Proof.
  intros [Hn Hc] Hp. destruct (map_delete_split m pos _ Hp) as (l1 & l2 & l2' & E & Hl & Hperm & E').
  cbv zeta. set (m' := (gdd_map_iter_delete m (Z.of_nat pos)).1) in *.
  assert (length (pairs m) = S (length (pairs m'))) as Hlen.
  { rewrite E, E', !length_app, Hperm. simpl. lia. }
  assert (NoDup (pairs m').*1 ∧ k ∉ (pairs m').*1) as [Hn' Hk].
  { rewrite E, fmap_app in Hn. simpl in Hn. rewrite E', fmap_app.
    rewrite (Permutation_map fst Hperm). rewrite <- Permutation_middle in Hn.
    by apply NoDup_cons in Hn as [? ?]. }
  assert (capacity m' = capacity m) as Hcap by done.
  split; [split; [done|rewrite Hcap; lia]|]. split; [|split; [done|]].
  - intros k'. apply option_eq. intros q. rewrite gddMapGet_elem by done. case_decide as D.
    + subst k'. split; [|done]. intros H. destruct Hk. by apply (list_elem_of_fmap_2 fst _ (k, q)).
    + rewrite gddMapGet_elem by done. rewrite E, E', !elem_of_app, elem_of_cons, Hperm. naive_solver.
  - intros i Hi. rewrite E, E', !lookup_app_l by lia. done.
Qed.

(** Rule for loops over a map that keep or delete the current pair. *)
Lemma map_foreach_rule {S} (I : nat → S → Prop) (map_of : S → GddMap) (body : Z → S → Z * S) s :
  (∀ pos s, I pos s → (pos < length (pairs (map_of s)))%nat →
     let r := body (Z.of_nat pos) s in
     (r.1 = Z.of_nat pos ∧ I (Datatypes.S pos) r.2 ∧
        length (pairs (map_of r.2)) = length (pairs (map_of s))) ∨
     (r.1 = Z.of_nat pos - 1 ∧ I pos r.2 ∧
        length (pairs (map_of s)) = Datatypes.S (length (pairs (map_of r.2))))) →
  I 0%nat s →
  let s' := gdd_map_foreach_safe map_of body s in
  ∃ pos, I pos s' ∧ (length (pairs (map_of s')) ≤ pos)%nat.
Proof.
  intros Hbody H0. unfold gdd_map_foreach_safe.
  assert (∀ n pos s, I pos s → (length (pairs (map_of s)) - pos ≤ n)%nat →
    let s' := map_foreach_from n map_of body (Z.of_nat pos) s in
    ∃ pos, I pos s' ∧ (length (pairs (map_of s')) ≤ pos)%nat) as Hloop.
  { clear H0 s. intros n. induction n as [|n IH]; intros pos s HI Hn; cbn [map_foreach_from].
    - exists pos. split; [done|]. lia.
    - destruct (Z.ltb_spec (Z.of_nat pos) (Z.of_nat (length (pairs (map_of s))))) as [Hlt|Hge].
      + pose proof (Hbody pos s HI ltac:(lia)) as Hb. cbv zeta in Hb.
        destruct (body (Z.of_nat pos) s) as [pos' s']. simpl in Hb.
        destruct Hb as [(-> & HI' & Hl)|(-> & HI' & Hl)].
        * replace (Z.of_nat pos + 1) with (Z.of_nat (Datatypes.S pos)) by lia.
          apply IH; [done|lia].
        * replace (Z.of_nat pos - 1 + 1) with (Z.of_nat pos) by lia. apply IH; [done|lia].
      + exists pos. split; [done|]. lia. }
  apply (Hloop _ 0%nat s H0). lia.
Qed.

(** ** The graph of the linked edges *)

#[export] Instance WaitRow_inhabited : Inhabited WaitRow := populate (MkWaitRow 0 0 0 false).

Section Graph.
Context (R : list WaitRow).

Definition seg (i : nat) : Z := row_seg (R !!! i).
Definition waiter (i : nat) : Z := row_waiter (R !!! i).
Definition holder (i : nat) : Z := row_holder (R !!! i).
Definition is_solid (i : nat) : bool := row_solid (R !!! i).

(** The edges into and out of a vert, on all segments and on one. *)
Definition gin (L : list nat) (k : Z) : list nat := filter (λ i, holder i = k) L.
Definition gout (L : list nat) (k : Z) : list nat := filter (λ i, waiter i = k) L.
Definition lin (L : list nat) (s k : Z) : list nat := filter (λ i, seg i = s ∧ holder i = k) L.
Definition lout (L : list nat) (s k : Z) : list nat := filter (λ i, seg i = s ∧ waiter i = k) L.

End Graph.

(** The vert with id [k] in the graph of segment [s]. *)
Definition get_vert (c : GddCtx) (s k : Z) : option nat :=
  match gddMapGet (graphs c) s with
  | Some g => gddMapGet (verts (graph_at c g)) k
  | None => None
  end.

(** ** The invariant *)

(** [c] holds the rows [R] with the edges [L] linked; the verts in [X] are
    allocated but not bound to their stat yet. *)
Record Rep (X : list nat) (R : list WaitRow) (L : list nat) (c : GddCtx) : Prop := MkRep {
  rep_asserts : asserts c = true;
  rep_nodup : NoDup L;
  rep_top : indeg (topstat c) = Z.of_nat (length L) ∧ outdeg (topstat c) = Z.of_nat (length L);
  rep_heap : length (edge_heap c) = length R;
  rep_edge : ∀ i, i ∈ L →
    (i < length R)%nat ∧ solid (edge_at c i) = is_solid R i ∧
    get_vert c (seg R i) (waiter R i) = Some (from (edge_at c i)) ∧
    get_vert c (seg R i) (holder R i) = Some (to (edge_at c i));
  rep_edge_stat : ∀ i, i ∈ L →
    is_Some (gddMapGet (globals c) (waiter R i)) ∧ is_Some (gddMapGet (globals c) (holder R i));
  rep_vert : ∀ s k v, get_vert c s k = Some v →
    (v < length (vert_heap c))%nat ∧ vert_id (vert_at c v) = k ∧
    edgesIn (vert_at c v) = lin R L s k ∧ edgesOut (vert_at c v) = lout R L s k;
  rep_vert_inj : ∀ s k s' k' v, get_vert c s k = Some v → get_vert c s' k' = Some v → s = s';
  rep_bound : ∀ s k v, get_vert c s k = Some v → v ∉ X →
    ∃ g, global (vert_at c v) = Some g ∧ gddMapGet (globals c) k = Some g;
  rep_stat : ∀ k g, gddMapGet (globals c) k = Some g →
    (g < length (stat_heap c))%nat ∧ stat_id (stat_at c g) = k ∧
    indeg (stat_at c g) = Z.of_nat (length (gin R L k)) ∧
    outdeg (stat_at c g) = Z.of_nat (length (gout R L k));
  rep_globals_ok : map_ok (globals c);
  rep_graphs_ok : map_ok (graphs c);
  rep_graph : ∀ s g, gddMapGet (graphs c) s = Some g →
    (g < length (graph_heap c))%nat ∧ graph_id (graph_at c g) = s ∧
    map_ok (verts (graph_at c g)) }.

(** ** Unlinking an edge *)

Lemma vert_at_upd a f c v :
  vert_at (upd_vert a f c) v =
  if decide (a = v ∧ (v < length (vert_heap c))%nat) then f (vert_at c v) else vert_at c v.
Proof. apply alter_total. Qed.

Lemma stat_at_upd a f c v :
  stat_at (upd_stat a f c) v =
  if decide (a = v ∧ (v < length (stat_heap c))%nat) then f (stat_at c v) else stat_at c v.
Proof. apply alter_total. Qed.

(** The arguments of [gddEdgeUnlink]: an iterator stands at the edge. *)
Definition iter_for (l : list nat) (i : nat) (it : option GddListIter) : Prop :=
  match it with
  | None => True
  | Some it => ∃ pre suf, l = pre ++ i :: suf ∧ it = iter_at l (length pre)
  end.

(** The list that unlinking leaves. *)
Definition list_after (l : list nat) (i : nat) (it : option GddListIter) : list nat :=
  match it with None => list_delete_ptr l i | Some it => iter_list (gdd_list_iter_delete it) end.

Lemma list_after_without l i it : NoDup l → iter_for l i it → list_after l i it = without i l.
Proof.
  destruct it as [it|]; cbn [iter_for list_after]; [|intros; by apply list_delete_ptr_without].
  intros Hl (pre & suf & -> & ->).
  destruct (iter_delete_at (pre ++ i :: suf) (length pre)) as [-> _].
  { rewrite length_app. simpl. lia. }
  by rewrite delete_middle, without_app.
Qed.

Lemma unlink_from_eq i it c :
  let v := from (edge_at c i) in
  (gddEdgeUnlinkFrom i it c).2 =
  MkGddCtx (add_out (-1) (topstat c)) (globals c) (graphs c)
    (alter (add_out (-1)) (vert_global c v) (stat_heap c)) (graph_heap c)
    (alter (λ w, set_edgesOut (list_after (edgesOut w) i it) w) v (vert_heap c)) (edge_heap c)
    (asserts c && has_global c v && (0 <=? outdeg (topstat c) + -1) &&
     (0 <=? outdeg (alter (add_out (-1)) (vert_global c v) (stat_heap c) !!! vert_global c v))).
Proof. by destruct it. Qed.

Lemma unlink_to_eq i it c :
  let v := to (edge_at c i) in
  (gddEdgeUnlinkTo i it c).2 =
  MkGddCtx (add_in (-1) (topstat c)) (globals c) (graphs c)
    (alter (add_in (-1)) (vert_global c v) (stat_heap c)) (graph_heap c)
    (alter (λ w, set_edgesIn (list_after (edgesIn w) i it) w) v (vert_heap c)) (edge_heap c)
    (asserts c && has_global c v && (0 <=? indeg (topstat c) + -1) &&
     (0 <=? indeg (alter (add_in (-1)) (vert_global c v) (stat_heap c) !!! vert_global c v))).
Proof. by destruct it. Qed.

Definition same_shape (c c' : GddCtx) : Prop :=
  globals c' = globals c ∧ graphs c' = graphs c ∧ graph_heap c' = graph_heap c ∧
  edge_heap c' = edge_heap c ∧ length (vert_heap c') = length (vert_heap c) ∧
  length (stat_heap c') = length (stat_heap c) ∧
  (∀ v, vert_id (vert_at c' v) = vert_id (vert_at c v) ∧
        global (vert_at c' v) = global (vert_at c v)) ∧
  (∀ g, stat_id (stat_at c' g) = stat_id (stat_at c g)).

#[export] Instance same_shape_preorder : PreOrder same_shape.
Proof.
  split; [by repeat split|]. intros c1 c2 c3 (?&?&?&?&?&?&Hv&Hg) (?&?&?&?&?&?&Hv'&Hg').
  do 6 (split; [congruence|]). split; [|congruence].
  intros v. rewrite (proj1 (Hv' v)), (proj2 (Hv' v)). apply Hv.
Qed.

Lemma same_shape_get_vert c c' s k : same_shape c c' → get_vert c' s k = get_vert c s k.
Proof.
  intros (_ & Hg & Hh & _). unfold get_vert, graph_at. by rewrite Hg, Hh.
Qed.

(** The parts of the invariant that only depend on the shape. *)
Lemma rep_same_shape X R L L' c c' :
  Rep X R L c → same_shape c c' → (∀ i, i ∈ L' → i ∈ L) → NoDup L' →
  asserts c' = true →
  indeg (topstat c') = Z.of_nat (length L') → outdeg (topstat c') = Z.of_nat (length L') →
  (∀ s k v, get_vert c s k = Some v →
     edgesIn (vert_at c' v) = lin R L' s k ∧ edgesOut (vert_at c' v) = lout R L' s k) →
  (∀ k g, gddMapGet (globals c) k = Some g →
     indeg (stat_at c' g) = Z.of_nat (length (gin R L' k)) ∧
     outdeg (stat_at c' g) = Z.of_nat (length (gout R L' k))) →
  Rep X R L' c'.
Proof.
  intros H Hs Hsub Hnd Ha Hi Ho Hv Hg. pose proof (same_shape_get_vert c c') as Hget.
  pose proof Hs as (E1 & E2 & E3 & E4 & E5 & E6 & E7 & E8).
  split; auto; unfold edge_at; rewrite ?E1, ?E2, ?E3, ?E4.
  - apply H.
  - intros i Hi'. rewrite !Hget by done. by apply H, Hsub.
  - intros i Hi'. by apply H, Hsub.
  - intros s k v. rewrite Hget by done. intros Hk. rewrite E5, (proj1 (E7 v)).
    pose proof (rep_vert _ _ _ _ H s k v Hk). pose proof (Hv s k v Hk). tauto.
  - intros s k s' k' v. rewrite !Hget by done. apply H.
  - intros s k v. rewrite Hget by done. rewrite (proj2 (E7 v)). apply H.
  - intros k g Hk. rewrite E6, E8. pose proof (rep_stat _ _ _ _ H k g Hk).
    pose proof (Hg k g Hk). tauto.
  - apply H.
  - apply H.
  - intros s g. unfold graph_at. rewrite E3. apply H.
Qed.

Lemma unlink_shape i fi ti c : same_shape c (gddEdgeUnlink i fi ti c).2.
Proof.
  assert (∀ it c, same_shape c (gddEdgeUnlinkFrom i it c).2) as Hf.
  { clear. intros it c. rewrite unlink_from_eq. unfold same_shape, vert_at, stat_at. simpl.
    rewrite !length_alter. do 6 (split; [done|]).
    split; intros; rewrite alter_total; by case_decide. }
  assert (∀ it c, same_shape c (gddEdgeUnlinkTo i it c).2) as Ht.
  { clear. intros it c. rewrite unlink_to_eq. unfold same_shape, vert_at, stat_at. simpl.
    rewrite !length_alter. do 6 (split; [done|]).
    split; intros; rewrite alter_total; by case_decide. }
  specialize (Hf fi c). unfold gddEdgeUnlink.
  destruct (gddEdgeUnlinkFrom i fi c) as [fi' c1]. specialize (Ht ti c1).
  destruct (gddEdgeUnlinkTo i ti c1) as [ti' c2]. simpl in *. by transitivity c1; [|transitivity c2].
Qed.

Lemma unlink_eq i fi ti c :
  (gddEdgeUnlink i fi ti c).2 =
  let c2 := (gddEdgeUnlinkTo i ti (gddEdgeUnlinkFrom i fi c).2).2 in
  Assert (outdeg (topstat c2) =? indeg (topstat c2)) c2.
Proof.
  unfold gddEdgeUnlink. destruct (gddEdgeUnlinkFrom i fi c) as [fi' c1]. simpl.
  by destruct (gddEdgeUnlinkTo i ti c1) as [ti' c2].
Qed.

(** A bound vert and its stat. *)
Lemma rep_vert_global R L c s k v :
  Rep [] R L c → get_vert c s k = Some v →
  has_global c v = true ∧ gddMapGet (globals c) k = Some (vert_global c v) ∧
  (vert_global c v < length (stat_heap c))%nat.
Proof.
  intros H Hk. destruct (rep_bound _ _ _ _ H s k v Hk) as (g & Hg & Hm); [set_solver|].
  unfold has_global, vert_global. rewrite Hg. simpl.
  split; [done|]. split; [done|]. by apply (rep_stat _ _ _ _ H k g).
Qed.

Lemma rep_stat_inj X R L c k k' g :
  Rep X R L c → gddMapGet (globals c) k = Some g → gddMapGet (globals c) k' = Some g → k = k'.
Proof.
  intros H Hk Hk'. apply (rep_stat _ _ _ _ H) in Hk as (_ & <- & _).
  by apply (rep_stat _ _ _ _ H) in Hk' as (_ & <- & _).
Qed.

Lemma rep_vert_key X R L c s k s' k' v :
  Rep X R L c → get_vert c s k = Some v → get_vert c s' k' = Some v → s = s' ∧ k = k'.
Proof.
  intros H Hk Hk'. split; [by apply (rep_vert_inj _ _ _ _ H s k s' k' v)|].
  apply (rep_vert _ _ _ _ H) in Hk as (_ & <- & _).
  by apply (rep_vert _ _ _ _ H) in Hk' as (_ & <- & _).
Qed.

(** Dropping an edge from a filtered list. *)
Lemma filter_drop (P : nat → Prop) `{!∀ j, Decision (P j)} i L :
  NoDup L → i ∈ L →
  Z.of_nat (length (filter P (without i L))) =
  Z.of_nat (length (filter P L)) + (if decide (P i) then -1 else 0).
Proof.
  intros HL Hi. rewrite <- without_filter. case_decide as HP.
  - rewrite (length_without i (filter P L)); [lia|by apply NoDup_filter|].
    by apply list_elem_of_filter.
  - rewrite without_notin; [lia|]. rewrite list_elem_of_filter. tauto.
Qed.

Lemma filter_drop_list (P : nat → Prop) `{!∀ j, Decision (P j)} i L :
  ¬ P i → filter P (without i L) = filter P L.
Proof.
  intros HP. rewrite <- without_filter. apply without_notin.
  rewrite list_elem_of_filter. tauto.
Qed.

(** The context after unlinking edge [i]. *)
Lemma unlink_view i fi ti c :
  let vf := from (edge_at c i) in
  let vt := to (edge_at c i) in
  let c' := (gddEdgeUnlink i fi ti c).2 in
  let st1 := alter (add_out (-1)) (vert_global c vf) (stat_heap c) in
  let st2 := alter (add_in (-1)) (vert_global c vt) st1 in
  topstat c' = add_in (-1) (add_out (-1) (topstat c)) ∧
  stat_heap c' = st2 ∧
  vert_heap c' =
    alter (λ w, set_edgesIn (list_after (edgesIn w) i ti) w) vt
      (alter (λ w, set_edgesOut (list_after (edgesOut w) i fi) w) vf (vert_heap c)) ∧
  asserts c' = asserts c && has_global c vf && (0 <=? outdeg (topstat c) + -1) &&
    (0 <=? outdeg (st1 !!! vert_global c vf)) && has_global c vt &&
    (0 <=? indeg (topstat c) + -1) && (0 <=? indeg (st2 !!! vert_global c vt)) &&
    (outdeg (topstat c) + -1 =? indeg (topstat c) + -1).
Proof.
  cbv zeta. rewrite unlink_eq. cbv zeta. rewrite unlink_to_eq.
  pose proof (unlink_from_eq i fi c) as E. cbv zeta in E.
  set (c1 := (gddEdgeUnlinkFrom i fi c).2) in *.
  assert (∀ v, global (vert_at c1 v) = global (vert_at c v)) as Hg.
  { intros v. rewrite E. unfold vert_at. simpl. rewrite alter_total. by case_decide. }
  assert (∀ v, vert_global c1 v = vert_global c v) as Hg1.
  { intros v. unfold vert_global. by rewrite Hg. }
  assert (∀ v, has_global c1 v = has_global c v) as Hg2.
  { intros v. unfold has_global. by rewrite Hg. }
  cbv zeta. rewrite Hg1, Hg2. assert (edge_at c1 i = edge_at c i) as -> by (by rewrite E).
  rewrite E. done.
Qed.

Lemma unlink_asserts R L c i fi ti :
  Rep [] R L c → i ∈ L → asserts (gddEdgeUnlink i fi ti c).2 = true.
Proof.
  intros H Hi. pose proof (rep_nodup _ _ _ _ H) as Hnd.
  destruct (rep_edge _ _ _ _ H i Hi) as (_ & _ & Hvf & Hvt).
  destruct (rep_vert_global _ _ _ _ _ _ H Hvf) as (Hgf & Hmf & Hlf).
  destruct (rep_vert_global _ _ _ _ _ _ H Hvt) as (Hgt & Hmt & Hlt).
  destruct (rep_stat _ _ _ _ H _ _ Hmf) as (_ & _ & _ & Hsf).
  destruct (rep_stat _ _ _ _ H _ _ Hmt) as (_ & _ & Hst & _).
  destruct (rep_top _ _ _ _ H) as [Hti Hto].
  destruct (unlink_view i fi ti c) as (_ & _ & _ & ->). cbv zeta.
  rewrite (rep_asserts _ _ _ _ H), Hgf, Hgt, Hti, Hto, Z.eqb_refl, !andb_true_l, !andb_true_r.
  assert (∀ (P : nat → Prop) `{!∀ j, Decision (P j)}, P i → 1 <= Z.of_nat (length (filter P L))) as Hpos.
  { intros P ? HP. pose proof (filter_drop P i L Hnd Hi) as E. rewrite decide_True in E by done. lia. }
  pose proof (Hpos (λ j, waiter R j = waiter R i) _ eq_refl) as Ho.
  pose proof (Hpos (λ j, holder R j = holder R i) _ eq_refl) as Hn.
  pose proof (length_without i L Hnd Hi).
  unfold stat_at, gin, gout in Hsf, Hst.
  rewrite !alter_total, length_alter, !decide_True by done.
  rewrite !andb_true_iff. repeat split; try apply Z.leb_le; simpl; try lia.
  case_decide; simpl; rewrite Hst; lia.
Qed.

Lemma unlink_rep R L c i fi ti :
  Rep [] R L c → i ∈ L →
  iter_for (edgesOut (vert_at c (from (edge_at c i)))) i fi →
  iter_for (edgesIn (vert_at c (to (edge_at c i)))) i ti →
  Rep [] R (without i L) (gddEdgeUnlink i fi ti c).2.
Proof.
  intros H Hi Hfi Hti. pose proof (rep_nodup _ _ _ _ H) as Hnd.
  destruct (rep_edge _ _ _ _ H i Hi) as (Hlt & _ & Hvf & Hvt).
  destruct (rep_vert_global _ _ _ _ _ _ H Hvf) as (_ & Hmf & Hlf).
  destruct (rep_vert_global _ _ _ _ _ _ H Hvt) as (_ & Hmt & Hlt').
  destruct (rep_top _ _ _ _ H) as [Hti' Hto'].
  pose proof (length_without i L Hnd Hi) as Hlen.
  destruct (unlink_view i fi ti c) as (Etop & Est & Ev & _).
  apply (rep_same_shape _ _ L _ c); [done|apply unlink_shape| |by apply NoDup_without
    |by apply (unlink_asserts R L)|rewrite Etop; simpl; lia|rewrite Etop; simpl; lia|..].
  - intros j. rewrite elem_of_without. tauto.
  - intros s k v Hk. destruct (rep_vert _ _ _ _ H s k v Hk) as (Hvl & _ & Hin & Hout).
    unfold vert_at. rewrite Ev, !alter_total, length_alter. unfold lin, lout in *.
    assert (NoDup (edgesIn (vert_at c v)) ∧ NoDup (edgesOut (vert_at c v))) as [Hni Hno].
    { rewrite Hin, Hout. by split; apply NoDup_filter. }
    assert (to (edge_at c i) = v ↔ seg R i = s ∧ holder R i = k) as Ht.
    { split; [intros <-; by apply (rep_vert_key _ _ _ _ _ _ _ _ _ H Hvt)|].
      intros [<- <-]. congruence. }
    assert (from (edge_at c i) = v ↔ seg R i = s ∧ waiter R i = k) as Hf.
    { split; [intros <-; by apply (rep_vert_key _ _ _ _ _ _ _ _ _ H Hvf)|].
      intros [<- <-]. congruence. }
    fold (vert_at c v). split.
    + case_decide as D1; [destruct D1 as [D1 _]|].
      * rewrite <- without_filter, <- Hin, <- list_after_without with (it := ti);
          [|done|by subst v]. by case_decide.
      * rewrite filter_drop_list by tauto. rewrite <- Hin. by case_decide.
    + case_decide as D1; simpl; case_decide as D2; simpl.
      all: first [destruct D2 as [D2 _]; rewrite <- without_filter, <- Hout;
                    apply list_after_without; [done|by subst v]
                 |rewrite filter_drop_list by tauto; done].
  - intros k g Hk. destruct (rep_stat _ _ _ _ H k g Hk) as (Hgl & _ & Hin & Hout).
    unfold stat_at in *. rewrite Est, !alter_total, length_alter. unfold gin, gout in *.
    rewrite !filter_drop by done. rewrite <- Hin, <- Hout.
    assert (vert_global c (to (edge_at c i)) = g ↔ holder R i = k) as Ht.
    { split; [intros <-; by apply (rep_stat_inj _ _ _ _ _ _ _ H Hmt)|intros <-; congruence]. }
    assert (vert_global c (from (edge_at c i)) = g ↔ waiter R i = k) as Hf.
    { split; [intros <-; by apply (rep_stat_inj _ _ _ _ _ _ _ H Hmf)|intros <-; congruence]. }
    do 2 case_decide; simpl; do 2 (case_decide; simpl); split; tauto || lia.
Qed.

(** ** Unlinking the edges of a vert *)

(** [L'] is [L] without some edges that satisfy [P]; [d] tells whether an edge
    is gone. *)
Definition dropped (P : nat → Prop) (L : list nat) (d : bool) (L' : list nat) : Prop :=
  L' ⊆ L ∧ (∀ i, i ∈ L → i ∉ L' → P i) ∧
  (if d then (length L' < length L)%nat else L' = L).

Lemma dropped_refl P L : dropped P L false L.
Proof. split; [done|]. split; [|done]. tauto. Qed.

Lemma dropped_trans P L d L1 d' L2 :
  dropped P L d L1 → dropped P L1 d' L2 → dropped P L (d || d') L2.
Proof.
  intros (Hs & Hp & Hd) (Hs' & Hp' & Hd'). split; [set_solver|]. split.
  - intros i Hi Hn. destruct (decide (i ∈ L1)); auto.
  - destruct d, d'; simpl in *; subst; auto; lia.
Qed.

Lemma dropped_weaken (P Q : nat → Prop) L d L' :
  (∀ i, i ∈ L → P i → Q i) → dropped P L d L' → dropped Q L d L'.
Proof. intros HPQ (Hs & Hp & Hd). split; [done|]. split; [|done]. auto. Qed.

Lemma dropped_without (P : nat → Prop) L i :
  NoDup L → i ∈ L → P i → dropped P L true (without i L).
Proof.
  intros Hnd Hi HP. split; [intros j; rewrite elem_of_without; tauto|]. split.
  - intros j Hj Hn. rewrite elem_of_without in Hn. destruct (decide (j = i)) as [->|]; [done|]. tauto.
  - rewrite (length_without i L); [lia|done..].
Qed.

Lemma unlink_in_iter_eq i it c :
  unlink_in_iter i it c = (gdd_list_iter_delete it, (gddEdgeUnlink i None (Some it) c).2).
Proof. reflexivity. Qed.
Lemma unlink_out_iter_eq i it c :
  unlink_out_iter i it c = (gdd_list_iter_delete it, (gddEdgeUnlink i (Some it) None c).2).
Proof. reflexivity. Qed.
#[local] Opaque unlink_in_iter unlink_out_iter gddEdgeUnlink gdd_list_iter_delete.

Section Loops.
Context (R : list WaitRow).

(** The state of a loop that started with [c] and [L]. *)
Definition loop_state (P : nat → Prop) (c : GddCtx) (L : list nat) (s : bool * GddCtx) L' : Prop :=
  Rep [] R L' s.2 ∧ same_shape c s.2 ∧ dropped P L s.1 L'.

Lemma unlink_in_step P c L d c1 L1 i s k v pre suf :
  loop_state P c L (d, c1) L1 → get_vert c s k = Some v →
  lin R L1 s k = pre ++ i :: suf → P i →
  let r := unlink_in_iter i (iter_at (pre ++ i :: suf) (length pre)) c1 in
  r.1 = gdd_list_iter_delete (iter_at (pre ++ i :: suf) (length pre)) ∧
  loop_state P c L (true, r.2) (without i L1) ∧ lin R (without i L1) s k = pre ++ suf.
Proof.
  intros (H & Hs & Hd) Hv Hin HP. cbv zeta. simpl in H, Hs, Hd.
  rewrite <- (same_shape_get_vert c c1 s k Hs) in Hv.
  pose proof (rep_nodup _ _ _ _ H) as Hnd.
  assert (i ∈ lin R L1 s k) as Hi by (rewrite Hin; set_solver).
  apply list_elem_of_filter in Hi as [[Hsi Hhi] Hi].
  destruct (rep_edge _ _ _ _ H i Hi) as (_ & _ & _ & Hto). rewrite Hsi, Hhi, Hv in Hto.
  injection Hto as Hto.
  destruct (rep_vert _ _ _ _ H _ _ _ Hv) as (_ & _ & Hei & _).
  set (it := iter_at (pre ++ i :: suf) (length pre)).
  assert (Rep [] R (without i L1) (gddEdgeUnlink i None (Some it) c1).2) as H'.
  { apply unlink_rep; [done..|]. simpl. exists pre, suf. by rewrite <- Hto, Hei, Hin. }
  pose proof (unlink_shape i None (Some it) c1) as Hs'.
  assert (lin R (without i L1) s k = pre ++ suf) as Hl.
  { unfold lin. rewrite <- without_filter. fold (lin R L1 s k). rewrite Hin.
    apply without_app. rewrite <- Hin. by apply NoDup_filter. }
  fold it. rewrite unlink_in_iter_eq.
  split; [done|]. split; [|done]. split; [done|]. split; [by transitivity c1|].
  simpl. rewrite <- (orb_true_r d). apply (dropped_trans _ _ d L1); [done|].
  by apply dropped_without.
Qed.

Lemma unlink_out_step P c L d c1 L1 i s k v pre suf :
  loop_state P c L (d, c1) L1 → get_vert c s k = Some v →
  lout R L1 s k = pre ++ i :: suf → P i →
  let r := unlink_out_iter i (iter_at (pre ++ i :: suf) (length pre)) c1 in
  r.1 = gdd_list_iter_delete (iter_at (pre ++ i :: suf) (length pre)) ∧
  loop_state P c L (true, r.2) (without i L1) ∧ lout R (without i L1) s k = pre ++ suf.
Proof.
  intros (H & Hs & Hd) Hv Hin HP. cbv zeta. simpl in H, Hs, Hd.
  rewrite <- (same_shape_get_vert c c1 s k Hs) in Hv.
  pose proof (rep_nodup _ _ _ _ H) as Hnd.
  assert (i ∈ lout R L1 s k) as Hi by (rewrite Hin; set_solver).
  apply list_elem_of_filter in Hi as [[Hsi Hhi] Hi].
  destruct (rep_edge _ _ _ _ H i Hi) as (_ & _ & Hto & _). rewrite Hsi, Hhi, Hv in Hto.
  injection Hto as Hto.
  destruct (rep_vert _ _ _ _ H _ _ _ Hv) as (_ & _ & _ & Hei).
  set (it := iter_at (pre ++ i :: suf) (length pre)).
  assert (Rep [] R (without i L1) (gddEdgeUnlink i (Some it) None c1).2) as H'.
  { apply unlink_rep; [done..| |done]. simpl. exists pre, suf. by rewrite <- Hto, Hei, Hin. }
  pose proof (unlink_shape i (Some it) None c1) as Hs'.
  assert (lout R (without i L1) s k = pre ++ suf) as Hl.
  { unfold lout. rewrite <- without_filter. fold (lout R L1 s k). rewrite Hin.
    apply without_app. rewrite <- Hin. by apply NoDup_filter. }
  fold it. rewrite unlink_out_iter_eq.
  split; [done|]. split; [|done]. split; [done|]. split; [by transitivity c1|].
  simpl. rewrite <- (orb_true_r d). apply (dropped_trans _ _ d L1); [done|].
  by apply dropped_without.
Qed.

Lemma loop_state_start P c L : Rep [] R L c → loop_state P c L (false, c) L.
Proof. intros H. split; [done|]. split; [reflexivity|]. apply dropped_refl. Qed.

(** [Assert] of a true condition changes nothing that matters. *)
Lemma assert_id (b : bool) c : b = true → asserts c = true → Assert b c = c.
Proof. intros -> H. destruct c; simpl in *. unfold Assert. simpl. by rewrite H. Qed.

(** The loops over the edges into and out of the vert. *)
Lemma unlink_in_loop P c L s k v :
  Rep [] R L c → get_vert c s k = Some v → (∀ i, seg R i = s ∧ holder R i = k → P i) →
  let r := gdd_list_foreach (edgesIn (vert_at c v))
      (λ edge it '(_, c), let '(it, c) := unlink_in_iter edge it c in (it, (true, c))) (false, c) in
  ∃ L', loop_state P c L r.2 L' ∧ lin R L' s k = [].
Proof.
  intros H Hv HP. cbv zeta.
  pose (I := λ (pre suf : list nat) (st : bool * GddCtx),
    pre = [] ∧ ∃ L', loop_state P c L st L' ∧ lin R L' s k = suf).
  apply (list_foreach_rule I).
  - intros pre i suf [d c1] [-> (L1 & HL & Hl)]. right.
    destruct (unlink_in_step P c L d c1 L1 i s k v [] suf HL Hv Hl) as (E & HL' & Hl').
    { apply HP. assert (i ∈ lin R L1 s k) as Hi by (rewrite Hl; set_solver).
      by apply list_elem_of_filter in Hi as [? _]. }
    cbn [app length] in *. destruct (unlink_in_iter _ _ c1) as [it' c2].
    split; [done|]. split; [done|]. by exists (without i L1).
  - split; [done|]. exists L. split; [by apply loop_state_start|].
    by destruct (rep_vert _ _ _ _ H s k v Hv) as (_ & _ & -> & _).
Qed.

Lemma unlink_out_loop P c0 L0 d c L s k v :
  loop_state P c0 L0 (d, c) L → get_vert c0 s k = Some v →
  lin R L s k = [] → (∀ i, seg R i = s ∧ waiter R i = k → P i) →
  let r := gdd_list_foreach (edgesOut (vert_at c v))
      (λ edge it '(_, c), let '(it, c) := unlink_out_iter edge it c in (it, (true, c))) (d, c) in
  ∃ L', loop_state P c0 L0 r.2 L' ∧ lin R L' s k = [] ∧ lout R L' s k = [].
Proof.
  intros H Hv Hin HP. cbv zeta.
  pose (I := λ (pre suf : list nat) (st : bool * GddCtx),
    pre = [] ∧ ∃ L', loop_state P c0 L0 st L' ∧ lin R L' s k = [] ∧ lout R L' s k = suf).
  apply (list_foreach_rule I).
  - intros pre i suf [d1 c1] [-> (L1 & HL & Hi1 & Hl)]. right.
    destruct (unlink_out_step P c0 L0 d1 c1 L1 i s k v [] suf HL Hv Hl) as (E & HL' & Hl').
    { apply HP. assert (i ∈ lout R L1 s k) as Hi by (rewrite Hl; set_solver).
      by apply list_elem_of_filter in Hi as [? _]. }
    cbn [app length] in *. destruct (unlink_out_iter _ _ c1) as [it' c2].
    split; [done|]. split; [done|]. exists (without i L1). split; [done|]. split; [|done].
    unfold lin. rewrite <- without_filter. fold (lin R L1 s k). by rewrite Hi1.
  - split; [done|]. exists L. split; [done|]. split; [done|]. destruct H as (H & Hs & _). cbn [fst snd] in H, Hs.
    rewrite <- (same_shape_get_vert c0 c s k Hs) in Hv.
    by destruct (rep_vert _ _ _ _ H s k v Hv) as (_ & _ & _ & ->).
Qed.

(** Incident to the vert [k] of segment [s]. *)
Definition incident (s k : Z) (i : nat) : Prop := seg R i = s ∧ (holder R i = k ∨ waiter R i = k).

Lemma unlink_all_spec c L s k v :
  Rep [] R L c → get_vert c s k = Some v →
  ∃ L', loop_state (incident s k) c L (gddVertUnlinkAll v c) L' ∧
    lin R L' s k = [] ∧ lout R L' s k = [].
Proof.
  intros H Hv. unfold gddVertUnlinkAll.
  destruct (unlink_in_loop (incident s k) c L s k v H Hv) as (L1 & H1 & Hin1).
  { unfold incident. naive_solver. }
  destruct (gdd_list_foreach _ _ _) as [it1 [d1 c1]]. simpl in H1.
  assert (∀ d c2 L2, loop_state (incident s k) c L (d, c2) L2 →
    edgesIn (vert_at c2 v) = lin R L2 s k ∧ edgesOut (vert_at c2 v) = lout R L2 s k ∧
    asserts c2 = true) as Hview.
  { intros d c2 L2 (H2 & Hs2 & _). cbn [fst snd] in H2, Hs2. pose proof Hv as Hv2.
    rewrite <- (same_shape_get_vert c c2 s k Hs2) in Hv2.
    destruct (rep_vert _ _ _ _ H2 s k v Hv2) as (_ & _ & -> & ->).
    split; [done|]. split; [done|]. apply H2. }
  destruct (Hview _ _ _ H1) as (E1 & _ & Ea1).
  rewrite assert_id by (done || by rewrite E1, Hin1).
  destruct (unlink_out_loop (incident s k) c L d1 c1 L1 s k v H1 Hv Hin1) as (L2 & H2 & Hin2 & Hout2).
  { unfold incident. naive_solver. }
  destruct (gdd_list_foreach _ _ _) as [it2 [d2 c2]]. simpl in H2.
  destruct (Hview _ _ _ H2) as (_ & E2 & Ea2).
  rewrite assert_id by (done || by rewrite E2, Hout2). by exists L2.
Qed.

(** The loop over the dotted edges into the vert. *)
Lemma unlink_dotted_loop P c L s k v :
  Rep [] R L c → get_vert c s k = Some v →
  (∀ i, seg R i = s ∧ holder R i = k → is_solid R i = false → P i) →
  let r := gdd_list_foreach (edgesIn (vert_at c v))
        (λ edge it '(dirty, c),
           if solid (edge_at c edge) then (it, (dirty, c))
           else let '(it, c) := unlink_in_iter edge it c in (it, (true, c)))
        (false, c) in
  ∃ L', loop_state P c L r.2 L' ∧ lin R L' s k = iter_list r.1 ∧
    ∀ i, i ∈ lin R L' s k → is_solid R i = true.
Proof.
  intros H Hv HP. cbv zeta.
  pose (I := λ (pre suf : list nat) (st : bool * GddCtx),
    ∃ L', loop_state P c L st L' ∧ lin R L' s k = pre ++ suf ∧
      ∀ i, i ∈ pre → is_solid R i = true).
  match goal with |- context [gdd_list_foreach ?l ?b ?s0] =>
    assert (I (iter_list (gdd_list_foreach l b s0).1) [] (gdd_list_foreach l b s0).2) as HI end.
  { apply (list_foreach_rule I).
    - intros pre i suf [d c1] (L1 & HL & Hl & Hp).
      assert (i ∈ lin R L1 s k) as Hi by (rewrite Hl; set_solver).
      apply list_elem_of_filter in Hi as [Hik Hi].
      pose proof HL as (H1 & Hs1 & Hd1).
      destruct (rep_edge _ _ _ _ H1 i Hi) as (_ & Hsol & _).
      cbv zeta. cbn [snd fst] in Hsol. destruct (solid (edge_at c1 i)) eqn:Es.
      + left. split; [done|]. exists L1. split; [done|]. rewrite <- app_assoc. split; [done|].
        intros j [Hj| ->%list_elem_of_singleton]%elem_of_app; [by apply Hp|done].
      + right.
        destruct (unlink_in_step P c L d c1 L1 i s k v pre suf HL Hv Hl) as (E & HL' & Hl'); [auto|].
        destruct (unlink_in_iter _ _ c1) as [it' c2]. split; [done|]. by exists (without i L1).
    - exists L. split; [by apply loop_state_start|].
      destruct (rep_vert _ _ _ _ H s k v Hv) as (_ & _ & -> & _). split; [done|]. set_solver. }
  destruct HI as (L' & H1 & H2 & H3). exists L'. rewrite app_nil_r in H2.
  split; [done|]. split; [done|]. by rewrite H2.
Qed.

(** ** Removable edges *)

(** The rules of the README: an edge goes when its holder waits for nobody
    anywhere, when nobody waits for its waiter anywhere, or when it is dotted
    and its holder waits for nobody on the same segment. *)
Definition removable (L : list nat) (i : nat) : Prop :=
  gout R L (holder R i) = [] ∨ gin R L (waiter R i) = [] ∨
  (is_solid R i = false ∧ lout R L (seg R i) (holder R i) = []).

(** No edge of [S] may be removed while the others of [S] stay. *)
Definition stuck (S : list nat) : Prop := ∀ i, i ∈ S → ¬ removable S i.

Lemma filter_nil_sub (P : nat → Prop) `{!∀ j, Decision (P j)} (S L : list nat) :
  S ⊆ L → filter P L = [] → filter P S = [].
Proof.
  intros HS E.
  apply filter_none. intros j Hj HP.
  assert (j ∈ filter P L) as Hx by (apply list_elem_of_filter; auto).
  rewrite E in Hx. set_solver.
Qed.

Lemma removable_sub S L i : S ⊆ L → removable L i → removable S i.
Proof.
  intros HS [H|[H|[H1 H2]]]; [left|right; left|right; right; split; [done|]];
    unfold gin, gout, lout in *; eapply filter_nil_sub; eauto.
Qed.

Lemma stuck_stays S L d L' : stuck S → S ⊆ L → dropped (removable L) L d L' → S ⊆ L'.
Proof.
  intros HS Hsub (_ & Hrem & _) i Hi. destruct (decide (i ∈ L')) as [|Hn]; [done|].
  destruct (HS i Hi). apply (removable_sub S L); auto.
Qed.

(** What a visit that finds nothing to remove has checked. *)
Definition checked (L : list nat) (s k : Z) : Prop :=
  (gin R L k = [] ∨ gout R L k = [] → lin R L s k = [] ∧ lout R L s k = []) ∧
  (lout R L s k = [] → ∀ i, i ∈ lin R L s k → is_solid R i = true).

Lemma length_zero {A} (l : list A) : (Z.of_nat (length l) =? 0) = true ↔ l = [].
Proof. rewrite Z.eqb_eq. destruct l; simpl; split; done || lia. Qed.

Lemma vert_reduce_spec c L s k v :
  Rep [] R L c → get_vert c s k = Some v →
  ∃ L', loop_state (removable L) c L (gddVertReduce v c) L' ∧
    ((gddVertReduce v c).1 = false → checked L s k).
Proof.
  intros H Hv. destruct (rep_vert_global _ _ _ _ _ _ H Hv) as (Hg & Hm & _).
  destruct (rep_stat _ _ _ _ H _ _ Hm) as (_ & _ & Ein & Eout).
  destruct (rep_vert _ _ _ _ H _ _ _ Hv) as (_ & _ & _ & Elo).
  unfold gddVertReduce. rewrite assert_id by (done || apply H).
  rewrite Ein, Eout. destruct (_ || _) eqn:Eend.
  { rewrite orb_true_iff, !length_zero in Eend.
    destruct (unlink_all_spec c L s k v H Hv) as (L' & (H' & Hs' & Hd) & Hin & Hout).
    exists L'. split.
    - split; [done|]. split; [done|]. revert Hd. apply dropped_weaken.
      intros i Hi (_ & [Hk|Hk]).
      + left. destruct Eend as [E|E]; [|by rewrite Hk]. exfalso.
        assert (i ∈ gin R L k) as Hx by (by apply list_elem_of_filter). rewrite E in Hx. set_solver.
      + right; left. destruct Eend as [E|E]; [by rewrite Hk|]. exfalso.
        assert (i ∈ gout R L k) as Hx by (by apply list_elem_of_filter). rewrite E in Hx. set_solver.
    - intros E. destruct Hd as (_ & _ & Hd). rewrite E in Hd. subst L'.
      split; [done|]. rewrite Hin. set_solver. }
  rewrite orb_false_iff, <- !not_true_iff_false, !length_zero in Eend.
  unfold gddVertGetOutDegree. rewrite Elo. destruct (Nat.eqb_spec (length (lout R L s k)) 0) as [E0|E0].
  - apply nil_length_inv in E0.
    destruct (unlink_dotted_loop (removable L) c L s k v H Hv) as (L' & HL & Hl & Hsol).
    { intros i [<- <-] Hi. right; right. auto. }
    destruct (gdd_list_foreach _ _ _) as [it [d c1]]. simpl in HL, Hl.
    pose proof HL as (H1 & Hs1 & Hd1). cbn [fst snd] in H1, Hs1.
    assert (get_vert c1 s k = Some v) as Hv1 by (by rewrite (same_shape_get_vert c c1)).
    destruct (rep_vert _ _ _ _ H1 _ _ _ Hv1) as (_ & _ & Ein1 & _).
    rewrite assert_id; [|rewrite Ein1, Hl; apply orb_negb_l|apply H1].
    exists L'. split; [done|]. cbn [fst]. intros ->. destruct Hd1 as (_ & _ & Hd1). simpl in Hd1.
    subst L'. split; [tauto|]. auto.
  - exists L. split; [by apply loop_state_start|]. intros _.
    split; [tauto|]. intros E. by rewrite E in E0.
Qed.

(** ** Removing verts *)

(** The pair at [pos] of the verts of graph [g]. *)
Definition delete_vert (g : nat) (pos : nat) (c : GddCtx) : GddCtx :=
  upd_graph g (set_verts (gdd_map_iter_delete (verts (graph_at c g)) (Z.of_nat pos)).1) c.

Lemma graph_at_upd a f c v :
  graph_at (upd_graph a f c) v =
  if decide (a = v ∧ (v < length (graph_heap c))%nat) then f (graph_at c v) else graph_at c v.
Proof. apply alter_total. Qed.

Lemma rep_graph_inj X L c s s' g :
  Rep X R L c → gddMapGet (graphs c) s = Some g → gddMapGet (graphs c) s' = Some g → s = s'.
Proof.
  intros H Hk Hk'. apply (rep_graph _ _ _ _ H) in Hk as (_ & <- & _).
  by apply (rep_graph _ _ _ _ H) in Hk' as (_ & <- & _).
Qed.

Lemma delete_vert_get c L s g pos k v s' k' :
  Rep [] R L c → gddMapGet (graphs c) s = Some g →
  pairs (verts (graph_at c g)) !! pos = Some (k, v) →
  get_vert (delete_vert g pos c) s' k' =
  if decide (s' = s ∧ k' = k) then None else get_vert c s' k'.
Proof.
  intros H Hg Hp. destruct (rep_graph _ _ _ _ H s g Hg) as (Hgl & _ & Hok).
  destruct (map_delete_ok _ _ _ _ Hok Hp) as (_ & Hget & _).
  unfold get_vert. assert (graphs (delete_vert g pos c) = graphs c) as -> by done.
  destruct (gddMapGet (graphs c) s') as [g'|] eqn:Eg; [|by case_decide].
  unfold delete_vert. rewrite graph_at_upd.
  case_decide as D.
  - destruct D as [<- _]. assert (s' = s) as -> by (by apply (rep_graph_inj _ _ _ _ _ _ H Eg)).
    cbn [verts set_verts]. rewrite Hget. repeat case_decide; tauto.
  - rewrite decide_False; [done|]. intros [-> _]. rewrite Hg in Eg. injection Eg as ->. tauto.
Qed.

Lemma delete_vert_rep c L s g pos k v :
  Rep [] R L c → gddMapGet (graphs c) s = Some g →
  pairs (verts (graph_at c g)) !! pos = Some (k, v) →
  lin R L s k = [] → lout R L s k = [] → Rep [] R L (delete_vert g pos c).
Proof.
  intros H Hg Hp Hin Hout.
  pose proof (λ s' k', delete_vert_get c L s g pos k v s' k' H Hg Hp) as Hget.
  assert (∀ s' k' v', get_vert (delete_vert g pos c) s' k' = Some v' → get_vert c s' k' = Some v') as Hsub.
  { intros s' k' v'. rewrite Hget. by case_decide. }
  split; try apply H; cbn [delete_vert upd_graph edge_heap vert_heap].
  - intros i Hi. destruct (rep_edge _ _ _ _ H i Hi) as (? & ? & Hw & Hh). rewrite !Hget.
    rewrite !decide_False; [done|..].
    + intros E. assert (i ∈ lin R L s k) as Hx by (apply list_elem_of_filter; tauto).
      rewrite Hin in Hx. set_solver.
    + intros E. assert (i ∈ lout R L s k) as Hx by (apply list_elem_of_filter; tauto).
      rewrite Hout in Hx. set_solver.
  - intros s' k' v' Hv'. apply (rep_vert _ _ _ _ H). auto.
  - intros s1 k1 s2 k2 v' H1 H2. apply (rep_vert_inj _ _ _ _ H s1 k1 s2 k2 v'); auto.
  - intros s' k' v' Hv' HX. apply (rep_bound _ _ _ _ H s' k'); auto.
  - intros s' g' Hg'. destruct (rep_graph _ _ _ _ H s' g' Hg') as (Hl & Hid & Hok).
    split; [by unfold delete_vert, upd_graph; simpl; rewrite length_alter|].
    unfold delete_vert. rewrite graph_at_upd. case_decide as D; [|done].
    destruct D as [<- _]. split; [done|]. by apply (map_delete_ok _ _ k v).
Qed.

(** ** The reduction *)

(** From [L] to [L']: no edge of a stuck set goes; [d] tells whether any went. *)
Definition progress (L : list nat) (d : bool) (L' : list nat) : Prop :=
  L' ⊆ L ∧ (∀ S, stuck S → S ⊆ L → S ⊆ L') ∧
  (if d then (length L' < length L)%nat else L' = L).

Lemma progress_refl L : progress L false L.
Proof. by split; [|split]. Qed.

Lemma progress_trans L d L1 d' L2 :
  progress L d L1 → progress L1 d' L2 → progress L (if d' then true else d) L2.
Proof.
  intros (Hs & Hp & Hd) (Hs' & Hp' & Hd'). split; [set_solver|]. split; [auto|].
  destruct d, d'; simpl in *; subst; auto; lia.
Qed.

Lemma dropped_progress L d L' : dropped (removable L) L d L' → progress L d L'.
Proof.
  intros H. pose proof H as (Hs & _ & Hd). split; [done|]. split; [|done].
  intros S HS Hsub. by apply (stuck_stays S L d L').
Qed.

(** The state in a round that started with [c0] and [L]: the verts of the
    segments in [D] have been checked if nothing was removed so far. *)
Definition round_state (c0 : GddCtx) (L : list nat) (D : Z → Prop) (st : bool * GddCtx) (L1 : list nat) : Prop :=
  Rep [] R L1 st.2 ∧ graphs st.2 = graphs c0 ∧ progress L st.1 L1 ∧
  (st.1 = false → ∀ s k v, D s → get_vert st.2 s k = Some v → checked L s k).

(** ... and so have those at the positions of [g] before [pos]. *)
Definition graph_state c0 L D s g (pos : nat) (st : bool * GddCtx) : Prop :=
  ∃ L1, round_state c0 L D st L1 ∧
    (st.1 = false → ∀ j k v, (j < pos)%nat →
       pairs (verts (graph_at st.2 g)) !! j = Some (k, v) → checked L s k).

Lemma rep_pair_get X L c s g j k v :
  Rep X R L c → gddMapGet (graphs c) s = Some g →
  pairs (verts (graph_at c g)) !! j = Some (k, v) → get_vert c s k = Some v.
Proof.
  intros H Hg Hj. unfold get_vert. rewrite Hg.
  apply gddMapGet_elem; [by apply (rep_graph _ _ _ _ H s g)|]. by apply list_elem_of_lookup_2 in Hj.
Qed.

Lemma vert_reduce_state c0 L D s g pos d c k v :
  gddMapGet (graphs c0) s = Some g →
  graph_state c0 L D s g pos (d, c) → pairs (verts (graph_at c g)) !! pos = Some (k, v) →
  let '(d', c') := gddVertReduce v c in
  graph_state c0 L D s g (S pos) (if d' then true else d, c') ∧
  graph_heap c' = graph_heap c.
Proof.
  intros Hg (L1 & (H & Egr & Hpr & HD) & Hpos) Hp. cbn [fst snd] in *.
  assert (get_vert c s k = Some v) as Hv by (apply (rep_pair_get [] L1 c s g pos); [done|by rewrite Egr|done]).
  destruct (vert_reduce_spec c L1 s k v H Hv) as (L2 & (H2 & Hsh & Hdr) & Hck).
  destruct (gddVertReduce v c) as [d' c']. cbn [fst snd] in *.
  pose proof Hsh as (_ & Egr2 & Egh & _). split; [|done]. exists L2. split.
  - split; [done|]. cbn [fst snd]. split; [by rewrite Egr2|]. split.
    + apply (progress_trans L d L1); [done|]. by apply dropped_progress.
    + destruct d'; [done|]. intros -> s' k' v' HDs. rewrite (same_shape_get_vert c c') by done.
      by apply HD.
  - cbn [fst snd]. assert (graph_at c' g = graph_at c g) as -> by (unfold graph_at; by rewrite Egh).
    destruct d'; [done|]. intros ->.
    intros j k' v' Hj Hjk. destruct (decide (j = pos)) as [->|].
    + rewrite Hp in Hjk. injection Hjk as -> ->. destruct Hpr as (_ & _ & <-). by apply Hck.
    + apply (Hpos eq_refl j k' v'); [lia|done].
Qed.

Lemma reduce_vert_delete c0 L D s g pos d c k v :
  gddMapGet (graphs c0) s = Some g →
  graph_state c0 L D s g (S pos) (d, c) → pairs (verts (graph_at c g)) !! pos = Some (k, v) →
  gddVertGetInDegree c v = 0%nat → gddVertGetOutDegree c v = 0%nat →
  graph_state c0 L D s g pos (d, delete_vert g pos c) ∧
  length (pairs (verts (graph_at c g))) =
    S (length (pairs (verts (graph_at (delete_vert g pos c) g)))).
Proof.
  intros Hg (L1 & (H & Egr & Hpr & HD) & Hpos) Hp Hin Hout. cbn [fst snd] in *.
  assert (gddMapGet (graphs c) s = Some g) as Hgc by (by rewrite Egr).
  assert (get_vert c s k = Some v) as Hv by (by apply (rep_pair_get [] L1 c s g pos)).
  destruct (rep_vert _ _ _ _ H _ _ _ Hv) as (_ & _ & Ei & Eo).
  unfold gddVertGetInDegree, gddVertGetOutDegree in Hin, Hout.
  rewrite Ei in Hin. rewrite Eo in Hout. apply nil_length_inv in Hin, Hout.
  destruct (rep_graph _ _ _ _ H s g Hgc) as (Hgl & _ & Hok).
  destruct (map_delete_ok _ _ _ _ Hok Hp) as (_ & _ & Hlen & Hlk).
  assert (pairs (verts (graph_at (delete_vert g pos c) g)) =
          pairs (gdd_map_iter_delete (verts (graph_at c g)) (Z.of_nat pos)).1) as Epairs.
  { unfold delete_vert. rewrite graph_at_upd, decide_True by done. done. }
  split; [|by rewrite Epairs]. exists L1. split.
  - split; [by apply (delete_vert_rep c L1 s g pos k v)|]. split; [done|]. split; [done|].
    cbn [fst snd]. intros -> s' k' v' HDs. rewrite (delete_vert_get c L1 s g pos k v) by done.
    case_decide; [done|]. by apply HD.
  - cbn [fst snd]. intros -> j k' v' Hj. rewrite Epairs, Hlk by done. apply Hpos; [done|lia].
Qed.

Lemma reduce_graph_state c0 L D pos st L1 s g :
  pairs (graphs c0) !! pos = Some (s, g) → map_ok (graphs c0) →
  round_state c0 L D st L1 →
  let r := reduce_graph (Z.of_nat pos) st in
  r.1 = Z.of_nat pos ∧ ∃ L2, round_state c0 L (λ s', D s' ∨ s' = s) r.2 L2.
Proof.
  intros Hp [Hnd _] Hst. cbv zeta. split; [done|]. unfold reduce_graph. cbn [snd].
  assert (gddMapGet (graphs c0) s = Some g) as Hg.
  { apply gddMapGet_elem; [done|]. by apply list_elem_of_lookup_2 in Hp. }
  assert (map_ptr (graphs st.2) (Z.of_nat pos) = g) as ->.
  { destruct Hst as (_ & -> & _). unfold map_ptr. rewrite Nat2Z.id.
    by rewrite (list_lookup_total_correct _ _ _ Hp). }
  destruct (map_foreach_rule (graph_state c0 L D s g)
    (λ st : bool * GddCtx, verts (graph_at st.2 g)) (reduce_vert g) st)
    as (p & (L2 & Hr & Hck) & Hend).
  - clear dependent st. intros p [d c] Hst Hlt. cbn [snd] in Hlt. cbv zeta. cbn [snd].
    destruct (lookup_lt_is_Some_2 _ _ Hlt) as [[k v] Hk].
    unfold reduce_vert. unfold map_ptr. rewrite Nat2Z.id, (list_lookup_total_correct _ _ _ Hk).
    cbn [snd]. pose proof (vert_reduce_state c0 L D s g p d c k v Hg Hst Hk) as Hv.
    destruct (gddVertReduce v c) as [d' c']. destruct Hv as [Hv Egh].
    assert (graph_at c' g = graph_at c g) as Eg by (unfold graph_at; by rewrite Egh).
    destruct (_ && _) eqn:Edeg.
    + right. rewrite andb_true_iff, !Nat.eqb_eq in Edeg. destruct Edeg as [Ei Eo].
      rewrite <- Eg in Hk |- *.
      destruct (reduce_vert_delete c0 L D s g p _ c' k v Hg Hv Hk Ei Eo) as [Hd Hl].
      destruct (gdd_map_iter_delete _ _) as [m p'] eqn:Em.
      assert (delete_vert g p c' = upd_graph g (set_verts m) c') as Ed
        by (unfold delete_vert; by rewrite Em).
      rewrite <- Ed. split; [|done]. by injection Em as _ <-.
    + left. split; [done|]. split; [done|]. cbn [snd]. by rewrite Eg.
  - exists L1. split; [done|]. intros _ j. lia.
  - exists L2. destruct Hr as (H2 & Egr & Hpr & HD). split; [done|]. split; [done|]. split; [done|].
    intros E s' k v [Hs'| ->] Hv; [by apply (HD E s' k v)|].
    unfold get_vert in Hv. rewrite Egr, Hg in Hv.
    rewrite <- Egr in Hg.
    apply gddMapGet_elem in Hv; [|by apply (rep_graph _ _ _ _ H2 s g)].
    apply list_elem_of_lookup in Hv as [j Hj]. apply (Hck E j k v); [|done].
    apply lookup_lt_Some in Hj. lia.
Qed.

Lemma checked_stuck X L c :
  Rep X R L c → (∀ s k v, get_vert c s k = Some v → checked L s k) → stuck L.
Proof.
  intros H Hck i Hi. destruct (rep_edge _ _ _ _ H i Hi) as (_ & _ & Hw & Hh).
  assert (i ∈ lin R L (seg R i) (holder R i)) as Hin by (by apply list_elem_of_filter).
  assert (i ∈ lout R L (seg R i) (waiter R i)) as Hout by (by apply list_elem_of_filter).
  intros [E|[E|[E1 E2]]].
  - destruct (Hck _ _ _ Hh) as [Hc _]. destruct Hc as [Hc _]; [by right|].
    rewrite Hc in Hin. set_solver.
  - destruct (Hck _ _ _ Hw) as [Hc _]. destruct Hc as [_ Hc]; [by left|].
    rewrite Hc in Hout. set_solver.
  - destruct (Hck _ _ _ Hh) as [_ Hc]. rewrite (Hc E2 i Hin) in E1. done.
Qed.

Lemma get_vert_seg c s k v : get_vert c s k = Some v → s ∈ (pairs (graphs c)).*1.
Proof.
  unfold get_vert. destruct (gddMapGet (graphs c) s) eqn:E; [|done]. intros _.
  destruct (decide (s ∈ (pairs (graphs c)).*1)) as [|Hn]; [done|].
  apply gddMapGet_None in Hn. congruence.
Qed.

Lemma reduce_round_spec L c :
  Rep [] R L c →
  let r := reduce_round c in
  ∃ L', Rep [] R L' r.2 ∧ progress L r.1 L' ∧ (r.1 = false → stuck L).
Proof.
  intros H. cbv zeta. unfold reduce_round.
  pose (I := λ (pos : nat) (st : bool * GddCtx),
    ∃ L1, round_state c L (λ s, s ∈ (take pos (pairs (graphs c))).*1) st L1).
  destruct (map_foreach_rule I (λ st : bool * GddCtx, graphs st.2) reduce_graph (false, c))
    as (p & (L1 & (H1 & Egr & Hpr & HD)) & Hend).
  - intros pos st (L1 & Hst) Hlt. cbv zeta. left. pose proof Hst as (_ & Egr & _).
    rewrite Egr in Hlt |- *. destruct (lookup_lt_is_Some_2 _ _ Hlt) as [[s g] Hp].
    destruct (reduce_graph_state c L _ pos st L1 s g Hp (rep_graphs_ok _ _ _ _ H) Hst)
      as (Er & L2 & Hst2).
    split; [done|]. pose proof Hst2 as (H2 & Egr2 & Hpr2 & HD2).
    split; [|by rewrite Egr2]. exists L2. split; [done|]. split; [done|]. split; [done|].
    intros E s' k v Hs'. apply (HD2 E s' k v). rewrite (take_S_r _ _ _ Hp), fmap_app in Hs'.
    set_solver.
  - exists L. split; [done|]. split; [done|]. split; [apply progress_refl|]. set_solver.
  - exists L1. split; [done|]. split; [done|]. intros E.
    assert (L1 = L) as -> by (destruct Hpr as (_ & _ & Hd); by rewrite E in Hd).
    apply (checked_stuck _ _ _ H1). intros s k v Hv. apply (HD E s k v); [|done].
    apply get_vert_seg in Hv. rewrite Egr in Hv, Hend. by rewrite take_ge.
Qed.

Lemma reduce_spec fuel L c :
  Rep [] R L c → (length L < fuel)%nat →
  ∃ c' L', GddCtxReduce fuel c = Some c' ∧ Rep [] R L' c' ∧ L' ⊆ L ∧ stuck L' ∧
    ∀ S, stuck S → S ⊆ L → S ⊆ L'.
Proof.
  revert L c. induction fuel as [|fuel IH]; intros L c H Hf; [lia|]. cbn [GddCtxReduce].
  destruct (reduce_round_spec L c H) as (L1 & H1 & (Hsub & Hkeep & Hd) & Hst).
  destruct (reduce_round c) as [[] c1]; cbn [fst snd] in *.
  - destruct (IH L1 c1 H1 ltac:(lia)) as (c' & L' & -> & H' & Hs' & Hst' & Hk').
    exists c', L'. split; [done|]. split; [done|]. split; [set_solver|]. split; [done|]. auto.
  - subst L1. exists c1, L. split; [done|]. split; [done|]. split; [done|]. split; [by apply Hst|]. auto.
Qed.

End Loops.

(** ** Adding an edge *)

Section AddEdge.
Implicit Types (X L : list nat) (R : list WaitRow) (c : GddCtx).

Lemma rep_weaken X X' R L c : Rep X R L c → X ⊆ X' → Rep X' R L c.
Proof.
  intros H HX. split; try apply H. intros s k v Hv Hn. apply (rep_bound _ _ _ _ H s k); [done|].
  set_solver.
Qed.

(** Every vert and stat known before is known after. *)
Definition extends (c c' : GddCtx) : Prop :=
  (∀ s k v, get_vert c s k = Some v → get_vert c' s k = Some v) ∧
  (∀ k g, gddMapGet (globals c) k = Some g → gddMapGet (globals c') k = Some g) ∧
  edge_heap c' = edge_heap c.

Lemma get_graph_spec X R L c s :
  Rep X R L c →
  let '(g, c') := gddCtxGetGraph s c in
  Rep X R L c' ∧ gddMapGet (graphs c') s = Some g ∧ extends c c'.
Proof.
  intros H. unfold gddCtxGetGraph. destruct (gddMapGet (graphs c) s) as [g|] eqn:E; [by unfold extends; auto|].
  cbn [gddGraphNew graphs]. set (g := length (graph_heap c)).
  set (c' := set_graphs _ _).
  pose proof (rep_graphs_ok _ _ _ _ H) as Hok.
  assert (∀ s', gddMapGet (graphs c') s' = if decide (s' = s) then Some g else gddMapGet (graphs c) s') as Hgr.
  { intros s'. by apply map_set_get. }
  assert (∀ g', graph_at c' g' = if decide (g' = g) then MkGddGraph s gddMapInit else graph_at c g') as Hga.
  { intros g'. apply app_total. }
  assert (∀ s' k, get_vert c' s' k = get_vert c s' k) as Hget.
  { intros s' k. unfold get_vert. rewrite Hgr. case_decide as D.
    - subst. by rewrite E, Hga, decide_True.
    - destruct (gddMapGet (graphs c) s') as [g'|] eqn:E'; [|done].
      destruct (rep_graph _ _ _ _ H s' g' E') as (Hl & _). rewrite Hga, decide_False; [done|]. lia. }
  split; [|split; [|split; [|by split]]].
  - split; try apply H.
    + intros i Hi. rewrite !Hget. by apply H.
    + intros s' k v. rewrite Hget. apply H.
    + intros s1 k1 s2 k2 v. rewrite !Hget. apply H.
    + intros s' k v. rewrite Hget. apply H.
    + by apply map_set_ok.
    + intros s' g'. rewrite Hgr, Hga. unfold c'. simpl. rewrite length_app. simpl.
      case_decide as D.
      * intros [= <-]. rewrite decide_True by done. simpl. subst.
        split; [lia|]. split; [done|]. apply map_init_ok.
      * intros Hg'. destruct (rep_graph _ _ _ _ H s' g' Hg') as (Hl & Hid & Hm).
        rewrite decide_False by lia. split; [lia|]. done.
  - by rewrite Hgr, decide_True.
  - intros s' k v. by rewrite Hget.
Qed.

(** A vert that is not in its graph has no edges. *)
Lemma rep_no_vert X R L c s k :
  Rep X R L c → get_vert c s k = None → lin R L s k = [] ∧ lout R L s k = [].
Proof.
  intros H E. split; apply filter_none; intros i Hi [<- <-];
    destruct (rep_edge _ _ _ _ H i Hi) as (_ & _ & ? & ?); congruence.
Qed.

Lemma get_vert_spec X R L c s g k :
  Rep X R L c → gddMapGet (graphs c) s = Some g →
  let '(v, c') := gddGraphGetVert g k c in
  Rep (v :: X) R L c' ∧ gddMapGet (graphs c') s = Some g ∧ get_vert c' s k = Some v ∧ extends c c'.
Proof.
  intros H Hg. unfold gddGraphGetVert.
  destruct (gddMapGet (verts (graph_at c g)) k) as [v|] eqn:E.
  { split; [apply (rep_weaken X); [done|set_solver]|]. split; [done|].
    split; [by unfold get_vert; rewrite Hg|]. by unfold extends; auto. }
  assert (get_vert c s k = None) as Hnone by (unfold get_vert; by rewrite Hg).
  destruct (rep_no_vert _ _ _ _ _ _ H Hnone) as [Hin Hout].
  destruct (rep_graph _ _ _ _ H s g Hg) as (Hgl & Hgid & Hok).
  cbn [gddVertNew]. set (v := length (vert_heap c)). set (c' := upd_graph _ _ _).
  assert (∀ g', graph_at c' g' = if decide (g' = g) then set_verts (gddMapSetUnsafe (verts (graph_at c g)) k v) (graph_at c g)
                                 else graph_at c g') as Hga.
  { intros g'. unfold c'. rewrite graph_at_upd. simpl.
    destruct (decide (g' = g)) as [->|D]; [by rewrite decide_True|].
    rewrite decide_False; [done|]. intros [D' _]. by destruct D. }
  assert (∀ w, vert_at c' w = if decide (w = v) then MkGddVert k None [] [] else vert_at c w) as Hva.
  { intros w. apply app_total. }
  assert (graphs c' = graphs c) as Egr by done.
  assert (∀ s' k', get_vert c' s' k' = if decide (s' = s ∧ k' = k) then Some v else get_vert c s' k') as Hget.
  { intros s' k'. unfold get_vert. rewrite Egr.
    destruct (gddMapGet (graphs c) s') as [g'|] eqn:Eg'.
    - rewrite Hga. case_decide as D.
      + subst g'. assert (s' = s) as -> by (by apply (rep_graph_inj R _ _ _ _ _ _ H Eg')).
        simpl. rewrite map_set_get by done. repeat case_decide; tauto.
      + rewrite decide_False; [done|]. intros [-> _]. congruence.
    - rewrite decide_False; [done|]. intros [-> _]. congruence. }
  assert (∀ s' k' w, get_vert c s' k' = Some w → get_vert c' s' k' = Some w ∧ w ≠ v) as Hold.
  { intros s' k' w Hw. rewrite Hget. destruct (rep_vert _ _ _ _ H _ _ _ Hw) as (Hl & _).
    rewrite decide_False; [|intros [-> ->]; congruence]. split; [done|]. unfold v. lia. }
  split; [|split; [done|split; [by rewrite Hget, decide_True|split; [|by split]]]].
  - split; try apply H.
    + intros i Hi. destruct (rep_edge _ _ _ _ H i Hi) as (? & ? & H1 & H2).
      split; [done|]. split; [done|]. split; by apply Hold.
    + intros s' k' w. rewrite Hget, Hva. unfold c'. simpl. rewrite length_app. simpl.
      case_decide as D.
      * destruct D as [-> ->]. intros [= <-]. rewrite decide_True by done. simpl.
        rewrite Hin, Hout. split; [unfold v; lia|]. done.
      * intros Hw. destruct (Hold _ _ _ Hw) as [_ Hne]. rewrite decide_False by done.
        destruct (rep_vert _ _ _ _ H _ _ _ Hw) as (Hl & ?). split; [lia|done].
    + intros s1 k1 s2 k2 w. rewrite !Hget. do 2 case_decide.
      * naive_solver.
      * intros [= <-] Hw. by destruct (Hold _ _ _ Hw).
      * intros Hw [= <-]. by destruct (Hold _ _ _ Hw).
      * apply H.
    + intros s' k' w Hw HX. rewrite Hva. apply not_elem_of_cons in HX as [Hne HX].
      rewrite decide_False by done. rewrite Hget in Hw. case_decide; [congruence|].
      by apply (rep_bound _ _ _ _ H s').
    + intros s' g' Hg'. unfold c'. simpl. rewrite length_alter. fold c'.
      destruct (rep_graph _ _ _ _ H s' g' Hg') as (Hl & Hid & Hm). split; [done|].
      rewrite Hga. case_decide as D; [|done]. subst g'. simpl. split; [done|]. by apply map_set_ok.
  - intros s' k' w Hw. by apply Hold.
Qed.

Lemma get_stat_spec X R L c k :
  Rep X R L c →
  let '(g, c') := gddCtxGetGlobalStat k c in
  Rep X R L c' ∧ gddMapGet (globals c') k = Some g ∧ extends c c'.
Proof.
  intros H. unfold gddCtxGetGlobalStat.
  destruct (gddMapGet (globals c) k) as [g|] eqn:E; [by unfold extends; auto|].
  assert (gin R L k = [] ∧ gout R L k = []) as [Hin Hout].
  { split; apply filter_none; intros i Hi <-;
      destruct (rep_edge_stat _ _ _ _ H i Hi) as [[? ?] [? ?]]; congruence. }
  pose proof (rep_globals_ok _ _ _ _ H) as Hok.
  cbn [gddStatNew globals]. set (g := length (stat_heap c)). set (c' := set_globals _ _).
  assert (∀ k', gddMapGet (globals c') k' = if decide (k' = k) then Some g else gddMapGet (globals c) k') as Hgl.
  { intros k'. by apply map_set_get. }
  assert (∀ g', stat_at c' g' = if decide (g' = g) then gddStatInit k else stat_at c g') as Hsa.
  { intros g'. apply app_total. }
  assert (∀ k' g', gddMapGet (globals c) k' = Some g' → gddMapGet (globals c') k' = Some g') as Hold.
  { intros k' g' Hg'. rewrite Hgl. case_decide; [congruence|done]. }
  split; [|split; [by rewrite Hgl, decide_True|by split]].
  split; try apply H.
  - intros i Hi. destruct (rep_edge_stat _ _ _ _ H i Hi) as [[? H1] [? H2]].
    split; eexists; by apply Hold.
  - intros s' k' v Hv HX. destruct (rep_bound _ _ _ _ H s' k' v Hv HX) as (g' & ? & ?). eauto.
  - intros k' g'. rewrite Hgl, Hsa. unfold c'. simpl. rewrite length_app. simpl. case_decide as D.
    + intros [= <-]. rewrite decide_True by done. simpl. subst. rewrite Hin, Hout.
      split; [unfold g; lia|]. done.
    + intros Hg'. destruct (rep_stat _ _ _ _ H _ _ Hg') as (Hl & ?).
      rewrite decide_False by (unfold g; lia). split; [lia|done].
  - by apply map_set_ok.
Qed.

Lemma row_app R r i : (i < length R)%nat → (R ++ [r]) !!! i = R !!! i.
Proof. intros Hi. rewrite app_total, decide_False by lia. done. Qed.

Lemma edge_new_rep X R L c vf vt r :
  Rep X R L c →
  let '(i, c') := gddEdgeNew vf vt (row_solid r) c in
  i = length R ∧ (i ∉ L) ∧ Rep X (R ++ [r]) L c' ∧
  edge_at c' i = MkGddEdge (row_solid r) vf vt ∧
  (∀ s k, get_vert c' s k = get_vert c s k) ∧ globals c' = globals c.
Proof.
  intros H. unfold gddEdgeNew. rewrite (rep_heap _ _ _ _ H). set (c' := MkGddCtx _ _ _ _ _ _ _ _).
  assert (∀ i, edge_at c' i = if decide (i = length R) then MkGddEdge (row_solid r) vf vt else edge_at c i) as Hea.
  { intros i. rewrite <- (rep_heap _ _ _ _ H). apply app_total. }
  assert (∀ i, i ∈ L → (i < length R)%nat) as Hlt by apply H.
  assert (∀ i, i ∈ L → (R ++ [r]) !!! i = R !!! i) as Hrow by (intros; apply row_app; auto).
  assert (∀ s k, lin (R ++ [r]) L s k = lin R L s k ∧ lout (R ++ [r]) L s k = lout R L s k ∧
                 gin (R ++ [r]) L k = gin R L k ∧ gout (R ++ [r]) L k = gout R L k) as Hfil.
  { intros s k. unfold lin, lout, gin, gout, seg, holder, waiter.
    repeat split; apply list_filter_iff_in; intros i Hi; by rewrite Hrow. }
  split; [done|]. split; [intros Hi; apply Hlt in Hi; lia|].
  split; [|split; [by rewrite Hea, decide_True|done]].
  split; try apply H.
  - unfold c'. simpl. rewrite !length_app, (rep_heap _ _ _ _ H). done.
  - intros i Hi. rewrite Hea, decide_False by (apply Hlt in Hi; lia).
    unfold is_solid, seg, waiter, holder. rewrite Hrow, length_app by done.
    destruct (rep_edge _ _ _ _ H i Hi) as (? & ?). split; [lia|done].
  - intros i Hi. unfold waiter, holder. rewrite Hrow by done. by apply H.
  - intros s k v Hv. destruct (Hfil s k) as (-> & -> & _). by apply H.
  - intros k g Hg. destruct (Hfil 0 k) as (_ & _ & -> & ->). by apply H.
Qed.

Lemma bind_rep X X' R L c s k v g :
  Rep X R L c → get_vert c s k = Some v → gddMapGet (globals c) k = Some g →
  (∀ w, w ∈ X → w ≠ v → w ∈ X') →
  Rep X' R L (gddVertBindStats v g c).
Proof.
  intros H Hv Hg HX. set (c' := gddVertBindStats v g c).
  assert (∀ w, vert_at c' w = if decide (v = w ∧ (w < length (vert_heap c))%nat)
    then MkGddVert (vert_id (vert_at c w)) (Some g) (edgesIn (vert_at c w)) (edgesOut (vert_at c w))
    else vert_at c w) as Hva by (intros w; apply vert_at_upd).
  split; try apply H.
  - intros s' k' w Hw. rewrite Hva. unfold c'. simpl. rewrite length_alter.
    destruct (rep_vert _ _ _ _ H s' k' w Hw) as (? & ?). by case_decide.
  - intros s' k' w Hw Hn. destruct (rep_vert _ _ _ _ H s' k' w Hw) as (Hl & _).
    rewrite Hva. destruct (decide (v = w)) as [<-|Hne].
    + rewrite decide_True by done. exists g. split; [done|].
      destruct (rep_vert_key _ _ _ _ _ _ _ _ _ H Hv Hw) as [_ <-]. done.
    + rewrite decide_False by tauto. apply (rep_bound _ _ _ _ H s'); [done|]. auto.
Qed.

(** The context after linking edge [i]. *)
Lemma link_view i c :
  let vf := from (edge_at c i) in
  let vt := to (edge_at c i) in
  gddEdgeLink i c =
  MkGddCtx (add_in 1 (add_out 1 (topstat c))) (globals c) (graphs c)
    (alter (add_in 1) (vert_global c vt) (alter (add_out 1) (vert_global c vf) (stat_heap c)))
    (graph_heap c)
    (alter (λ v, set_edgesIn (edgesIn v ++ [i]) v) vt
       (alter (λ v, set_edgesOut (edgesOut v ++ [i]) v) vf (vert_heap c))) (edge_heap c)
    (asserts c && has_global c vf && has_global c vt &&
     (outdeg (topstat c) + 1 =? indeg (topstat c) + 1)).
Proof. reflexivity. Qed.

Lemma filter_snoc (P : nat → Prop) `{!∀ j, Decision (P j)} L i :
  filter P (L ++ [i]) = filter P L ++ (if decide (P i) then [i] else []).
Proof. by rewrite filter_app, filter_cons. Qed.

Lemma link_rep R L c i :
  Rep [] R L c → i ∉ L → (i < length R)%nat → solid (edge_at c i) = is_solid R i →
  get_vert c (seg R i) (waiter R i) = Some (from (edge_at c i)) →
  get_vert c (seg R i) (holder R i) = Some (to (edge_at c i)) →
  Rep [] R (L ++ [i]) (gddEdgeLink i c).
Proof.
  intros H Hi Hlt Hsol Hvf Hvt.
  destruct (rep_vert_global _ _ _ _ _ _ H Hvf) as (Hgf & Hmf & Hlf).
  destruct (rep_vert_global _ _ _ _ _ _ H Hvt) as (Hgt & Hmt & Hlt').
  destruct (rep_top _ _ _ _ H) as [Hti Hto].
  rewrite link_view. cbv zeta. set (c' := MkGddCtx _ _ _ _ _ _ _ _).
  assert (length (vert_heap c') = length (vert_heap c) ∧ length (stat_heap c') = length (stat_heap c)) as [Hvl Hsl]
    by (unfold c'; simpl; by rewrite !length_alter).
  split; try apply H.
  - unfold c'. simpl. rewrite (rep_asserts _ _ _ _ H), Hgf, Hgt, Hti, Hto. simpl. by apply Z.eqb_eq.
  - apply NoDup_app. split; [apply H|]. split; [set_solver|apply NoDup_singleton].
  - unfold c'. simpl. rewrite length_app, Hti, Hto. simpl. lia.
  - intros j [Hj| ->%list_elem_of_singleton]%elem_of_app; [by apply H|done].
  - intros j [Hj| ->%list_elem_of_singleton]%elem_of_app; [by apply H|eauto].
  - intros s k v Hk. change (get_vert c s k = Some v) in Hk.
    destruct (rep_vert _ _ _ _ H s k v Hk) as (Hl & Hid & Hin & Hout). rewrite Hvl.
    assert (to (edge_at c i) = v ↔ seg R i = s ∧ holder R i = k) as Ht.
    { split; [intros <-; by apply (rep_vert_key _ _ _ _ _ _ _ _ _ H Hvt)|].
      intros [<- <-]. congruence. }
    assert (from (edge_at c i) = v ↔ seg R i = s ∧ waiter R i = k) as Hf.
    { split; [intros <-; by apply (rep_vert_key _ _ _ _ _ _ _ _ _ H Hvf)|].
      intros [<- <-]. congruence. }
    unfold vert_at, c', lin, lout. cbn [vert_heap]. rewrite !alter_total, length_alter, !filter_snoc.
    fold (lin R L s k) (lout R L s k) (vert_at c v). rewrite <- Hin, <- Hout.
    split; [done|].
    repeat case_decide; simpl; rewrite ?app_nil_r; tauto.
  - intros s k v Hk HX. destruct (rep_bound _ _ _ _ H s k v Hk HX) as (g & Hg & Hm). exists g.
    split; [|done]. unfold vert_at, c'. cbn [vert_heap]. rewrite !alter_total.
    by repeat case_decide.
  - intros k g Hk. change (gddMapGet (globals c) k = Some g) in Hk.
    destruct (rep_stat _ _ _ _ H k g Hk) as (Hl & Hid & Hin & Hout). rewrite Hsl.
    assert (vert_global c (to (edge_at c i)) = g ↔ holder R i = k) as Ht.
    { split; [intros <-; by apply (rep_stat_inj _ _ _ _ _ _ _ H Hmt)|intros <-; congruence]. }
    assert (vert_global c (from (edge_at c i)) = g ↔ waiter R i = k) as Hf.
    { split; [intros <-; by apply (rep_stat_inj _ _ _ _ _ _ _ H Hmf)|intros <-; congruence]. }
    unfold stat_at, c', gin, gout. cbn [stat_heap]. rewrite !alter_total, length_alter, !filter_snoc.
    fold (gin R L k) (gout R L k) (stat_at c g).
    rewrite !length_app, !Nat2Z.inj_add, <- Hin, <- Hout. split; [done|].
    repeat case_decide; simpl; split; [try tauto..]; split; try tauto; lia.
Qed.

(** [GddCtxAddEdge] adds the row and links its edge. *)
Lemma add_edge_rep R L c r :
  Rep [] R L c →
  Rep [] (R ++ [r]) (L ++ [length R])
    (GddCtxAddEdge (row_seg r) (row_waiter r) (row_holder r) (row_solid r) c).
Proof.
  intros H. unfold GddCtxAddEdge.
  pose proof (get_graph_spec [] R L c (row_seg r) H) as H1.
  destruct (gddCtxGetGraph (row_seg r) c) as [g c1]. destruct H1 as (H1 & Hg1 & _).
  unfold gddGraphMakeEdge.
  pose proof (get_vert_spec [] R L c1 _ g (row_waiter r) H1 Hg1) as H2.
  destruct (gddGraphGetVert g (row_waiter r) c1) as [vf c2]. destruct H2 as (H2 & Hg2 & Hvf & _).
  pose proof (get_vert_spec _ R L c2 _ g (row_holder r) H2 Hg2) as H3.
  destruct (gddGraphGetVert g (row_holder r) c2) as [vt c3].
  destruct H3 as (H3 & Hg3 & Hvt & (Hx3 & _)). apply Hx3 in Hvf.
  pose proof (edge_new_rep _ R L c3 vf vt r H3) as H4.
  destruct (gddEdgeNew vf vt (row_solid r) c3) as [i c4].
  destruct H4 as (-> & Hi & H4 & He4 & Hget4 & _). rewrite <- Hget4 in Hvf, Hvt.
  pose proof (get_stat_spec _ _ L c4 (row_waiter r) H4) as H5.
  destruct (gddCtxGetGlobalStat (row_waiter r) c4) as [gf c5].
  destruct H5 as (H5 & Hs5 & (Hx5 & _ & Hh5)). apply Hx5 in Hvf, Hvt.
  assert (edge_at c5 (length R) = MkGddEdge (row_solid r) vf vt) as He5 by (unfold edge_at; by rewrite Hh5).
  rewrite He5. cbn [from].
  assert (Rep [vt] (R ++ [r]) L (gddVertBindStats vf gf c5)) as H6.
  { eapply bind_rep; [exact H5|exact Hvf|exact Hs5|]. set_solver. }
  set (c6 := gddVertBindStats vf gf c5) in *. change (get_vert c6 (row_seg r) (row_waiter r) = Some vf) in Hvf.
  change (get_vert c6 (row_seg r) (row_holder r) = Some vt) in Hvt.
  pose proof (get_stat_spec _ _ L c6 (row_holder r) H6) as H7.
  destruct (gddCtxGetGlobalStat (row_holder r) c6) as [gt c7].
  destruct H7 as (H7 & Hs7 & (Hx7 & _ & Hh7)). apply Hx7 in Hvf, Hvt.
  assert (edge_at c7 (length R) = MkGddEdge (row_solid r) vf vt) as He7 by (unfold edge_at; by rewrite Hh7).
  rewrite He7. cbn [to].
  assert (Rep [] (R ++ [r]) L (gddVertBindStats vt gt c7)) as H8.
  { eapply bind_rep; [exact H7|exact Hvt|exact Hs7|]. set_solver. }
  assert ((R ++ [r]) !!! length R = r) as Er by (by rewrite app_total, decide_True).
  apply link_rep; [done|done|rewrite length_app; simpl; lia|..];
    unfold is_solid, seg, waiter, holder; rewrite Er;
    change (edge_at (gddVertBindStats vt gt c7) (length R)) with (edge_at c7 (length R));
    by rewrite He7.
Qed.

Lemma ctx_new_rep : Rep [] [] [] GddCtxNew.
Proof.
  split; try done; try (intros; set_solver); try apply map_init_ok. constructor.
Qed.

End AddEdge.

End GddSpec.
