(* ===== verification/GddProps.v ===== *)
(** Theorems about the global deadlock detector: the reduction and deadlock
    cycles, the victims, the wait relation and the whole check. *)

From Stdlib Require Import ZArith Lia.
From stdpp Require Import base list option numbers strings relations.
From S2P Require Import Prelude Gdd GddBackend GddSpec.
Import Gdd GddBackend GddSpec.

Module GddProps.

(** ** Removing a transaction *)

Section Remove.
Context (R : list WaitRow).

(** [i] waits for or is held by transaction [k]. *)
Definition touches (k : Z) (i : nat) : Prop := waiter R i = k ∨ holder R i = k.

Lemma graph_remove_scan c L s g vid fuel pos :
  Rep [] R L c → gddMapGet (graphs c) s = Some g →
  (length (pairs (verts (graph_at c g))) - pos ≤ fuel)%nat →
  (∀ j k v, (j < pos)%nat → pairs (verts (graph_at c g)) !! j = Some (k, v) → k ≠ vid) →
  let c' := gddGraphRemoveVid_scan g vid fuel (Z.of_nat pos) c in
  ∃ L', Rep [] R L' c' ∧ graphs c' = graphs c ∧ L' ⊆ L ∧
    (∀ i, i ∈ L → i ∉ L' → incident R s vid i) ∧ lin R L' s vid = [] ∧ lout R L' s vid = [].
Proof.
  intros H Hg. cbv zeta. revert pos. induction fuel as [|fuel IH]; intros pos Hf Hpos;
    cbn [gddGraphRemoveVid_scan].
  all: assert ((length (pairs (verts (graph_at c g))) ≤ pos)%nat →
    ∃ L', Rep [] R L' c ∧ graphs c = graphs c ∧ L' ⊆ L ∧
    (∀ i, i ∈ L → i ∉ L' → incident R s vid i) ∧ lin R L' s vid = [] ∧ lout R L' s vid = []) as Hend.
  1,3: intros Hge; exists L; repeat (split; [done || tauto|]);
    apply (rep_no_vert _ _ _ _ _ _ H); unfold get_vert; rewrite Hg;
    apply gddMapGet_None; intros [[k v] [Ek [j Hj]%list_elem_of_lookup]]%list_elem_of_fmap;
    apply (Hpos j k v); [apply lookup_lt_Some in Hj; lia|done|done].
  - apply Hend. lia.
  - destruct (Z.ltb_spec (Z.of_nat pos) (Z.of_nat (length (pairs (verts (graph_at c g)))))) as [Hlt|Hge];
      [|apply Hend; lia].
    destruct (lookup_lt_is_Some_2 (pairs (verts (graph_at c g))) pos ltac:(lia)) as [[k v] Hk].
    assert (map_ptr (verts (graph_at c g)) (Z.of_nat pos) = v) as ->.
    { unfold map_ptr. by rewrite Nat2Z.id, (list_lookup_total_correct _ _ _ Hk). }
    pose proof (rep_pair_get R _ _ _ _ _ _ _ _ H Hg Hk) as Hv.
    destruct (rep_vert _ _ _ _ H _ _ _ Hv) as (_ & -> & _).
    destruct (Z.eqb_spec k vid) as [->|Hne]; cbn [negb].
    + destruct (unlink_all_spec R c L s vid v H Hv) as (L' & (H' & Hsh & Hd) & Hin & Hout).
      destruct (gddVertUnlinkAll v c) as [d c']. cbn [fst snd] in *.
      pose proof Hsh as (_ & Egr & Egh & _).
      assert (graph_at c' g = graph_at c g) as Eg by (unfold graph_at; by rewrite Egh).
      assert (gddMapGet (graphs c') s = Some g) as Hg' by (by rewrite Egr).
      rewrite <- Eg in Hk.
      pose proof (delete_vert_rep R c' L' s g pos vid v H' Hg' Hk Hin Hout) as Hrep.
      unfold delete_vert in Hrep. destruct (gdd_map_iter_delete _ _) as [m p].
      exists L'. split; [done|]. split; [done|]. destruct Hd as (Hs & Hp & _). auto.
    + replace (Z.of_nat pos + 1) with (Z.of_nat (S pos)) by lia. apply IH; [lia|].
      intros j k' v' Hj Hjk. destruct (decide (j = pos)) as [->|].
      * rewrite Hk in Hjk. by injection Hjk as -> ->.
      * apply (Hpos j k' v'); [lia|done].
Qed.

Lemma remove_vid_spec c L vid :
  Rep [] R L c →
  ∃ L', Rep [] R L' (gddCtxRemoveVid vid c) ∧ ∀ i, i ∈ L' ↔ i ∈ L ∧ ¬ touches vid i.
Proof.
  intros H. unfold gddCtxRemoveVid.
  pose (I := λ (pos : nat) c', ∃ L', Rep [] R L' c' ∧ graphs c' = graphs c ∧ L' ⊆ L ∧
    (∀ i, i ∈ L → i ∉ L' → touches vid i) ∧
    (∀ i, i ∈ L' → seg R i ∈ (take pos (pairs (graphs c))).*1 → ¬ touches vid i)).
  destruct (map_foreach_rule I graphs
    (λ pos c, (pos, gddGraphRemoveVid (map_ptr (graphs c) pos) vid c)) c)
    as (p & (L' & H' & Egr & Hs & Hrem & Hin) & Hend).
  - intros pos c1 (L1 & H1 & Egr & Hs & Hrem & Hin) Hlt. cbv zeta. cbn [fst snd].
    rewrite Egr in Hlt. destruct (lookup_lt_is_Some_2 _ _ Hlt) as [[s g] Hp].
    assert (map_ptr (graphs c1) (Z.of_nat pos) = g) as ->.
    { rewrite Egr. unfold map_ptr. by rewrite Nat2Z.id, (list_lookup_total_correct _ _ _ Hp). }
    assert (gddMapGet (graphs c1) s = Some g) as Hg.
    { rewrite Egr. apply gddMapGet_elem; [apply H|]. by apply list_elem_of_lookup_2 in Hp. }
    unfold gddGraphRemoveVid.
    destruct (graph_remove_scan c1 L1 s g vid _ 0 H1 Hg (Nat.le_sub_l _ _)) as
      (L2 & H2 & Egr2 & Hs2 & Hrem2 & Hin2 & Hout2); [intros; lia|].
    change (Z.of_nat 0) with 0 in H2, Egr2.
    left. split; [done|]. split; [|by rewrite Egr2]. exists L2.
    split; [done|]. split; [by rewrite Egr2|]. split; [set_solver|]. split.
    + intros i Hi Hn. destruct (decide (i ∈ L1)) as [Hi1|]; [|by apply Hrem].
      destruct (Hrem2 i Hi1 Hn) as [_ [?|?]]; [by right|by left].
    + intros i Hi Hseg. rewrite (take_S_r _ _ _ Hp), fmap_app in Hseg.
      apply elem_of_app in Hseg as [Hseg|Hseg]; [apply Hin; [set_solver|done]|].
      apply list_elem_of_singleton in Hseg. simpl in Hseg. intros [Hw|Hh].
      * assert (i ∈ lout R L2 s vid) as Hx by (apply list_elem_of_filter; auto).
        rewrite Hout2 in Hx. set_solver.
      * assert (i ∈ lin R L2 s vid) as Hx by (apply list_elem_of_filter; auto).
        rewrite Hin2 in Hx. set_solver.
  - exists L. split; [done|]. split; [done|]. split; [done|]. split; [tauto|]. set_solver.
  - exists L'. split; [done|]. intros i. split.
    + intros Hi. split; [by apply Hs|]. apply Hin; [done|].
      destruct (rep_edge _ _ _ _ H' i Hi) as (_ & _ & Hw & _). apply get_vert_seg in Hw.
      rewrite Egr in Hw, Hend. by rewrite take_ge.
    + intros [Hi Hn]. destruct (decide (i ∈ L')) as [|Hi']; [done|]. destruct Hn. auto.
Qed.

(** A candidate for the greatest id; it covers vert [k] of segment [s]. *)
Definition max_ok (L : list nat) (m : Z) : Prop := 0 <= m ∧ (m = 0 ∨ ∃ i, i ∈ L ∧ touches m i).
Definition covers (L : list nat) (m s k : Z) : Prop :=
  (lin R L s k = [] ∧ lout R L s k = []) ∨ k <= m.

Lemma covers_mono L m m' s k : m <= m' → covers L m s k → covers L m' s k.
Proof. intros Hm [?|?]; [by left|right; lia]. Qed.

Lemma max_vid_vert_spec c L s g pos k v m :
  Rep [] R L c → gddMapGet (graphs c) s = Some g →
  pairs (verts (graph_at c g)) !! pos = Some (k, v) → max_ok L m →
  let m' := (max_vid_vert g c (Z.of_nat pos) m).2 in max_ok L m' ∧ m <= m' ∧ covers L m' s k.
Proof.
  intros H Hg Hk [H0 Ht]. unfold max_vid_vert. cbn [snd].
  assert (map_ptr (verts (graph_at c g)) (Z.of_nat pos) = v) as ->.
  { unfold map_ptr. by rewrite Nat2Z.id, (list_lookup_total_correct _ _ _ Hk). }
  pose proof (rep_pair_get R _ _ _ _ _ _ _ _ H Hg Hk) as Hv.
  destruct (rep_vert _ _ _ _ H _ _ _ Hv) as (_ & -> & Ein & Eout).
  unfold gddVertGetInDegree, gddVertGetOutDegree. rewrite Ein, Eout.
  assert (∀ i, i ∈ lin R L s k ∨ i ∈ lout R L s k → max_ok L (Z.max m k)) as Hmax.
  { intros i Hi. split; [lia|]. destruct (Z.max_spec m k) as [[_ ->]|[_ ->]]; [|done].
    right. exists i. destruct Hi as [[[_ ?] ?]%list_elem_of_filter|[[_ ?] ?]%list_elem_of_filter];
      split; unfold touches; auto. }
  unfold covers. destruct (lin R L s k) as [|i l]; [destruct (lout R L s k) as [|i l]|]; simpl.
  - split; [done|]. split; [lia|auto].
  - split; [apply (Hmax i); set_solver|]. split; [lia|right; lia].
  - split; [apply (Hmax i); set_solver|]. split; [lia|right; lia].
Qed.

Lemma max_vid_graph_spec c L s g pos m :
  Rep [] R L c → pairs (graphs c) !! pos = Some (s, g) → max_ok L m →
  let m' := (max_vid_graph c (Z.of_nat pos) m).2 in
  max_ok L m' ∧ m <= m' ∧ ∀ k v, get_vert c s k = Some v → covers L m' s k.
Proof.
  intros H Hp Hm. unfold max_vid_graph. cbn [snd].
  assert (map_ptr (graphs c) (Z.of_nat pos) = g) as ->.
  { unfold map_ptr. by rewrite Nat2Z.id, (list_lookup_total_correct _ _ _ Hp). }
  assert (gddMapGet (graphs c) s = Some g) as Hg.
  { apply gddMapGet_elem; [apply H|]. by apply list_elem_of_lookup_2 in Hp. }
  destruct (map_foreach_rule (λ (pos : nat) m', max_ok L m' ∧ m <= m' ∧
      ∀ j k v, (j < pos)%nat → pairs (verts (graph_at c g)) !! j = Some (k, v) → covers L m' s k)
    (λ _, verts (graph_at c g)) (max_vid_vert g c) m) as (q & (Hok & Hle & Hj) & Hend).
  - clear pos Hp. intros pos m1 (Hok1 & Hle & Hj) Hlt. left. split; [done|]. split; [|done].
    destruct (lookup_lt_is_Some_2 _ _ Hlt) as [[k v] Hk].
    destruct (max_vid_vert_spec c L s g pos k v m1 H Hg Hk Hok1) as (Hok2 & Hle2 & Hc).
    split; [done|]. split; [lia|]. intros j k' v' Hj' Hjk. destruct (decide (j = pos)) as [->|].
    + rewrite Hk in Hjk. by injection Hjk as -> ->.
    + apply (covers_mono L m1); [done|]. apply (Hj j k' v'); [lia|done].
  - split; [done|]. split; [done|]. intros; lia.
  - split; [done|]. split; [done|]. intros k v Hv. unfold get_vert in Hv. rewrite Hg in Hv.
    apply gddMapGet_elem in Hv; [|by apply (rep_graph _ _ _ _ H s g)].
    apply list_elem_of_lookup in Hv as [j Hj']. apply (Hj j k v); [|done].
    apply lookup_lt_Some in Hj'. lia.
Qed.

(** [gddCtxGetMaxVid] is the greatest id of a linked transaction, or 0. *)
Lemma max_vid_spec c L :
  Rep [] R L c →
  let m := gddCtxGetMaxVid c in
  max_ok L m ∧ ∀ i, i ∈ L → waiter R i <= m ∧ holder R i <= m.
Proof.
  intros H. unfold gddCtxGetMaxVid.
  destruct (map_foreach_rule (λ (pos : nat) m, max_ok L m ∧
      ∀ s k v, s ∈ (take pos (pairs (graphs c))).*1 → get_vert c s k = Some v → covers L m s k)
    (λ _, graphs c) (max_vid_graph c) 0) as (p & (Hok & Hb) & Hend).
  - intros pos m (Hok & Hb) Hlt. left. split; [done|]. split; [|done].
    destruct (lookup_lt_is_Some_2 _ _ Hlt) as [[s g] Hp].
    destruct (max_vid_graph_spec c L s g pos m H Hp Hok) as (Hok2 & Hle & Hc).
    split; [done|]. intros s' k v Hs' Hv. rewrite (take_S_r _ _ _ Hp), fmap_app in Hs'.
    apply elem_of_app in Hs' as [Hs'|Hs'%list_elem_of_singleton].
    + apply (covers_mono L m); [done|]. by apply (Hb s' k v).
    + simpl in Hs'. subst s'. by apply (Hc k v).
  - split; [split; [done|by left]|]. set_solver.
  - split; [done|]. intros i Hi. destruct (rep_edge _ _ _ _ H i Hi) as (_ & _ & Hw & Hh).
    assert (i ∈ lin R L (seg R i) (holder R i)) as Hin by (by apply list_elem_of_filter).
    assert (i ∈ lout R L (seg R i) (waiter R i)) as Hout by (by apply list_elem_of_filter).
    pose proof (get_vert_seg _ _ _ _ Hw) as Hs. rewrite <- (take_ge (pairs (graphs c)) p Hend) in Hs.
    split; [destruct (Hb _ _ _ Hs Hw) as [[_ E]|]|destruct (Hb _ _ _ Hs Hh) as [[E _]|]]; try done;
      [rewrite E in Hout|rewrite E in Hin]; set_solver.
Qed.

(** ** Breaking deadlocks *)

(** [L'] is what reducing [L] leaves: its greatest stuck subset. *)
Definition residue (L L' : list nat) : Prop :=
  L' ⊆ L ∧ stuck R L' ∧ ∀ S, stuck R S → S ⊆ L → S ⊆ L'.

(** The policy: while deadlocked edges are left, cancel the youngest of their
    transactions and reduce what does not involve it. *)
Inductive cancels : list nat → list Z → Prop :=
  | cancels_done : cancels [] []
  | cancels_next L m L1 L' vids :
      L ≠ [] → (∃ i, i ∈ L ∧ touches m i) →
      (∀ i, i ∈ L → waiter R i <= m ∧ holder R i <= m) →
      (∀ i, i ∈ L1 ↔ i ∈ L ∧ ¬ touches m i) →
      residue L1 L' → cancels L' vids → cancels L (m :: vids).

Lemma sub_length (L1 L : list nat) : NoDup L1 → L1 ⊆ L → (length L1 ≤ length L)%nat.
Proof. intros Hnd Hs. apply submseteq_length. by apply NoDup_submseteq. Qed.

Lemma sub_length_lt (L1 L : list nat) i :
  NoDup L1 → L1 ⊆ L → i ∈ L → i ∉ L1 → (length L1 < length L)%nat.
Proof.
  intros Hnd Hs Hi Hn. assert (NoDup (i :: L1)) by (by constructor).
  assert (length (i :: L1) ≤ length L)%nat by (apply sub_length; [done|set_solver]). simpl in *. lia.
Qed.

Lemma empty_spec c L : Rep [] R L c → GddCtxEmpty c = bool_decide (L = []).
Proof.
  intros H. unfold GddCtxEmpty. rewrite (proj1 (rep_top _ _ _ _ H)).
  destruct L; simpl; [done|]. by destruct (Z.eqb_spec (Z.of_nat (S (length L))) 0); [lia|].
Qed.

Lemma empty_assert_id c L : Rep [] R L c → GddCtxEmpty_assert c = c.
Proof.
  intros H. destruct (rep_top _ _ _ _ H) as [Hi Ho]. unfold GddCtxEmpty_assert.
  apply assert_id; [|apply H]. rewrite Hi, Ho. apply Z.eqb_refl.
Qed.

Lemma break_spec fuel rfuel c L vids :
  Rep [] R L c → (∀ i, i ∈ L → 0 <= waiter R i) →
  (length L < fuel)%nat → (length L < rfuel)%nat →
  ∃ vids' c', GddCtxBreakDeadLock fuel rfuel c vids = Some (vids ++ vids', c') ∧
    Rep [] R [] c' ∧ cancels L vids'.
Proof.
  revert c L vids. induction fuel as [|fuel IH]; intros c L vids H Hpos Hf Hrf; [lia|].
  cbn [GddCtxBreakDeadLock]. rewrite (empty_assert_id c L), (empty_spec c L) by done.
  case_bool_decide as HL.
  { subst L. exists [], c. rewrite app_nil_r. split; [done|]. split; [done|constructor]. }
  destruct (max_vid_spec c L H) as [[Hm0 Hm] Hmax]. set (m := gddCtxGetMaxVid c) in *.
  assert (∃ i, i ∈ L ∧ touches m i) as (i & Hi & Hti).
  { destruct Hm as [Hm|Hm]; [|done]. destruct L as [|i L]; [done|]. exists i.
    split; [set_solver|]. left. specialize (Hmax i ltac:(set_solver)).
    specialize (Hpos i ltac:(set_solver)). lia. }
  destruct (remove_vid_spec c L m H) as (L1 & H1 & HL1).
  pose proof (rep_nodup _ _ _ _ H1) as Hnd1.
  assert (length L1 < length L)%nat as Hlt.
  { apply (sub_length_lt _ _ i); [done|intros j Hj; by apply HL1|done|]. rewrite HL1. tauto. }
  destruct (reduce_spec R rfuel L1 _ H1 ltac:(lia)) as (c2 & L2 & -> & H2 & Hs2 & Hst2 & Hk2).
  cbn [mbind option_bind].
  pose proof (sub_length _ _ (rep_nodup _ _ _ _ H2) Hs2).
  destruct (IH c2 L2 (vids ++ [m]) H2) as (vids' & c' & -> & H' & Hc); [|lia..|].
  { intros j Hj. apply Hpos. by apply HL1, Hs2. }
  exists (m :: vids'), c'. rewrite <- app_assoc. split; [done|]. split; [done|].
  apply (cancels_next L m L1 L2); [done|by exists i|done|done|by split|done].
Qed.

(** Cancelling the victims leaves no stuck edges. *)
Lemma cancels_sound L vids S :
  cancels L vids → stuck R S → S ⊆ L →
  (∀ i k, i ∈ S → k ∈ vids → ¬ touches k i) → S = [].
Proof.
  induction 1 as [|L m L1 L' vids _ _ _ HL1 (_ & _ & Hres) _ IH]; intros HS Hsub Hv.
  - destruct S as [|i S]; [done|]. specialize (Hsub i). set_solver.
  - apply IH; [done| |intros i k Hi Hk; apply Hv; set_solver].
    apply Hres; [done|]. intros i Hi. apply HL1. split; [by apply Hsub|]. apply Hv; set_solver.
Qed.

(** Every victim takes part in a deadlock that the earlier victims leave. *)
Lemma cancels_justified L vids m pre post :
  cancels L vids → stuck R L → vids = pre ++ m :: post →
  ∃ S, stuck R S ∧ S ⊆ L ∧ (∃ i, i ∈ S ∧ touches m i) ∧
    (∀ i k, i ∈ S → k ∈ pre → ¬ touches k i) ∧
    (∀ i, i ∈ S → waiter R i <= m ∧ holder R i <= m).
Proof.
  intros Hc. revert pre. induction Hc as [|L m' L1 L' vids HL Hm Hmax HL1 (Hs & Hst & _) _ IH];
    intros pre HS E; [by destruct pre|].
  destruct pre as [|m0 pre]; simplify_eq/=.
  - exists L. split; [done|]. split; [done|]. split; [done|]. split; [|done]. set_solver.
  - destruct (IH pre Hst eq_refl) as (S & HSS & Hsub & Ht & Hav & Hmx).
    exists S. split; [done|]. split; [intros i Hi; by apply HL1, Hs, Hsub|]. split; [done|].
    split; [|done]. intros i k Hi Hk. apply elem_of_cons in Hk as [->|Hk]; [|by apply Hav].
    by apply HL1, Hs, Hsub.
Qed.

Lemma stuck_ext L L' : (∀ i, i ∈ L' ↔ i ∈ L) → stuck R L → stuck R L'.
Proof.
  intros E HS i Hi Hr. apply E in Hi. apply (HS i Hi). apply (removable_sub R L L'); [|done].
  intros j Hj. by apply E.
Qed.

(** With negative ids only, [maxvid] stays 0 and nothing is ever removed. *)
Lemma break_diverges fuel rfuel c L vids :
  Rep [] R L c → stuck R L → L ≠ [] → (∀ i, i ∈ L → waiter R i < 0 ∧ holder R i < 0) →
  GddCtxBreakDeadLock fuel rfuel c vids = None.
Proof.
  revert c L vids. induction fuel as [|fuel IH]; intros c L vids H HS HL Hneg; [done|].
  cbn [GddCtxBreakDeadLock]. rewrite (empty_assert_id c L), (empty_spec c L) by done.
  rewrite bool_decide_eq_false_2 by done.
  destruct (max_vid_spec c L H) as [[Hm0 Hm] _]. set (m := gddCtxGetMaxVid c) in *.
  assert (∀ i, i ∈ L → ¬ touches m i) as Hnt.
  { intros i Hi [E|E]; specialize (Hneg i Hi); lia. }
  destruct (remove_vid_spec c L m H) as (L1 & H1 & HL1).
  assert (∀ i, i ∈ L1 ↔ i ∈ L) as E1 by (intros i; rewrite HL1; naive_solver).
  destruct (GddCtxReduce rfuel (gddCtxRemoveVid m c)) as [c2|] eqn:E2; [|done].
  cbn [mbind option_bind].
  destruct (reduce_spec R (S (length L1)) L1 _ H1 ltac:(lia)) as (c2' & L2 & Er & H2 & Hs2 & Hst2 & Hk2).
  assert (c2' = c2) as ->.
  { assert (∀ n m c x y, GddCtxReduce n c = Some x → GddCtxReduce m c = Some y → x = y) as Hdet.
    { clear. induction n as [|n IHn]; intros [|m] c x y; cbn [GddCtxReduce]; try done.
      destruct (reduce_round c) as [[] c1]; [apply IHn|congruence]. }
    by apply (Hdet _ _ _ _ _ Er E2). }
  assert (L1 ⊆ L2) as Hsup by (apply Hk2; [by apply (stuck_ext L)|done]).
  apply (IH c2 L2); [done|done| |].
  - destruct L as [|i L]; [done|]. intros ->. assert (i ∈ L1) as Hi by (apply E1; set_solver).
    apply Hsup in Hi. set_solver.
  - intros i Hi. by apply Hneg, E1, Hs2.
Qed.

End Remove.

(** ** Deadlock cycles *)

#[export] Instance WaitRow_eq_dec : EqDecision WaitRow.
Proof. solve_decision. Defined.

(** A row [r] keeps its waiter waiting as long as some row [r'] keeps its holder
    waiting: anywhere when [r] is solid (the lock is held to the end of the
    transaction), on the same segment when [r] is dotted. *)
Definition blocked_by (R : list WaitRow) (r r' : WaitRow) : Prop :=
  r ∈ R ∧ r' ∈ R ∧ row_waiter r' = row_holder r ∧
  (row_solid r = true ∨ row_seg r' = row_seg r).

(** A deadlock: a cycle of rows. *)
Definition deadlock (R : list WaitRow) : Prop := ∃ r, tc (blocked_by R) r r.

(** A relation total on a finite nonempty list has a cycle. *)
Lemma finite_cycle {A} `{!EqDecision A} (rel : A → A → Prop) (l : list A) (x : A) :
  x ∈ l → (∀ y, y ∈ l → ∃ z, z ∈ l ∧ rel y z) → ∃ y, y ∈ l ∧ tc rel y y.
Proof.
  intros Hx Hsucc.
  assert (∀ n y w, (length l - length (y :: w) < n)%nat → NoDup (y :: w) → y :: w ⊆ l →
    (∀ b, b ∈ w → tc rel b y) → ∃ y, y ∈ l ∧ tc rel y y) as Hwalk.
  { induction n as [|n IH]; intros y w Hn Hnd Hs Hw; [lia|].
    destruct (Hsucc y ltac:(set_solver)) as (z & Hz & Hyz).
    destruct (decide (z ∈ y :: w)) as [[->|Hzw]%elem_of_cons|Hnz].
    - exists y. split; [done|by apply tc_once].
    - exists z. split; [done|]. eapply tc_r; eauto.
    - apply (IH z (y :: w)); [|by constructor|set_solver|].
      + assert (length (z :: y :: w) ≤ length l)%nat.
        { apply submseteq_length, NoDup_submseteq; [by constructor|set_solver]. }
        simpl in *. lia.
      + intros b [->|Hb]%elem_of_cons; [by apply tc_once|]. eapply tc_r; eauto. }
  apply (Hwalk (S (length l)) x []); [simpl; lia|apply NoDup_singleton|set_solver|set_solver].
Qed.

(** The rows on a cycle: each has a successor and a predecessor among them. *)
Lemma tc_cycle {A} (rel : A → A → Prop) x :
  tc rel x x →
  ∃ C : list A, x ∈ C ∧ (∀ y, y ∈ C → ∃ z, z ∈ C ∧ rel y z) ∧ (∀ y, y ∈ C → ∃ z, z ∈ C ∧ rel z y).
Proof.
  assert (∀ x y, tc rel x y → ∃ l : list A,
    (∀ r, r ∈ x :: l → ∃ r', r' ∈ l ++ [y] ∧ rel r r') ∧
    (∀ r, r ∈ l ++ [y] → ∃ r', r' ∈ x :: l ∧ rel r' r)) as Hpath.
  { clear x. induction 1 as [x y Hxy|x z y Hxz _ (l & Hs & Hp)].
    - exists []. split; set_solver.
    - exists (z :: l). split; simpl.
      + intros r [->|Hr]%elem_of_cons; [exists z; set_solver|].
        destruct (Hs r Hr) as (r' & Hr' & ?). exists r'. set_solver.
      + intros r [->|Hr]%elem_of_cons; [exists x; set_solver|].
        destruct (Hp r Hr) as (r' & Hr' & ?). exists r'. set_solver. }
  intros (l & Hs & Hp)%Hpath. exists (x :: l). split; [set_solver|]. split; intros y Hy.
  - destruct (Hs y Hy) as (z & Hz & ?). exists z. set_solver.
  - destruct (Hp y) as (z & Hz & ?); [set_solver|]. exists z. set_solver.
Qed.

Lemma filter_inhabited (P : nat → Prop) `{!∀ j, Decision (P j)} (L : list nat) i :
  i ∈ L → P i → filter P L ≠ [].
Proof.
  intros Hi HP E. assert (i ∈ filter P L) as Hx by (by apply list_elem_of_filter).
  rewrite E in Hx. set_solver.
Qed.

Lemma filter_witness (P : nat → Prop) `{!∀ j, Decision (P j)} (L : list nat) :
  filter P L ≠ [] → ∃ i, i ∈ L ∧ P i.
Proof.
  destruct (filter P L) as [|i l] eqn:E; [done|]. intros _. exists i.
  assert (i ∈ filter P L) as Hx by (rewrite E; set_solver).
  apply list_elem_of_filter in Hx. tauto.
Qed.

Lemma row_in (R : list WaitRow) i : (i < length R)%nat → R !!! i ∈ R.
Proof.
  intros Hi. destruct (lookup_lt_is_Some_2 R i Hi) as [r Hr].
  rewrite (list_lookup_total_correct _ _ _ Hr). by apply list_elem_of_lookup_2 in Hr.
Qed.

(** A stuck set of edges contains a cycle of its rows. *)
Lemma stuck_cycle R R' S i :
  stuck R S → (∀ j, j ∈ S → R !!! j ∈ R') → i ∈ S → deadlock R'.
Proof.
  intros HS HR Hi.
  destruct (finite_cycle (λ j j', blocked_by R' (R !!! j) (R !!! j')) S i Hi) as (j & Hj & Hc).
  - intros j Hj. specialize (HS j Hj). unfold removable in HS.
    assert (∃ j', j' ∈ S ∧ waiter R j' = holder R j ∧ (is_solid R j = true ∨ seg R j' = seg R j))
      as (j' & Hj' & Hw & Hs).
    { destruct (is_solid R j) eqn:Es.
      - destruct (filter_witness (λ k, waiter R k = holder R j) S) as (j' & ? & ?); [tauto|]. eauto.
      - destruct (filter_witness (λ k, seg R k = seg R j ∧ waiter R k = holder R j) S)
          as (j' & ? & ?); [unfold lout in HS; tauto|]. exists j'. tauto. }
    exists j'. split; [done|]. split; [auto|]. split; auto.
  - exists (R !!! j).
    assert (∀ a b, tc (λ j j', blocked_by R' (R !!! j) (R !!! j')) a b →
      tc (blocked_by R') (R !!! a) (R !!! b)) as Hmap; [|by apply Hmap].
    induction 1 as [a b Hab|a b b' Hab _ IH]; [by apply tc_once|]. by eapply tc_l.
Qed.

(** The edges of a cycle are a stuck set. *)
Lemma cycle_stuck R R' :
  deadlock R' → R' ⊆ R →
  ∃ S i, stuck R S ∧ i ∈ S ∧ ∀ j, j ∈ S → (j < length R)%nat ∧ R !!! j ∈ R'.
Proof.
  intros (r & (C & Hr & Hsucc & Hpred)%tc_cycle) HR.
  pose (S := filter (λ i, R !!! i ∈ C) (seq 0 (length R))).
  assert (∀ i, i ∈ S ↔ (i < length R)%nat ∧ R !!! i ∈ C) as HS.
  { intros i. unfold S. rewrite list_elem_of_filter, elem_of_seq. split; intros [??]; split; auto; lia. }
  assert (∀ r, r ∈ C → r ∈ R') as HC by (intros r' Hr'; by destruct (Hsucc _ Hr') as (? & _ & (? & _))).
  assert (∀ r, r ∈ C → ∃ i, i ∈ S ∧ R !!! i = r) as Hidx.
  { intros r' Hr'. pose proof (HR _ (HC _ Hr')) as [i Hi]%list_elem_of_lookup. exists i.
    pose proof (list_lookup_total_correct _ _ _ Hi) as E. split; [|done].
    apply HS. rewrite E. split; [by apply lookup_lt_Some in Hi|done]. }
  destruct (Hidx r Hr) as (i0 & Hi0 & _). exists S, i0. split; [|split; [done|]].
  - intros i Hi. pose proof Hi as [Hil HiC]%HS.
    destruct (Hsucc _ HiC) as (r1 & Hr1 & (_ & Hr1R & Hw1 & Hs1)).
    destruct (Hpred _ HiC) as (r0 & Hr0 & (Hr0R & _ & Hw0 & _)).
    destruct (Hidx r1 Hr1) as (j1 & Hj1 & E1). destruct (Hidx r0 Hr0) as (j0 & Hj0 & E0).
    intros [E|[E|[E1' E]]].
    + eapply filter_inhabited; [exact Hj1| |exact E]. unfold waiter. by rewrite E1.
    + eapply filter_inhabited; [exact Hj0| |exact E]. unfold holder. by rewrite E0.
    + eapply filter_inhabited; [exact Hj1| |exact E]. unfold seg, waiter, is_solid in *.
      rewrite E1. destruct Hs1 as [Hs1|Hs1]; [congruence|done].
  - intros j [Hj HjC]%HS. auto.
Qed.

(** ** The detector on the rows of a wait graph *)

Definition add_row (c : GddCtx) (r : WaitRow) : GddCtx :=
  GddCtxAddEdge (row_seg r) (row_waiter r) (row_holder r) (row_solid r) c.
Definition build (rows : list WaitRow) : GddCtx := fold_left add_row rows GddCtxNew.

Lemma build_rep rows : Rep [] rows (seq 0 (length rows)) (build rows).
Proof.
  unfold build. assert (∀ R c, Rep [] R (seq 0 (length R)) c →
    Rep [] (R ++ rows) (seq 0 (length (R ++ rows))) (fold_left add_row rows c)) as Hgen;
    [|by apply (Hgen []), ctx_new_rep].
  induction rows as [|r rows IH]; intros R c H; [by rewrite app_nil_r|]. simpl.
  rewrite (cons_middle r R rows), app_assoc. apply IH. rewrite length_app, seq_app.
  by apply add_edge_rep.
Qed.

(** The rows that involve none of [vids]. *)
Definition spared (vids : list Z) (rows : list WaitRow) : list WaitRow :=
  filter (λ r, (row_waiter r ∉ vids) ∧ (row_holder r ∉ vids)) rows.

Lemma spared_nil rows : spared [] rows = rows.
Proof. unfold spared. induction rows; [done|]. rewrite filter_cons_True by set_solver. by f_equal. Qed.

(** What the reduction leaves of a set of rows tells whether they deadlock. *)
Lemma residue_deadlock rows L :
  residue rows (seq 0 (length rows)) L → (L = [] ↔ ¬ deadlock rows).
Proof.
  intros (Hs & Hst & Hmax). split.
  - intros -> Hd. destruct (cycle_stuck rows rows Hd) as (S & i & HS & Hi & Hlt); [done|].
    assert (S ⊆ []) as Hn by (apply Hmax; [done|]; intros j [??]%Hlt; apply elem_of_seq; lia).
    specialize (Hn i Hi). set_solver.
  - intros Hd. destruct L as [|i L]; [done|]. destruct Hd.
    apply (stuck_cycle rows rows (i :: L) i); [done| |set_solver].
    intros j [??]%Hs%elem_of_seq. by apply row_in.
Qed.

Lemma reduce_rows rows fuel :
  (length rows < fuel)%nat →
  ∃ c L, GddCtxReduce fuel (build rows) = Some c ∧ Rep [] rows L c ∧
    residue rows (seq 0 (length rows)) L.
Proof.
  intros Hf. destruct (reduce_spec rows fuel _ _ (build_rep rows)) as (c & L & ? & ? & ? & ? & ?);
    [by rewrite length_seq|]. exists c, L.
  split; [done|]. split; [done|]. split; [done|]. by split.
Qed.

Lemma touches_spared rows (vids : list Z) j :
  (∀ k, k ∈ vids → ¬ touches rows k j) ↔
  (row_waiter (rows !!! j) ∉ vids) ∧ (row_holder (rows !!! j) ∉ vids).
Proof. unfold touches, waiter, holder. naive_solver. Qed.

Lemma cancels_spared rows L vids :
  residue rows (seq 0 (length rows)) L → cancels rows L vids → ¬ deadlock (spared vids rows).
Proof.
  intros (_ & _ & Hmax) Hc Hd.
  destruct (cycle_stuck rows (spared vids rows) Hd) as (S & i & HS & Hi & Hj).
  { intros r. unfold spared. rewrite list_elem_of_filter. tauto. }
  assert (S = []) as ->; [|set_solver]. apply (cancels_sound rows L vids S Hc HS).
  - apply Hmax; [done|]. intros j [??]%Hj. apply elem_of_seq. lia.
  - intros j k Hjs. revert k. apply touches_spared.
    by destruct (Hj j Hjs) as [_ [? _]%list_elem_of_filter].
Qed.

Lemma cancels_needed rows L vids pre m post :
  residue rows (seq 0 (length rows)) L → cancels rows L vids → vids = pre ++ m :: post →
  deadlock (spared pre rows) ∧ (m ∉ pre) ∧
  ∃ r, r ∈ spared pre rows ∧ (row_waiter r = m ∨ row_holder r = m).
Proof.
  intros (Hs & Hst & _) Hc E.
  destruct (cancels_justified rows L vids m pre post Hc Hst E) as (S & HS & Hsub & (i & Hi & Ht) & Hav & _).
  assert (∀ j, j ∈ S → rows !!! j ∈ spared pre rows) as Hin.
  { intros j Hj. apply list_elem_of_filter. split; [apply touches_spared; auto|].
    apply row_in. specialize (Hsub j Hj). apply Hs, elem_of_seq in Hsub. lia. }
  split; [by apply (stuck_cycle rows _ S i)|]. split; [intros Hm; by apply (Hav i m)|].
  exists (rows !!! i). auto.
Qed.

(** C26: the invariant of the detector (degrees of all stats, adjacency lists,
    one vert per id and segment, maps within their capacity, every [Assert] so
    far true) holds for a new context and is preserved by adding an edge, by a
    round of the reduction and by removing a transaction. *)
Theorem gdd_invariant :
  Rep [] [] [] GddCtxNew ∧
  ∀ R L c, Rep [] R L c →
    (∀ r, Rep [] (R ++ [r]) (L ++ [length R]) (add_row c r)) ∧
    (∃ L', Rep [] R L' (reduce_round c).2 ∧ L' ⊆ L) ∧
    (∀ vid, ∃ L', Rep [] R L' (gddCtxRemoveVid vid c) ∧ ∀ i, i ∈ L' ↔ i ∈ L ∧ ¬ touches R vid i).
Proof.
  split; [apply ctx_new_rep|]. intros R L c H. split; [|split].
  - intros r. by apply add_edge_rep.
  - destruct (reduce_round_spec R L c H) as (L' & H' & (Hs & _) & _). by exists L'.
  - intros vid. by apply remove_vid_spec.
Qed.

(** C1: the reduction of a wait graph ends within one round more than it has
    edges, fails no [Assert], and leaves no edge exactly when the rows have no
    deadlock cycle. *)
Theorem gdd_reduce_deadlock rows fuel :
  (length rows < fuel)%nat →
  ∃ c, GddCtxReduce fuel (build rows) = Some c ∧ asserts c = true ∧
    (GddCtxEmpty c = true ↔ ¬ deadlock rows).
Proof.
  intros Hf. destruct (reduce_rows rows fuel Hf) as (c & L & E & H & Hr). exists c.
  split; [done|]. split; [apply H|]. rewrite (empty_spec rows c L H), bool_decide_eq_true.
  by apply residue_deadlock.
Qed.

(** C25: the edges linked after the reduction are the greatest set of edges of
    which none may be removed: the order of the visits does not matter. *)
Theorem gdd_reduce_greatest rows fuel c :
  (length rows < fuel)%nat → GddCtxReduce fuel (build rows) = Some c →
  ∃ L, Rep [] rows L c ∧ L ⊆ seq 0 (length rows) ∧ stuck rows L ∧
    ∀ S, stuck rows S → S ⊆ seq 0 (length rows) → S ⊆ L.
Proof.
  intros Hf E. destruct (reduce_rows rows fuel Hf) as (c' & L & E' & H & (Hs & Hst & Hmax)).
  rewrite E in E'. injection E' as <-. by exists L.
Qed.

(** C8: breaking deadlocks ends when the ids are nonnegative ints and leaves an
    empty graph; the rows that involve no victim have no deadlock; each victim
    is cancelled once, takes part in a row, and is only cancelled when the
    victims before it leave a deadlock. *)
Theorem gdd_break_deadlock rows fuel :
  Forall (λ r, 0 <= row_waiter r) rows → (length rows < fuel)%nat →
  ∃ c vids c', GddCtxReduce fuel (build rows) = Some c ∧
    GddCtxBreakDeadLock fuel fuel c [] = Some (vids, c') ∧
    GddCtxEmpty c' = true ∧ asserts c' = true ∧
    ¬ deadlock (spared vids rows) ∧
    ∀ pre m post, vids = pre ++ m :: post →
      deadlock (spared pre rows) ∧ (m ∉ pre) ∧
      ∃ r, r ∈ spared pre rows ∧ (row_waiter r = m ∨ row_holder r = m).
Proof.
  intros Hpos Hf. destruct (reduce_rows rows fuel Hf) as (c & L & E & H & Hr).
  pose proof Hr as (Hs & _).
  pose proof (sub_length L _ (rep_nodup _ _ _ _ H) Hs) as Hlen. rewrite length_seq in Hlen.
  destruct (break_spec rows fuel fuel c L [] H) as (vids & c' & Eb & H' & Hc); [|lia..|].
  { intros i Hi. apply Hs, elem_of_seq in Hi. rewrite Forall_forall in Hpos.
    apply Hpos, row_in. lia. }
  exists c, vids, c'. split; [done|]. split; [done|].
  split; [by rewrite (empty_spec rows c' [] H')|]. split; [apply H'|].
  split; [by apply (cancels_spared rows L)|]. intros pre m post. by apply (cancels_needed rows L).
Qed.

(** C28: [gddCtxGetMaxVid] starts from 0: when the transactions of a deadlock all
    have a distributed xid above the int range, whose ids are negative, the
    victim is the absent id 0 again and again and [GddCtxBreakDeadLock] never
    ends. *)
Theorem gdd_break_never_ends rows fuel rfuel bfuel c :
  Forall (λ r, row_waiter r < 0 ∧ row_holder r < 0) rows → deadlock rows →
  (length rows < rfuel)%nat → GddCtxReduce rfuel (build rows) = Some c →
  GddCtxBreakDeadLock fuel bfuel c [] = None.
Proof.
  intros Hneg Hd Hf E. destruct (reduce_rows rows rfuel Hf) as (c' & L & E' & H & Hr).
  rewrite E in E'. injection E' as <-. pose proof Hr as (Hs & Hst & _).
  apply (break_diverges rows fuel bfuel c L); [done|done| |].
  - intros ->. by apply residue_deadlock in Hr as [Hr _]; apply Hr.
  - intros i Hi. apply Hs, elem_of_seq in Hi. rewrite Forall_forall in Hneg.
    apply Hneg, row_in. lia.
Qed.

(** ** The wait relation *)

Section WaitRelation.
Context (dispatch : bool) (Gp_segment : Z) (lockData : list LockElem) (pg_results : list PgResult).
Let n := length lockData.
Let m := length pg_results.

(** The nested loop that the comment of [pg_dist_wait_status] gives. *)
Definition waits_for (waiter holder : nat) : bool :=
  negb (isGranted (lockData !!! waiter)) && is_relation lockData waiter holder.
Definition waiter_rows (w h : nat) : list WaitRow :=
  relation_row dispatch Gp_segment lockData w <$> filter (λ i, waits_for w i = true) (seq h (n - h)).
Definition local_rows (w : nat) : list WaitRow :=
  mjoin ((λ w, waiter_rows w 0) <$> seq w (n - w)).
Definition seg_rows (s r : nat) : list WaitRow :=
  remote_row pg_results s <$> seq r (length (tuples (pg_results !!! s)) - r).
Definition remote_rows (s : nat) : list WaitRow :=
  mjoin ((λ s, seg_rows s 0) <$> seq s (m - s)).

(** What is still to return. *)
Definition local_rest (w h : nat) : list WaitRow :=
  if (w <? n)%nat then waiter_rows w h ++ local_rows (S w) else [].
Definition remote_rest (s r : nat) : list WaitRow :=
  if (s <? m)%nat then seg_rows s r ++ remote_rows (S s) else [].
Definition rest (ctx : WaitStatusCtx) : list WaitRow :=
  local_rest (ws_waiter ctx) (ws_holder ctx) ++
  (if dispatch then remote_rest (ws_seg ctx) (ws_row ctx) else []).

Lemma seq_step a b : (a < b)%nat → seq a (b - a) = a :: seq (S a) (b - S a).
Proof. intros H. by replace (b - a)%nat with (S (b - S a)) by lia. Qed.

Lemma local_rest_zero w : local_rest w 0 = local_rows w.
Proof.
  unfold local_rest, local_rows. destruct (Nat.ltb_spec w n).
  - by rewrite (seq_step w n).
  - by replace (n - w)%nat with 0%nat by lia.
Qed.

Lemma remote_rest_zero s : remote_rest s 0 = remote_rows s.
Proof.
  unfold remote_rest, remote_rows. destruct (Nat.ltb_spec s m).
  - by rewrite (seq_step s m).
  - by replace (m - s)%nat with 0%nat by lia.
Qed.

Lemma holder_loop_spec fuel w h :
  (n - h ≤ fuel)%nat → isGranted (lockData !!! w) = false →
  match holder_loop dispatch Gp_segment lockData fuel w h with
  | (Some r, h') => waiter_rows w h = r :: waiter_rows w h'
  | (None, _) => waiter_rows w h = []
  end.
Proof.
  intros Hf Hg. revert h Hf. induction fuel as [|fuel IH]; intros h Hf; cbn [holder_loop].
  all: unfold waiter_rows in *.
  - by replace (n - h)%nat with 0%nat by lia.
  - fold n. destruct (Nat.ltb_spec h n); [|by replace (n - h)%nat with 0%nat by lia].
    rewrite (seq_step h n) by done. unfold waits_for in *. rewrite Hg in *. cbn [negb andb] in *.
    destruct (is_relation lockData w h) eqn:E.
    + by rewrite filter_cons_True.
    + rewrite filter_cons_False by (by rewrite E). apply IH. lia.
Qed.

Lemma granted_rows w h : isGranted (lockData !!! w) = true → waiter_rows w h = [].
Proof.
  intros Hg. unfold waiter_rows. rewrite filter_none; [done|].
  intros x _. unfold waits_for. by rewrite Hg.
Qed.

Lemma waiter_loop_spec fuel ctx :
  (n - ws_waiter ctx < fuel)%nat →
  match waiter_loop dispatch Gp_segment lockData fuel ctx with
  | (Some r, ctx') =>
      local_rest (ws_waiter ctx) (ws_holder ctx) = r :: local_rest (ws_waiter ctx') (ws_holder ctx') ∧
      ws_seg ctx' = ws_seg ctx ∧ ws_row ctx' = ws_row ctx
  | (None, ctx') =>
      local_rest (ws_waiter ctx) (ws_holder ctx) = [] ∧
      local_rest (ws_waiter ctx') (ws_holder ctx') = [] ∧
      ws_seg ctx' = ws_seg ctx ∧ ws_row ctx' = ws_row ctx
  end.
Proof.
  revert ctx. induction fuel as [|fuel IH]; intros [w h s r] Hf; [lia|]. cbn [waiter_loop].
  cbn [ws_waiter ws_holder ws_seg ws_row] in *. fold n. unfold local_rest at 1 3.
  destruct (Nat.ltb_spec w n) as [Hlt|Hge]; [|cbn; unfold local_rest;
    by destruct (Nat.ltb_spec w n); [lia|]].
  assert (local_rest w h = waiter_rows w h ++ local_rows (S w)) as El.
  { unfold local_rest. by destruct (Nat.ltb_spec w n); [|lia]. }
  pose proof (IH (MkWaitStatusCtx (S w) 0 s r)) as Hnext. cbn [ws_waiter ws_holder ws_seg ws_row] in Hnext.
  rewrite local_rest_zero in Hnext. specialize (Hnext ltac:(lia)).
  destruct (isGranted (lockData !!! w)) eqn:Eg; [by rewrite granted_rows|].
  pose proof (holder_loop_spec n w h ltac:(lia) Eg) as Hh.
  destruct (holder_loop dispatch Gp_segment lockData n w h) as [[r'|] h']; rewrite Hh; [|done].
  cbn [ws_waiter ws_holder ws_seg ws_row]. split; [|done].
  unfold local_rest. destruct (Nat.ltb_spec w n); [done|lia].
Qed.

Lemma seg_loop_spec fuel ctx :
  (m - ws_seg ctx < fuel)%nat →
  match seg_loop pg_results fuel ctx with
  | (Some r, ctx') =>
      remote_rest (ws_seg ctx) (ws_row ctx) = r :: remote_rest (ws_seg ctx') (ws_row ctx') ∧
      ws_waiter ctx' = ws_waiter ctx ∧ ws_holder ctx' = ws_holder ctx
  | (None, _) => remote_rest (ws_seg ctx) (ws_row ctx) = []
  end.
Proof.
  revert ctx. induction fuel as [|fuel IH]; intros [w h s r] Hf; [lia|]. cbn [seg_loop].
  cbn [ws_waiter ws_holder ws_seg ws_row] in *. fold m. unfold remote_rest at 1 3.
  destruct (Nat.ltb_spec s m) as [Hlt|Hge]; [|done].
  set (len := length (tuples (pg_results !!! s))).
  destruct (Nat.ltb_spec r len) as [Hr|Hr].
  - cbn [ws_waiter ws_holder ws_seg ws_row]. split; [|done].
    unfold remote_rest. destruct (Nat.ltb_spec s m); [|lia]. unfold seg_rows. fold len.
    by rewrite (seq_step r len).
  - assert (seg_rows s r = []) as ->.
    { unfold seg_rows. fold len. by replace (len - r)%nat with 0%nat by lia. }
    pose proof (IH (MkWaitStatusCtx w h (S s) 0)) as Hnext.
    cbn [ws_waiter ws_holder ws_seg ws_row] in Hnext. rewrite remote_rest_zero in Hnext.
    specialize (Hnext ltac:(lia)). destruct (seg_loop _ _ _) as [[r'|] ctx']; done.
Qed.

Lemma wait_status_step ctx :
  match pg_dist_wait_status dispatch Gp_segment lockData pg_results ctx with
  | (Some r, ctx') => rest ctx = r :: rest ctx'
  | (None, _) => rest ctx = []
  end.
Proof.
  unfold pg_dist_wait_status, rest. fold n m.
  pose proof (waiter_loop_spec (S n) ctx ltac:(lia)) as Hw.
  destruct (waiter_loop _ _ _ _ ctx) as [[r|] ctx'].
  - destruct Hw as (-> & -> & ->). done.
  - destruct Hw as (-> & El & Es & Er). destruct dispatch; [|done].
    pose proof (seg_loop_spec (S m) ctx' ltac:(lia)) as Hs. rewrite <- Es, <- Er.
    destruct (seg_loop pg_results (S m) ctx') as [[r|] ctx'']; [|done].
    destruct Hs as (-> & -> & ->). by rewrite El.
Qed.

Lemma wait_status_rest fuel ctx :
  (length (rest ctx) < fuel)%nat →
  wait_status_rows dispatch Gp_segment lockData pg_results fuel ctx = Some (rest ctx).
Proof.
  revert ctx. induction fuel as [|fuel IH]; intros ctx Hf; [lia|]. cbn [wait_status_rows].
  pose proof (wait_status_step ctx) as Hs.
  destruct (pg_dist_wait_status _ _ _ _ ctx) as [[r|] ctx']; [|by rewrite Hs].
  rewrite Hs in Hf |- *. simpl in Hf. rewrite IH by lia. done.
Qed.

Lemma waits_for_spec w h :
  waits_for w h = true ↔
  isGranted (lockData !!! w) = false ∧ isGranted (lockData !!! h) = true ∧
  pid (lockData !!! w) ≠ pid (lockData !!! h) ∧ tag (lockData !!! w) = tag (lockData !!! h).
Proof.
  unfold waits_for, is_relation, lockEqual.
  destruct (Nat.eqb_spec h w) as [->|Hne]; [rewrite andb_false_r; split; naive_solver|].
  destruct (isGranted (lockData !!! w)), (isGranted (lockData !!! h)); simpl;
    try (split; [discriminate|intuition congruence]).
  destruct (Z.eqb_spec (pid (lockData !!! w)) (pid (lockData !!! h))); [naive_solver|].
  rewrite bool_decide_eq_true. naive_solver.
Qed.

End WaitRelation.

(** the function that returns one row per call, called until it is done,
    returns the rows of the nested loop over waiters and holders (a waiter not
    granted, a holder granted, different pids, equal tags) and then, on the
    dispatcher, the rows of the segments in order; each exactly once. *)
Theorem wait_status_nested_loop dispatch segment locks results fuel :
  let local w h :=
    bool_decide (isGranted (locks !!! w) = false ∧ isGranted (locks !!! h) = true ∧
                 pid (locks !!! w) ≠ pid (locks !!! h) ∧ tag (locks !!! w) = tag (locks !!! h)) in
  let rows :=
    mjoin ((λ w, relation_row dispatch segment locks w <$>
              filter (λ h, local w h = true) (seq 0 (length locks))) <$> seq 0 (length locks)) ++
    (if dispatch then
       mjoin ((λ s, remote_row results s <$> seq 0 (length (tuples (results !!! s))))
              <$> seq 0 (length results))
     else []) in
  (length rows < fuel)%nat →
  wait_status_rows dispatch segment locks results fuel (MkWaitStatusCtx 0 0 0 0) = Some rows.
Proof.
  cbv zeta. intros Hf.
  assert (∀ P, rest dispatch segment locks results (MkWaitStatusCtx 0 0 0 0) = P →
    (length P < fuel)%nat →
    wait_status_rows dispatch segment locks results fuel (MkWaitStatusCtx 0 0 0 0) = Some P) as Hr.
  { intros P <-. apply wait_status_rest. }
  apply Hr; [|done]. unfold rest. cbn [ws_waiter ws_holder ws_seg ws_row].
  rewrite (local_rest_zero _ _ _ results), (remote_rest_zero locks). unfold local_rows, remote_rows, waiter_rows, seg_rows.
  rewrite ?Nat.sub_0_r. f_equal.
  - f_equal. apply list_fmap_ext. intros _ w _. f_equal. rewrite ?Nat.sub_0_r. apply list_filter_iff.
    intros h. rewrite waits_for_spec, bool_decide_eq_true. done.
  - destruct dispatch; [|done]. rewrite ?Nat.sub_0_r. f_equal. apply list_fmap_ext.
    intros _ s _. by rewrite ?Nat.sub_0_r.
Qed.

(** ** The whole check *)

(** The rows that enter the graph: both transactions are alive. *)
Definition live_rows (procs : list Proc) (rows : list WaitRow) : list WaitRow :=
  filter (λ r, s32 (row_waiter r) ∈ ListAllGxid procs ∧ s32 (row_holder r) ∈ ListAllGxid procs) rows.

(** As the detector sees a row: distributed xids as ints. *)
Definition int_row (r : WaitRow) : WaitRow :=
  MkWaitRow (row_seg r) (s32 (row_waiter r)) (s32 (row_holder r)) (row_solid r).

Lemma list_member_int_spec l x : list_member_int l x = bool_decide (x ∈ l).
Proof.
  unfold list_member_int. apply eq_true_iff_eq. rewrite existsb_exists, bool_decide_eq_true.
  setoid_rewrite Z.eqb_eq. setoid_rewrite <- list_elem_of_In. naive_solver.
Qed.

Lemma build_wait_graph procs rows :
  buildWaitGraph procs true (Some rows) GddCtxNew = Ok (build (int_row <$> live_rows procs rows)).
Proof.
  unfold buildWaitGraph, build. simpl. f_equal. generalize GddCtxNew.
  induction rows as [|r rows IH]; intros c; [done|]. cbn [fold_left]. rewrite IH.
  unfold live_rows. rewrite filter_cons, !list_member_int_spec.
  case_decide as Hd.
  - rewrite !bool_decide_eq_true_2 by tauto. done.
  - repeat case_bool_decide; done || tauto.
Qed.

Lemma int_row_nonneg procs rows :
  Forall (λ p, 0 <= proc_gxid p < 2 ^ 31) procs →
  Forall (λ r, 0 <= row_waiter r) (int_row <$> live_rows procs rows).
Proof.
  intros Hp. apply Forall_fmap, Forall_forall. intros r [[Hw _] _]%list_elem_of_filter. simpl.
  assert (∀ procs acc x, Forall (λ p, 0 <= proc_gxid p < 2 ^ 31) procs →
    x ∈ fold_left (λ gxids p, if proc_gxid p =? InvalidDistributedTransactionId then gxids
                              else gxids ++ [s32 (proc_gxid p)]) procs acc →
    x ∈ acc ∨ 0 <= x) as Hg.
  { clear. induction procs as [|p procs IH]; intros acc x H Hx; [by left|].
    apply Forall_cons in H as [Hp H]. simpl in Hx. apply IH in Hx as [Hx|Hx]; [|by right|done].
    destruct (_ =? _); [by left|]. apply elem_of_app in Hx as [Hx| ->%list_elem_of_singleton]; [by left|].
    right. rewrite s32_id by (unfold is_s32; lia). lia. }
  destruct (Hg procs [] _ Hp Hw) as [Hx|Hx]; [set_solver|done].
Qed.

(** C27: a whole check, with all distributed xids in the int range: a failing
    connection is reported; without a deadlock among the rows of live
    transactions nothing is logged or cancelled; with one, exactly the backends
    of a list of victims are cancelled, and the rows that involve no victim
    have no deadlock. *)
Theorem deadlock_check procs rows fuel :
  Forall (λ p, 0 <= proc_gxid p < 2 ^ 31) procs → (length rows < fuel)%nat →
  let live := int_row <$> live_rows procs rows in
  fst <$> doDeadLockCheck procs fuel false (Some rows) = Some RET_STATUS_ERROR ∧
  ∃ out, doDeadLockCheck procs fuel true (Some rows) = Some (RET_STATUS_OK, out) ∧
    ((¬ deadlock live ∧ out = MkCheckOutcome [] []) ∨
     (deadlock live ∧ ∃ vids, vids ≠ [] ∧ ¬ deadlock (spared vids live) ∧
        cancelled out = (λ xid, GetPidByGxid procs (u32 xid)) <$> vids)).
Proof.
  intros Hp Hf. cbv zeta. split; [done|]. unfold doDeadLockCheck. rewrite build_wait_graph.
  pose proof (int_row_nonneg procs rows Hp) as Hpos.
  set (live := int_row <$> live_rows procs rows) in *.
  assert (length live < fuel)%nat as Hlf.
  { unfold live, live_rows. rewrite length_fmap.
    pose proof (length_filter (λ r, s32 (row_waiter r) ∈ ListAllGxid procs ∧ s32 (row_holder r) ∈ ListAllGxid procs) rows). lia. }
  destruct (reduce_rows live fuel Hlf) as (c & L & -> & H & Hr). cbn [mbind option_bind].
  rewrite (empty_spec live c L H). pose proof (residue_deadlock live L Hr) as Hd.
  case_bool_decide as HL; cbn [negb].
  { eexists. split; [done|]. left. tauto. }
  pose proof Hr as (Hs & _).
  pose proof (sub_length L _ (rep_nodup _ _ _ _ H) Hs) as Hlen. rewrite length_seq in Hlen.
  destruct (break_spec live fuel fuel c L [] H) as (vids & c' & Eb & H' & Hc); [|lia..|].
  { intros i Hi. apply Hs, elem_of_seq in Hi. rewrite Forall_forall in Hpos.
    apply Hpos, row_in. lia. }
  unfold breakDeadLock. rewrite Eb. cbn [mbind option_bind app]. eexists. split; [done|]. right.
  assert (deadlock live) as Hdl.
  { destruct L as [|i L]; [done|]. apply (stuck_cycle live live (i :: L) i); [apply Hr| |set_solver].
    intros j [??]%Hs%elem_of_seq. by apply row_in. }
  split; [done|]. exists vids. split; [|split; [by apply (cancels_spared live L)|done]].
  intros ->. by inversion Hc.
Qed.

(** ** Instances *)

Definition sample_rows : list WaitRow := [MkWaitRow 0 10 20 true; MkWaitRow 1 20 10 true; MkWaitRow 1 10 30 false].
Definition high_rows : list WaitRow := [MkWaitRow 0 (-1) (-2) true; MkWaitRow 1 (-2) (-1) true].
Definition reduced (rows : list WaitRow) : GddCtx :=
  default GddCtxNew (GddCtxReduce 4 (build rows)).

Lemma sample_deadlock (a b : Z) : deadlock [MkWaitRow 0 a b true; MkWaitRow 1 b a true].
Proof.
  exists (MkWaitRow 0 a b true). apply (tc_l _ _ (MkWaitRow 1 b a true)).
  - split; [set_solver|]. split; [set_solver|]. auto.
  - apply tc_once. split; [set_solver|]. split; [set_solver|]. auto.
Qed.

Lemma gdd_reduce_deadlock_witness :
  ∃ c, GddCtxReduce 4 (build sample_rows) = Some c ∧ asserts c = true ∧
    (GddCtxEmpty c = true ↔ ¬ deadlock sample_rows).
Proof. apply (gdd_reduce_deadlock sample_rows 4). apply Nat.ltb_lt. reflexivity. Defined.

Lemma gdd_reduce_greatest_witness :
  ∃ L, Rep [] sample_rows L (reduced sample_rows) ∧ L ⊆ seq 0 3 ∧ stuck sample_rows L ∧
    ∀ S, stuck sample_rows S → S ⊆ seq 0 3 → S ⊆ L.
Proof.
  apply (gdd_reduce_greatest sample_rows 4 (reduced sample_rows)).
  - apply Nat.ltb_lt. reflexivity.
  - vm_compute. reflexivity.
Defined.

Lemma gdd_break_deadlock_witness :
  ∃ c vids c', GddCtxReduce 4 (build sample_rows) = Some c ∧
    GddCtxBreakDeadLock 4 4 c [] = Some (vids, c') ∧ GddCtxEmpty c' = true.
Proof.
  destruct (gdd_break_deadlock sample_rows 4) as (c & vids & c' & E & Eb & Hc & _).
  - repeat constructor; vm_compute; intuition congruence.
  - apply Nat.ltb_lt. reflexivity.
  - exists c, vids, c'. exact (conj E (conj Eb Hc)).
Defined.

Lemma gdd_break_never_ends_witness :
  GddCtxBreakDeadLock 1000 1000 (reduced high_rows) [] = None.
Proof.
  apply (gdd_break_never_ends high_rows 1000 4 1000 (reduced high_rows)).
  - repeat constructor.
  - apply sample_deadlock.
  - apply Nat.ltb_lt. reflexivity.
  - vm_compute. reflexivity.
Defined.

Definition sample_locks : list LockElem :=
  [MkLockElem 1 [7] 0 true 100 11 21; MkLockElem 0 [7] 0 true 101 12 22; MkLockElem 0 [8] 4 false 102 13 23].

Lemma wait_status_nested_loop_witness :
  wait_status_rows false 3 sample_locks [] 5 (MkWaitStatusCtx 0 0 0 0) =
  Some [MkWaitRow 3 22 21 true].
Proof. apply (wait_status_nested_loop false 3 sample_locks [] 5). apply Nat.ltb_lt. reflexivity. Defined.

Lemma deadlock_check_witness :
  ∃ out, doDeadLockCheck [MkProc 10 5; MkProc 20 6] 4 true (Some sample_rows) = Some (RET_STATUS_OK, out).
Proof.
  destruct (deadlock_check [MkProc 10 5; MkProc 20 6] sample_rows 4) as (_ & out & E & _).
  - repeat constructor; vm_compute; intuition congruence.
  - apply Nat.ltb_lt. reflexivity.
  - exists out. exact E.
Defined.

End GddProps.
