(* ===== verification/FsmPage.v ===== *)
(** One page of the free space map: src/src/backend/storage/freespace/fsmpage.c
    and src/src/include/storage/fsm_internals.h.

    A page holds a binary tree in an array of bytes: the leaves are the slots,
    an upper node is the maximum of its children.  The block size is a
    parameter: BLCKSZ is [2 ^ K].  [page_ok] is the tree invariant; the
    theorems say that the operations establish and keep it, that the search
    finds the first suitable slot at or after its start, and that it ends on
    any page, corrupt ones included. *)

From Stdlib Require Import ZArith Lia.
From stdpp Require Import base list option numbers.
From S2P Require Import Prelude.

Module FsmPage.

(** ** The page *)

Record FSMPage := MkFSMPage { fp_next_slot : Z; fp_nodes : list Z }.

#[export] Instance FSMPage_eq_dec : EqDecision FSMPage.
Proof. solve_decision. Defined.

Section Page.
Context (K : nat).

(** The header of a page takes 24 bytes and [fp_nodes] is at offset 4. *)
Definition BLCKSZ : nat := 2 ^ K.
Definition NodesPerPage : nat := BLCKSZ - 24 - 4.
Definition NonLeafNodesPerPage : nat := BLCKSZ / 2 - 1.
Definition LeafNodesPerPage : nat := NodesPerPage - NonLeafNodesPerPage.
Definition SlotsPerFSMPage : nat := LeafNodesPerPage.

Definition leftchild (x : nat) : nat := 2 * x + 1.
Definition rightchild (x : nat) : nat := 2 * x + 2.
Definition parentof (x : nat) : nat := (x - 1) / 2.

Definition rightneighbor (x : nat) : nat :=
  let x := (x + 1)%nat in
  if (Nat.land (x + 1) x =? 0)%nat then parentof x else x.

(** The loop over the upper nodes, from the last one to the root; [n] nodes
    are left. *)
Fixpoint rebuild_loop (n : nat) (nodes : list Z) (changed : bool) : list Z * bool :=
  match n with
  | O => (nodes, changed)
  | S nodeno =>
      let lchild := leftchild nodeno in
      let rchild := (lchild + 1)%nat in
      let newvalue := 0 in
      let newvalue := if (lchild <? NodesPerPage)%nat then nodes.[lchild] else newvalue in
      let newvalue := if (rchild <? NodesPerPage)%nat then Z.max newvalue nodes.[rchild] else newvalue in
      if negb (nodes.[nodeno] =? newvalue) then
        rebuild_loop nodeno (<[nodeno := newvalue]> nodes) true
      else rebuild_loop nodeno nodes changed
  end.

Definition fsm_rebuild_page (page : FSMPage) : bool * FSMPage :=
  let '(nodes, changed) := rebuild_loop NonLeafNodesPerPage (fp_nodes page) false in
  (changed, MkFSMPage (fp_next_slot page) nodes).

(** The loop of [fsm_set_avail] that propagates a change up; a node's number is
    enough fuel. *)
Fixpoint propagate (fuel nodeno : nat) (nodes : list Z) : list Z :=
  match fuel with
  | O => nodes
  | S fuel =>
      let nodeno := parentof nodeno in
      let lchild := leftchild nodeno in
      let rchild := (lchild + 1)%nat in
      let newvalue := nodes.[lchild] in
      let newvalue := if (rchild <? NodesPerPage)%nat then Z.max newvalue nodes.[rchild] else newvalue in
      if nodes.[nodeno] =? newvalue then nodes
      else
        let nodes := <[nodeno := newvalue]> nodes in
        if (0 <? nodeno)%nat then propagate fuel nodeno nodes else nodes
  end.

Definition fsm_set_avail (page : FSMPage) (slot : nat) (value : Z) : bool * FSMPage :=
  let nodeno := (NonLeafNodesPerPage + slot)%nat in
  let oldvalue := (fp_nodes page).[nodeno] in
  if (oldvalue =? value) && (value <=? (fp_nodes page).[0]) then (false, page)
  else
    let nodes := <[nodeno := value]> (fp_nodes page) in
    let nodes := propagate nodeno nodeno nodes in
    let page := MkFSMPage (fp_next_slot page) nodes in
    if nodes.[0] <? value then (true, (fsm_rebuild_page page).2) else (true, page).

Definition fsm_get_avail (page : FSMPage) (slot : nat) : Z :=
  (fp_nodes page).[NonLeafNodesPerPage + slot].

Definition fsm_get_max_avail (page : FSMPage) : Z := (fp_nodes page).[0].

(** The climb: move right, then up, until the node has enough space. *)
Fixpoint climb (fuel : nat) (nodes : list Z) (minvalue : Z) (nodeno : nat) : nat :=
  match fuel with
  | O => nodeno
  | S fuel =>
      if (0 <? nodeno)%nat then
        if minvalue <=? nodes.[nodeno] then nodeno
        else climb fuel nodes minvalue (parentof (rightneighbor nodeno))
      else nodeno
  end.

(** The descent: the node reached, or [None] when neither child of a node has
    the space that the node promised. *)
Fixpoint descend (fuel : nat) (nodes : list Z) (minvalue : Z) (nodeno : nat) : option nat :=
  match fuel with
  | O => Some nodeno
  | S fuel =>
      if (nodeno <? NonLeafNodesPerPage)%nat then
        let childnodeno := leftchild nodeno in
        if (childnodeno <? NodesPerPage)%nat && (minvalue <=? nodes.[childnodeno]) then
          descend fuel nodes minvalue childnodeno
        else
          let childnodeno := (childnodeno + 1)%nat in
          if (childnodeno <? NodesPerPage)%nat && (minvalue <=? nodes.[childnodeno]) then
            descend fuel nodes minvalue childnodeno
          else None
      else Some nodeno
  end.

(** [fp_next_slot] made sane. *)
Definition search_start (page : FSMPage) : nat :=
  let target := fp_next_slot page in
  let target := if (target <? 0) || (Z.of_nat LeafNodesPerPage <=? target) then 0 else target in
  Z.to_nat target.

(** [fsm_search_avail]: the slot, -1 if none; [fuel] bounds the restarts
    ([None]: still restarting).  Neither loop takes more rounds than the tree
    has levels. *)
Fixpoint fsm_search_avail (fuel : nat) (page : FSMPage) (minvalue : Z) (advancenext : bool)
    : option (Z * FSMPage) :=
  match fuel with
  | O => None
  | S fuel =>
      let nodes := fp_nodes page in
      if nodes.[0] <? minvalue then Some (-1, page)
      else
        let target := (search_start page + NonLeafNodesPerPage)%nat in
        let nodeno := climb K nodes minvalue target in
        match descend K nodes minvalue nodeno with
        | None => fsm_search_avail fuel (fsm_rebuild_page page).2 minvalue advancenext
        | Some nodeno =>
            let slot := u16 (Z.of_nat (nodeno - NonLeafNodesPerPage)) in
            Some (slot, MkFSMPage (slot + (if advancenext then 1 else 0)) nodes)
        end
  end.

(** The loop that clears the leaves from [ptr] on; [n] are left. *)
Definition fsm_truncate_avail (page : FSMPage) (nslots : nat) : bool * FSMPage :=
  let '(nodes, changed) :=
    for_up (NonLeafNodesPerPage + nslots) (NodesPerPage - (NonLeafNodesPerPage + nslots))
      (λ ptr '(nodes, changed), (<[ptr := 0]> nodes, if negb (nodes.[ptr] =? 0) then true else changed))
      (fp_nodes page, false) in
  let page := MkFSMPage (fp_next_slot page) nodes in
  (changed, if changed : bool then (fsm_rebuild_page page).2 else page).

(** A page of zeros ([PageInit]). *)
Definition empty_page : FSMPage := MkFSMPage 0 (replicate NodesPerPage 0).

End Page.

(** ** Positions in the tree

    Counting nodes from 1, the children of [m] are [2 m] and [2 m + 1], and the
    nodes of a level are [2 ^ l, ..., 2 ^ (l + 1) - 1]. *)

Lemma land_next_pow2 l m :
  (2 ^ l ≤ m < 2 ^ S l)%nat → (Nat.land (m + 1) m =? 0)%nat = (m + 1 =? 2 ^ S l)%nat.
Proof.
  intros Hm. assert (0 < 2 ^ l)%nat by (apply Nat.neq_0_lt_0, Nat.pow_nonzero; lia).
  destruct (Nat.eqb_spec (m + 1) (2 ^ S l)) as [E|Hne].
  - apply Nat.eqb_eq. rewrite E. replace m with (Nat.ones (S l)).
    + rewrite Nat.land_ones. apply Nat.Div0.mod_same.
    + rewrite Nat.ones_equiv. lia.
  - apply Nat.eqb_neq. intros E.
    assert (Nat.testbit (Nat.land (m + 1) m) l = true) as Hb; [|by rewrite E, Nat.bits_0 in Hb].
    assert (∀ x, (2 ^ l ≤ x < 2 ^ S l)%nat → Nat.testbit x l = true) as Htop.
    { intros x Hx. assert (Nat.log2 x = l) as <- by (apply Nat.log2_unique; lia).
      apply Nat.bit_log2. lia. }
    rewrite Nat.land_spec, !Htop; [done|lia|]. split; [lia|]. simpl in *. lia.
Qed.

Lemma parentof_level l n :
  (2 ^ S l ≤ n + 1 < 2 ^ S (S l))%nat →
  (parentof n + 1 = (n + 1) / 2)%nat ∧ (2 ^ l ≤ parentof n + 1 < 2 ^ S l)%nat.
Proof.
  intros Hn. unfold parentof. rewrite !Nat.pow_succ_r' in *.
  assert (0 < 2 ^ l)%nat by (apply Nat.neq_0_lt_0, Nat.pow_nonzero; lia).
  assert ((n + 1) / 2 = (n - 1) / 2 + 1)%nat as E.
  { replace (n + 1)%nat with ((n - 1) + 1 * 2)%nat by lia. by rewrite Nat.div_add by lia. }
  pose proof (Nat.div_mod_eq (n + 1) 2). pose proof (Nat.mod_upper_bound (n + 1) 2). lia.
Qed.

(** Moving right and up from node [n] of level [l + 1]. *)
Lemma move_level l n :
  (2 ^ S l ≤ n + 1 < 2 ^ S (S l))%nat →
  let p := parentof (rightneighbor n) in
  (2 ^ l ≤ p + 1 < 2 ^ S l)%nat ∧
  (if Nat.even (n + 1) then p + 1 = (n + 1) / 2
   else if (n + 2 =? 2 ^ S (S l)) then p + 1 = 2 ^ l
   else p + 1 = (n + 2) / 2)%nat.
Proof.
  intros Hn. cbv zeta. unfold rightneighbor.
  pose proof (land_next_pow2 (S l) (n + 1) Hn) as Hp.
  replace (n + 1 + 1)%nat with (n + 2)%nat in * by lia. rewrite Hp.
  assert (0 < 2 ^ l)%nat by (apply Nat.neq_0_lt_0, Nat.pow_nonzero; lia).
  destruct (Nat.eqb_spec (n + 2) (2 ^ S (S l))) as [E|Hne].
  - assert (parentof (n + 1) = 2 ^ S l - 1)%nat as ->.
    { unfold parentof. replace (n + 1 - 1)%nat with n by lia. rewrite !Nat.pow_succ_r' in *.
      symmetry. apply Nat.div_unique with 0%nat; lia. }
    destruct (parentof_level l (2 ^ S l - 1)) as [E1 E2]; [rewrite !Nat.pow_succ_r' in *; lia|].
    split; [done|].
    assert (Nat.even (n + 1) = false) as ->.
    { replace (n + 1)%nat with (2 ^ S (S l) - 1)%nat by lia. rewrite !Nat.pow_succ_r'.
      replace (2 * (2 * 2 ^ l) - 1)%nat with (1 + 2 * (2 * 2 ^ l - 1))%nat by lia.
      by rewrite Nat.even_add_mul_2. }
    rewrite E1. replace (2 ^ S l - 1 + 1)%nat with (2 ^ l * 2)%nat by (rewrite Nat.pow_succ_r'; lia).
    by rewrite Nat.div_mul.
  - destruct (parentof_level l (n + 1)) as [E1 E2]; [rewrite !Nat.pow_succ_r' in *; lia|].
    split; [done|]. rewrite E1. replace (n + 1 + 1)%nat with (n + 2)%nat by lia.
    destruct (Nat.even (n + 1)) eqn:Ev; [|done].
    apply Nat.even_spec in Ev as [q Hq]. replace (n + 2)%nat with (1 + q * 2)%nat by lia.
    replace (n + 1)%nat with (q * 2)%nat by lia. by rewrite Nat.div_add, Nat.div_mul by lia.
Qed.

Section PageSpec.
Context (K : nat).
Notation W := (2 ^ (K - 1))%nat.
Notation NodesPerPage := (NodesPerPage K).
Notation NonLeaf := (NonLeafNodesPerPage K).
Notation Leaves := (LeafNodesPerPage K).

(** ** The invariant *)

(** The bytes of a page, whether or not the tree is sound. *)
Definition page_bytes (page : FSMPage) : Prop :=
  length (fp_nodes page) = NodesPerPage ∧ Forall is_u8 (fp_nodes page).

Definition node_ok (nodes : list Z) (i : nat) : Prop :=
  nodes.[i] = Z.max nodes.[leftchild i] nodes.[rightchild i].
Definition tree_ok (nodes : list Z) : Prop := ∀ i, (i < NonLeaf)%nat → node_ok nodes i.
Definition page_ok (page : FSMPage) : Prop := page_bytes page ∧ tree_ok (fp_nodes page).

Context (HK : (6 ≤ K ≤ 15)%nat).

Lemma sizes :
  (BLCKSZ K = 2 * W)%nat ∧ ((32 ≤ W)%nat ∧ Z.of_nat W <= 16384) ∧ (NonLeaf = W - 1)%nat ∧
  (NodesPerPage = 2 * W - 28)%nat ∧ (Leaves = W - 27)%nat.
Proof.
  assert (BLCKSZ K = 2 * W)%nat as E.
  { unfold BLCKSZ. replace K with (S (K - 1)) at 1 by lia. by rewrite Nat.pow_succ_r'. }
  assert ((32 ≤ W)%nat ∧ Z.of_nat W <= 16384) as HW.
  { change 32%nat with (2 ^ 5)%nat. split; [apply Nat.pow_le_mono_r; lia|].
    rewrite Nat2Z.inj_pow. change 16384 with (2 ^ 14). apply Z.pow_le_mono_r; lia. }
  unfold LeafNodesPerPage, NodesPerPage, NonLeafNodesPerPage. rewrite E.
  assert (2 * W / 2 = W)%nat as -> by (rewrite Nat.mul_comm; by apply Nat.div_mul). lia.
Qed.

Lemma u8_at nodes i : Forall is_u8 nodes → 0 <= nodes.[i] < 256.
Proof. intros H. apply (word_at_Forall (λ z, 0 <= z < 256)); [lia|done]. Qed.

(** Reading with the guard of the code is reading the extended array. *)
Lemma guarded_max nodes x y :
  length nodes = NodesPerPage → Forall is_u8 nodes → 0 <= x →
  (if (y <? NodesPerPage)%nat then Z.max x nodes.[y] else x) = Z.max x nodes.[y].
Proof.
  intros Hl Hu Hx. destruct (Nat.ltb_spec y NodesPerPage); [done|].
  rewrite word_at_ge by lia. lia.
Qed.

Lemma guarded_read nodes y :
  length nodes = NodesPerPage → (if (y <? NodesPerPage)%nat then nodes.[y] else 0) = nodes.[y].
Proof. intros Hl. destruct (Nat.ltb_spec y NodesPerPage); [done|]. by rewrite word_at_ge by lia. Qed.

Lemma rightchild_left i : rightchild i = (leftchild i + 1)%nat.
Proof. unfold rightchild, leftchild. lia. Qed.

(** ** [fsm_rebuild_page] *)

(** Only the nodes below [n] may be out of date. *)
Lemma rebuild_loop_spec n nodes changed :
  (n ≤ NonLeaf)%nat → length nodes = NodesPerPage → Forall is_u8 nodes →
  (∀ i, (n ≤ i < NonLeaf)%nat → node_ok nodes i) →
  let '(nodes', changed') := rebuild_loop K n nodes changed in
  length nodes' = NodesPerPage ∧ Forall is_u8 nodes' ∧ tree_ok nodes' ∧
  (∀ i, (n ≤ i)%nat → nodes'.[i] = nodes.[i]) ∧
  (changed' = false → nodes' = nodes ∧ changed = false) ∧
  (changed = false → changed' = true → nodes' ≠ nodes).
Proof.
  destruct sizes as (_ & HW & Enl & Enp & _).
  revert nodes changed. induction n as [|n IH]; intros nodes changed Hn Hl Hu Hok;
    cbn [rebuild_loop].
  - repeat split; try done; [|congruence]. intros i Hi. apply Hok. lia.
  - rewrite guarded_read, guarded_max, <- rightchild_left by (done || by apply u8_at).
    set (v := Z.max nodes.[leftchild n] nodes.[rightchild n]).
    assert (0 <= v < 256) as Hv.
    { pose proof (u8_at nodes (leftchild n) Hu). pose proof (u8_at nodes (rightchild n) Hu). lia. }
    destruct (Z.eqb_spec nodes.[n] v) as [E|Hne]; cbn [negb].
    + pose proof (IH nodes changed) as H. destruct (rebuild_loop K n nodes changed) as [nodes' changed'].
      destruct H as (Hl' & Hu' & Hok' & Hfr & Hch); [lia|done|done|..].
      * intros i Hi. destruct (decide (i = n)) as [->|]; [done|]. apply Hok. lia.
      * repeat split; try done; [|apply Hch; done..]. intros i Hi. apply Hfr. lia.
    + assert (n < length nodes)%nat as Hnl by lia.
      pose proof (IH (<[n:=v]> nodes) true) as H.
      destruct (rebuild_loop K n (<[n:=v]> nodes) true) as [nodes' changed'].
      destruct H as (Hl' & Hu' & Hok' & Hfr & Hch & _); [lia|by rewrite length_insert|..].
      * by apply Forall_insert.
      * intros i Hi. unfold node_ok. rewrite !word_at_insert by done.
        rewrite (decide_False (P := n = leftchild i)) by (unfold leftchild; lia).
        rewrite (decide_False (P := n = rightchild i)) by (unfold rightchild; lia).
        destruct (decide (n = i)) as [->|]; [done|]. apply Hok. lia.
      * assert (changed' = true) as -> by (destruct changed'; [done|]; by destruct (Hch eq_refl)).
        repeat split; try done.
        -- intros i Hi. rewrite Hfr, word_at_insert by (done || lia). by rewrite decide_False by lia.
        -- intros _ _ E. apply Hne. rewrite <- E, Hfr, word_at_insert by (done || lia).
           by rewrite decide_True.
Qed.

Lemma rebuild_spec page :
  page_bytes page →
  let '(changed, page') := fsm_rebuild_page K page in
  page_ok page' ∧ fp_next_slot page' = fp_next_slot page ∧
  (∀ slot, fsm_get_avail K page' slot = fsm_get_avail K page slot) ∧
  changed = bool_decide (page' ≠ page).
Proof.
  intros [Hl Hu]. unfold fsm_rebuild_page.
  pose proof (rebuild_loop_spec NonLeaf (fp_nodes page) false (le_n _) Hl Hu) as H.
  destruct (rebuild_loop K NonLeaf (fp_nodes page) false) as [nodes' changed].
  destruct H as (Hl' & Hu' & Hok & Hfr & Hf & Ht); [intros; lia|].
  split; [done|]. split; [done|]. split; [intros slot; apply Hfr; lia|].
  destruct changed; symmetry.
  - apply bool_decide_eq_true_2. intros E. apply (Ht eq_refl eq_refl). by rewrite <- E.
  - apply bool_decide_eq_false_2. destruct (Hf eq_refl) as [-> _]. intros Hne. apply Hne.
    by destruct page.
Qed.

(** ** [fsm_set_avail] *)

(** Every node but [p] is in order. *)
Definition ok_except (nodes : list Z) (p : nat) : Prop :=
  ∀ i, (i < NonLeaf)%nat → i ≠ p → node_ok nodes i.

Lemma children_inj i n : (0 < n)%nat → leftchild i = n ∨ rightchild i = n → i = parentof n.
Proof.
  unfold leftchild, rightchild, parentof. intros Hn [<-|<-].
  - apply Nat.div_unique with 0%nat; lia.
  - apply Nat.div_unique with 1%nat; lia.
Qed.

Lemma parentof_lt n : (0 < n)%nat → (parentof n < n)%nat.
Proof. intros. unfold parentof. apply Nat.Div0.div_lt_upper_bound. lia. Qed.

(** Writing node [n] leaves only its parent to be checked. *)
Lemma ok_except_write nodes n v :
  (0 < n < length nodes)%nat → (n < NonLeaf → v = Z.max nodes.[leftchild n] nodes.[rightchild n])%nat →
  ok_except nodes n ∨ ((NonLeaf ≤ n)%nat ∧ tree_ok nodes) →
  ok_except (<[n:=v]> nodes) (parentof n).
Proof.
  intros Hn Hv Hok i Hi Hp. unfold node_ok. rewrite !word_at_insert by lia.
  rewrite (decide_False (P := n = leftchild i)) by (intros E; apply Hp, children_inj; [lia|auto]).
  rewrite (decide_False (P := n = rightchild i)) by (intros E; apply Hp, children_inj; [lia|auto]).
  destruct (decide (n = i)) as [->|Hne]; [by apply Hv|].
  destruct Hok as [Hok|[_ Hok]]; apply Hok; auto.
Qed.

Lemma propagate_spec fuel n nodes :
  (n ≤ fuel)%nat → (0 < n < NodesPerPage)%nat → length nodes = NodesPerPage → Forall is_u8 nodes →
  let nodes' := propagate K fuel n nodes in
  length nodes' = NodesPerPage ∧ Forall is_u8 nodes' ∧
  (∀ i, (NonLeaf ≤ i)%nat → nodes'.[i] = nodes.[i]) ∧
  (ok_except nodes (parentof n) → tree_ok nodes').
Proof.
  destruct sizes as (_ & HW & Enl & Enp & _).
  revert n nodes. induction fuel as [|fuel IH]; intros n nodes Hf Hn Hl Hu; [lia|].
  cbv zeta. cbn [propagate]. set (p := parentof n).
  assert (p < n)%nat as Hpn by (apply parentof_lt; lia).
  assert (p < NonLeaf)%nat as Hpnl.
  { unfold p, parentof. apply Nat.Div0.div_lt_upper_bound. lia. }
  rewrite guarded_max, <- rightchild_left by (done || by apply u8_at).
  set (v := Z.max nodes.[leftchild p] nodes.[rightchild p]).
  assert (0 <= v < 256) as Hv.
  { pose proof (u8_at nodes (leftchild p) Hu). pose proof (u8_at nodes (rightchild p) Hu). lia. }
  destruct (Z.eqb_spec nodes.[p] v) as [E|Hne].
  { repeat split; try done. intros Hex i Hi.
    destruct (decide (i = p)) as [->|]; [done|by apply Hex]. }
  assert (length (<[p:=v]> nodes) = NodesPerPage) as Hl' by (by rewrite length_insert).
  assert (Forall is_u8 (<[p:=v]> nodes)) as Hu' by (by apply Forall_insert).
  assert (∀ i, (NonLeaf ≤ i)%nat → (<[p:=v]> nodes).[i] = nodes.[i]) as Hfr.
  { intros i Hi. rewrite word_at_insert by lia. by rewrite decide_False by lia. }
  destruct (Nat.ltb_spec 0 p) as [Hp0|Hp0].
  - destruct (IH p (<[p:=v]> nodes)) as (H1 & H2 & H3 & H4); [lia|lia|done|done|].
    repeat split; try done; [intros i Hi; by rewrite H3, Hfr|].
    intros Hex. apply H4, ok_except_write; [lia|done|by left].
  - repeat split; try done. intros Hex i Hi. unfold node_ok. rewrite !word_at_insert by lia.
    rewrite (decide_False (P := p = leftchild i)) by (unfold leftchild; lia).
    rewrite (decide_False (P := p = rightchild i)) by (unfold rightchild; lia).
    destruct (decide (p = i)) as [<-|Hpi]; [done|]. by apply Hex.
Qed.

(** In a sound tree no leaf is above the root. *)
Lemma leaf_below_root nodes i :
  tree_ok nodes → (i < 2 * W - 1)%nat → nodes.[i] <= nodes.[0].
Proof.
  destruct sizes as (_ & HW & Enl & _). intros Hok. induction i as [i IH] using lt_wf_ind.
  intros Hi. destruct (decide (i = 0%nat)) as [->|Hne]; [lia|].
  assert (parentof i < i)%nat by (apply parentof_lt; lia).
  assert (parentof i < NonLeaf)%nat as Hp.
  { unfold parentof. apply Nat.Div0.div_lt_upper_bound. lia. }
  specialize (IH (parentof i) ltac:(done) ltac:(lia)).
  pose proof (Hok _ Hp) as Hn. unfold node_ok in Hn.
  assert (leftchild (parentof i) = i ∨ rightchild (parentof i) = i) as Hc.
  { unfold leftchild, rightchild, parentof.
    pose proof (Nat.div_mod_eq (i - 1) 2). pose proof (Nat.mod_upper_bound (i - 1) 2). lia. }
  destruct Hc as [E|E]; rewrite E in Hn; lia.
Qed.

Lemma set_avail_spec page slot value :
  page_bytes page → (slot < Leaves)%nat → 0 <= value < 256 →
  let '(changed, page') := fsm_set_avail K page slot value in
  page_bytes page' ∧ fp_next_slot page' = fp_next_slot page ∧
  (∀ s, fsm_get_avail K page' s = if decide (s = slot) then value else fsm_get_avail K page s) ∧
  value <= fsm_get_max_avail page' ∧
  (page_ok page → page_ok page' ∧ changed = negb (fsm_get_avail K page slot =? value)).
Proof.
  intros [Hl Hu] Hs Hv. destruct sizes as (_ & HW & Enl & Enp & Elf).
  unfold fsm_set_avail, fsm_get_avail. set (n := (NonLeaf + slot)%nat).
  assert (0 < n < NodesPerPage)%nat as Hn by (unfold n; lia).
  destruct (_ && _) eqn:E.
  { apply andb_true_iff in E as [E%Z.eqb_eq Er%Z.leb_le]. split; [done|]. split; [done|].
    split; [|split; [done|]].
    - intros s. case_decide; [by subst|done].
    - intros Hok. split; [done|]. rewrite E. by rewrite Z.eqb_refl. }
  set (nodes := <[n:=value]> (fp_nodes page)).
  assert (length nodes = NodesPerPage) as Hl1 by (unfold nodes; by rewrite length_insert).
  assert (Forall is_u8 nodes) as Hu1 by (apply Forall_insert; [done|]; unfold is_u8; lia).
  destruct (propagate_spec n n nodes (le_n _) Hn Hl1 Hu1) as (Hl2 & Hu2 & Hfr & Hok2).
  set (nodes' := propagate K n n nodes) in *.
  assert (∀ s, nodes'.[NonLeaf + s] = if decide (s = slot) then value else (fp_nodes page).[NonLeaf + s]) as Hget.
  { intros s. rewrite Hfr by lia. unfold nodes. rewrite word_at_insert by lia. unfold n.
    repeat case_decide; done || lia. }
  assert (page_ok page → tree_ok nodes') as Htree.
  { intros [_ Hok]. apply Hok2. apply ok_except_write; [lia|unfold n; lia|].
    right. split; [unfold n; lia|done]. }
  assert (page_ok page → negb ((fp_nodes page).[n] =? value) = true) as Hch.
  { intros [_ Hok]. rewrite negb_true_iff. apply Z.eqb_neq. intros En.
    rewrite En, Z.eqb_refl in E. simpl in E. apply Z.leb_gt in E.
    pose proof (leaf_below_root _ n Hok ltac:(lia)). lia. }
  assert (page_ok page → value <= nodes'.[0]) as Htop.
  { intros Hok. pose proof (leaf_below_root _ n (Htree Hok) ltac:(lia)) as Hb.
    unfold n in Hb. rewrite Hget, decide_True in Hb by done. done. }
  destruct (Z.ltb_spec nodes'.[0] value) as [Hlt|Hge].
  - pose proof (rebuild_spec (MkFSMPage (fp_next_slot page) nodes') (conj Hl2 Hu2)) as H.
    destruct (fsm_rebuild_page K (MkFSMPage (fp_next_slot page) nodes')) as [ch page'].
    destruct H as (Hok' & Hnext & Hleaf & _). cbn [snd] in *. unfold fsm_get_avail in Hleaf.
    split; [apply Hok'|]. split; [done|]. split; [intros s; by rewrite Hleaf, Hget|].
    split; [|intros Hok; specialize (Htop Hok); lia].
    pose proof (leaf_below_root _ n (proj2 Hok') ltac:(lia)) as Hb. unfold n in Hb.
    rewrite Hleaf in Hb. simpl in Hb. by rewrite Hget, decide_True in Hb.
  - split; [done|]. split; [done|]. split; [done|]. split; [done|]. intros Hok.
    split; [split; [done|by apply Htree]|]. by rewrite Hch.
Qed.

(** ** [fsm_search_avail] *)

(** Leaf [j] of the full level; the leaves past [Leaves] are missing and read
    as 0. *)
Definition leaf (nodes : list Z) (j : nat) : Z := nodes.[NonLeaf + j].

Lemma pow2_pos n : (0 < 2 ^ n)%nat.
Proof. apply Nat.neq_0_lt_0, Nat.pow_nonzero. lia. Qed.

Lemma pow2_split h : (h < K)%nat → (2 ^ (K - 1 - h) * 2 ^ h = W)%nat.
Proof. intros Hh. rewrite <- Nat.pow_add_r. f_equal. lia. Qed.

(** Node [m] (counted from 1) has height [h]: its leaves are
    [m * 2 ^ h - W, ..., m * 2 ^ h - W + 2 ^ h - 1]. *)
Definition at_height (m h : nat) : Prop := (h < K ∧ 2 ^ (K - 1 - h) ≤ m < 2 ^ (K - h))%nat.

Lemma at_height_bounds m h :
  at_height m h → (W ≤ m * 2 ^ h)%nat ∧ (m * 2 ^ h + 2 ^ h ≤ 2 * W)%nat.
Proof.
  intros (Hh & Hm). pose proof (pow2_split h Hh) as E.
  assert (2 ^ (K - h) = 2 * 2 ^ (K - 1 - h))%nat as E2.
  { replace (K - h)%nat with (S (K - 1 - h)) by lia. by rewrite Nat.pow_succ_r'. }
  split; [rewrite <- E; apply Nat.mul_le_mono_r; lia|].
  replace (m * 2 ^ h + 2 ^ h)%nat with ((m + 1) * 2 ^ h)%nat by lia.
  rewrite <- E, Nat.mul_assoc, <- E2. apply Nat.mul_le_mono_r. lia.
Qed.

Lemma at_height_children m h :
  at_height m (S h) → at_height (2 * m) h ∧ at_height (2 * m + 1) h ∧ (m - 1 < NonLeaf)%nat.
Proof.
  destruct sizes as (_ & HW & Enl & _). intros (Hh & Hm).
  assert (2 ^ (K - 1 - h) = 2 * 2 ^ (K - 1 - S h))%nat as E1.
  { replace (K - 1 - h)%nat with (S (K - 1 - S h)) by lia. by rewrite Nat.pow_succ_r'. }
  assert (2 ^ (K - h) = 2 * 2 ^ (K - S h))%nat as E2.
  { replace (K - h)%nat with (S (K - S h)) by lia. by rewrite Nat.pow_succ_r'. }
  assert (2 ^ (K - S h) ≤ W)%nat by (apply Nat.pow_le_mono_r; lia).
  unfold at_height. lia.
Qed.

(** A node of a sound tree has the space that one of its leaves has. *)
Lemma node_leaves nodes v m h :
  tree_ok nodes → at_height m h →
  v <= nodes.[m - 1] ↔ ∃ j, (j < 2 ^ h)%nat ∧ v <= leaf nodes (m * 2 ^ h - W + j).
Proof.
  destruct sizes as (_ & HW & Enl & _). intros Hok. revert m.
  induction h as [|h IH]; intros m Hm.
  - destruct (at_height_bounds m 0 Hm) as [Hlo _]. rewrite Nat.pow_0_r, Nat.mul_1_r in *.
    assert (∀ j, (j < 1)%nat → (NonLeaf + (m - W + j) = m - 1)%nat) as E by lia.
    unfold leaf. split; [intros Hv; exists 0%nat; rewrite E by lia; split; [lia|done]|].
    intros (j & Hj & Hv). by rewrite E in Hv.
  - destruct (at_height_children m h Hm) as (Hl & Hr & Hnl).
    destruct (at_height_bounds _ _ Hl) as [Hlo _].
    pose proof (Hok _ Hnl) as E. unfold node_ok, leftchild, rightchild in E.
    assert (1 ≤ m)%nat by (destruct Hm as [_ Hm]; pose proof (pow2_pos (K - 1 - S h)); lia).
    replace (2 * (m - 1) + 1)%nat with (2 * m - 1)%nat in E by lia.
    replace (2 * (m - 1) + 2)%nat with (2 * m + 1 - 1)%nat in E by lia.
    rewrite E. assert (v <= Z.max nodes.[2 * m - 1] nodes.[2 * m + 1 - 1] ↔
      v <= nodes.[2 * m - 1] ∨ v <= nodes.[2 * m + 1 - 1]) as -> by lia.
    rewrite (IH _ Hl), (IH _ Hr). rewrite Nat.pow_succ_r'.
    assert (∀ j, (m * (2 * 2 ^ h) - W + j = 2 * m * 2 ^ h - W + j)%nat) as E1 by lia.
    assert (∀ j, ((2 * m + 1) * 2 ^ h - W + j = 2 * m * 2 ^ h - W + (2 ^ h + j))%nat) as E2 by lia.
    split.
    + intros [(j & Hj & Hv)|(j & Hj & Hv)].
      * exists j. rewrite E1. split; [lia|done].
      * exists (2 ^ h + j)%nat. rewrite E1, <- E2. split; [lia|done].
    + intros (j & Hj & Hv). rewrite E1 in Hv. destruct (decide (j < 2 ^ h)%nat).
      * left. by exists j.
      * right. exists (j - 2 ^ h)%nat. split; [lia|]. rewrite E2.
        by replace (2 ^ h + (j - 2 ^ h))%nat with j by lia.
Qed.

(** The guard on a child never hides a suitable node. *)
Lemma guarded_test nodes v c :
  length nodes = NodesPerPage → 0 < v →
  ((c <? NodesPerPage)%nat && (v <=? nodes.[c])) = (v <=? nodes.[c]).
Proof.
  intros Hl Hv. destruct (Nat.ltb_spec c NodesPerPage); [done|]. simpl.
  rewrite word_at_ge by lia. symmetry. apply Z.leb_gt. lia.
Qed.

(** The descent finds the first suitable leaf of the subtree. *)
Lemma descend_first nodes v m h fuel :
  length nodes = NodesPerPage → tree_ok nodes → 0 < v → at_height m h → (h ≤ fuel)%nat →
  v <= nodes.[m - 1] →
  ∃ j, (j < 2 ^ h)%nat ∧ descend K fuel nodes v (m - 1) = Some (NonLeaf + (m * 2 ^ h - W + j))%nat ∧
    v <= leaf nodes (m * 2 ^ h - W + j) ∧
    ∀ j', (j' < j)%nat → leaf nodes (m * 2 ^ h - W + j') < v.
Proof.
  destruct sizes as (_ & HW & Enl & _). intros Hl Hok Hv. revert m fuel.
  induction h as [|h IH]; intros m fuel Hm Hf Hval.
  - destruct (at_height_bounds m 0 Hm) as [Hlo _]. rewrite Nat.pow_0_r, Nat.mul_1_r in *.
    exists 0%nat. rewrite Nat.add_0_r. unfold leaf.
    replace (NonLeaf + (m - W))%nat with (m - 1)%nat by lia.
    split; [lia|]. split; [|split; [done|lia]].
    destruct fuel; cbn [descend]; [done|]. by destruct (Nat.ltb_spec (m - 1) NonLeaf); [lia|].
  - destruct (at_height_children m h Hm) as (Hlc & Hrc & Hnl).
    destruct (at_height_bounds _ _ Hlc) as [Hlo _].
    destruct fuel as [|fuel]; [lia|]. cbn [descend].
    destruct (Nat.ltb_spec (m - 1) NonLeaf); [|lia].
    rewrite !guarded_test by done. unfold leftchild.
    assert (1 ≤ m)%nat by (destruct Hm as [_ Hm]; pose proof (pow2_pos (K - 1 - S h)); lia).
    replace (2 * (m - 1) + 1)%nat with (2 * m - 1)%nat by lia.
    replace (2 * m - 1 + 1)%nat with (2 * m + 1 - 1)%nat by lia.
    rewrite Nat.pow_succ_r'.
    assert (∀ j, (m * (2 * 2 ^ h) - W + j = 2 * m * 2 ^ h - W + j)%nat) as E1 by lia.
    assert (∀ j, ((2 * m + 1) * 2 ^ h - W + j = 2 * m * 2 ^ h - W + (2 ^ h + j))%nat) as E2 by lia.
    destruct (Z.leb_spec v nodes.[2 * m - 1]) as [Hleft|Hleft].
    + destruct (IH (2 * m)%nat fuel Hlc ltac:(lia) Hleft) as (j & Hj & E & Hsuit & Hfirst).
      exists j. split; [lia|]. rewrite E1. split; [done|]. split; [done|]. intros j'. rewrite E1. apply Hfirst.
    + assert (v <= nodes.[2 * m + 1 - 1]) as Hright.
      { pose proof (Hok _ Hnl) as E. unfold node_ok, leftchild, rightchild in E.
        replace (2 * (m - 1) + 1)%nat with (2 * m - 1)%nat in E by lia.
        replace (2 * (m - 1) + 2)%nat with (2 * m + 1 - 1)%nat in E by lia. lia. }
      rewrite (proj2 (Z.leb_le _ _) Hright).
      destruct (IH (2 * m + 1)%nat fuel Hrc ltac:(lia) Hright) as (j & Hj & E & Hsuit & Hfirst).
      exists (2 ^ h + j)%nat. split; [lia|]. rewrite E1, <- E2. split; [done|]. split; [done|].
      intros j' Hj'. rewrite E1. destruct (decide (j' < 2 ^ h)%nat) as [Hlt|Hge].
      * destruct (Z.lt_ge_cases (leaf nodes (2 * m * 2 ^ h - W + j')) v) as [|Hc]; [done|].
        assert (v <= nodes.[2 * m - 1]) by (apply (node_leaves nodes v _ h Hok Hlc); eauto). lia.
      * replace j' with (2 ^ h + (j' - 2 ^ h))%nat by lia. rewrite <- E2. apply Hfirst. lia.
Qed.

(** Leaf [t] and the [e - 1] leaves after it, wrapping around, are unsuitable. *)
Definition skipped (nodes : list Z) (v : Z) (t e : nat) : Prop :=
  ∀ d, (d < e)%nat → leaf nodes ((t + d) mod W) < v.

Lemma skipped_more nodes v t e a n :
  skipped nodes v t e → ((t + e) mod W = a)%nat → (a + n ≤ W)%nat →
  (∀ j, (j < n)%nat → leaf nodes (a + j) < v) → skipped nodes v t (e + n).
Proof.
  destruct sizes as (_ & HW & _). intros Hs Ha Hn Hj d Hd.
  destruct (decide (d < e)%nat); [by apply Hs|].
  replace (t + d)%nat with ((t + e) + (d - e))%nat by lia.
  rewrite <- Nat.Div0.add_mod_idemp_l, Ha.
  rewrite Nat.mod_small by lia. apply Hj. lia.
Qed.

Lemma mod_shift t e a n : ((t + e) mod W = a)%nat → ((t + (e + n)) mod W = (a + n) mod W)%nat.
Proof. intros <-. by rewrite Nat.Div0.add_mod_idemp_l, Nat.add_assoc. Qed.

(** One step of the climb from node [m], whose leaves are unsuitable. *)
Lemma climb_step nodes v t m h e :
  tree_ok nodes → at_height m h → (1 < m)%nat → nodes.[m - 1] < v →
  ((t + e) mod W = m * 2 ^ h - W)%nat → skipped nodes v t e →
  let m' := (parentof (rightneighbor (m - 1)) + 1)%nat in
  at_height m' (S h) ∧ ∃ e', ((t + e') mod W = m' * 2 ^ S h - W)%nat ∧ skipped nodes v t e'.
Proof.
  destruct sizes as (_ & HW & _). intros Hok Hm H1 Hlow He Hsk. cbv zeta.
  pose proof Hm as (Hh & Hml). destruct (at_height_bounds m h Hm) as [Hlo Hhi].
  assert (h < K - 1)%nat as Hh'.
  { destruct (decide (h = K - 1)%nat) as [->|]; [|lia].
    replace (K - (K - 1))%nat with 1%nat in Hml by lia. rewrite Nat.pow_1_r in Hml. lia. }
  set (l := (K - 2 - h)%nat).
  replace (K - 1 - h)%nat with (S l) in Hml by lia. replace (K - h)%nat with (S (S l)) in Hml by lia.
  destruct (move_level l (m - 1)) as [Hlev Hm']; [lia|]. cbv zeta in Hlev, Hm'.
  replace (m - 1 + 1)%nat with m in Hm' by lia. replace (m - 1 + 2)%nat with (m + 1)%nat in Hm' by lia.
  set (m' := (parentof (rightneighbor (m - 1)) + 1)%nat) in *.
  split. { unfold at_height. replace (K - 1 - S h)%nat with l by lia.
    replace (K - S h)%nat with (S l) by lia. lia. }
  assert (∀ j, (j < 2 ^ h)%nat → leaf nodes (m * 2 ^ h - W + j) < v) as Hun.
  { intros j Hj. destruct (Z.lt_ge_cases (leaf nodes (m * 2 ^ h - W + j)) v) as [|Hc]; [done|].
    assert (v <= nodes.[m - 1]) by (apply (node_leaves nodes v m h Hok Hm); eauto). lia. }
  rewrite Nat.pow_succ_r'. pose proof (Nat.div_mod_eq m 2) as Hdm.
  destruct (Nat.even m) eqn:Ev.
  - exists e. split; [|done]. apply Nat.even_spec in Ev as [q Hq]. rewrite Hm', He.
    replace m with (q * 2)%nat by lia. rewrite Nat.div_mul by lia. lia.
  - exists (e + 2 ^ h)%nat. split; [|apply (skipped_more _ _ _ _ (m * 2 ^ h - W)); auto; lia].
    rewrite (mod_shift _ _ _ _ He).
    destruct (Nat.eqb_spec (m + 1) (2 ^ S (S l))) as [Ep|Hnp].
    + assert ((m + 1) * 2 ^ h = 2 * W)%nat as EW.
      { rewrite Ep, <- Nat.pow_add_r. replace (S (S l) + h)%nat with (S (K - 1)) by lia.
        by rewrite Nat.pow_succ_r'. }
      replace (m * 2 ^ h - W + 2 ^ h)%nat with W by lia. rewrite Nat.Div0.mod_same, Hm'.
      replace (2 ^ l * (2 * 2 ^ h))%nat with (2 ^ (S l + h))%nat
        by (rewrite Nat.pow_add_r, Nat.pow_succ_r'; lia).
      replace (S l + h)%nat with (K - 1)%nat by lia. lia.
    + assert (m mod 2 = 1)%nat as Hodd.
      { destruct (Nat.even m) eqn:E; [done|]. rewrite <- Nat.negb_odd in E. apply negb_false_iff in E.
        apply Nat.odd_spec in E as [q ->].
        replace (2 * q + 1)%nat with (1 + q * 2)%nat by lia. by rewrite Nat.Div0.mod_add. }
      assert (m' * 2 = m + 1)%nat as Em.
      { rewrite Hm'. replace (m + 1)%nat with ((m / 2 + 1) * 2)%nat by lia. by rewrite Nat.div_mul. }
      assert (m + 1 < 2 ^ S (S l))%nat as Hlt by lia.
      assert ((m + 1) * 2 ^ h + 2 ^ h ≤ 2 * W)%nat as Hhi2.
      { apply (at_height_bounds (m + 1) h). split; [lia|].
        replace (K - 1 - h)%nat with (S l) by lia. replace (K - h)%nat with (S (S l)) by lia. lia. }
      rewrite Nat.mod_small by (pose proof (pow2_pos h); lia).
      replace (m' * (2 * 2 ^ h))%nat with ((m' * 2) * 2 ^ h)%nat by lia. rewrite Em. lia.
Qed.

Lemma climb_spec nodes v t fuel m h e :
  tree_ok nodes → at_height m h → (K - 1 - h < fuel)%nat →
  ((t + e) mod W = m * 2 ^ h - W)%nat → skipped nodes v t e → v <= nodes.[0] →
  ∃ m' h' e', climb fuel nodes v (m - 1) = (m' - 1)%nat ∧ at_height m' h' ∧ v <= nodes.[m' - 1] ∧
    ((t + e') mod W = m' * 2 ^ h' - W)%nat ∧ skipped nodes v t e'.
Proof.
  intros Hok. revert m h e. induction fuel as [|fuel IH]; intros m h e Hm Hf He Hsk Hroot; [lia|].
  cbn [climb].
  destruct (Nat.ltb_spec 0 (m - 1)) as [Hpos|Hz].
  - destruct (Z.leb_spec v nodes.[m - 1]) as [Hge|Hlt]; [by exists m, h, e|].
    destruct (climb_step nodes v t m h e Hok Hm ltac:(lia) Hlt He Hsk) as (Hm' & e' & He' & Hsk').
    set (m' := (parentof (rightneighbor (m - 1)) + 1)%nat) in *.
    replace (parentof (rightneighbor (m - 1))) with (m' - 1)%nat by lia.
    apply (IH m' (S h) e'); [done| |done|done|done]. destruct Hm' as [Hh' _]. lia.
  - exists m, h, e. split; [done|]. split; [done|]. split; [|done].
    by replace (m - 1)%nat with 0%nat by lia.
Qed.

Lemma search_start_lt page : (search_start K page < Leaves)%nat.
Proof.
  destruct sizes as (_ & HW & _ & _ & Elf). unfold search_start.
  destruct (_ || _) eqn:E; [lia|].
  apply orb_false_iff in E as [E1%Z.ltb_ge E2%Z.leb_gt]. lia.
Qed.

(** The search of a sound page. *)
Lemma search_ok fuel page v adv :
  page_ok page → 0 < v → v <= fsm_get_max_avail page →
  ∃ d, let slot := ((search_start K page + d) mod W)%nat in
    (slot < Leaves)%nat ∧
    fsm_search_avail K (S fuel) page v adv =
      Some (Z.of_nat slot, MkFSMPage (Z.of_nat slot + (if adv then 1 else 0)) (fp_nodes page)) ∧
    v <= fsm_get_avail K page slot ∧
    ∀ d', (d' < d)%nat → fsm_get_avail K page ((search_start K page + d') mod W) < v.
Proof.
  destruct sizes as (_ & HW & Enl & Enp & Elf). intros [[Hl Hu] Hok] Hv Hroot.
  pose proof (search_start_lt page) as Ht. set (t := search_start K page) in *.
  unfold fsm_get_max_avail in Hroot. cbn [fsm_search_avail]. fold t.
  destruct (Z.ltb_spec (fp_nodes page).[0] v); [lia|].
  destruct (climb_spec (fp_nodes page) v t K (W + t) 0 0) as (m & h & e & E & Hm & Hval & He & Hsk);
    [done| |lia| |intros d; lia|done|].
  { split; [lia|]. rewrite Nat.sub_0_r. destruct sizes as (EB & _). unfold BLCKSZ in EB.
    replace (K - 0)%nat with K by lia. lia. }
  { rewrite Nat.add_0_r, Nat.pow_0_r, Nat.mod_small by lia. lia. }
  replace (W + t - 1)%nat with (t + NonLeaf)%nat in E by lia. rewrite E.
  destruct (descend_first (fp_nodes page) v m h K Hl Hok Hv Hm) as (j & Hj & Ed & Hsuit & Hfirst);
    [destruct Hm; lia|done|].
  rewrite Ed. destruct (at_height_bounds m h Hm) as [Hlo Hhi].
  set (a := (m * 2 ^ h - W)%nat) in *.
  assert ((t + (e + j)) mod W = a + j)%nat as Eslot.
  { rewrite (mod_shift _ _ _ _ He). apply Nat.mod_small. lia. }
  assert (a + j < Leaves)%nat as Hlt.
  { destruct (decide (a + j < Leaves)%nat); [done|]. unfold leaf in Hsuit.
    rewrite word_at_ge in Hsuit by lia. lia. }
  exists (e + j)%nat. cbv zeta. rewrite Eslot. split; [done|]. split; [|split; [done|]].
  - replace (NonLeaf + (a + j) - NonLeaf)%nat with (a + j)%nat by lia.
    unfold u16. change (2 ^ 16) with 65536. by rewrite Z.mod_small by lia.
  - intros d' Hd'. apply (skipped_more _ _ _ _ a j Hsk He ltac:(lia) Hfirst). lia.
Qed.

(** ** The search of any page, sound or not *)

Lemma climb_any nodes v l fuel n :
  (2 ^ l ≤ n + 1 < 2 ^ S l)%nat → (l < fuel)%nat → (n < NodesPerPage)%nat →
  let r := climb fuel nodes v n in (r < NodesPerPage)%nat ∧ (r = 0%nat ∨ v <= nodes.[r]).
Proof.
  destruct sizes as (_ & HW & Enl & Enp & _). cbv zeta.
  revert l n. induction fuel as [|fuel IH]; intros l n Hn Hf Hlt; [lia|]. cbn [climb].
  destruct (Nat.ltb_spec 0 n) as [Hpos|]; [|split; [done|left; lia]].
  destruct (Z.leb_spec v nodes.[n]); [by auto|].
  destruct l as [|l]; [simpl in Hn; lia|].
  destruct (move_level l n Hn) as [Hlev _]. cbv zeta in Hlev.
  apply (IH l); [done|lia|]. rewrite Nat.pow_succ_r' in Hlev, Hn. lia.
Qed.

Lemma descend_any nodes v fuel n r :
  (fuel ≤ K)%nat → (2 ^ (K - fuel) ≤ n + 1)%nat → (n < NodesPerPage)%nat → v <= nodes.[n] →
  descend K fuel nodes v n = Some r → (NonLeaf ≤ r < NodesPerPage)%nat ∧ v <= nodes.[r].
Proof.
  destruct sizes as (EB & HW & Enl & Enp & _). revert n.
  induction fuel as [|fuel IH]; intros n Hf Hp Hn Hv; cbn [descend].
  - rewrite Nat.sub_0_r in Hp. unfold BLCKSZ in EB. lia.
  - destruct (Nat.ltb_spec n NonLeaf); [|intros [= <-]; auto].
    assert (2 ^ (K - fuel) = 2 * 2 ^ (K - S fuel))%nat as Ep.
    { replace (K - fuel)%nat with (S (K - S fuel)) by lia. by rewrite Nat.pow_succ_r'. }
    destruct (_ && _) eqn:E1.
    + apply andb_true_iff in E1 as [E1%Nat.ltb_lt E2%Z.leb_le].
      apply IH; [lia|unfold leftchild; lia|done|done].
    + clear E1. destruct (_ && _) eqn:E1; [|done].
      apply andb_true_iff in E1 as [E1%Nat.ltb_lt E2%Z.leb_le].
      apply IH; [lia|unfold leftchild; lia|done|done].
Qed.

Definition search_answer (page : FSMPage) (v : Z) (r : Z) (page' : FSMPage) : Prop :=
  page_bytes page' ∧ (∀ s, fsm_get_avail K page' s = fsm_get_avail K page s) ∧
  ((r = -1 ∧ fsm_get_max_avail page' < v) ∨
   (∃ slot, r = Z.of_nat slot ∧ (slot < Leaves)%nat ∧ v <= fsm_get_avail K page slot)).

Lemma search_any fuel page v adv :
  page_bytes page → 0 < v → (2 ≤ fuel)%nat →
  ∃ r page', fsm_search_avail K fuel page v adv = Some (r, page') ∧ search_answer page v r page'.
Proof.
  destruct sizes as (EB & HW & Enl & Enp & Elf). intros Hb Hv Hf.
  destruct fuel as [|[|fuel]]; [lia..|]. pose proof Hb as [Hl Hu].
  destruct (Z.lt_ge_cases (fp_nodes page).[0] v) as [Hroot|Hroot].
  { exists (-1), page. cbn [fsm_search_avail]. rewrite (proj2 (Z.ltb_lt _ _) Hroot).
    split; [done|]. split; [done|]. split; [done|]. by left. }
  pose proof (search_start_lt page) as Ht.
  destruct (climb_any (fp_nodes page) v (K - 1) K (search_start K page + NonLeaf)) as [Hc1 Hc2]; [|lia..|].
  { replace (S (K - 1)) with K by lia. unfold BLCKSZ in EB. lia. }
  remember (S fuel) as f eqn:Ef. cbn [fsm_search_avail].
  destruct (Z.ltb_spec (fp_nodes page).[0] v); [lia|].
  set (n := climb K (fp_nodes page) v (search_start K page + NonLeaf)) in *.
  assert (v <= (fp_nodes page).[n]) as Hn by (destruct Hc2 as [->|]; [lia|done]).
  destruct (descend K K (fp_nodes page) v n) as [r|] eqn:Ed.
  - destruct (λ H, descend_any _ _ K n r (le_n _) H Hc1 Hn Ed) as [Hr Hval];
      [rewrite Nat.sub_diag; simpl; lia|].
    eexists _, _. split; [done|]. split; [done|]. split; [done|]. right. exists (r - NonLeaf)%nat.
    split; [unfold u16; change (2 ^ 16) with 65536; rewrite Z.mod_small by lia; done|].
    split; [lia|]. unfold fsm_get_avail. by replace (NonLeaf + (r - NonLeaf))%nat with r by lia.
  - pose proof (rebuild_spec page Hb) as H'. destruct (fsm_rebuild_page K page) as [ch page'].
    cbn [snd]. destruct H' as (Hok & _ & Hleaf & _). subst f.
    destruct (Z.lt_ge_cases (fsm_get_max_avail page') v) as [Hroot'|Hroot'].
    + exists (-1), page'. cbn [fsm_search_avail]. unfold fsm_get_max_avail in Hroot'.
      rewrite (proj2 (Z.ltb_lt _ _) Hroot'). split; [done|]. split; [apply Hok|]. split; [done|]. by left.
    + destruct (search_ok fuel page' v adv Hok Hv ltac:(lia)) as (d & Hd & -> & Hval & _).
      eexists _, _. split; [done|]. split; [apply Hok|]. split; [done|]. right. eexists.
      split; [done|]. split; [done|]. by rewrite <- Hleaf.
Qed.

(** ** [fsm_truncate_avail] *)

Lemma truncate_spec page nslots :
  page_bytes page → (nslots < Leaves)%nat →
  let '(changed, page') := fsm_truncate_avail K page nslots in
  page_bytes page' ∧ fp_next_slot page' = fp_next_slot page ∧
  (∀ s, fsm_get_avail K page' s = if decide (s < nslots)%nat then fsm_get_avail K page s else 0) ∧
  (page_ok page → page_ok page') ∧
  (changed = true ↔ ∃ s, (nslots ≤ s)%nat ∧ fsm_get_avail K page s ≠ 0).
Proof.
  destruct sizes as (EB & HW & Enl & Enp & Elf). intros [Hl Hu] Hs. unfold fsm_truncate_avail.
  set (lo := (NonLeaf + nslots)%nat). set (nodes := fp_nodes page) in *.
  pose proof (for_up_invariant (λ i (st : list Z * bool),
      length st.1 = NodesPerPage ∧ Forall is_u8 st.1 ∧
      (∀ j, st.1.[j] = if decide (lo ≤ j < i)%nat then 0 else nodes.[j]) ∧
      (st.2 = true ↔ ∃ j, (lo ≤ j < i)%nat ∧ nodes.[j] ≠ 0))
    lo (NodesPerPage - lo)
    (λ ptr '(nodes, changed), (<[ptr := 0]> nodes, if negb (nodes.[ptr] =? 0) then true else changed))
    (nodes, false)) as Hinv.
  destruct (for_up lo (NodesPerPage - lo) _ (nodes, false)) as [nodes' changed] eqn:E.
  cbn [fst snd] in Hinv. destruct Hinv as (Hl' & Hu' & Hnodes & Hch).
  - split; [done|]. split; [done|]. split; [intros j; by rewrite decide_False by lia|].
    split; [done|]. intros (j & ? & _). lia.
  - intros i [ns ch] Hi (Hl1 & Hu1 & Hn1 & Hc1). cbn [fst snd] in *.
    split; [by rewrite length_insert|]. split; [by apply Forall_insert|]. split.
    + intros j. rewrite word_at_insert by (unfold lo in *; lia). rewrite Hn1.
      repeat case_decide; done || lia.
    + rewrite Hn1, decide_False by lia. destruct (Z.eqb_spec nodes.[i] 0) as [E0|E0]; cbn [negb].
      * rewrite Hc1. split; intros (j & Hj & Hne); exists j; (split; [|done]); [lia|].
        destruct (decide (j = i)) as [->|]; [done|lia].
      * split; [|done]. intros _. exists i. split; [lia|done].
  - replace (lo + (NodesPerPage - lo))%nat with NodesPerPage in * by (unfold lo; lia).
    set (page1 := MkFSMPage (fp_next_slot page) nodes').
    assert (∀ s, fsm_get_avail K page1 s = if decide (s < nslots)%nat then fsm_get_avail K page s else 0) as Hget.
    { intros s. unfold fsm_get_avail, page1. cbn [fp_nodes]. rewrite Hnodes. fold nodes. unfold lo.
      repeat case_decide; try (done || lia). rewrite word_at_ge by lia. done. }
    assert (changed = true ↔ ∃ s, (nslots ≤ s)%nat ∧ fsm_get_avail K page s ≠ 0) as Hch'.
    { rewrite Hch. unfold lo, fsm_get_avail. fold nodes. split.
      - intros (j & Hj & Hne). exists (j - NonLeaf)%nat. split; [lia|].
        by replace (NonLeaf + (j - NonLeaf))%nat with j by lia.
      - intros (s & Hsn & Hne). exists (NonLeaf + s)%nat. split; [|done].
        destruct (decide (NonLeaf + s < NodesPerPage)%nat); [lia|]. by rewrite word_at_ge in Hne by lia. }
    destruct changed.
    + pose proof (rebuild_spec page1 (conj Hl' Hu')) as H'. destruct (fsm_rebuild_page K page1) as [ch page'].
      cbn [snd]. destruct H' as (Hok & Hnext & Hleaf & _). split; [apply Hok|]. split; [done|].
      split; [intros s; by rewrite Hleaf, Hget|]. split; [done|done].
    + split; [done|]. split; [done|]. split; [done|]. split; [|done].
      intros [_ Hok]. split; [done|]. assert (nodes' = nodes) as ->; [|done].
      apply words_ext; [lia|]. intros j _. rewrite Hnodes. case_decide as D; [|done].
      destruct (Z.eq_dec nodes.[j] 0) as [->|Hne]; [done|].
      assert (false = true) by (apply Hch; eauto). done.
Qed.

Lemma empty_page_ok : page_ok (empty_page K).
Proof.
  split; [split|].
  - apply length_replicate.
  - apply Forall_replicate. unfold is_u8. lia.
  - intros i Hi. unfold node_ok, empty_page. cbn [fp_nodes]. rewrite !word_at_replicate.
    by repeat case_decide.
Qed.

(** ** The properties *)

(** The operations on an FSM page keep the tree of maxima and do what they
    say.  Every inner node of an empty page is the maximum of its children.  On
    such a page [fsm_set_avail] changes the one slot and reports whether it did,
    [fsm_truncate_avail] clears the slots from [nslots] on and leaves the others,
    and both leave such a page; [fsm_rebuild_page] makes any page one of these
    without touching a slot; [fsm_get_max_avail] is then the largest slot. *)
Theorem fsm_page_operations page slot value nslots :
  page_ok page → (slot < Leaves)%nat → 0 <= value < 256 → (nslots < Leaves)%nat →
  page_ok (empty_page K) ∧
  (let '(changed, page') := fsm_set_avail K page slot value in
   page_ok page' ∧ changed = negb (fsm_get_avail K page slot =? value) ∧
   ∀ s, fsm_get_avail K page' s = if decide (s = slot) then value else fsm_get_avail K page s) ∧
  (let '(_, page') := fsm_truncate_avail K page nslots in
   page_ok page' ∧
   ∀ s, fsm_get_avail K page' s = if decide (s < nslots)%nat then fsm_get_avail K page s else 0) ∧
  (∀ page0, page_bytes page0 → let page' := (fsm_rebuild_page K page0).2 in
   page_ok page' ∧ ∀ s, fsm_get_avail K page' s = fsm_get_avail K page0 s) ∧
  (∀ s, (s < Leaves)%nat → fsm_get_avail K page s <= fsm_get_max_avail page).
Proof.
  intros Hok Hs Hv Hn. pose proof Hok as [Hb Ht]. split; [apply empty_page_ok|]. split; [|split; [|split]].
  - pose proof (set_avail_spec page slot value Hb Hs Hv) as H. destruct (fsm_set_avail K page slot value) as [ch page'].
    destruct H as (_ & _ & Hav & _ & H). by destruct (H Hok).
  - pose proof (truncate_spec page nslots Hb Hn) as H. destruct (fsm_truncate_avail K page nslots) as [ch page'].
    destruct H as (_ & _ & Hav & H & _). split; [by apply H|done].
  - intros page0 Hb0. pose proof (rebuild_spec page0 Hb0) as H. destruct (fsm_rebuild_page K page0) as [ch page'].
    destruct H as (H & _ & Hav & _). done.
  - intros s Hs'. destruct sizes as (_ & ? & ? & ? & ?). apply leaf_below_root; [done|lia].
Qed.

(** C29: [fsm_search_avail] on a sound page answers in one pass: when the largest
    slot is below [minvalue] it returns -1, and otherwise the first suitable slot
    in the cyclic order of the slots that starts at the next-slot pointer, which
    it then moves to the slot, or past it when [advancenext] is set. *)
Theorem fsm_search_avail_first page v adv :
  page_ok page → 0 < v →
  (if decide (fsm_get_max_avail page < v) then fsm_search_avail K 1 page v adv = Some (-1, page)
   else ∃ d, let slot := ((search_start K page + d) mod W)%nat in
    (slot < Leaves)%nat ∧
    fsm_search_avail K 1 page v adv =
      Some (Z.of_nat slot, MkFSMPage (Z.of_nat slot + (if adv then 1 else 0)) (fp_nodes page)) ∧
    v <= fsm_get_avail K page slot ∧
    ∀ d', (d' < d)%nat → fsm_get_avail K page ((search_start K page + d') mod W) < v).
Proof.
  intros Hok Hv. case_decide as Hlt.
  - cbn [fsm_search_avail]. unfold fsm_get_max_avail in Hlt. by rewrite (proj2 (Z.ltb_lt _ _) Hlt).
  - apply search_ok; [done|done|lia].
Qed.

(** [fsm_search_avail] ends on every page, however damaged its inner nodes are:
    with any bytes in the nodes it repairs the page and starts over at most once,
    leaves the slots as they are, and returns -1 with a root below [minvalue] or a
    slot of the page that has [minvalue] or more. *)
Theorem fsm_search_avail_ends page v adv :
  page_bytes page → 0 < v →
  ∃ r page', fsm_search_avail K 2 page v adv = Some (r, page') ∧
    page_bytes page' ∧ (∀ s, fsm_get_avail K page' s = fsm_get_avail K page s) ∧
    ((r = -1 ∧ fsm_get_max_avail page' < v) ∨
     (∃ slot, r = Z.of_nat slot ∧ (slot < Leaves)%nat ∧ v <= fsm_get_avail K page slot)).
Proof. intros Hb Hv. by apply search_any. Qed.

End PageSpec.

(** ** Instances, on pages of 64 bytes *)

Definition sample_page : FSMPage := (fsm_set_avail 6 (empty_page 6) 3 200).2.

Lemma sample_page_K : (6 ≤ 6 ≤ 15)%nat.
Proof. lia. Qed.

Lemma sample_page_ok : page_ok 6 sample_page.
Proof.
  pose proof (empty_page_ok 6 sample_page_K) as He. pose proof He as [Hb _].
  assert (3 < LeafNodesPerPage 6)%nat as H1 by (vm_compute; lia). assert (0 <= 200 < 256) as H2 by lia.
  pose proof (set_avail_spec 6 sample_page_K (empty_page 6) 3 200 Hb H1 H2) as H. unfold sample_page.
  destruct (fsm_set_avail 6 (empty_page 6) 3 200) as [ch page]. destruct H as (_ & _ & _ & _ & H). by apply H.
Qed.

Lemma fsm_page_operations_witness :
  let '(changed, page') := fsm_set_avail 6 sample_page 1 77 in
  page_ok 6 page' ∧ changed = true ∧
  ∀ s, fsm_get_avail 6 page' s = if decide (s = 1%nat) then 77 else fsm_get_avail 6 sample_page s.
Proof.
  refine (proj1 (proj2 (fsm_page_operations 6 sample_page_K sample_page 1 77 2 sample_page_ok _ _ _)));
    vm_compute; try split; lia || done.
Defined.

Lemma fsm_search_avail_first_witness :
  fsm_search_avail 6 1 sample_page 201 true = Some (-1, sample_page) ∧
  ∃ d, let slot := ((search_start 6 sample_page + d) mod 32)%nat in
    (slot < LeafNodesPerPage 6)%nat ∧
    fsm_search_avail 6 1 sample_page 200 true = Some (Z.of_nat slot, MkFSMPage (Z.of_nat slot + 1) (fp_nodes sample_page)) ∧
    200 <= fsm_get_avail 6 sample_page slot ∧
    ∀ d', (d' < d)%nat → fsm_get_avail 6 sample_page ((search_start 6 sample_page + d') mod 32) < 200.
Proof.
  split.
  - exact (fsm_search_avail_first 6 sample_page_K sample_page 201 true sample_page_ok ltac:(lia)).
  - exact (fsm_search_avail_first 6 sample_page_K sample_page 200 true sample_page_ok ltac:(lia)).
Defined.

(** A root that promises what no slot has. *)
Definition damaged_page : FSMPage := MkFSMPage 0 (<[0%nat := 250]> (fp_nodes sample_page)).

Lemma fsm_search_avail_ends_witness :
  ∃ r page', fsm_search_avail 6 2 damaged_page 240 true = Some (r, page') ∧
    page_bytes 6 page' ∧ (∀ s, fsm_get_avail 6 page' s = fsm_get_avail 6 damaged_page s) ∧
    ((r = -1 ∧ fsm_get_max_avail page' < 240) ∨
     (∃ slot, r = Z.of_nat slot ∧ (slot < LeafNodesPerPage 6)%nat ∧ 240 <= fsm_get_avail 6 damaged_page slot)).
Proof.
  refine (fsm_search_avail_ends 6 sample_page_K damaged_page 240 true _ _); [|lia].
  split; [by vm_compute|]. vm_compute. repeat constructor; by vm_compute.
Defined.

End FsmPage.
