(* ===== verification/FreeSpace.v ===== *)
(** The free space map of a relation: src/src/backend/storage/freespace/freespace.c.

    The FSM fork is a list of FSM pages; the relation also caches the number of
    its blocks ([smgr_fsm_nblocks], InvalidBlockNumber when not cached).  A
    buffer is the number of its block.  Locks, dirty marks and the page header
    are left out: a page of zeros is a new page.  [fsm_search_avail] is run with
    two attempts, which FsmPage proves enough for every page. *)

From Stdlib Require Import ZArith Lia.
From stdpp Require Import base list option numbers strings.
From S2P Require Import Prelude FsmPage.
Import FsmPage.

Module FreeSpace.

Record Rel := MkRel {
  fsm_exists : bool;            (* smgrexists(FSM_FORKNUM) *)
  fsm_pages : list FSMPage;
  smgr_fsm_nblocks : Z }.

Definition InvalidBlockNumber : Z := 2 ^ 32 - 1.

Record FSMAddress := MkFSMAddress { level : Z; logpageno : Z }.

Section FreeSpace.
Context (K : nat).

Definition BLCKSZ : Z := 2 ^ Z.of_nat K.
(** [MAXALIGN(SizeOfPageHeaderData + sizeof(ItemIdData))] is 32. *)
Definition MaxHeapTupleSize : Z := BLCKSZ - 32.
Definition FSM_CATEGORIES : Z := 256.
Definition FSM_CAT_STEP : Z := BLCKSZ / FSM_CATEGORIES.
Definition MaxFSMRequestSize : Z := MaxHeapTupleSize.

Definition Slots : Z := Z.of_nat (SlotsPerFSMPage K).
Definition FSM_TREE_DEPTH : Z := if 1626 <=? Slots then 3 else 4.
Definition FSM_ROOT_LEVEL : Z := FSM_TREE_DEPTH - 1.
Definition FSM_BOTTOM_LEVEL : Z := 0.
Definition FSM_ROOT_ADDRESS : FSMAddress := MkFSMAddress FSM_ROOT_LEVEL 0.

(** ** Categories *)

Definition fsm_space_avail_to_cat (avail : Z) : Z :=
  if MaxFSMRequestSize <=? avail then 255
  else
    let cat := avail / FSM_CAT_STEP in
    let cat := if 254 <? cat then 254 else cat in
    u8 cat.

Definition fsm_space_cat_to_avail (cat : Z) : Z :=
  if cat =? 255 then MaxFSMRequestSize else cat * FSM_CAT_STEP.

Definition fsm_space_needed_to_cat (needed : Z) : result Z :=
  if MaxFSMRequestSize <? needed then Err "invalid FSM request size"
  else if needed =? 0 then Ok 1
  else
    let cat := (needed + FSM_CAT_STEP - 1) / FSM_CAT_STEP in
    let cat := if 255 <? cat then 255 else cat in
    Ok (u8 cat).

(** ** Addresses *)

(** [for (l = 0; l < level; l++) leafno *= SlotsPerFSMPage] *)
Fixpoint leafno_of (l : nat) (leafno : Z) : Z :=
  match l with O => leafno | S l => leafno_of l (s32 (leafno * Slots)) end.

(** The loop that counts the pages of each level. *)
Fixpoint count_pages (l : nat) (leafno pages : Z) : Z :=
  match l with
  | O => pages
  | S l => count_pages l (s32 (u64 leafno / Slots)) (u32 (pages + (leafno + 1)))
  end.

Definition fsm_logical_to_physical (addr : FSMAddress) : Z :=
  let leafno := leafno_of (Z.to_nat (level addr)) (logpageno addr) in
  let pages := count_pages (Z.to_nat FSM_TREE_DEPTH) leafno 0 in
  let pages := u32 (pages - level addr) in
  u32 (pages - 1).

Definition fsm_get_location (heapblk : Z) : FSMAddress * Z :=
  (MkFSMAddress FSM_BOTTOM_LEVEL (s32 (heapblk / Slots)), u16 (heapblk mod Slots)).

Definition fsm_get_heap_blk (addr : FSMAddress) (slot : Z) : Z :=
  u32 (u32 (logpageno addr) * Slots + slot).

Definition fsm_get_parent (child : FSMAddress) : FSMAddress * Z :=
  (MkFSMAddress (level child + 1) (s32 (u64 (logpageno child) / Slots)),
   u16 (u64 (logpageno child) mod Slots)).

Definition fsm_get_child (parent : FSMAddress) (slot : Z) : FSMAddress :=
  MkFSMAddress (level parent - 1) (s32 (logpageno parent * Slots + slot)).

(** ** The fork *)

Definition smgrnblocks (rel : Rel) : Z := Z.of_nat (length (fsm_pages rel)).

Definition page_at (rel : Rel) (buf : Z) : FSMPage :=
  default (empty_page K) (fsm_pages rel !! Z.to_nat buf).
Definition set_page (rel : Rel) (buf : Z) (page : FSMPage) : Rel :=
  MkRel (fsm_exists rel) (<[Z.to_nat buf := page]> (fsm_pages rel)) (smgr_fsm_nblocks rel).
Definition set_nblocks (rel : Rel) (n : Z) : Rel := MkRel (fsm_exists rel) (fsm_pages rel) n.

Definition fsm_extend (rel : Rel) (fsm_nblocks : Z) : Rel :=
  let rel :=
    if ((smgr_fsm_nblocks rel =? 0) || (smgr_fsm_nblocks rel =? InvalidBlockNumber))
       && negb (fsm_exists rel)
    then MkRel true (fsm_pages rel) (smgr_fsm_nblocks rel) else rel in
  let now := smgrnblocks rel in
  let pages := fsm_pages rel ++ replicate (Z.to_nat (fsm_nblocks - now)) (empty_page K) in
  MkRel (fsm_exists rel) pages (Z.of_nat (length pages)).

(** The block number is the buffer; [None] is InvalidBuffer. *)
Definition fsm_readbuf (rel : Rel) (addr : FSMAddress) (extend : bool) : option Z * Rel :=
  let blkno := fsm_logical_to_physical addr in
  let rel :=
    if (smgr_fsm_nblocks rel =? InvalidBlockNumber) || (smgr_fsm_nblocks rel <=? blkno)
    then set_nblocks rel (if fsm_exists rel then smgrnblocks rel else 0)
    else rel in
  if smgr_fsm_nblocks rel <=? blkno then
    if extend then (Some blkno, fsm_extend rel (u32 (blkno + 1))) else (None, rel)
  else (Some blkno, rel).

(** The search of a page, see [search_any] in FsmPage. *)
Definition search_page (page : FSMPage) (minvalue : Z) (advancenext : bool) : Z * FSMPage :=
  default (-1, page) (fsm_search_avail K 2 page minvalue advancenext).

Definition fsm_set_and_search (rel : Rel) (addr : FSMAddress) (slot newValue minValue : Z)
    : Z * Rel :=
  match fsm_readbuf rel addr true with
  | (Some buf, rel) =>
      let '(_, page) := fsm_set_avail K (page_at rel buf) (Z.to_nat slot) newValue in
      let rel := set_page rel buf page in
      if negb (minValue =? 0) then
        let '(newslot, page) := search_page page minValue (level addr =? FSM_BOTTOM_LEVEL) in
        (newslot, set_page rel buf page)
      else (-1, rel)
  | (None, rel) => (-1, rel)
  end.

(** The page search inside the loop of [fsm_search]: the slot and, when there is
    none, the page's maximum. *)
Definition search_at (rel : Rel) (addr : FSMAddress) (min_cat : Z) : Z * Z * Rel :=
  match fsm_readbuf rel addr false with
  | (Some buf, rel) =>
      let '(slot, page) := search_page (page_at rel buf) min_cat (level addr =? FSM_BOTTOM_LEVEL) in
      (slot, if slot =? -1 then fsm_get_max_avail page else 0, set_page rel buf page)
  | (None, rel) => (-1, 0, rel)
  end.

(** [None]: the loop has not ended in [fuel] rounds. *)
Fixpoint fsm_search_loop (fuel : nat) (rel : Rel) (min_cat restarts : Z) (addr : FSMAddress)
    : option (Z * Rel) :=
  match fuel with
  | O => None
  | S fuel =>
      let '(slot, max_avail, rel) := search_at rel addr min_cat in
      if negb (slot =? -1) then
        if level addr =? FSM_BOTTOM_LEVEL then Some (fsm_get_heap_blk addr slot, rel)
        else fsm_search_loop fuel rel min_cat restarts (fsm_get_child addr slot)
      else if level addr =? FSM_ROOT_LEVEL then Some (InvalidBlockNumber, rel)
      else
        let '(parent, parentslot) := fsm_get_parent addr in
        let '(_, rel) := fsm_set_and_search rel parent parentslot max_avail 0 in
        if 10000 <? restarts then Some (InvalidBlockNumber, rel)
        else fsm_search_loop fuel rel min_cat (restarts + 1) FSM_ROOT_ADDRESS
  end.
Definition fsm_search (fuel : nat) (rel : Rel) (min_cat : Z) : option (Z * Rel) :=
  fsm_search_loop fuel rel min_cat 0 FSM_ROOT_ADDRESS.

(** The loop body of [fsm_vacuum_page]: the child is vacuumed, unless the end of
    the file was hit, and the slot for it brought up to date. *)
Definition vacuum_child (vacuum : Rel → Z → Z * bool * Rel) (addr : FSMAddress) (buf : Z)
    (slot : nat) (st : bool * Rel) : bool * Rel :=
  let '(eof, rel) := st in
  let '(child_avail, eof, rel) :=
    if eof then (0, eof, rel) else vacuum rel (logpageno (fsm_get_child addr (Z.of_nat slot))) in
  let rel :=
    if negb (fsm_get_avail K (page_at rel buf) slot =? child_avail) then
      set_page rel buf (snd (fsm_set_avail K (page_at rel buf) slot child_avail))
    else rel in
  (eof, rel).

(** [fsm_vacuum_page]; [l] is the level of the address. *)
Fixpoint fsm_vacuum_page (l : nat) (rel : Rel) (pageno : Z) : Z * bool * Rel :=
  let addr := MkFSMAddress (Z.of_nat l) pageno in
  match fsm_readbuf rel addr false with
  | (None, rel) => (0, true, rel)
  | (Some buf, rel) =>
      let rel :=
        match l with
        | O => rel
        | S l' => (for_up 0 (SlotsPerFSMPage K) (vacuum_child (fsm_vacuum_page l') addr buf) (false, rel)).2
        end in
      let page := page_at rel buf in
      let max_avail := fsm_get_max_avail page in
      (max_avail, false, set_page rel buf (MkFSMPage 0 (fp_nodes page)))
  end.

(** ** The public interface *)

Definition GetPageWithFreeSpace (fuel : nat) (rel : Rel) (spaceNeeded : Z) : result (option (Z * Rel)) :=
  min_cat ← fsm_space_needed_to_cat spaceNeeded;
  Ok (fsm_search fuel rel min_cat).

Definition RecordAndGetPageWithFreeSpace (fuel : nat) (rel : Rel) (oldPage oldSpaceAvail spaceNeeded : Z)
    : result (option (Z * Rel)) :=
  let old_cat := fsm_space_avail_to_cat oldSpaceAvail in
  search_cat ← fsm_space_needed_to_cat spaceNeeded;
  let '(addr, slot) := fsm_get_location oldPage in
  let '(search_slot, rel) := fsm_set_and_search rel addr slot old_cat search_cat in
  Ok (if negb (search_slot =? -1) then Some (fsm_get_heap_blk addr search_slot, rel)
      else fsm_search fuel rel search_cat).

Definition RecordPageWithFreeSpace (rel : Rel) (heapBlk spaceAvail : Z) : Rel :=
  let new_cat := fsm_space_avail_to_cat spaceAvail in
  let '(addr, slot) := fsm_get_location heapBlk in
  (fsm_set_and_search rel addr slot new_cat 0).2.

(** [XLogReadBufferExtended] makes the fork long enough. *)
Definition XLogRecordPageWithFreeSpace (rel : Rel) (heapBlk spaceAvail : Z) : Rel :=
  let new_cat := fsm_space_avail_to_cat spaceAvail in
  let '(addr, slot) := fsm_get_location heapBlk in
  let blkno := fsm_logical_to_physical addr in
  let pages := fsm_pages rel ++ replicate (Z.to_nat (blkno + 1 - smgrnblocks rel)) (empty_page K) in
  let rel := MkRel true pages (smgr_fsm_nblocks rel) in
  set_page rel blkno (fsm_set_avail K (page_at rel blkno) (Z.to_nat slot) new_cat).2.

Definition GetRecordedFreeSpace (rel : Rel) (heapBlk : Z) : Z * Rel :=
  let '(addr, slot) := fsm_get_location heapBlk in
  match fsm_readbuf rel addr false with
  | (None, rel) => (0, rel)
  | (Some buf, rel) => (fsm_space_cat_to_avail (fsm_get_avail K (page_at rel buf) (Z.to_nat slot)), rel)
  end.

Definition smgrtruncate (rel : Rel) (nblocks : Z) : Rel :=
  MkRel (fsm_exists rel) (take (Z.to_nat nblocks) (fsm_pages rel)) (smgr_fsm_nblocks rel).

Definition FreeSpaceMapTruncateRel (rel : Rel) (nblocks : Z) : Rel :=
  if negb (fsm_exists rel) then rel
  else
    let '(first_removed_address, first_removed_slot) := fsm_get_location nblocks in
    if 0 <? first_removed_slot then
      match fsm_readbuf rel first_removed_address false with
      | (None, rel) => rel
      | (Some buf, rel) =>
          let rel := set_page rel buf
                       (fsm_truncate_avail K (page_at rel buf) (Z.to_nat first_removed_slot)).2 in
          let new_nfsmblocks := u32 (fsm_logical_to_physical first_removed_address + 1) in
          set_nblocks (smgrtruncate rel new_nfsmblocks) new_nfsmblocks
      end
    else
      let new_nfsmblocks := fsm_logical_to_physical first_removed_address in
      if smgrnblocks rel <=? new_nfsmblocks then rel
      else set_nblocks (smgrtruncate rel new_nfsmblocks) new_nfsmblocks.

Definition FreeSpaceMapVacuum (rel : Rel) : Rel :=
  (fsm_vacuum_page (Z.to_nat FSM_ROOT_LEVEL) rel 0).2.

End FreeSpace.

End FreeSpace.
