(* ===== verification/FreeSpaceSpec.v ===== *)
(** What the free space map of a relation guarantees.

    FSM pages are addressed by level and logical page number; [valid] are the
    addresses of the tree.  The fork stores them in depth-first order, which
    [phys_lt] and [phys_inj] make precise.  [value] reads a slot of the map and
    [rel_ok] is the invariant of the fork.  The theorems cover the categories,
    the addressing, recording, searching, truncating and vacuuming. *)

From Stdlib Require Import ZArith Lia.
From stdpp Require Import base list option numbers strings.
From S2P Require Import Prelude FsmPage FreeSpace.
Import FsmPage FreeSpace.

Module FreeSpaceSpec.

#[export] Instance FSMAddress_eq_dec : EqDecision FSMAddress.
Proof. solve_decision. Defined.

Section Spec.
Context (K : nat) (HK : (10 ≤ K ≤ 15)%nat).
Notation S := (Slots K).
Notation D := (FSM_TREE_DEPTH K).
Notation phys := (fsm_logical_to_physical K).

(** ** The constants of the supported block sizes *)

Lemma slots_pow : S = 2 ^ (Z.of_nat K - 1) - 27.
Proof.
  destruct (sizes K ltac:(lia)) as (_ & HW & _ & _ & E). unfold Slots, SlotsPerFSMPage.
  rewrite E, Nat2Z.inj_sub, Nat2Z.inj_pow by lia. simpl (Z.of_nat 27). simpl (Z.of_nat 2).
  f_equal. f_equal. lia.
Qed.

(** The tree reaches every block of a heap, and its page numbers fit in an int. *)
Lemma depth_enough : 485 <= S <= 16357 ∧ 3 <= D <= 4 ∧ 2 * S ^ (D - 1) < 2 ^ 31 ∧ 2 ^ 32 - 1 <= S ^ D.
Proof.
  unfold FSM_TREE_DEPTH. rewrite slots_pow.
  assert (Z.of_nat K ∈ [10; 11; 12; 13; 14; 15]) as Hk.
  { rewrite !elem_of_cons. lia. }
  rewrite !elem_of_cons, elem_of_nil in Hk.
  destruct Hk as [->|[->|[->|[->|[->|[->|[]]]]]]]; vm_compute; intuition congruence.
Qed.

Lemma S_pos : 0 < S.
Proof. pose proof depth_enough. lia. Qed.

Lemma pow_S_pos n : 0 <= n → 0 < S ^ n.
Proof. intros. apply Z.pow_pos_nonneg; [apply S_pos|done]. Qed.

(** ** Addresses *)

Definition valid (a : FSMAddress) : Prop :=
  0 <= level a <= D - 1 ∧ 0 <= logpageno a < S ^ (D - 1 - level a).

(** The logical number of the first leaf page below an address. *)
Definition first_leaf (a : FSMAddress) : Z := logpageno a * S ^ level a.

Lemma first_leaf_bound a : valid a → 0 <= first_leaf a < S ^ (D - 1).
Proof.
  intros (Hl & Hp). unfold first_leaf. pose proof (pow_S_pos (level a) ltac:(lia)).
  split; [nia|]. replace (D - 1) with ((D - 1 - level a) + level a) by lia.
  rewrite Z.pow_add_r by lia. apply Z.mul_lt_mono_pos_r; lia.
Qed.

(** The pages of [n] levels that precede leaf page [x]. *)
Fixpoint sumdiv (n : nat) (x : Z) : Z :=
  match n with O => 0 | Datatypes.S n => x + sumdiv n (x / S) end.

Lemma sumdiv_bound n x : 0 <= x → 0 <= sumdiv n x <= 2 * x.
Proof.
  revert x. induction n as [|n IH]; intros x Hx; simpl; [lia|].
  pose proof depth_enough as ((HS & _) & _).
  assert (0 <= x / S) by (apply Z.div_pos; lia). specialize (IH (x / S) ltac:(done)).
  assert (2 * (x / S) <= x); [|lia].
  pose proof (Z.mul_div_le x S ltac:(lia)). nia.
Qed.

Lemma sumdiv_mono n x y : 0 <= x <= y → sumdiv n x <= sumdiv n y.
Proof.
  revert x y. induction n as [|n IH]; intros x y Hxy; simpl; [lia|].
  pose proof S_pos. assert (0 <= x / S <= y / S) as Hd.
  { split; [apply Z.div_pos; lia|apply Z.div_le_mono; lia]. }
  specialize (IH _ _ Hd). lia.
Qed.

Lemma sumdiv_gap n mu x q :
  (mu < n)%nat → 0 <= x < q * S ^ Z.of_nat mu →
  sumdiv n x + Z.of_nat mu + 1 <= sumdiv n (q * S ^ Z.of_nat mu).
Proof.
  pose proof S_pos as HS. revert mu x. induction n as [|n IH]; intros mu x Hmu Hx; [lia|].
  cbn [sumdiv]. destruct mu as [|mu].
  - rewrite Z.pow_0_r, Z.mul_1_r in *.
    assert (sumdiv n (x / S) <= sumdiv n (q / S)); [|lia].
    apply sumdiv_mono. split; [apply Z.div_pos; lia|apply Z.div_le_mono; lia].
  - rewrite Nat2Z.inj_succ, Z.pow_succ_r in * by lia.
    assert (q * (S * S ^ Z.of_nat mu) / S = q * S ^ Z.of_nat mu) as ->.
    { replace (q * (S * S ^ Z.of_nat mu)) with ((q * S ^ Z.of_nat mu) * S) by lia.
      apply Z.div_mul. lia. }
    assert (sumdiv n (x / S) + Z.of_nat mu + 1 <= sumdiv n (q * S ^ Z.of_nat mu)); [|lia].
    apply IH; [lia|]. split; [apply Z.div_pos; lia|]. apply Z.div_lt_upper_bound; lia.
Qed.

Lemma u64_id z : 0 <= z < 2 ^ 31 → u64 z = z.
Proof. intros. apply Z.mod_small. lia. Qed.

Lemma leafno_of_spec l p :
  0 <= p → p * S ^ Z.of_nat l < 2 ^ 31 → leafno_of K l p = p * S ^ Z.of_nat l.
Proof.
  pose proof S_pos as HS. revert p. induction l as [|l IH]; intros p Hp Hb; cbn [leafno_of].
  - simpl. lia.
  - rewrite Nat2Z.inj_succ, Z.pow_succ_r in * by lia. pose proof (pow_S_pos (Z.of_nat l) ltac:(lia)).
    assert (s32 (p * S) = p * S) as ->.
    { apply s32_id. unfold is_s32. split; [nia|]. nia. }
    rewrite IH; [lia|nia|lia].
Qed.

Lemma count_pages_spec n x pages :
  0 <= x < 2 ^ 30 → 0 <= pages → pages + 2 * x + Z.of_nat n < 2 ^ 32 →
  count_pages K n x pages = pages + sumdiv n x + Z.of_nat n.
Proof.
  pose proof depth_enough as ((HS & _) & _).
  revert x pages. induction n as [|n IH]; intros x pages Hx Hp Hb; cbn [count_pages sumdiv]; [lia|].
  assert (0 <= x / S) by (apply Z.div_pos; lia).
  pose proof (Z.mul_div_le x S ltac:(lia)).
  rewrite u64_id by lia. rewrite s32_id by (unfold is_s32; nia).
  rewrite u32_id by (unfold is_u32; lia). rewrite IH by nia. lia.
Qed.

Lemma phys_spec a :
  valid a → phys a = sumdiv (Z.to_nat D) (first_leaf a) + D - level a - 1 ∧ 0 <= phys a < 2 ^ 31.
Proof.
  intros Hv. pose proof Hv as (Hl & Hp). pose proof depth_enough as (HS & HD & Hb & _).
  pose proof (first_leaf_bound a Hv) as Hf. unfold fsm_logical_to_physical.
  assert (leafno_of K (Z.to_nat (level a)) (logpageno a) = first_leaf a) as ->.
  { unfold first_leaf in *. rewrite leafno_of_spec; rewrite ?Z2Nat.id by lia; lia. }
  pose proof (sumdiv_bound (Z.to_nat D) (first_leaf a) ltac:(lia)).
  rewrite count_pages_spec by (rewrite ?Z2Nat.id by lia; lia). rewrite Z2Nat.id by lia.
  assert (∀ z, 0 <= z < 2 ^ 32 → u32 z = z) as Hid by (intros z Hz; by apply u32_id).
  rewrite (Hid (_ - level a)) by lia. rewrite Hid by lia. lia.
Qed.

(** Pages are stored in the order of their first leaf ... *)
Lemma phys_lt a b : valid a → valid b → first_leaf a < first_leaf b → phys a < phys b.
Proof.
  intros Ha Hb Hlt. destruct (phys_spec a Ha) as [-> _]. destruct (phys_spec b Hb) as [-> _].
  pose proof (first_leaf_bound a Ha) as Hf.
  destruct Ha as (Hla & _). pose proof Hb as (Hlb & _). pose proof depth_enough as (_ & HD & _).
  pose proof (sumdiv_gap (Z.to_nat D) (Z.to_nat (level b)) (first_leaf a) (logpageno b)) as Hg.
  rewrite Z2Nat.id in Hg by lia. fold (first_leaf b) in Hg.
  specialize (Hg ltac:(lia) ltac:(lia)). lia.
Qed.

(** ... and no two share a block. *)
Lemma phys_inj a b : valid a → valid b → phys a = phys b → a = b.
Proof.
  intros Ha Hb E. destruct (Z.lt_trichotomy (first_leaf a) (first_leaf b)) as [H|[H|H]].
  - pose proof (phys_lt a b Ha Hb H). lia.
  - destruct (phys_spec a Ha) as [Ea _]. destruct (phys_spec b Hb) as [Eb _]. rewrite H in Ea.
    assert (level a = level b) as El by lia. destruct a as [la pa], b as [lb pb]. simpl in *. subst lb.
    f_equal. unfold first_leaf in H. simpl in H.
    destruct Ha as (Hl & _). simpl in Hl. pose proof (pow_S_pos la ltac:(lia)). nia.
  - pose proof (phys_lt b a Hb Ha H). lia.
Qed.

(** A block of a heap: its page number is below InvalidBlockNumber. *)
Definition is_block (b : Z) : Prop := 0 <= b < InvalidBlockNumber.

(** The address and slot of a block. *)
Definition addr_of (b : Z) : FSMAddress := MkFSMAddress 0 (b / S).
Definition slot_of (b : Z) : nat := Z.to_nat (b mod S).

Lemma slot_of_lt b : (slot_of b < SlotsPerFSMPage K)%nat.
Proof.
  unfold slot_of. pose proof (Z.mod_pos_bound b S S_pos). unfold Slots in *. lia.
Qed.

Lemma valid_addr_of b : is_block b → valid (addr_of b).
Proof.
  intros [H0 Hb]. pose proof depth_enough as (HS & HD & _ & Hreach). unfold InvalidBlockNumber in Hb.
  split; simpl; [lia|]. split; [apply Z.div_pos; lia|]. rewrite Z.sub_0_r.
  apply Z.div_lt_upper_bound; [lia|]. replace D with (Z.succ (D - 1)) in Hreach by lia.
  rewrite Z.pow_succ_r in Hreach by lia. lia.
Qed.

Lemma location_spec b :
  is_block b → fsm_get_location K b = (addr_of b, Z.of_nat (slot_of b)).
Proof.
  intros Hb. pose proof (valid_addr_of b Hb) as (_ & Hv). simpl in Hv. rewrite Z.sub_0_r in Hv.
  pose proof depth_enough as (HS & _ & Hlt & _). pose proof (Z.mod_pos_bound b S S_pos).
  unfold fsm_get_location, addr_of, slot_of. f_equal.
  - unfold FSM_BOTTOM_LEVEL. f_equal. apply s32_id. unfold is_s32. lia.
  - unfold u16. rewrite Z.mod_small by lia. lia.
Qed.

Lemma heap_blk_spec p slot :
  0 <= p → (slot < SlotsPerFSMPage K)%nat → is_block (p * S + Z.of_nat slot) →
  let b := fsm_get_heap_blk K (MkFSMAddress 0 p) (Z.of_nat slot) in
  b = p * S + Z.of_nat slot ∧ addr_of b = MkFSMAddress 0 p ∧ slot_of b = slot.
Proof.
  intros Hp Hs [H0 Hb]. pose proof depth_enough as ((HS & _) & _).
  unfold fsm_get_heap_blk, InvalidBlockNumber in *. simpl.
  assert (p < 2 ^ 32) by nia.
  rewrite (u32_id p), u32_id by (unfold is_u32; lia). split; [done|].
  unfold addr_of, slot_of. assert (Z.of_nat slot < S) by (unfold Slots; lia).
  rewrite Z.div_add_l, Z.div_small, Z.add_0_r by lia. split; [done|].
  rewrite Z.add_comm, Z.mod_add, Z.mod_small, Nat2Z.id by lia. done.
Qed.

Lemma child_spec a slot :
  valid a → 0 < level a → (slot < SlotsPerFSMPage K)%nat →
  fsm_get_child K a (Z.of_nat slot) = MkFSMAddress (level a - 1) (logpageno a * S + Z.of_nat slot) ∧
  valid (MkFSMAddress (level a - 1) (logpageno a * S + Z.of_nat slot)).
Proof.
  intros (Hl & Hp) H0 Hs. pose proof depth_enough as (HS & HD & Hb & _).
  assert (Z.of_nat slot < S) by (unfold Slots; lia).
  assert (logpageno a * S + Z.of_nat slot < S ^ (D - 1 - (level a - 1))) as Hlt.
  { replace (D - 1 - (level a - 1)) with (Z.succ (D - 1 - level a)) by lia.
    rewrite Z.pow_succ_r by lia. nia. }
  assert (S ^ (D - 1 - (level a - 1)) <= S ^ (D - 1)) by (apply Z.pow_le_mono_r; lia).
  unfold fsm_get_child. rewrite s32_id by (unfold is_s32; nia). split; [done|].
  split; simpl; [lia|]. split; [nia|done].
Qed.

Lemma parent_spec a :
  valid a → level a < D - 1 →
  fsm_get_parent K a = (MkFSMAddress (level a + 1) (logpageno a / S), Z.of_nat (slot_of (logpageno a))) ∧
  valid (MkFSMAddress (level a + 1) (logpageno a / S)).
Proof.
  intros (Hl & Hp) H0. pose proof depth_enough as (HS & HD & Hb & _).
  assert (S ^ (D - 1 - level a) <= S ^ (D - 1)) by (apply Z.pow_le_mono_r; lia).
  assert (0 <= logpageno a / S) by (apply Z.div_pos; lia).
  pose proof (Z.mul_div_le (logpageno a) S ltac:(lia)). pose proof (Z.mod_pos_bound (logpageno a) S S_pos).
  assert (logpageno a / S < S ^ (D - 1 - (level a + 1))) as Hlt.
  { apply Z.div_lt_upper_bound; [lia|]. replace (D - 1 - level a) with (Z.succ (D - 1 - (level a + 1))) in Hp by lia.
    rewrite Z.pow_succ_r in Hp by lia. lia. }
  unfold fsm_get_parent, slot_of. rewrite u64_id by lia. rewrite s32_id by (unfold is_s32; nia).
  unfold u16. rewrite Z.mod_small by lia. rewrite Z2Nat.id by lia. split; [done|].
  split; simpl; [lia|]. done.
Qed.

Lemma parent_of_child a s :
  valid a → 0 < level a → (s < SlotsPerFSMPage K)%nat →
  fsm_get_parent K (MkFSMAddress (level a - 1) (logpageno a * S + Z.of_nat s)) = (a, Z.of_nat s).
Proof.
  intros Hv H0 Hs. destruct (child_spec a s Hv H0 Hs) as [_ Hvc].
  destruct (parent_spec _ Hvc) as [-> _]; [destruct Hv; simpl; lia|]. unfold slot_of. simpl.
  assert (0 <= Z.of_nat s < S) by (unfold Slots; lia).
  rewrite Z.div_add_l, Z.div_small, Z.add_0_r by lia.
  rewrite (Z.add_comm (_ * _)), Z.mod_add, Z.mod_small by lia. destruct a as [l p]. simpl. f_equal; [f_equal|]; lia.
Qed.

Lemma children_in_order a s t :
  valid a → 0 < level a → (s < t < SlotsPerFSMPage K)%nat →
  phys a < phys (MkFSMAddress (level a - 1) (logpageno a * S + Z.of_nat s))
    < phys (MkFSMAddress (level a - 1) (logpageno a * S + Z.of_nat t)).
Proof.
  intros Hv H0 Hst. destruct (child_spec a s Hv H0 ltac:(lia)) as [_ Hs]. destruct (child_spec a t Hv H0 ltac:(lia)) as [_ Ht].
  pose proof (pow_S_pos (level a - 1) ltac:(lia)).
  assert (first_leaf a = logpageno a * S * S ^ (level a - 1)) as Ea.
  { unfold first_leaf. replace (level a) with (Z.succ (level a - 1)) at 1 by lia. rewrite Z.pow_succ_r by lia. lia. }
  split.
  - destruct (decide (s = 0%nat)) as [->|Hne].
    + destruct (phys_spec a Hv) as [-> _]. destruct (phys_spec _ Hs) as [-> _]. simpl level.
      replace (first_leaf (MkFSMAddress (level a - 1) (logpageno a * S + Z.of_nat 0))) with (first_leaf a); [lia|].
      rewrite Ea. unfold first_leaf. simpl. f_equal. lia.
    + apply phys_lt; [done..|]. rewrite Ea. unfold first_leaf. simpl. nia.
  - apply phys_lt; [done..|]. unfold first_leaf. simpl. nia.
Qed.

Lemma climb_parents n a :
  valid a → level a + Z.of_nat n <= D - 1 →
  let a' := Nat.iter n (λ a, (fsm_get_parent K a).1) a in valid a' ∧ level a' = level a + Z.of_nat n.
Proof.
  intros Hv. induction n as [|n IH]; intros Hn; [split; [done|change (level a = level a + 0); lia]|].
  rewrite Nat.iter_succ. cbn zeta in *. destruct IH as [Hv' El]; [lia|].
  destruct (parent_spec _ Hv' ltac:(lia)) as [-> Hp]. cbn [fst]. split; [done|]. cbn [level] in *. rewrite El. lia.
Qed.

Lemma root_unique a : valid a → level a = D - 1 → a = FSM_ROOT_ADDRESS K.
Proof.
  intros (_ & Hp) El. rewrite El in Hp. replace (D - 1 - (D - 1)) with 0 in Hp by lia.
  destruct a as [l p]. unfold FSM_ROOT_ADDRESS, FSM_ROOT_LEVEL. simpl in *. f_equal; lia.
Qed.

(** ** The fork *)

(** Every page has its bytes, and the cached size is not past the end. *)
Record rel_ok (rel : Rel) : Prop := MkRelOk {
  rel_bytes : Forall (page_bytes K) (fsm_pages rel);
  rel_exists : fsm_exists rel = false → fsm_pages rel = [];
  rel_cache : smgr_fsm_nblocks rel = InvalidBlockNumber ∨ 0 <= smgr_fsm_nblocks rel <= smgrnblocks rel;
  rel_size : smgrnblocks rel < InvalidBlockNumber }.

(** The byte stored in a slot of the map; a missing page holds zeros. *)
Definition value (rel : Rel) (a : FSMAddress) (slot : nat) : Z :=
  fsm_get_avail K (page_at K rel (phys a)) slot.
Definition root_value (rel : Rel) (a : FSMAddress) : Z := fsm_get_max_avail (page_at K rel (phys a)).
Definition has_page (rel : Rel) (a : FSMAddress) : Prop := phys a < smgrnblocks rel.
#[local] Instance has_page_dec rel a : Decision (has_page rel a) := Z_lt_dec _ _.

Lemma page_at_bytes rel b : rel_ok rel → page_bytes K (page_at K rel b).
Proof.
  intros H. unfold page_at. destruct (fsm_pages rel !! Z.to_nat b) eqn:E; simpl.
  - by apply (Forall_lookup_1 _ _ _ _ (rel_bytes _ H) E).
  - apply empty_page_ok. lia.
Qed.

Lemma page_at_missing rel b : smgrnblocks rel <= b → page_at K rel b = empty_page K.
Proof.
  intros Hb. unfold page_at, smgrnblocks in *. rewrite lookup_ge_None_2; [done|]. lia.
Qed.

Lemma page_at_extend rel e n nb b :
  page_at K (MkRel e (fsm_pages rel ++ replicate n (empty_page K)) nb) b = page_at K rel b.
Proof.
  unfold page_at. simpl. destruct (decide (Z.to_nat b < length (fsm_pages rel))%nat).
  - by rewrite lookup_app_l.
  - rewrite lookup_app_r, (lookup_ge_None_2 (fsm_pages rel)) by lia.
    destruct (replicate n (empty_page K) !! _) eqn:E; [|done].
    apply lookup_replicate_1 in E as [-> _]. done.
Qed.

Lemma page_at_set rel b b' p :
  0 <= b < smgrnblocks rel → 0 <= b' →
  page_at K (set_page rel b p) b' = if decide (b' = b) then p else page_at K rel b'.
Proof.
  intros Hb Hb'. unfold page_at, set_page, smgrnblocks in *. simpl. case_decide as D0.
  - subst. by rewrite list_lookup_insert_eq by lia.
  - rewrite list_lookup_insert_ne by lia. done.
Qed.

Lemma rel_ok_set rel b p : rel_ok rel → page_bytes K p → rel_ok (set_page rel b p).
Proof.
  intros [H1 H2 H3 H4] Hp. unfold set_page, smgrnblocks in *.
  split; simpl; unfold smgrnblocks; simpl; rewrite ?length_insert; try done.
  - by apply Forall_insert.
  - intros E. by rewrite (H2 E).
Qed.

(** The size is read again when it is unknown or the page is past it. *)
Definition refresh (rel : Rel) (b : Z) : Rel :=
  if (smgr_fsm_nblocks rel =? InvalidBlockNumber) || (smgr_fsm_nblocks rel <=? b)
  then set_nblocks rel (if fsm_exists rel then smgrnblocks rel else 0) else rel.

Lemma refresh_spec rel b :
  rel_ok rel → 0 <= b →
  rel_ok (refresh rel b) ∧ fsm_pages (refresh rel b) = fsm_pages rel ∧
  fsm_exists (refresh rel b) = fsm_exists rel ∧
  if decide (b < smgrnblocks rel) then b < smgr_fsm_nblocks (refresh rel b)
  else smgr_fsm_nblocks (refresh rel b) = smgrnblocks rel.
Proof.
  intros H Hb. pose proof H as [H1 H2 H3 H4]. unfold refresh.
  set (n := if fsm_exists rel then smgrnblocks rel else 0).
  assert (n = smgrnblocks rel) as En.
  { unfold n. destruct (fsm_exists rel) eqn:E; [done|]. unfold smgrnblocks. by rewrite H2. }
  destruct (_ || _) eqn:E.
  - split; [|split; [done|split; [done|]]].
    + split; simpl; try done. right. rewrite En. unfold smgrnblocks. simpl. lia.
    + cbn [smgr_fsm_nblocks set_nblocks]. case_decide; lia.
  - apply orb_false_iff in E as [E1%Z.eqb_neq E2%Z.leb_gt].
    split; [done|split; [done|split; [done|]]]. case_decide; lia.
Qed.

(** [fsm_readbuf] changes nothing but the cached size ... *)
Lemma readbuf_spec rel a :
  rel_ok rel → valid a →
  fsm_readbuf K rel a false = (if decide (has_page rel a) then Some (phys a) else None, refresh rel (phys a)).
Proof.
  intros H Hv. destruct (phys_spec a Hv) as [_ Hb]. unfold has_page.
  destruct (refresh_spec rel (phys a) H ltac:(lia)) as (_ & _ & _ & Hc).
  change (fsm_readbuf K rel a false) with
    (if smgr_fsm_nblocks (refresh rel (phys a)) <=? phys a then (None, refresh rel (phys a))
     else (Some (phys a), refresh rel (phys a))).
  repeat case_decide; destruct (Z.leb_spec (smgr_fsm_nblocks (refresh rel (phys a))) (phys a)); done || lia.
Qed.

(** ... or also makes the fork long enough, with empty pages. *)
Lemma readbuf_extend rel a :
  rel_ok rel → valid a →
  let '(buf, rel') := fsm_readbuf K rel a true in
  buf = Some (phys a) ∧ rel_ok rel' ∧ has_page rel' a ∧ (∀ b, page_at K rel' b = page_at K rel b).
Proof.
  intros H Hv. destruct (phys_spec a Hv) as [_ Hb]. unfold has_page.
  destruct (refresh_spec rel (phys a) H ltac:(lia)) as ([H1 H2 H3 H4] & Ep & Ee & Hc).
  change (fsm_readbuf K rel a true) with
    (if smgr_fsm_nblocks (refresh rel (phys a)) <=? phys a
     then (Some (phys a), fsm_extend K (refresh rel (phys a)) (u32 (phys a + 1)))
     else (Some (phys a), refresh rel (phys a))).
  pose proof depth_enough as (_ & _ & Hlim & _).
  assert (smgrnblocks (refresh rel (phys a)) = smgrnblocks rel) as Es by (unfold smgrnblocks; by rewrite Ep).
  set (rel1 := refresh rel (phys a)) in *.
  destruct (Z.leb_spec (smgr_fsm_nblocks rel1) (phys a)); case_decide; try lia.
  - unfold fsm_extend. rewrite u32_id by (unfold is_u32; lia).
    match goal with |- context [if ?c then MkRel true ?x ?y else ?z] =>
      set (rel2 := if c then MkRel true x y else z) end.
    assert (fsm_pages rel2 = fsm_pages rel ∧ smgrnblocks rel2 = smgrnblocks rel) as [E1 E2].
    { unfold rel2. destruct (_ && _); [|done]. unfold smgrnblocks. simpl. by rewrite Ep. }
    assert (fsm_exists rel2 = false → False) as E3.
    { unfold rel2. destruct (fsm_exists rel1) eqn:E.
      - rewrite andb_false_r. congruence.
      - rewrite Hc. replace (smgrnblocks rel) with 0; [done|]. rewrite <- Es. unfold smgrnblocks. by rewrite H2. }
    rewrite E1, E2. unfold smgrnblocks in E2, H4, Es. unfold smgrnblocks.
    split; [done|split; [|split]]; simpl.
    + split; simpl; unfold smgrnblocks; simpl; [|done|right; lia|].
      * apply Forall_app. split; [by rewrite <- Ep|]. apply Forall_replicate, empty_page_ok. lia.
      * rewrite length_app, length_replicate. unfold InvalidBlockNumber in *. lia.
    + rewrite length_app, length_replicate. lia.
    + intros b. apply page_at_extend.
  - split; [done|split; [done|split]]; [lia|]. intros b. unfold page_at. by rewrite Ep.
Qed.

Lemma page_at_set_addr rel a a' p :
  valid a → valid a' → has_page rel a →
  page_at K (set_page rel (phys a) p) (phys a') = if decide (a' = a) then p else page_at K rel (phys a').
Proof.
  intros Hv Hv' Hp. destruct (phys_spec a Hv) as [_ Hb]. destruct (phys_spec a' Hv') as [_ Hb'].
  unfold has_page in Hp. rewrite page_at_set by lia.
  destruct (decide (phys a' = phys a)) as [E|E].
  - rewrite decide_True; [done|]. by apply phys_inj.
  - rewrite decide_False; [done|congruence].
Qed.

(** Every page is a tree of maxima. *)
Definition trees_ok (rel : Rel) : Prop := ∀ b, page_ok K (page_at K rel b).

Lemma trees_ok_set rel b p : 0 <= b < smgrnblocks rel → trees_ok rel → page_ok K p → trees_ok (set_page rel b p).
Proof.
  intros Hb H Hp b'. unfold page_at, set_page. simpl. unfold smgrnblocks in Hb.
  destruct (decide (Z.to_nat b' = Z.to_nat b)) as [E|E].
  - rewrite E, list_lookup_insert_eq by lia. done.
  - rewrite list_lookup_insert_ne by lia. apply H.
Qed.

Lemma search_page_spec page v adv :
  page_bytes K page → 0 < v →
  let '(r, page') := search_page K page v adv in
  search_answer K page v r page' ∧
  (page_ok K page → page_ok K page' ∧ fp_nodes page' = fp_nodes page ∧
    (v <= fsm_get_max_avail page → r ≠ -1)).
Proof.
  intros Hb Hv. unfold search_page.
  destruct (search_any K ltac:(lia) 2 page v adv Hb Hv ltac:(lia)) as (r & page' & E & H).
  rewrite E. simpl. split; [done|]. intros Hok.
  destruct (Z.lt_ge_cases (fsm_get_max_avail page) v) as [Hlt|Hge].
  - unfold fsm_get_max_avail in Hlt. cbn [fsm_search_avail] in E.
    rewrite (proj2 (Z.ltb_lt _ _) Hlt) in E. injection E as <- <-. split; [done|]. split; [done|].
    unfold fsm_get_max_avail. lia.
  - destruct (search_ok K ltac:(lia) 1 page v adv Hok Hv ltac:(lia)) as (d & _ & E' & _).
    rewrite E' in E. injection E as <- <-. split; [done|]. split; [done|]. lia.
Qed.

(** [fsm_set_and_search] writes the one slot; what it finds is in the page. *)
Lemma set_and_search_spec rel a slot v vmin :
  rel_ok rel → valid a → (slot < SlotsPerFSMPage K)%nat → 0 <= v < 256 → 0 <= vmin →
  let '(r, rel') := fsm_set_and_search K rel a (Z.of_nat slot) v vmin in
  rel_ok rel' ∧
  (∀ a' s, valid a' → value rel' a' s = if decide (a' = a ∧ s = slot) then v else value rel a' s) ∧
  (trees_ok rel → trees_ok rel') ∧
  (r = -1 ∨ ∃ s, r = Z.of_nat s ∧ (s < SlotsPerFSMPage K)%nat ∧ vmin <= value rel' a s) ∧
  (vmin = 0 → r = -1).
Proof.
  intros H Hv Hs Hval Hmin. unfold fsm_set_and_search.
  pose proof (readbuf_extend rel a H Hv) as Hr. destruct (fsm_readbuf K rel a true) as [buf rel1].
  destruct Hr as (-> & H1 & Hp & Epg). rewrite Nat2Z.id.
  destruct (phys_spec a Hv) as [_ Hb]. assert (0 <= phys a < smgrnblocks rel1) as Hb' by (unfold has_page in Hp; lia).
  pose proof (set_avail_spec K ltac:(lia) (page_at K rel1 (phys a)) slot v
    (page_at_bytes _ _ H1) Hs Hval) as Hset.
  destruct (fsm_set_avail K (page_at K rel1 (phys a)) slot v) as [ch page]. destruct Hset as (Hpb & _ & Hav & _ & Hok).
  assert (trees_ok rel → trees_ok rel1) as Ht1. { intros Ht b. rewrite Epg. apply Ht. }
  assert (∀ p, (∀ s, fsm_get_avail K p s = fsm_get_avail K page s) → ∀ a' s, valid a' →
    value (set_page rel1 (phys a) p) a' s = if decide (a' = a ∧ s = slot) then v else value rel a' s) as Hvals.
  { intros p Ep a' s Hv'. unfold value. rewrite page_at_set_addr by done.
    destruct (decide (a' = a)) as [->|]; [|rewrite decide_False by naive_solver; by rewrite Epg].
    rewrite Ep, Hav. destruct (decide (s = slot)) as [->|].
    - by rewrite decide_True.
    - rewrite decide_False by naive_solver. by rewrite Epg. }
  destruct (Z.eqb_spec vmin 0); cbn [negb].
  - split; [by apply rel_ok_set|]. split; [by apply Hvals|]. split; [|split; [by left|done]].
    intros Ht. apply trees_ok_set; [done|by apply Ht1|]. apply Hok, Ht1, Ht.
  - pose proof (search_page_spec page vmin (level a =? FSM_BOTTOM_LEVEL) Hpb ltac:(lia)) as Hsr.
    destruct (search_page K page vmin _) as [r page']. destruct Hsr as [(Hpb' & Hsame & Hr) Hok'].
    assert (set_page (set_page rel1 (phys a) page) (phys a) page' = set_page rel1 (phys a) page') as ->.
    { unfold set_page. simpl. f_equal. apply list_insert_insert_eq. }
    split; [by apply rel_ok_set|]. split; [by apply Hvals|]. split; [|split; [|done]].
    + intros Ht. apply trees_ok_set; [done|by apply Ht1|]. apply Hok', Hok, Ht1, Ht.
    + destruct Hr as [[-> _]|(s & -> & Hs' & Hge)]; [by left|]. right. exists s.
      split; [done|]. split; [done|]. unfold value. rewrite page_at_set_addr, decide_True by done.
      by rewrite Hsame.
Qed.

(** ** Searching *)

Lemma refresh_pages rel b : page_at K (refresh rel b) = page_at K rel.
Proof. unfold refresh. by destruct (_ || _). Qed.

Lemma root_value_u8 rel a : rel_ok rel → 0 <= root_value rel a < 256.
Proof. intros H. apply (u8_at K ltac:(lia)), (page_at_bytes _ _ H). Qed.

Lemma root_value_missing rel a : ¬ has_page rel a → root_value rel a = 0.
Proof.
  intros H. unfold root_value, has_page in *. rewrite page_at_missing by lia.
  unfold fsm_get_max_avail, empty_page. cbn [fp_nodes]. rewrite word_at_replicate. by case_decide.
Qed.

(** The page search of the loop leaves every slot as it is. *)
Lemma search_at_spec rel a v :
  rel_ok rel → valid a → 0 < v →
  let '(r, m, rel') := search_at K rel a v in
  rel_ok rel' ∧ (∀ a' s, valid a' → value rel' a' s = value rel a' s) ∧
  0 <= m < 256 ∧
  (r = -1 ∨ ∃ s, r = Z.of_nat s ∧ (s < SlotsPerFSMPage K)%nat ∧ v <= value rel a s) ∧
  (trees_ok rel → trees_ok rel' ∧ (∀ a', valid a' → root_value rel' a' = root_value rel a') ∧
    (v <= root_value rel a → r ≠ -1)).
Proof.
  intros H Hv H0. destruct (phys_spec a Hv) as [_ Hb].
  destruct (refresh_spec rel (phys a) H ltac:(lia)) as (H1 & E1 & _ & _).
  assert (smgrnblocks (refresh rel (phys a)) = smgrnblocks rel) as Es by (unfold smgrnblocks; by rewrite E1).
  unfold search_at. rewrite readbuf_spec by done. rewrite refresh_pages.
  destruct (decide (has_page rel a)) as [Hp|Hp].
  2: { split; [done|]. split; [intros; unfold value; by rewrite refresh_pages|]. split; [lia|].
       split; [by left|]. intros Ht. split; [intros b; rewrite refresh_pages; apply Ht|].
       split; [intros; unfold root_value; by rewrite refresh_pages|]. rewrite root_value_missing by done. lia. }
  pose proof (search_page_spec (page_at K rel (phys a)) v (level a =? FSM_BOTTOM_LEVEL)
    (page_at_bytes _ _ H) H0) as Hsr.
  destruct (search_page K _ v _) as [r page]. destruct Hsr as [(Hpb & Hsame & Hr) Hok].
  assert (has_page (refresh rel (phys a)) a) as Hp1 by (unfold has_page in *; by rewrite Es).
  split; [by apply rel_ok_set|]. split; [|split; [|split]].
  - intros a' s Hv'. unfold value. rewrite page_at_set_addr, refresh_pages by done.
    case_decide as D0; [|done]. by rewrite Hsame, D0.
  - destruct (r =? -1); [apply (u8_at K ltac:(lia)), Hpb|lia].
  - destruct Hr as [[-> _]|Hr]; [by left|by right].
  - intros Ht. specialize (Hok (Ht _)) as (Hok & En & Hfound). split; [|split; [|done]].
    + apply trees_ok_set; [unfold has_page in Hp1; lia|intros b; rewrite refresh_pages; apply Ht|done].
    + intros a' Hv'. unfold root_value. rewrite page_at_set_addr, refresh_pages by done.
      case_decide as D0; [|done]. unfold fsm_get_max_avail. by rewrite En, D0.
Qed.

(** A block found at the bottom level. *)
Definition found (rel : Rel) (v r : Z) : Prop :=
  ∃ p s, valid (MkFSMAddress 0 p) ∧ (s < SlotsPerFSMPage K)%nat ∧
    v <= value rel (MkFSMAddress 0 p) s ∧ r = fsm_get_heap_blk K (MkFSMAddress 0 p) (Z.of_nat s).

(** The same bottom level. *)
Definition same_leaves (rel rel' : Rel) : Prop :=
  ∀ p s, valid (MkFSMAddress 0 p) → value rel' (MkFSMAddress 0 p) s = value rel (MkFSMAddress 0 p) s.

Lemma same_leaves_trans rel1 rel2 rel3 : same_leaves rel1 rel2 → same_leaves rel2 rel3 → same_leaves rel1 rel3.
Proof. intros H1 H2 p s Hv. rewrite H2 by done. by apply H1. Qed.

Lemma found_same rel rel' v r : same_leaves rel rel' → found rel' v r → found rel v r.
Proof. intros Hs (p & s & Hv & Hs' & Hval & E). exists p, s. by rewrite Hs in Hval. Qed.

Lemma root_valid : valid (FSM_ROOT_ADDRESS K).
Proof.
  pose proof depth_enough as (_ & HD & _). unfold FSM_ROOT_ADDRESS, FSM_ROOT_LEVEL.
  split; simpl; [lia|]. split; [lia|]. apply pow_S_pos. lia.
Qed.

(** The search ends within the 10,001 restarts the valve allows. *)
Lemma search_loop_ends fuel rel v restarts a :
  rel_ok rel → valid a → 0 < v → 0 <= restarts <= 10001 →
  level a + 1 + (10001 - restarts) * D <= Z.of_nat fuel →
  ∃ r rel', fsm_search_loop K fuel rel v restarts a = Some (r, rel') ∧
    rel_ok rel' ∧ same_leaves rel rel' ∧ (trees_ok rel → trees_ok rel') ∧
    (r = InvalidBlockNumber ∨ found rel v r).
Proof.
  revert rel restarts a. induction fuel as [|fuel IH]; intros rel restarts a H Hv H0 Hr Hf.
  { pose proof depth_enough as (_ & HD & _). destruct Hv as ((?&?)&_). nia. }
  cbn [fsm_search_loop]. pose proof (search_at_spec rel a v H Hv H0) as Hs.
  destruct (search_at K rel a v) as [[r m] rel1]. destruct Hs as (H1 & Hval & Hm & Hr1 & Ht1).
  assert (same_leaves rel rel1) as Hsame by (intros p s Hp; by apply Hval).
  destruct (Z.eqb_spec r (-1)) as [->|Hne]; cbn [negb].
  - destruct (Z.eqb_spec (level a) (FSM_ROOT_LEVEL K)) as [|Hlev].
    { eexists _, _. split; [done|]. split; [done|]. split; [done|]. split; [|by left]. intros Ht. apply Ht1, Ht. }
    unfold FSM_ROOT_LEVEL in Hlev. destruct (parent_spec a Hv) as [-> Hvp]; [destruct Hv; lia|].
    pose proof (set_and_search_spec rel1 _ (slot_of (logpageno a)) m 0 H1 Hvp (slot_of_lt _) Hm ltac:(lia)) as Hset.
    destruct (fsm_set_and_search K rel1 _ _ m 0) as [r2 rel2]. destruct Hset as (H2 & Hval2 & Ht2 & _).
    assert (same_leaves rel rel2) as Hsame2.
    { apply (same_leaves_trans _ rel1); [done|]. intros p s Hp. rewrite Hval2 by done.
      rewrite decide_False; [done|]. intros [[=] _]. destruct Hv. lia. }
    destruct (Z.ltb_spec 10000 restarts).
    { eexists _, _. split; [done|]. split; [done|]. split; [done|]. split; [|by left]. intros Ht. apply Ht2, Ht1, Ht. }
    destruct (IH rel2 (restarts + 1) (FSM_ROOT_ADDRESS K)) as (r3 & rel3 & -> & Hok3 & Hsame3 & Ht3 & Hf3);
      [done|apply root_valid|done|lia|..].
    { unfold FSM_ROOT_ADDRESS, FSM_ROOT_LEVEL. simpl. destruct Hv. lia. }
    eexists _, _. split; [done|]. split; [done|]. split; [by apply (same_leaves_trans _ rel2)|].
    split; [intros Ht; apply Ht3, Ht2, Ht1, Ht|]. destruct Hf3; [by left|]. right. by apply (found_same _ rel2).
  - destruct Hr1 as [->|(s & -> & Hs & Hge)]; [done|]. unfold FSM_BOTTOM_LEVEL.
    destruct (Z.eqb_spec (level a) 0) as [El|Hlev].
    + eexists _, _. split; [done|]. split; [done|]. split; [done|]. split; [intros Ht; apply Ht1, Ht|].
      right. destruct a as [l p]. simpl in El. subst l. by exists p, s.
    + destruct (child_spec a s Hv) as [-> Hvc]; [destruct Hv; lia|done|].
      destruct (IH rel1 restarts _ H1 Hvc H0 Hr) as (r3 & rel3 & -> & Hok3 & Hsame3 & Ht3 & Hf3); [simpl; lia|].
      eexists _, _. split; [done|]. split; [done|]. split; [by apply (same_leaves_trans _ rel1)|].
      split; [intros Ht; apply Ht3, Ht1, Ht|]. destruct Hf3; [by left|]. right. by apply (found_same _ rel1).
Qed.

(** A slot above the bottom level holds the root of the page below it. *)
Definition linked_at (rel : Rel) (a : FSMAddress) : Prop :=
  ∀ s, (s < SlotsPerFSMPage K)%nat →
    value rel a s = root_value rel (MkFSMAddress (level a - 1) (logpageno a * S + Z.of_nat s)).
Definition linked (rel : Rel) : Prop := ∀ a, valid a → 0 < level a → linked_at rel a.

Lemma linked_search_at rel a v :
  rel_ok rel → valid a → 0 < v → trees_ok rel → linked rel → linked (search_at K rel a v).2.
Proof.
  intros H Hv H0 Ht Hl. pose proof (search_at_spec rel a v H Hv H0) as Hs.
  destruct (search_at K rel a v) as [[r m] rel1]. destruct Hs as (_ & Hval & _ & _ & Hs).
  destruct (Hs Ht) as (_ & Hroot & _). intros a' Hv' H0' s Hs'. simpl. destruct (child_spec a' s Hv' H0' Hs') as [_ Hc].
  rewrite Hval, Hroot by done. by apply Hl.
Qed.

(** On a linked map the search goes straight down. *)
Lemma search_loop_finds fuel rel v restarts a :
  rel_ok rel → trees_ok rel → linked rel → valid a → 0 < v → v <= root_value rel a →
  level a + 1 <= Z.of_nat fuel →
  ∃ r rel', fsm_search_loop K fuel rel v restarts a = Some (r, rel') ∧ found rel v r.
Proof.
  revert rel a. induction fuel as [|fuel IH]; intros rel a H Ht Hl Hv H0 Hge Hf; [destruct Hv; lia|].
  cbn [fsm_search_loop]. pose proof (search_at_spec rel a v H Hv H0) as Hs.
  pose proof (linked_search_at rel a v H Hv H0 Ht Hl) as Hl1.
  destruct (search_at K rel a v) as [[r m] rel1]. destruct Hs as (H1 & Hval & _ & Hr1 & Hs).
  destruct (Hs Ht) as (Ht1 & Hroot & Hfound). specialize (Hfound Hge).
  destruct (Z.eqb_spec r (-1)) as [|_]; [done|]; cbn [negb].
  destruct Hr1 as [|(s & -> & Hs' & Hge')]; [done|]. unfold FSM_BOTTOM_LEVEL.
  destruct (Z.eqb_spec (level a) 0) as [El|Hlev].
  - eexists _, _. split; [done|]. destruct a as [l p]. simpl in El. subst l. by exists p, s.
  - assert (0 < level a) as Hlev' by (destruct Hv; lia).
    destruct (child_spec a s Hv Hlev' Hs') as [-> Hvc].
    destruct (IH rel1 _ H1 Ht1 Hl1 Hvc H0) as (r3 & rel3 & -> & Hf3).
    + rewrite Hroot by done. by rewrite <- (Hl a Hv Hlev' s Hs').
    + simpl. lia.
    + eexists _, _. split; [done|]. apply (found_same _ rel1); [|done]. intros p' s' Hp. by apply Hval.
Qed.

(** In a tree of maxima no slot is above the root. *)
Lemma value_le_root rel a s : trees_ok rel → (s < SlotsPerFSMPage K)%nat → value rel a s <= root_value rel a.
Proof.
  intros Ht Hs. destruct (Ht (phys a)) as [[Hl Hu] Hok]. unfold value, root_value, fsm_get_avail, fsm_get_max_avail.
  apply (leaf_below_root K ltac:(lia)); [done..|].
  destruct (sizes K ltac:(lia)) as (_ & _ & ? & ? & ?). unfold SlotsPerFSMPage in Hs. lia.
Qed.

(** ... so in a linked map the root of the root page is above every slot. *)
Lemma value_le_top n rel a s :
  trees_ok rel → linked rel → valid a → (s < SlotsPerFSMPage K)%nat → level a + Z.of_nat n = D - 1 →
  value rel a s <= root_value rel (FSM_ROOT_ADDRESS K).
Proof.
  revert a s. induction n as [|n IH]; intros a s Ht Hl Hv Hs En.
  - rewrite <- (root_unique a Hv ltac:(lia)). by apply value_le_root.
  - destruct (parent_spec a Hv ltac:(lia)) as [_ Hvp]. pose proof Hv as (Hla & Hp).
    etransitivity; [by apply value_le_root|].
    pose proof (Hl _ Hvp ltac:(simpl; lia) (slot_of (logpageno a)) (slot_of_lt _)) as E. simpl in E.
    assert (MkFSMAddress (level a + 1 - 1) (logpageno a / S * S + Z.of_nat (slot_of (logpageno a))) = a) as Ea.
    { destruct a as [l p]. unfold slot_of. simpl in *. pose proof (Z.mod_pos_bound p S S_pos).
      rewrite Z2Nat.id by lia. f_equal; [lia|]. pose proof S_pos. pose proof (Z.div_mod p S). lia. }
    rewrite Ea in E. rewrite <- E. apply IH; simpl; try done; [apply slot_of_lt|lia].
Qed.

(** ** Vacuuming *)

(** [a] is in the tree whose root page is number [p] of level [l]. *)
Definition below (a : FSMAddress) (l p : Z) : Prop :=
  level a <= l ∧ logpageno a / S ^ (l - level a) = p.

Lemma below_refl l p : below (MkFSMAddress l p) l p.
Proof. split; simpl; [lia|]. by rewrite Z.sub_diag, Z.pow_0_r, Z.div_1_r. Qed.

Lemma below_up a l p :
  level a <= l → (below a (l + 1) p ↔ below a l (logpageno a / S ^ (l - level a)) ∧ logpageno a / S ^ (l - level a) / S = p).
Proof.
  intros Hl. pose proof S_pos. pose proof (pow_S_pos (l - level a) ltac:(lia)). unfold below.
  replace (l + 1 - level a) with (Z.succ (l - level a)) by lia. rewrite Z.pow_succ_r by lia.
  rewrite (Z.mul_comm S), <- Z.div_div by lia. split; [intros [_ E]; split; [split; [lia|done]|done]|].
  intros [_ E]. split; [lia|done].
Qed.

Lemma below_child a l p s :
  0 <= Z.of_nat s < S → below a l (p * S + Z.of_nat s) → below a (l + 1) p.
Proof.
  intros Hs [Hl E]. apply below_up; [done|]. rewrite E. split; [by split|].
  rewrite Z.div_add_l, Z.div_small by lia. lia.
Qed.

Lemma below_cases a l p :
  valid a → below a (l + 1) p →
  a = MkFSMAddress (l + 1) p ∨ ∃ s, (s < SlotsPerFSMPage K)%nat ∧ below a l (p * S + Z.of_nat s).
Proof.
  intros Hv [Hl E]. destruct (Z.eq_dec (level a) (l + 1)) as [El|Hne].
  - left. destruct a as [la pa]. simpl in *. subst la. by rewrite Z.sub_diag, Z.pow_0_r, Z.div_1_r in E; subst.
  - right. assert (below a (l + 1) p) as Hb by done. apply below_up in Hb as [Hb <-]; [|lia].
    set (q := logpageno a / S ^ (l - level a)) in *. exists (slot_of q). split; [apply slot_of_lt|].
    pose proof (Z.mod_pos_bound q S S_pos). pose proof S_pos. unfold slot_of. rewrite Z2Nat.id by lia.
    pose proof (Z.div_mod q S ltac:(lia)). by replace (q / S * S + q mod S) with q by lia.
Qed.

Lemma phys_below a l p : valid a → valid (MkFSMAddress l p) → below a l p → phys (MkFSMAddress l p) <= phys a.
Proof.
  intros Hva Hv [Hl E]. pose proof Hva as (Hla & Hpa).
  assert (first_leaf (MkFSMAddress l p) <= first_leaf a) as Hle.
  { unfold first_leaf. simpl. pose proof (pow_S_pos (l - level a) ltac:(lia)). pose proof (pow_S_pos (level a) ltac:(lia)).
    replace l with ((l - level a) + level a) at 1 by lia. rewrite Z.pow_add_r by lia.
    pose proof (Z.mul_div_le (logpageno a) (S ^ (l - level a)) ltac:(lia)). rewrite E in *. nia. }
  destruct (Z.lt_ge_cases (first_leaf (MkFSMAddress l p)) (first_leaf a)).
  - pose proof (phys_lt _ _ Hv Hva ltac:(done)). lia.
  - destruct (phys_spec a Hva) as [-> _]. destruct (phys_spec _ Hv) as [-> _]. simpl.
    replace (first_leaf a) with (first_leaf (MkFSMAddress l p)) by lia. lia.
Qed.

(** A page that is missing has nothing below it ... *)
Lemma below_missing rel a l p :
  valid a → valid (MkFSMAddress l p) → below a l p → ¬ has_page rel (MkFSMAddress l p) → ¬ has_page rel a.
Proof. intros Hva Hv Hb Hp. pose proof (phys_below a l p Hva Hv Hb). unfold has_page in *. lia. Qed.

Lemma child_below a s :
  valid a → (s < SlotsPerFSMPage K)%nat → ∀ l p, below a l p → below (MkFSMAddress (level a - 1) (logpageno a * S + Z.of_nat s)) l p.
Proof.
  intros Hv Hs l p [Hl E]. pose proof S_pos. assert (Z.of_nat s < S) by (unfold Slots; lia).
  split; simpl; [lia|]. replace (l - (level a - 1)) with (Z.succ (l - level a)) by lia.
  pose proof (pow_S_pos (l - level a) ltac:(lia)).
  rewrite Z.pow_succ_r, <- Z.div_div by lia. rewrite Z.div_add_l, (Z.div_small (Z.of_nat s)), Z.add_0_r by lia. done.
Qed.

Lemma linked_missing rel a : valid a → 0 < level a → ¬ has_page rel a → linked_at rel a.
Proof.
  intros Hv H0 Hp s Hs. destruct (child_spec a s Hv H0 Hs) as [_ Hvc].
  rewrite root_value_missing.
  - unfold value. unfold has_page in Hp. rewrite page_at_missing by lia.
    unfold fsm_get_avail, empty_page. cbn [fp_nodes]. rewrite word_at_replicate. by case_decide.
  - destruct a as [l p]. eapply below_missing; [done|exact Hv| |done]. apply child_below; [done..|]. apply below_refl.
Qed.

(** ... and no later sibling. *)
Lemma sibling_missing rel l p s t :
  valid (MkFSMAddress l (p * S + Z.of_nat s)) → valid (MkFSMAddress l (p * S + Z.of_nat t)) → (s < t)%nat →
  ¬ has_page rel (MkFSMAddress l (p * S + Z.of_nat s)) → ¬ has_page rel (MkFSMAddress l (p * S + Z.of_nat t)).
Proof.
  intros Hs Ht Hlt Hp. unfold has_page in *. pose proof (phys_lt _ _ Hs Ht) as H. unfold first_leaf in H. simpl in H.
  destruct Hs as (Hl & _). simpl in Hl. pose proof (pow_S_pos l ltac:(lia)). specialize (H ltac:(nia)). lia.
Qed.

Lemma linked_at_ext rel rel' a :
  valid a → 0 < level a → page_at K rel' (phys a) = page_at K rel (phys a) →
  (∀ s, (s < SlotsPerFSMPage K)%nat →
    let c := phys (MkFSMAddress (level a - 1) (logpageno a * S + Z.of_nat s)) in page_at K rel' c = page_at K rel c) →
  linked_at rel a → linked_at rel' a.
Proof.
  intros Hv H0 E Hc Hl s Hs. unfold value, root_value. rewrite E, (Hc s Hs). by apply Hl.
Qed.

(** The tree below page [p] of level [l] is linked, the rest is as before. *)
Record vacuumed (l p : Z) (rel rel' : Rel) : Prop := MkVacuumed {
  vac_ok : rel_ok rel';
  vac_size : smgrnblocks rel' = smgrnblocks rel;
  vac_frame : ∀ a, valid a → ¬ below a l p → page_at K rel' (phys a) = page_at K rel (phys a);
  vac_leaves : same_leaves rel rel';
  vac_trees : trees_ok rel → trees_ok rel';
  vac_linked : ∀ a, valid a → below a l p → 0 < level a → linked_at rel' a }.

Lemma vacuumed_missing l p rel :
  rel_ok rel → valid (MkFSMAddress l p) → ¬ has_page rel (MkFSMAddress l p) → vacuumed l p rel rel.
Proof.
  intros H Hv Hp. split; try done. intros a Hva Hb H0. apply linked_missing; [done..|].
  by apply (below_missing rel a l p).
Qed.

Lemma vacuumed_refresh l p rel rel' b :
  rel_ok rel → 0 <= b → vacuumed l p (refresh rel b) rel' → vacuumed l p rel rel'.
Proof.
  intros H Hb [H1 H2 H3 H4 H5 H6]. destruct (refresh_spec rel b H Hb) as (_ & E & _).
  split; try done.
  - rewrite H2. unfold smgrnblocks. by rewrite E.
  - intros a Ha Hn. rewrite H3, refresh_pages by done. done.
  - intros q s Hq. rewrite H4 by done. unfold value. by rewrite refresh_pages.
  - intros Ht. apply H5. intros c. rewrite refresh_pages. apply Ht.
Qed.

(** The loop over the children of page [p] of level [l + 1], after [n] slots. *)
Record vac_loop (l p : Z) (rel : Rel) (n : nat) (st : bool * Rel) : Prop := MkVacLoop {
  vl_ok : rel_ok st.2;
  vl_size : smgrnblocks st.2 = smgrnblocks rel;
  vl_frame : ∀ a, valid a → ¬ below a (l + 1) p → page_at K st.2 (phys a) = page_at K rel (phys a);
  vl_leaves : same_leaves rel st.2;
  vl_trees : trees_ok rel → trees_ok st.2;
  vl_slots : ∀ i, (i < n)%nat →
    value st.2 (MkFSMAddress (l + 1) p) i = root_value st.2 (MkFSMAddress l (p * S + Z.of_nat i));
  vl_linked : ∀ i a, (i < n)%nat → valid a → below a l (p * S + Z.of_nat i) → 0 < level a → linked_at st.2 a;
  vl_eof : st.1 = true → ∃ j, (j < n)%nat ∧ ¬ has_page rel (MkFSMAddress l (p * S + Z.of_nat j)) }.

(** The page's slot is brought up to date. *)
Lemma vac_update rel a n m :
  rel_ok rel → valid a → has_page rel a → (n < SlotsPerFSMPage K)%nat → 0 <= m < 256 →
  let rel' := if negb (fsm_get_avail K (page_at K rel (phys a)) n =? m)
    then set_page rel (phys a) (snd (fsm_set_avail K (page_at K rel (phys a)) n m)) else rel in
  rel_ok rel' ∧ smgrnblocks rel' = smgrnblocks rel ∧ (trees_ok rel → trees_ok rel') ∧
  (∀ s, value rel' a s = if decide (s = n) then m else value rel a s) ∧
  (∀ a', valid a' → a' ≠ a → page_at K rel' (phys a') = page_at K rel (phys a')).
Proof.
  intros H Hv Hp Hn Hm. destruct (phys_spec a Hv) as [_ Hb].
  destruct (Z.eqb_spec (fsm_get_avail K (page_at K rel (phys a)) n) m) as [E|E]; cbn [negb].
  - split; [done|]. split; [done|]. split; [done|]. split; [|done]. intros s. case_decide; [|done]. by subst.
  - pose proof (set_avail_spec K ltac:(lia) (page_at K rel (phys a)) n m (page_at_bytes _ _ H) Hn Hm) as Hset.
    destruct (fsm_set_avail K _ n m) as [ch page]. cbn [snd]. destruct Hset as (Hpb & _ & Hav & _ & Hok).
    split; [by apply rel_ok_set|]. split; [unfold smgrnblocks; simpl; by rewrite length_insert|].
    split; [|split].
    + intros Ht. apply trees_ok_set; [unfold has_page in Hp; lia|done|]. apply Hok, Ht.
    + intros s. unfold value at 1. rewrite page_at_set_addr, decide_True by done. apply Hav.
    + intros a' Hv' Hne. by rewrite page_at_set_addr, decide_False by done.
Qed.

(** One round of the loop: the child [n] vacuumed, then its slot updated. *)
Lemma vac_step l p rel n eof rel1 rel2 m eof' :
  0 <= l → valid (MkFSMAddress (l + 1) p) → has_page rel (MkFSMAddress (l + 1) p) → (n < SlotsPerFSMPage K)%nat →
  vac_loop l p rel n (eof, rel1) →
  vacuumed l (p * S + Z.of_nat n) rel1 rel2 → m = root_value rel2 (MkFSMAddress l (p * S + Z.of_nat n)) →
  (eof' = true → ¬ has_page rel1 (MkFSMAddress l (p * S + Z.of_nat n))) →
  let b := phys (MkFSMAddress (l + 1) p) in
  vac_loop l p rel (n + 1) (eof', if negb (fsm_get_avail K (page_at K rel2 b) n =? m)
    then set_page rel2 b (snd (fsm_set_avail K (page_at K rel2 b) n m)) else rel2).
Proof.
  intros Hl Hv Hp Hn [L1 L2 L3 L4 L5 L6 L7 L8] [V1 V2 V3 V4 V5 V6] Em Heof b.
  set (a := MkFSMAddress (l + 1) p) in *. cbn [fst snd] in *.
  assert (has_page rel2 a) as Hp2 by (unfold has_page in *; lia).
  destruct (vac_update rel2 a n m V1 Hv Hp2 Hn ltac:(subst m; by apply root_value_u8)) as (U1 & U2 & U3 & U4 & U5).
  fold b in U1, U2, U3, U4, U5. set (rel3 := if negb _ then _ else rel2) in *.
  assert (∀ i, (i < SlotsPerFSMPage K)%nat → valid (MkFSMAddress l (p * S + Z.of_nat i))) as Hvc.
  { intros i Hi. destruct (child_spec a i Hv ltac:(simpl; lia) Hi) as [_ Hc]. simpl in Hc.
    by replace (l + 1 - 1) with l in Hc by lia. }
  assert (∀ a' i, below a' l (p * S + Z.of_nat i) → a' ≠ a) as Hna by (intros a' i [Hle _] ->; simpl in Hle; lia).
  (* pages below an earlier child are as they were before this round *)
  assert (∀ a' i, (i < n)%nat → valid a' → below a' l (p * S + Z.of_nat i) →
    page_at K rel3 (phys a') = page_at K rel1 (phys a')) as Hold.
  { intros a' i Hi Hv' Hb'. rewrite U5 by (try done; by eapply Hna). apply V3; [done|].
    intros [_ E]. destruct Hb' as [_ E']. lia. }
  split; cbn [fst snd]; [done|congruence|..].
  - intros a' Hv' Hb'. rewrite U5; [|done|intros ->; by apply Hb', below_refl]. rewrite V3; [by apply L3|done|].
    intros Hb2. apply Hb'. apply (below_child a' l p n); [unfold Slots; lia|done].
  - intros q s Hq. unfold value. rewrite U5 by (try done; unfold a; intros [=]; lia). fold (value rel2 (MkFSMAddress 0 q) s).
    rewrite V4 by done. by apply L4.
  - intros Ht. by apply U3, V5, L5.
  - intros i Hi. rewrite U4. case_decide as Di.
    + subst i m. unfold root_value. rewrite U5; [done|by apply Hvc|]. eapply Hna, below_refl.
    + unfold root_value. rewrite (Hold _ i); [|lia|by apply Hvc; lia|apply below_refl].
      unfold value. rewrite V3; [apply L6; lia|done|]. intros [Hle _]. simpl in Hle. lia.
  - intros i a' Hi Hv' Hb' H0. destruct (decide (i = n)) as [->|Hne].
    + apply (linked_at_ext rel2); [done|done|rewrite U5; [done|done|by eapply Hna]| |by apply V6].
      intros s Hs c. apply U5; [apply (child_spec a' s Hv' H0 Hs)|]. eapply Hna, child_below; done.
    + apply (linked_at_ext rel1); [done|done|apply (Hold _ i); [lia|done|done]| |apply (L7 i); [lia|done..]].
      intros s Hs c. apply (Hold _ i); [lia|apply (child_spec a' s Hv' H0 Hs)|]. by apply child_below.
  - intros E. exists n. split; [lia|]. unfold has_page in *. rewrite <- L2. by apply Heof.
Qed.

(** Clearing the next slot of a page changes no slot. *)
Lemma vacuumed_reset l p rel rel' a :
  valid a → has_page rel' a → below a l p → vacuumed l p rel rel' →
  vacuumed l p rel (set_page rel' (phys a) (MkFSMPage 0 (fp_nodes (page_at K rel' (phys a))))) ∧
  root_value (set_page rel' (phys a) (MkFSMPage 0 (fp_nodes (page_at K rel' (phys a))))) a = root_value rel' a.
Proof.
  intros Hv Hp Hb [V1 V2 V3 V4 V5 V6]. set (rel2 := set_page _ _ _).
  assert (∀ a', valid a' → fp_nodes (page_at K rel2 (phys a')) = fp_nodes (page_at K rel' (phys a'))) as E.
  { intros a' Hv'. unfold rel2. rewrite page_at_set_addr by done. case_decide; [by subst|done]. }
  assert (∀ a' s, valid a' → value rel2 a' s = value rel' a' s) as Ev.
  { intros a' s Hv'. unfold value, fsm_get_avail. by rewrite E. }
  assert (∀ a', valid a' → root_value rel2 a' = root_value rel' a') as Er.
  { intros a' Hv'. unfold root_value, fsm_get_max_avail. by rewrite E. }
  split; [|by apply Er]. split.
  - apply rel_ok_set; [done|]. apply (page_at_bytes rel' (phys a) V1).
  - unfold rel2, smgrnblocks. simpl. by rewrite length_insert.
  - intros a' Hv' Hn. unfold rel2. rewrite page_at_set_addr, decide_False by (try done; by intros ->). by apply V3.
  - intros q s Hq. rewrite Ev by done. by apply V4.
  - intros Ht. destruct (phys_spec a Hv) as [_ Hb']. apply trees_ok_set; [unfold has_page in Hp; lia|by apply V5|].
    apply (V5 Ht (phys a)).
  - intros a' Hv' Hb' H0 s Hs. rewrite Ev by done. rewrite Er; [by apply V6|]. apply (child_spec a' s Hv' H0 Hs).
Qed.

(** The loop of [fsm_vacuum_page] over the children of a page. *)
Lemma vac_loop_done l p rel st :
  0 <= l → valid (MkFSMAddress (l + 1) p) → vac_loop l p rel (SlotsPerFSMPage K) st →
  vacuumed (l + 1) p rel st.2.
Proof.
  intros Hl Hv [L1 L2 L3 L4 L5 L6 L7 L8]. split; try done.
  intros a Hva Hb H0. destruct (below_cases a l p Hva Hb) as [->|(s & Hs & Hb')]; [|by apply (L7 s)].
  intros s Hs. simpl. replace (l + 1 - 1) with l by lia. by apply L6.
Qed.

Definition vacuum_spec (l : nat) : Prop := ∀ rel p,
  rel_ok rel → valid (MkFSMAddress (Z.of_nat l) p) →
  let '(m, eof, rel') := fsm_vacuum_page K l rel p in
  vacuumed (Z.of_nat l) p rel rel' ∧ m = root_value rel' (MkFSMAddress (Z.of_nat l) p) ∧
  (eof = true → ¬ has_page rel (MkFSMAddress (Z.of_nat l) p)).

Lemma vac_loop_run l rel p :
  vacuum_spec l → rel_ok rel → let a := MkFSMAddress (Z.of_nat l + 1) p in valid a → has_page rel a →
  vacuumed (Z.of_nat l + 1) p rel
    (for_up 0 (SlotsPerFSMPage K) (vacuum_child K (fsm_vacuum_page K l) a (phys a)) (false, rel)).2.
Proof.
  intros IH H a Hv Hp. apply vac_loop_done; [lia|done|].
  apply (for_up_invariant (vac_loop (Z.of_nat l) p rel) 0 (SlotsPerFSMPage K)); [split; try done; intros; lia|].
  intros n [eof r1] Hn HI. replace (Datatypes.S n) with (n + 1)%nat by lia. unfold vacuum_child.
  pose proof (child_spec a n Hv ltac:(simpl; lia) ltac:(lia)) as [-> Hvc]. cbn [logpageno level a] in *.
  replace (Z.of_nat l + 1 - 1) with (Z.of_nat l) in Hvc by lia.
  destruct eof.
  - destruct (vl_eof _ _ _ _ _ HI eq_refl) as (j & Hj & Hmiss).
    assert (¬ has_page r1 (MkFSMAddress (Z.of_nat l) (p * S + Z.of_nat n))) as Hm.
    { pose proof (vl_size _ _ _ _ _ HI) as Es. cbn [snd] in Es. unfold has_page. rewrite Es.
      apply (sibling_missing rel _ p j n); try done.
      pose proof (child_spec a j Hv ltac:(simpl; lia) ltac:(lia)) as [_ Hvj]. simpl in Hvj.
      by replace (Z.of_nat l + 1 - 1) with (Z.of_nat l) in Hvj by lia. }
    apply (vac_step _ _ rel n true r1 r1); [lia|done|done|lia|done|..].
    + apply vacuumed_missing; [apply (vl_ok _ _ _ _ _ HI)|done|done].
    + by rewrite root_value_missing.
    + done.
  - pose proof (IH r1 _ (vl_ok _ _ _ _ _ HI) Hvc) as Hvac.
    destruct (fsm_vacuum_page K l r1 _) as [[m eof'] r2]. destruct Hvac as (Hvac & Em & Heof).
    apply (vac_step _ _ rel n false r1 r2); [lia|done|done|lia|done..].
Qed.

Lemma vacuum_page_spec l : vacuum_spec l.
Proof.
  induction l as [|l IH]; intros rel p H Hv; cbn [fsm_vacuum_page]; rewrite readbuf_spec by done;
    match type of Hv with valid ?a0 => set (a := a0) in * end;
    destruct (phys_spec a Hv) as [_ Hb]; pose proof (refresh_spec rel (phys a) H ltac:(lia)) as (H1 & E1 & _);
    assert (smgrnblocks (refresh rel (phys a)) = smgrnblocks rel) as Es by (unfold smgrnblocks; by rewrite E1);
    assert (has_page (refresh rel (phys a)) a ↔ has_page rel a) as Eh by (unfold has_page; by rewrite Es);
    destruct (decide (has_page rel a)) as [Hp|Hp].
  2, 4: split; [apply (vacuumed_refresh _ _ _ _ (phys a)); [done|lia|]; apply vacuumed_missing; [done|done|fold a; by rewrite Eh]|];
    split; [symmetry; apply root_value_missing; fold a; by rewrite Eh|done].
  - destruct (vacuumed_reset 0 p (refresh rel (phys a)) (refresh rel (phys a)) a Hv) as [Hvac Hroot];
      [by apply Eh|apply below_refl|split; try done; intros a' (Hla & _) [Hle _] H0; simpl in *; lia|].
    split; [|split; [by rewrite Hroot|done]]. apply (vacuumed_refresh _ _ _ _ (phys a)); [done|lia|done].
  - apply Eh in Hp. assert (a = MkFSMAddress (Z.of_nat l + 1) p) as Ea by (unfold a; f_equal; lia).
    replace (Z.of_nat (Datatypes.S l)) with (Z.of_nat l + 1) by lia.
    assert (vacuumed (Z.of_nat l + 1) p (refresh rel (phys a))
      (for_up 0 (SlotsPerFSMPage K) (vacuum_child K (fsm_vacuum_page K l) a (phys a)) (false, refresh rel (phys a))).2) as Hloop.
    { rewrite Ea in *. by apply vac_loop_run. }
    destruct (λ Hp Hb, vacuumed_reset _ p _ _ a Hv Hp Hb Hloop) as [Hvac Hroot];
      [unfold has_page in *; by rewrite (vac_size _ _ _ _ Hloop)|rewrite Ea; apply below_refl|].
    split; [|split; [by rewrite Hroot|done]]. apply (vacuumed_refresh _ _ _ _ (phys a)); [done|lia|done].
Qed.

(** Every address is below the root. *)
Lemma below_root a : valid a → below a (FSM_ROOT_LEVEL K) 0.
Proof.
  intros (Hl & Hp). unfold FSM_ROOT_LEVEL. split; [lia|]. by apply Z.div_small.
Qed.

(** ** The categories recorded for the blocks *)

Definition recorded (rel : Rel) (b : Z) : Z := value rel (addr_of b) (slot_of b).

Lemma recorded_same rel rel' b : is_block b → same_leaves rel rel' → recorded rel' b = recorded rel b.
Proof. intros Hb H. apply H. by apply valid_addr_of. Qed.

Lemma loc_inj b c : is_block b → is_block c → addr_of b = addr_of c → slot_of b = slot_of c → b = c.
Proof.
  intros Hb Hc [= E] Es. unfold slot_of in Es. pose proof S_pos.
  pose proof (Z.mod_pos_bound b S S_pos). pose proof (Z.mod_pos_bound c S S_pos).
  pose proof (Z.div_mod b S ltac:(lia)). pose proof (Z.div_mod c S ltac:(lia)).
  assert (b mod S = c mod S) by lia. rewrite E in *. lia.
Qed.

(** Only slots of blocks are in use. *)
Definition in_range (rel : Rel) : Prop := ∀ p s,
  valid (MkFSMAddress 0 p) → (s < SlotsPerFSMPage K)%nat → 0 < value rel (MkFSMAddress 0 p) s →
  is_block (p * S + Z.of_nat s).

Record fsm_inv (rel : Rel) : Prop := MkFsmInv {
  inv_rel : rel_ok rel;
  inv_trees : trees_ok rel;
  inv_range : in_range rel }.

Lemma in_range_same rel rel' : in_range rel → same_leaves rel rel' → in_range rel'.
Proof. intros H Hs p s Hv Hs' Hpos. rewrite Hs in Hpos by done. by apply H. Qed.

(** What the search finds is a block with at least the category asked for. *)
Lemma found_block rel v r : in_range rel → 0 < v → found rel v r → is_block r ∧ v <= recorded rel r.
Proof.
  intros H H0 (p & s & Hv & Hs & Hval & ->).
  assert (is_block (p * S + Z.of_nat s)) as Hb by (apply H; [done|done|lia]).
  destruct (heap_blk_spec p s ltac:(destruct Hv; simpl in *; lia) Hs Hb) as (E1 & E2 & E3). cbn zeta in *.
  split; [by rewrite E1|]. unfold recorded. by rewrite E2, E3.
Qed.

Lemma record_values rel rel' b v :
  is_block b → (∀ a s, valid a → value rel' a s = if decide (a = addr_of b ∧ s = slot_of b) then v else value rel a s) →
  (∀ c, is_block c → recorded rel' c = if decide (c = b) then v else recorded rel c) ∧
  (in_range rel → in_range rel').
Proof.
  intros Hb H. split.
  - intros c Hc. unfold recorded. rewrite H by by apply valid_addr_of. case_decide as D1; case_decide as D2; try done.
    + destruct D1 as [E1 E2]. by destruct D2; apply loc_inj.
    + subst c. by destruct D1.
  - intros Hr p s Hp Hs Hpos. rewrite H in Hpos by done. case_decide as D1; [|by apply Hr].
    destruct D1 as [[= ->] ->]. unfold slot_of. pose proof S_pos. pose proof (Z.mod_pos_bound b S S_pos).
    rewrite Z2Nat.id by lia. pose proof (Z.div_mod b S ltac:(lia)). by replace (b / S * S + b mod S) with b by lia.
Qed.

(** ** Truncation *)

Lemma page_at_truncate rel m b :
  0 <= b → 0 <= m →
  page_at K (set_nblocks (smgrtruncate rel m) m) b = if decide (b < m) then page_at K rel b else empty_page K.
Proof.
  intros Hb Hm. unfold page_at, smgrtruncate. simpl. case_decide.
  - by rewrite lookup_take_lt by lia.
  - by rewrite lookup_take_ge by lia.
Qed.

Lemma rel_ok_truncate rel m :
  rel_ok rel → 0 <= m <= smgrnblocks rel → rel_ok (set_nblocks (smgrtruncate rel m) m).
Proof.
  intros [H1 H2 H3 H4] Hm. unfold smgrnblocks in *. split; simpl; unfold smgrnblocks; simpl.
  - by apply Forall_take.
  - intros E. by rewrite H2, take_nil.
  - right. rewrite length_take. lia.
  - rewrite length_take. lia.
Qed.

Lemma value_missing rel a s : ¬ has_page rel a → value rel a s = 0.
Proof.
  intros Hp. unfold value, has_page in *. rewrite page_at_missing by lia.
  unfold fsm_get_avail, empty_page. cbn [fp_nodes]. rewrite word_at_replicate. by case_decide.
Qed.

Lemma phys_addr_mono b c : is_block b → is_block c → b <= c → phys (addr_of b) <= phys (addr_of c).
Proof.
  intros Hb Hc Hle. pose proof S_pos. assert (b / S <= c / S) by (apply Z.div_le_mono; lia).
  destruct (Z.eq_dec (b / S) (c / S)) as [E|Hne]; [unfold addr_of; rewrite E; lia|].
  pose proof (phys_lt _ _ (valid_addr_of b Hb) (valid_addr_of c Hc)) as Hlt. unfold first_leaf in Hlt. simpl in Hlt.
  lia.
Qed.

(** The blocks of a page that is missing, and all that follow, hold nothing. *)
Lemma recorded_missing rel n b :
  is_block n → is_block b → n <= b → ¬ has_page rel (addr_of n) → recorded rel b = 0.
Proof.
  intros Hn Hb Hle Hp. apply value_missing. pose proof (phys_addr_mono n b Hn Hb Hle). unfold has_page in *. lia.
Qed.

(** Slots are only cleared. *)
Definition shrinks (rel rel' : Rel) : Prop :=
  ∀ a s, valid a → value rel' a s = value rel a s ∨ value rel' a s = 0.

(** What truncating the heap to [n] blocks does to the map. *)
Definition truncated (n : Z) (rel rel' : Rel) : Prop :=
  rel_ok rel' ∧ (trees_ok rel → trees_ok rel') ∧ shrinks rel rel' ∧
  ∀ b, is_block b → recorded rel' b = if decide (b < n) then recorded rel b else 0.

(** The pages from [m] on are removed. *)
Lemma truncated_cut n rel m :
  is_block n → rel_ok rel → 0 <= m <= smgrnblocks rel →
  (∀ b, is_block b → b < n → phys (addr_of b) < m) →
  (∀ b, is_block b → n <= b → phys (addr_of b) < m → recorded rel b = 0) →
  truncated n rel (set_nblocks (smgrtruncate rel m) m).
Proof.
  intros Hn H Hm Hlow Hhigh. split; [by apply rel_ok_truncate|]. split.
  - intros Ht b. unfold page_at, smgrtruncate. simpl. destruct (decide (Z.to_nat b < Z.to_nat m)%nat).
    + rewrite lookup_take_lt by lia. apply Ht.
    + rewrite lookup_take_ge by lia. apply empty_page_ok. lia.
  - split.
    { intros a s Hv. destruct (phys_spec a Hv) as [_ Hpa]. unfold value. rewrite page_at_truncate by lia.
      case_decide; [by left|]. right. unfold fsm_get_avail, empty_page. cbn [fp_nodes].
      rewrite word_at_replicate. by case_decide. }
    intros b Hb. destruct (phys_spec _ (valid_addr_of b Hb)) as [_ Hpb].
    unfold recorded, value. rewrite page_at_truncate by lia.
    specialize (Hlow b Hb). specialize (Hhigh b Hb). destruct (decide (b < n)).
    + by rewrite decide_True by auto.
    + destruct (decide (phys (addr_of b) < m)); [by apply Hhigh; lia|].
      unfold fsm_get_avail, empty_page. cbn [fp_nodes]. rewrite word_at_replicate. by case_decide.
Qed.

(** Nothing is removed. *)
Lemma truncated_missing n rel rel' :
  is_block n → rel_ok rel' → fsm_pages rel' = fsm_pages rel → ¬ has_page rel (addr_of n) → truncated n rel rel'.
Proof.
  intros Hn H E Hp. assert (page_at K rel' = page_at K rel) as Ep by (unfold page_at; by rewrite E).
  split; [done|]. split; [intros Ht b; rewrite Ep; apply Ht|].
  split; [intros a s Hv; left; unfold value; by rewrite Ep|].
  intros b Hb. unfold recorded at 1, value. rewrite Ep. case_decide; [done|].
  apply (recorded_missing rel n b); [done..|lia|done].
Qed.

(** The tail of the last page that stays is cleared. *)
Lemma truncated_tail n rel :
  is_block n → rel_ok rel → has_page rel (addr_of n) →
  let page := (fsm_truncate_avail K (page_at K rel (phys (addr_of n))) (slot_of n)).2 in
  let rel' := set_page rel (phys (addr_of n)) page in
  rel_ok rel' ∧ smgrnblocks rel' = smgrnblocks rel ∧ (trees_ok rel → trees_ok rel') ∧ shrinks rel rel' ∧
  (∀ b, is_block b → b < n → recorded rel' b = recorded rel b) ∧
  (∀ b, is_block b → n <= b → addr_of b = addr_of n → recorded rel' b = 0).
Proof.
  intros Hn H Hp page rel'. pose proof (valid_addr_of n Hn) as Hv. destruct (phys_spec _ Hv) as [_ Hb].
  pose proof (truncate_spec K ltac:(lia) (page_at K rel (phys (addr_of n))) (slot_of n)
    (page_at_bytes _ _ H) (slot_of_lt n)) as Htr. unfold page in rel'. clear page.
  destruct (fsm_truncate_avail K _ _) as [ch page]. cbn [snd] in rel'. destruct Htr as (Hpb & _ & Hav & Hok & _).
  assert (∀ b, is_block b → addr_of b = addr_of n → (slot_of b < slot_of n)%nat ↔ b < n) as Hslot.
  { intros b Hb' [= E]. unfold slot_of. pose proof S_pos. pose proof (Z.mod_pos_bound b S S_pos).
    pose proof (Z.mod_pos_bound n S S_pos). pose proof (Z.div_mod b S ltac:(lia)). pose proof (Z.div_mod n S ltac:(lia)).
    rewrite E in *. lia. }
  split; [by apply rel_ok_set|]. split; [unfold rel', smgrnblocks; simpl; by rewrite length_insert|]. split; [|split; [|split]].
  - intros Ht. apply trees_ok_set; [unfold has_page in Hp; lia|done|]. apply Hok, Ht.
  - intros a s Hva. unfold value, rel'. rewrite page_at_set_addr by done. case_decide as D0; [|by left].
    rewrite Hav, D0. case_decide; [by left|by right].
  - intros b Hb' Hlt. unfold recorded, value, rel'. rewrite page_at_set_addr by (done || by apply valid_addr_of).
    case_decide as D0; [|done]. rewrite Hav, decide_True by (by apply Hslot). by rewrite D0.
  - intros b Hb' Hle D0. unfold recorded, value, rel'. rewrite page_at_set_addr by (done || by apply valid_addr_of).
    rewrite decide_True, Hav, decide_False; [done| |done]. rewrite Hslot by done. lia.
Qed.

Lemma addr_next b c : is_block b → is_block c → slot_of c = 0%nat → b < c → phys (addr_of b) < phys (addr_of c).
Proof.
  intros Hb Hc H0 Hlt. unfold slot_of in H0. pose proof S_pos. pose proof (Z.mod_pos_bound c S S_pos).
  pose proof (Z.div_mod c S ltac:(lia)). pose proof (Z.div_mod b S ltac:(lia)). pose proof (Z.mod_pos_bound b S S_pos).
  apply phys_lt; [by apply valid_addr_of..|]. unfold first_leaf. simpl. nia.
Qed.

Lemma truncate_rel_spec n rel : is_block n → rel_ok rel → truncated n rel (FreeSpaceMapTruncateRel K rel n).
Proof.
  intros Hn H. pose proof (valid_addr_of n Hn) as Hv. destruct (phys_spec _ Hv) as [_ Hb].
  unfold FreeSpaceMapTruncateRel. destruct (fsm_exists rel) eqn:Ee; cbn [negb].
  2: { apply truncated_missing; [done..|]. unfold has_page, smgrnblocks.
       rewrite (rel_exists _ H Ee). simpl. lia. }
  rewrite location_spec, Nat2Z.id by done.
  destruct (Z.ltb_spec 0 (Z.of_nat (slot_of n))) as [Hs|Hs].
  - rewrite readbuf_spec by done.
    destruct (refresh_spec rel (phys (addr_of n)) H ltac:(lia)) as (H1 & E1 & _).
    assert (smgrnblocks (refresh rel (phys (addr_of n))) = smgrnblocks rel) as Es by (unfold smgrnblocks; by rewrite E1).
    destruct (decide (has_page rel (addr_of n))) as [Hp|Hp]; [|by apply truncated_missing].
    set (rel1 := refresh rel (phys (addr_of n))) in *.
    assert (has_page rel1 (addr_of n)) as Hp1 by (unfold has_page in *; by rewrite Es).
    destruct (truncated_tail n rel1 Hn H1 Hp1) as (T1 & T2 & T3 & Tsh & T4 & T5). set (rel2 := set_page rel1 _ _) in *.
    rewrite u32_id by (unfold is_u32; lia). unfold has_page in Hp1.
    assert (∀ b, is_block b → recorded rel1 b = recorded rel b) as E0.
    { intros b Hb'. unfold recorded, value, rel1. by rewrite refresh_pages. }
    destruct (truncated_cut n rel2 (phys (addr_of n) + 1) Hn T1) as (C1 & C2 & Csh & C3); [lia|..].
    + intros b Hb' Hlt. pose proof (phys_addr_mono b n Hb' Hn ltac:(lia)). lia.
    + intros b Hb' Hle Hlt. apply T5; [done..|]. pose proof (phys_addr_mono n b Hn Hb' Hle).
      apply phys_inj; [by apply valid_addr_of|done|lia].
    + split; [done|]. split; [intros Ht; apply C2, T3; intros b; unfold rel1; rewrite refresh_pages; apply Ht|].
      split; [intros a s Hva; destruct (Csh a s Hva) as [->|]; [|by right]; destruct (Tsh a s Hva) as [->|]; [|by right];
        left; unfold value, rel1; by rewrite refresh_pages|].
      intros b Hb'. rewrite C3 by done. case_decide; [|done]. rewrite T4 by done. by apply E0.
  - destruct (Z.leb_spec (smgrnblocks rel) (phys (addr_of n))).
    { apply truncated_missing; [done..|]. unfold has_page. lia. }
    apply truncated_cut; [done|done|lia|..].
    + intros b Hb' Hlt. apply addr_next; [done..|lia|done].
    + intros b Hb' Hle Hlt. pose proof (phys_addr_mono n b Hn Hb' Hle). lia.
Qed.

Lemma in_range_shrinks rel rel' : shrinks rel rel' → in_range rel → in_range rel'.
Proof.
  intros Hs H p s Hv Hs' Hpos. apply H; [done..|]. destruct (Hs (MkFSMAddress 0 p) s Hv); lia.
Qed.

(** ** The categories *)

Lemma cat_step : BLCKSZ K = 256 * FSM_CAT_STEP K ∧ 4 <= FSM_CAT_STEP K <= 128.
Proof.
  assert (K = 10 ∨ K = 11 ∨ K = 12 ∨ K = 13 ∨ K = 14 ∨ K = 15)%nat as Hc by lia.
  destruct Hc as [->|[->|[->|[->|[->| ->]]]]]; split; try (by vm_compute); by split; vm_compute.
Qed.

Lemma avail_cat_spec avail :
  0 <= avail < BLCKSZ K →
  fsm_space_avail_to_cat K avail = if decide (BLCKSZ K - 32 <= avail) then 255 else Z.min 254 (avail / FSM_CAT_STEP K).
Proof.
  intros H. destruct cat_step as [E Hst]. unfold fsm_space_avail_to_cat, MaxFSMRequestSize, MaxHeapTupleSize.
  destruct (Z.leb_spec (BLCKSZ K - 32) avail); case_decide; try lia.
  assert (0 <= avail / FSM_CAT_STEP K) by (apply Z.div_pos; lia).
  destruct (Z.ltb_spec 254 (avail / FSM_CAT_STEP K)); unfold u8; rewrite ?Z.mod_small by lia; lia.
Qed.

Lemma avail_cat_u8 avail : 0 <= avail < BLCKSZ K → 0 <= fsm_space_avail_to_cat K avail < 256.
Proof.
  intros H. rewrite avail_cat_spec by done. destruct cat_step. case_decide; [lia|].
  assert (0 <= avail / FSM_CAT_STEP K) by (apply Z.div_pos; lia). lia.
Qed.

Lemma needed_cat_spec needed :
  0 <= needed →
  fsm_space_needed_to_cat K needed =
    if decide (needed <= MaxFSMRequestSize K) then
      Ok (if decide (needed = 0) then 1 else Z.min 255 ((needed + FSM_CAT_STEP K - 1) / FSM_CAT_STEP K))
    else Err "invalid FSM request size".
Proof.
  intros H0. destruct cat_step as [E Hst]. unfold fsm_space_needed_to_cat.
  destruct (Z.ltb_spec (MaxFSMRequestSize K) needed); case_decide; try lia; [done|].
  destruct (Z.eqb_spec needed 0); case_decide; try lia; [done|].
  assert (0 <= (needed + FSM_CAT_STEP K - 1) / FSM_CAT_STEP K) by (apply Z.div_pos; lia).
  destruct (Z.ltb_spec 255 ((needed + FSM_CAT_STEP K - 1) / FSM_CAT_STEP K));
    unfold u8; rewrite Z.mod_small by lia; f_equal; lia.
Qed.

Lemma needed_cat_range needed c : 0 <= needed → fsm_space_needed_to_cat K needed = Ok c → 1 <= c <= 255.
Proof.
  intros H0. rewrite needed_cat_spec by done. destruct cat_step as [E Hst]. case_decide; [|done].
  intros [= <-]. case_decide; [lia|].
  assert (1 <= (needed + FSM_CAT_STEP K - 1) / FSM_CAT_STEP K) by (apply Z.div_le_lower_bound; lia). lia.
Qed.

(** A page whose category is high enough has the space asked for. *)
Lemma cat_sound needed avail c :
  0 <= needed → 0 <= avail < BLCKSZ K → fsm_space_needed_to_cat K needed = Ok c →
  c <= fsm_space_avail_to_cat K avail → needed <= avail.
Proof.
  intros H0 Ha. destruct cat_step as [E Hst]. rewrite needed_cat_spec, avail_cat_spec by done.
  unfold MaxFSMRequestSize, MaxHeapTupleSize. case_decide; [|done]. intros [= <-].
  destruct (decide (BLCKSZ K - 32 <= avail)); [lia|]. case_decide; [lia|]. intros Hle.
  pose proof (Z.mul_div_le avail (FSM_CAT_STEP K) ltac:(lia)).
  pose proof (Z.div_mod (needed + FSM_CAT_STEP K - 1) (FSM_CAT_STEP K) ltac:(lia)).
  pose proof (Z.mod_pos_bound (needed + FSM_CAT_STEP K - 1) (FSM_CAT_STEP K) ltac:(lia)).
  assert ((needed + FSM_CAT_STEP K - 1) / FSM_CAT_STEP K <= avail / FSM_CAT_STEP K) by lia. nia.
Qed.

Lemma cat_rounds_down avail :
  0 <= avail < BLCKSZ K →
  fsm_space_cat_to_avail K (fsm_space_avail_to_cat K avail) <= avail.
Proof.
  intros Ha. destruct cat_step as [E Hst]. rewrite avail_cat_spec by done.
  unfold fsm_space_cat_to_avail, MaxFSMRequestSize, MaxHeapTupleSize. case_decide; [done|].
  pose proof (Z.mul_div_le avail (FSM_CAT_STEP K) ltac:(lia)).
  destruct (Z.eqb_spec (Z.min 254 (avail / FSM_CAT_STEP K)) 255); [lia|]. nia.
Qed.

End Spec.

End FreeSpaceSpec.
