(* ===== verification/FreeSpaceProps.v ===== *)
(** The free space map against its abstract state.

    The map of a relation stands for a function from blocks to categories,
    [recorded].  [abs_step] says what each public operation of freespace.c
    promises about it and [run] executes the operation; [run_spec] is the
    simulation.  The theorems: the simulation and the invariant, what a page
    handed out by the map is guaranteed to have, vacuuming, the categories and
    the addresses. *)

From Stdlib Require Import ZArith Lia.
From stdpp Require Import base list option numbers strings.
From S2P Require Import Prelude FsmPage FreeSpace FreeSpaceSpec.
Import FsmPage FreeSpace FreeSpaceSpec.

Module FreeSpaceProps.

(** ** The operations *)

Inductive fsm_op :=
  | OpGetPage (needed : Z)
  | OpRecordAndGet (oldPage oldAvail needed : Z)
  | OpRecord (blk avail : Z)
  | OpXLogRecord (blk avail : Z)
  | OpGetRecorded (blk : Z)
  | OpTruncate (nblocks : Z)
  | OpVacuum
  | OpInvalidate.

Inductive answer := Failed (msg : string) | Page (blk : Z) | Avail (avail : Z) | Done.

(** A relation without a map. *)
Definition no_fsm : Rel := MkRel false [] InvalidBlockNumber.

Section Props.
Context (K : nat).

(** The answer of a search. *)
Definition page_answer (r : result (option (Z * Rel))) (rel : Rel) : option (answer * Rel) :=
  match r with
  | Err msg => Some (Failed msg, rel)
  | Ok None => None
  | Ok (Some (b, rel')) => Some (Page b, rel')
  end.

(** [OpInvalidate] is the cache invalidation of the storage manager, after which
    the size of the fork is unknown. *)
Definition run (fuel : nat) (op : fsm_op) (rel : Rel) : option (answer * Rel) :=
  match op with
  | OpGetPage needed => page_answer (GetPageWithFreeSpace K fuel rel needed) rel
  | OpRecordAndGet b avail needed => page_answer (RecordAndGetPageWithFreeSpace K fuel rel b avail needed) rel
  | OpRecord b avail => Some (Done, RecordPageWithFreeSpace K rel b avail)
  | OpXLogRecord b avail => Some (Done, XLogRecordPageWithFreeSpace K rel b avail)
  | OpGetRecorded b => let '(avail, rel) := GetRecordedFreeSpace K rel b in Some (Avail avail, rel)
  | OpTruncate n => Some (Done, FreeSpaceMapTruncateRel K rel n)
  | OpVacuum => Some (Done, FreeSpaceMapVacuum K rel)
  | OpInvalidate => Some (Done, set_nblocks rel InvalidBlockNumber)
  end.

(** The arguments callers pass. *)
Definition op_ok (op : fsm_op) : Prop :=
  match op with
  | OpGetPage needed => 0 <= needed
  | OpRecordAndGet b avail needed => is_block b ∧ 0 <= avail < FreeSpace.BLCKSZ K ∧ 0 <= needed
  | OpRecord b avail | OpXLogRecord b avail => is_block b ∧ 0 <= avail < FreeSpace.BLCKSZ K
  | OpGetRecorded b | OpTruncate b => is_block b
  | OpVacuum | OpInvalidate => True
  end.

(** ** The abstract map *)

Definition update (f : Z → Z) (b v : Z) : Z → Z := λ c, if decide (c = b) then v else f c.
Definition same_map (f g : Z → Z) : Prop := ∀ b, is_block b → f b = g b.

(** No page, or one of category [c] at least. *)
Definition page_ans (f : Z → Z) (c : Z) (ans : answer) : Prop :=
  ∃ r, ans = Page r ∧ (r = InvalidBlockNumber ∨ is_block r ∧ c <= f r).

Definition abs_step (op : fsm_op) (f : Z → Z) (ans : answer) (f' : Z → Z) : Prop :=
  match op with
  | OpGetPage needed =>
      same_map f' f ∧
      match fsm_space_needed_to_cat K needed with Err msg => ans = Failed msg | Ok c => page_ans f c ans end
  | OpRecordAndGet b avail needed =>
      match fsm_space_needed_to_cat K needed with
      | Err msg => ans = Failed msg ∧ same_map f' f
      | Ok c => same_map f' (update f b (fsm_space_avail_to_cat K avail)) ∧ page_ans f' c ans
      end
  | OpRecord b avail | OpXLogRecord b avail =>
      same_map f' (update f b (fsm_space_avail_to_cat K avail)) ∧ ans = Done
  | OpGetRecorded b => same_map f' f ∧ ans = Avail (fsm_space_cat_to_avail K (f b))
  | OpTruncate n => same_map f' (λ b, if decide (b < n) then f b else 0) ∧ ans = Done
  | OpVacuum | OpInvalidate => same_map f' f ∧ ans = Done
  end.

Context (HK : (10 ≤ K ≤ 15)%nat).
Notation inv := (fsm_inv K).
Notation rec := (recorded K).

Lemma no_fsm_inv : inv no_fsm.
Proof.
  assert (∀ b, page_at K no_fsm b = empty_page K) as E by done.
  split.
  - split; simpl; [constructor|done|by left|by vm_compute].
  - intros b. rewrite E. apply empty_page_ok. lia.
  - intros p s _ _ Hpos. unfold value in Hpos. rewrite E in Hpos. unfold fsm_get_avail, empty_page in Hpos.
    cbn [fp_nodes] in Hpos. rewrite word_at_replicate in Hpos. case_decide; lia.
Qed.

Lemma inv_same rel rel' :
  inv rel → rel_ok K rel' → trees_ok K rel' → same_leaves K rel rel' → inv rel' ∧ same_map (rec rel') (rec rel).
Proof.
  intros [H1 H2 H3] H1' H2' Hs. split.
  - split; [done..|]. by apply (in_range_same K rel).
  - intros b Hb. by apply recorded_same.
Qed.

Lemma refresh_same rel b : inv rel → 0 <= b → inv (refresh rel b) ∧ same_map (rec (refresh rel b)) (rec rel).
Proof.
  intros H Hb. destruct (refresh_spec K HK rel b (inv_rel _ _ H) Hb) as (H1 & _).
  apply inv_same; [done|done|intros c; rewrite refresh_pages; apply H|].
  intros p s _. unfold value. by rewrite refresh_pages.
Qed.

(** Enough rounds for every search, see [search_loop_ends]. *)
Definition enough (fuel : nat) : Prop := 10002 * FSM_TREE_DEPTH K <= Z.of_nat fuel.

Lemma search_spec fuel rel c :
  inv rel → enough fuel → 0 < c →
  ∃ r rel', fsm_search K fuel rel c = Some (r, rel') ∧ inv rel' ∧ same_map (rec rel') (rec rel) ∧
    (r = InvalidBlockNumber ∨ is_block r ∧ c <= rec rel r).
Proof.
  intros H Hf Hc. unfold fsm_search, enough in *. pose proof (depth_enough K HK) as (_ & HD & _).
  destruct (search_loop_ends K HK fuel rel c 0 (FSM_ROOT_ADDRESS K)) as (r & rel' & -> & H1 & Hs & Ht & Hr);
    [apply H|by apply root_valid|done|lia|unfold FSM_ROOT_ADDRESS, FSM_ROOT_LEVEL; simpl; lia|].
  destruct (inv_same rel rel' H H1 (Ht (inv_trees _ _ H)) Hs) as [Hi Hsame].
  exists r, rel'. split; [done|]. split; [done|]. split; [done|]. destruct Hr as [|Hr]; [by left|]. right.
  apply found_block; [done|apply H|done|done].
Qed.

(** Recording through [fsm_set_and_search]. *)
Lemma record_spec rel b avail c :
  inv rel → is_block b → 0 <= avail < FreeSpace.BLCKSZ K → 0 <= c →
  let '(r, rel') := fsm_set_and_search K rel (addr_of K b) (Z.of_nat (slot_of K b)) (fsm_space_avail_to_cat K avail) c in
  inv rel' ∧ same_map (rec rel') (update (rec rel) b (fsm_space_avail_to_cat K avail)) ∧
  (r = -1 ∨ let r' := fsm_get_heap_blk K (addr_of K b) r in is_block r' ∧ c <= rec rel' r').
Proof.
  intros H Hb Ha Hc. pose proof (valid_addr_of K HK b Hb) as Hv.
  pose proof (set_and_search_spec K HK rel (addr_of K b) (slot_of K b) _ c (inv_rel _ _ H) Hv
    (slot_of_lt K HK b) (avail_cat_u8 K HK avail Ha) Hc) as Hset.
  destruct (fsm_set_and_search K rel _ _ _ c) as [r rel']. destruct Hset as (H1 & Hval & Ht & Hr & Hr0).
  destruct (record_values K HK rel rel' b _ Hb Hval) as [Hrec Hrange].
  assert (inv rel') as Hi by (split; [done|apply Ht, H|apply Hrange, H]).
  split; [done|]. split; [done|]. destruct Hr as [|(s & -> & Hs & Hge)]; [by left|].
  destruct (decide (c = 0)) as [->|Hc0]; [left; by apply Hr0|]. right.
  apply found_block; [done|apply Hi|lia|]. exists (b / Slots K), s. by split_and!.
Qed.

(** Recording from the log. *)
Lemma xlog_spec rel b avail :
  inv rel → is_block b → 0 <= avail < FreeSpace.BLCKSZ K →
  let rel' := XLogRecordPageWithFreeSpace K rel b avail in
  inv rel' ∧ same_map (rec rel') (update (rec rel) b (fsm_space_avail_to_cat K avail)).
Proof.
  intros [H Ht Hr] Hb Ha. pose proof (valid_addr_of K HK b Hb) as Hv. destruct (phys_spec K HK _ Hv) as [_ Hp].
  pose proof (slot_of_lt K HK b) as Hs. unfold XLogRecordPageWithFreeSpace. rewrite location_spec, Nat2Z.id by done.
  set (n := Z.to_nat _). set (rel1 := MkRel true _ _).
  assert (∀ c, page_at K rel1 c = page_at K rel c) as E1 by (intros c; by apply page_at_extend).
  assert (rel_ok K rel1) as H1.
  { destruct H as [R1 R2 R3 R4]. unfold smgrnblocks, InvalidBlockNumber in *. unfold rel1, n.
    split; simpl; unfold smgrnblocks; simpl; rewrite ?length_app, ?length_replicate.
    - apply Forall_app. split; [done|]. apply Forall_replicate, empty_page_ok. lia.
    - done.
    - destruct R3; [by left|right]. lia.
    - unfold InvalidBlockNumber. lia. }
  assert (has_page K rel1 (addr_of K b)) as Hp1.
  { unfold has_page, rel1, n, smgrnblocks. simpl. rewrite length_app, length_replicate. lia. }
  pose proof (set_avail_spec K ltac:(lia) (page_at K rel1 (fsm_logical_to_physical K (addr_of K b))) (slot_of K b) _
    (page_at_bytes K HK _ _ H1) Hs (avail_cat_u8 K HK avail Ha)) as Hset.
  destruct (fsm_set_avail K _ _ _) as [ch page]. cbn [snd]. destruct Hset as (Hpb & _ & Hav & _ & Hok).
  set (rel2 := set_page rel1 _ page).
  destruct (record_values K HK rel rel2 b (fsm_space_avail_to_cat K avail) Hb) as [Hrec Hrange].
  { intros a s Hva. unfold value, rel2. rewrite page_at_set_addr, !E1 by done.
    destruct (decide (a = addr_of K b)) as [->|]; [|by rewrite decide_False by naive_solver].
    rewrite Hav, E1. destruct (decide (s = slot_of K b)); [by rewrite decide_True|by rewrite decide_False by naive_solver]. }
  split; [split|done].
  - by apply rel_ok_set.
  - apply trees_ok_set; [done|unfold has_page in Hp1; lia|intros c; rewrite E1; apply Ht|].
    apply Hok. rewrite E1. apply Ht.
  - by apply Hrange.
Qed.

Lemma get_recorded_spec rel b :
  inv rel → is_block b →
  let '(avail, rel') := GetRecordedFreeSpace K rel b in
  inv rel' ∧ same_map (rec rel') (rec rel) ∧ avail = fsm_space_cat_to_avail K (rec rel b).
Proof.
  intros H Hb. pose proof (valid_addr_of K HK b Hb) as Hv. destruct (phys_spec K HK _ Hv) as [_ Hp].
  destruct (refresh_same rel (fsm_logical_to_physical K (addr_of K b)) H ltac:(lia)) as [Hi Hs].
  unfold GetRecordedFreeSpace. rewrite location_spec, Nat2Z.id by done. rewrite readbuf_spec by (try done; apply H).
  destruct (decide _) as [Hpg|Hpg]; (split; [done|]); (split; [done|]).
  - by rewrite refresh_pages.
  - unfold recorded. rewrite value_missing by done. done.
Qed.

Lemma vacuum_spec_root rel :
  inv rel → let rel' := FreeSpaceMapVacuum K rel in
  inv rel' ∧ linked K rel' ∧ same_map (rec rel') (rec rel).
Proof.
  intros H. unfold FreeSpaceMapVacuum. pose proof (depth_enough K HK) as (_ & HD & _).
  pose proof (vacuum_page_spec K HK (Z.to_nat (FSM_ROOT_LEVEL K)) rel 0 (inv_rel _ _ H)) as Hvac.
  rewrite Z2Nat.id in Hvac by (unfold FSM_ROOT_LEVEL; lia). specialize (Hvac (root_valid K HK)).
  destruct (fsm_vacuum_page K _ rel 0) as [[m eof] rel']. destruct Hvac as ([V1 V2 V3 V4 V5 V6] & _). cbn [snd].
  destruct (inv_same rel rel' H V1 (V5 (inv_trees _ _ H)) V4) as [Hi Hs].
  split; [done|]. split; [|done]. intros a Hv H0. apply V6; [done| |done]. by apply below_root.
Qed.

(** ** The simulation *)

Lemma run_spec fuel op rel :
  inv rel → op_ok op → enough fuel →
  ∃ ans rel', run fuel op rel = Some (ans, rel') ∧ inv rel' ∧ abs_step op (rec rel) ans (rec rel').
Proof.
  intros H Hop Hf. destruct op as [needed|b avail needed|b avail|b avail|b|n| |]; simpl in Hop; cbn [run abs_step].
  - unfold GetPageWithFreeSpace. destruct (fsm_space_needed_to_cat K needed) as [c|msg] eqn:Ec; simpl.
    + pose proof (needed_cat_range K HK needed c Hop Ec).
      destruct (search_spec fuel rel c H Hf ltac:(lia)) as (r & rel' & -> & Hi & Hs & Hr).
      eexists _, _. split; [done|]. split; [done|]. split; [done|]. by exists r.
    + by eexists _, _.
  - destruct Hop as (Hb & Ha & Hn). unfold RecordAndGetPageWithFreeSpace.
    destruct (fsm_space_needed_to_cat K needed) as [c|msg] eqn:Ec; cbn [mbind result_bind page_answer]; [|by eexists _, _].
    pose proof (needed_cat_range K HK needed c Hn Ec). rewrite location_spec by done.
    pose proof (record_spec rel b avail c H Hb Ha ltac:(lia)) as Hrec.
    destruct (fsm_set_and_search K rel _ _ _ c) as [r rel1]. destruct Hrec as (Hi & Hs & Hr).
    destruct (Z.eqb_spec r (-1)) as [->|Hne]; cbn [negb page_answer].
    + destruct (search_spec fuel rel1 c Hi Hf ltac:(lia)) as (r2 & rel2 & -> & Hi2 & Hs2 & Hr2).
      eexists _, _. split; [done|]. split; [done|]. split.
      * intros x Hx. rewrite Hs2 by done. by apply Hs.
      * exists r2. split; [done|]. destruct Hr2 as [|[Hb2 Hge]]; [by left|]. right. by rewrite Hs2.
    + eexists _, _. split; [done|]. split; [done|]. split; [done|]. eexists. split; [done|].
      right. by destruct Hr.
  - destruct Hop as (Hb & Ha). unfold RecordPageWithFreeSpace. rewrite location_spec by done.
    pose proof (record_spec rel b avail 0 H Hb Ha ltac:(lia)) as Hrec.
    destruct (fsm_set_and_search K rel _ _ _ 0) as [r rel1]. destruct Hrec as (Hi & Hs & _). by eexists _, _.
  - destruct Hop as (Hb & Ha). destruct (xlog_spec rel b avail H Hb Ha) as [Hi Hs]. by eexists _, _.
  - pose proof (get_recorded_spec rel b H Hop) as Hg. destruct (GetRecordedFreeSpace K rel b) as [avail rel1].
    destruct Hg as (Hi & Hs & ->). by eexists _, _.
  - destruct (truncate_rel_spec K HK n rel Hop (inv_rel _ _ H)) as (T1 & T2 & T3 & T4).
    eexists _, _. split; [done|]. split; [|done]. split; [done|apply T2, H|].
    by apply (in_range_shrinks K HK rel), H.
  - destruct (vacuum_spec_root rel H) as (Hi & _ & Hs). by eexists _, _.
  - eexists _, _. split; [done|]. split; [|done]. destruct H as [[R1 R2 R3 R4] H2 H3].
    split; [split; try done; by left|done..].
Qed.

(** ** Histories *)

(** The operations run, newest first. *)
Fixpoint run_all (fuel : nat) (ops : list fsm_op) (rel : Rel) : option Rel :=
  match ops with
  | [] => Some rel
  | op :: ops =>
      match run_all fuel ops rel with
      | Some rel => snd <$> run fuel op rel
      | None => None
      end
  end.

(** The free space last recorded for a block, if it was not truncated since. *)
Fixpoint last_avail (ops : list fsm_op) (b : Z) : option Z :=
  match ops with
  | [] => None
  | (OpRecord b' avail | OpXLogRecord b' avail) :: ops => if decide (b = b') then Some avail else last_avail ops b
  | OpRecordAndGet b' avail needed :: ops =>
      match fsm_space_needed_to_cat K needed with
      | Ok _ => if decide (b = b') then Some avail else last_avail ops b
      | Err _ => last_avail ops b
      end
  | OpTruncate n :: ops => if decide (b < n) then last_avail ops b else None
  | _ :: ops => last_avail ops b
  end.

Definition cat_of (avail : option Z) : Z :=
  match avail with Some avail => fsm_space_avail_to_cat K avail | None => 0 end.

Lemma history_step op ops f ans f' :
  (∀ b, is_block b → f b = cat_of (last_avail ops b)) → abs_step op f ans f' →
  ∀ b, is_block b → f' b = cat_of (last_avail (op :: ops) b).
Proof.
  intros Hf Hstep b Hb.
  destruct op; cbn [abs_step last_avail] in *; try destruct (fsm_space_needed_to_cat K _);
    destruct Hstep as [Hs Hs']; try (by rewrite Hs by done; apply Hf);
    try (by rewrite Hs' by done; apply Hf);
    rewrite Hs by done; unfold update; case_decide; try done; by apply Hf.
Qed.

Lemma last_avail_range ops b avail :
  Forall op_ok ops → last_avail ops b = Some avail → 0 <= avail < FreeSpace.BLCKSZ K.
Proof.
  induction 1 as [|op ops Hop _ IH]; [done|].
  destruct op; cbn [last_avail op_ok] in *; try destruct (fsm_space_needed_to_cat K _); try case_decide;
    naive_solver.
Qed.

Lemma run_all_spec fuel ops :
  enough fuel → Forall op_ok ops →
  ∃ rel, run_all fuel ops no_fsm = Some rel ∧ inv rel ∧ ∀ b, is_block b → rec rel b = cat_of (last_avail ops b).
Proof.
  intros Hf. induction 1 as [|op ops Hop _ (rel & E & Hi & Hrec)]; cbn [run_all].
  - exists no_fsm. split; [done|]. split; [apply no_fsm_inv|]. intros b Hb. apply value_missing; [done|].
    destruct (phys_spec K HK _ (valid_addr_of K HK b Hb)) as [_ Hp]. unfold has_page, smgrnblocks. simpl. lia.
  - rewrite E. destruct (run_spec fuel op rel Hi Hop Hf) as (ans & rel' & -> & Hi' & Hs).
    exists rel'. split; [done|]. split; [done|]. by apply (history_step op ops (rec rel) ans).
Qed.

(** ** The properties *)

(** C7: the free space map refines a function from blocks to categories.  In a map
    that satisfies the invariant (bytes on every page, every page a tree of
    maxima, only slots of existing block numbers in use, the cached size not past
    the end) each operation of freespace.c, on any arguments its callers may pass,
    ends, keeps the invariant and does to the recorded categories what [abs_step]
    says: recording changes the one block, truncation clears the blocks cut off,
    searching, reading and vacuuming change nothing, and a page handed out has at
    least the category that was asked for.  A relation without a map satisfies the
    invariant. *)
Theorem fsm_refines_categories fuel op rel :
  inv rel → op_ok op → enough fuel →
  inv no_fsm ∧
  ∃ ans rel', run fuel op rel = Some (ans, rel') ∧ inv rel' ∧ abs_step op (rec rel) ans (rec rel').
Proof. intros. split; [apply no_fsm_inv|]. by apply run_spec. Qed.

(** C14: a page handed out has the space.  After any history of operations on a
    relation's map, when [GetPageWithFreeSpace] answers with a page for a request,
    the free space last recorded for this page is at least the request, and it was
    recorded after the last truncation that removed the page. *)
Theorem fsm_page_has_space fuel ops needed rel r rel' :
  enough fuel → Forall op_ok ops → 0 <= needed →
  run_all fuel ops no_fsm = Some rel →
  GetPageWithFreeSpace K fuel rel needed = Ok (Some (r, rel')) → r ≠ InvalidBlockNumber →
  ∃ avail, last_avail ops r = Some avail ∧ needed <= avail.
Proof.
  intros Hf Hops Hn E Eg Hr. destruct (run_all_spec fuel ops Hf Hops) as (rel1 & E1 & Hi & Hrec).
  rewrite E1 in E. injection E as <-.
  destruct (run_spec fuel (OpGetPage needed) rel1 Hi Hn Hf) as (ans & rel2 & Er & _ & Hs).
  cbn [run abs_step] in *. rewrite Eg in Er. injection Er as <- <-. destruct Hs as [_ Hs].
  destruct (fsm_space_needed_to_cat K needed) as [c|msg] eqn:Ec; [|done].
  destruct Hs as (r2 & [= <-] & [|[Hb Hge]]); [done|]. rewrite Hrec in Hge by done.
  pose proof (needed_cat_range K HK needed c Hn Ec).
  destruct (last_avail ops r) as [avail|] eqn:El; cbn [cat_of] in Hge; [|lia].
  exists avail. split; [done|]. apply (cat_sound K HK needed avail c); try done.
  by apply (last_avail_range ops r).
Qed.

(** C17: vacuuming repairs the upper levels.  After [FreeSpaceMapVacuum] every slot
    above the bottom level holds the root of the page below it, the recorded
    categories are unchanged, and [fsm_search] then needs no restart (as many
    rounds as the tree has levels are enough) and finds a page whenever there is
    one of the category asked for. *)
Theorem fsm_vacuum_makes_search_complete rel fuel c b :
  inv rel → FSM_TREE_DEPTH K <= Z.of_nat fuel → 0 < c → is_block b → c <= rec rel b →
  let rel' := FreeSpaceMapVacuum K rel in
  linked K rel' ∧ same_map (rec rel') (rec rel) ∧
  ∃ r rel'', fsm_search K fuel rel' c = Some (r, rel'') ∧ is_block r ∧ c <= rec rel r.
Proof.
  intros H Hf Hc Hb Hge rel'. destruct (vacuum_spec_root rel H) as (Hi & Hl & Hs). fold rel' in Hi, Hl, Hs.
  split; [done|]. split; [done|]. pose proof (depth_enough K HK) as (_ & HD & _).
  destruct (search_loop_finds K HK fuel rel' c 0 (FSM_ROOT_ADDRESS K)) as (r & rel'' & E & Hfound);
    [apply Hi|apply Hi|done|by apply root_valid|done| |unfold FSM_ROOT_ADDRESS, FSM_ROOT_LEVEL; simpl; lia|].
  - rewrite <- Hs in Hge by done. etransitivity; [exact Hge|].
    apply (value_le_top K HK (Z.to_nat (FSM_TREE_DEPTH K - 1))); [apply Hi|done|by apply valid_addr_of|by apply slot_of_lt|].
    simpl. lia.
  - exists r, rel''. split; [done|]. rewrite <- Hs by (eapply found_block; [done|apply Hi|done|done]).
    apply found_block; [done|apply Hi|done|done].
Qed.

(** the categories round the safe way.  A request above the largest tuple is
    an error and any other gets a category between 1 and 255; free space gets a
    category between 0 and 255 that stands for no more than the space there is; a
    page whose category reaches that of a request has room for it. *)
Theorem fsm_categories needed avail :
  0 <= needed → 0 <= avail < FreeSpace.BLCKSZ K →
  0 <= fsm_space_avail_to_cat K avail <= 255 ∧
  fsm_space_cat_to_avail K (fsm_space_avail_to_cat K avail) <= avail ∧
  match fsm_space_needed_to_cat K needed with
  | Ok c => needed <= MaxHeapTupleSize K ∧ 1 <= c <= 255 ∧ (c <= fsm_space_avail_to_cat K avail → needed <= avail)
  | Err msg => MaxHeapTupleSize K < needed ∧ msg = "invalid FSM request size"
  end.
Proof.
  intros Hn Ha. pose proof (avail_cat_u8 K HK avail Ha). split; [lia|]. split; [by apply cat_rounds_down|].
  destruct (fsm_space_needed_to_cat K needed) as [c|msg] eqn:E.
  - pose proof (needed_cat_range K HK needed c Hn E). pose proof (cat_sound K HK needed avail c Hn Ha E).
    rewrite needed_cat_spec in E by done. unfold MaxFSMRequestSize in E. by case_decide.
  - rewrite needed_cat_spec in E by done. unfold MaxFSMRequestSize in E. case_decide; [done|].
    injection E as <-. split; [lia|done].
Qed.

(** the addresses form a tree stored in depth-first order.  Block numbers and
    slots of bottom pages determine each other, [fsm_get_parent] undoes
    [fsm_get_child], distinct pages have distinct physical blocks, and a page is
    stored before its children, which follow in the order of their slots; all
    without 32-bit overflow, for block sizes of 1 to 32 kilobytes. *)
Theorem fsm_addresses b a s t :
  is_block b → valid K a → 0 < level a → (s < t < SlotsPerFSMPage K)%nat →
  (let '(addr, slot) := fsm_get_location K b in valid K addr ∧ fsm_get_heap_blk K addr slot = b) ∧
  (let child := fsm_get_child K a (Z.of_nat s) in
   let next := fsm_get_child K a (Z.of_nat t) in
   valid K child ∧ fsm_get_parent K child = (a, Z.of_nat s) ∧
   fsm_logical_to_physical K a < fsm_logical_to_physical K child < fsm_logical_to_physical K next) ∧
  (∀ a', valid K a' → fsm_logical_to_physical K a' = fsm_logical_to_physical K a → a' = a) ∧
  0 <= fsm_logical_to_physical K a < 2 ^ 31.
Proof.
  intros Hb Hv H0 Hst. rewrite location_spec by done. split; [|split; [|split]].
  - split; [by apply valid_addr_of|]. pose proof (S_pos K HK). pose proof (Z.mod_pos_bound b (Slots K) ltac:(lia)).
    assert (b / Slots K * Slots K + Z.of_nat (slot_of K b) = b) as E.
    { unfold slot_of. rewrite Z2Nat.id by lia. pose proof (Z.div_mod b (Slots K)). lia. }
    destruct (heap_blk_spec K HK (b / Slots K) (slot_of K b)) as (Eh & _);
      [apply Z.div_pos; destruct Hb; lia|by apply slot_of_lt|by rewrite E|]. unfold addr_of. by rewrite Eh.
  - destruct (child_spec K HK a s Hv H0 ltac:(lia)) as [-> Hvc]. destruct (child_spec K HK a t Hv H0 ltac:(lia)) as [-> Hvn].
    split; [done|]. split; [by apply parent_of_child; [..|lia]|]. by apply children_in_order.
  - intros a' Hv' E. by apply (phys_inj K HK).
  - by apply phys_spec.
Qed.

(** C30: every block has a place in the map.  With a page size of 1 to 32 kilobytes
    the tree reaches every block number below InvalidBlockNumber: climbing from
    the location of a block with [fsm_get_parent] ends at the root page.  With 512
    bytes it does not, although the comment on FSM_TREE_DEPTH counts that size in:
    the last block numbers belong to a second page of the root level. *)
Theorem fsm_reaches_every_block b :
  is_block b →
  (let a := (fsm_get_location K b).1 in
   Nat.iter (Z.to_nat (FSM_ROOT_LEVEL K)) (λ a, (fsm_get_parent K a).1) a = FSM_ROOT_ADDRESS K) ∧
  (let a := (fsm_get_location 9 (InvalidBlockNumber - 1)).1 in
   FSM_ROOT_ADDRESS 9 = MkFSMAddress 3 0 ∧
   Nat.iter 3 (λ a, (fsm_get_parent 9 a).1) a = MkFSMAddress 3 1).
Proof.
  intros Hb. split; [|split; by vm_compute]. rewrite location_spec by done. cbn [fst].
  pose proof (depth_enough K HK) as (_ & HD & _).
  pose proof (climb_parents K HK (Z.to_nat (FSM_ROOT_LEVEL K)) (addr_of K b) (valid_addr_of K HK b Hb)) as [Hv El].
  { unfold FSM_ROOT_LEVEL. simpl. lia. }
  apply root_unique; [done..|]. rewrite El. unfold FSM_ROOT_LEVEL. simpl. lia.
Qed.

End Props.

(** ** Instances, for blocks of one kilobyte *)

Definition rounds : nat := Z.to_nat 40008.

Lemma rounds_enough : enough 10 rounds.
Proof. unfold enough, rounds. rewrite Z2Nat.id by done. by vm_compute. Qed.

Lemma sample_K : (10 ≤ 10 ≤ 15)%nat.
Proof. lia. Qed.

Lemma sample_record_ok : op_ok 10 (OpRecord 7 500).
Proof. by vm_compute. Qed.

Definition sample_rel : Rel := RecordPageWithFreeSpace 10 no_fsm 7 500.

Lemma sample_inv : fsm_inv 10 sample_rel.
Proof.
  destruct (run_spec 10 sample_K rounds _ no_fsm (no_fsm_inv 10 sample_K) sample_record_ok rounds_enough)
    as (ans & rel' & E & H & _).
  apply (f_equal (λ o, default no_fsm (snd <$> o))) in E. change (sample_rel = rel') in E. by rewrite E.
Qed.

Lemma fsm_refines_categories_witness :
  ∃ ans rel', run 10 rounds (OpRecord 7 500) no_fsm = Some (ans, rel') ∧ fsm_inv 10 rel' ∧
    abs_step 10 (OpRecord 7 500) (recorded 10 no_fsm) ans (recorded 10 rel').
Proof.
  exact (proj2 (fsm_refines_categories 10 sample_K rounds (OpRecord 7 500) no_fsm
    (no_fsm_inv 10 sample_K) sample_record_ok rounds_enough)).
Defined.

Definition sample_history : list fsm_op := [OpVacuum; OpRecord 7 500].
Definition sample_vacuumed : Rel := FreeSpaceMapVacuum 10 sample_rel.
Definition sample_found : Z * Rel := default (0, no_fsm) (fsm_search 10 rounds sample_vacuumed 100).

Lemma fsm_page_has_space_witness :
  ∃ avail, last_avail 10 sample_history 7 = Some avail ∧ 400 <= avail.
Proof.
  refine (fsm_page_has_space 10 sample_K rounds sample_history 400 sample_vacuumed 7 sample_found.2
    rounds_enough _ _ _ _ _).
  - repeat constructor; by vm_compute.
  - by vm_compute.
  - reflexivity.
  - vm_compute. reflexivity.
  - by vm_compute.
Defined.

Lemma fsm_vacuum_makes_search_complete_witness :
  ∃ r rel'', fsm_search 10 4 sample_vacuumed 100 = Some (r, rel'') ∧ is_block r ∧ 100 <= recorded 10 sample_rel r.
Proof.
  refine (proj2 (proj2 (fsm_vacuum_makes_search_complete 10 sample_K sample_rel 4 100 7 sample_inv _ _ _ _))).
  all: by vm_compute.
Defined.

Lemma fsm_categories_witness : fsm_space_cat_to_avail 10 (fsm_space_avail_to_cat 10 501) <= 501.
Proof. refine (proj1 (proj2 (fsm_categories 10 sample_K 100 501 _ _))); by vm_compute. Defined.

Lemma fsm_addresses_witness : 0 <= fsm_logical_to_physical 10 (MkFSMAddress 1 5) < 2 ^ 31.
Proof.
  refine (proj2 (proj2 (proj2 (fsm_addresses 10 sample_K 7 (MkFSMAddress 1 5) 3 4 _ _ _ _))));
    [by vm_compute|by vm_compute|done|]. unfold SlotsPerFSMPage. vm_compute. lia.
Defined.

Lemma fsm_reaches_every_block_witness :
  Nat.iter 3 (λ a, (fsm_get_parent 10 a).1) (fsm_get_location 10 4000000000).1 = FSM_ROOT_ADDRESS 10.
Proof. exact (proj1 (fsm_reaches_every_block 10 sample_K 4000000000 ltac:(by vm_compute))). Defined.

End FreeSpaceProps.
