(* ===== verification/LibPQ.v ===== *)
(** The messages between a backend and its client.

    The first part has the functions of backend/libpq/pqformat.c and pqcomm.c that put a
    message together, the second the parser of interfaces/libpq/fe-protocol3.c with the
    readers of fe-misc.c: [pqParseInput3] goes over the bytes that have arrived, message
    by message, and builds a [PGresult].  As in the code a reader is bounded by the end of
    the bytes that have arrived, not by the end of its message; the length of the message
    is compared afterwards.  The last part has the theorems that what was put together
    is read back, whole or in pieces.

    Memory does not run out.  The messages of COPY, of a described statement and of the
    dispatcher's statistics are not modelled; the parser gives no result for them. *)

From Stdlib Require Import ZArith Lia Ascii.
From stdpp Require Import base list option numbers strings.
From S2P Require Import Prelude.

Module LibPQ.

Definition byte_of (c : ascii) : Z := Z.of_nat (nat_of_ascii c).
Definition char_of (b : Z) : ascii := ascii_of_nat (Z.to_nat b).
Definition bytes_of (s : string) : list Z := byte_of <$> String.list_ascii_of_string s.

(** ** Sending *)

(** [pq_sendint] of 1, 2 or 4 bytes, in network order. *)
Definition pq_sendint (i : Z) (b : nat) : list Z :=
  match b with
  | 1%nat => [u8 i]
  | 2%nat => [u8 (i / 256); u8 i]
  | _ => [u8 (i / 16777216); u8 (i / 65536); u8 (i / 256); u8 i]
  end.
Definition pq_sendint64 (i : Z) : list Z := pq_sendint (i / 2 ^ 32) 4 ++ pq_sendint i 4.
Definition pq_sendstring (s : string) : list Z := bytes_of s ++ [0].

(** A message: its type, its length with the four bytes of the length, its contents. *)
Definition pq_putmessage (msgtype : ascii) (s : list Z) : list Z :=
  byte_of msgtype :: pq_sendint (Z.of_nat (length s) + 4) 4 ++ s.

(** [EndCommand] and [ReadyForQuery] of backend/tcop/dest.c, for DestRemote. *)
Definition EndCommand (commandTag : string) : list Z := pq_putmessage "C" (pq_sendstring commandTag).
Definition ReadyForQuery (vmem : option Z) (status : ascii) : list Z :=
  match vmem with Some v => pq_putmessage "k" (pq_sendint64 v) | None => [] end ++
  pq_putmessage "Z" [byte_of status].

(** ** Reading *)

(** The readers return what they read and the bytes after it; [None] is EOF. *)
Definition pqGetc (buf : list Z) : option (Z * list Z) :=
  match buf with c :: buf => Some (c, buf) | [] => None end.

Fixpoint pqGets (buf : list Z) : option (list Z * list Z) :=
  match buf with
  | [] => None
  | c :: buf => if c =? 0 then Some ([], buf) else '(s, buf) ← pqGets buf; Some (c :: s, buf)
  end.

Definition pqGetInt (bytes : nat) (buf : list Z) : option (Z * list Z) :=
  match bytes, buf with
  | 2%nat, a :: b :: buf => Some (a * 256 + b, buf)
  | 4%nat, a :: b :: c :: d :: buf => Some (s32 (a * 16777216 + b * 65536 + c * 256 + d), buf)
  | _, _ => None
  end.

Definition pqGetInt64 (buf : list Z) : option (list Z) :=
  if (length buf <? 8)%nat then None else Some (drop 8 buf).

Definition pqSkipnchar (len : Z) (buf : list Z) : option (list Z * list Z) :=
  if Z.of_nat (length buf) <? len then None else Some (take (Z.to_nat len) buf, drop (Z.to_nat len) buf).

(** ** Results *)

Inductive ExecStatusType := PGRES_EMPTY_QUERY | PGRES_COMMAND_OK | PGRES_TUPLES_OK | PGRES_FATAL_ERROR.

Record PGresAttDesc := MkAttDesc {
  att_name : list Z; tableid : Z; columnid : Z; typid : Z; typlen : Z; atttypmod : Z; format : Z }.

(** A field of a tuple is its length and its value with the terminating zero. *)
Record PGresult := MkPGresult {
  resultStatus : ExecStatusType; numAttributes : Z; attDescs : list PGresAttDesc;
  tuples : list (list (Z * list Z)); cmdStatus : list Z }.
Definition PQmakeEmptyPGresult (s : ExecStatusType) : PGresult := MkPGresult s 0 [] [] [].
Definition PQntuples (res : PGresult) : Z := Z.of_nat (length (tuples res)).
Definition PQnfields (res : PGresult) : Z := numAttributes res.

Inductive PGAsyncStatusType := PGASYNC_IDLE | PGASYNC_BUSY | PGASYNC_READY.

(** The bytes from inStart to inEnd, the state of the query and the result so far;
    [conn_bad]: the connection was given up. *)
Record Conn := MkPQ { inBuffer : list Z; asyncStatus : PGAsyncStatusType; pq_result : option PGresult; conn_bad : bool }.

Definition pqSaveErrorResult (c : Conn) : Conn :=
  MkPQ (inBuffer c) (asyncStatus c) (Some (PQmakeEmptyPGresult PGRES_FATAL_ERROR)) (conn_bad c).
Definition set_inBuffer (buf : list Z) (c : Conn) : Conn := MkPQ buf (asyncStatus c) (pq_result c) (conn_bad c).
Definition set_asyncStatus (s : PGAsyncStatusType) (c : Conn) : Conn := MkPQ (inBuffer c) s (pq_result c) (conn_bad c).
Definition set_result (r : PGresult) (c : Conn) : Conn := MkPQ (inBuffer c) (asyncStatus c) (Some r) (conn_bad c).

(** The result so far, or a new one with status [s]. *)
Definition result_or (s : ExecStatusType) (c : Conn) : PGresult := default (PQmakeEmptyPGresult s) (pq_result c).

Definition handleSyncLoss (c : Conn) : Conn :=
  let c := pqSaveErrorResult c in MkPQ (inBuffer c) PGASYNC_READY (pq_result c) true.

(** ** Row descriptions and rows *)

Definition s16 (z : Z) : Z := (z + 2 ^ 15) mod 2 ^ 16 - 2 ^ 15.

Definition get_column (buf : list Z) : option (PGresAttDesc * list Z) :=
  '(name, buf) ← pqGets buf;
  '(tableid, buf) ← pqGetInt 4 buf;
  '(columnid, buf) ← pqGetInt 2 buf;
  '(typid, buf) ← pqGetInt 4 buf;
  '(typlen, buf) ← pqGetInt 2 buf;
  '(atttypmod, buf) ← pqGetInt 4 buf;
  '(format, buf) ← pqGetInt 2 buf;
  Some (MkAttDesc name tableid (s16 columnid) typid (s16 typlen) atttypmod (s16 format), buf).

Fixpoint get_columns (nfields : nat) (buf : list Z) : option (list PGresAttDesc * list Z) :=
  match nfields with
  | O => Some ([], buf)
  | S n =>
      '(desc, buf) ← get_column buf;
      '(descs, buf) ← get_columns n buf;
      Some (desc :: descs, buf)
  end.

(** Whether exactly the message was read. *)
Definition absorbed (msgLength : Z) (buf rest : list Z) : bool :=
  Z.of_nat (length buf) - Z.of_nat (length rest) =? msgLength.

Definition read_row_description (msgLength : Z) (buf : list Z) : option (Z * list PGresAttDesc * list Z) :=
  '(nfields, rest) ← pqGetInt 2 buf;
  '(descs, rest) ← get_columns (Z.to_nat nfields) rest;
  if absorbed msgLength buf rest then Some (nfields, descs, rest) else None.

(** Discard the message and report an error at the end of the query. *)
Definition advance_and_error (msgLength : Z) (buf : list Z) (c : Conn) : Conn :=
  pqSaveErrorResult (set_inBuffer (drop (Z.to_nat msgLength) buf) c).

Definition getRowDescriptions (msgLength : Z) (buf : list Z) (c : Conn) : Conn :=
  match read_row_description msgLength buf with
  | Some (nfields, descs, rest) =>
      set_inBuffer rest (set_result (MkPGresult PGRES_TUPLES_OK nfields descs [] []) c)
  | None => advance_and_error msgLength buf c
  end.

(** The loop of [getAnotherTuple]: the length of each field and where its value is. *)
Fixpoint get_fields (nfields : nat) (buf : list Z) : option (list (Z * list Z) * list Z) :=
  match nfields with
  | O => Some ([], buf)
  | S n =>
      '(vlen, buf) ← pqGetInt 4 buf;
      '(value, buf) ← (if 0 <? vlen then pqSkipnchar vlen buf else Some ([], buf));
      '(fields, buf) ← get_fields n buf;
      Some ((vlen, value) :: fields, buf)
  end.

Definition read_row (nfields msgLength : Z) (buf : list Z) : option (list (Z * list Z) * list Z) :=
  '(tupnfields, rest) ← pqGetInt 2 buf;
  if negb (tupnfields =? nfields) then None
  else
    '(fields, rest) ← get_fields (Z.to_nat nfields) rest;
    if absorbed msgLength buf rest then Some (fields, rest) else None.

Definition NULL_LEN : Z := -1.

(** A field as it is copied into the result. *)
Definition row_value (column : Z * list Z) : Z * list Z :=
  let '(clen, value) := column in if clen <? 0 then (NULL_LEN, [0]) else (clen, value ++ [0]).
Definition pqRowProcessor (columns : list (Z * list Z)) (res : PGresult) : PGresult :=
  MkPGresult (resultStatus res) (numAttributes res) (attDescs res) (tuples res ++ [row_value <$> columns]) (cmdStatus res).

Definition getAnotherTuple (msgLength : Z) (buf : list Z) (res : PGresult) (c : Conn) : Conn :=
  match read_row (numAttributes res) msgLength buf with
  | Some (fields, rest) => set_inBuffer rest (set_result (pqRowProcessor fields res) c)
  | None => advance_and_error msgLength buf c
  end.

(** ** Other messages *)

(** The loop of [pqGetErrorNotice3]; every field has two bytes at least. *)
Fixpoint notice_fields (fuel : nat) (buf : list Z) : option (list Z) :=
  match fuel with
  | O => None
  | S fuel =>
      '(id, buf) ← pqGetc buf;
      if id =? 0 then Some buf else '(_, buf) ← pqGets buf; notice_fields fuel buf
  end.
Definition pqGetErrorNotice3 (buf : list Z) : option (list Z) := notice_fields (S (length buf)) buf.

Definition getParameterStatus (buf : list Z) : option (list Z) :=
  '(_, buf) ← pqGets buf; '(_, buf) ← pqGets buf; Some buf.
Definition getNotify (buf : list Z) : option (list Z) :=
  '(_, buf) ← pqGetInt 4 buf; '(_, buf) ← pqGets buf; '(_, buf) ← pqGets buf; Some buf.
Definition getReadyForQuery (buf : list Z) : option (list Z) := '(_, buf) ← pqGetc buf; Some buf.

Definition CMDSTATUS_LEN : nat := 72.
Definition set_cmdStatus (tag : list Z) (res : PGresult) : PGresult :=
  MkPGresult (resultStatus res) (numAttributes res) (attDescs res) (tuples res) (take (CMDSTATUS_LEN - 1) tag).

(** ** [pqParseInput3] *)

(** What becomes of a message: the parser returns with the message still there; it was
    read up to [rest]; or it was dealt with and the parser goes on. *)
Inductive Step := Return (c : Conn) | Consumed (rest : list Z) (c : Conn) | Continue (c : Conn) | NotModelled.

Definition consumed (rest : option (list Z)) (c c' : Conn) : Step :=
  match rest with Some rest => Consumed rest c' | None => Return c end.

(** The switch on the type of the message in BUSY state. *)
Definition busy_message (id : ascii) (msgLength : Z) (buf : list Z) (c : Conn) : Step :=
  let skipped := drop (Z.to_nat msgLength) buf in
  match id with
  | "C"%char =>
      match pqGets buf with
      | None => Return c
      | Some (tag, rest) =>
          Consumed rest (set_asyncStatus PGASYNC_READY (set_result (set_cmdStatus tag (result_or PGRES_COMMAND_OK c)) c))
      end
  | "E"%char =>
      consumed (pqGetErrorNotice3 buf) c
        (set_asyncStatus PGASYNC_READY (set_result (PQmakeEmptyPGresult PGRES_FATAL_ERROR) c))
  | "Z"%char => consumed (getReadyForQuery buf) c (set_asyncStatus PGASYNC_IDLE c)
  | "I"%char => Consumed buf (set_asyncStatus PGASYNC_READY (set_result (result_or PGRES_EMPTY_QUERY c) c))
  | "1"%char | "2"%char | "3"%char | "n"%char | "c"%char => Consumed buf c
  | "S"%char => consumed (getParameterStatus buf) c c
  | "K"%char => consumed ('(_, buf) ← pqGetInt 4 buf; '(_, buf) ← pqGetInt 4 buf; Some buf) c c
  | "T"%char =>
      match pq_result c with
      | None => Continue (getRowDescriptions msgLength buf c)
      | Some _ => Return (set_asyncStatus PGASYNC_READY c)
      end
  | "D"%char =>
      match pq_result c with
      | Some res =>
          match resultStatus res with
          | PGRES_TUPLES_OK => Continue (getAnotherTuple msgLength buf res c)
          | PGRES_FATAL_ERROR => Consumed skipped c
          | _ => Consumed skipped (pqSaveErrorResult c)
          end
      | None => Consumed skipped (pqSaveErrorResult c)
      end
  | "d"%char => Consumed skipped c
  | "o"%char | "t"%char | "G"%char | "H"%char | "W"%char | "j"%char | "Y"%char | "y"%char => NotModelled
  | _ => Consumed skipped (set_asyncStatus PGASYNC_READY (pqSaveErrorResult c))
  end.

Definition message (id : ascii) (msgLength : Z) (buf : list Z) (c : Conn) : Step :=
  match id with
  | "A"%char => consumed (getNotify buf) c c
  | "N"%char => consumed (pqGetErrorNotice3 buf) c c
  | "k"%char => consumed (pqGetInt64 buf) c c
  | _ =>
      match asyncStatus c with
      | PGASYNC_READY => Return c
      | PGASYNC_IDLE =>
          match id with
          | "E"%char => consumed (pqGetErrorNotice3 buf) c c
          | "S"%char => consumed (getParameterStatus buf) c c
          | _ => Consumed (drop (Z.to_nat msgLength) buf) c
          end
      | PGASYNC_BUSY => busy_message id msgLength buf c
      end
  end.

Definition VALID_LONG_MESSAGE_TYPE (id : ascii) : bool :=
  match id with
  | "T"%char | "D"%char | "d"%char | "V"%char | "E"%char | "N"%char | "A"%char | "Y"%char | "y"%char | "o"%char => true
  | _ => false
  end.

(** The end of the loop: the contents agree with the length, or not. *)
Definition finish_message (msgLength : Z) (buf rest : list Z) (c : Conn) : Conn :=
  if absorbed msgLength buf rest then set_inBuffer rest c
  else set_inBuffer (drop (Z.to_nat msgLength) buf) (set_asyncStatus PGASYNC_READY (pqSaveErrorResult c)).

(** [None]: out of fuel or a message that is not modelled. *)
Fixpoint parse_loop (fuel : nat) (c : Conn) : option Conn :=
  match fuel with
  | O => None
  | S fuel =>
      match ('(id, buf) ← pqGetc (inBuffer c); '(msgLength, buf) ← pqGetInt 4 buf; Some (char_of id, msgLength, buf)) with
      | None => Some c
      | Some (id, msgLength, buf) =>
          if (msgLength <? 4) || ((30000 <? msgLength) && negb (VALID_LONG_MESSAGE_TYPE id)) then Some (handleSyncLoss c)
          else
            let msgLength := msgLength - 4 in
            if Z.of_nat (length buf) <? msgLength then Some c
            else
              match message id msgLength buf c with
              | Return c => Some c
              | Consumed rest c => parse_loop fuel (finish_message msgLength buf rest c)
              | Continue c => parse_loop fuel c
              | NotModelled => None
              end
      end
  end.

(** Every message takes five bytes of the buffer at least. *)
Definition pqParseInput3 (c : Conn) : option Conn := parse_loop (S (length (inBuffer c))) c.

(** [PQisBusy], and [PQgetResult] of a connection that is not: the result or NULL. *)
Definition PQisBusy (c : Conn) : option (bool * Conn) :=
  c ← pqParseInput3 c; Some (match asyncStatus c with PGASYNC_BUSY => true | _ => false end, c).
Definition PQgetResult (c : Conn) : option (option PGresult * Conn) :=
  c ← pqParseInput3 c;
  match asyncStatus c with
  | PGASYNC_IDLE => Some (None, c)
  | PGASYNC_READY =>
      Some (Some (result_or PGRES_FATAL_ERROR c), MkPQ (inBuffer c) PGASYNC_BUSY None (conn_bad c))
  | PGASYNC_BUSY => None
  end.

(** ** The parser ends *)

(** The message a parser step leaves behind is shorter. *)
Lemma message_shorter id msgLength buf c c' :
  0 <= msgLength → message id msgLength buf c = Continue c' → (length (inBuffer c') ≤ length buf)%nat.
Proof.
  intros Hm. assert (∀ rest, absorbed msgLength buf rest = true → (length rest ≤ length buf)%nat) as Ha.
  { intros rest E%Z.eqb_eq. lia. }
  assert (∀ o c1 c2, consumed o c1 c2 ≠ Continue c') as Hc by by intros [].
  assert (length (inBuffer (getRowDescriptions msgLength buf c)) ≤ length buf)%nat as Ht.
  { unfold getRowDescriptions, read_row_description. destruct (pqGetInt 2 buf) as [[n rest]|]; cbn;
      [destruct (get_columns _ _) as [[ds rest']|]; cbn; [destruct (absorbed _ _ _) eqn:E; [by apply Ha|]|]|];
      cbn; rewrite length_drop; lia. }
  assert (∀ res, (length (inBuffer (getAnotherTuple msgLength buf res c)) ≤ length buf)%nat) as Hd.
  { intros res. unfold getAnotherTuple, read_row. destruct (pqGetInt 2 buf) as [[n rest]|]; cbn;
      [destruct (negb _); cbn; [|destruct (get_fields _ _) as [[ds rest']|]; cbn; [destruct (absorbed _ _ _) eqn:E; [by apply Ha|]|]]|];
      cbn; rewrite length_drop; lia. }
  unfold message, busy_message. intros E.
  repeat (case_match; try (by injection E as <-); try done; try (by apply Hc in E)).
Qed.

Lemma header_length buf id msgLength rest :
  ('(id, buf) ← pqGetc buf; '(msgLength, buf) ← pqGetInt 4 buf; Some (char_of id, msgLength, buf)) = Some (id, msgLength, rest) →
  (length buf = 5 + length rest)%nat.
Proof. destruct buf as [|? [|? [|? [|? [|? buf]]]]]; try done. cbn. by intros [= _ _ <-]. Qed.

(** The fuel of [pqParseInput3] is enough. *)
Lemma parse_loop_fuel f f' c :
  (length (inBuffer c) < f)%nat → (length (inBuffer c) < f')%nat → parse_loop f c = parse_loop f' c.
Proof.
  revert f' c. induction f as [|f IH]; intros [|f'] c Hf Hf'; [lia..|]. cbn [parse_loop].
  destruct (_ ≫= _) as [[[id msgLength] buf]|] eqn:Eh; [|done]. apply header_length in Eh.
  destruct (_ || _) eqn:Eb; [done|]. apply orb_false_iff in Eb as [Eb%Z.ltb_ge _].
  destruct (Z.of_nat (length buf) <? msgLength - 4); [done|].
  destruct (message id (msgLength - 4) buf c) as [c'|rest c'|c'|] eqn:Em; [done| | |done].
  - assert (length (inBuffer (finish_message (msgLength - 4) buf rest c')) ≤ length buf)%nat.
    { unfold finish_message. destruct (absorbed _ _ _) eqn:E; cbn; [|rewrite length_drop; lia].
      apply Z.eqb_eq in E. lia. }
    apply IH; lia.
  - apply message_shorter in Em; [|lia]. apply IH; lia.
Qed.

(** ** What was put together is read back *)

Lemma getint_send2 i rest : 0 <= i < 2 ^ 16 → pqGetInt 2 (pq_sendint i 2 ++ rest) = Some (i, rest).
Proof.
  intros Hi. cbn. unfold u8. f_equal. f_equal. rewrite (Z.mod_small (i / 256)) by (split; [apply Z.div_pos|apply Z.div_lt_upper_bound]; lia).
  change (2 ^ 8) with 256. rewrite Z.mul_comm. symmetry. apply Z.div_mod. lia.
Qed.

(** Four bytes, the highest one first. *)
Lemma bytes4 i :
  u8 (i / 16777216) * 16777216 + u8 (i / 65536) * 65536 + u8 (i / 256) * 256 + u8 i = i mod 2 ^ 32.
Proof.
  unfold u8. change (2 ^ 8) with 256. change (2 ^ 32) with 4294967296.
  change 16777216 with (256 * (256 * 256)) at 1. change 65536 with (256 * 256) at 1. rewrite <- !Z.div_div by lia.
  change 4294967296 with (256 * (256 * (256 * 256))).
  rewrite (Z.rem_mul_r i 256 (256 * (256 * 256))), (Z.rem_mul_r _ 256 (256 * 256)), (Z.rem_mul_r _ 256 256) by lia. lia.
Qed.

Lemma getint_send4 i rest : is_s32 i → pqGetInt 4 (pq_sendint i 4 ++ rest) = Some (i, rest).
Proof.
  intros Hi. cbn. rewrite bytes4. f_equal. f_equal. unfold s32, is_s32 in *.
  rewrite Zplus_mod_idemp_l, Z.mod_small; lia.
Qed.

Lemma gets_string s rest : Forall (λ b, b ≠ 0) s → pqGets (s ++ 0 :: rest) = Some (s, rest).
Proof.
  induction 1 as [|b s Hb _ IH]; [done|]. cbn [pqGets app]. rewrite (proj2 (Z.eqb_neq b 0) Hb). by rewrite IH.
Qed.

Lemma char_of_byte t : char_of (byte_of t) = t.
Proof. unfold char_of, byte_of. rewrite Nat2Z.id. apply ascii_nat_embedding. Qed.

Lemma header_message t s rest :
  Z.of_nat (length s) + 4 < 2 ^ 31 →
  ('(id, buf) ← pqGetc (pq_putmessage t s ++ rest); '(msgLength, buf) ← pqGetInt 4 buf; Some (char_of id, msgLength, buf))
  = Some (t, Z.of_nat (length s) + 4, s ++ rest).
Proof.
  intros Hs. unfold pq_putmessage. cbn [app pqGetc mbind option_bind]. rewrite <- app_assoc.
  rewrite getint_send4 by (unfold is_s32; lia). cbn. by rewrite char_of_byte.
Qed.

Section Message.
Context (t : ascii) (s : list Z) (Hs : Z.of_nat (length s) + 4 <= 30000).

(** A whole message at the beginning of the buffer. *)
Lemma parse_message f rest c :
  inBuffer c = pq_putmessage t s ++ rest →
  parse_loop (S f) c =
    match message t (Z.of_nat (length s)) (s ++ rest) c with
    | Return c => Some c
    | Consumed rest' c => parse_loop f (finish_message (Z.of_nat (length s)) (s ++ rest) rest' c)
    | Continue c => parse_loop f c
    | NotModelled => None
    end.
Proof.
  intros E. cbn [parse_loop]. rewrite E, header_message by lia. rewrite Z.add_simpl_r.
  rewrite (proj2 (Z.ltb_ge _ 4)), (proj2 (Z.ltb_ge 30000 _)) by lia. cbn [andb orb].
  rewrite (proj2 (Z.ltb_ge _ _)); [done|]. rewrite length_app. lia.
Qed.

(** A part of a message. *)
Lemma parse_partial f n c :
  (n < length (pq_putmessage t s))%nat → inBuffer c = take n (pq_putmessage t s) → parse_loop (S f) c = Some c.
Proof.
  intros Hn E. cbn [parse_loop]. rewrite E. destruct (decide (n < 5)%nat) as [Hlt|Hge].
  { by destruct n as [|[|[|[|[|n]]]]]; [..|lia]. }
  assert (('(id, buf) ← pqGetc (take n (pq_putmessage t s)); '(msgLength, buf) ← pqGetInt 4 buf; Some (char_of id, msgLength, buf))
    = Some (t, Z.of_nat (length s) + 4, take (n - 5) s)) as ->.
  { pose proof (header_message t s [] ltac:(lia)) as H. rewrite !app_nil_r in H. revert H.
    unfold pq_putmessage. destruct n as [|[|[|[|[|n]]]]]; [lia..|]. rewrite Nat.sub_succ, !Nat.sub_succ, Nat.sub_0_r.
    cbn. intros [= -> ->]. done. }
  rewrite (proj2 (Z.ltb_ge _ 4)), (proj2 (Z.ltb_ge 30000 _)) by lia. cbn [andb orb].
  rewrite (proj2 (Z.ltb_lt _ _)); [done|]. rewrite length_take.
  unfold pq_putmessage in Hn. cbn in Hn. lia.
Qed.

(** The first [n] bytes of a message and what follows it. *)
Lemma parse_take f n rest c :
  inBuffer c = take n (pq_putmessage t s ++ rest) →
  parse_loop (S f) c =
    if (n <? length (pq_putmessage t s))%nat then Some c
    else
      let buf := s ++ take (n - length (pq_putmessage t s)) rest in
      match message t (Z.of_nat (length s)) buf c with
      | Return c => Some c
      | Consumed rest' c => parse_loop f (finish_message (Z.of_nat (length s)) buf rest' c)
      | Continue c => parse_loop f c
      | NotModelled => None
      end.
Proof.
  intros E. rewrite take_app in E. destruct (Nat.ltb_spec n (length (pq_putmessage t s))) as [Hn|Hn].
  - apply (parse_partial f n); [done|]. rewrite E. replace (n - _)%nat with 0%nat by lia. by rewrite app_nil_r.
  - apply parse_message. rewrite E. by rewrite (take_ge (pq_putmessage t s)).
Qed.

End Message.

Lemma absorbed_app s rest : absorbed (Z.of_nat (length s)) (s ++ rest) rest = true.
Proof. unfold absorbed. rewrite length_app. apply Z.eqb_eq. lia. Qed.

(** ** Rows *)

(** A field as the server sends it. *)
Definition put_field (v : list Z) : list Z := pq_sendint (Z.of_nat (length v)) 4 ++ v.

Lemma get_fields_put vs rest :
  Forall (λ v, 0 < Z.of_nat (length v) < 2 ^ 31) vs →
  get_fields (length vs) (concat (put_field <$> vs) ++ rest) = Some ((λ v, (Z.of_nat (length v), v)) <$> vs, rest).
Proof.
  induction 1 as [|v vs Hv _ IH]; [done|]. cbn [length get_fields fmap list_fmap concat]. unfold put_field at 1.
  rewrite <- !app_assoc, getint_send4 by (unfold is_s32; lia). cbn [mbind option_bind].
  rewrite (proj2 (Z.ltb_lt 0 _)) by lia. unfold pqSkipnchar.
  rewrite (proj2 (Z.ltb_ge _ _)) by (rewrite length_app; lia). cbn [mbind option_bind].
  rewrite Nat2Z.id, take_app_length, drop_app_length. by rewrite IH.
Qed.

Lemma read_row_put vs rest :
  Forall (λ v, 0 < Z.of_nat (length v) < 2 ^ 31) vs → Z.of_nat (length vs) < 2 ^ 16 →
  let row := pq_sendint (Z.of_nat (length vs)) 2 ++ concat (put_field <$> vs) in
  read_row (Z.of_nat (length vs)) (Z.of_nat (length row)) (row ++ rest) =
    Some ((λ v, (Z.of_nat (length v), v)) <$> vs, rest).
Proof.
  intros Hv Hn row. unfold read_row.
  assert (pqGetInt 2 (row ++ rest) = Some (Z.of_nat (length vs), concat (put_field <$> vs) ++ rest)) as ->.
  { unfold row. by rewrite <- app_assoc, getint_send2 by lia. }
  cbn [mbind option_bind].
  rewrite Z.eqb_refl. cbn [negb]. rewrite Nat2Z.id, get_fields_put by done. cbn [mbind option_bind].
  by rewrite absorbed_app.
Qed.

(** ** Row descriptions *)

(** A column as the server describes it. *)
Definition put_column (d : PGresAttDesc) : list Z :=
  att_name d ++ 0 :: pq_sendint (tableid d) 4 ++ pq_sendint (columnid d) 2 ++ pq_sendint (typid d) 4 ++
  pq_sendint (typlen d) 2 ++ pq_sendint (atttypmod d) 4 ++ pq_sendint (format d) 2.

Definition is_s16 (z : Z) : Prop := - 2 ^ 15 <= z < 2 ^ 15.
Record column_ok (d : PGresAttDesc) : Prop := MkColumnOk {
  ok_name : Forall (λ b, b ≠ 0) (att_name d);
  ok_tableid : is_s32 (tableid d); ok_columnid : is_s16 (columnid d); ok_typid : is_s32 (typid d);
  ok_typlen : is_s16 (typlen d); ok_atttypmod : is_s32 (atttypmod d); ok_format : is_s16 (format d) }.

Lemma getint_send2_signed i rest :
  is_s16 i → ∃ x, pqGetInt 2 (pq_sendint i 2 ++ rest) = Some (x, rest) ∧ s16 x = i.
Proof.
  intros Hi. exists (i mod 2 ^ 16). split.
  - rewrite <- (getint_send2 (i mod 2 ^ 16)) by (apply Z.mod_pos_bound; lia). unfold pq_sendint, u8.
    change (2 ^ 16) with (256 * 256). change (2 ^ 8) with 256.
    rewrite (Z.rem_mul_r i 256 256), (Z.mul_comm 256 (_ mod _)), Z.div_add, Z.mod_add by lia.
    by rewrite (Z.div_small (i mod 256)), Z.add_0_l, !Z.mod_mod by (try apply Z.mod_pos_bound; lia).
  - unfold s16, is_s16 in *. rewrite Zplus_mod_idemp_l, Z.mod_small; lia.
Qed.

Lemma get_column_put d rest : column_ok d → get_column (put_column d ++ rest) = Some (d, rest).
Proof.
  intros [H1 H2 H3 H4 H5 H6 H7]. destruct d as [nm ti ci ty tl tm fm]. cbn [att_name tableid columnid typid typlen atttypmod format] in *.
  unfold get_column, put_column. cbn [att_name tableid columnid typid typlen atttypmod format].
  rewrite <- app_assoc. cbn [app]. rewrite gets_string by done. cbn [mbind option_bind]. rewrite <- !app_assoc.
  destruct (getint_send2_signed ci (pq_sendint ty 4 ++ pq_sendint tl 2 ++ pq_sendint tm 4 ++ pq_sendint fm 2 ++ rest) H3) as (x & Ex & Sx).
  destruct (getint_send2_signed tl (pq_sendint tm 4 ++ pq_sendint fm 2 ++ rest) H5) as (y & Ey & Sy).
  destruct (getint_send2_signed fm rest H7) as (z & Ez & Sz).
  rewrite getint_send4 by done. cbn [mbind option_bind]. rewrite Ex. cbn [mbind option_bind].
  rewrite getint_send4 by done. cbn [mbind option_bind]. rewrite Ey. cbn [mbind option_bind].
  rewrite getint_send4 by done. cbn [mbind option_bind]. rewrite Ez. cbn [mbind option_bind]. by rewrite Sx, Sy, Sz.
Qed.

Lemma get_columns_put ds rest :
  Forall column_ok ds → get_columns (length ds) (concat (put_column <$> ds) ++ rest) = Some (ds, rest).
Proof.
  induction 1 as [|d ds Hd _ IH]; [done|]. cbn [length get_columns fmap list_fmap concat]. rewrite <- app_assoc.
  rewrite get_column_put by done. cbn [mbind option_bind]. by rewrite IH.
Qed.

Lemma read_row_description_put ds rest :
  Forall column_ok ds → Z.of_nat (length ds) < 2 ^ 16 →
  let row := pq_sendint (Z.of_nat (length ds)) 2 ++ concat (put_column <$> ds) in
  read_row_description (Z.of_nat (length row)) (row ++ rest) = Some (Z.of_nat (length ds), ds, rest).
Proof.
  intros Hd Hn row. unfold read_row_description.
  assert (pqGetInt 2 (row ++ rest) = Some (Z.of_nat (length ds), concat (put_column <$> ds) ++ rest)) as ->.
  { unfold row. by rewrite <- app_assoc, getint_send2 by lia. }
  cbn [mbind option_bind]. rewrite Nat2Z.id, get_columns_put by done. cbn [mbind option_bind]. by rewrite absorbed_app.
Qed.

(** The other way round: what is read is what was put together. *)
Lemma getint2_inv buf x rest :
  Forall is_u8 buf → pqGetInt 2 buf = Some (x, rest) →
  buf = pq_sendint x 2 ++ rest ∧ buf = pq_sendint (s16 x) 2 ++ rest ∧ 0 <= x < 2 ^ 16 ∧ is_s16 (s16 x) ∧ Forall is_u8 rest.
Proof.
  intros Hb. destruct buf as [|a [|b buf]]; try done. cbn [pqGetInt]. intros [= <- <-].
  inversion_clear Hb as [|? ? Ha Hb']. inversion_clear Hb' as [|? ? Hb Hr]. unfold is_u8 in *.
  assert (∀ k, pq_sendint (a * 256 + b + k * 65536) 2 = [a; b]) as Hk.
  { intros k. cbn. unfold u8. change (2 ^ 8) with 256.
    replace (a * 256 + b + k * 65536) with (b + (a + k * 256) * 256) by lia.
    rewrite Z.div_add, Z.mod_add, (Z.div_small b), Z.add_0_l, Z.mod_add, !Z.mod_small by lia. done. }
  split; [specialize (Hk 0); rewrite Z.mul_0_l, Z.add_0_r in Hk; by rewrite Hk|].
  assert (s16 (a * 256 + b) = a * 256 + b ∨ s16 (a * 256 + b) = a * 256 + b + (-1) * 65536) as Hs.
  { unfold s16. destruct (decide (a * 256 + b < 2 ^ 15)); [left; rewrite Z.mod_small; lia|right].
    rewrite <- (Z.mod_unique_pos (a * 256 + b + 2 ^ 15) (2 ^ 16) 1 (a * 256 + b - 2 ^ 15)); lia. }
  split; [|split; [lia|split; [|done]]].
  - destruct Hs as [-> | ->]; [specialize (Hk 0); rewrite Z.mul_0_l, Z.add_0_r in Hk|specialize (Hk (-1))]; by rewrite Hk.
  - unfold is_s16, s16. pose proof (Z.mod_pos_bound (a * 256 + b + 2 ^ 15) (2 ^ 16)). lia.
Qed.

Lemma getint4_inv buf x rest :
  Forall is_u8 buf → pqGetInt 4 buf = Some (x, rest) →
  buf = pq_sendint x 4 ++ rest ∧ is_s32 x ∧ Forall is_u8 rest.
Proof.
  intros Hb. destruct buf as [|a [|b [|c [|d buf]]]]; try done. cbn [pqGetInt]. intros [= <- <-].
  do 4 (inversion_clear Hb as [|? ? ? Hb']; rename Hb' into Hb). unfold is_u8 in *.
  set (v := a * 16777216 + b * 65536 + c * 256 + d).
  assert (∃ k, s32 v = v + k * 4294967296) as [k Hk].
  { exists (- ((v + 2 ^ 31) / 2 ^ 32)). unfold s32. rewrite Z.mod_eq by lia. lia. }
  split; [|split; [apply s32_range|done]]. rewrite Hk. unfold v. cbn. unfold u8. change (2 ^ 8) with 256.
  replace (a * 16777216 + b * 65536 + c * 256 + d + k * 4294967296)
    with (d + (c + (b + (a + k * 256) * 256) * 256) * 256) by lia.
  change 16777216 with (256 * (256 * 256)). change 65536 with (256 * 256). rewrite <- !Z.div_div by lia.
  rewrite !Z.div_add, !Z.mod_add by lia.
  rewrite (Z.div_small d), Z.add_0_l, Z.div_add, Z.mod_add by lia.
  rewrite (Z.div_small c), Z.add_0_l, Z.div_add, Z.mod_add by lia.
  rewrite (Z.div_small b), Z.add_0_l, Z.mod_add by lia. by rewrite !Z.mod_small by lia.
Qed.

Lemma gets_inv buf str rest :
  pqGets buf = Some (str, rest) → buf = str ++ 0 :: rest ∧ Forall (λ b, b ≠ 0) str.
Proof.
  revert str. induction buf as [|b buf IH]; intros str; cbn; [done|].
  destruct (Z.eqb_spec b 0) as [->|Hb]; [intros [= <- <-]; by split|].
  destruct (pqGets buf) as [[s' r']|]; [|done]. intros [= <- <-]. destruct (IH s' eq_refl) as [-> ?]. split; [done|by constructor].
Qed.

Lemma get_column_inv buf d rest :
  Forall is_u8 buf → get_column buf = Some (d, rest) →
  buf = put_column d ++ rest ∧ column_ok d ∧ Forall is_u8 rest.
Proof.
  intros Hb. unfold get_column.
  destruct (pqGets buf) as [[nm b1]|] eqn:E; cbn [mbind option_bind]; [|done].
  apply gets_inv in E as [-> Hnm]. apply Forall_app in Hb as [_ Hb]. inversion_clear Hb as [|? ? _ Hb1].
  destruct (pqGetInt 4 b1) as [[ti b2]|] eqn:E; cbn [mbind option_bind]; [|done]. apply getint4_inv in E as (-> & H1 & Hb2); [|done].
  destruct (pqGetInt 2 b2) as [[ci b3]|] eqn:E; cbn [mbind option_bind]; [|done]. apply getint2_inv in E as (_ & -> & _ & H2 & Hb3); [|done].
  destruct (pqGetInt 4 b3) as [[ty b4]|] eqn:E; cbn [mbind option_bind]; [|done]. apply getint4_inv in E as (-> & H3 & Hb4); [|done].
  destruct (pqGetInt 2 b4) as [[tl b5]|] eqn:E; cbn [mbind option_bind]; [|done]. apply getint2_inv in E as (_ & -> & _ & H4 & Hb5); [|done].
  destruct (pqGetInt 4 b5) as [[tm b6]|] eqn:E; cbn [mbind option_bind]; [|done]. apply getint4_inv in E as (-> & H5 & Hb6); [|done].
  destruct (pqGetInt 2 b6) as [[fm b7]|] eqn:E; cbn [mbind option_bind]; [|done]. apply getint2_inv in E as (_ & -> & _ & H6 & Hb7); [|done].
  intros [= <- <-]. unfold put_column. cbn [att_name tableid columnid typid typlen atttypmod format].
  split; [by rewrite <- !app_assoc; cbn [app]; rewrite <- !app_assoc|]. by split.
Qed.

Lemma get_columns_inv n buf ds rest :
  Forall is_u8 buf → get_columns n buf = Some (ds, rest) →
  length ds = n ∧ buf = concat (put_column <$> ds) ++ rest ∧ Forall column_ok ds.
Proof.
  revert buf ds. induction n as [|n IH]; intros buf ds Hb; cbn [get_columns]; [by intros [= <- <-]|].
  destruct (get_column buf) as [[d b1]|] eqn:E; cbn [mbind option_bind]; [|done].
  apply get_column_inv in E as (-> & Hd & Hb1); [|done].
  destruct (get_columns n b1) as [[ds' b2]|] eqn:E; cbn [mbind option_bind]; [|done]. intros [= <- <-].
  destruct (IH b1 ds' Hb1 E) as (El & -> & Hds). cbn [length fmap list_fmap concat].
  split; [congruence|]. split; [by rewrite app_assoc|by constructor].
Qed.

(** A row description is accepted exactly if it is the description of some columns and
    has the length that was announced. *)
Theorem row_description_accepted msgLength buf nfields ds rest :
  Forall is_u8 buf →
  read_row_description msgLength buf = Some (nfields, ds, rest) ↔
  buf = pq_sendint nfields 2 ++ concat (put_column <$> ds) ++ rest ∧
  nfields = Z.of_nat (length ds) ∧ nfields < 2 ^ 16 ∧ Forall column_ok ds ∧
  msgLength = Z.of_nat (length buf) - Z.of_nat (length rest).
Proof.
  intros Hb. unfold read_row_description. split.
  - destruct (pqGetInt 2 buf) as [[n b1]|] eqn:E; cbn [mbind option_bind]; [|done].
    apply getint2_inv in E as (E1 & _ & Hn & _ & Hb1); [|done].
    destruct (get_columns _ b1) as [[ds' b2]|] eqn:E; cbn [mbind option_bind]; [|done].
    apply get_columns_inv in E as (El & -> & Hds); [|done]. unfold absorbed.
    destruct (Z.eqb_spec (Z.of_nat (length buf) - Z.of_nat (length b2)) msgLength); [|done]. intros [= <- <- <-].
    split_and!; [done|lia|lia|done|done].
  - intros (-> & -> & Hn & Hds & ->). rewrite getint_send2 by lia. cbn [mbind option_bind].
    rewrite Nat2Z.id, get_columns_put by done. cbn [mbind option_bind]. unfold absorbed. by rewrite Z.eqb_refl.
Qed.

End LibPQ.
