(* ===== verification/Fts.v ===== *)
(** The fault tolerance service: the prober of ftsprobe.c and fts.c.

    One process probes the primaries of all primary-mirror pairs, updates the
    segment configuration and sends SYNCREP_OFF or PROMOTE.  The state of a pair
    is [fts_segment_info]; [World] holds what the prober shares with others: the
    catalog gp_segment_configuration, the shared-memory status, the shutdown flag
    and, for the statements, a trace of what it did and whether every Assert held.
    The answers of libpq, poll() and time() are the inputs of an iteration, [Env].
    An ERROR ends the process. *)

From Stdlib Require Import ZArith Lia Ascii.
From stdpp Require Import base gmap list option numbers strings.
From S2P Require Import Prelude.

Module Fts.

(** ** Configuration *)

Definition GP_SEGMENT_CONFIGURATION_ROLE_PRIMARY : ascii := "p".
Definition GP_SEGMENT_CONFIGURATION_ROLE_MIRROR : ascii := "m".
Definition GP_SEGMENT_CONFIGURATION_STATUS_UP : ascii := "u".
Definition GP_SEGMENT_CONFIGURATION_STATUS_DOWN : ascii := "d".
Definition GP_SEGMENT_CONFIGURATION_MODE_INSYNC : ascii := "s".
Definition GP_SEGMENT_CONFIGURATION_MODE_NOTINSYNC : ascii := "n".

Record CdbComponentDatabaseInfo := MkCdb {
  dbid : Z; segindex : Z; role : ascii; mode : ascii; status : ascii }.

Definition SEGMENT_IS_ACTIVE_MIRROR (p : CdbComponentDatabaseInfo) : bool :=
  Ascii.eqb (role p) GP_SEGMENT_CONFIGURATION_ROLE_MIRROR.
Definition SEGMENT_IS_ACTIVE_PRIMARY (p : CdbComponentDatabaseInfo) : bool :=
  Ascii.eqb (role p) GP_SEGMENT_CONFIGURATION_ROLE_PRIMARY.
Definition SEGMENT_IS_ALIVE (p : CdbComponentDatabaseInfo) : bool :=
  Ascii.eqb (status p) GP_SEGMENT_CONFIGURATION_STATUS_UP.
Definition SEGMENT_IS_IN_SYNC (p : CdbComponentDatabaseInfo) : bool :=
  Ascii.eqb (mode p) GP_SEGMENT_CONFIGURATION_MODE_INSYNC.
Definition SEGMENT_IS_NOT_INSYNC (p : CdbComponentDatabaseInfo) : bool :=
  Ascii.eqb (mode p) GP_SEGMENT_CONFIGURATION_MODE_NOTINSYNC.

Record CdbComponentDatabases := MkCdbs {
  segment_db_info : list CdbComponentDatabaseInfo; total_segments : Z }.

(** ** The state of a pair *)

Record fts_result := MkResult {
  isPrimaryAlive : bool; isMirrorAlive : bool; isInSync : bool;
  isSyncRepEnabled : bool; isRoleMirror : bool; retryRequested : bool }.
Definition no_result : fts_result := MkResult false false false false false false.

Inductive FtsMessageState :=
  | FTS_PROBE_SEGMENT | FTS_SYNCREP_OFF_SEGMENT | FTS_PROMOTE_SEGMENT
  | FTS_PROBE_RETRY_WAIT | FTS_SYNCREP_OFF_RETRY_WAIT | FTS_PROMOTE_RETRY_WAIT
  | FTS_PROBE_SUCCESS | FTS_SYNCREP_OFF_SUCCESS | FTS_PROMOTE_SUCCESS
  | FTS_PROBE_FAILED | FTS_SYNCREP_OFF_FAILED | FTS_PROMOTE_FAILED
  | FTS_RESPONSE_PROCESSED.

#[export] Instance FtsMessageState_eq_dec : EqDecision FtsMessageState.
Proof. solve_decision. Defined.

Definition IsFtsMessageStateSuccess (s : FtsMessageState) : bool :=
  match s with FTS_PROBE_SUCCESS | FTS_SYNCREP_OFF_SUCCESS | FTS_PROMOTE_SUCCESS => true | _ => false end.
Definition IsFtsMessageStateFailed (s : FtsMessageState) : bool :=
  match s with FTS_PROBE_FAILED | FTS_SYNCREP_OFF_FAILED | FTS_PROMOTE_FAILED => true | _ => false end.

(** An xlog position: log file and offset. *)
Definition XLogRecPtr : Type := Z * Z.
Definition XLByteLE (a b : XLogRecPtr) : bool :=
  (a.1 <? b.1) || ((a.1 =? b.1) && (a.2 <=? b.2)).

(** What the error message of a failed connection says about recovery: nothing,
    that it is in progress without a readable position, or the position. *)
Inductive RecoveryMsg := NotInRecovery | InRecoveryInvalid | InRecoveryAt (ptr : XLogRecPtr).

(** The fields of the libpq connection that the prober looks at: the peer, the
    status, whether no query is under way, and the last error. *)
Inductive ConnStatus := CONNECTION_OK | CONNECTION_BAD | CONNECTION_STARTED.
#[export] Instance ConnStatus_eq_dec : EqDecision ConnStatus.
Proof. solve_decision. Defined.
Record PGconn := MkConn {
  conn_peer : Z; conn_status : ConnStatus; conn_idle : bool; conn_error : RecoveryMsg }.

Record fts_segment_info := MkInfo {
  primary_cdbinfo : CdbComponentDatabaseInfo;
  mirror_cdbinfo : CdbComponentDatabaseInfo;
  seg_result : fts_result;
  state : FtsMessageState;
  poll_events : Z;
  poll_revents : Z;
  fd_index : Z;
  startTime : Z;
  retryStartTime : Z;
  conn : option PGconn;
  retry_count : Z;
  xlogrecptr : XLogRecPtr;
  recovery_making_progress : bool }.

Definition set_state s (f : fts_segment_info) := MkInfo (primary_cdbinfo f) (mirror_cdbinfo f) (seg_result f) s
  (poll_events f) (poll_revents f) (fd_index f) (startTime f) (retryStartTime f) (conn f) (retry_count f)
  (xlogrecptr f) (recovery_making_progress f).
Definition set_result r (f : fts_segment_info) := MkInfo (primary_cdbinfo f) (mirror_cdbinfo f) r (state f)
  (poll_events f) (poll_revents f) (fd_index f) (startTime f) (retryStartTime f) (conn f) (retry_count f)
  (xlogrecptr f) (recovery_making_progress f).
Definition set_events e r (f : fts_segment_info) := MkInfo (primary_cdbinfo f) (mirror_cdbinfo f) (seg_result f) (state f)
  e r (fd_index f) (startTime f) (retryStartTime f) (conn f) (retry_count f)
  (xlogrecptr f) (recovery_making_progress f).
Definition set_fd_index i (f : fts_segment_info) := MkInfo (primary_cdbinfo f) (mirror_cdbinfo f) (seg_result f) (state f)
  (poll_events f) (poll_revents f) i (startTime f) (retryStartTime f) (conn f) (retry_count f)
  (xlogrecptr f) (recovery_making_progress f).
Definition set_startTime t (f : fts_segment_info) := MkInfo (primary_cdbinfo f) (mirror_cdbinfo f) (seg_result f) (state f)
  (poll_events f) (poll_revents f) (fd_index f) t (retryStartTime f) (conn f) (retry_count f)
  (xlogrecptr f) (recovery_making_progress f).
Definition set_retry t n (f : fts_segment_info) := MkInfo (primary_cdbinfo f) (mirror_cdbinfo f) (seg_result f) (state f)
  (poll_events f) (poll_revents f) (fd_index f) (startTime f) t (conn f) n
  (xlogrecptr f) (recovery_making_progress f).
Definition set_conn c (f : fts_segment_info) := MkInfo (primary_cdbinfo f) (mirror_cdbinfo f) (seg_result f) (state f)
  (poll_events f) (poll_revents f) (fd_index f) (startTime f) (retryStartTime f) c (retry_count f)
  (xlogrecptr f) (recovery_making_progress f).
Definition set_recovery p b (f : fts_segment_info) := MkInfo (primary_cdbinfo f) (mirror_cdbinfo f) (seg_result f) (state f)
  (poll_events f) (poll_revents f) (fd_index f) (startTime f) (retryStartTime f) (conn f) (retry_count f) p b.
Definition set_pair p m (f : fts_segment_info) := MkInfo p m (seg_result f) (state f)
  (poll_events f) (poll_revents f) (fd_index f) (startTime f) (retryStartTime f) (conn f) (retry_count f)
  (xlogrecptr f) (recovery_making_progress f).

(** ** What the prober shares *)

(** A row of gp_segment_configuration. *)
Record ConfigRow := MkRow { row_role : ascii; row_mode : ascii; row_status : ascii }.

Record FtsProbeInfo := MkProbeInfo {
  fts_statusVersion : Z; probeTick : Z; fts_status : gmap Z Z }.

(** What [probeWalRepUpdateConfig] writes. *)
Record ConfigUpdate := MkUpdate {
  up_dbid : Z; up_role : ascii; up_alive : bool; up_insync : bool }.

Inductive Event :=
  | EvConnect (dbid : Z)
  | EvSend (dbid : Z) (message : string)
  | EvReply (dbid : Z) (message : string) (r : fts_result)
  | EvCommit (updates : list ConfigUpdate)
  | EvFinish (dbid : Z).

Record World := MkWorld {
  config : gmap Z ConfigRow;
  history : list ConfigUpdate;
  probe_info : FtsProbeInfo;
  shutdown_requested : bool;
  asserts : bool;
  trace : list Event }.

(** ** The monad: state and ERROR *)

Definition M (A : Type) : Type := World → result (A * World).
#[export] Instance M_ret : MRet M := λ A a w, Ok (a, w).
#[export] Instance M_bind : MBind M := λ A B f m w,
  match m w with Ok (a, w) => f a w | Err e => Err e end.

Definition raise {A} (msg : string) : M A := λ _, Err msg.
Definition modify (f : World → World) : M unit := λ w, Ok (tt, f w).
Definition get : M World := λ w, Ok (w, w).
Definition Assert (b : bool) : M unit := modify (λ w,
  MkWorld (config w) (history w) (probe_info w) (shutdown_requested w) (asserts w && b) (trace w)).
Definition emit (e : Event) : M unit := modify (λ w,
  MkWorld (config w) (history w) (probe_info w) (shutdown_requested w) (asserts w) (e :: trace w)).
Definition set_config (c : gmap Z ConfigRow) (h : list ConfigUpdate) : M unit := modify (λ w,
  MkWorld c h (probe_info w) (shutdown_requested w) (asserts w) (trace w)).
Definition set_probe_info (i : FtsProbeInfo) : M unit := modify (λ w,
  MkWorld (config w) (history w) i (shutdown_requested w) (asserts w) (trace w)).

(** A signal may set the shutdown flag; nothing resets it. *)
Definition signal (b : bool) : M unit := modify (λ w,
  MkWorld (config w) (history w) (probe_info w) (shutdown_requested w || b) (asserts w) (trace w)).
Definition FtsIsActive : M bool := w ← get; mret (negb (shutdown_requested w)).

(** [PQfinish] of a connection that may be NULL. *)
Definition PQfinish (c : option PGconn) : M unit :=
  match c with Some c => emit (EvFinish (conn_peer c)) | None => mret tt end.

(** ** The inputs of an iteration *)

Inductive PollingStatus :=
  | PGRES_POLLING_OK | PGRES_POLLING_READING | PGRES_POLLING_WRITING
  | PGRES_POLLING_FAILED (error : RecoveryMsg) | PGRES_POLLING_OTHER.

(** The outcome of reading a response: PQconsumeInput fails, PQisBusy, PQgetResult
    gives nothing or the connection is bad, an error result, or tuples.  The last
    one has the memory at the value of each field of the first tuple. *)
Inductive Reply :=
  | ConsumeFailed | StillBusy | NoResult | ErrorResult
  | TuplesResult (ntuples nfields : Z) (values : nat → list Z).

Record SegEnv := MkSegEnv {
  se_start : option ConnStatus;   (* PQconnectStart: NULL, or the status *)
  se_start_time : Z;              (* time() in ftsConnectStart *)
  se_polling : PollingStatus;     (* PQconnectPoll *)
  se_sent : bool;                 (* PQsendQuery *)
  se_reply : string → Reply;      (* by the message that was sent *)
  se_signal : bool }.             (* a shutdown signal before the response is processed *)

Record Env := MkEnv {
  e_seg : nat → SegEnv;
  e_poll : list Z → Z * bool * list Z;  (* events to nready, errno is EINTR, revents *)
  e_now_poll : Z;
  e_now_retry : Z;
  e_signal : bool }.                    (* a shutdown signal before the loop condition *)

Section Prober.
Context (gp_fts_probe_retries gp_fts_probe_timeout : Z).

Definition POLLIN : Z := 1.
Definition POLLOUT : Z := 4.
Definition POLLERR : Z := 8.
Definition POLLHUP : Z := 16.
Definition has (events mask : Z) : bool := negb (Z.land events mask =? 0).

(** The loops over [perSegInfos]. *)
Fixpoint for_segs (f : nat → fts_segment_info → M fts_segment_info) (i : nat)
    (l : list fts_segment_info) : M (list fts_segment_info) :=
  match l with
  | [] => mret []
  | info :: l => info ← f i info; l ← for_segs f (S i) l; mret (info :: l)
  end.

Definition FtsGetPeerSegment (cdbs : CdbComponentDatabases) (content dbid0 : Z) : option CdbComponentDatabaseInfo :=
  find (λ s, (segindex s =? content) && negb (dbid s =? dbid0)) (segment_db_info cdbs).

Definition nextSuccessState (s : FtsMessageState) : M FtsMessageState :=
  match s with
  | FTS_PROBE_SEGMENT => mret FTS_PROBE_SUCCESS
  | FTS_SYNCREP_OFF_SEGMENT => mret FTS_SYNCREP_OFF_SUCCESS
  | FTS_PROMOTE_SEGMENT => mret FTS_PROMOTE_SUCCESS
  | _ => raise "cannot determine next success state"
  end.

Definition nextFailedState (s : FtsMessageState) : M FtsMessageState :=
  match s with
  | FTS_PROBE_SEGMENT | FTS_PROBE_FAILED | FTS_PROBE_RETRY_WAIT => mret FTS_PROBE_FAILED
  | FTS_SYNCREP_OFF_SEGMENT | FTS_SYNCREP_OFF_FAILED | FTS_SYNCREP_OFF_RETRY_WAIT => mret FTS_SYNCREP_OFF_FAILED
  | FTS_PROMOTE_SEGMENT | FTS_PROMOTE_FAILED | FTS_PROMOTE_RETRY_WAIT => mret FTS_PROMOTE_FAILED
  | _ => raise "cannot determine next failed state"
  end.
Definition fail_state (info : fts_segment_info) : M fts_segment_info :=
  s ← nextFailedState (state info); mret (set_state s info).

Definition allDone (l : list fts_segment_info) : bool :=
  forallb (λ info, bool_decide (state info = FTS_RESPONSE_PROCESSED)) l.

(** ** Connecting *)

Definition ftsConnectStart (e : SegEnv) (info : fts_segment_info) : M (bool * fts_segment_info) :=
  _ ← Assert (poll_revents info =? 0);
  _ ← Assert (implb (bool_decide (state info = FTS_PROBE_SEGMENT) || bool_decide (state info = FTS_SYNCREP_OFF_SEGMENT))
                (SEGMENT_IS_ACTIVE_PRIMARY (primary_cdbinfo info)));
  match se_start e with
  | None => raise "FTS: cannot create libpq connection object"
  | Some st =>
      let peer := dbid (primary_cdbinfo info) in
      let info := set_conn (Some (MkConn peer st true NotInRecovery)) info in
      _ ← emit (EvConnect peer);
      match st with
      | CONNECTION_BAD => mret (false, info)
      | _ =>
          let info := set_events (Z.lor (poll_events info) POLLOUT) (poll_revents info) info in
          mret (true, set_startTime (se_start_time e) info)
      end
  end.

Definition checkIfFailedDueToRecoveryInProgress (error : RecoveryMsg) (info : fts_segment_info) : fts_segment_info :=
  match error with
  | NotInRecovery => info
  | InRecoveryInvalid => info
  | InRecoveryAt ptr => if XLByteLE ptr (xlogrecptr info) then info else set_recovery ptr true info
  end.

(** The connection after [PQconnectPoll]. *)
Definition conn_polled (p : PollingStatus) (c : PGconn) : PGconn :=
  match p with
  | PGRES_POLLING_OK => MkConn (conn_peer c) CONNECTION_OK true (conn_error c)
  | PGRES_POLLING_FAILED error => MkConn (conn_peer c) CONNECTION_BAD (conn_idle c) error
  | _ => c
  end.

Definition connect_poll (e : SegEnv) (c : PGconn) (info : fts_segment_info) : M fts_segment_info :=
  let info := set_conn (Some (conn_polled (se_polling e) c)) info in
  match se_polling e with
  | PGRES_POLLING_OK => mret (set_events POLLOUT (poll_revents info) info)
  | PGRES_POLLING_READING => mret (set_events (Z.lor (poll_events info) POLLIN) (poll_revents info) info)
  | PGRES_POLLING_WRITING => mret (set_events (Z.lor (poll_events info) POLLOUT) (poll_revents info) info)
  | PGRES_POLLING_FAILED error =>
      info ← fail_state info; mret (checkIfFailedDueToRecoveryInProgress error info)
  | PGRES_POLLING_OTHER => raise "FTS: invalid response to PQconnectPoll"
  end.

Definition conn_ok (c : option PGconn) : bool :=
  match c with Some (MkConn _ CONNECTION_OK _ _) => true | _ => false end.

Definition connect_segment (e : SegEnv) (info : fts_segment_info) : M fts_segment_info :=
  if conn_ok (conn info) then mret info
  else
    match state info with
    | FTS_PROBE_SEGMENT | FTS_SYNCREP_OFF_SEGMENT | FTS_PROMOTE_SEGMENT =>
        let info := set_recovery (xlogrecptr info) false info in
        match conn info with
        | None =>
            _ ← Assert (implb (0 <? retry_count info) (retry_count info <=? gp_fts_probe_retries));
            '(ok, info) ← ftsConnectStart e info;
            if ok : bool then mret info else fail_state info
        | Some c =>
            if has (poll_revents info) (Z.lor POLLOUT POLLIN) then connect_poll e c info else mret info
        end
    | _ => mret info
    end.
Definition ftsConnect (e : Env) (l : list fts_segment_info) : M (list fts_segment_info) :=
  for_segs (λ i, connect_segment (e_seg e i)) 0 l.

(** ** Polling *)

Definition ftsCheckTimeout (now : Z) (info : fts_segment_info) : M fts_segment_info :=
  if negb (IsFtsMessageStateSuccess (state info)) && (gp_fts_probe_timeout <? s32 (now - startTime info))
  then fail_state info else mret info.

(** The first loop of [ftsPoll]: the events to poll for, in [PollFds]. *)
Fixpoint poll_fds (nfds : Z) (l : list fts_segment_info) : list Z * list fts_segment_info :=
  match l with
  | [] => ([], [])
  | info :: l =>
      if has (poll_events info) (Z.lor POLLIN POLLOUT) then
        let '(fds, l) := poll_fds (nfds + 1) l in (poll_events info :: fds, set_fd_index nfds info :: l)
      else
        let '(fds, l) := poll_fds nfds l in (fds, set_fd_index (-1) info :: l)
  end.

Definition poll_segment (revents : list Z) (now : Z) (info : fts_segment_info) : M fts_segment_info :=
  if has (poll_events info) (Z.lor POLLIN POLLOUT) then
    let info := set_events (poll_events info) (revents.[Z.to_nat (fd_index info)]) info in
    info ←
      (if has (poll_revents info) (poll_events info) then mret (set_events 0 (poll_revents info) info)
       else if has (poll_revents info) (Z.lor POLLHUP POLLERR) then fail_state info
       else if negb (poll_revents info =? 0) then fail_state info
       else mret info);
    ftsCheckTimeout now info
  else mret info.

Definition ftsPoll (e : Env) (l : list fts_segment_info) : M (list fts_segment_info) :=
  let '(fds, l) := poll_fds 0 l in
  match fds with
  | [] => mret l
  | _ =>
      let '(nready, eintr, revents) := e_poll e fds in
      if (nready <? 0) && negb eintr then raise "FTS: ftsPoll() failed"
      else for_segs (λ _, poll_segment revents (e_now_poll e)) 0 l
  end.

(** ** Sending and receiving *)

Definition FTS_MSG_PROBE : string := "PROBE".
Definition FTS_MSG_SYNCREP_OFF : string := "SYNCREP_OFF".
Definition FTS_MSG_PROMOTE : string := "PROMOTE".

Definition message_of (s : FtsMessageState) : string :=
  match s with
  | FTS_PROBE_SEGMENT => FTS_MSG_PROBE
  | FTS_SYNCREP_OFF_SEGMENT => FTS_MSG_SYNCREP_OFF
  | _ => FTS_MSG_PROMOTE
  end.

Definition send_segment (e : SegEnv) (info : fts_segment_info) : M fts_segment_info :=
  match state info with
  | FTS_PROBE_SEGMENT | FTS_SYNCREP_OFF_SEGMENT | FTS_PROMOTE_SEGMENT =>
      match conn info with
      | Some (MkConn peer CONNECTION_OK true err) =>
          if has (poll_revents info) POLLOUT then
            if se_sent e then
              _ ← emit (EvSend peer (message_of (state info)));
              mret (set_events POLLIN (poll_revents info) (set_conn (Some (MkConn peer CONNECTION_OK false err)) info))
            else fail_state info
          else mret info
      | _ => mret info
      end
  | _ => mret info
  end.
Definition ftsSend (e : Env) (l : list fts_segment_info) : M (list fts_segment_info) :=
  for_segs (λ i, send_segment (e_seg e i)) 0 l.

(** A flag of the response: four bytes are read as an int, which is stored in a
    one-byte bool. *)
Definition read_flag (bytes : list Z) : bool :=
  negb (u8 (bytes.[0] + 256 * bytes.[1] + 65536 * bytes.[2] + 16777216 * bytes.[3]) =? 0).

Definition Anum_fts_message_response_is_mirror_up : nat := 0.
Definition Anum_fts_message_response_is_in_sync : nat := 1.
Definition Anum_fts_message_response_is_syncrep_enabled : nat := 2.
Definition Anum_fts_message_response_is_role_mirror : nat := 3.
Definition Anum_fts_message_response_request_retry : nat := 4.
Definition Natts_fts_message_response : Z := 5.
Definition FTS_MESSAGE_RESPONSE_NTUPLES : Z := 1.

Definition probeRecordResponse (values : nat → list Z) (info : fts_segment_info) : fts_segment_info :=
  set_result (MkResult true
    (read_flag (values Anum_fts_message_response_is_mirror_up))
    (read_flag (values Anum_fts_message_response_is_in_sync))
    (read_flag (values Anum_fts_message_response_is_syncrep_enabled))
    (read_flag (values Anum_fts_message_response_is_role_mirror))
    (read_flag (values Anum_fts_message_response_request_retry))) info.

Definition conn_peer_of (info : fts_segment_info) : Z :=
  match conn info with Some c => conn_peer c | None => -1 end.

Definition receive_segment (e : SegEnv) (info : fts_segment_info) : M fts_segment_info :=
  match state info with
  | FTS_PROBE_SEGMENT | FTS_SYNCREP_OFF_SEGMENT | FTS_PROMOTE_SEGMENT =>
      if conn_ok (conn info) && has (poll_revents info) POLLIN then
        match se_reply e (message_of (state info)) with
        | TuplesResult ntuples nfields values =>
            if negb (nfields =? Natts_fts_message_response) || negb (ntuples =? FTS_MESSAGE_RESPONSE_NTUPLES)
            then fail_state info
            else
              let info := probeRecordResponse values info in
              _ ← emit (EvReply (conn_peer_of info) (message_of (state info)) (seg_result info));
              s ← nextSuccessState (state info); mret (set_state s info)
        | _ => fail_state info
        end
      else mret info
  | _ => mret info
  end.
Definition ftsReceive (e : Env) (l : list fts_segment_info) : M (list fts_segment_info) :=
  for_segs (λ i, receive_segment (e_seg e i)) 0 l.

(** ** Retrying *)

Definition retryForFtsFailed (now : Z) (info : fts_segment_info) : M fts_segment_info :=
  if retry_count info =? gp_fts_probe_retries then mret info
  else
    let s :=
      match state info with
      | FTS_PROBE_SUCCESS | FTS_PROBE_FAILED => FTS_PROBE_RETRY_WAIT
      | FTS_SYNCREP_OFF_FAILED => FTS_SYNCREP_OFF_RETRY_WAIT
      | _ => FTS_PROMOTE_RETRY_WAIT
      end in
    let info := set_state s (set_retry now (retry_count info + 1) info) in
    _ ← PQfinish (conn info);
    mret (set_result no_result (set_events 0 0 (set_conn None info))).

Definition retry_segment (now : Z) (info : fts_segment_info) : M fts_segment_info :=
  match state info with
  | FTS_PROBE_SUCCESS =>
      if negb (retryRequested (seg_result info) && SEGMENT_IS_ALIVE (mirror_cdbinfo info)) then mret info
      else retryForFtsFailed now info
  | FTS_PROBE_FAILED | FTS_SYNCREP_OFF_FAILED | FTS_PROMOTE_FAILED => retryForFtsFailed now info
  | FTS_PROBE_RETRY_WAIT | FTS_SYNCREP_OFF_RETRY_WAIT | FTS_PROMOTE_RETRY_WAIT =>
      if s32 (now - retryStartTime info) <? 1 then mret info
      else
        mret (set_state
          (match state info with
           | FTS_PROBE_RETRY_WAIT => FTS_PROBE_SEGMENT
           | FTS_SYNCREP_OFF_RETRY_WAIT => FTS_SYNCREP_OFF_SEGMENT
           | _ => FTS_PROMOTE_SEGMENT
           end) info)
  | _ => mret info
  end.
Definition processRetry (e : Env) (l : list fts_segment_info) : M (list fts_segment_info) :=
  for_segs (λ _, retry_segment (e_now_retry e)) 0 l.

(** ** Processing the responses *)

Definition ftsResponseReady (info : fts_segment_info) : bool :=
  IsFtsMessageStateSuccess (state info) || IsFtsMessageStateFailed (state info).

Definition config_row (u : ConfigUpdate) : ConfigRow :=
  MkRow (up_role u)
    (if up_insync u then GP_SEGMENT_CONFIGURATION_MODE_INSYNC else GP_SEGMENT_CONFIGURATION_MODE_NOTINSYNC)
    (if up_alive u then GP_SEGMENT_CONFIGURATION_STATUS_UP else GP_SEGMENT_CONFIGURATION_STATUS_DOWN).

Definition probeWalRepUpdateConfig (u : ConfigUpdate) : M unit :=
  _ ← Assert (implb (up_insync u) (up_alive u));
  w ← get;
  match config w !! up_dbid u with
  | None => raise "FTS cannot find dbid in gp_segment_configuration"
  | Some _ => set_config (<[up_dbid u := config_row u]> (config w)) (u :: history w)
  end.

Definition FTS_STATUS_UP : Z := 1.
Definition FTS_STATUS_IS_UP (s : Z) : bool := has s FTS_STATUS_UP.
Definition FTS_STATUS_SET_UP (s : Z) : Z := Z.lor s FTS_STATUS_UP.
Definition FTS_STATUS_SET_DOWN (s : Z) : Z := Z.ldiff s FTS_STATUS_UP.
Definition status_of (i : FtsProbeInfo) (d : Z) : Z := default 0 (fts_status i !! d).

(** The in-memory status of a segment, under the lock. *)
Definition set_status (d : Z) (alive : bool) : M unit :=
  w ← get;
  let i := probe_info w in
  let s := if alive then FTS_STATUS_SET_UP (status_of i d) else FTS_STATUS_SET_DOWN (status_of i d) in
  set_probe_info (MkProbeInfo (fts_statusVersion i) (probeTick i) (<[d := s]> (fts_status i))).

Fixpoint for_updates (l : list ConfigUpdate) : M unit :=
  match l with [] => mret tt | u :: l => _ ← probeWalRepUpdateConfig u; for_updates l end.

Definition updateConfiguration (primary mirror : CdbComponentDatabaseInfo) (newPrimaryRole newMirrorRole : ascii)
    (IsInSync IsPrimaryAlive IsMirrorAlive : bool) : M bool :=
  let UpdatePrimary := xorb IsPrimaryAlive (SEGMENT_IS_ALIVE primary) in
  let UpdateMirror := xorb IsMirrorAlive (SEGMENT_IS_ALIVE mirror) in
  let differs := xorb IsInSync (SEGMENT_IS_IN_SYNC primary) in
  let UpdatePrimary := UpdatePrimary || differs in
  let UpdateMirror := UpdateMirror || differs in
  _ ← Assert (implb (Ascii.eqb newPrimaryRole GP_SEGMENT_CONFIGURATION_ROLE_MIRROR)
                (SEGMENT_IS_IN_SYNC mirror && negb IsInSync && negb IsPrimaryAlive));
  _ ← Assert (Ascii.eqb (mode primary) (mode mirror));
  let UpdateNeeded := UpdatePrimary || UpdateMirror in
  if UpdateNeeded then
    let updates :=
      (if UpdatePrimary then [MkUpdate (dbid primary) newPrimaryRole IsPrimaryAlive IsInSync] else []) ++
      (if UpdateMirror then [MkUpdate (dbid mirror) newMirrorRole IsMirrorAlive IsInSync] else []) in
    _ ← for_updates updates;
    _ ← emit (EvCommit updates);
    _ ← set_status (dbid primary) IsPrimaryAlive;
    _ ← set_status (dbid mirror) IsMirrorAlive;
    mret true
  else mret false.

(** What the response says of the pair. *)
Definition resp_primary_alive (info : fts_segment_info) : bool := isPrimaryAlive (seg_result info).
Definition resp_mirror_alive (info : fts_segment_info) : bool :=
  if resp_primary_alive info then isMirrorAlive (seg_result info) else SEGMENT_IS_ALIVE (mirror_cdbinfo info).
Definition resp_in_sync (info : fts_segment_info) : bool :=
  if resp_primary_alive info then isInSync (seg_result info) else false.

(** The case FTS_PROBE_SUCCESS. *)
Definition process_probe_success (info : fts_segment_info) (is_updated : bool) : M (fts_segment_info * bool) :=
  let primary := primary_cdbinfo info in
  let mirror := mirror_cdbinfo info in
  let res := seg_result info in
  _ ← Assert (resp_primary_alive info);
  let update := updateConfiguration primary mirror
    GP_SEGMENT_CONFIGURATION_ROLE_PRIMARY GP_SEGMENT_CONFIGURATION_ROLE_MIRROR
    (resp_in_sync info) (resp_primary_alive info) (resp_mirror_alive info) in
  if isSyncRepEnabled res && negb (resp_mirror_alive info) then
    if negb (retryRequested res) then
      u ← update;
      let is_updated := is_updated || u in
      _ ← Assert (implb (SEGMENT_IS_ALIVE mirror) is_updated);
      mret (set_state FTS_SYNCREP_OFF_SEGMENT info, is_updated)
    else mret (set_state FTS_RESPONSE_PROCESSED info, is_updated)
  else if isRoleMirror res then
    _ ← Assert (negb (resp_mirror_alive info));
    _ ← Assert (negb (SEGMENT_IS_ALIVE mirror));
    _ ← Assert (SEGMENT_IS_NOT_INSYNC mirror);
    _ ← Assert (SEGMENT_IS_NOT_INSYNC primary);
    _ ← Assert (negb (isSyncRepEnabled res));
    mret (set_state FTS_PROMOTE_SEGMENT info, is_updated)
  else
    u ← update;
    mret (set_state FTS_RESPONSE_PROCESSED info, is_updated || u).

(** The case FTS_PROBE_FAILED. *)
Definition process_probe_failed (info : fts_segment_info) (is_updated : bool) : M (fts_segment_info * bool) :=
  let primary := primary_cdbinfo info in
  let mirror := mirror_cdbinfo info in
  if recovery_making_progress info then
    _ ← Assert (match conn info with Some (MkConn _ _ _ NotInRecovery) | None => false | _ => true end);
    mret (set_state FTS_RESPONSE_PROCESSED info, is_updated)
  else
    _ ← Assert (negb (resp_primary_alive info));
    if SEGMENT_IS_IN_SYNC mirror then
      _ ← Assert (SEGMENT_IS_IN_SYNC primary);
      u ← updateConfiguration primary mirror
        GP_SEGMENT_CONFIGURATION_ROLE_MIRROR GP_SEGMENT_CONFIGURATION_ROLE_PRIMARY
        (resp_in_sync info) (resp_primary_alive info) (resp_mirror_alive info);
      let is_updated := is_updated || u in
      _ ← Assert is_updated;
      mret (set_pair mirror primary (set_state FTS_PROMOTE_SEGMENT info), is_updated)
    else mret (set_state FTS_RESPONSE_PROCESSED info, is_updated).

(** The body of the loop of [processResponse]. *)
Definition process_segment (info : fts_segment_info) (is_updated : bool) : M (fts_segment_info * bool) :=
  if negb (ftsResponseReady info) then mret (info, is_updated)
  else
    _ ← Assert (implb (IsFtsMessageStateFailed (state info)) (retry_count info =? gp_fts_probe_retries));
    _ ← Assert (implb (resp_in_sync info) (resp_primary_alive info && resp_mirror_alive info));
    _ ← Assert (implb (resp_mirror_alive info && resp_primary_alive info) (isSyncRepEnabled (seg_result info)));
    '(info, is_updated) ←
      match state info with
      | FTS_PROBE_SUCCESS => process_probe_success info is_updated
      | FTS_PROBE_FAILED => process_probe_failed info is_updated
      | FTS_SYNCREP_OFF_FAILED | FTS_PROMOTE_FAILED | FTS_PROMOTE_SUCCESS | FTS_SYNCREP_OFF_SUCCESS =>
          mret (set_state FTS_RESPONSE_PROCESSED info, is_updated)
      | _ => raise "FTS invalid internal state"
      end;
    _ ← PQfinish (conn info);
    let info := set_events 0 0 (set_conn None (set_result no_result info)) in
    mret (set_retry (retryStartTime info) 0 info, is_updated).

(** The loop stops at the first segment for which the prober is not active. *)
Fixpoint process_loop (e : Env) (i : nat) (l : list fts_segment_info) (is_updated : bool)
    : M (list fts_segment_info * bool) :=
  match l with
  | [] => mret ([], is_updated)
  | info :: l =>
      _ ← signal (se_signal (e_seg e i));
      active ← FtsIsActive;
      if active : bool then
        '(info, is_updated) ← process_segment info is_updated;
        '(l, is_updated) ← process_loop e (S i) l is_updated;
        mret (info :: l, is_updated)
      else mret (info :: l, is_updated)
  end.
Definition processResponse (e : Env) (l : list fts_segment_info) : M (list fts_segment_info * bool) :=
  process_loop e 0 l false.

(** ** A probe cycle *)

(** An object of [perSegInfos], before and after its initialization; [palloc0]
    fills it with zeros, so the state is FTS_PROBE_SEGMENT. *)
Definition init_info (primary mirror : CdbComponentDatabaseInfo) : fts_segment_info :=
  MkInfo primary mirror no_result FTS_PROBE_SEGMENT 0 0 0 0 0 None 0 (0, 0) false.

Definition FtsIsSegmentAlive (s : CdbComponentDatabaseInfo) : bool :=
  (SEGMENT_IS_ACTIVE_MIRROR s && SEGMENT_IS_ALIVE s) || SEGMENT_IS_ACTIVE_PRIMARY s.

(** The loop of [FtsWalRepInitProbeContext]: [num_pairs] and the objects filled. *)
Fixpoint init_loop (cdbs : CdbComponentDatabases) (l : list CdbComponentDatabaseInfo) (num_pairs fts_index : Z)
    : M (Z * list fts_segment_info) :=
  match l with
  | [] => mret (num_pairs, [])
  | primary :: l =>
      if negb (SEGMENT_IS_ACTIVE_PRIMARY primary) then init_loop cdbs l num_pairs fts_index
      else
        match FtsGetPeerSegment cdbs (segindex primary) (dbid primary) with
        | None => init_loop cdbs l (num_pairs - 1) fts_index
        | Some mirror =>
            _ ← Assert (FtsIsSegmentAlive primary);
            _ ← Assert (fts_index <? num_pairs);
            '(n, infos) ← init_loop cdbs l num_pairs (fts_index + 1);
            mret (n, init_info primary mirror :: infos)
        end
  end.
Definition FtsWalRepInitProbeContext (cdbs : CdbComponentDatabases) : M (Z * list fts_segment_info) :=
  init_loop cdbs (segment_db_info cdbs) (total_segments cdbs) 0.

(** The body of the loop of [FtsWalRepMessageSegments]. *)
Definition fts_iteration (e : Env) (l : list fts_segment_info) : M (list fts_segment_info * bool) :=
  l ← ftsConnect e l;
  l ← ftsPoll e l;
  l ← ftsSend e l;
  l ← ftsReceive e l;
  l ← processRetry e l;
  processResponse e l.

(** The loop, one input per iteration; [None]: it has not ended when they run out. *)
Fixpoint message_loop (envs : list Env) (l : list fts_segment_info) (is_updated : bool)
    : M (option (list fts_segment_info * bool)) :=
  match envs with
  | [] =>
      if allDone l then mret (Some (l, is_updated))
      else active ← FtsIsActive; mret (if active : bool then None else Some (l, is_updated))
  | e :: envs =>
      if allDone l then mret (Some (l, is_updated))
      else
        _ ← signal (e_signal e);
        active ← FtsIsActive;
        if active : bool then
          '(l, u) ← fts_iteration e l;
          message_loop envs l (is_updated || u)
        else mret (Some (l, is_updated))
  end.

Definition close_segment (info : fts_segment_info) : M fts_segment_info :=
  match conn info with
  | Some c => _ ← emit (EvFinish (conn_peer c)); mret (set_conn None info)
  | None => mret info
  end.

(** Objects that were not filled have NULL segments, which the steps dereference. *)
Definition null_segment : string := "segmentation fault".

Definition FtsWalRepMessageSegments (envs : list Env) (cdbs : CdbComponentDatabases) : M (option bool) :=
  '(num_pairs, l) ← FtsWalRepInitProbeContext cdbs;
  if negb (num_pairs =? Z.of_nat (length l)) then raise null_segment
  else
    r ← message_loop envs l false;
    match r with
    | None => mret None
    | Some (l, is_updated) =>
        active ← FtsIsActive;
        l ← (if negb active then for_segs (λ _, close_segment) 0 l else mret l);
        _ ← Assert (forallb (λ info, bool_decide (conn info = None)) l);
        mret (Some is_updated)
    end.

(** ** The main loop, fts.c *)

Fixpoint update_status (l : list CdbComponentDatabaseInfo) (st : gmap Z Z) : gmap Z Z :=
  match l with
  | [] => st
  | s :: l => update_status l (<[dbid s := if SEGMENT_IS_ALIVE s then FTS_STATUS_SET_UP 0 else 0]> st)
  end.

(** [cdbs] is what [getCdbComponentInfo] read. *)
Definition readCdbComponentInfoAndUpdateStatus (cdbs : CdbComponentDatabases) : M unit :=
  w ← get;
  let i := probe_info w in
  let v := if fts_statusVersion i =? 0 then u8 (fts_statusVersion i + 1) else fts_statusVersion i in
  set_probe_info (MkProbeInfo v (probeTick i) (update_status (segment_db_info cdbs) (fts_status i))).

Definition bump_version : M unit :=
  w ← get;
  let i := probe_info w in
  set_probe_info (MkProbeInfo (u8 (fts_statusVersion i + 1)) (probeTick i) (fts_status i)).
Definition bump_tick : M unit :=
  w ← get;
  let i := probe_info w in
  set_probe_info (MkProbeInfo (fts_statusVersion i) (u8 (probeTick i + 1)) (fts_status i)).

(** One round of [FtsLoop]; [None]: the probe cycle has not ended. *)
Definition FtsLoop_round (cdbs : CdbComponentDatabases) (has_mirrors skipFtsProbe : bool) (envs : list Env)
    : M (option unit) :=
  _ ← readCdbComponentInfoAndUpdateStatus cdbs;
  ended ←
    (if skipFtsProbe || negb has_mirrors then mret true
     else
       updated_probe_state ← FtsWalRepMessageSegments envs cdbs;
       match updated_probe_state with
       | None => mret false
       | Some true => _ ← bump_version; mret true
       | Some false => mret true
       end);
  if ended : bool then _ ← bump_tick; mret (Some tt) else mret None.

End Prober.

(** ** What the dispatcher reads, cdbfts.c *)

Definition MASTER_SEGMENT_ID : Z := -1.

Definition FtsIsSegmentUp (i : FtsProbeInfo) (s : CdbComponentDatabaseInfo) : bool :=
  if segindex s =? MASTER_SEGMENT_ID then true
  else if negb (fts_statusVersion i =? 0) then FTS_STATUS_IS_UP (status_of i (dbid s)) else true.

Definition FtsTestSegmentDBIsDown (i : FtsProbeInfo) (l : list CdbComponentDatabaseInfo) : bool :=
  existsb (λ s, negb (FtsIsSegmentUp i s)) l.

Definition getFtsVersion (i : FtsProbeInfo) : Z := fts_statusVersion i.

(** [FtsNotifyProber] waits for the tick to change. *)
Definition notify_done (probeTick0 : Z) (i : FtsProbeInfo) : bool := negb (probeTick0 =? probeTick i).

End Fts.
