(* ===== verification/FtsSpec.v ===== *)
(** What a probe cycle of the fault tolerance service guarantees.

    [wp] reads a step of the prober as a predicate transformer whose error case
    admits only the errors the outside world can cause.  [stage_inv] is the
    invariant of a pair at each of the six points of an iteration, [world_inv]
    the one of the shared state: the catalog is what the committed updates made
    of it and every PROMOTE in the trace is justified.  [rank] bounds how often
    a pair can still be due. *)

From Stdlib Require Import ZArith Lia Ascii.
From stdpp Require Import base gmap list option numbers strings.
From S2P Require Import Prelude Fts.
Import Fts.

Module FtsSpec.

(** ** Reasoning about the monad *)

(** The errors that libpq, poll() or the catalog can cause. *)
Definition env_error (msg : string) : Prop :=
  msg ∈ ["FTS: cannot create libpq connection object"; "FTS: invalid response to PQconnectPoll";
         "FTS: ftsPoll() failed"].

Definition wp {A} (m : M A) (Q : A → World → Prop) (w : World) : Prop :=
  match m w with Ok (a, w') => Q a w' | Err msg => env_error msg end.

Lemma wp_ret {A} (a : A) Q w : Q a w → wp (mret a) Q w.
Proof. done. Qed.
Lemma wp_bind {A B} (m : M A) (f : A → M B) Q w : wp m (λ a, wp (f a) Q) w → wp (m ≫= f) Q w.
Proof. unfold wp, mbind, M_bind. by destruct (m w) as [[a w']|]. Qed.
Lemma wp_mono {A} (m : M A) (Q Q' : A → World → Prop) w :
  wp m Q w → (∀ a w', Q a w' → Q' a w') → wp m Q' w.
Proof. unfold wp. intros H HQ. destruct (m w) as [[a w']|]; [by apply HQ|done]. Qed.
Lemma wp_modify f (Q : unit → World → Prop) w : Q tt (f w) → wp (modify f) Q w.
Proof. done. Qed.
Lemma wp_get (Q : World → World → Prop) w : Q w w → wp get Q w.
Proof. done. Qed.
Lemma wp_raise {A} msg (Q : A → World → Prop) w : env_error msg → wp (raise msg) Q w.
Proof. done. Qed.

(** ** The worlds a cycle goes through *)

Section Spec.
Context (r timeout : Z) (Hr : 0 <= r).
Context (c0 : gmap Z ConfigRow).     (* the catalog at the beginning of the cycle *)
Context (pair : Z → Z → Prop).       (* primary and mirror, by dbid *)
Context (strict : Prop).             (* every reply is one a segment should send *)

(** The catalog that the commits of a trace lead to. *)
Fixpoint replay (tr : list Event) : gmap Z ConfigRow :=
  match tr with
  | [] => c0
  | EvCommit ups :: tr => foldl (λ c u, <[up_dbid u := config_row u]> c) (replay tr) ups
  | _ :: tr => replay tr
  end.

(** The connections that were tried. *)
Fixpoint connects (d : Z) (tr : list Event) : Z :=
  match tr with
  | [] => 0
  | EvConnect d' :: tr => (if d' =? d then 1 else 0) + connects d tr
  | _ :: tr => connects d tr
  end.

(** Why a segment is sent PROMOTE: its primary was marked down and it was made the
    primary in one commit, after all retries, when the catalog had the pair in sync;
    or it is the primary of a pair in the catalog and answered a PROBE that it still
    acts as a mirror, and not that its own mirror is missing. *)
Definition justified (d : Z) (tr : list Event) : Prop :=
  (∃ old alive, pair old d ∧
     EvCommit [MkUpdate old GP_SEGMENT_CONFIGURATION_ROLE_MIRROR false false;
               MkUpdate d GP_SEGMENT_CONFIGURATION_ROLE_PRIMARY alive false] ∈ tr ∧
     r + 1 <= connects old tr ∧
     row_mode <$> c0 !! d = Some GP_SEGMENT_CONFIGURATION_MODE_INSYNC) ∨
  (∃ m res, pair d m ∧ row_role <$> c0 !! d = Some GP_SEGMENT_CONFIGURATION_ROLE_PRIMARY ∧
     EvReply d FTS_MSG_PROBE res ∈ tr ∧ isRoleMirror res = true ∧
     (isSyncRepEnabled res = true → isMirrorAlive res = true)).

(** Why a segment is marked down: it was down before; it is the primary of a pair that
    was in sync and could not be reached; or it is a mirror and its primary answered a
    PROBE so. *)
Definition down_ok (u : ConfigUpdate) (tr : list Event) : Prop :=
  up_alive u = false →
  row_status <$> c0 !! up_dbid u ≠ Some GP_SEGMENT_CONFIGURATION_STATUS_UP ∨
  (∃ m, pair (up_dbid u) m ∧ row_role <$> c0 !! up_dbid u = Some GP_SEGMENT_CONFIGURATION_ROLE_PRIMARY ∧
     row_mode <$> c0 !! m = Some GP_SEGMENT_CONFIGURATION_MODE_INSYNC) ∧ r + 1 <= connects (up_dbid u) tr ∨
  (∃ p res, pair p (up_dbid u) ∧ EvReply p FTS_MSG_PROBE res ∈ tr ∧ isMirrorAlive res = false ∧
     (retryRequested res = false ∨ isSyncRepEnabled res = false)).

Fixpoint safe_trace (tr : list Event) : Prop :=
  match tr with
  | [] => True
  | EvSend d msg :: tr => (msg = FTS_MSG_PROMOTE → justified d tr) ∧ safe_trace tr
  | EvCommit ups :: tr => (∀ u, u ∈ ups → down_ok u tr) ∧ safe_trace tr
  | _ :: tr => safe_trace tr
  end.

Record world_inv (w : World) : Prop := MkWorldInv {
  wi_config : config w = replay (trace w);
  wi_safe : safe_trace (trace w);
  wi_asserts : strict → asserts w = true }.

(** Later worlds. *)
Definition later (w w' : World) : Prop :=
  (∃ tr, trace w' = tr ++ trace w) ∧ (shutdown_requested w = true → shutdown_requested w' = true).

#[export] Instance later_preorder : PreOrder later.
Proof.
  split.
  - intros w. split; [by exists []|done].
  - intros w1 w2 w3 [[t1 E1] H1] [[t2 E2] H2]. split; [|by auto].
    exists (t2 ++ t1). by rewrite E2, E1, app_assoc.
Qed.

Lemma connects_app d t1 t2 : connects d t2 <= connects d (t1 ++ t2).
Proof.
  induction t1 as [|e t1 IH]; simpl; [lia|]. destruct e; try done. destruct (dbid0 =? d); lia.
Qed.

Lemma justified_later d tr tr' : justified d tr → justified d (tr' ++ tr).
Proof.
  intros [(old & alive & Hp & Hin & Hc & Hs)|(m & res & Hp & Hc & Hin & Hrm)].
  - left. exists old, alive. pose proof (connects_app old tr' tr).
    split; [done|]. split; [by apply elem_of_app; right|]. split; [lia|done].
  - right. exists m, res. split; [done|]. split; [done|]. split; [by apply elem_of_app; right|done].
Qed.

(** ** The invariant of a pair *)

Definition is_segment (s : FtsMessageState) : bool :=
  match s with FTS_PROBE_SEGMENT | FTS_SYNCREP_OFF_SEGMENT | FTS_PROMOTE_SEGMENT => true | _ => false end.
Definition is_wait (s : FtsMessageState) : bool :=
  match s with FTS_PROBE_RETRY_WAIT | FTS_SYNCREP_OFF_RETRY_WAIT | FTS_PROMOTE_RETRY_WAIT => true | _ => false end.
Definition is_probe (s : FtsMessageState) : bool :=
  match s with FTS_PROBE_SEGMENT | FTS_PROBE_RETRY_WAIT | FTS_PROBE_SUCCESS | FTS_PROBE_FAILED => true | _ => false end.
Definition is_promote (s : FtsMessageState) : bool :=
  match s with FTS_PROMOTE_SEGMENT | FTS_PROMOTE_RETRY_WAIT | FTS_PROMOTE_SUCCESS | FTS_PROMOTE_FAILED => true | _ => false end.

(** The points of an iteration: at the head, after connecting, after polling, after
    sending, after receiving, after the retries. *)
Inductive stage := Head | Connected | Polled | Sent | Received | Retried.

(** What is polled for, and what was found, while a segment is being messaged. *)
Definition segment_shape (k : stage) (info : fts_segment_info) : Prop :=
  let ev := poll_events info in
  let rev := poll_revents info in
  match conn info, k with
  | None, (Head | Retried) => ev = 0 ∧ rev = 0
  | None, _ => False
  | Some (MkConn _ CONNECTION_OK true _), Connected => ev = POLLOUT
  | Some (MkConn _ CONNECTION_OK true _), Polled => (ev = 0 ∧ has rev POLLOUT = true) ∨ (ev = POLLOUT ∧ rev = 0)
  | Some (MkConn _ CONNECTION_OK true _), _ => ev = POLLOUT ∧ rev = 0
  | Some (MkConn _ CONNECTION_OK false _), (Polled | Sent) => (ev = 0 ∧ has rev POLLIN = true) ∨ ev = POLLIN
  | Some (MkConn _ CONNECTION_OK false _), _ => ev = POLLIN
  | Some _, Connected => ev = POLLIN ∨ ev = POLLOUT
  | Some _, _ => ((ev = POLLIN ∨ ev = POLLOUT) ∧ rev = 0) ∨ (ev = 0 ∧ has rev (Z.lor POLLOUT POLLIN) = true)
  end.

(** No connection, nothing polled for, no response. *)
Definition closed (info : fts_segment_info) : Prop :=
  conn info = None ∧ poll_events info = 0 ∧ poll_revents info = 0 ∧ seg_result info = no_result.

(** What a segment can report, see FtsSegment.v. *)
Definition good_result (s : FtsMessageState) (res : fts_result) : Prop :=
  (isInSync res = true → isMirrorAlive res = true) ∧
  (isMirrorAlive res = true → isSyncRepEnabled res = true) ∧
  (is_probe s = true → isRoleMirror res = false).

(** The message that was answered. *)
Definition answered (s : FtsMessageState) : string :=
  match s with
  | FTS_PROBE_SUCCESS => FTS_MSG_PROBE
  | FTS_SYNCREP_OFF_SUCCESS => FTS_MSG_SYNCREP_OFF
  | _ => FTS_MSG_PROMOTE
  end.

Definition state_inv (k : stage) (w : World) (info : fts_segment_info) : Prop :=
  match state info with
  | FTS_PROBE_SEGMENT | FTS_SYNCREP_OFF_SEGMENT | FTS_PROMOTE_SEGMENT =>
      seg_result info = no_result ∧ segment_shape k info ∧
      (conn info ≠ None → recovery_making_progress info = false)
  | FTS_PROBE_FAILED | FTS_SYNCREP_OFF_FAILED | FTS_PROMOTE_FAILED =>
      k ≠ Head ∧ seg_result info = no_result ∧ conn info ≠ None ∧
      (recovery_making_progress info = true →
         match conn info with Some c => conn_error c ≠ NotInRecovery | None => False end) ∧
      (k = Retried → retry_count info = r)
  | FTS_PROBE_SUCCESS | FTS_SYNCREP_OFF_SUCCESS | FTS_PROMOTE_SUCCESS =>
      (k = Received ∨ k = Retried) ∧ isPrimaryAlive (seg_result info) = true ∧ conn info ≠ None ∧
      EvReply (dbid (primary_cdbinfo info)) (answered (state info)) (seg_result info) ∈ trace w ∧
      (strict → good_result (state info) (seg_result info))
  | _ => closed info
  end.

(** A segment as the catalog had it. *)
Definition in_catalog (s : CdbComponentDatabaseInfo) : Prop :=
  c0 !! dbid s = Some (MkRow (role s) (mode s) (status s)).

Record pair_ok (info : fts_segment_info) : Prop := MkPairOk {
  po_primary : in_catalog (primary_cdbinfo info);
  po_mirror : in_catalog (mirror_cdbinfo info);
  po_mode : mode (primary_cdbinfo info) = mode (mirror_cdbinfo info);
  po_pair : is_promote (state info) = false → state info ≠ FTS_RESPONSE_PROCESSED →
    pair (dbid (primary_cdbinfo info)) (dbid (mirror_cdbinfo info)) ∧
    SEGMENT_IS_ACTIVE_PRIMARY (primary_cdbinfo info) = true }.

Record stage_inv (k : stage) (w : World) (info : fts_segment_info) : Prop := MkStageInv {
  si_retries : 0 <= retry_count info <= r;
  si_pair : pair_ok info;
  si_peer : ∀ c, conn info = Some c → conn_peer c = dbid (primary_cdbinfo info);
  si_connects : is_probe (state info) = true →
    retry_count info + (if conn info then 1 else 0) <= connects (dbid (primary_cdbinfo info)) (trace w);
  si_promote : is_promote (state info) = true → justified (dbid (primary_cdbinfo info)) (trace w);
  si_state : state_inv k w info }.

Lemma stage_inv_later k w w' info : later w w' → stage_inv k w info → stage_inv k w' info.
Proof.
  intros [[tr E] _] [H1 H2 H3 H4 H5 H6]. split; try done.
  - intros Hp. rewrite E. pose proof (connects_app (dbid (primary_cdbinfo info)) tr (trace w)).
    specialize (H4 Hp). lia.
  - intros Hp. rewrite E. by apply justified_later, H5.
  - unfold state_inv in *. destruct (state info); try done;
      (destruct H6 as (A & B & C & Hin & G); rewrite E; repeat (split; [done|]);
       split; [by apply elem_of_app; right|done]).
Qed.

(** ** The loops *)

Lemma for_segs_wp (P Q : nat → World → fts_segment_info → Prop) f l i w :
  (∀ j w info, world_inv w → P j w info →
     wp (f j info) (λ info' w', world_inv w' ∧ later w w' ∧ Q j w' info') w) →
  (∀ j w w' info, later w w' → P j w info → P j w' info) →
  (∀ j w w' info, later w w' → Q j w info → Q j w' info) →
  world_inv w → (∀ j info, l !! j = Some info → P (i + j)%nat w info) →
  wp (for_segs f i l) (λ l' w', world_inv w' ∧ later w w' ∧ length l' = length l ∧
    ∀ j info, l' !! j = Some info → Q (i + j)%nat w' info) w.
Proof.
  intros Hf HP HQ. revert i w. induction l as [|a l IH]; intros i w Hw Hl; cbn [for_segs].
  - apply wp_ret. split; [done|]. split; [reflexivity|]. split; [done|]. intros j info [=].
  - apply wp_bind. eapply wp_mono.
    { apply Hf; [done|]. rewrite <- (Nat.add_0_r i). by apply (Hl 0%nat). }
    intros a' w1 (Hw1 & L1 & Qa). apply wp_bind. eapply wp_mono.
    { apply (IH (S i)); [done|]. intros j info Hj. rewrite Nat.add_succ_comm.
      apply (HP _ w); [done|]. by apply (Hl (S j)). }
    intros l' w2 (Hw2 & L2 & El & Ql). apply wp_ret. split; [done|]. split; [by transitivity w1|].
    split; [simpl; by rewrite El|]. intros [|j] info; simpl.
    + intros [= <-]. rewrite Nat.add_0_r. by apply (HQ _ w1).
    + intros Hj. rewrite <- Nat.add_succ_comm. by apply Ql.
Qed.

(** ** Effects *)

Lemma wp_assert b (Q : unit → World → Prop) w :
  world_inv w → (strict → b = true) →
  (∀ w', world_inv w' → later w w' → trace w' = trace w → Q tt w') → wp (Assert b) Q w.
Proof.
  intros [H1 H2 H3] Hb HQ. apply wp_modify, HQ; [split; try done|..|done].
  - intros Hs. simpl. by rewrite H3, Hb.
  - split; [by exists []|done].
Qed.

(** An event that neither commits nor promotes. *)
Definition plain (e : Event) : bool :=
  match e with EvCommit _ => false | EvSend _ m => negb (bool_decide (m = FTS_MSG_PROMOTE)) | _ => true end.

Lemma wp_emit ev (Q : unit → World → Prop) w :
  world_inv w → (plain ev = true ∨ ∃ d, ev = EvSend d FTS_MSG_PROMOTE ∧ justified d (trace w)) →
  (∀ w', world_inv w' → later w w' → trace w' = ev :: trace w → Q tt w') → wp (emit ev) Q w.
Proof.
  intros [H1 H2 H3] Hev HQ. apply wp_modify, HQ; [split|..|done]; simpl.
  - destruct Hev as [Hp|(d & -> & _)]; [|done]. by destruct ev.
  - destruct Hev as [Hp|(d & -> & Hj)]; [|done].
    destruct ev; try done. simpl in *. apply negb_true_iff in Hp. case_bool_decide; [done|]. by split.
  - done.
  - split; [by exists [ev]|done].
Qed.

Lemma wp_finish c (Q : unit → World → Prop) w :
  world_inv w → (∀ w', world_inv w' → later w w' → Q tt w') → wp (PQfinish c) Q w.
Proof.
  intros Hw HQ. destruct c as [c|]; simpl.
  - apply wp_emit; [done|by left|]. intros w' H1 H2 _. by apply HQ.
  - apply wp_ret, HQ; [done|reflexivity].
Qed.

Lemma failed_of s : is_segment s = true ∨ IsFtsMessageStateFailed s = true →
  ∃ s', nextFailedState s = mret s' ∧ IsFtsMessageStateFailed s' = true ∧
    is_probe s' = is_probe s ∧ is_promote s' = is_promote s.
Proof. intros [H|H]; destruct s; try done; by eexists. Qed.

(** ** The states by class *)

Lemma seg_match {A} (x y : A) s :
  match s with FTS_PROBE_SEGMENT | FTS_SYNCREP_OFF_SEGMENT | FTS_PROMOTE_SEGMENT => x | _ => y end
  = if is_segment s then x else y.
Proof. by destruct s. Qed.

Definition segment_inv (k : stage) (info : fts_segment_info) : Prop :=
  seg_result info = no_result ∧ segment_shape k info ∧ (conn info ≠ None → recovery_making_progress info = false).

Definition failed_inv (k : stage) (info : fts_segment_info) : Prop :=
  k ≠ Head ∧ seg_result info = no_result ∧ conn info ≠ None ∧
  (recovery_making_progress info = true →
     match conn info with Some c => conn_error c ≠ NotInRecovery | None => False end) ∧
  (k = Retried → retry_count info = r).

Definition success_inv (k : stage) (w : World) (info : fts_segment_info) : Prop :=
  (k = Received ∨ k = Retried) ∧ isPrimaryAlive (seg_result info) = true ∧ conn info ≠ None ∧
  EvReply (dbid (primary_cdbinfo info)) (answered (state info)) (seg_result info) ∈ trace w ∧
  (strict → good_result (state info) (seg_result info)).

Definition is_idle (s : FtsMessageState) : bool :=
  match s with FTS_RESPONSE_PROCESSED => true | _ => is_wait s end.

Lemma state_inv_class k w info :
  state_inv k w info ↔
    if is_segment (state info) then segment_inv k info
    else if IsFtsMessageStateFailed (state info) then failed_inv k info
    else if IsFtsMessageStateSuccess (state info) then success_inv k w info
    else closed info.
Proof. unfold state_inv, success_inv. by destruct (state info). Qed.

(** The part of the invariant that is the same at every stage. *)
Record base_inv (w : World) (info : fts_segment_info) : Prop := MkBase {
  bi_retries : 0 <= retry_count info <= r;
  bi_pair : pair_ok info;
  bi_peer : ∀ c, conn info = Some c → conn_peer c = dbid (primary_cdbinfo info);
  bi_connects : is_probe (state info) = true →
    retry_count info + (if conn info then 1 else 0) <= connects (dbid (primary_cdbinfo info)) (trace w);
  bi_promote : is_promote (state info) = true → justified (dbid (primary_cdbinfo info)) (trace w) }.

Lemma stage_inv_base k w info : stage_inv k w info ↔ base_inv w info ∧ state_inv k w info.
Proof. split; [intros []; split; [by split|done]|intros [[] ?]; by split]. Qed.

(** The pair moves to a state of the same phase with the same connection. *)
Lemma base_inv_state w info s :
  base_inv w info → is_probe s = is_probe (state info) → is_promote s = is_promote (state info) →
  s ≠ FTS_RESPONSE_PROCESSED → state info ≠ FTS_RESPONSE_PROCESSED → base_inv w (set_state s info).
Proof.
  intros [H1 [P1 P2 P3 P4] H3 H4 H5] Ep Em Hs Hs'. split; cbn; try done.
  - split; cbn; try done. rewrite Em. intros Hm _. by apply P4.
  - by rewrite Ep.
  - by rewrite Em.
Qed.

(** A failure, from messaging a segment or from an earlier failure. *)
Lemma fail_step k k' w info (Q : fts_segment_info → World → Prop) :
  base_inv w info → is_segment (state info) = true ∨ IsFtsMessageStateFailed (state info) = true →
  seg_result info = no_result → conn info ≠ None →
  (recovery_making_progress info = true →
     match conn info with Some c => conn_error c ≠ NotInRecovery | None => False end) →
  k ≠ Head → k ≠ Retried → k' = k →
  (∀ s, stage_inv k' w (set_state s info) → IsFtsMessageStateFailed s = true →
    is_probe s = is_probe (state info) → Q (set_state s info) w) →
  wp (fail_state info) Q w.
Proof.
  intros Hb Hs Hres Hc Hp Hk Hk' -> HQ. unfold fail_state.
  destruct (failed_of _ Hs) as (s & -> & Hf & E1 & E2). apply wp_bind, wp_ret, wp_ret, HQ; [|done|done].
  apply stage_inv_base. split.
  - apply base_inv_state; try done; [by destruct s|]. by destruct Hs, (state info).
  - apply state_inv_class. cbn. destruct s; try done; cbn; unfold failed_inv; cbn; by split_and!.
Qed.

Lemma fail_segment k w info :
  world_inv w → base_inv w info → is_segment (state info) = true → seg_result info = no_result →
  conn info ≠ None → recovery_making_progress info = false → k ≠ Head → k ≠ Retried →
  wp (fail_state info) (λ info' w', world_inv w' ∧ later w w' ∧ stage_inv k w' info') w.
Proof.
  intros Hw Hb Hs Hres Hc Hp Hk Hk'. eapply (fail_step k k); try done; [by left|by rewrite Hp].
Qed.

Lemma stage_inv_idle k k' w info : is_idle (state info) = true → stage_inv k w info → stage_inv k' w info.
Proof.
  intros Hi [Hb Hs]%stage_inv_base. apply stage_inv_base. split; [done|]. apply state_inv_class.
  apply state_inv_class in Hs. by destruct (state info).
Qed.

(** A class of states that a step does not touch; it may be in any but the first. *)
Lemma stage_inv_next k k' w info :
  is_segment (state info) = false → stage_inv k w info →
  match k, k' with
  | Head, Connected | Connected, Polled | Polled, Sent | Sent, Received => True
  | _, _ => False
  end → stage_inv k' w info.
Proof.
  intros Hi [Hb Hs]%stage_inv_base Hk. apply stage_inv_base. split; [done|]. apply state_inv_class.
  apply state_inv_class in Hs. rewrite Hi in *. destruct (IsFtsMessageStateFailed (state info)).
  - destruct Hs as (K & A & B & C & _). split_and!; try done; by destruct k, k'.
  - destruct (IsFtsMessageStateSuccess (state info)); [|done].
    destruct Hs as (K & A). split; [destruct K as [-> | ->]; by destruct k'|done].
Qed.

(** ** Connecting *)

Lemma connect_start_step e w info :
  world_inv w → base_inv w info → is_segment (state info) = true → seg_result info = no_result →
  conn info = None → poll_events info = 0 → poll_revents info = 0 → recovery_making_progress info = false →
  wp ('(ok, info) ← ftsConnectStart e info; if ok : bool then mret info else fail_state info)
    (λ info' w', world_inv w' ∧ later w w' ∧ stage_inv Connected w' info') w.
Proof.
  intros Hw Hb Hs Hres Hc Hev Hrev Hprog. apply wp_bind. unfold ftsConnectStart.
  apply wp_bind, wp_assert; [done|by rewrite Hrev|]. intros w1 Hw1 L1 E1.
  apply wp_bind, wp_assert; [done|intros _|].
  { destruct (state info) eqn:E; try done; cbn; apply (po_pair _ (bi_pair _ _ Hb)); by rewrite E. }
  intros w2 Hw2 L2 E2. destruct (se_start e) as [st|]; [|apply wp_raise; unfold env_error; set_solver].
  apply wp_bind, wp_emit; [done|by left|]. intros w3 Hw3 L3 E3.
  assert (later w w3) as L by (etransitivity; [done|]; by etransitivity).
  set (info1 := set_conn _ info).
  assert (base_inv w3 info1) as Hb1.
  { destruct Hb as [B1 [P1 P2 P3 P4] B3 B4 B5]. rewrite E2, E1 in E3. split; cbn; try done.
    - by intros c [= <-].
    - intros Hp. specialize (B4 Hp). rewrite Hc in B4. rewrite E3. cbn. rewrite Z.eqb_refl. lia.
    - intros Hp. rewrite E3. by apply (justified_later _ _ [_]), B5. }
  destruct (decide (st = CONNECTION_BAD)) as [->|Hst].
  - apply wp_ret. cbn. apply (fail_step Connected Connected); try done; [by left|cbn; by rewrite Hprog].
  - assert (base_inv w3 (set_startTime (se_start_time e) (set_events (Z.lor (poll_events info1) POLLOUT) (poll_revents info1) info1))) as Hb2.
    { by destruct Hb1 as [B1 [P1 P2 P3 P4] B3 B4 B5]. }
    destruct st; try done; (apply wp_ret; apply (wp_ret (set_startTime _ _)); split; [done|]; split; [done|];
      apply stage_inv_base; split; [done|]; apply state_inv_class; cbn; rewrite Hs; split_and!; [done| |done];
      unfold segment_shape; cbn; rewrite Hev; done || by right).
Qed.

Lemma connect_poll_step e c w info :
  world_inv w → base_inv w info → is_segment (state info) = true → seg_result info = no_result →
  conn info = Some c → conn_status c ≠ CONNECTION_OK → poll_events info = 0 → recovery_making_progress info = false →
  wp (connect_poll e c info) (λ info' w', world_inv w' ∧ later w w' ∧ stage_inv Connected w' info') w.
Proof.
  intros Hw Hb Hs Hres Hc Hst Hev Hprog. unfold connect_poll. set (info1 := set_conn _ info).
  assert (base_inv w info1) as Hb1.
  { destruct Hb as [B1 [P1 P2 P3 P4] B3 B4 B5]. split; cbn; try done.
    - intros c' [= <-]. rewrite <- (B3 c Hc). by destruct (se_polling e).
    - intros Hp. specialize (B4 Hp). by rewrite Hc in B4. }
  assert (∀ ev, segment_shape Connected (set_events ev (poll_revents info1) info1) →
    wp (mret (set_events ev (poll_revents info1) info1))
      (λ info' w', world_inv w' ∧ later w w' ∧ stage_inv Connected w' info') w) as Hret.
  { intros ev Hsh. apply wp_ret. split; [done|]. split; [reflexivity|]. apply stage_inv_base. split; [by destruct Hb1 as [? []]|].
    apply state_inv_class. cbn. rewrite Hs. by split_and!. }
  destruct (se_polling e) as [| | |err|] eqn:Ep.
  - by apply Hret.
  - apply Hret. unfold segment_shape. cbn. rewrite Hev. destruct c as [peer [] idle err]; try done; by left.
  - apply Hret. unfold segment_shape. cbn. rewrite Hev. destruct c as [peer [] idle err]; try done; by right.
  - apply wp_bind. apply (fail_step Connected Connected); try done; [by left|by cbn; rewrite Hprog|].
    intros s Hi Hf _. apply wp_ret. split; [done|]. split; [reflexivity|].
    unfold checkIfFailedDueToRecoveryInProgress. destruct err as [| |ptr]; [done|done|]. case_match; [done|].
    apply stage_inv_base in Hi as [[B1 [P1 P2 P3 P4] B3 B4 B5] Hi]. apply stage_inv_base. split; [by split|].
    apply state_inv_class. apply state_inv_class in Hi. cbn in *. by destruct s.
  - apply wp_raise. unfold env_error. set_solver.
Qed.

Lemma connect_step e w info :
  world_inv w → stage_inv Head w info →
  wp (connect_segment r e info) (λ info' w', world_inv w' ∧ later w w' ∧ stage_inv Connected w' info') w.
Proof.
  intros Hw Hi. pose proof Hi as [Hb Hst]%stage_inv_base. apply state_inv_class in Hst.
  unfold connect_segment. rewrite seg_match. destruct (is_segment (state info)) eqn:Es.
  2: { destruct (conn_ok (conn info)); apply wp_ret; (split; [done|]); (split; [reflexivity|]);
         by apply (stage_inv_next Head). }
  destruct Hst as (Hres & Hsh & Hprog). unfold segment_shape in Hsh.
  assert (∀ xp, base_inv w (set_recovery xp false info)) as Hb'.
  { intros xp. by destruct Hb as [B1 [P1 P2 P3 P4] B3 B4 B5]. }
  destruct (conn_ok (conn info)) eqn:Eok.
  { apply wp_ret. split; [done|]. split; [reflexivity|]. apply stage_inv_base. split; [done|].
    apply state_inv_class. rewrite Es. split_and!; [done| |done].
    unfold segment_shape. destruct (conn info) as [[peer [] [] err]|]; try done. by destruct Hsh. }
  cbn [conn set_recovery]. destruct (conn info) as [c|] eqn:Ec.
  - destruct (has _ _) eqn:Eh.
    + apply connect_poll_step; try done; [by destruct c as [peer [] idle err]|].
      destruct c as [peer [] idle err]; try done; cbn in *;
        destruct Hsh as [[_ Hrev]|[Hev _]]; try done; by rewrite Hrev in Eh.
    + apply wp_ret. split; [done|]. split; [reflexivity|]. apply stage_inv_base. split; [apply Hb'|].
      apply state_inv_class. cbn. rewrite Es. split_and!; [done| |done]. unfold segment_shape. cbn. rewrite Ec.
      destruct c as [peer [] idle err]; try done; cbn in *;
        destruct Hsh as [[Hev _]|[_ Hh]]; try done; congruence.
  - destruct Hsh as [Hev Hrev]. apply wp_bind, wp_assert; [done|..].
    { intros _. destruct Hb as [B1 _ _ _ _]. cbn. destruct (Z.ltb_spec 0 (retry_count info)); [|done]. simpl. apply Z.leb_le. lia. }
    intros w1 Hw1 L1 E1. eapply wp_mono; [apply connect_start_step|]; try done.
    + destruct (Hb' (xlogrecptr info)) as [B1 B2 B3 B4 B5]. split; try done; by rewrite E1.
    + intros info' w' (A & B & C). split; [done|]. split; [by transitivity w1|done].
Qed.

(** ** Polling *)

Lemma has_lor ev m1 m2 : has ev (Z.lor m1 m2) = has ev m1 || has ev m2.
Proof.
  unfold has. rewrite <- negb_andb. f_equal. rewrite Z.land_lor_distr_r.
  destruct (Z.eqb_spec (Z.land ev m1) 0) as [E1|E1], (Z.eqb_spec (Z.land ev m2) 0) as [E2|E2]; cbn [andb].
  - by rewrite E1, E2.
  - apply Z.eqb_neq. intros E. by apply Z.lor_eq_0_iff in E as [_ E].
  - apply Z.eqb_neq. intros E. by apply Z.lor_eq_0_iff in E as [E _].
  - apply Z.eqb_neq. intros E. by apply Z.lor_eq_0_iff in E as [E _].
Qed.

Lemma poll_fds_spec n l :
  let '(fds, l') := poll_fds n l in
  length l' = length l ∧
  (∀ j info', l' !! j = Some info' → ∃ info k, l !! j = Some info ∧ info' = set_fd_index k info) ∧
  (fds = [] → ∀ j info', l' !! j = Some info' → has (poll_events info') (Z.lor POLLIN POLLOUT) = false).
Proof.
  revert n. induction l as [|a l IH]; intros n; cbn [poll_fds]; [done|].
  destruct (has (poll_events a) (Z.lor POLLIN POLLOUT)) eqn:Eh.
  - specialize (IH (n + 1)). destruct (poll_fds (n + 1) l) as [fds l']. destruct IH as (E & H & _).
    split; [simpl; by rewrite E|]. split; [|done].
    intros [|j] info' Hj; simpl in *; [|by apply H]. injection Hj as <-. by exists a, n.
  - specialize (IH n). destruct (poll_fds n l) as [fds l']. destruct IH as (E & H & H0).
    split; [simpl; by rewrite E|]. split.
    + intros [|j] info' Hj; simpl in *; [|by apply H]. injection Hj as <-. by exists a, (-1).
    + intros -> [|j] info' Hj; simpl in *; [|by apply (H0 eq_refl j)]. by injection Hj as <-.
Qed.

Lemma stage_inv_fd k w info i : stage_inv k w info → stage_inv k w (set_fd_index i info).
Proof.
  intros [[B1 [P1 P2 P3 P4] B3 B4 B5] Hs]%stage_inv_base. apply stage_inv_base. split; [by split|].
  apply state_inv_class. by apply state_inv_class in Hs.
Qed.

Lemma connected_events info : segment_shape Connected info → conn info ≠ None ∧
  (poll_events info = POLLIN ∨ poll_events info = POLLOUT).
Proof.
  unfold segment_shape. destruct (conn info) as [[peer [] [] err]|]; naive_solver.
Qed.

(** A pair that was not polled for. *)
Lemma unpolled w info :
  has (poll_events info) (Z.lor POLLIN POLLOUT) = false → stage_inv Connected w info → stage_inv Polled w info.
Proof.
  intros Hh Hi. destruct (is_segment (state info)) eqn:Es; [|by apply (stage_inv_next Connected)].
  apply stage_inv_base in Hi as [_ Hi]. apply state_inv_class in Hi. rewrite Es in Hi. destruct Hi as (_ & Hsh & _).
  destruct (connected_events info Hsh) as [_ [E|E]]; by rewrite E in Hh.
Qed.

Lemma base_inv_events w info ev rev : base_inv w info → base_inv w (set_events ev rev info).
Proof. by intros [B1 [P1 P2 P3 P4] B3 B4 B5]. Qed.

Lemma timeout_step now w info :
  stage_inv Polled w info → (is_segment (state info) = true ∨ IsFtsMessageStateFailed (state info) = true) →
  wp (ftsCheckTimeout timeout now info) (λ info' w', w' = w ∧ stage_inv Polled w info') w.
Proof.
  intros Hi Hs. unfold ftsCheckTimeout. destruct (_ && _) eqn:E; [|by apply wp_ret].
  apply stage_inv_base in Hi as [Hb Hst]. apply state_inv_class in Hst.
  assert (seg_result info = no_result ∧ conn info ≠ None ∧ (recovery_making_progress info = true →
    match conn info with Some c => conn_error c ≠ NotInRecovery | None => False end)) as (A & B & C).
  { destruct (is_segment (state info)) eqn:Es.
    - destruct Hst as (Hres & Hsh & Hp). unfold segment_shape in Hsh. destruct (conn info); [|done].
      split; [done|]. split; [done|]. rewrite Hp; done.
    - destruct Hs as [|Hf]; [done|]. rewrite Hf in Hst. by destruct Hst as (_ & ? & ? & ? & _). }
  apply (fail_step Polled Polled); try done.
Qed.

Lemma poll_step revents now w info :
  world_inv w → stage_inv Connected w info →
  wp (poll_segment timeout revents now info) (λ info' w', world_inv w' ∧ later w w' ∧ stage_inv Polled w' info') w.
Proof.
  intros Hw Hi. unfold poll_segment. destruct (has (poll_events info) _) eqn:Eh.
  2: { apply wp_ret. split; [done|]. split; [reflexivity|]. by apply unpolled. }
  pose proof Hi as [Hb Hst]%stage_inv_base. apply state_inv_class in Hst.
  set (rev := revents.[_]). set (info1 := set_events (poll_events info) rev info).
  assert (is_segment (state info) = true ∨ IsFtsMessageStateFailed (state info) = true) as Hs.
  { destruct (is_segment (state info)); [by left|]. destruct (IsFtsMessageStateFailed (state info)); [by right|].
    destruct (IsFtsMessageStateSuccess (state info)); [by destruct Hst as [[|] _]|].
    destruct Hst as (_ & E & _). by rewrite E in Eh. }
  assert (seg_result info = no_result ∧ conn info ≠ None ∧ (recovery_making_progress info = true →
    match conn info with Some c => conn_error c ≠ NotInRecovery | None => False end)) as (A & B & C).
  { destruct (is_segment (state info)) eqn:Es.
    - destruct Hst as (Hres & Hsh & Hp). destruct (connected_events info Hsh) as [Hc _].
      split; [done|]. split; [done|]. rewrite Hp; done.
    - destruct Hs as [|Hf]; [done|]. rewrite Hf in Hst. by destruct Hst as (_ & ? & ? & ? & _). }
  apply wp_bind. apply (wp_mono _ (λ info' w', w' = w ∧ stage_inv Polled w info' ∧
    (is_segment (state info') = true ∨ IsFtsMessageStateFailed (state info') = true))).
  2: { intros info' w' (-> & Hi' & Hs'). eapply wp_mono; [by apply timeout_step|].
       intros info'' w' [-> Hi'']. split; [done|]. split; [reflexivity|done]. }
  assert (∀ ev, (is_segment (state info) = true → segment_shape Polled (set_events ev rev info)) →
    stage_inv Polled w (set_events ev rev info)) as Hgen.
  { intros ev Hsh. apply stage_inv_base. split; [by apply base_inv_events|]. apply state_inv_class. cbn.
    destruct (is_segment (state info)) eqn:Es; [destruct Hst as (? & ? & ?); by split_and!; [|apply Hsh|]|].
    destruct Hs as [|Hf]; [done|]. rewrite Hf in *. by destruct Hst as (_ & ? & ? & ? & _); split_and!. }
  assert (∀ s, stage_inv Polled w (set_state s info1) → IsFtsMessageStateFailed s = true →
    is_probe s = is_probe (state info1) → w = w ∧ stage_inv Polled w (set_state s info1) ∧
    (is_segment (state (set_state s info1)) = true ∨ IsFtsMessageStateFailed (state (set_state s info1)) = true)) as Hfail.
  { intros s Hi' Hf _. split; [done|]. split; [done|]. by right. }
  change (poll_revents info1) with rev. change (poll_events info1) with (poll_events info).
  destruct (has rev (poll_events info)) eqn:Em; [|destruct (has rev (Z.lor POLLHUP POLLERR)); [|destruct (Z.eqb_spec rev 0) as [Er|Er]]];
    cbn [negb].
  - apply wp_ret. split; [done|]. split; [|done]. apply (Hgen 0). intros Es. rewrite Es in Hst.
    destruct Hst as (_ & Hsh & _). unfold segment_shape in *. cbn. destruct (conn info) as [[peer [] [] err]|]; try done;
      [left; by rewrite Hsh in Em|left; by rewrite Hsh in Em|..].
    all: right; split; [done|]; destruct Hsh as [Hsh|Hsh]; rewrite Hsh in Em; by rewrite has_lor, Em, ?orb_true_r.
  - by apply (fail_step Polled Polled); try done; apply base_inv_events.
  - apply wp_ret. split; [done|]. split; [|done]. apply (Hgen (poll_events info)). intros Es. rewrite Es in Hst.
    destruct Hst as (_ & Hsh & _). unfold segment_shape in *. cbn. rewrite Er.
    destruct (conn info) as [[peer [] [] err]|]; naive_solver.
  - by apply (fail_step Polled Polled); try done; apply base_inv_events.
Qed.

(** ** Sending *)

Lemma message_promote s : is_segment s = true → message_of s = FTS_MSG_PROMOTE → is_promote s = true.
Proof. by destruct s. Qed.

Lemma send_step e w info :
  world_inv w → stage_inv Polled w info →
  wp (send_segment e info) (λ info' w', world_inv w' ∧ later w w' ∧ stage_inv Sent w' info') w.
Proof.
  intros Hw Hi. unfold send_segment. rewrite seg_match. destruct (is_segment (state info)) eqn:Es.
  2: { apply wp_ret. split; [done|]. split; [reflexivity|]. by apply (stage_inv_next Polled). }
  pose proof Hi as [Hb Hst]%stage_inv_base. apply state_inv_class in Hst. rewrite Es in Hst.
  destruct Hst as (Hres & Hsh & Hp).
  assert (segment_shape Sent info → wp (mret info)
    (λ info' w', world_inv w' ∧ later w w' ∧ stage_inv Sent w' info') w) as Hret.
  { intros Hsh'. apply wp_ret. split; [done|]. split; [reflexivity|]. apply stage_inv_base. split; [done|].
    apply state_inv_class. rewrite Es. by split_and!. }
  destruct (conn info) as [[peer cs idle err]|] eqn:Ec; [|unfold segment_shape in Hsh; by rewrite Ec in Hsh].
  destruct cs; [destruct idle|..].
  2-4: apply Hret; unfold segment_shape in *; rewrite Ec in *; done.
  unfold segment_shape in Hsh. rewrite Ec in Hsh. destruct (has (poll_revents info) POLLOUT) eqn:Eh.
  2: { apply Hret. unfold segment_shape. rewrite Ec. destruct Hsh as [[_ ?]|?]; [congruence|done]. }
  destruct (se_sent e).
  2: { apply fail_segment; try done; [by rewrite Ec|by apply Hp]. }
  apply wp_bind, wp_emit; [done|..].
  { destruct (decide (message_of (state info) = FTS_MSG_PROMOTE)) as [Em|Em].
    - right. exists peer. rewrite Em. split; [done|]. rewrite (bi_peer _ _ Hb _ Ec : peer = _).
      apply (bi_promote _ _ Hb). by apply message_promote.
    - left. simpl. by rewrite bool_decide_false. }
  intros w' Hw' L' E'. apply wp_ret. split; [done|]. split; [done|]. apply stage_inv_base. split.
  - destruct Hb as [B1 [P1 P2 P3 P4] B3 B4 B5]. split; cbn; try done.
    + intros c [= <-]. by apply (B3 _ Ec).
    + rewrite Ec in B4. rewrite E'. done.
    + rewrite E'. intros Hm. by apply (justified_later _ _ [_]), B5.
  - apply state_inv_class. cbn. rewrite Es. split_and!; [done|by right|]. intros _. by apply Hp.
Qed.

(** ** Receiving *)

(** The reply is one that a segment can send. *)
Definition good_reply (s : FtsMessageState) (rep : Reply) : Prop :=
  match rep with
  | TuplesResult ntuples nfields values =>
      good_result s (seg_result (probeRecordResponse values (init_info (MkCdb 0 0 "p" "s" "u") (MkCdb 0 0 "p" "s" "u"))))
  | _ => True
  end.

Lemma record_result values info :
  ∃ res, isPrimaryAlive res = true ∧ probeRecordResponse values info = set_result res info ∧
    ∀ info', seg_result (probeRecordResponse values info') = res.
Proof. by exists (seg_result (probeRecordResponse values info)). Qed.

Lemma receive_step e w info :
  world_inv w → stage_inv Sent w info → (strict → good_reply (state info) (se_reply e (message_of (state info)))) →
  wp (receive_segment e info) (λ info' w', world_inv w' ∧ later w w' ∧ stage_inv Received w' info') w.
Proof.
  intros Hw Hi Hg. unfold receive_segment. rewrite seg_match. destruct (is_segment (state info)) eqn:Es.
  2: { apply wp_ret. split; [done|]. split; [reflexivity|]. by apply (stage_inv_next Sent). }
  pose proof Hi as [Hb Hst]%stage_inv_base. apply state_inv_class in Hst. rewrite Es in Hst.
  destruct Hst as (Hres & Hsh & Hp).
  assert (conn info ≠ None) as Hc. { unfold segment_shape in Hsh. by destruct (conn info). }
  assert (wp (fail_state info) (λ info' w', world_inv w' ∧ later w w' ∧ stage_inv Received w' info') w) as Hfail.
  { apply fail_segment; try done. by apply Hp. }
  destruct (conn_ok (conn info) && has (poll_revents info) POLLIN) eqn:Eh.
  2: { apply wp_ret. split; [done|]. split; [reflexivity|]. apply stage_inv_base. split; [done|].
       apply state_inv_class. rewrite Es. split_and!; [done| |done]. unfold segment_shape in *.
       destruct (conn info) as [[peer [] [] err]|]; try done. destruct Hsh as [[_ Hh]|]; [|done].
       simpl in Eh. congruence. }
  destruct (se_reply e _) as [| | | |nt nf values]; try done. destruct (_ || _); [done|].
  destruct (record_result values info) as (res & Ha & -> & Hres'). apply wp_bind, wp_emit; [done|by left|].
  intros w' Hw' L' E'. apply wp_bind.
  assert (∃ s, nextSuccessState (state info) = mret s ∧ IsFtsMessageStateSuccess s = true ∧
    is_probe s = is_probe (state info) ∧ is_promote s = is_promote (state info) ∧
    answered s = message_of (state info)) as (s & En & Hss & E1 & E2 & E3).
  { destruct (state info); try done; by eexists. }
  change (state (set_result res info)) with (state info). rewrite En. apply wp_ret, wp_ret.
  split; [done|]. split; [done|]. apply stage_inv_base. split.
  - apply base_inv_state; try done; [|by destruct s|cbn; intros Ex; by rewrite Ex in Es].
    destruct Hb as [B1 [P1 P2 P3 P4] B3 B4 B5]. split; try done; cbn.
    + by rewrite E'.
    + rewrite E'. intros Hm. by apply (justified_later _ _ [_]), B5.
  - apply state_inv_class. cbn. assert (is_segment s = false ∧ IsFtsMessageStateFailed s = false) as [-> ->] by by destruct s.
    rewrite Hss. unfold success_inv. cbn. split; [by left|]. split; [done|]. split; [done|]. split.
    + rewrite E'. destruct (conn info) as [c|] eqn:Ec; [|done]. unfold conn_peer_of. cbn. rewrite Ec.
      rewrite (bi_peer _ _ Hb _ Ec), E3. by left.
    + intros Hst. specialize (Hg Hst). unfold good_reply in Hg. rewrite Hres' in Hg. destruct Hg as (G1 & G2 & G3).
      split_and!; [done..|]. by rewrite E1.
Qed.

(** ** Retrying *)

Lemma retry_failed_step now w info :
  world_inv w → base_inv w info → conn info ≠ None →
  IsFtsMessageStateFailed (state info) = true ∨ state info = FTS_PROBE_SUCCESS →
  (retry_count info = r → stage_inv Retried w info) →
  wp (retryForFtsFailed r now info) (λ info' w', world_inv w' ∧ later w w' ∧ stage_inv Retried w' info') w.
Proof.
  intros Hw Hb Hc Hs Hlast. unfold retryForFtsFailed. destruct (Z.eqb_spec (retry_count info) r) as [E|E].
  { apply wp_ret. split; [done|]. split; [reflexivity|]. by apply Hlast. }
  set (s := match state info with FTS_PROBE_SUCCESS | FTS_PROBE_FAILED => _ | _ => _ end).
  assert (is_wait s = true ∧ is_probe s = is_probe (state info) ∧ is_promote s = is_promote (state info)) as (Ew & E1 & E2).
  { unfold s. destruct Hs as [Hs| ->]; [|done]. by destruct (state info). }
  apply wp_bind, wp_finish; [done|]. intros w' Hw' L'. apply wp_ret. split; [done|]. split; [done|].
  apply stage_inv_base. split.
  - assert (base_inv w' info) as [B1 [P1 P2 P3 P4] B3 B4 B5].
    { assert (∀ k, state_inv k w info → stage_inv k w info) as Hk by (intros k Hk; by apply stage_inv_base).
      destruct L' as [[tr Et] _]. destruct Hb as [B1 B2 B3 B4 B5]. split; try done.
      - intros Hp. rewrite Et. pose proof (connects_app (dbid (primary_cdbinfo info)) tr (trace w)). specialize (B4 Hp). lia.
      - intros Hp. rewrite Et. by apply justified_later, B5. }
    split; cbn; try done.
    + lia.
    + split; cbn; try done. rewrite E2. intros Hm _. apply P4; [done|]. by destruct Hs as [Hs| ->]; [destruct (state info)|].
    + rewrite E1. intros Hp. specialize (B4 Hp). destruct (conn info); [lia|done].
    + by rewrite E2.
  - apply state_inv_class. cbn. by destruct s.
Qed.

Lemma retry_step now w info :
  world_inv w → stage_inv Received w info →
  wp (retry_segment r now info) (λ info' w', world_inv w' ∧ later w w' ∧ stage_inv Retried w' info') w.
Proof.
  intros Hw Hi. pose proof Hi as [Hb Hst]%stage_inv_base. apply state_inv_class in Hst. unfold retry_segment.
  destruct (is_idle (state info)) eqn:Ei.
  { assert (stage_inv Retried w info) as Hi' by by apply (stage_inv_idle Received).
    destruct (state info) eqn:Est; try done.
    1-3: destruct (Z.ltb_spec (s32 (now - retryStartTime info)) 1);
      (apply wp_ret; split; [done|]; split; [reflexivity|]); [done|];
      apply stage_inv_base; (split; [apply base_inv_state; try done; by rewrite Est|]);
      apply state_inv_class; cbn in *; destruct Hst as (A & B & C & D');
      split_and!; [done|unfold segment_shape; cbn; by rewrite A|done]. }
  destruct (is_segment (state info)) eqn:Es.
  { assert (stage_inv Retried w info) as Hi'.
    { apply stage_inv_base. split; [done|]. apply state_inv_class. rewrite Es. destruct Hst as (A & B & C).
      split_and!; [done| |done]. unfold segment_shape in *. by destruct (conn info) as [[peer [] [] err]|]. }
    destruct (state info); try done; apply wp_ret; (split; [done|]); by split. }
  destruct (IsFtsMessageStateFailed (state info)) eqn:Ef.
  { destruct Hst as (_ & A & B & C & _).
    assert (wp (retryForFtsFailed r now info) (λ info' w', world_inv w' ∧ later w w' ∧ stage_inv Retried w' info') w) as Hretry.
    { apply retry_failed_step; try done; [by left|]. intros E. apply stage_inv_base. split; [done|].
      apply state_inv_class. rewrite Es, Ef. by split_and!. }
    by destruct (state info). }
  assert (IsFtsMessageStateSuccess (state info) = true) as Ess by by destruct (state info).
  rewrite Ess in Hst.
  assert (stage_inv Retried w info) as Hi'.
  { apply stage_inv_base. split; [done|]. apply state_inv_class. rewrite Es, Ef, Ess. destruct Hst as (_ & ? & ?).
    split; [by right|done]. }
  destruct (state info) eqn:Est; try done; try (apply wp_ret; (split; [done|]); by split).
  destruct (negb _); [apply wp_ret; (split; [done|]); by split|].
  apply retry_failed_step; try done; [by destruct Hst as (_ & _ & ? & _)|by right].
Qed.

(** ** Updating the configuration *)

Lemma replay_dom d tr : is_Some (c0 !! d) → is_Some (replay tr !! d).
Proof.
  intros H. induction tr as [|ev tr IH]; [done|]. destruct ev as [| | |ups|]; try done. cbn [replay].
  revert IH. generalize (replay tr). induction ups as [|u ups IHu]; intros c Hc; [done|]. cbn [foldl].
  apply IHu. destruct (decide (up_dbid u = d)) as [->|]; [by rewrite lookup_insert_eq|by rewrite lookup_insert_ne].
Qed.

Definition update_ok (u : ConfigUpdate) : bool := implb (up_insync u) (up_alive u).

Lemma for_updates_spec ups w :
  (∀ u, u ∈ ups → is_Some (config w !! up_dbid u)) →
  ∃ h, for_updates ups w = Ok (tt, MkWorld (foldl (λ c u, <[up_dbid u := config_row u]> c) (config w) ups) h
    (probe_info w) (shutdown_requested w) (asserts w && forallb update_ok ups) (trace w)).
Proof.
  revert w. induction ups as [|u ups IH]; intros w H; cbn [for_updates foldl forallb].
  - exists (history w). rewrite andb_true_r. by destruct w.
  - unfold mbind, M_bind, probeWalRepUpdateConfig, Assert, get, modify, mbind. cbn [config].
    destruct (H u ltac:(by left)) as [row Hrow]. unfold M_bind. cbn. rewrite Hrow. cbn.
    edestruct IH as [h Eh]; [|exists h; rewrite Eh; cbn; by rewrite andb_assoc].
    intros u' Hu'. cbn. destruct (decide (up_dbid u = up_dbid u')) as [->|]; [by rewrite lookup_insert_eq|].
    rewrite lookup_insert_ne by done. apply H. by right.
Qed.

Section Update.
Context (p m : CdbComponentDatabaseInfo) (prole mrole : ascii) (insync palive malive : bool).

Definition differs : bool := xorb insync (SEGMENT_IS_IN_SYNC p).
Definition update_primary : bool := xorb palive (SEGMENT_IS_ALIVE p) || differs.
Definition update_mirror : bool := xorb malive (SEGMENT_IS_ALIVE m) || differs.
Definition updates : list ConfigUpdate :=
  (if update_primary then [MkUpdate (dbid p) prole palive insync] else []) ++
  (if update_mirror then [MkUpdate (dbid m) mrole malive insync] else []).

Lemma updates_in u : u ∈ updates →
  u = MkUpdate (dbid p) prole palive insync ∨ u = MkUpdate (dbid m) mrole malive insync.
Proof. unfold updates. destruct update_primary, update_mirror; set_solver. Qed.

Lemma update_step w :
  world_inv w → in_catalog p → in_catalog m → mode p = mode m →
  (prole = GP_SEGMENT_CONFIGURATION_ROLE_MIRROR →
     SEGMENT_IS_IN_SYNC m = true ∧ insync = false ∧ palive = false) →
  (strict → insync = true → palive = true ∧ malive = true) →
  (∀ u, u ∈ updates → down_ok u (trace w)) →
  wp (updateConfiguration p m prole mrole insync palive malive)
    (λ u w', world_inv w' ∧ later w w' ∧ u = update_primary || update_mirror ∧
       (if u then trace w' = EvCommit updates :: trace w else trace w' = trace w)) w.
Proof.
  intros Hw Hp Hm Hmode Hrole Hsync Hdown. unfold updateConfiguration.
  apply wp_bind, wp_assert; [done|..].
  { intros _. destruct (Ascii.eqb_spec prole GP_SEGMENT_CONFIGURATION_ROLE_MIRROR) as [E|E]; [|done].
    destruct (Hrole E) as (-> & -> & ->). done. }
  intros w1 Hw1 L1 E1. apply wp_bind, wp_assert; [done|intros _; rewrite Hmode; apply Ascii.eqb_refl|].
  intros w2 Hw2 L2 E2. fold differs. fold update_primary update_mirror.
  assert (later w w2) as L by by transitivity w1.
  destruct (update_primary || update_mirror) eqn:En.
  2: { apply wp_ret. split; [done|]. split; [done|]. split; [done|]. by rewrite E2. }
  fold updates. destruct Hw2 as [C2 S2 A2].
  destruct (for_updates_spec updates w2) as [h Eh].
  { intros u [-> | ->]%updates_in; cbn; rewrite C2; apply replay_dom; by eexists. }
  apply wp_bind. unfold wp at 1. rewrite Eh. apply wp_bind, wp_modify. cbn.
  split; [split|split; [|split]]; cbn.
  - by rewrite C2.
  - split; [|done]. rewrite E2, E1. done.
  - intros Hs. rewrite (A2 Hs). cbn. apply forallb_forall. intros u Hu. apply list_elem_of_In, updates_in in Hu.
    destruct insync eqn:Ei; [|destruct Hu as [-> | ->]; done].
    destruct (Hsync Hs eq_refl) as [-> ->]. by destruct Hu as [-> | ->].
  - destruct L as [[tr Et] Hsh]. split; cbn; [|done]. exists (EvCommit updates :: tr). by rewrite Et.
  - done.
  - by rewrite E2, E1.
Qed.

End Update.

(** ** Processing the responses *)

(** A pair whose response was processed, before its connection is closed. *)
Record processed (w w' : World) (info : fts_segment_info) : Prop := MkProcessed {
  pr_world : world_inv w';
  pr_later : later w w';
  pr_pair : pair_ok info;
  pr_state : state info = FTS_SYNCREP_OFF_SEGMENT ∨ state info = FTS_PROMOTE_SEGMENT ∨ state info = FTS_RESPONSE_PROCESSED;
  pr_promote : is_promote (state info) = true → justified (dbid (primary_cdbinfo info)) (trace w') }.

Lemma processed_done w w' info :
  world_inv w' → later w w' → pair_ok info → processed w w' (set_state FTS_RESPONSE_PROCESSED info).
Proof. intros Hw L [P1 P2 P3 P4]. split; cbn; try done. by right; right. Qed.

Lemma not_up m : in_catalog m → SEGMENT_IS_ALIVE m = false →
  row_status <$> c0 !! dbid m ≠ Some GP_SEGMENT_CONFIGURATION_STATUS_UP.
Proof.
  unfold in_catalog, SEGMENT_IS_ALIVE. intros -> H. cbn. intros [= E]. rewrite E in H. by vm_compute in H.
Qed.

Lemma active_row p : in_catalog p → SEGMENT_IS_ACTIVE_PRIMARY p = true →
  row_role <$> c0 !! dbid p = Some GP_SEGMENT_CONFIGURATION_ROLE_PRIMARY.
Proof. unfold in_catalog, SEGMENT_IS_ACTIVE_PRIMARY. intros -> H. cbn. by apply Ascii.eqb_eq in H as ->. Qed.

Lemma in_sync_row m : in_catalog m → SEGMENT_IS_IN_SYNC m = true →
  row_mode <$> c0 !! dbid m = Some GP_SEGMENT_CONFIGURATION_MODE_INSYNC.
Proof. unfold in_catalog, SEGMENT_IS_IN_SYNC. intros -> H. cbn. by apply Ascii.eqb_eq in H as ->. Qed.

(** What a response says, when the primary answered. *)
Lemma resp_alive info : isPrimaryAlive (seg_result info) = true →
  resp_primary_alive info = true ∧ resp_mirror_alive info = isMirrorAlive (seg_result info) ∧
  resp_in_sync info = isInSync (seg_result info).
Proof. intros H. unfold resp_mirror_alive, resp_in_sync, resp_primary_alive. by rewrite H. Qed.

Lemma probe_update_step w info :
  world_inv w → stage_inv Retried w info → state info = FTS_PROBE_SUCCESS →
  (isMirrorAlive (seg_result info) = false → retryRequested (seg_result info) = false ∨ isSyncRepEnabled (seg_result info) = false) →
  wp (updateConfiguration (primary_cdbinfo info) (mirror_cdbinfo info)
        GP_SEGMENT_CONFIGURATION_ROLE_PRIMARY GP_SEGMENT_CONFIGURATION_ROLE_MIRROR
        (resp_in_sync info) (resp_primary_alive info) (resp_mirror_alive info))
    (λ u w', world_inv w' ∧ later w w' ∧
       (isMirrorAlive (seg_result info) = false → SEGMENT_IS_ALIVE (mirror_cdbinfo info) = true → u = true)) w.
Proof.
  intros Hw [[B1 [P1 P2 P3 P4] B3 B4 B5] Hs]%stage_inv_base Est Hretry. apply state_inv_class in Hs. rewrite Est in *.
  destruct Hs as (_ & Ha & Hc & Hin & Hgood). rewrite Est in Hin. destruct (P4 eq_refl ltac:(done)) as [Hpair _].
  destruct (resp_alive info Ha) as (-> & -> & ->).
  eapply wp_mono; [apply update_step; try done|].
  - intros Hs Hi. destruct (Hgood Hs) as (G1 & _). by split; [|apply G1].
  - intros u Hu. apply updates_in in Hu. intros Hal. destruct Hu as [-> | ->]; cbn in *; [done|].
    right. right. eexists _, _. split; [exact Hpair|]. split; [exact Hin|]. split; [done|]. by apply Hretry.
  - intros u w' (A & B & -> & _). split; [done|]. split; [done|]. intros E1 E2. unfold update_mirror. rewrite E1, E2.
    cbn. by rewrite orb_true_r.
Qed.

Lemma probe_success_step upd w info :
  world_inv w → stage_inv Retried w info → state info = FTS_PROBE_SUCCESS →
  wp (process_probe_success info upd) (λ x w', processed w w' x.1) w.
Proof.
  intros Hw Hi Est. pose proof Hi as [Hb Hs]%stage_inv_base. apply state_inv_class in Hs.
  pose proof (bi_pair _ _ Hb) as Hpair. rewrite Est in Hs. destruct Hs as (_ & Ha & Hc & Hin & Hgood). unfold process_probe_success.
  destruct (resp_alive info Ha) as (Ra & Rm & Rs).
  apply wp_bind, wp_assert; [done|by rewrite Ra|]. intros w1 Hw1 L1 E1.
  pose proof (stage_inv_later _ _ _ _ L1 Hi) as Hi1. rewrite Rm.
  destruct (isSyncRepEnabled (seg_result info) && negb (isMirrorAlive (seg_result info))) eqn:Eb.
  - apply andb_true_iff in Eb as [Esr Ema%negb_true_iff].
    destruct (retryRequested (seg_result info)) eqn:Err; cbn [negb].
    { apply wp_ret. by apply processed_done. }
    apply wp_bind. rewrite <- Rm. eapply wp_mono; [apply probe_update_step; try done; by left|].
    intros u w2 (Hw2 & L2 & Hu). apply wp_bind, wp_assert; [done|..].
    { intros _. destruct (SEGMENT_IS_ALIVE (mirror_cdbinfo info)); [|done]. rewrite Hu by done. by rewrite orb_true_r. }
    intros w3 Hw3 L3 E3. apply wp_ret. cbn. split; cbn; [done|by do 2 (etransitivity; [done|])| |by left|done].
    destruct Hpair as [P1 P2 P3 P4]. split; cbn; try done. intros _ _. apply P4; by rewrite Est.
  - assert (isMirrorAlive (seg_result info) = false → retryRequested (seg_result info) = false ∨ isSyncRepEnabled (seg_result info) = false) as Hretry.
    { intros E. rewrite E in Eb. right. by destruct (isSyncRepEnabled (seg_result info)). }
    destruct (isRoleMirror (seg_result info)) eqn:Erm.
    + assert (∀ b, strict → b = true) as Hno.
      { intros b Hs. destruct (Hgood Hs) as (_ & _ & G). rewrite Est in G. by rewrite G in Erm. }
      do 5 (apply wp_bind, wp_assert; [done|by apply Hno|]; intros ? ? ? ?).
      apply wp_ret. cbn. split; cbn; [done|by do 5 (etransitivity; [done|])| |by right; left|].
      * destruct Hpair as [P1 P2 P3 P4]. by split.
      * intros _. right. destruct Hpair as [P1 P2 P3 P4]. destruct (P4 ltac:(by rewrite Est) ltac:(by rewrite Est)) as [Hpm Hact].
        exists (dbid (mirror_cdbinfo info)), (seg_result info). split; [done|]. split; [by apply active_row|].
        rewrite Est in Hin. cbn [answered] in Hin. split; [congruence|]. split; [done|]. intros Esr. rewrite Esr in Eb.
        by destruct (isMirrorAlive (seg_result info)).
    + apply wp_bind. rewrite <- Rm. eapply wp_mono; [by apply probe_update_step|].
      intros u w2 (Hw2 & L2 & _). apply wp_ret. apply processed_done; [done|by transitivity w1|done].
Qed.

Lemma probe_failed_step upd w info :
  world_inv w → stage_inv Retried w info → state info = FTS_PROBE_FAILED →
  wp (process_probe_failed info upd) (λ x w', processed w w' x.1) w.
Proof.
  intros Hw Hi Est. pose proof Hi as [[B1 Hpair B3 B4 B5] Hs]%stage_inv_base. apply state_inv_class in Hs.
  rewrite Est in Hs, B4. destruct Hs as (_ & Hres & Hc & Hprog & Hrc). specialize (Hrc eq_refl). specialize (B4 eq_refl).
  unfold process_probe_failed. destruct (recovery_making_progress info).
  { specialize (Hprog eq_refl). apply wp_bind, wp_assert; [done|intros _; by destruct (conn info) as [[? ? ? []]|]|].
    intros w1 Hw1 L1 E1. apply wp_ret. by apply processed_done. }
  assert (resp_primary_alive info = false ∧ resp_mirror_alive info = SEGMENT_IS_ALIVE (mirror_cdbinfo info) ∧
    resp_in_sync info = false) as (Ra & Rm & Rs).
  { unfold resp_mirror_alive, resp_in_sync, resp_primary_alive. by rewrite Hres. }
  apply wp_bind, wp_assert; [done|by rewrite Ra|]. intros w1 Hw1 L1 E1.
  destruct (SEGMENT_IS_IN_SYNC (mirror_cdbinfo info)) eqn:Esync; [|by apply wp_ret, processed_done].
  pose proof Hpair as [P1 P2 P3 P4]. rewrite Est in P4. destruct (P4 eq_refl ltac:(done)) as [Hpm Hact].
  assert (SEGMENT_IS_IN_SYNC (primary_cdbinfo info) = true) as Esync'.
  { unfold SEGMENT_IS_IN_SYNC in *. by rewrite P3. }
  assert (r + 1 <= connects (dbid (primary_cdbinfo info)) (trace w1)) as Hconn.
  { rewrite E1. destruct (conn info); [lia|done]. }
  apply wp_bind, wp_assert; [done|by rewrite Esync'|]. intros w2 Hw2 L2 E2. rewrite Ra, Rm, Rs.
  apply wp_bind. eapply wp_mono; [apply update_step; try done|].
  { intros u Hu. apply updates_in in Hu. intros Hal. destruct Hu as [-> | ->]; cbn in *.
    - right. left. rewrite E2. split; [|done]. exists (dbid (mirror_cdbinfo info)).
      split; [done|]. split; [by apply active_row|by apply in_sync_row].
    - left. by apply not_up. }
  intros u w3 (Hw3 & L3 & Eu & Et).
  assert (update_primary (primary_cdbinfo info) false false = true ∧
    update_mirror (primary_cdbinfo info) (mirror_cdbinfo info) false (SEGMENT_IS_ALIVE (mirror_cdbinfo info)) = true) as [Eup Eum].
  { unfold update_primary, update_mirror, differs. rewrite Esync'. cbn. by rewrite !orb_true_r. }
  rewrite Eup in Eu. subst u. cbn in Et. unfold updates in Et. rewrite Eup, Eum in Et. cbn in Et.
  apply wp_bind, wp_assert; [done|intros _; by rewrite orb_true_r|]. intros w4 Hw4 L4 E4. apply wp_ret. cbn.
  split; cbn; [done|by do 3 (etransitivity; [done|])|by split|by right; left|].
  intros _. left. exists (dbid (primary_cdbinfo info)), (SEGMENT_IS_ALIVE (mirror_cdbinfo info)). rewrite E4, Et.
  split; [done|]. split; [by left|]. split; [cbn; by rewrite E2|]. by apply in_sync_row.
Qed.

(** The asserts on the response. *)
Lemma response_asserts w info :
  stage_inv Retried w info → ftsResponseReady info = true → strict →
  implb (IsFtsMessageStateFailed (state info)) (retry_count info =? r) = true ∧
  implb (resp_in_sync info) (resp_primary_alive info && resp_mirror_alive info) = true ∧
  implb (resp_mirror_alive info && resp_primary_alive info) (isSyncRepEnabled (seg_result info)) = true.
Proof.
  intros [Hb Hs]%stage_inv_base Erd Hst. apply state_inv_class in Hs. unfold ftsResponseReady in Erd.
  destruct (IsFtsMessageStateFailed (state info)) eqn:Ef.
  - assert (is_segment (state info) = false) as Eg by by destruct (state info).
    rewrite Eg in Hs. destruct Hs as (_ & Hres & _ & _ & Hrc).
    unfold resp_in_sync, resp_mirror_alive, resp_primary_alive. rewrite Hres, (Hrc eq_refl), Z.eqb_refl. cbn.
    by rewrite andb_false_r.
  - rewrite orb_false_r in Erd. assert (is_segment (state info) = false) as Eg by by destruct (state info).
    rewrite Eg, Erd in Hs. destruct Hs as (_ & Ha & _ & _ & Hg). destruct (Hg Hst) as (G1 & G2 & _).
    destruct (resp_alive info Ha) as (-> & -> & ->). split; [done|]. split.
    + destruct (isInSync (seg_result info)); [|done]. by rewrite G1.
    + destruct (isMirrorAlive (seg_result info)); [|done]. by rewrite G2.
Qed.

(** The connection is closed and the object reset. *)
Lemma reset_step w w0 info :
  processed w0 w info →
  stage_inv Head w (set_retry (retryStartTime (set_events 0 0 (set_conn None (set_result no_result info)))) 0
    (set_events 0 0 (set_conn None (set_result no_result info)))).
Proof.
  intros [H1 H2 [P1 P2 P3 P4] H4 H5]. apply stage_inv_base. split.
  - split; cbn; try done; by destruct H4 as [-> |[-> | ->]].
  - apply state_inv_class. cbn. destruct H4 as [-> |[-> | ->]]; cbn; by split_and!.
Qed.

Lemma process_step upd w info :
  world_inv w → stage_inv Retried w info →
  wp (process_segment r info upd) (λ x w', world_inv w' ∧ later w w' ∧ stage_inv Head w' x.1) w.
Proof.
  intros Hw Hi. unfold process_segment. pose proof Hi as [Hb Hs]%stage_inv_base. apply state_inv_class in Hs.
  destruct (ftsResponseReady info) eqn:Erd; cbn [negb].
  2: { apply wp_ret. split; [done|]. split; [reflexivity|]. cbn. apply stage_inv_base. split; [done|].
       apply state_inv_class. unfold ftsResponseReady in Erd. apply orb_false_iff in Erd as [Ess Ef]. rewrite Ess, Ef in *.
       destruct (is_segment (state info)); [|done]. destruct Hs as (A & B & C). split_and!; [done| |done].
       unfold segment_shape in *. by destruct (conn info) as [[peer [] [] err]|]. }
  apply wp_bind, wp_assert; [done|by intros Hst; apply (response_asserts w)|]. intros w1 Hw1 L1 _.
  apply wp_bind, wp_assert; [done|by intros Hst; apply (response_asserts w)|]. intros w2 Hw2 L2 _.
  apply wp_bind, wp_assert; [done|by intros Hst; apply (response_asserts w)|]. intros w3 Hw3 L3 _.
  assert (later w w3) as L by by do 2 (etransitivity; [done|]).
  pose proof (stage_inv_later _ _ _ _ L Hi) as Hi3.
  apply wp_bind. apply (wp_mono _ (λ x w', processed w3 w' x.1)).
  - assert (wp (mret (set_state FTS_RESPONSE_PROCESSED info, upd)) (λ x w', processed w3 w' x.1) w3) as Hdone.
    { apply wp_ret. cbn. apply processed_done; [done|reflexivity|apply Hb]. }
    unfold ftsResponseReady in Erd. destruct (state info) eqn:Est; try done.
    + by apply probe_success_step.
    + by apply probe_failed_step.
  - intros [info' upd'] w4 Hpr. cbn [fst] in Hpr. apply wp_bind, wp_finish; [apply Hpr|]. intros w5 Hw5 L5.
    apply wp_ret. cbn [fst]. split; [done|]. split; [transitivity w3; [done|]; transitivity w4; [apply Hpr|done]|].
    apply (stage_inv_later _ w4); [done|]. by apply (reset_step _ w3).
Qed.

(** ** Progress *)

Lemma wp_conj {A} (m : M A) (Q1 Q2 : A → World → Prop) w :
  wp m Q1 w → wp m Q2 w → wp m (λ a w', Q1 a w' ∧ Q2 a w') w.
Proof. unfold wp. by destruct (m w) as [[a w']|]. Qed.

(** How much a pair can still do: to connect, to time out while it is messaged, and to
    be tried again after a second. *)
Definition connected (info : fts_segment_info) : bool := if conn info then true else false.
Definition rank_of (s : FtsMessageState) (rc : Z) (c : bool) : Z :=
  match s with
  | FTS_RESPONSE_PROCESSED => 0
  | _ => (if is_probe s then 3 * r + 2 else 0) + 3 * (r - rc) +
         (if is_segment s then if c then 1 else 2 else if is_wait s then 3 else 0)
  end.
Definition rank (info : fts_segment_info) : Z := rank_of (state info) (retry_count info) (connected info).

Inductive due_kind := DueConnect | DueTimeout | DueRetry | NotDue.

(** Whether a pair is due in an iteration: it has no connection, or its timer has run
    out when it is polled, or it has waited for a second when the retries are considered. *)
Definition due (e : Env) (info : fts_segment_info) : due_kind :=
  if is_segment (state info) then
    if connected info then if timeout <? s32 (e_now_poll e - startTime info) then DueTimeout else NotDue
    else DueConnect
  else if is_wait (state info) then
    if 1 <=? s32 (e_now_retry e - retryStartTime info) then DueRetry else NotDue
  else NotDue.

(** The time a pair waits from satisfies [T]. *)
Definition stamped (T : Z → Prop) (info : fts_segment_info) : Prop :=
  (is_segment (state info) = true → connected info = true → T (startTime info)) ∧
  (is_wait (state info) = true → T (retryStartTime info)).

(** What is known of pair [i] in an iteration that began with rank [rho] and a time in
    [T]: a pair with another time, or with a response, has moved on. *)
Record moved (T : Z → Prop) (e : Env) (i : nat) (rho : Z) (info : fts_segment_info) : Prop := MkMoved {
  mv_rank : rank info <= rho;
  mv_time : stamped (λ t, T t ∨ (t = se_start_time (e_seg e i) ∨ t = e_now_retry e) ∧ rank info < rho) info;
  mv_ready : ftsResponseReady info = true → rank info < rho }.

Definition after_connect (T : Z → Prop) (e : Env) (i : nat) (d : due_kind) (rho : Z) (info : fts_segment_info) : Prop :=
  moved T e i rho info ∧
  match d with
  | DueConnect => rank info <= rho - 1
  | DueTimeout => if is_segment (state info) then timeout < s32 (e_now_poll e - startTime info) else rank info <= rho - 1
  | DueRetry => is_wait (state info) = true ∧ 1 <= s32 (e_now_retry e - retryStartTime info)
  | NotDue => True
  end.
Definition after_poll (T : Z → Prop) (e : Env) (i : nat) (d : due_kind) (rho : Z) (info : fts_segment_info) : Prop :=
  moved T e i rho info ∧
  match d with
  | DueConnect | DueTimeout => rank info <= rho - 1
  | DueRetry => is_wait (state info) = true ∧ 1 <= s32 (e_now_retry e - retryStartTime info)
  | NotDue => True
  end.
Definition after_retry (T : Z → Prop) (e : Env) (i : nat) (d : due_kind) (rho : Z) (info : fts_segment_info) : Prop :=
  moved T e i rho info ∧ (d ≠ NotDue → rank info <= rho - 1).

(** A failure costs a segment that was being messaged some rank and changes nothing else. *)
Lemma fail_rank w info (Q : fts_segment_info → Prop) :
  is_segment (state info) = true ∨ IsFtsMessageStateFailed (state info) = true →
  (∀ s, IsFtsMessageStateFailed s = true →
     rank (set_state s info) <= rank info - (if is_segment (state info) then 1 else 0) → Q (set_state s info)) →
  wp (fail_state info) (λ info' _, Q info') w.
Proof.
  intros Hs HQ. unfold fail_state. destruct (failed_of _ Hs) as (s & -> & Hf & E1 & E2).
  apply wp_bind, wp_ret, wp_ret, HQ; [done|]. unfold rank, connected. cbn.
  destruct Hs as [Hs|Hs], (state info), s, (conn info); try done; cbn; lia.
Qed.

Lemma rank_same info info' :
  state info' = state info → retry_count info' = retry_count info → connected info' = connected info →
  rank info' = rank info.
Proof. unfold rank. by intros -> -> ->. Qed.

(** A pair that neither waits nor is being messaged. *)
Lemma moved_ready T e i rho info :
  ftsResponseReady info = true → rank info < rho → moved T e i rho info.
Proof.
  intros Hr' Hlt. split; [lia| |done]. unfold ftsResponseReady in Hr'. by split; destruct (state info).
Qed.

Lemma moved_same T e i rho info info' :
  moved T e i rho info → state info' = state info → retry_count info' = retry_count info →
  connected info' = connected info → startTime info' = startTime info → retryStartTime info' = retryStartTime info →
  moved T e i rho info'.
Proof.
  intros [M1 M2 M3] E1 E2 E3 E4 E5. unfold stamped, ftsResponseReady in *.
  split; unfold stamped, ftsResponseReady; rewrite ?(rank_same info info'), ?E1, ?E3, ?E4, ?E5 by done; done.
Qed.

Lemma fail_after T e i d w info info' rho :
  is_segment (state info) = true → d = due e info → rho = rank info →
  state info' = state info → retry_count info' = retry_count info →
  rank info' <= rank info →
  wp (fail_state info') (λ x _, after_connect T e i d rho x) w.
Proof.
  intros Es -> -> E1 E2 Hle. apply fail_rank; [left; by rewrite E1|]. intros s Hf Hrk. rewrite E1, Es in Hrk.
  split; [apply moved_ready; [unfold ftsResponseReady; cbn; by rewrite Hf, orb_true_r|lia]|].
  unfold due. rewrite Es. destruct (connected info); [destruct (timeout <? _)|]; [|done|lia].
  cbn. assert (is_segment s = false) as -> by by destruct s. lia.
Qed.

Lemma connect_rank T e i w info :
  stage_inv Head w info → stamped T info →
  wp (connect_segment r (e_seg e i) info) (λ info' _, after_connect T e i (due e info) (rank info) info') w.
Proof.
  intros [_ Hst]%stage_inv_base HT. apply state_inv_class in Hst. unfold connect_segment. rewrite seg_match.
  assert (moved T e i (rank info) info) as Hm.
  { split; [lia|split; intros; left; by apply HT|]. unfold ftsResponseReady.
    destruct (state info); try done; cbn in Hst; [by destruct Hst as [[] _]..|by destruct Hst|by destruct Hst|by destruct Hst]. }
  destruct (is_segment (state info)) eqn:Es.
  2: { assert (after_connect T e i (due e info) (rank info) info) as Hret.
       { split; [done|]. unfold due. rewrite Es. destruct (is_wait (state info)) eqn:Ew; [|done].
         destruct (Z.leb_spec 1 (s32 (e_now_retry e - retryStartTime info))); [by split|done]. }
       by destruct (conn_ok (conn info)); apply wp_ret. }
  assert (connected info = true → ∀ info', state info' = state info → retry_count info' = retry_count info →
    connected info' = true → startTime info' = startTime info → retryStartTime info' = retryStartTime info →
    after_connect T e i (due e info) (rank info) info') as Hkeep.
  { intros Ec info' E1 E2 E3 E4 E5. split; [apply (moved_same T e i _ info); [done..|congruence|done|done]|].
    unfold due. rewrite E1, E4, Es, Ec. destruct (timeout <? _) eqn:Et; [|done]. by apply Z.ltb_lt. }
  destruct (conn_ok (conn info)) eqn:Eok.
  { assert (connected info = true) by (unfold connected; by destruct (conn info)). by apply wp_ret, Hkeep. }
  cbn [conn set_recovery]. destruct (conn info) as [c|] eqn:Ec.
  - assert (connected info = true) as Hc by (unfold connected; by rewrite Ec). specialize (Hkeep Hc).
    destruct (has _ _); [|apply wp_ret, Hkeep; done]. unfold connect_poll. destruct (se_polling (e_seg e i)) as [| | |err|].
    + by apply wp_ret, Hkeep.
    + by apply wp_ret, Hkeep.
    + by apply wp_ret, Hkeep.
    + apply wp_bind. eapply wp_mono; [apply (fail_after T e i (due e info) w info); try done|].
      { rewrite (rank_same info); [lia|done..]. }
      intros x w' Hx. apply wp_ret. unfold checkIfFailedDueToRecoveryInProgress. destruct err; [done|done|].
      case_match; [done|]. destruct Hx as [Hx1 Hx2]. split; [by eapply moved_same|done].
    + apply wp_raise. unfold env_error. set_solver.
  - assert (connected info = false) as Hc by (unfold connected; by rewrite Ec).
    assert (∀ info', state info' = state info → retry_count info' = retry_count info → connected info' = true →
      rank info' = rank info - 1) as Hdown.
    { intros info' E1 E2 E3. unfold rank. rewrite E1, E2, E3, Hc. destruct (state info); try done; cbn; lia. }
    apply wp_bind, wp_modify, wp_bind. unfold ftsConnectStart.
    apply wp_bind, wp_modify, wp_bind, wp_modify. destruct (se_start (e_seg e i)) as [st|];
      [|apply wp_raise; unfold env_error; set_solver].
    apply wp_bind, wp_modify. destruct st; (apply wp_ret).
    2: { apply (fail_after T e i (due e info) _ info); try done. rewrite Hdown by done. lia. }
    all: apply (wp_ret (set_startTime _ _)); set (info' := set_startTime _ _);
      assert (rank info' = rank info - 1) as Hrk by (by apply Hdown); split;
      [|unfold due; rewrite Es, Hc; lia]; split; [lia| |intros _; lia];
      (split; [intros _ _; right; split; [by left|lia]|]); cbn; intros Hw; by destruct (state info).
Qed.

(** Polling leaves a pair as it is, unless its timer has run out, or makes it fail. *)
Lemma poll_cases e revents w info :
  is_segment (state info) = true ∨ IsFtsMessageStateFailed (state info) = true →
  has (poll_events info) (Z.lor POLLIN POLLOUT) = true →
  wp (poll_segment timeout revents (e_now_poll e) info)
    (λ x _, startTime x = startTime info ∧ retryStartTime x = retryStartTime info ∧
       retry_count x = retry_count info ∧ connected x = connected info ∧
       ((state x = state info ∧ (is_segment (state info) = true → s32 (e_now_poll e - startTime info) <= timeout)) ∨
        (IsFtsMessageStateFailed (state x) = true ∧
         rank x <= rank info - (if is_segment (state info) then 1 else 0)))) w.
Proof.
  intros Hs Eh. unfold poll_segment. rewrite Eh. set (info1 := set_events (poll_events info) _ info).
  apply wp_bind. apply (wp_mono _ (λ x _, startTime x = startTime info ∧ retryStartTime x = retryStartTime info ∧
    retry_count x = retry_count info ∧ connected x = connected info ∧
    (state x = state info ∨ (IsFtsMessageStateFailed (state x) = true ∧
       rank x <= rank info - (if is_segment (state info) then 1 else 0))))).
  - assert (rank info1 = rank info) as E by done.
    destruct (has (poll_revents info1) (poll_events info1));
      [|destruct (has (poll_revents info1) (Z.lor POLLHUP POLLERR)); [|destruct (negb (poll_revents info1 =? 0))]].
    1,4: apply wp_ret; split_and!; [done..|by left].
    all: apply (fail_rank _ info1); [done|]; intros s Hf Hle; split_and!; [done..|right; split; [done|exact Hle]].
  - intros x w' (T1 & T2 & T3 & T4 & Hx). unfold ftsCheckTimeout. rewrite T1.
    destruct (negb (IsFtsMessageStateSuccess (state x)) && _) eqn:Et.
    + apply fail_rank; [destruct Hx as [-> |[Hf _]]; auto|]. intros s Hf Ex. split_and!; [done..|]. right. split; [done|].
      destruct Hx as [E|[Ef Hle]]; [rewrite E, (rank_same info x) in Ex by done; done|].
      destruct (is_segment (state x)), (is_segment (state info)); lia.
    + apply wp_ret. split_and!; [done..|]. destruct Hx as [E|Hx]; [left|by right]. split; [done|]. intros Es.
      apply andb_false_iff in Et as [Et|Et%Z.ltb_ge]; [|done]. rewrite E in Et. by destruct (state info).
Qed.

Lemma poll_rank T e i revents d rho w info :
  stage_inv Connected w info → after_connect T e i d rho info →
  wp (poll_segment timeout revents (e_now_poll e) info) (λ info' _, after_poll T e i d rho info') w.
Proof.
  intros [_ Hst]%stage_inv_base [Hm Hd]. apply state_inv_class in Hst.
  destruct (has (poll_events info) (Z.lor POLLIN POLLOUT)) eqn:Eh.
  2: { unfold poll_segment. rewrite Eh. apply wp_ret. split; [done|]. destruct d; [done| |done..].
       destruct (is_segment (state info)) eqn:Es; [|done].
       destruct Hst as (_ & Hsh & _). destruct (connected_events info Hsh) as [_ [E|E]]; by rewrite E in Eh. }
  assert (is_segment (state info) = true ∨ IsFtsMessageStateFailed (state info) = true) as Hs.
  { destruct (is_segment (state info)); [by left|]. destruct (IsFtsMessageStateFailed (state info)); [by right|].
    destruct (IsFtsMessageStateSuccess (state info)); [by destruct Hst as [[|] _]|].
    destruct Hst as (_ & E & _). by rewrite E in Eh. }
  assert (is_segment (state info) = false → rank info < rho) as Hlt.
  { intros Es. apply (mv_ready _ _ _ _ _ Hm). unfold ftsResponseReady. destruct Hs as [| ->]; [congruence|by rewrite orb_true_r]. }
  pose proof (mv_rank _ _ _ _ _ Hm) as Hle.
  assert (is_wait (state info) = false) as Hw by (destruct Hs; by destruct (state info)).
  eapply wp_mono; [by apply poll_cases|]. intros x _ (T1 & T2 & T3 & T4 & Hx).
  destruct Hx as [[E Ht]|[Hf Hrk]].
  - assert (rank x = rank info) as Er by by apply rank_same. split; [by apply (moved_same T e i _ info)|].
    rewrite E, T2, Er. destruct d; [done| |done..]. destruct (is_segment (state info)); [|done]. specialize (Ht eq_refl). lia.
  - assert (rank x < rho) as Hx by (destruct (is_segment (state info)); [lia|specialize (Hlt eq_refl); lia]).
    split; [apply moved_ready; [unfold ftsResponseReady; by rewrite Hf, orb_true_r|done]|].
    destruct d; [lia..|destruct Hd; congruence|done].
Qed.

Lemma after_poll_ready T e i d rho info info' :
  after_poll T e i d rho info → is_segment (state info) = true → ftsResponseReady info' = true →
  rank info' <= rank info - 1 → after_poll T e i d rho info'.
Proof.
  intros [Hm Hd] Hs Hr' Hle. pose proof (mv_rank _ _ _ _ _ Hm). split; [apply moved_ready; [done|lia]|].
  destruct d; [lia..| |done]. destruct Hd as [Hw _]. by destruct (state info).
Qed.

Lemma fail_rank_le T e i w info d rho :
  is_segment (state info) = true → after_poll T e i d rho info →
  wp (fail_state info) (λ info' _, after_poll T e i d rho info') w.
Proof.
  intros Hs Ha. apply fail_rank; [by left|]. intros s Hf Hrk. rewrite Hs in Hrk.
  apply (after_poll_ready _ _ _ _ _ info); [done..| |done]. unfold ftsResponseReady. cbn. by rewrite Hf, orb_true_r.
Qed.

Lemma send_rank T e i se d rho w info :
  after_poll T e i d rho info → wp (send_segment se info) (λ info' _, after_poll T e i d rho info') w.
Proof.
  intros Ha. unfold send_segment. rewrite seg_match. destruct (is_segment (state info)) eqn:Es; [|by apply wp_ret].
  destruct (conn info) as [[peer [] [] err]|] eqn:Ec; try by apply wp_ret. destruct (has _ _); [|by apply wp_ret].
  destruct (se_sent se); [|by apply fail_rank_le]. apply wp_bind, wp_modify, wp_ret. destruct Ha as [Hm Hd].
  set (info' := set_events _ _ _).
  assert (connected info' = connected info) as E by (unfold connected, info'; cbn; by rewrite Ec).
  split; [by apply (moved_same T e i _ info)|]. by rewrite (rank_same info info').
Qed.

Lemma receive_rank T e i se d rho w info :
  after_poll T e i d rho info →
  wp (receive_segment se info) (λ info' _, after_poll T e i d rho info') w.
Proof.
  intros Ha. unfold receive_segment. rewrite seg_match. destruct (is_segment (state info)) eqn:Es; [|by apply wp_ret].
  destruct (_ && _); [|by apply wp_ret].
  destruct (se_reply se _); try by apply fail_rank_le. destruct (_ || _); [by apply fail_rank_le|].
  apply wp_bind, wp_modify, wp_bind.
  change (state (probeRecordResponse values info)) with (state info).
  destruct (state info) eqn:Est; try done; (apply wp_ret, wp_ret; apply (after_poll_ready _ _ _ _ _ info); [done|by rewrite Est|done|]);
    unfold rank, connected; cbn; rewrite Est; cbn; destruct (conn info); lia.
Qed.

Lemma wp_assert_any b (Q : unit → World → Prop) w :
  (∀ w', config w' = config w → Q tt w') → wp (Assert b) Q w.
Proof. intros H. by apply wp_modify, H. Qed.

Lemma wp_finish_any c (Q : unit → World → Prop) w : (∀ w', Q tt w') → wp (PQfinish c) Q w.
Proof. intros H. destruct c; simpl; [by apply wp_modify|by apply wp_ret]. Qed.

Lemma retry_rank T e i d rho w info :
  stage_inv Received w info → after_poll T e i d rho info →
  wp (retry_segment r (e_now_retry e) info) (λ info' _, after_retry T e i d rho info') w.
Proof.
  intros Hi [Hm Hd]. pose proof (si_retries _ _ _ Hi) as Hrc. pose proof (mv_rank _ _ _ _ _ Hm) as Hrk.
  unfold retry_segment.
  assert (is_wait (state info) = false → after_retry T e i d rho info) as Hkeep.
  { intros Hw. split; [done|]. intros Hne. destruct d; [done..| |done]. destruct Hd as [Hw' _]. congruence. }
  assert (IsFtsMessageStateFailed (state info) = true ∨ state info = FTS_PROBE_SUCCESS →
    wp (retryForFtsFailed r (e_now_retry e) info) (λ info' _, after_retry T e i d rho info') w) as Hretry.
  { intros Hs. assert (is_wait (state info) = false) as Hw by (destruct Hs as [Hs| ->]; [by destruct (state info)|done]).
    assert (rank info < rho) as Hlt.
    { apply (mv_ready _ _ _ _ _ Hm). unfold ftsResponseReady. destruct Hs as [-> | ->]; [by rewrite orb_true_r|done]. }
    unfold retryForFtsFailed. destruct (Z.eqb_spec (retry_count info) r); [by apply wp_ret, Hkeep|].
    apply wp_bind, wp_finish_any. intros w'. apply wp_ret.
    set (info' := set_result _ _). assert (rank info' = rank info ∧ is_wait (state info') = true) as [E Ew].
    { unfold rank, info'. cbn. destruct Hs as [Hs| ->]; [destruct (state info); try done|]; cbn; (split; [lia|done]). }
    split; [|lia]. split; [lia| |lia]. split; [by destruct (state info')|]. intros _. right. split; [by right|lia]. }
  destruct (state info) eqn:Est; try (by apply wp_ret, Hkeep); try (by apply Hretry; left).
  4: { destruct (negb _); [by apply wp_ret, Hkeep|by apply Hretry; right]. }
  all: apply stage_inv_base in Hi as [_ Hi]; apply state_inv_class in Hi; rewrite Est in Hi; destruct Hi as [Hc _];
    destruct (Z.ltb_spec (s32 (e_now_retry e - retryStartTime info)) 1) as [Hlt|Hge]; apply wp_ret;
    [split; [done|]; intros Hne; destruct d; [done|done|lia|done]|].
  all: set (info' := set_state _ info); assert (rank info' = rank info - 1 ∧ connected info' = false) as [E Ec]
    by (unfold rank, connected, info'; cbn; rewrite Est, Hc; cbn; lia);
    split; [|lia]; split; [lia| |by unfold ftsResponseReady, info'; cbn]; (split; [by rewrite Ec|done]).
Qed.

Lemma update_wp_any p m pr mr a b c (Q : bool → World → Prop) w :
  is_Some (config w !! dbid p) → is_Some (config w !! dbid m) →
  (∀ u w', Q u w') → wp (updateConfiguration p m pr mr a b c) Q w.
Proof.
  intros Hp Hm HQ. unfold updateConfiguration. apply wp_bind, wp_modify, wp_bind, wp_modify.
  case_match; [|by apply wp_ret]. set (ups := _ ++ _).
  set (w1 := MkWorld _ _ _ _ _ _). destruct (for_updates_spec ups w1) as [h Eh].
  { intros u Hu. cbn. assert (up_dbid u = dbid p ∨ up_dbid u = dbid m) as [-> | ->]; [|done|done].
    unfold ups in Hu. repeat case_match; set_solver. }
  apply wp_bind. unfold wp at 1. rewrite Eh. apply wp_bind, wp_modify. cbn. apply HQ.
Qed.

Lemma process_rank T e i d rho upd w info :
  world_inv w → stage_inv Retried w info → after_retry T e i d rho info →
  wp (process_segment r info upd) (λ x _, after_retry T e i d rho x.1) w.
Proof.
  intros Hw Hi [Hm Hd]. pose proof (mv_rank _ _ _ _ _ Hm) as Hrk. unfold process_segment.
  destruct (ftsResponseReady info) eqn:Erd; cbn [negb]; [|by apply wp_ret].
  pose proof (mv_ready _ _ _ _ _ Hm Erd) as Hlt.
  pose proof (si_retries _ _ _ Hi) as Hrc. destruct (si_pair _ _ _ Hi) as [P1 P2 _ _].
  assert (∀ s w', in_catalog s → config w' = config w → is_Some (config w' !! dbid s)) as Hcfg.
  { intros s w' Hs ->. rewrite (wi_config _ Hw). apply replay_dom. by eexists. }
  do 3 (apply wp_bind, wp_assert_any; intros ? ?). apply wp_bind.
  apply (wp_mono _ (λ x _, rank_of (state x.1) 0 false <= rank info ∧ is_wait (state x.1) = false ∧ ftsResponseReady x.1 = false)).
  2: { intros [info1 upd1] wx (Hle & Hnw & Hnr). cbn [fst] in *. apply wp_bind, wp_finish_any. intros w2. apply wp_ret. cbn [fst].
       set (info2 := set_retry _ _ _). assert (rank info2 <= rank info) as Hle2 by done.
       split; [|intros Hne; specialize (Hd Hne); lia].
       split; [lia| |intros E; by rewrite (E : ftsResponseReady info1 = true) in Hnr].
       split; [done|]. intros E. by rewrite (E : is_wait (state info1) = true) in Hnw. }
  assert (0 <= rank info) as Hpos. { unfold rank. destruct (state info), (connected info); cbn; lia. }
  unfold ftsResponseReady in Erd. destruct (state info) eqn:Est; try done; try (apply wp_ret; split; [exact Hpos|done]).
  - assert (3 * r + 2 <= rank info) as Hbig. { unfold rank. rewrite Est. cbn. lia. }
    unfold process_probe_success. apply wp_bind, wp_assert_any; intros ? ?.
    destruct (_ && _); [destruct (negb (retryRequested _))|destruct (isRoleMirror _)].
    + apply wp_bind, update_wp_any; [apply Hcfg; [done|congruence]..|]. intros u ?. apply wp_bind, wp_assert_any; intros ? ?. apply wp_ret. cbn. split; [lia|done].
    + apply wp_ret. cbn. split; [lia|done].
    + do 5 (apply wp_bind, wp_assert_any; intros ? ?). apply wp_ret. cbn. split; [lia|done].
    + apply wp_bind, update_wp_any; [apply Hcfg; [done|congruence]..|]. intros u ?. apply wp_ret. cbn. split; [lia|done].
  - assert (3 * r + 2 <= rank info) as Hbig. { unfold rank. rewrite Est. cbn. lia. }
    unfold process_probe_failed. destruct (recovery_making_progress info).
    { apply wp_bind, wp_assert_any; intros ? ?. apply wp_ret. cbn. split; [lia|done]. }
    apply wp_bind, wp_assert_any; intros ? ?. destruct (SEGMENT_IS_IN_SYNC _); [|apply wp_ret; cbn; split; [lia|done]].
    apply wp_bind, wp_assert_any; intros ? ?. apply wp_bind, update_wp_any; [apply Hcfg; [done|congruence]..|]. intros u ?.
    apply wp_bind, wp_assert_any; intros ? ?. apply wp_ret. cbn. split; [lia|done].
Qed.

(** ** An iteration *)

Definition good_env (e : Env) : Prop :=
  ∀ i s, is_segment s = true → good_reply s (se_reply (e_seg e i) (message_of s)).

Definition all (k : stage) (w : World) (l : list fts_segment_info) : Prop :=
  ∀ j info, l !! j = Some info → stage_inv k w info.

(** One of the first five steps of an iteration; [X] and [X'] are what is known of
    each pair besides the invariant. *)
Lemma stage_wp k k' (X X' : nat → fts_segment_info → Prop) f l w :
  (∀ j w info, world_inv w → stage_inv k w info →
     wp (f j info) (λ info' w', world_inv w' ∧ later w w' ∧ stage_inv k' w' info') w) →
  (∀ j w info, stage_inv k w info → X j info → wp (f j info) (λ info' _, X' j info') w) →
  world_inv w → all k w l → (∀ j info, l !! j = Some info → X j info) →
  wp (for_segs f 0 l) (λ l' w', world_inv w' ∧ later w w' ∧ length l' = length l ∧ all k' w' l' ∧
    ∀ j info, l' !! j = Some info → X' j info) w.
Proof.
  intros Hf HX Hw Hl Hl0. eapply wp_mono.
  { apply (for_segs_wp (λ j w info, stage_inv k w info ∧ X j info) (λ j w info, stage_inv k' w info ∧ X' j info)).
    - intros j w' info Hw' [Hi Hx]. eapply wp_mono; [apply wp_conj; [by apply Hf|by apply HX]|].
      intros info' w2 [(A & B & C) D']. by split_and!.
    - intros j w1 w2 info L [Hi Hx]. split; [by apply (stage_inv_later _ w1)|done].
    - intros j w1 w2 info L [Hi Hx]. split; [by apply (stage_inv_later _ w1)|done].
    - done.
    - intros j info Hj. split; [by apply (Hl j)|by apply Hl0]. }
  intros l' w' (A & B & C & D'). split_and!; [done..| |]; intros j info Hj; by apply (D' j).
Qed.

Lemma poll_wp T e (D R : nat → _) l w :
  world_inv w → all Connected w l → (∀ j info, l !! j = Some info → after_connect (T j) e j (D j) (R j) info) →
  wp (ftsPoll timeout e l) (λ l' w', world_inv w' ∧ later w w' ∧ length l' = length l ∧ all Polled w' l' ∧
    ∀ j info, l' !! j = Some info → after_poll (T j) e j (D j) (R j) info) w.
Proof.
  intros Hw Hl Hx. unfold ftsPoll. pose proof (poll_fds_spec 0 l) as Hfds. destruct (poll_fds 0 l) as [fds l'].
  destruct Hfds as (El & Hmem & Hnil).
  assert (all Connected w l') as Hl'.
  { intros j info' Hj. destruct (Hmem j info' Hj) as (info & k & Hj' & ->). by apply stage_inv_fd, (Hl j). }
  assert (∀ j info, l' !! j = Some info → after_connect (T j) e j (D j) (R j) info) as Hx'.
  { intros j info' Hj. destruct (Hmem j info' Hj) as (info & k & Hj' & ->). destruct (Hx j info Hj') as [Hm Hd].
    split; [by apply (moved_same (T j) e j _ info)|exact Hd]. }
  destruct fds as [|ev fds].
  - apply wp_ret. split; [done|]. split; [reflexivity|]. split; [done|]. split; intros j info' Hj.
    + apply unpolled; [by apply (Hnil eq_refl j)|by apply (Hl' j)].
    + pose proof (poll_rank (T j) e j [] (D j) (R j) w info' (Hl' j info' Hj) (Hx' j info' Hj)) as Hp.
      unfold poll_segment in Hp. by rewrite (Hnil eq_refl j info' Hj) in Hp.
  - destruct (e_poll e _) as [[nready eintr] revents]. destruct (_ && _).
    { apply wp_raise. unfold env_error. set_solver. }
    rewrite <- El. apply (stage_wp Connected Polled (λ j, after_connect (T j) e j (D j) (R j))); [..|done|done|done].
    + intros j w' info. apply poll_step.
    + intros j w' info. apply poll_rank.
Qed.

Lemma signal_wp b (Q : unit → World → Prop) w :
  world_inv w → (∀ w', world_inv w' → later w w' → trace w' = trace w → Q tt w') → wp (signal b) Q w.
Proof.
  intros [H1 H2 H3] HQ. apply wp_modify, HQ; [by split|split; [by exists []|]|done].
  cbn. by intros ->.
Qed.

Lemma active_wp (Q : bool → World → Prop) w : Q (negb (shutdown_requested w)) w → wp FtsIsActive Q w.
Proof. done. Qed.

(** After the responses: ready for the next iteration, unless the prober was told to
    shut down. *)
Definition after (w : World) (l : list fts_segment_info) : Prop :=
  (∀ j info, l !! j = Some info → stage_inv Head w info ∨ stage_inv Retried w info) ∧
  (shutdown_requested w = false → all Head w l).

Lemma process_loop_wp T e (D R : nat → _) l i upd w :
  world_inv w → all Retried w l → (∀ j info, l !! j = Some info → after_retry (T (i + j)%nat) e (i + j) (D (i + j)%nat) (R (i + j)%nat) info) →
  wp (process_loop r e i l upd) (λ x w', world_inv w' ∧ later w w' ∧ length x.1 = length l ∧ after w' x.1 ∧
    (shutdown_requested w' = false → ∀ j info, x.1 !! j = Some info → after_retry (T (i + j)%nat) e (i + j) (D (i + j)%nat) (R (i + j)%nat) info)) w.
Proof.
  revert i upd w. induction l as [|a l IH]; intros i upd w Hw Hl Hx; cbn [process_loop].
  { apply wp_ret. split; [done|]. split; [reflexivity|]. split; [done|].
    split; [by split; [|intros _]; intros j info [=]|]. intros _ j info [=]. }
  apply wp_bind, signal_wp; [done|]. intros w1 Hw1 L1 _. apply wp_bind, active_wp.
  assert (all Retried w1 (a :: l)) as Hl1 by (intros j info Hj; by apply (stage_inv_later _ w), (Hl j)).
  destruct (shutdown_requested w1) eqn:Esh; cbn [negb].
  { apply wp_ret. split; [done|]. split; [done|]. split; [done|]. rewrite Esh. split; [split; [|by rewrite Esh]|done].
    intros j info Hj. right. by apply (Hl1 j). }
  apply wp_bind. eapply wp_mono.
  { apply wp_conj; [apply process_step; [done|by apply (Hl1 0%nat)]|].
    apply (process_rank (T (i + 0)%nat) e (i + 0) (D (i + 0)%nat) (R (i + 0)%nat)); [done|by apply (Hl1 0%nat)|by apply (Hx 0%nat)]. }
  intros [a' upd'] w2 [(Hw2 & L2 & Ha) Hxa]. apply wp_bind. eapply wp_mono.
  { apply (IH (S i)); [done|..].
    - intros j info Hj. apply (stage_inv_later _ w1); [done|]. by apply (Hl1 (S j)).
    - intros j info Hj. rewrite Nat.add_succ_comm. by apply (Hx (S j)). }
  intros [l' upd2] w3 (Hw3 & L3 & El & [Haft Hhead] & Hx'). apply wp_ret. cbn in *. split; [done|].
  split; [by do 2 (etransitivity; [done|])|]. split; [by rewrite El|].
  assert (stage_inv Head w3 a') as Ha3 by by apply (stage_inv_later _ w2).
  split; [split|].
  - intros [|j] info Hj; cbn in Hj; [left; by injection Hj as <-|by apply (Haft j)].
  - intros E [|j] info Hj; cbn in Hj; [by injection Hj as <-|by apply (Hhead E j)].
  - intros E [|j] info Hj; cbn in Hj; [by injection Hj as <-|]. rewrite <- Nat.add_succ_comm. by apply (Hx' E).
Qed.

Lemma iteration_wp T e l w :
  world_inv w → all Head w l → (strict → good_env e) → (∀ j info, l !! j = Some info → stamped (T j) info) →
  wp (fts_iteration r timeout e l) (λ x w', world_inv w' ∧ later w w' ∧ length x.1 = length l ∧ after w' x.1 ∧
    (shutdown_requested w' = false → ∀ j info info', l !! j = Some info → x.1 !! j = Some info' →
       after_retry (T j) e j (due e info) (rank info) info')) w.
Proof.
  intros Hw Hl Hg HT. unfold fts_iteration. set (D j := default NotDue (due e <$> l !! j)).
  set (R j := default 0 (rank <$> l !! j)). apply wp_bind. unfold ftsConnect.
  eapply wp_mono; [apply (stage_wp Head Connected (λ j info, l !! j = Some info) (λ j, after_connect (T j) e j (D j) (R j)))|].
  { intros j w' info. apply connect_step. }
  { intros j w' info Hi Hj. unfold D, R. rewrite Hj. apply (connect_rank (T j) e j w'); [done|by apply (HT j)]. }
  1-3: done.
  intros l1 w1 (Hw1 & L1 & E1 & Hl1 & X1). apply wp_bind. eapply wp_mono; [by apply (poll_wp T e D R)|].
  intros l2 w2 (Hw2 & L2 & E2 & Hl2 & X2). apply wp_bind. unfold ftsSend.
  eapply wp_mono; [apply (stage_wp Polled Sent (λ j, after_poll (T j) e j (D j) (R j)) (λ j, after_poll (T j) e j (D j) (R j)))|].
  { intros j w' info. apply send_step. }
  { intros j w' info _. apply send_rank. }
  1-3: done.
  intros l3 w3 (Hw3 & L3 & E3 & Hl3 & X3). apply wp_bind. unfold ftsReceive.
  eapply wp_mono; [apply (stage_wp Sent Received (λ j, after_poll (T j) e j (D j) (R j)) (λ j, after_poll (T j) e j (D j) (R j)))|].
  { intros j w' info Hw' Hi. destruct (is_segment (state info)) eqn:Es.
    - apply receive_step; [done|done|]. intros Hs. by apply Hg.
    - unfold receive_segment. rewrite seg_match, Es. apply wp_ret. split; [done|]. split; [reflexivity|].
      by apply (stage_inv_next Sent). }
  { intros j w' info _. apply receive_rank. }
  1-3: done.
  intros l4 w4 (Hw4 & L4 & E4 & Hl4 & X4). apply wp_bind. unfold processRetry.
  eapply wp_mono; [apply (stage_wp Received Retried (λ j, after_poll (T j) e j (D j) (R j)) (λ j, after_retry (T j) e j (D j) (R j)))|].
  { intros j w' info. apply retry_step. }
  { intros j w' info. apply retry_rank. }
  1-3: done.
  intros l5 w5 (Hw5 & L5 & E5 & Hl5 & X5). unfold processResponse. eapply wp_mono; [by apply (process_loop_wp T e D R)|].
  intros x w6 (Hw6 & L6 & E6 & Haft & X6). split; [done|].
  split; [by do 5 (etransitivity; [done|])|]. split; [congruence|]. split; [done|].
  intros Esh j info info' Hj Hj'. specialize (X6 Esh j info' Hj'). unfold D, R in X6. simpl in X6. by rewrite Hj in X6.
Qed.

(** ** The cycle *)

Lemma head_processed w info : stage_inv Head w info → state info = FTS_RESPONSE_PROCESSED → conn info = None.
Proof.
  intros [_ Hs]%stage_inv_base E. apply state_inv_class in Hs. rewrite E in Hs. by destruct Hs.
Qed.

Lemma all_done_processed l : allDone l = true → ∀ j info, l !! j = Some info → state info = FTS_RESPONSE_PROCESSED.
Proof.
  unfold allDone. rewrite forallb_forall. intros H j info Hj.
  specialize (H info). rewrite <- list_elem_of_In in H. apply list_elem_of_lookup_2 in Hj.
  by apply H, bool_decide_eq_true in Hj.
Qed.

Lemma message_loop_wp envs l upd w :
  world_inv w → after w l → (strict → Forall good_env envs) →
  wp (message_loop r timeout envs l upd) (λ x w', world_inv w' ∧ later w w' ∧
    match x with
    | Some (l', _) => length l' = length l ∧ after w' l' ∧ (shutdown_requested w' = true ∨ allDone l' = true)
    | None => True
    end) w.
Proof.
  revert l upd w. induction envs as [|e envs IH]; intros l upd w Hw Hl Hg; cbn [message_loop].
  { destruct (allDone l) eqn:Ed; [|apply wp_bind, active_wp]; apply wp_ret; (split; [done|]); (split; [reflexivity|]).
    - by split_and!; [|..|right].
    - destruct (shutdown_requested w); [|done]. by split_and!; [|..|left]. }
  destruct (allDone l) eqn:Ed.
  { apply wp_ret. split; [done|]. split; [reflexivity|]. by split_and!; [|..|right]. }
  apply wp_bind, signal_wp; [done|]. intros w1 Hw1 L1 _. apply wp_bind, active_wp.
  assert (after w1 l) as Hl1.
  { destruct Hl as [H1 H2]. split.
    - intros j info Hj. destruct (H1 j info Hj); [left|right]; by apply (stage_inv_later _ w).
    - intros E j info Hj. apply (stage_inv_later _ w); [done|]. apply (H2 ltac:(destruct L1 as [_ Hs]; destruct (shutdown_requested w); [by rewrite Hs in E|done]) j info Hj). }
  destruct (shutdown_requested w1) eqn:Esh; cbn [negb].
  { apply wp_ret. split; [done|]. split; [done|]. split; [done|]. split; [done|by left]. }
  apply wp_bind. eapply wp_mono.
  { apply (iteration_wp (λ _ _, True)); [done|by apply Hl1| |by intros]. intros Hs. by apply Forall_inv in Hg. }
  intros [l2 u] w2 (Hw2 & L2 & E2 & Haft & _). cbn [fst] in *. eapply wp_mono.
  { apply IH; [done|done|]. intros Hs. by apply Forall_inv_tail in Hg. }
  intros [[l3 u3]|] w3 (Hw3 & L3 & H3); (split; [done|]); (split; [by do 2 (etransitivity; [done|])|]); [|done].
  destruct H3 as (E3 & A3 & D3). split; [congruence|done].
Qed.

End Spec.

End FtsSpec.
