(* ===== verification/FtsSegment.v ===== *)
(** The segment's side of the fault tolerance service.

    ftsmessagehandler.c answers PROBE, SYNCREP_OFF and PROMOTE with one row of
    five flags; gp_replication.c finds out how the mirror is doing.  [Segment] is
    the state they read and change; what system calls answer are arguments.  The
    row goes over the wire as the messages of [SendFtsResponse] and is read back
    by libpq (LibPQ.v) into the memory the prober of Fts.v looks at.  The Asserts about the wal senders are left out. *)

From Stdlib Require Import ZArith Lia Ascii.
From stdpp Require Import base list option numbers strings.
From S2P Require Import Prelude Fts LibPQ.
Import Fts LibPQ.

Module FtsSegment.

(** ** The segment *)

Inductive WalSndState := WALSNDSTATE_STARTUP | WALSNDSTATE_BACKUP | WALSNDSTATE_CATCHUP | WALSNDSTATE_STREAMING.
Record WalSnd := MkWalSnd { pid : Z; walsnd_state : WalSndState; replica_disconnected_at : Z }.

Inductive DBState :=
  | DB_STARTUP | DB_SHUTDOWNED | DB_SHUTDOWNED_IN_RECOVERY | DB_SHUTDOWNING | DB_IN_CRASH_RECOVERY
  | DB_IN_ARCHIVE_RECOVERY | DB_IN_STANDBY_MODE | DB_IN_STANDBY_PROMOTED | DB_IN_PRODUCTION.

(** The standby names are a line of gp_replication.conf; the postmaster reads the
    file again some time after it is signalled. *)
Record Segment := MkSegment {
  am_mirror : bool;
  walsnds : list WalSnd;
  sync_standbys_defined : bool;
  synchronous_standby_names : string;
  reload_signalled : bool;
  promote_file : bool;
  postmaster_signalled : bool;
  db_state : DBState;
  PMAcceptingConnectionsStartTime : Z }.

Definition set_standby_names (v : string) (s : Segment) : Segment :=
  MkSegment (am_mirror s) (walsnds s) (sync_standbys_defined s) v true (promote_file s)
    (postmaster_signalled s) (db_state s) (PMAcceptingConnectionsStartTime s).
Definition set_promote_file (b signalled : bool) (s : Segment) : Segment :=
  MkSegment (am_mirror s) (walsnds s) (sync_standbys_defined s) (synchronous_standby_names s) (reload_signalled s) b
    signalled (db_state s) (PMAcceptingConnectionsStartTime s).

Record FtsResponse := MkResponse {
  IsMirrorUp : bool; IsInSync : bool; IsSyncRepEnabled : bool; IsRoleMirror : bool; RequestRetry : bool }.
Definition no_response : FtsResponse := MkResponse false false false false false.

(** ** gp_replication.c *)

Definition s64 (z : Z) : Z := (z + 2 ^ 63) mod 2 ^ 64 - 2 ^ 63.

(** The loop body of [GetMirrorStatus]. *)
Definition mirror_status (grace now start : Z) (w : WalSnd) (r : FtsResponse) : FtsResponse :=
  let r :=
    if negb (pid w =? 0) then
      match walsnd_state w with
      | WALSNDSTATE_CATCHUP => MkResponse true false (IsSyncRepEnabled r) (IsRoleMirror r) (RequestRetry r)
      | WALSNDSTATE_STREAMING => MkResponse true true (IsSyncRepEnabled r) (IsRoleMirror r) (RequestRetry r)
      | _ => r
      end
    else r in
  if negb (IsMirrorUp r) then
    let delta := s64 (now - Z.max (replica_disconnected_at w) start) in
    if (delta <? grace) && (0 <=? delta)
    then MkResponse (IsMirrorUp r) (IsInSync r) (IsSyncRepEnabled r) (IsRoleMirror r) true
    else r
  else r.

Definition GetMirrorStatus (grace now : Z) (s : Segment) (r : FtsResponse) : FtsResponse :=
  let r := MkResponse false false (IsSyncRepEnabled r) (IsRoleMirror r) false in
  let r := foldl (λ r w, mirror_status grace now (PMAcceptingConnectionsStartTime s) w r) r (walsnds s) in
  MkResponse (IsMirrorUp r) (IsInSync r) (sync_standbys_defined s) (IsRoleMirror r) (RequestRetry r).

Definition SetSyncStandbysDefined (s : Segment) : Segment :=
  if negb (sync_standbys_defined s) then set_standby_names "*" s else s.
Definition UnsetSyncStandbysDefined (s : Segment) : Segment :=
  if sync_standbys_defined s then set_standby_names EmptyString s else s.

(** ** ftsmessagehandler.c *)

Inductive OpenResult := OpenFd (fd : Z) | OpenENOENT | OpenFails.

(** What the system calls on the probe file answer. *)
Record ProbeFile := MkProbeFile {
  pf_open : OpenResult; pf_create : OpenResult; pf_created_write : Z; pf_read : Z; pf_magic_ok : bool;
  pf_seek : Z; pf_write : Z }.

(** The descriptor, and whether there was a failure. *)
Definition probe_file (blcksz : Z) (f : ProbeFile) : Z * bool :=
  match pf_open f with
  | OpenENOENT =>
      match pf_create f with
      | OpenFd fd => (fd, negb (pf_created_write f =? blcksz))
      | _ => (-1, true)
      end
  | OpenFails => (-1, true)
  | OpenFd fd =>
      (fd, if negb (pf_read f =? blcksz) then true
           else if negb (pf_magic_ok f) then true
           else if pf_seek f <? 0 then true
           else negb (pf_write f =? blcksz))
  end.

(** Whether the file is removed, and the ERROR. *)
Definition checkIODataDirectory (blcksz : Z) (f : ProbeFile) : bool * result unit :=
  let '(fd, failure) := probe_file blcksz f in
  ((0 <? fd) && failure, if failure then Err "disk IO check during FTS probe failed." else Ok tt).

(** [CheckPromoteSignal(true)]. *)
Definition unlink_promote_signal (s : Segment) : Segment :=
  if promote_file s then set_promote_file false (postmaster_signalled s) s else s.
(** Nothing happens when the file cannot be opened. *)
Definition SignalPromote (fopen : bool) (s : Segment) : Segment := if fopen then set_promote_file true true s else s.

Section Handlers.
Context (blcksz grace now : Z) (f : ProbeFile) (fopen : bool).

Definition HandleFtsWalRepProbe (s : Segment) : result (FtsResponse * Segment) :=
  let '(response, s) :=
    if am_mirror s then (MkResponse false false false true false, s)
    else
      let r := GetMirrorStatus grace now s no_response in
      let '(r, s) :=
        if IsMirrorUp r && negb (IsSyncRepEnabled r)
        then (MkResponse (IsMirrorUp r) (IsInSync r) true (IsRoleMirror r) (RequestRetry r), SetSyncStandbysDefined s)
        else (r, s) in
      (r, unlink_promote_signal s) in
  _ ← (checkIODataDirectory blcksz f).2;
  Ok (response, s).

Definition HandleFtsWalRepSyncRepOff (s : Segment) : result (FtsResponse * Segment) :=
  let s := UnsetSyncStandbysDefined s in
  Ok (GetMirrorStatus grace now s no_response, s).

Definition HandleFtsWalRepPromote (s : Segment) : result (FtsResponse * Segment) :=
  let response := MkResponse false false false (am_mirror s) false in
  let s := match db_state s with DB_IN_STANDBY_MODE => SignalPromote fopen s | _ => s end in
  Ok (response, s).

Definition HandleFtsMessage (query_string : string) (s : Segment) : result (FtsResponse * Segment) :=
  if String.prefix FTS_MSG_PROBE query_string then HandleFtsWalRepProbe s
  else if String.prefix FTS_MSG_SYNCREP_OFF query_string then HandleFtsWalRepSyncRepOff s
  else if String.prefix FTS_MSG_PROMOTE query_string then HandleFtsWalRepPromote s
  else Err "received unknown FTS query".

End Handlers.

(** ** The wire *)

Definition bool_int (b : bool) : Z := if b then 1 else 0.

Definition BOOLOID : Z := 16.

Definition column_desc (name : string) (attnum : nat) : list Z :=
  pq_sendstring name ++ pq_sendint 0 4 ++ pq_sendint (Z.of_nat attnum) 2 ++ pq_sendint BOOLOID 4 ++
  pq_sendint 1 2 ++ pq_sendint (-1) 4 ++ pq_sendint 0 2.

(** The bodies of the RowDescription and DataRow messages. *)
Definition row_description : list Z :=
  pq_sendint Natts_fts_message_response 2 ++
  column_desc "is_mirror_up" Anum_fts_message_response_is_mirror_up ++
  column_desc "is_in_sync" Anum_fts_message_response_is_in_sync ++
  column_desc "is_syncrep_enabled" Anum_fts_message_response_is_syncrep_enabled ++
  column_desc "is_role_mirror" Anum_fts_message_response_is_role_mirror ++
  column_desc "request_retry" Anum_fts_message_response_request_retry.

Definition column (b : bool) : list Z := pq_sendint 1 4 ++ pq_sendint (bool_int b) 1.
Definition data_row (r : FtsResponse) : list Z :=
  pq_sendint Natts_fts_message_response 2 ++
  column (IsMirrorUp r) ++ column (IsInSync r) ++ column (IsSyncRepEnabled r) ++ column (IsRoleMirror r) ++
  column (RequestRetry r).

Definition SendFtsResponse (r : FtsResponse) (messagetype : string) : list Z :=
  pq_putmessage "T" row_description ++ pq_putmessage "D" (data_row r) ++ EndCommand messagetype.

(** The memory at the value of a field of the first tuple, [PQgetvalue]: the value with its
    zero and whatever follows. *)
Definition value_memory (junk : nat → list Z) (res : PGresult) (i : nat) : list Z :=
  match tuples res !! 0%nat ≫= (.!! i) with
  | Some (_, value) => value ++ junk i
  | None => junk i
  end.

(** What [ftsReceive] finds when the bytes [arrived] after a query was sent. *)
Definition reply_of (junk : nat → list Z) (arrived : list Z) : option Reply :=
  '(busy, c) ← PQisBusy (MkPQ arrived PGASYNC_BUSY None false);
  if busy : bool then Some StillBusy
  else
    '(res, c) ← PQgetResult c;
    match res with
    | None => Some NoResult
    | Some res =>
        if conn_bad c then Some NoResult
        else match resultStatus res with
             | PGRES_TUPLES_OK => Some (TuplesResult (PQntuples res) (PQnfields res) (value_memory junk res))
             | _ => Some ErrorResult
             end
    end.

End FtsSegment.
