(* ===== verification/FtsWire.v ===== *)
(** The way of a response through libpq.

    [SendFtsResponse] and [ReadyForQuery] put bytes on the wire; here is what the prober
    makes of the first [n] of them, for every [n]. *)

From Stdlib Require Import ZArith Lia Ascii.
From stdpp Require Import base list option numbers strings.
From S2P Require Import Prelude Fts LibPQ FtsSegment.
Import Fts LibPQ FtsSegment.

Module FtsWire.

(** ** The messages as encodings *)

Definition flag_column (name : string) (attnum : nat) : PGresAttDesc :=
  MkAttDesc (bytes_of name) 0 (Z.of_nat attnum) BOOLOID 1 (-1) 0.
Definition response_columns : list PGresAttDesc :=
  [flag_column "is_mirror_up" 0; flag_column "is_in_sync" 1; flag_column "is_syncrep_enabled" 2;
   flag_column "is_role_mirror" 3; flag_column "request_retry" 4].
Definition response_flags (r : FtsResponse) : list (list Z) :=
  (λ b, [bool_int b]) <$> [IsMirrorUp r; IsInSync r; IsSyncRepEnabled r; IsRoleMirror r; RequestRetry r].

Lemma row_description_encodes :
  row_description = pq_sendint (Z.of_nat (length response_columns)) 2 ++ concat (put_column <$> response_columns).
Proof. reflexivity. Qed.
Lemma data_row_encodes r :
  data_row r = pq_sendint (Z.of_nat (length (response_flags r))) 2 ++ concat (put_field <$> response_flags r).
Proof. by destruct r as [[] [] [] [] []]. Qed.

Lemma flag_column_ok name attnum :
  Forall (λ b, b ≠ 0) (bytes_of name) → Z.of_nat attnum < 2 ^ 15 → column_ok (flag_column name attnum).
Proof. intros Hn Ha. split; [done|..]; unfold is_s32, is_s16, flag_column, BOOLOID; cbn [tableid columnid typid typlen atttypmod format]; lia. Qed.

Lemma response_columns_ok : Forall column_ok response_columns.
Proof.
  unfold response_columns. repeat (apply Forall_cons_2; [apply flag_column_ok; [by repeat constructor|lia]|]). constructor.
Qed.

Lemma response_flags_ok r : Forall (λ v, 0 < Z.of_nat (length v) < 2 ^ 31) (response_flags r).
Proof. repeat constructor; cbn; lia. Qed.

(** ** The result *)

Definition described : PGresult := MkPGresult PGRES_TUPLES_OK 5 response_columns [] [].
Definition with_row (r : FtsResponse) : PGresult :=
  MkPGresult PGRES_TUPLES_OK 5 response_columns [(λ v, (Z.of_nat (length v), v ++ [0])) <$> response_flags r] [].
Definition completed_result (r : FtsResponse) (tag : string) : PGresult :=
  MkPGresult PGRES_TUPLES_OK 5 response_columns [(λ v, (Z.of_nat (length v), v ++ [0])) <$> response_flags r]
    (take (CMDSTATUS_LEN - 1) (bytes_of tag)).

Lemma description_step rest c :
  asyncStatus c = PGASYNC_BUSY → pq_result c = None →
  message "T" (Z.of_nat (length row_description)) (row_description ++ rest) c =
    Continue (MkPQ rest PGASYNC_BUSY (Some described) (conn_bad c)).
Proof.
  intros Ea Er. unfold message. rewrite Ea. unfold busy_message. rewrite Er. unfold getRowDescriptions.
  rewrite row_description_encodes, read_row_description_put by (apply response_columns_ok || done).
  unfold set_inBuffer, set_result. cbn [asyncStatus pq_result conn_bad]. by rewrite Ea.
Qed.

Lemma row_step r rest c :
  asyncStatus c = PGASYNC_BUSY → pq_result c = Some described →
  message "D" (Z.of_nat (length (data_row r))) (data_row r ++ rest) c =
    Continue (MkPQ rest PGASYNC_BUSY (Some (with_row r)) (conn_bad c)).
Proof.
  intros Ea Er. unfold message. rewrite Ea. unfold busy_message. rewrite Er. cbn [described resultStatus].
  unfold getAnotherTuple. change (numAttributes _) with (Z.of_nat (length (response_flags r))).
  rewrite data_row_encodes, read_row_put by (apply response_flags_ok || done).
  unfold set_inBuffer, set_result. cbn [asyncStatus pq_result conn_bad]. by rewrite Ea.
Qed.

Lemma complete_step r tag rest c :
  Forall (λ b, b ≠ 0) (bytes_of tag) → asyncStatus c = PGASYNC_BUSY → pq_result c = Some (with_row r) →
  message "C" (Z.of_nat (length (pq_sendstring tag))) (pq_sendstring tag ++ rest) c =
    Consumed rest (MkPQ (inBuffer c) PGASYNC_READY (Some (completed_result r tag)) (conn_bad c)).
Proof.
  intros Ht Ea Er. unfold message. rewrite Ea. unfold busy_message. unfold pq_sendstring. rewrite <- app_assoc.
  cbn [app]. rewrite gets_string by done. unfold result_or. by rewrite Er.
Qed.

(** Once the result is ready, the rest of the stream does not change it. *)
Lemma ready_rest f vmem status n c :
  asyncStatus c = PGASYNC_READY → inBuffer c = take n (ReadyForQuery vmem status) →
  ∃ vmem' m, parse_loop (S (S f)) c =
    Some (MkPQ (take m (ReadyForQuery vmem' status)) PGASYNC_READY (pq_result c) (conn_bad c)).
Proof.
  assert (∀ f n c, asyncStatus c = PGASYNC_READY → inBuffer c = take n (pq_putmessage "Z" [byte_of status]) →
    parse_loop (S f) c = Some c) as Hz.
  { intros f' m c' Ea Eb. rewrite <- (app_nil_r (pq_putmessage _ _)) in Eb.
    rewrite (parse_take "Z" [byte_of status] ltac:(cbn; lia) f' m []) by done.
    destruct (m <? _)%nat; [done|]. cbv zeta. unfold message. by rewrite Ea. }
  intros Ea Eb. assert (c = MkPQ (take n (ReadyForQuery vmem status)) PGASYNC_READY (pq_result c) (conn_bad c)) as Ec
    by (destruct c; cbn in *; by subst).
  unfold ReadyForQuery in Eb. destruct vmem as [v|]; [|rewrite (Hz _ n) by done; exists None, n; by f_equal].
  rewrite (parse_take "k" (pq_sendint64 v) ltac:(cbn; lia) (S f) n (pq_putmessage "Z" [byte_of status])) by done.
  destruct (n <? _)%nat; [exists (Some v), n; by f_equal|]. cbv zeta. set (rest := take _ (pq_putmessage "Z" _)).
  assert (message "k" (Z.of_nat (length (pq_sendint64 v))) (pq_sendint64 v ++ rest) c = Consumed rest c) as -> by reflexivity.
  unfold finish_message. rewrite absorbed_app. rewrite (Hz f _ (set_inBuffer rest c) Ea eq_refl).
  exists None. eexists. unfold set_inBuffer. by rewrite Ea.
Qed.

(** ** The stream *)

Lemma message_tag s : Forall (λ b, b ≠ 0) (bytes_of (message_of s)) ∧ Z.of_nat (length (pq_sendstring (message_of s))) + 4 <= 30000.
Proof. destruct s; (split; [by repeat constructor|cbn; lia]). Qed.

(** What has been read of the first [n] bytes: all of the response, or not. *)
Lemma parse_response f r s vmem status n :
  ∃ c, parse_loop (S (S (S (S (S f))))) (MkPQ (take n (SendFtsResponse r (message_of s) ++ ReadyForQuery vmem status)) PGASYNC_BUSY None false) = Some c ∧
    if (n <? length (SendFtsResponse r (message_of s)))%nat then asyncStatus c = PGASYNC_BUSY
    else ∃ vmem' m, c = MkPQ (take m (ReadyForQuery vmem' status)) PGASYNC_READY (Some (completed_result r (message_of s))) false.
Proof.
  destruct (message_tag s) as [Htag Hlen].
  assert (length (SendFtsResponse r (message_of s)) =
    length (pq_putmessage "T" row_description) + (length (pq_putmessage "D" (data_row r)) + length (EndCommand (message_of s))))%nat as ->.
  { unfold SendFtsResponse. by rewrite !length_app. }
  unfold SendFtsResponse. rewrite <- !app_assoc.
  rewrite (parse_take "T" row_description ltac:(vm_compute; discriminate) _ n
    (pq_putmessage "D" (data_row r) ++ EndCommand (message_of s) ++ ReadyForQuery vmem status)) by done.
  destruct (Nat.ltb_spec n (length (pq_putmessage "T" row_description))) as [Hn|Hn].
  { eexists. split; [done|]. rewrite (proj2 (Nat.ltb_lt _ _)) by lia. done. }
  cbv zeta. rewrite description_step by done. cbn [conn_bad]. set (n1 := (n - _)%nat).
  rewrite (parse_take "D" (data_row r) ltac:(destruct r as [[] [] [] [] []]; vm_compute; discriminate) _ n1
    (EndCommand (message_of s) ++ ReadyForQuery vmem status)) by done.
  destruct (Nat.ltb_spec n1 (length (pq_putmessage "D" (data_row r)))) as [Hn1|Hn1].
  { eexists. split; [done|]. rewrite (proj2 (Nat.ltb_lt _ _)) by lia. done. }
  cbv zeta. rewrite row_step by done. cbn [conn_bad]. set (n2 := (n1 - _)%nat). unfold EndCommand.
  rewrite (parse_take "C" (pq_sendstring (message_of s)) Hlen _ n2 (ReadyForQuery vmem status)) by done.
  destruct (Nat.ltb_spec n2 (length (pq_putmessage "C" (pq_sendstring (message_of s))))) as [Hn2|Hn2].
  { eexists. split; [done|]. rewrite (proj2 (Nat.ltb_lt _ _)) by lia. done. }
  cbv zeta. rewrite (complete_step r) by done. cbn [conn_bad]. unfold finish_message. rewrite absorbed_app.
  rewrite (proj2 (Nat.ltb_ge _ _)) by lia.
  edestruct (ready_rest f vmem status) as (vmem' & m & ->); [done|done|]. eexists. split; [done|]. by exists vmem', m.
Qed.

Lemma parse_enough f c : (length (inBuffer c) < f)%nat → pqParseInput3 c = parse_loop f c.
Proof. intros Hf. apply parse_loop_fuel; lia. Qed.

(** What the prober gets for the first [n] bytes. *)
Lemma reply_prefix junk r s vmem status n :
  reply_of junk (take n (SendFtsResponse r (message_of s) ++ ReadyForQuery vmem status)) =
    Some (if (n <? length (SendFtsResponse r (message_of s)))%nat then StillBusy
          else TuplesResult 1 5 (value_memory junk (completed_result r (message_of s)))).
Proof.
  unfold reply_of, PQisBusy. set (buf := take n _).
  destruct (parse_response (length buf) r s vmem status n) as (c & Ec & Hc). fold buf in Ec.
  rewrite (parse_enough (S (S (S (S (S (length buf))))))) by (cbn; lia). rewrite Ec. cbn [mbind option_bind].
  destruct (n <? _)%nat; [by rewrite Hc|]. destruct Hc as (vmem' & m & ->). cbn [asyncStatus].
  unfold PQgetResult. set (c := MkPQ _ _ _ _).
  destruct (ready_rest (length (inBuffer c)) vmem' status m c eq_refl eq_refl) as (v2 & m2 & E2).
  rewrite (parse_enough (S (S (length (inBuffer c))))) by lia. by rewrite E2.
Qed.

(** ** What is recorded *)

Lemma read_flag_bit b junk : read_flag (bool_int b :: 0 :: junk) = b.
Proof.
  unfold read_flag, word_at. cbn [lookup list_lookup].
  change (default 0 (Some (bool_int b))) with (bool_int b). change (default 0 (Some 0)) with 0.
  set (x := default 0 _). set (y := default 0 _). unfold u8.
  replace (bool_int b + 256 * 0 + 65536 * x + 16777216 * y) with (bool_int b + (256 * x + 65536 * y) * 256) by lia.
  change (2 ^ 8) with 256. rewrite Z.mod_add, Z.mod_small by (destruct b; simpl; lia). by destruct b.
Qed.

(** The flags of a response as the prober records them. *)
Definition result_of (resp : FtsResponse) : fts_result :=
  MkResult true (IsMirrorUp resp) (IsInSync resp) (IsSyncRepEnabled resp) (IsRoleMirror resp) (RequestRetry resp).

Lemma recorded junk r tag info :
  seg_result (probeRecordResponse (value_memory junk (completed_result r tag)) info) = result_of r.
Proof.
  destruct r as [b1 b2 b3 b4 b5]. unfold probeRecordResponse, result_of. cbn [seg_result Fts.set_result].
  unfold value_memory, completed_result, response_flags. cbn [tuples fmap list_fmap lookup list_lookup mbind option_bind app
    Anum_fts_message_response_is_mirror_up Anum_fts_message_response_is_in_sync
    Anum_fts_message_response_is_syncrep_enabled Anum_fts_message_response_is_role_mirror Anum_fts_message_response_request_retry
    IsMirrorUp IsInSync IsSyncRepEnabled IsRoleMirror RequestRetry].
  by rewrite !read_flag_bit.
Qed.

(** The whole response. *)
Lemma reply_whole junk r s :
  reply_of junk (SendFtsResponse r (message_of s)) = Some (TuplesResult 1 5 (value_memory junk (completed_result r (message_of s)))).
Proof.
  pose proof (reply_prefix junk r s None "I" (length (SendFtsResponse r (message_of s)))) as H.
  rewrite take_app_length in H. rewrite H. by rewrite Nat.ltb_irrefl.
Qed.

End FtsWire.
