(* ===== verification/FtsProps.v ===== *)
(** The properties of the fault tolerance service.

    The theorems are about whole probe cycles, [FtsWalRepMessageSegments], for any
    answers of the outside world: what can go wrong, why a mirror is promoted and a
    segment marked down, when the Asserts hold, that a cycle ends; and about the
    messages between the prober and the segments. *)

From Stdlib Require Import ZArith Lia Ascii.
From stdpp Require Import base gmap list option numbers strings.
From S2P Require Import Prelude LibPQ Fts FtsSpec FtsSegment FtsWire.
Import LibPQ Fts FtsSpec FtsSegment FtsWire.

Module FtsProps.

(** ** The beginning of a cycle *)

Definition primaries (l : list CdbComponentDatabaseInfo) : list CdbComponentDatabaseInfo :=
  filter (λ s, SEGMENT_IS_ACTIVE_PRIMARY s = true) l.

(** The segments are those of the catalog, the two of a pair have the same mode, and
    every content has one primary. *)
Record cdbs_ok (c0 : gmap Z ConfigRow) (cdbs : CdbComponentDatabases) : Prop := MkCdbsOk {
  co_catalog : ∀ s, s ∈ segment_db_info cdbs → in_catalog c0 s;
  co_mode : ∀ p m, p ∈ segment_db_info cdbs → FtsGetPeerSegment cdbs (segindex p) (dbid p) = Some m → mode p = mode m;
  co_count : total_segments cdbs = Z.of_nat (length (primaries (segment_db_info cdbs))) }.

(** A primary and its mirror, by dbid. *)
Definition pair_of (cdbs : CdbComponentDatabases) (p m : Z) : Prop :=
  ∃ P M, P ∈ segment_db_info cdbs ∧ SEGMENT_IS_ACTIVE_PRIMARY P = true ∧
    FtsGetPeerSegment cdbs (segindex P) (dbid P) = Some M ∧ p = dbid P ∧ m = dbid M.

Section Cycle.
Context (r timeout : Z) (Hr : 0 <= r) (cdbs : CdbComponentDatabases) (c0 : gmap Z ConfigRow) (strict : Prop).
Context (Hcdbs : cdbs_ok c0 cdbs).
Notation winv := (world_inv r c0 (pair_of cdbs) strict).
Notation sinv := (stage_inv r c0 (pair_of cdbs) strict).

Lemma peer_in content d m : FtsGetPeerSegment cdbs content d = Some m → m ∈ segment_db_info cdbs.
Proof. unfold FtsGetPeerSegment. intros [H _]%find_some. by apply list_elem_of_In. Qed.

Lemma init_sinv w p m :
  p ∈ segment_db_info cdbs → SEGMENT_IS_ACTIVE_PRIMARY p = true →
  FtsGetPeerSegment cdbs (segindex p) (dbid p) = Some m → sinv Head w (init_info p m).
Proof.
  intros Hp Ha Hm. destruct Hcdbs as [H1 H2 H3]. split; cbn; try done.
  - split; cbn; [by apply H1|by eapply H1, peer_in|by apply (H2 p m)|]. intros _ _. split; [|done]. by exists p, m.
  - intros _. generalize (trace w). intros tr. induction tr as [|[] tr IH]; cbn; try done. case_match; lia.
Qed.

Lemma init_loop_wp l n i w :
  winv w → (∀ s, s ∈ l → s ∈ segment_db_info cdbs) → n - i = Z.of_nat (length (primaries l)) →
  wp (init_loop cdbs l n i) (λ x w', winv w' ∧ later w w' ∧ x.1 - i = Z.of_nat (length x.2) ∧
    all r c0 (pair_of cdbs) strict Head w' x.2 ∧ ∀ j info, x.2 !! j = Some info → ∃ p m, info = init_info p m) w.
Proof.
  revert n i w. induction l as [|p l IH]; intros n i w Hw Hl Hn; cbn [init_loop].
  - apply wp_ret. split; [done|]. split; [reflexivity|]. cbn in *. split; [lia|]. split; intros j info [=].
  - unfold primaries in Hn. destruct (SEGMENT_IS_ACTIVE_PRIMARY p) eqn:Ea; cbn [negb].
    2: { rewrite filter_cons_False in Hn by (by rewrite Ea). apply IH; [done| |done]. intros s Hs. apply Hl. by right. }
    rewrite filter_cons_True in Hn by done. cbn [length] in Hn. fold (primaries l) in Hn.
    destruct (FtsGetPeerSegment cdbs (segindex p) (dbid p)) as [m|] eqn:Ep.
    2: { apply IH; [done| |lia]. intros s Hs. apply Hl. by right. }
    apply wp_bind, (wp_assert r c0 (pair_of cdbs) strict); [done|intros _; unfold FtsIsSegmentAlive; by rewrite Ea, orb_true_r|].
    intros w1 Hw1 L1 _. apply wp_bind, (wp_assert r c0 (pair_of cdbs) strict); [done|intros _; apply Z.ltb_lt; lia|].
    intros w2 Hw2 L2 _. apply wp_bind. eapply wp_mono.
    { apply IH; [done| |lia]. intros s Hs. apply Hl. by right. }
    intros [n' infos] w3 (Hw3 & L3 & En & Hinfos & Hinit). apply wp_ret. cbn in *.
    split; [done|]. split; [by do 2 (etransitivity; [done|])|]. split; [lia|].
    split; intros [|j] info Hj; cbn in Hj; [|by apply (Hinfos j)| |by apply (Hinit j)]; injection Hj as <-.
    + apply init_sinv; [apply Hl; by left|done|done].
    + by exists p, m.
Qed.

Lemma close_wp l i w :
  winv w → wp (for_segs (λ _, close_segment) i l)
    (λ l' w', winv w' ∧ later w w' ∧ forallb (λ info, bool_decide (conn info = None)) l' = true) w.
Proof.
  revert i w. induction l as [|a l IH]; intros i w Hw; cbn [for_segs].
  { apply wp_ret. split; [done|]. split; [reflexivity|done]. }
  apply wp_bind. apply (wp_mono _ (λ a' w', winv w' ∧ later w w' ∧ conn a' = None)).
  - unfold close_segment. destruct (conn a) as [c|] eqn:Ec.
    + apply wp_bind, (wp_emit r c0 (pair_of cdbs) strict); [done|by left|]. intros w' Hw' L' _. apply wp_ret. done.
    + apply wp_ret. split; [done|]. split; [reflexivity|done].
  - intros a' w1 (Hw1 & L1 & Ea). apply wp_bind. eapply wp_mono; [by apply IH|]. intros l' w2 (Hw2 & L2 & El).
    apply wp_ret. split; [done|]. split; [by transitivity w1|]. cbn [forallb]. rewrite El, andb_true_r.
    by apply bool_decide_eq_true.
Qed.

Lemma cycle_wp envs w :
  winv w → (strict → Forall good_env envs) →
  wp (FtsWalRepMessageSegments r timeout envs cdbs) (λ _ w', winv w' ∧ later w w') w.
Proof.
  intros Hw Hg. unfold FtsWalRepMessageSegments. apply wp_bind. eapply wp_mono.
  { unfold FtsWalRepInitProbeContext. apply init_loop_wp; [done|done|]. rewrite (co_count _ _ Hcdbs). lia. }
  intros [n l] w1 (Hw1 & L1 & En & Hl & _). cbn [fst snd] in *. rewrite Z.sub_0_r in En. rewrite En, Z.eqb_refl. cbn [negb].
  apply wp_bind. eapply wp_mono.
  { apply (message_loop_wp r timeout Hr c0 (pair_of cdbs) strict); [done| |done]. split; [|done].
    intros j info Hj. left. by apply (Hl j). }
  intros [[l2 u]|] w2 (Hw2 & L2 & H2); [|apply wp_ret; split; [done|by transitivity w1]].
  destruct H2 as (El & [Hany Hhead] & Hend). apply wp_bind, active_wp. apply wp_bind.
  apply (wp_mono _ (λ l' w', winv w' ∧ later w w' ∧ forallb (λ info, bool_decide (conn info = None)) l' = true)).
  - destruct (shutdown_requested w2) eqn:Es; cbn [negb].
    + eapply wp_mono; [by apply close_wp|]. intros l' w' (A & B & C). split; [done|]. split; [|done].
      by do 2 (etransitivity; [done|]).
    + destruct Hend as [|Hdone]; [done|]. apply wp_ret. split; [done|]. split; [by transitivity w1|].
      apply forallb_forall. intros info Hin. apply list_elem_of_In, list_elem_of_lookup_1 in Hin as [j Hj].
      apply bool_decide_eq_true. apply (head_processed r c0 (pair_of cdbs) strict w2); [by apply (Hhead eq_refl j)|].
      by apply (all_done_processed _ Hdone j).
  - intros l' w3 (Hw3 & L3 & Ec). apply wp_bind, (wp_assert r c0 (pair_of cdbs) strict); [done|done|].
    intros w4 Hw4 L4 _. apply wp_ret. split; [done|by transitivity w3].
Qed.

(** ** Termination *)

(** The clock does not go back, neither in an iteration nor from one to the next, and
    stays within 2^31 seconds from [lo]. *)
Fixpoint clock (lo now : Z) (envs : list Env) : Prop :=
  match envs with
  | [] => True
  | e :: envs =>
      (∀ i, now <= se_start_time (e_seg e i) <= e_now_poll e) ∧
      e_now_poll e <= e_now_retry e < lo + 2 ^ 31 ∧ clock lo (e_now_retry e) envs
  end.

(** How often the time limit has passed: the number of iterations that find the clock
    more than the limit after the last one counted, or after [t]. *)
Fixpoint epochs (t : Z) (envs : list Env) : Z :=
  match envs with
  | [] => 0
  | e :: envs =>
      if t + timeout <? e_now_poll e then 1 + epochs (e_now_retry e) envs else epochs t envs
  end.

(** A pair that is not done has rank left. *)
Lemma not_done_rank w info : sinv Head w info → state info ≠ FTS_RESPONSE_PROCESSED → 1 <= rank r info.
Proof.
  intros Hi Hs. pose proof (si_retries _ _ _ _ _ _ _ Hi) as Hrc. pose proof (si_state _ _ _ _ _ _ _ Hi) as Hst.
  unfold rank. unfold state_inv in Hst. destruct (state info), (connected info); try done; cbn; try lia; naive_solver.
Qed.

Lemma s32_difference lo a b : lo <= a <= b → b < lo + 2 ^ 31 → s32 (b - a) = b - a.
Proof. intros. apply s32_id. unfold is_s32. lia. Qed.

(** [N] bounds the rank of every pair; one that has all of it left waits from a time
    up to [t]. *)
Definition pending (lo t now N : Z) (info : fts_segment_info) : Prop :=
  stamped (λ x, lo <= x <= now) info ∧
  (rank r info <= N - 1 ∨ rank r info <= N ∧ stamped (λ x, lo <= x <= t) info).

(** What is known of a pair's time when an iteration begins. *)
Definition began (lo t now N : Z) (info : fts_segment_info) (x : Z) : Prop :=
  lo <= x <= now ∧ (N <= rank r info → x <= t).

Lemma pending_began lo t now N info : pending lo t now N info → stamped (began lo t now N info) info.
Proof.
  intros [[S1 S2] H]. split; intros.
  - split; [by apply S1|]. intros Hn. destruct H as [H|[_ [H _]]]; [lia|]. by apply H.
  - split; [by apply S2|]. intros Hn. destruct H as [H|[_ [_ H]]]; [lia|]. by apply H.
Qed.

(** A pair that still has rank [N] is due in an iteration that is counted. *)
Lemma pending_due w lo t now N e info :
  sinv Head w info → state info ≠ FTS_RESPONSE_PROCESSED → 0 <= timeout → lo <= t → pending lo t now N info →
  N <= rank r info → t + timeout < e_now_poll e → e_now_poll e <= e_now_retry e < lo + 2 ^ 31 →
  due timeout e info ≠ NotDue.
Proof.
  intros Hi Hs Ht Hlo [_ H] HN He Hr'. destruct H as [H|[_ [H1 H2]]]; [lia|]. unfold due.
  pose proof (si_state _ _ _ _ _ _ _ Hi) as Hst. apply state_inv_class in Hst.
  destruct (is_segment (state info)) eqn:Es.
  - destruct (connected info); [|done]. specialize (H1 eq_refl eq_refl).
    rewrite (s32_difference lo) by lia. destruct (Z.ltb_spec timeout (e_now_poll e - startTime info)); [done|lia].
  - destruct (is_wait (state info)) eqn:Ew.
    + specialize (H2 eq_refl). rewrite (s32_difference lo) by lia.
      destruct (Z.leb_spec 1 (e_now_retry e - retryStartTime info)); [done|lia].
    + destruct (state info); try done; cbn in Hst; by destruct Hst as [[] _] || by destruct Hst.
Qed.

(** One iteration: every pair is pending again, with one less if the iteration counts. *)
Lemma pending_step w lo t now N e j info info' :
  sinv Head w info → 0 <= timeout → lo <= t <= now → 1 <= N → pending lo t now N info →
  (∀ i, now <= se_start_time (e_seg e i) <= e_now_poll e) → e_now_poll e <= e_now_retry e < lo + 2 ^ 31 →
  after_retry r (began lo t now N info) e j (due timeout e info) (rank r info) info' →
  if t + timeout <? e_now_poll e
  then pending lo (e_now_retry e) (e_now_retry e) (N - 1) info'
  else pending lo t (e_now_retry e) N info'.
Proof.
  intros Hi Ht Hlo HN Hp Hstart Hr' [[M1 M2 M3] Hdue].
  assert (stamped (λ x, lo <= x <= e_now_retry e) info') as Hnow.
  { specialize (Hstart j). destruct M2 as [S1 S2]. split.
    - intros A B. destruct (S1 A B) as [[? _]|[[-> | ->] _]]; lia.
    - intros A. destruct (S2 A) as [[? _]|[[-> | ->] _]]; lia. }
  assert (rank r info <= N) as HrN by (destruct Hp as [_ [?|[? _]]]; lia).
  destruct (Z.ltb_spec (t + timeout) (e_now_poll e)) as [He|He].
  - split; [done|]. right. split; [|done]. destruct (decide (N <= rank r info)) as [Hn|]; [|lia].
    assert (state info ≠ FTS_RESPONSE_PROCESSED) as Es.
    { intros Es. unfold rank in Hn. rewrite Es in Hn. cbn in Hn. lia. }
    pose proof (pending_due w lo t now N e info Hi Es Ht ltac:(lia) Hp Hn He Hr') as Hd. specialize (Hdue Hd). lia.
  - split; [done|]. destruct (decide (rank r info' <= N - 1)) as [|Hn]; [by left|]. right. split; [lia|].
    destruct M2 as [S1 S2]. split.
    + intros A B. destruct (S1 A B) as [[? Hx]|[_ ?]]; [|lia]. specialize (Hx ltac:(lia)). lia.
    + intros A. destruct (S2 A) as [[? Hx]|[_ ?]]; [|lia]. specialize (Hx ltac:(lia)). lia.
Qed.

Lemma stopped envs l u w :
  shutdown_requested w = true → wp (message_loop r timeout envs l u) (λ x _, x ≠ None) w.
Proof.
  intros Hs. destruct envs as [|e envs]; cbn [message_loop]; (destruct (allDone l); [by apply wp_ret|]).
  - apply wp_bind, active_wp. rewrite Hs. by apply wp_ret.
  - apply wp_bind, wp_modify, wp_bind, active_wp. cbn. rewrite Hs. by apply wp_ret.
Qed.

Lemma not_all_done l : allDone l = false → ∃ j info, l !! j = Some info ∧ state info ≠ FTS_RESPONSE_PROCESSED.
Proof.
  unfold allDone. intros Ed. induction l as [|a l IH]; [done|]. cbn in Ed. apply andb_false_iff in Ed as [Ed|Ed].
  - exists 0%nat, a. split; [done|]. by apply bool_decide_eq_false in Ed.
  - destruct (IH Ed) as (j & info & Hj & Hs). by exists (S j), info.
Qed.

Lemma epochs_end envs lo t now N l u w :
  winv w → all r c0 (pair_of cdbs) strict Head w l → (strict → Forall good_env envs) → 0 <= timeout →
  clock lo now envs → lo <= t <= now → (∀ j info, l !! j = Some info → pending lo t now N info) →
  N <= epochs t envs → wp (message_loop r timeout envs l u) (λ x _, x ≠ None) w.
Proof.
  intros Hw Hl Hg Ht. revert t now N l u w Hw Hl Hg.
  induction envs as [|e envs IH]; intros t now N l u w Hw Hl Hg Hc Hlo Hp HN; cbn [message_loop].
  all: destruct (allDone l) eqn:Ed; [by apply wp_ret|].
  all: destruct (not_all_done l Ed) as (j0 & info0 & Hj0 & Hs0);
    pose proof (not_done_rank w info0 (Hl j0 info0 Hj0) Hs0) as Hr0;
    assert (1 <= N) as HN1 by (destruct (Hp j0 info0 Hj0) as [_ [?|[? _]]]; lia).
  { cbn in HN. lia. }
  destruct Hc as (Hstart & Hr' & Hc). cbn [epochs] in HN.
  apply wp_bind, (signal_wp r c0 (pair_of cdbs) strict); [done|]. intros w1 Hw1 L1 _. apply wp_bind, active_wp.
  destruct (shutdown_requested w1) eqn:Esh; cbn [negb]; [by apply wp_ret|].
  assert (all r c0 (pair_of cdbs) strict Head w1 l) as Hl1.
  { intros j info Hj. apply (stage_inv_later r c0 (pair_of cdbs) strict _ w); [done|]. by apply (Hl j). }
  apply wp_bind. eapply wp_mono.
  { apply (iteration_wp r timeout Hr c0 (pair_of cdbs) strict
      (λ j x, match l !! j with Some info => began lo t now N info x | None => True end)); [done|done| |].
    - intros Hs. by apply Forall_inv in Hg.
    - intros j info Hj. rewrite Hj. by apply pending_began, (Hp j). }
  intros [l2 u2] w2 (Hw2 & L2 & El & [_ Hhead] & Hprog). cbn [fst] in *.
  destruct (shutdown_requested w2) eqn:Es2; [by apply stopped|].
  assert (∀ j info', l2 !! j = Some info' →
    if t + timeout <? e_now_poll e then pending lo (e_now_retry e) (e_now_retry e) (N - 1) info'
    else pending lo t (e_now_retry e) N info') as Hp2.
  { intros j info' Hj'. destruct (lookup_lt_is_Some_2 l j) as [info Hj].
    { rewrite <- El. by eapply lookup_lt_Some. }
    specialize (Hprog eq_refl j info info' Hj Hj'). rewrite Hj in Hprog.
    by apply (pending_step w1 lo t now N e j info info' (Hl1 j info Hj) Ht Hlo HN1 (Hp j info Hj)). }
  specialize (Hstart 0%nat). destruct (Z.ltb_spec (t + timeout) (e_now_poll e)).
  - apply (IH (e_now_retry e) (e_now_retry e) (N - 1)); [done|by apply Hhead| |done|lia|done|lia].
    intros Hs. by apply Forall_inv_tail in Hg.
  - apply (IH t (e_now_retry e) N); [done|by apply Hhead| |done|lia|done|lia].
    intros Hs. by apply Forall_inv_tail in Hg.
Qed.

End Cycle.

(** ** Traces *)

Lemma safe_trace_suffix r c0 pair tr1 tr2 : safe_trace r c0 pair (tr1 ++ tr2) → safe_trace r c0 pair tr2.
Proof. induction tr1 as [|[] tr1 IH]; cbn; try done; intros [_ H]; by apply IH. Qed.

(** The invariant at the beginning of a cycle, with an empty trace. *)
Lemma start_inv r cdbs strict w :
  trace w = [] → (strict → asserts w = true) → world_inv r (config w) (pair_of cdbs) strict w.
Proof. intros E Ha. split; [by rewrite E|by rewrite E|done]. Qed.

(** ** The properties of a probe cycle *)

Section Properties.
Context (r timeout : Z) (Hr : 0 <= r) (envs : list Env) (cdbs : CdbComponentDatabases) (w : World).
Context (Hcdbs : cdbs_ok (config w) cdbs) (Htrace : trace w = []).

Lemma cycle_result x w' :
  FtsWalRepMessageSegments r timeout envs cdbs w = Ok (x, w') →
  config w' = replay (config w) (trace w') ∧ safe_trace r (config w) (pair_of cdbs) (trace w').
Proof.
  intros E. pose proof (cycle_wp r timeout Hr cdbs (config w) False Hcdbs envs w (start_inv r cdbs False w Htrace ltac:(done)) ltac:(done)) as H.
  unfold wp in H. rewrite E in H. by destruct H as [[H1 H2 _] _].
Qed.

(** C6: a mirror is promoted for a reason.  Whenever, in a probe cycle with any
    answers from libpq, poll() and the clock, PROMOTE is sent to a segment, then
    either one committed update of gp_segment_configuration had made it the primary
    and marked its old primary down and both out of sync, at least
    gp_fts_probe_retries + 1 connections to that primary had been tried, and the
    catalog had the mirror in sync at the beginning of the cycle; or the segment
    itself, as the primary of the catalog, had answered a probe that it still acts
    as a mirror. *)
Theorem fts_promotes_with_reason x w' tr1 d tr2 :
  FtsWalRepMessageSegments r timeout envs cdbs w = Ok (x, w') →
  trace w' = tr1 ++ EvSend d FTS_MSG_PROMOTE :: tr2 →
  justified r (config w) (pair_of cdbs) d tr2.
Proof.
  intros E Et. destruct (cycle_result x w' E) as [_ Hs]. rewrite Et in Hs.
  apply safe_trace_suffix in Hs as [Hj _]. by apply Hj.
Qed.

(** C15: a segment is marked down for a reason.  Every update committed in a probe
    cycle that sets a segment's status to down is about a segment that was not up in
    the catalog before, or the primary of a pair, primary also in the catalog, whose
    mirror is in sync there and to which at least gp_fts_probe_retries + 1 connections
    were tried, or a mirror whose primary answered that it is not alive
    and did not ask for a retry, unless synchronous replication was off. *)
Theorem fts_marks_down_with_reason x w' tr1 ups tr2 u :
  FtsWalRepMessageSegments r timeout envs cdbs w = Ok (x, w') →
  trace w' = tr1 ++ EvCommit ups :: tr2 → u ∈ ups →
  down_ok r (config w) (pair_of cdbs) u tr2.
Proof.
  intros E Et Hu. destruct (cycle_result x w' E) as [_ Hs]. rewrite Et in Hs.
  apply safe_trace_suffix in Hs as [Hj _]. by apply Hj.
Qed.

(** C16: the prober never trips over its own state machine.  A probe cycle, whatever
    the segments, libpq, poll() and the clock answer, either raises one of the
    errors that only these can cause (no memory for a connection, an invalid answer
    of PQconnectPoll, a failing poll()) or leaves the catalog as the committed
    updates, applied in order, make it; it never meets a state without a successor
    and never fails to find a segment in the catalog. *)
Theorem fts_cycle_errors :
  match FtsWalRepMessageSegments r timeout envs cdbs w with
  | Err msg => env_error msg
  | Ok (_, w') => config w' = replay (config w) (trace w')
  end.
Proof.
  pose proof (cycle_wp r timeout Hr cdbs (config w) False Hcdbs envs w (start_inv r cdbs False w Htrace ltac:(done)) ltac:(done)) as H.
  unfold wp in H. destruct (FtsWalRepMessageSegments r timeout envs cdbs w) as [[x w']|msg]; [|done].
  by destruct H as [[H1 _ _] _].
Qed.

(** C31: every Assert of the prober holds in a probe cycle in which the replies are
    such as [good_reply] describes: a mirror that is in sync is up, a mirror that is
    up is replicated to synchronously, and no primary says that it is a mirror.
    This covers that all retries are used up before a failure is processed, that a
    mirror to be promoted is in sync and gets its update, and that no connection is
    left open. *)
Theorem fts_asserts_hold x w' :
  Forall good_env envs → asserts w = true →
  FtsWalRepMessageSegments r timeout envs cdbs w = Ok (x, w') → asserts w' = true.
Proof.
  intros Hg Ha E.
  pose proof (cycle_wp r timeout Hr cdbs (config w) True Hcdbs envs w (start_inv r cdbs True w Htrace ltac:(done)) ltac:(done)) as H.
  unfold wp in H. rewrite E in H. destruct H as [[_ _ H3] _]. by apply H3.
Qed.

(** C18: a probe cycle ends.  If the clock does not go back and the cycle does not
    take 2^31 seconds, then once the time limit has passed 6 * gp_fts_probe_retries + 4
    times since the beginning, the loop over the pairs has ended, whatever the segments,
    libpq and poll() answered and however many of the pairs were done before; the only
    other way out is one of the errors they can cause. *)
Theorem fts_cycle_ends t0 :
  0 <= timeout → clock t0 t0 envs → 6 * r + 4 <= epochs timeout t0 envs →
  match FtsWalRepMessageSegments r timeout envs cdbs w with
  | Ok (x, _) => x ≠ None
  | Err msg => env_error msg
  end.
Proof.
  intros Ht Hc He. set (pair := pair_of cdbs).
  assert (wp (FtsWalRepMessageSegments r timeout envs cdbs) (λ x _, x ≠ None) w) as Hwp; [|exact Hwp].
  unfold FtsWalRepMessageSegments. apply wp_bind. eapply wp_mono.
  { unfold FtsWalRepInitProbeContext. apply (init_loop_wp r Hr cdbs (config w) False Hcdbs); [by apply start_inv|done|].
    rewrite (co_count _ _ Hcdbs). lia. }
  intros [n l] w1 (Hw1 & L1 & En & Hl & Hinit). cbn [fst snd] in *. rewrite Z.sub_0_r in En.
  rewrite En, Z.eqb_refl. cbn [negb]. apply wp_bind. eapply wp_mono.
  { apply wp_conj; [apply (message_loop_wp r timeout Hr (config w) (pair_of cdbs) False); [done|split; [|done]|done]|].
    { intros j info Hj. left. by apply (Hl j). }
    apply (epochs_end r timeout Hr cdbs (config w) False envs t0 t0 t0 (6 * r + 4)); try done.
    intros j info Hj. destruct (Hinit j info Hj) as (p & m & ->). split; [done|]. right.
    split; [unfold rank; cbn; lia|done]. }
  intros [[l2 u2]|] w2 [(Hw2 & _) Hx]; [|done]. apply wp_bind, active_wp. apply wp_bind.
  apply (wp_mono _ (λ _ _, True)); [|intros l' w3 _; by apply wp_bind, wp_modify, wp_ret].
  destruct (negb (negb _)); [|by apply wp_ret].
  eapply wp_mono; [by apply (close_wp r cdbs (config w) False)|done].
Qed.

End Properties.

(** ** The messages *)

(** C32: a response survives the wire, whole or in pieces.  Of the messages of
    [SendFtsResponse] and [ReadyForQuery] any number [n] of bytes may have arrived.  With
    fewer than the response has, libpq is busy; otherwise its parser, with all its checks,
    gives one tuple of five fields, and the prober records exactly the five flags of the
    response, whatever memory follows the one-byte values of which it reads four bytes. *)
Theorem fts_response_roundtrip junk resp s vmem status n info :
  let msgs := SendFtsResponse resp (message_of s) in
  let rep := reply_of junk (take n (msgs ++ ReadyForQuery vmem status)) in
  if (n <? length msgs)%nat then rep = Some StillBusy
  else ∃ values, rep = Some (TuplesResult FTS_MESSAGE_RESPONSE_NTUPLES Natts_fts_message_response values) ∧
    seg_result (probeRecordResponse values info) = result_of resp.
Proof.
  intros msgs rep. unfold rep, msgs. rewrite reply_prefix. fold msgs. destruct (n <? length msgs)%nat; [done|].
  eexists. split; [done|]. apply recorded.
Qed.

Lemma mirror_status_shape grace now start w resp :
  (IsInSync resp = true → IsMirrorUp resp = true) →
  let resp' := mirror_status grace now start w resp in
  (IsInSync resp' = true → IsMirrorUp resp' = true) ∧ IsRoleMirror resp' = IsRoleMirror resp.
Proof.
  intros H. unfold mirror_status. destruct (negb (pid w =? 0)); [destruct (walsnd_state w)|]; cbn;
    repeat (case_match; cbn); done.
Qed.

Lemma mirror_status_of grace now s resp0 :
  let resp := GetMirrorStatus grace now s resp0 in
  (IsInSync resp = true → IsMirrorUp resp = true) ∧ IsRoleMirror resp = IsRoleMirror resp0 ∧
  IsSyncRepEnabled resp = sync_standbys_defined s.
Proof.
  unfold GetMirrorStatus. cbn.
  assert (∀ l resp, (IsInSync resp = true → IsMirrorUp resp = true) →
    let resp' := foldl (λ r w, mirror_status grace now (PMAcceptingConnectionsStartTime s) w r) resp l in
    (IsInSync resp' = true → IsMirrorUp resp' = true) ∧ IsRoleMirror resp' = IsRoleMirror resp) as Hl.
  { induction l as [|w l IH]; intros resp H; cbn; [done|].
    destruct (mirror_status_shape grace now (PMAcceptingConnectionsStartTime s) w resp H) as [H1 H2].
    destruct (IH _ H1) as [H3 H4]. split; [done|]. by rewrite H4. }
  destruct (Hl (walsnds s) (MkResponse false false (IsSyncRepEnabled resp0) (IsRoleMirror resp0) false)) as [H1 H2]; [done|].
  done.
Qed.

(** What the segments answer is what the prober's Asserts expect.  The answer of
    a primary to PROBE and of a segment to PROMOTE, sent over the wire, is a
    [good_reply]; so is the answer to SYNCREP_OFF as long as the mirror has not come
    up in the meantime; and a mirror that gets a PROBE says that it is a mirror and
    nothing else. *)
Theorem fts_segment_replies blcksz grace now f fopen junk s :
  let good st resp := ∃ rep, reply_of junk (SendFtsResponse resp (message_of st)) = Some rep ∧ good_reply st rep in
  (∀ resp s', HandleFtsMessage blcksz grace now f fopen FTS_MSG_PROBE s = Ok (resp, s') →
     if am_mirror s then resp = MkResponse false false false true false else good FTS_PROBE_SEGMENT resp) ∧
  (∃ resp s', HandleFtsMessage blcksz grace now f fopen FTS_MSG_PROMOTE s = Ok (resp, s') ∧ good FTS_PROMOTE_SEGMENT resp) ∧
  (∃ resp s', HandleFtsMessage blcksz grace now f fopen FTS_MSG_SYNCREP_OFF s = Ok (resp, s') ∧
     (IsMirrorUp resp = false → good FTS_SYNCREP_OFF_SEGMENT resp)).
Proof.
  intros good. assert (∀ st resp, good_result st (result_of resp) → good st resp) as Hgood.
  { intros st resp H. eexists. split; [apply reply_whole|]. unfold good_reply. by rewrite recorded. }
  clearbody good.
  split; [|split].
  - intros resp s'. change (HandleFtsMessage blcksz grace now f fopen FTS_MSG_PROBE s) with (HandleFtsWalRepProbe blcksz grace now f s).
    unfold HandleFtsWalRepProbe. destruct (am_mirror s).
    { destruct (checkIODataDirectory blcksz f).2; [|done]. by intros [= <- <-]. }
    destruct (mirror_status_of grace now s no_response) as (H1 & H2 & H3).
    destruct (GetMirrorStatus grace now s no_response) as [up sync rep rol retry]. cbn in *. subst.
    destruct (up && negb (sync_standbys_defined s)) eqn:E; (destruct (checkIODataDirectory blcksz f).2; [|done]);
      intros [= <- <-]; apply Hgood; unfold good_result, result_of; cbn; (split; [done|]); (split; [|done]); [done|].
    intros ->. by destruct (sync_standbys_defined s).
  - eexists _, _. split; [done|]. apply Hgood. done.
  - eexists _, _. split; [done|]. intros Hup. apply Hgood. unfold good_result, result_of. cbn [isInSync isMirrorAlive isSyncRepEnabled].
    rewrite Hup. split_and!; [|done|done]. intros Hs. exfalso.
    destruct (mirror_status_of grace now (UnsetSyncStandbysDefined s) no_response) as (H1 & _). rewrite H1 in Hup; done.
Qed.

Lemma unsync_reply_asserts r info w :
  state info = FTS_SYNCREP_OFF_SUCCESS → seg_result info = MkResult true true true false false false →
  ∃ x w', process_segment r info false w = Ok (x, w') ∧ asserts w' = false.
Proof.
  intros Hs Hres. destruct info as [p m res st ev rev fd start rstart cn cnt lsn progress]. cbn in Hs, Hres. subst.
  destruct cn; eexists _, _; (split; [unfold process_segment, mbind, M_bind; cbn; reflexivity|]); cbn; by rewrite !andb_false_r.
Qed.

(** C33: an Assert that an answer to SYNCREP_OFF breaks.  When synchronous replication
    is off already (an earlier SYNCREP_OFF took effect but its answer was lost) and
    the mirror streams again, the primary answers SYNCREP_OFF that the mirror is up
    and replication is not synchronous; [processResponse] asserts for every response
    that a mirror that is alive is replicated to synchronously, so with assertions
    enabled the prober fails on a correct answer. *)
Theorem fts_syncrep_off_reply_breaks_assert r blcksz grace now f fopen junk s p t info w :
  sync_standbys_defined s = false → walsnds s = [MkWalSnd p WALSNDSTATE_STREAMING t] → p ≠ 0 →
  ∃ resp s' values x w',
    HandleFtsMessage blcksz grace now f fopen FTS_MSG_SYNCREP_OFF s = Ok (resp, s') ∧
    reply_of junk (SendFtsResponse resp FTS_MSG_SYNCREP_OFF) = Some (TuplesResult FTS_MESSAGE_RESPONSE_NTUPLES Natts_fts_message_response values) ∧
    process_segment r (set_state FTS_SYNCREP_OFF_SUCCESS (probeRecordResponse values info)) false w = Ok (x, w') ∧
    asserts w' = false.
Proof.
  intros Hoff Hws Hp. set (resp := MkResponse true true false false false).
  pose proof (reply_whole junk resp FTS_SYNCREP_OFF_SEGMENT) as E. set (values := value_memory _ _) in E.
  assert (HandleFtsMessage blcksz grace now f fopen FTS_MSG_SYNCREP_OFF s = Ok (resp, s)) as Hh.
  { change (HandleFtsMessage blcksz grace now f fopen FTS_MSG_SYNCREP_OFF s) with (HandleFtsWalRepSyncRepOff grace now s).
    unfold HandleFtsWalRepSyncRepOff, UnsetSyncStandbysDefined. rewrite Hoff. unfold GetMirrorStatus.
    rewrite Hws, Hoff. cbn [foldl]. unfold mirror_status. cbn [pid walsnd_state]. by destruct (Z.eqb_spec p 0). }
  destruct (unsync_reply_asserts r (set_state FTS_SYNCREP_OFF_SUCCESS (probeRecordResponse values info)) w) as (x & w' & Hx & Ha).
  - done.
  - change (seg_result (set_state FTS_SYNCREP_OFF_SUCCESS (probeRecordResponse values info)))
      with (seg_result (probeRecordResponse values info)). apply recorded.
  - by exists resp, s, values, x, w'.
Qed.

(** ** A failover *)

Definition sample_cdbs : CdbComponentDatabases := MkCdbs [MkCdb 2 0 "p" "s" "u"; MkCdb 3 0 "m" "s" "u"] 1.
Definition sample_world : World :=
  MkWorld {[2 := MkRow "p" "s" "u"; 3 := MkRow "m" "s" "u"]} [] (MkProbeInfo 255 7 ∅) false true [].

(** What the outside world answers: the connection, what poll() reports and the time. *)
Definition sample_env (st : ConnStatus) (revents : list Z) (now : Z) : Env :=
  MkEnv (λ _, MkSegEnv (Some st) 0 PGRES_POLLING_OK true (λ _, TuplesResult 1 5 (λ _, [0; 0; 0; 0])) false)
    (λ _, (1, false, revents)) now 0 false.

(** The primary cannot be reached; the mirror is sent PROMOTE and answers. *)
Definition sample_envs : list Env :=
  [sample_env CONNECTION_BAD [0] 0; sample_env CONNECTION_OK [4] 0; sample_env CONNECTION_OK [1] 0].
Definition final_world {A} (m : result (A * World)) : World := match m with Ok (_, w) => w | Err _ => sample_world end.
Definition sample_final : World := final_world (FtsWalRepMessageSegments 0 20 sample_envs sample_cdbs sample_world).

Lemma sample_ok : cdbs_ok (config sample_world) sample_cdbs.
Proof.
  split; [|intros p m|done].
  - intros s [->|[->|[]%elem_of_nil]%elem_of_cons]%elem_of_cons; reflexivity.
  - intros [->|[->|[]%elem_of_nil]%elem_of_cons]%elem_of_cons [= <-]; reflexivity.
Qed.

Lemma fts_promotes_with_reason_witness :
  justified 0 (config sample_world) (pair_of sample_cdbs) 3
    [EvConnect 3; EvFinish 2; EvCommit [MkUpdate 2 "m" false false; MkUpdate 3 "p" true false]; EvConnect 2].
Proof.
  apply (fts_promotes_with_reason 0 20 ltac:(lia) sample_envs sample_cdbs sample_world sample_ok eq_refl (Some true) sample_final
    [EvFinish 3; EvReply 3 FTS_MSG_PROMOTE (MkResult true false false false false false)]); vm_compute; reflexivity.
Defined.

Lemma fts_marks_down_with_reason_witness :
  down_ok 0 (config sample_world) (pair_of sample_cdbs) (MkUpdate 2 "m" false false) [EvConnect 2].
Proof.
  apply (fts_marks_down_with_reason 0 20 ltac:(lia) sample_envs sample_cdbs sample_world sample_ok eq_refl (Some true) sample_final
    [EvFinish 3; EvReply 3 FTS_MSG_PROMOTE (MkResult true false false false false false); EvSend 3 FTS_MSG_PROMOTE; EvConnect 3; EvFinish 2]
    [MkUpdate 2 "m" false false; MkUpdate 3 "p" true false]); [vm_compute; reflexivity|vm_compute; reflexivity|by left].
Defined.

Lemma fts_cycle_errors_witness :
  config sample_final = replay (config sample_world) (trace sample_final).
Proof.
  pose proof (fts_cycle_errors 0 20 ltac:(lia) sample_envs sample_cdbs sample_world sample_ok eq_refl) as H.
  assert (FtsWalRepMessageSegments 0 20 sample_envs sample_cdbs sample_world = Ok (Some true, sample_final)) as E
    by (vm_compute; reflexivity).
  rewrite E in H. exact H.
Defined.

Lemma fts_asserts_hold_witness : asserts sample_final = true.
Proof.
  apply (fts_asserts_hold 0 20 ltac:(lia) sample_envs sample_cdbs sample_world sample_ok eq_refl (Some true)).
  - apply Forall_forall. intros e [->|[->|[->|[]%elem_of_nil]%elem_of_cons]%elem_of_cons]%elem_of_cons i s Hs; by destruct s.
  - reflexivity.
  - vm_compute; reflexivity.
Defined.

(** Nothing ever arrives: both connections time out. *)
Definition sample_slow_env (t : Z) : Env :=
  MkEnv (λ _, MkSegEnv (Some CONNECTION_STARTED) t PGRES_POLLING_WRITING true (λ _, NoResult) false)
    (λ _, (0, false, [0])) t t false.
Definition sample_slow : list Env := sample_slow_env <$> [100; 200; 300; 400].
Definition sample_outcome (envs : list Env) : option (option bool) :=
  match FtsWalRepMessageSegments 0 20 envs sample_cdbs sample_world with Ok (x, _) => Some x | Err _ => None end.

Lemma fts_cycle_ends_witness :
  sample_outcome (take 3 sample_slow) = Some None ∧ sample_outcome sample_slow ≠ Some None.
Proof.
  split; [vm_compute; reflexivity|].
  pose proof (fts_cycle_ends 0 20 ltac:(lia) sample_slow sample_cdbs sample_world sample_ok eq_refl 0 ltac:(lia)
    ltac:(repeat (split; [intros; simpl; lia|split; [simpl; lia|]]); exact I) ltac:(vm_compute; discriminate)) as H.
  unfold sample_outcome. destruct (FtsWalRepMessageSegments 0 20 sample_slow sample_cdbs sample_world) as [[x w']|]; [|done].
  intros [= E]. exact (H E).
Defined.

Definition sample_segment : Segment :=
  MkSegment false [MkWalSnd 4711 WALSNDSTATE_STREAMING 0] false EmptyString false false false DB_IN_PRODUCTION 0.

Lemma fts_syncrep_off_reply_breaks_assert_witness :
  ∃ resp s' values x w',
    HandleFtsMessage 32768 30 0 (MkProbeFile (OpenFd 5) OpenFails 0 32768 true 0 32768) true FTS_MSG_SYNCREP_OFF sample_segment = Ok (resp, s') ∧
    reply_of (λ _, []) (SendFtsResponse resp FTS_MSG_SYNCREP_OFF) = Some (TuplesResult FTS_MESSAGE_RESPONSE_NTUPLES Natts_fts_message_response values) ∧
    process_segment 5 (set_state FTS_SYNCREP_OFF_SUCCESS
      (probeRecordResponse values (init_info (MkCdb 2 0 "p" "s" "u") (MkCdb 3 0 "m" "s" "u")))) false sample_world = Ok (x, w') ∧
    asserts w' = false.
Proof.
  apply (fts_syncrep_off_reply_breaks_assert 5 32768 30 0 _ true (λ _, []) sample_segment 4711 0); [reflexivity|reflexivity|lia].
Defined.

End FtsProps.
