(* ===== verification/FtsView.v ===== *)
(** What the dispatcher sees of the fault tolerance service.

    The prober writes the status of the segments twice: into the catalog
    gp_segment_configuration and into shared memory, where [FtsIsSegmentUp] reads
    it next to a version.  Here is the relation between the two over a round of
    [FtsLoop], and what the version does.  [post] is a weakest precondition that
    says nothing of a run that ends in an ERROR. *)

From Stdlib Require Import ZArith Lia Ascii.
From stdpp Require Import base gmap list option numbers strings.
From S2P Require Import Prelude Fts FtsSpec FtsProps.
Import Fts FtsSpec FtsProps.

Module FtsView.

Definition post {A} (m : M A) (Q : A → World → Prop) (w : World) : Prop :=
  match m w with Ok (a, w') => Q a w' | Err _ => True end.

Lemma post_ret {A} (a : A) (Q : A → World → Prop) w : Q a w → post (mret a) Q w.
Proof. done. Qed.
Lemma post_raise {A} msg (Q : A → World → Prop) w : post (raise msg) Q w.
Proof. done. Qed.
Lemma post_bind {A B} (m : M A) (f : A → M B) Q w : post m (λ a, post (f a) Q) w → post (m ≫= f) Q w.
Proof. unfold post, mbind, M_bind. by destruct (m w) as [[a w']|]. Qed.
Lemma post_mono {A} (m : M A) (Q Q' : A → World → Prop) w :
  post m Q w → (∀ a w', Q a w' → Q' a w') → post m Q' w.
Proof. unfold post. intros H HQ. destruct (m w) as [[a w']|]; [by apply HQ|done]. Qed.
Lemma post_get (Q : World → World → Prop) w : Q w w → post get Q w.
Proof. done. Qed.

(** ** The two copies of the status *)

Definition row_up (c : gmap Z ConfigRow) (d : Z) : bool :=
  match c !! d with
  | Some row => Ascii.eqb (row_status row) GP_SEGMENT_CONFIGURATION_STATUS_UP
  | None => false
  end.
Definition mem_up (i : FtsProbeInfo) (d : Z) : bool := FTS_STATUS_IS_UP (status_of i d).
Definition agree (w : World) (d : Z) : Prop := mem_up (probe_info w) d = row_up (config w) d.
Definition counters (w : World) : Z * Z := (fts_statusVersion (probe_info w), probeTick (probe_info w)).

(** Neither copy changes. *)
Definition frame (w w' : World) : Prop := config w' = config w ∧ probe_info w' = probe_info w.
#[export] Instance frame_preorder : PreOrder frame.
Proof. split; [done|]. intros w1 w2 w3 [] []. split; congruence. Qed.

(** Only the rows of [ids] may change, and the copies go on agreeing. *)
Definition moved (ids : list Z) (w w' : World) : Prop :=
  counters w' = counters w ∧ (∀ d, d ∉ ids → config w' !! d = config w !! d) ∧ ∀ d, agree w d → agree w' d.

Lemma frame_moved ids w w' : frame w w' → moved ids w w'.
Proof. unfold moved, agree, counters. by intros [-> ->]. Qed.
Lemma moved_trans ids w1 w2 w3 : moved ids w1 w2 → moved ids w2 w3 → moved ids w1 w3.
Proof.
  intros (V1 & C1 & A1) (V2 & C2 & A2). split; [congruence|]. split; [|by auto].
  intros d Hd. by rewrite C2, C1.
Qed.
Lemma moved_mono ids ids' w w' : ids ⊆ ids' → moved ids w w' → moved ids' w w'.
Proof. intros H (V & C & A). split; [done|]. split; [|done]. intros d Hd. apply C. by intros ?%H. Qed.

(** ** The steps that change neither *)

Lemma post_assert b (Q : unit → World → Prop) w : (∀ w', frame w w' → Q tt w') → post (Assert b) Q w.
Proof. intros H. by apply H. Qed.
Lemma post_emit e (Q : unit → World → Prop) w : (∀ w', frame w w' → Q tt w') → post (emit e) Q w.
Proof. intros H. by apply H. Qed.
Lemma post_signal b (Q : unit → World → Prop) w : (∀ w', frame w w' → Q tt w') → post (signal b) Q w.
Proof. intros H. by apply H. Qed.
Lemma post_finish c (Q : unit → World → Prop) w : (∀ w', frame w w' → Q tt w') → post (PQfinish c) Q w.
Proof. intros H. destruct c; simpl; by apply H. Qed.
Lemma post_active (Q : bool → World → Prop) w : (∀ b, Q b w) → post FtsIsActive Q w.
Proof. intros H. unfold FtsIsActive. apply H. Qed.

(** The states of a pair whose rows in the catalog were not written yet. *)
Definition fresh (s : FtsMessageState) : bool :=
  match s with
  | FTS_PROBE_SEGMENT | FTS_PROBE_SUCCESS | FTS_PROBE_FAILED | FTS_PROBE_RETRY_WAIT => true
  | _ => false
  end.

Definition kept (info info' : fts_segment_info) : Prop :=
  primary_cdbinfo info' = primary_cdbinfo info ∧ mirror_cdbinfo info' = mirror_cdbinfo info ∧
  (fresh (state info') = true → fresh (state info) = true).

#[export] Instance kept_preorder : PreOrder kept.
Proof. split; [done|]. intros a b c (P1 & M1 & H1) (P2 & M2 & H2). split; [congruence|]. split; [congruence|auto]. Qed.

Definition quiet (f : fts_segment_info → M fts_segment_info) : Prop :=
  ∀ info w, post (f info) (λ info' w', frame w w' ∧ kept info info') w.

Lemma post_fail info (Q : fts_segment_info → World → Prop) w :
  (∀ s, (fresh s = true → fresh (state info) = true) → Q (set_state s info) w) → post (fail_state info) Q w.
Proof.
  intros H. unfold fail_state, nextFailedState. apply post_bind.
  destruct (state info); first [apply post_raise|do 2 apply post_ret; by apply H].
Qed.

(** Run the steps of a quiet function and close the leaves. *)
Ltac quiet_leaf :=
  split; [first [reflexivity|by repeat (etransitivity; [eassumption|])]|];
  unfold kept; repeat case_match; cbn in *; repeat match goal with H : state _ = _ |- _ => rewrite H in * end; split_and!; auto; done.
Ltac quiet_step :=
  lazymatch goal with
  | |- post (mret _) _ _ => apply post_ret
  | |- post (raise _) _ _ => apply post_raise
  | |- post (_ ≫= _) _ _ => apply post_bind
  | |- post (Assert _) _ _ => apply post_assert; intros ? ?
  | |- post (emit _) _ _ => apply post_emit; intros ? ?
  | |- post (PQfinish _) _ _ => apply post_finish; intros ? ?
  | |- post (fail_state _) _ _ => apply post_fail; intros ? ?
  | |- post _ _ _ => case_match; simplify_eq/=
  end.

Lemma connect_quiet r e : quiet (connect_segment r e).
Proof.
  intros info w. unfold connect_segment, ftsConnectStart, connect_poll, checkIfFailedDueToRecoveryInProgress.
  repeat quiet_step; quiet_leaf.
Qed.

Lemma poll_quiet timeout revents now : quiet (poll_segment timeout revents now).
Proof.
  intros info w. unfold poll_segment, ftsCheckTimeout.
  repeat quiet_step; quiet_leaf.
Qed.

Lemma send_quiet e : quiet (send_segment e).
Proof. intros info w. unfold send_segment. repeat quiet_step; quiet_leaf. Qed.

Lemma receive_quiet e : quiet (receive_segment e).
Proof.
  intros info w. unfold receive_segment, nextSuccessState.
  repeat quiet_step; quiet_leaf.
Qed.

Lemma retry_quiet r now : quiet (retry_segment r now).
Proof. intros info w. unfold retry_segment, retryForFtsFailed. repeat quiet_step; quiet_leaf. Qed.

Lemma close_quiet : quiet close_segment.
Proof. intros info w. unfold close_segment. repeat quiet_step; quiet_leaf. Qed.

(** ** Processing a response *)

Definition ids_of (info : fts_segment_info) : list Z := [dbid (primary_cdbinfo info); dbid (mirror_cdbinfo info)].
Definition ids (l : list fts_segment_info) : list Z := flat_map ids_of l.

(** A pair whose rows were not written yet has what the catalog says. *)
Definition info_ok (w : World) (info : fts_segment_info) : Prop :=
  fresh (state info) = true →
  row_up (config w) (dbid (primary_cdbinfo info)) = SEGMENT_IS_ALIVE (primary_cdbinfo info) ∧
  row_up (config w) (dbid (mirror_cdbinfo info)) = SEGMENT_IS_ALIVE (mirror_cdbinfo info).

Lemma info_ok_frame w w' info info' : kept info info' → frame w w' → info_ok w info → info_ok w' info'.
Proof. unfold info_ok. intros (-> & -> & Hf) [-> _] H ?. auto. Qed.

Lemma info_ok_moved w w' info js : moved js w w' → (∀ d, d ∈ ids_of info → d ∉ js) → info_ok w info → info_ok w' info.
Proof.
  unfold info_ok, row_up. intros (_ & C & _) Hd H Hf. specialize (H Hf).
  rewrite !C; [done|apply Hd; unfold ids_of; set_solver..].
Qed.

Lemma status_set s (alive : bool) :
  FTS_STATUS_IS_UP (if alive then FTS_STATUS_SET_UP s else FTS_STATUS_SET_DOWN s) = alive.
Proof.
  unfold FTS_STATUS_IS_UP, has, FTS_STATUS_SET_UP, FTS_STATUS_SET_DOWN, FTS_STATUS_UP. destruct alive.
  - rewrite Z.land_lor_distr_l. destruct (Z.eqb_spec (Z.lor (Z.land s 1) (Z.land 1 1)) 0) as [E|]; [|done].
    by apply Z.lor_eq_0_iff in E as [_ ?].
  - by rewrite Z.land_ldiff.
Qed.

Lemma row_of_update u : Ascii.eqb (row_status (config_row u)) GP_SEGMENT_CONFIGURATION_STATUS_UP = up_alive u.
Proof. unfold config_row. by destruct (up_alive u). Qed.

Lemma post_update_row u (Q : unit → World → Prop) w :
  (∀ w', probe_info w' = probe_info w → config w' = <[up_dbid u := config_row u]> (config w) → Q tt w') →
  post (probeWalRepUpdateConfig u) Q w.
Proof.
  intros H. unfold probeWalRepUpdateConfig. apply post_bind, post_assert. intros w1 [E1 E2].
  apply post_bind, post_get. case_match; [|apply post_raise]. apply H; cbn; congruence.
Qed.

Lemma post_set_status d alive (Q : unit → World → Prop) w :
  (∀ w', counters w' = counters w → config w' = config w →
     (∀ d', mem_up (probe_info w') d' = if d' =? d then alive else mem_up (probe_info w) d') → Q tt w') →
  post (set_status d alive) Q w.
Proof.
  intros H. unfold set_status. apply post_bind, post_get, H; [done..|]. intros d'. unfold mem_up, status_of. cbn.
  destruct (Z.eqb_spec d' d) as [->|Hne].
  - rewrite lookup_insert_eq. apply status_set.
  - by rewrite lookup_insert_ne.
Qed.

(** The rows written: those of [updates], in order. *)
Definition write_rows (updates : list ConfigUpdate) (c : gmap Z ConfigRow) : gmap Z ConfigRow :=
  foldl (λ c u, <[up_dbid u := config_row u]> c) c updates.

Lemma post_updates updates (Q : unit → World → Prop) w :
  (∀ w', probe_info w' = probe_info w → config w' = write_rows updates (config w) → Q tt w') →
  post (for_updates updates) Q w.
Proof.
  revert w. induction updates as [|u l IH]; intros w H; cbn [for_updates]; [by apply post_ret, H|].
  apply post_bind, post_update_row. intros w1 E1 E2. apply IH. intros w2 E3 E4.
  apply H; [congruence|]. by rewrite E4, E2.
Qed.

Lemma written_up p m (up um : bool) prole mrole palive malive insync c :
  p ≠ m → (up = false → row_up c p = palive) → (um = false → row_up c m = malive) →
  let c' := write_rows ((if up then [MkUpdate p prole palive insync] else []) ++
                        (if um then [MkUpdate m mrole malive insync] else [])) c in
  row_up c' p = palive ∧ row_up c' m = malive.
Proof.
  intros Hne Hp Hm. unfold row_up in *. destruct up, um; cbn [write_rows app foldl up_dbid];
    rewrite ?lookup_insert_eq, ?lookup_insert_ne, ?lookup_insert_eq, ?row_of_update by done; auto.
Qed.

Lemma update_view p m prole mrole insync palive malive w :
  dbid p ≠ dbid m →
  row_up (config w) (dbid p) = SEGMENT_IS_ALIVE p → row_up (config w) (dbid m) = SEGMENT_IS_ALIVE m →
  post (updateConfiguration p m prole mrole insync palive malive)
    (λ u w', moved [dbid p; dbid m] w w' ∧ (u = false → config w' = config w)) w.
Proof.
  intros Hne Hp Hm. unfold updateConfiguration. apply post_bind, post_assert. intros w1 F1.
  apply post_bind, post_assert. intros w2 F2.
  set (up := xorb palive (SEGMENT_IS_ALIVE p) || _). set (um := xorb malive (SEGMENT_IS_ALIVE m) || _).
  assert (frame w w2) as F by (by transitivity w1). destruct (up || um) eqn:Eu.
  2: { apply post_ret. split; [by apply frame_moved|]. intros _. apply F. }
  apply post_bind, post_updates. intros w3 I3 C3. apply post_bind, post_emit. intros w4 [C4 I4].
  apply post_bind, post_set_status. intros w5 V5 C5 M5. apply post_bind, post_set_status. intros w6 V6 C6 M6.
  apply post_ret. split; [|done]. destruct F as [FC FI].
  assert (∀ d, config w6 !! d = config w !! d ∨ d ∈ [dbid p; dbid m]) as Hother.
  { intros d. rewrite C6, C5, C4, C3, FC. destruct (decide (d ∈ [dbid p; dbid m])) as [|Hd]; [by right|left].
    destruct up, um; cbn; rewrite ?lookup_insert_ne; set_solver. }
  split; [unfold counters in *; congruence|]. split; [intros d Hd; by destruct (Hother d)|].
  intros d Ha. unfold agree. rewrite M6, M5, I4, I3, FI.
  assert (row_up (config w6) (dbid p) = palive ∧ row_up (config w6) (dbid m) = malive) as [Rp Rm].
  { rewrite C6, C5, C4, C3, FC. apply written_up; [done|rewrite Hp|rewrite Hm]; intros [E _]%orb_false_iff;
      [by destruct palive, (SEGMENT_IS_ALIVE p)|by destruct malive, (SEGMENT_IS_ALIVE m)]. }
  destruct (Z.eqb_spec d (dbid m)) as [->|]; [done|]. destruct (Z.eqb_spec d (dbid p)) as [->|]; [done|].
  destruct (Hother d) as [E|]; [|set_solver]. rewrite Ha. unfold row_up. by rewrite E.
Qed.

(** What processing a pair leaves: only its rows were written, and none if the result
    says so; then the pair is not fresh any more. *)
Definition processed (info : fts_segment_info) (u : bool) (w : World) (x : fts_segment_info * bool) (w' : World) : Prop :=
  moved (ids_of info) w w' ∧ fresh (state x.1) = false ∧ ids_of x.1 ≡ₚ ids_of info ∧
  (x.2 = false → u = false ∧ config w' = config w).

Lemma processed_update info u v w w1 w2 s info' :
  frame w w1 → moved (ids_of info) w1 w2 ∧ (v = false → config w2 = config w1) →
  fresh s = false → ids_of (set_state s info') ≡ₚ ids_of info →
  ∀ w3, frame w2 w3 → processed info u w (set_state s info', u || v) w3.
Proof.
  intros F1 [Hm Hc] Hs Hp w3 F3. split.
  { eapply moved_trans; [by apply frame_moved|]. eapply moved_trans; [done|by apply frame_moved]. }
  split; [done|]. split; [done|]. intros [-> ->]%orb_false_iff. split; [done|].
  destruct F1 as [C1 _], F3 as [C3 _]. rewrite C3, Hc by done. done.
Qed.

Lemma processed_frame info u w w' s : fresh s = false → frame w w' → processed info u w (set_state s info, u) w'.
Proof. intros Hs F. split; [by apply frame_moved|]. split; [done|]. split; [done|]. intros Hu. split; [done|apply F]. Qed.

Lemma pair_distinct info : NoDup (ids_of info) → dbid (primary_cdbinfo info) ≠ dbid (mirror_cdbinfo info).
Proof. intros [H _]%NoDup_cons E. apply H. rewrite E. by left. Qed.

Lemma probe_success_view info u w :
  NoDup (ids_of info) → fresh (state info) = true → info_ok w info →
  post (process_probe_success info u) (processed info u w) w.
Proof.
  intros Hnd Hf Hok. destruct (Hok Hf) as [Hp Hm]. unfold process_probe_success.
  pose proof (pair_distinct info Hnd) as Hne.
  apply post_bind, post_assert. intros w1 F1. assert (config w1 = config w) as C1 by apply F1.
  case_match; [case_match|case_match].
  - apply post_bind. eapply post_mono; [apply update_view; [done|by rewrite C1..]|]. intros v w2 H2.
    apply post_bind, post_assert. intros w3 F3. apply post_ret. by apply (processed_update _ _ _ _ w1 w2).
  - by apply post_ret, processed_frame.
  - do 5 (apply post_bind, post_assert; intros ? ?). apply post_ret, processed_frame; [done|].
    by do 5 (etransitivity; [eassumption|]).
  - apply post_bind. eapply post_mono; [apply update_view; [done|by rewrite C1..]|]. intros v w2 H2.
    apply post_ret. by apply (processed_update _ _ _ _ w1 w2).
Qed.

Lemma probe_failed_view info u w :
  NoDup (ids_of info) → fresh (state info) = true → info_ok w info →
  post (process_probe_failed info u) (processed info u w) w.
Proof.
  intros Hnd Hf Hok. destruct (Hok Hf) as [Hp Hm]. unfold process_probe_failed.
  pose proof (pair_distinct info Hnd) as Hne.
  case_match.
  { apply post_bind, post_assert. intros w1 F1. by apply post_ret, processed_frame. }
  apply post_bind, post_assert. intros w1 F1. case_match; [|by apply post_ret, processed_frame].
  apply post_bind, post_assert. intros w2 F2. assert (frame w w2) as F by (by transitivity w1).
  assert (config w2 = config w) as C2 by apply F.
  apply post_bind. eapply post_mono; [apply update_view; [done|by rewrite C2..]|]. intros v w3 H3.
  apply post_bind, post_assert. intros w4 F4. apply post_ret.
  change (set_pair (mirror_cdbinfo info) (primary_cdbinfo info) (set_state FTS_PROMOTE_SEGMENT info))
    with (set_state FTS_PROMOTE_SEGMENT (set_pair (mirror_cdbinfo info) (primary_cdbinfo info) info)).
  apply (processed_update _ _ _ _ w2 w3); try done. apply perm_swap.
Qed.

Lemma process_view r info u w :
  NoDup (ids_of info) → info_ok w info →
  post (process_segment r info u) (λ x w', moved (ids_of info) w w' ∧ info_ok w' x.1 ∧ ids_of x.1 ≡ₚ ids_of info ∧
    (x.2 = false → u = false ∧ config w' = config w)) w.
Proof.
  intros Hnd Hok. unfold process_segment. case_match eqn:Er.
  { apply post_ret. split; [by apply frame_moved|]. split_and!; done. }
  do 3 (apply post_bind, post_assert; intros ? ?). assert (frame w w'1) as F by (by do 2 (etransitivity; [eassumption|])).
  apply post_bind, (post_mono _ (processed info u w'1)).
  - assert (info_ok w'1 info) as Hok1 by (by eapply info_ok_frame).
    destruct (state info) eqn:Es; try (apply post_raise); try (by apply post_ret, processed_frame).
    + apply probe_success_view; [done|by rewrite Es|done].
    + apply probe_failed_view; [done|by rewrite Es|done].
  - intros [info' u'] w2 (Hm & Hf & Hp & Hc). apply post_bind, post_finish. intros w3 F3. apply post_ret. split.
    { eapply moved_trans; [by apply frame_moved|]. eapply moved_trans; [done|by apply frame_moved]. }
    split; [|split; [done|]].
    + intros Hf'. cbn in Hf, Hf'. congruence.
    + intros Hu. destruct (Hc Hu) as [-> Hcfg]. split; [done|]. destruct F as [C _], F3 as [C3 _]. by rewrite C3, Hcfg.
Qed.

(** ** The loops *)

Definition view (w : World) (l : list fts_segment_info) : Prop := NoDup (ids l) ∧ Forall (info_ok w) l.

Lemma kept_ids l l' : Forall2 kept l l' → ids l' = ids l.
Proof.
  induction 1 as [|a a' l l' (P & M & _) _ IH]; [done|]. unfold ids in *. cbn. by rewrite IH, P, M.
Qed.

Lemma view_kept w w' l l' : Forall2 kept l l' → frame w w' → view w l → view w' l'.
Proof.
  intros Hk F [Hn Hok]. split; [by rewrite (kept_ids l)|]. clear Hn.
  induction Hk as [|a a' l l' H _ IH]; [done|]. apply Forall_cons in Hok as [? ?].
  constructor; [by apply (info_ok_frame w _ a)|auto].
Qed.

Lemma view_moved w w' l js : view w l → moved js w w' → (∀ d, d ∈ ids l → d ∉ js) → view w' l.
Proof.
  intros [Hn Hok] Hm Hd. split; [done|]. clear Hn. induction Hok as [|a l Ha _ IH]; [done|].
  change (ids (a :: l)) with (ids_of a ++ ids l) in Hd. constructor.
  - apply (info_ok_moved w _ _ js); [done| |done]. intros d ?. apply Hd, elem_of_app. by left.
  - apply IH. intros d ?. apply Hd, elem_of_app. by right.
Qed.

Lemma for_segs_view f i l w :
  (∀ i, quiet (f i)) → post (for_segs f i l) (λ l' w', frame w w' ∧ Forall2 kept l l') w.
Proof.
  intros Hf. revert i w. induction l as [|a l IH]; intros i w; cbn [for_segs]; [by apply post_ret|].
  apply post_bind. eapply post_mono; [apply Hf|]. intros a' w1 [F1 K1]. apply post_bind. eapply post_mono; [apply IH|].
  intros l' w2 [F2 K2]. apply post_ret. split; [by transitivity w1|by constructor].
Qed.

Lemma poll_fds_kept n l : Forall2 kept l (poll_fds n l).2.
Proof.
  revert n. induction l as [|a l IH]; intros n; cbn [poll_fds]; [done|].
  case_match; [specialize (IH (n + 1))|specialize (IH n)]; case_match; by constructor.
Qed.

Lemma ftsPoll_view timeout e l w : post (ftsPoll timeout e l) (λ l' w', frame w w' ∧ Forall2 kept l l') w.
Proof.
  unfold ftsPoll. pose proof (poll_fds_kept 0 l) as Hk. destruct (poll_fds 0 l) as [fds l1].
  destruct fds; [by apply post_ret|]. destruct (e_poll e _) as [[nready eintr] revents].
  case_match; [apply post_raise|]. eapply post_mono; [apply for_segs_view; intros _; apply poll_quiet|].
  intros l' w' [F K]. split; [done|]. by transitivity l1.
Qed.

Lemma process_loop_view r e i l u w :
  view w l →
  post (process_loop r e i l u) (λ x w', moved (ids l) w w' ∧ view w' x.1 ∧ ids x.1 ≡ₚ ids l ∧
    (x.2 = false → u = false ∧ config w' = config w)) w.
Proof.
  revert i u w. induction l as [|a l IH]; intros i u w Hv; cbn [process_loop].
  { apply post_ret. split; [by apply frame_moved|done]. }
  apply post_bind, post_signal. intros w1 F1. apply post_bind, post_active. intros b.
  assert (view w1 (a :: l)) as [Hn Hok] by (by apply (view_kept w _ (a :: l))). destruct b.
  2: { apply post_ret. split; [by apply frame_moved|]. split_and!; [by split|done|]. intros Hu. split; [done|apply F1]. }
  change (ids (a :: l)) with (ids_of a ++ ids l) in *. apply NoDup_app in Hn as (Hna & Hdis & Hnl).
  apply Forall_cons in Hok as [Ha Hl]. apply post_bind. eapply post_mono; [by apply process_view|].
  intros [a' u1] w2 (M2 & Ha' & Pa & C2). apply post_bind. eapply post_mono.
  { apply IH. apply (view_moved w1 _ _ (ids_of a)); [by split|done|]. intros d Hd Hd'. by apply (Hdis d). }
  intros [l' u2] w3 (M3 & [Hn' Hl'] & Pl & C3). apply post_ret. cbn [fst snd] in *.
  split; [|split; [split|split]].
  - apply (moved_trans _ _ w1); [by apply frame_moved|]. apply (moved_trans _ _ w2).
    + apply (moved_mono (ids_of a)); [set_solver|done].
    + apply (moved_mono (ids l)); [set_solver|done].
  - change (NoDup (ids_of a' ++ ids l')). rewrite Pa, Pl. by apply NoDup_app.
  - constructor; [|done]. apply (info_ok_moved w2 _ _ (ids l)); [done| |done].
    intros d Hd. apply Hdis. by rewrite <- Pa.
  - change (ids_of a' ++ ids l' ≡ₚ ids_of a ++ ids l). by rewrite Pa, Pl.
  - intros Hu. destruct (C3 Hu) as [Hu1 E3]. destruct (C2 Hu1) as [-> E2]. split; [done|]. rewrite E3, E2. apply F1.
Qed.

Section Rounds.
Context (r timeout : Z).

Lemma iteration_view e l w :
  view w l →
  post (fts_iteration r timeout e l) (λ x w', moved (ids l) w w' ∧ view w' x.1 ∧ ids x.1 ≡ₚ ids l ∧
    (x.2 = false → config w' = config w)) w.
Proof.
  intros Hv. unfold fts_iteration, ftsConnect, ftsSend, ftsReceive, processRetry, processResponse.
  assert (∀ f l0 (g : _ → M (list fts_segment_info * bool)) Q w0,
    frame w w0 → Forall2 kept l l0 → (∀ i, quiet (f i)) →
    (∀ l1 w1, frame w w1 → Forall2 kept l l1 → post (g l1) Q w1) → post (for_segs f 0 l0 ≫= g) Q w0) as Hstage.
  { intros f l0 g Q w0 F0 K0 Hf Hg. apply post_bind. eapply post_mono; [by apply for_segs_view|].
    intros l1 w1 [F1 K1]. apply Hg; [by transitivity w0|by transitivity l0]. }
  apply Hstage; [done|reflexivity|intros; apply connect_quiet|]. intros l1 w1 F1 K1.
  apply post_bind. eapply post_mono; [apply ftsPoll_view|]. intros l2 w2 [F2 K2].
  apply Hstage; [by transitivity w1|by transitivity l1|intros; apply send_quiet|]. intros l3 w3 F3 K3.
  apply Hstage; [done|done|intros; apply receive_quiet|]. intros l4 w4 F4 K4.
  apply Hstage; [done|done|intros; apply retry_quiet|]. intros l5 w5 F5 K5.
  eapply post_mono; [by apply process_loop_view, (view_kept w _ l)|]. intros x w6 (M6 & V6 & P6 & C6).
  rewrite (kept_ids l l5 K5) in M6, P6. split; [|split; [done|split; [done|]]].
  - by apply (moved_trans _ _ w5); [apply frame_moved|].
  - intros Hu. destruct (C6 Hu) as [_ ->]. apply F5.
Qed.

Lemma message_loop_view envs l u w :
  view w l →
  post (message_loop r timeout envs l u) (λ x w', moved (ids l) w w' ∧
    ∀ l' u', x = Some (l', u') → u' = false → u = false ∧ config w' = config w) w.
Proof.
  revert l u w. induction envs as [|e envs IH]; intros l u w Hv; cbn [message_loop].
  - case_match; [by apply post_ret; split; [by apply frame_moved|intros l' u' [= <- <-] ->]|].
    apply post_bind, post_active. intros b. apply post_ret. split; [by apply frame_moved|].
    destruct b; [done|]. by intros l' u' [= <- <-] ->.
  - case_match; [by apply post_ret; split; [by apply frame_moved|intros l' u' [= <- <-] ->]|].
    apply post_bind, post_signal. intros w1 F1. apply post_bind, post_active. intros b. destruct b.
    2: { apply post_ret. split; [by apply frame_moved|]. intros l' u' [= <- <-] ->. split; [done|apply F1]. }
    apply post_bind. eapply post_mono; [by apply iteration_view, (view_kept w _ l)|].
    intros [l2 u2] w2 (M2 & V2 & P2 & C2). eapply post_mono; [by apply IH|]. intros x w3 [M3 C3]. split.
    + apply (moved_trans _ _ w1); [by apply frame_moved|]. apply (moved_trans _ _ w2); [done|].
      apply (moved_mono (ids l2)); [|done]. intros d. by rewrite P2.
    + intros l' u' Ex Eu. destruct (C3 l' u' Ex Eu) as [[-> E2]%orb_false_iff E3]. split; [done|].
      rewrite E3, C2 by done. apply F1.
Qed.

Lemma cycle_view cdbs envs w l n w0 :
  FtsWalRepInitProbeContext cdbs w = Ok ((n, l), w0) → frame w w0 → view w l →
  post (FtsWalRepMessageSegments r timeout envs cdbs) (λ x w', moved (ids l) w w' ∧
    (x = Some false → config w' = config w)) w.
Proof.
  intros Ei F0 Hv. unfold FtsWalRepMessageSegments. apply post_bind. unfold post at 1. rewrite Ei.
  case_match; [apply post_raise|]. apply post_bind.
  eapply post_mono; [apply message_loop_view, (view_kept w _ l); [reflexivity|done|done]|].
  intros x w1 [M1 C1]. assert (moved (ids l) w w1) as M by (by eapply moved_trans; [apply frame_moved|]).
  destruct x as [[l1 u1]|]; [|by apply post_ret]. apply post_bind, post_active. intros b. apply post_bind.
  apply (post_mono _ (λ _ w2, frame w1 w2)).
  { destruct b; [by apply post_ret|]. eapply post_mono; [apply for_segs_view; intros; apply close_quiet|]. by intros ? ? []. }
  intros l2 w2 F2. apply post_bind, post_assert. intros w3 F3. apply post_ret. split.
  - apply (moved_trans _ _ w1); [done|]. apply frame_moved. by transitivity w2.
  - intros [= ->]. destruct (C1 l1 false eq_refl eq_refl) as [_ E]. destruct F0 as [C0 _], F2 as [C2 _], F3 as [C3 _]. congruence.
Qed.

End Rounds.

(** ** The beginning of a round *)

(** No dbid occurs twice, and no content has two primaries. *)
Record cdbs_distinct (cdbs : CdbComponentDatabases) : Prop := MkDistinct {
  cd_dbid : NoDup (dbid <$> segment_db_info cdbs);
  cd_primary : ∀ a b, a ∈ segment_db_info cdbs → b ∈ segment_db_info cdbs →
    SEGMENT_IS_ACTIVE_PRIMARY a = true → SEGMENT_IS_ACTIVE_PRIMARY b = true → segindex a = segindex b → a = b }.

Definition pair_info (cdbs : CdbComponentDatabases) (p : CdbComponentDatabaseInfo) : option fts_segment_info :=
  if SEGMENT_IS_ACTIVE_PRIMARY p then init_info p <$> FtsGetPeerSegment cdbs (segindex p) (dbid p) else None.

Lemma init_loop_pairs cdbs l n i w :
  post (init_loop cdbs l n i) (λ x w', frame w w' ∧ x.2 = omap (pair_info cdbs) l) w.
Proof.
  revert n i w. induction l as [|p l IH]; intros n i w; cbn [init_loop omap list_omap]; [by apply post_ret|].
  unfold pair_info at 1. destruct (SEGMENT_IS_ACTIVE_PRIMARY p); cbn [negb]; [|apply IH].
  destruct (FtsGetPeerSegment cdbs (segindex p) (dbid p)) as [m|]; cbn; [|apply IH].
  apply post_bind, post_assert. intros w1 F1. apply post_bind, post_assert. intros w2 F2. apply post_bind.
  eapply post_mono; [apply IH|]. intros [n' infos] w3 [F3 E]. apply post_ret. cbn in *. split; [|by rewrite E].
  by do 2 (etransitivity; [eassumption|]).
Qed.

Lemma peer_spec cdbs p m :
  FtsGetPeerSegment cdbs (segindex p) (dbid p) = Some m →
  m ∈ segment_db_info cdbs ∧ segindex m = segindex p ∧ dbid m ≠ dbid p.
Proof.
  unfold FtsGetPeerSegment. intros [H1 [H2%Z.eqb_eq H3%negb_true_iff%Z.eqb_neq]%andb_true_iff]%find_some.
  by apply list_elem_of_In in H1.
Qed.

Lemma u8_succ_ne v : 0 <= v < 256 → u8 (v + 1) ≠ v.
Proof.
  intros Hv. unfold u8. change (2 ^ 8) with 256. destruct (decide (v = 255)) as [->|]; [done|].
  rewrite Z.mod_small; lia.
Qed.

Section Start.
Context (cdbs : CdbComponentDatabases) (Hd : cdbs_distinct cdbs).

Lemma dbid_inj a b : a ∈ segment_db_info cdbs → b ∈ segment_db_info cdbs → dbid a = dbid b → a = b.
Proof.
  intros [i Hi]%list_elem_of_lookup_1 [j Hj]%list_elem_of_lookup_1 E.
  assert (i = j) as ->; [|congruence].
  eapply NoDup_lookup; [apply (cd_dbid _ Hd)|rewrite list_lookup_fmap, Hi; done|].
  rewrite list_lookup_fmap, Hj. cbn. by rewrite E.
Qed.

Lemma pair_ids_content p info d :
  p ∈ segment_db_info cdbs → pair_info cdbs p = Some info → d ∈ ids_of info →
  SEGMENT_IS_ACTIVE_PRIMARY p = true ∧ ∃ s, s ∈ segment_db_info cdbs ∧ dbid s = d ∧ segindex s = segindex p.
Proof.
  unfold pair_info. destruct (SEGMENT_IS_ACTIVE_PRIMARY p); [|done]. intros Hp.
  destruct (FtsGetPeerSegment cdbs (segindex p) (dbid p)) as [m|] eqn:Em; [|done].
  apply peer_spec in Em as (Hm & Es & _). intros [= <-] H. unfold ids_of in H. cbn in H. split; [done|].
  apply elem_of_cons in H as [->|[->|[]%elem_of_nil]%elem_of_cons]; [by exists p|by exists m].
Qed.

Lemma pairs_nodup l :
  (∀ s, s ∈ l → s ∈ segment_db_info cdbs) → NoDup l → NoDup (ids (omap (pair_info cdbs) l)).
Proof.
  induction l as [|p l IH]; intros Hl Hn; [constructor|]. apply NoDup_cons in Hn as [Hp Hn]. cbn [omap list_omap].
  specialize (IH (λ s H, Hl s (list_elem_of_further _ _ _ H)) Hn).
  destruct (pair_info cdbs p) as [info|] eqn:Ep; [|done]. change (NoDup (ids_of info ++ ids (omap (pair_info cdbs) l))).
  apply NoDup_app. split; [|split; [|done]].
  - unfold pair_info in Ep. destruct (SEGMENT_IS_ACTIVE_PRIMARY p); [|done].
    destruct (FtsGetPeerSegment cdbs (segindex p) (dbid p)) as [m|] eqn:Em; [|done].
    injection Ep as <-. apply peer_spec in Em as (_ & _ & Hne). unfold ids_of. cbn.
    apply NoDup_cons. split; [|apply NoDup_singleton]. intros E%list_elem_of_singleton. by rewrite E in Hne.
  - intros d Hd1 Hd2. apply list_elem_of_In, in_flat_map in Hd2 as (info' & Hin & Hd2).
    apply list_elem_of_In, list_elem_of_omap in Hin as (q & Hq & Eq). apply list_elem_of_In in Hd2.
    assert (p ∈ segment_db_info cdbs ∧ q ∈ segment_db_info cdbs) as [Hp' Hq'] by (split; apply Hl; [left|by right]).
    destruct (pair_ids_content p info d Hp' Ep Hd1) as (Pp & s & Hs & E1 & E2).
    destruct (pair_ids_content q info' d Hq' Eq Hd2) as (Pq & s' & Hs' & E3 & E4).
    assert (s = s') as -> by (apply dbid_inj; [done|done|congruence]).
    apply Hp. rewrite (cd_primary _ Hd p q); [done..|congruence].
Qed.

Lemma start_view w l w0 n :
  (∀ s, s ∈ segment_db_info cdbs → in_catalog (config w) s) →
  FtsWalRepInitProbeContext cdbs w = Ok ((n, l), w0) → frame w w0 ∧ view w l.
Proof.
  intros Hc E. pose proof (init_loop_pairs cdbs (segment_db_info cdbs) (total_segments cdbs) 0 w) as H.
  unfold post in H. unfold FtsWalRepInitProbeContext in E. rewrite E in H. destruct H as [F H]. cbn in H. subst l.
  split; [done|]. split.
  - apply pairs_nodup; [done|]. apply (NoDup_fmap_1 dbid), (cd_dbid _ Hd).
  - apply Forall_forall. intros info Hin _. apply list_elem_of_omap in Hin as (p & Hp & Ep). unfold pair_info in Ep.
    destruct (SEGMENT_IS_ACTIVE_PRIMARY p); [|done].
    destruct (FtsGetPeerSegment cdbs (segindex p) (dbid p)) as [m|] eqn:Em; [|done].
    injection Ep as <-. apply peer_spec in Em as (Hm & _). unfold row_up, SEGMENT_IS_ALIVE. cbn.
    by rewrite (Hc p Hp), (Hc m Hm).
Qed.

Lemma read_status l st d :
  (∀ s, s ∈ l → s ∈ segment_db_info cdbs) →
  update_status l st !! d =
    match find (λ s, dbid s =? d) l with
    | Some s => Some (if SEGMENT_IS_ALIVE s then FTS_STATUS_SET_UP 0 else 0)
    | None => st !! d
    end.
Proof.
  revert st. induction l as [|a l IH]; intros st Hl; cbn; [done|].
  rewrite IH by (intros s Hs; apply Hl; by right).
  destruct (find (λ s, dbid s =? d) l) as [b|] eqn:Eb.
  - destruct (Z.eqb_spec (dbid a) d) as [Ea|]; [|done]. apply find_some in Eb as [Hb Eb%Z.eqb_eq].
    apply list_elem_of_In in Hb. by rewrite (dbid_inj a b); [|apply Hl; left|apply Hl; right|congruence].
  - destruct (Z.eqb_spec (dbid a) d) as [<-|]; [by rewrite lookup_insert_eq|by rewrite lookup_insert_ne].
Qed.

(** Reading the configuration makes the copies agree. *)
Lemma read_view w :
  (∀ s, s ∈ segment_db_info cdbs → in_catalog (config w) s) →
  post (readCdbComponentInfoAndUpdateStatus cdbs) (λ _ w1, config w1 = config w ∧
    counters w1 = (if fts_statusVersion (probe_info w) =? 0 then 1 else fts_statusVersion (probe_info w), probeTick (probe_info w)) ∧
    ∀ s, s ∈ segment_db_info cdbs → agree w1 (dbid s)) w.
Proof.
  intros Hc. unfold readCdbComponentInfoAndUpdateStatus. apply post_bind, post_get. split; [done|]. split.
  { unfold counters. cbn. by destruct (Z.eqb_spec (fts_statusVersion (probe_info w)) 0) as [->|]. }
  intros s Hs. unfold agree, mem_up, status_of. cbn [probe_info fts_status config]. rewrite read_status by done.
  destruct (find (λ s', dbid s' =? dbid s) (segment_db_info cdbs)) as [b|] eqn:Eb.
  - apply find_some in Eb as [Hb%list_elem_of_In Eb%Z.eqb_eq]. rewrite (dbid_inj b s) by done. unfold row_up.
    cbn. rewrite (Hc s Hs). cbn. unfold SEGMENT_IS_ALIVE. by case_match.
  - apply list_elem_of_In, (find_none _ _ Eb) in Hs. by rewrite Z.eqb_refl in Hs.
Qed.

Lemma post_bump (Q : unit → World → Prop) w :
  (∀ w', config w' = config w → (∀ d, mem_up (probe_info w') d = mem_up (probe_info w) d) →
     counters w' = (u8 (fts_statusVersion (probe_info w) + 1), probeTick (probe_info w)) → Q tt w') → post bump_version Q w.
Proof. intros H. by apply H. Qed.
Lemma post_tick (Q : unit → World → Prop) w :
  (∀ w', config w' = config w → (∀ d, mem_up (probe_info w') d = mem_up (probe_info w) d) →
     counters w' = (fts_statusVersion (probe_info w), u8 (probeTick (probe_info w) + 1)) → Q tt w') → post bump_tick Q w.
Proof. intros H. by apply H. Qed.

(** What a round does to the copies, the version and the tick. *)
Definition round_ok (w : World) (x : option unit) (w' : World) : Prop :=
  let v := if fts_statusVersion (probe_info w) =? 0 then 1 else fts_statusVersion (probe_info w) in
  let t := probeTick (probe_info w) in
  (∀ s, s ∈ segment_db_info cdbs → agree w' (dbid s)) ∧
  match x with
  | None => counters w' = (v, t)
  | Some _ => (counters w' = (v, u8 (t + 1)) ∧ config w' = config w) ∨ counters w' = (u8 (v + 1), u8 (t + 1))
  end.

Lemma round_view r timeout has_mirrors skip envs w :
  (∀ s, s ∈ segment_db_info cdbs → in_catalog (config w) s) →
  post (FtsLoop_round r timeout cdbs has_mirrors skip envs) (round_ok w) w.
Proof.
  intros Hc. unfold FtsLoop_round. apply post_bind. eapply post_mono; [by apply read_view|].
  intros _ w1 (C1 & V1 & A1). unfold round_ok. set (v := if _ =? 0 then _ else _) in *. clearbody v.
  set (t := probeTick (probe_info w)) in *. clearbody t. apply post_bind.
  apply (post_mono _ (λ (ended : bool) w2, (∀ s, s ∈ segment_db_info cdbs → agree w2 (dbid s)) ∧
    ((counters w2 = (v, t) ∧ (ended = true → config w2 = config w)) ∨ (ended = true ∧ counters w2 = (u8 (v + 1), t))))).
  - case_match; [by apply post_ret; auto|]. apply post_bind.
    destruct (FtsWalRepInitProbeContext cdbs w1) as [[[n l] w0]|msg] eqn:Ei.
    2: { unfold post, FtsWalRepMessageSegments, mbind, M_bind. by rewrite Ei. }
    destruct (start_view w1 l w0 n) as [F0 Hv]; [by rewrite C1|done|].
    eapply post_mono; [by eapply cycle_view|]. intros x w2 ((V2 & _ & A2) & C2). rewrite V1 in V2.
    destruct x as [[]|].
    + apply post_bind, post_bump. intros w3 C3 M3 V3. apply post_ret. split; [intros s Hs; unfold agree; rewrite C3, M3; by apply A2, A1|]. right. split; [done|]. rewrite V3. unfold counters in V2. by simplify_eq.
    + apply post_ret. split; [by auto|]. left. split; [done|]. intros _. by rewrite C2.
    + apply post_ret. split; [by auto|]. by left.
  - intros ended w2 [A2 H2]. destruct ended; [|apply post_ret; split; [done|naive_solver]].
    apply post_bind, post_tick. intros w3 C3 M3 V3. apply post_ret.
    split; [intros s Hs; unfold agree; rewrite C3, M3; by apply A2|]. rewrite V3, C3. unfold counters in H2.
    destruct H2 as [[E H2]|[_ E]]; injection E as -> ->; [left|right]; auto.
Qed.

Lemma round_result r timeout has_mirrors skip envs w x w' :
  (∀ s, s ∈ segment_db_info cdbs → in_catalog (config w) s) →
  FtsLoop_round r timeout cdbs has_mirrors skip envs w = Ok (x, w') → round_ok w x w'.
Proof. intros Hc E. pose proof (round_view r timeout has_mirrors skip envs w Hc) as H. unfold post in H. by rewrite E in H. Qed.

End Start.

(** ** The properties of a round *)

(** C9: the dispatcher sees the catalog.  After a round of [FtsLoop], whatever the
    segments, libpq, poll() and the clock answered, [FtsIsSegmentUp] says of every
    segment that was read from the catalog at the beginning of the round what the
    catalog says now, as long as the version is not 0. *)
Theorem fts_dispatcher_sees_catalog r timeout cdbs has_mirrors skip envs w x w' s :
  cdbs_ok (config w) cdbs → cdbs_distinct cdbs →
  FtsLoop_round r timeout cdbs has_mirrors skip envs w = Ok (x, w') →
  s ∈ segment_db_info cdbs → segindex s ≠ MASTER_SEGMENT_ID →
  FtsIsSegmentUp (probe_info w') s = (getFtsVersion (probe_info w') =? 0) || row_up (config w') (dbid s).
Proof.
  intros Hok Hd E Hs Hm. destruct (round_result cdbs Hd r timeout has_mirrors skip envs w x w' (co_catalog _ _ Hok) E) as [Ha _].
  specialize (Ha s Hs). unfold FtsIsSegmentUp, getFtsVersion. rewrite (proj2 (Z.eqb_neq _ _) Hm).
  destruct (fts_statusVersion (probe_info w') =? 0); [done|]. apply Ha.
Qed.

(** the version tells of every change.  A round that ends moves the tick, so that
    who waits in [FtsNotifyProber] for it goes on; a version of 0 becomes 1 first, and
    a round that changed the catalog adds one, so that a dispatcher that compares
    versions notices. *)
Theorem fts_version_tells_changes r timeout cdbs has_mirrors skip envs w w' :
  cdbs_ok (config w) cdbs → cdbs_distinct cdbs →
  0 <= fts_statusVersion (probe_info w) < 256 → 0 <= probeTick (probe_info w) < 256 →
  FtsLoop_round r timeout cdbs has_mirrors skip envs w = Ok (Some tt, w') →
  let v := Z.max 1 (fts_statusVersion (probe_info w)) in
  notify_done (probeTick (probe_info w)) (probe_info w') = true ∧
  (getFtsVersion (probe_info w') = v ∨ getFtsVersion (probe_info w') = u8 (v + 1)) ∧
  (config w' ≠ config w → getFtsVersion (probe_info w') ≠ v).
Proof.
  intros Hok Hd Hv Ht E v. destruct (round_result cdbs Hd r timeout has_mirrors skip envs w _ w' (co_catalog _ _ Hok) E) as [_ H].
  unfold counters, getFtsVersion, notify_done in *. cbv zeta in H.
  replace (if fts_statusVersion (probe_info w) =? 0 then 1 else fts_statusVersion (probe_info w)) with v in H
    by (subst v; destruct (Z.eqb_spec (fts_statusVersion (probe_info w)) 0); lia).
  assert (u8 (probeTick (probe_info w) + 1) ≠ probeTick (probe_info w)) as Hne by apply u8_succ_ne, Ht.
  assert (u8 (v + 1) ≠ v) as Hnv by (apply u8_succ_ne; lia).
  destruct H as [[H Hc]|H]; injection H as -> ->; (split; [by apply negb_true_iff, Z.eqb_neq|]); auto.
Qed.

(** C34: the version wraps to its reserved value.  The version is a uint8 and 0 means
    that the status was never initialized, for which [FtsIsSegmentUp] says that every
    segment is up.  Whenever a round changes the catalog while the version is 255, the
    version becomes 0, and until the next round the dispatcher takes every segment for up:
    also one that the catalog has down, and although the status in shared memory has it
    down too. *)
Theorem fts_version_wraps_hides_failure r timeout cdbs has_mirrors skip envs w w' :
  cdbs_ok (config w) cdbs → cdbs_distinct cdbs → getFtsVersion (probe_info w) = 255 →
  FtsLoop_round r timeout cdbs has_mirrors skip envs w = Ok (Some tt, w') → config w' ≠ config w →
  getFtsVersion (probe_info w') = 0 ∧
  FtsTestSegmentDBIsDown (probe_info w') (segment_db_info cdbs) = false ∧
  ∀ s, s ∈ segment_db_info cdbs → row_up (config w') (dbid s) = false →
    FtsIsSegmentUp (probe_info w') s = true ∧ FTS_STATUS_IS_UP (status_of (probe_info w') (dbid s)) = false.
Proof.
  intros Hok Hd Hv E Hne. destruct (round_result cdbs Hd r timeout has_mirrors skip envs w _ w' (co_catalog _ _ Hok) E) as [Ha H].
  assert (getFtsVersion (probe_info w') = 0) as Hv'.
  { unfold counters, getFtsVersion in *. rewrite Hv in H. destruct H as [[_ H]|H]; [by destruct Hne|]. injection H as -> _. reflexivity. }
  assert (∀ s, FtsIsSegmentUp (probe_info w') s = true) as Hup.
  { intros s. unfold FtsIsSegmentUp. unfold getFtsVersion in Hv'. rewrite Hv'. by destruct (segindex s =? MASTER_SEGMENT_ID). }
  split; [done|]. split.
  - unfold FtsTestSegmentDBIsDown. apply not_true_is_false. intros (s & _ & Hs)%existsb_exists. by rewrite Hup in Hs.
  - intros s Hs Hdown. split; [done|]. specialize (Ha s Hs). unfold agree, mem_up in Ha. by rewrite Ha.
Qed.

Definition sample_round : World := final_world (FtsLoop_round 0 20 sample_cdbs true false sample_envs sample_world).

Lemma sample_distinct : cdbs_distinct sample_cdbs.
Proof.
  split.
  - vm_compute. repeat constructor; set_solver.
  - intros a b [->|[->|[]%elem_of_nil]%elem_of_cons]%elem_of_cons [->|[->|[]%elem_of_nil]%elem_of_cons]%elem_of_cons; done.
Qed.

Lemma fts_dispatcher_sees_catalog_witness :
  FtsIsSegmentUp (probe_info sample_round) (MkCdb 2 0 "p" "s" "u") =
  (getFtsVersion (probe_info sample_round) =? 0) || row_up (config sample_round) 2.
Proof.
  apply (fts_dispatcher_sees_catalog 0 20 sample_cdbs true false sample_envs sample_world (Some tt) sample_round
    (MkCdb 2 0 "p" "s" "u") sample_ok sample_distinct); [vm_compute; reflexivity|by left|done].
Defined.

Lemma fts_version_wraps_hides_failure_witness :
  row_up (config sample_round) 2 = false ∧ getFtsVersion (probe_info sample_round) = 0 ∧
  FtsIsSegmentUp (probe_info sample_round) (MkCdb 2 0 "p" "s" "u") = true.
Proof.
  assert (row_up (config sample_round) 2 = false) as E by (vm_compute; reflexivity).
  destruct (fts_version_wraps_hides_failure 0 20 sample_cdbs true false sample_envs sample_world sample_round sample_ok sample_distinct)
    as (H1 & _ & H2); [reflexivity|vm_compute; reflexivity|vm_compute; discriminate|].
  split; [exact E|]. split; [exact H1|]. apply (H2 (MkCdb 2 0 "p" "s" "u")); [by left|exact E].
Defined.

Lemma fts_version_tells_changes_witness :
  notify_done 7 (probe_info sample_round) = true ∧
  (getFtsVersion (probe_info sample_round) = 255 ∨ getFtsVersion (probe_info sample_round) = u8 256) ∧
  (config sample_round ≠ config sample_world → getFtsVersion (probe_info sample_round) ≠ 255).
Proof.
  apply (fts_version_tells_changes 0 20 sample_cdbs true false sample_envs sample_world sample_round sample_ok sample_distinct);
    [cbn; lia|cbn; lia|vm_compute; reflexivity].
Defined.

End FtsView.
