(* ===== verification/Pglz.v ===== *)
(** The LZ compression of TOASTed values: src/src/backend/utils/adt/pg_lzcompress.c.

    Bytes are [Z]s from 0 to 255, positions in the input and the output are
    numbers.  The history table is an array of entries that point to each other by
    index; an array of pointers is a map in which NULL is absent.  The memory a
    function may touch is explicit: a store outside of the output area is the
    error [wild_store], bytes before and after an area are given as functions, and
    the entries left over from earlier calls are an argument.  Macros with effects
    are functions on the variables they change. *)

From Stdlib Require Import ZArith Lia.
From stdpp Require Import base gmap list option numbers strings.
From S2P Require Import Prelude.

Module Pglz.

Definition PGLZ_HISTORY_LISTS : Z := 8192.
Definition PGLZ_HISTORY_MASK : Z := PGLZ_HISTORY_LISTS - 1.
Definition PGLZ_HISTORY_SIZE : nat := 4096.
Definition PGLZ_MAX_MATCH : nat := 273.
Definition INT_MAX : Z := 2147483647.

(** ** Headers and strategies *)

(** The header word of a varlena is kept in host order; [data] is the memory after
    the header. *)
Record PGLZ_Header := MkHeader { vl_len_ : Z; rawsize : Z; data : list Z }.
Definition sizeof_header : Z := 8.
Definition PGLZ_MAX_OUTPUT (dlen : Z) : Z := dlen + 4 + sizeof_header.
Definition PGLZ_RAW_SIZE (lzdata : PGLZ_Header) : Z := rawsize lzdata.

Definition SET_VARSIZE_4B_C (len : Z) : Z := Z.lor (Z.land len 0x3FFFFFFF) 0x40000000.
Definition VARSIZE_4B (header : Z) : Z := Z.land header 0x3FFFFFFF.

Record PGLZ_Strategy := MkStrategy {
  min_input_size : Z; max_input_size : Z; min_comp_rate : Z; first_success_by : Z;
  match_size_good : Z; match_size_drop : Z }.
Definition strategy_default_data : PGLZ_Strategy := MkStrategy 32 INT_MAX 25 1024 128 10.
Definition strategy_always_data : PGLZ_Strategy := MkStrategy 0 INT_MAX 0 INT_MAX 128 6.

(** ** The history *)

Record PGLZ_HistEntry := MkEntry { next : option nat; prev : option nat; hindex : Z; pos : nat }.
Definition no_entry : PGLZ_HistEntry := MkEntry None None 0 0.

Record History := MkHistory {
  hist_start : gmap Z nat; hist_entries : gmap nat PGLZ_HistEntry; hist_next : nat; hist_recycle : bool }.

Definition entry (he : gmap nat PGLZ_HistEntry) (i : nat) : PGLZ_HistEntry := default no_entry (he !! i).
Definition set_start (hs : gmap Z nat) (i : Z) (p : option nat) : gmap Z nat :=
  match p with Some e => <[i := e]> hs | None => delete i hs end.
Definition set_next (he : gmap nat PGLZ_HistEntry) (i : nat) (p : option nat) : gmap nat PGLZ_HistEntry :=
  let e := entry he i in <[i := MkEntry p (prev e) (hindex e) (pos e)]> he.
Definition set_prev (he : gmap nat PGLZ_HistEntry) (i : nat) (p : option nat) : gmap nat PGLZ_HistEntry :=
  let e := entry he i in <[i := MkEntry (next e) p (hindex e) (pos e)]> he.

(** A char is signed. *)
Definition s8 (z : Z) : Z := if z <? 128 then z else z - 256.

Section Compress.
Context (source : list Z).
Definition slen : nat := length source.

(** The slot of the input at [s]. *)
Definition pglz_hist_idx (s : nat) : Z :=
  Z.land
    (if Z.of_nat slen - Z.of_nat s <? 4 then s8 source.[s]
     else Z.lxor (Z.lxor (Z.lxor (Z.shiftl (s8 source.[s]) 9) (Z.shiftl (s8 source.[s + 1]) 6))
                  (Z.shiftl (s8 source.[s + 2]) 3)) (s8 source.[s + 3]))
    PGLZ_HISTORY_MASK.

(** Take entry [i] out of the list it is in. *)
Definition hist_delink (i : nat) (hs : gmap Z nat) (he : gmap nat PGLZ_HistEntry)
    : gmap Z nat * gmap nat PGLZ_HistEntry :=
  let my := entry he i in
  let '(hs, he) :=
    match prev my with
    | None => (set_start hs (hindex my) (next my), he)
    | Some p => (hs, set_next he p (next my))
    end in
  let my := entry he i in
  match next my with
  | Some n => (hs, set_prev he n (prev my))
  | None => (hs, he)
  end.

Definition pglz_hist_add (h : History) (s : nat) : History :=
  let hi := pglz_hist_idx s in
  let i := hist_next h in
  let '(hs, he) :=
    if hist_recycle h then hist_delink i (hist_start h) (hist_entries h) else (hist_start h, hist_entries h) in
  let he := <[i := MkEntry (hs !! hi) None hi s]> he in
  let he := match hs !! hi with Some e => set_prev he e (Some i) | None => he end in
  let hs := <[hi := i]> hs in
  if (PGLZ_HISTORY_SIZE <=? S i)%nat then MkHistory hs he 0 true else MkHistory hs he (S i) (hist_recycle h).

(** [while (ip < end && *ip == *hp && thislen < PGLZ_MAX_MATCH)]; [n] more bytes may match. *)
Fixpoint match_loop (n ip hp thislen : nat) : nat :=
  match n with
  | O => thislen
  | S n =>
      if (ip <? slen)%nat && (source.[ip] =? source.[hp]) then match_loop n (S ip) (S hp) (S thislen) else thislen
  end.

Definition memcmp_eq (ip hp len : nat) : bool :=
  bool_decide (take len (drop ip source) = take len (drop hp source)).

Definition match_at (ip hp len : nat) : nat :=
  if (16 <=? len)%nat then
    if memcmp_eq ip hp len then match_loop (PGLZ_MAX_MATCH - len) (ip + len) (hp + len) len else 0
  else match_loop PGLZ_MAX_MATCH ip hp 0.

(** The walk along a list of the history; [None]: not at its end after [fuel] entries. *)
Fixpoint find_loop (he : gmap nat PGLZ_HistEntry) (input : nat) (good_drop : Z) (fuel : nat)
    (hent : option nat) (len : nat) (off good_match : Z) : option (nat * Z) :=
  match hent with
  | None => Some (len, off)
  | Some e =>
      match fuel with
      | O => None
      | S fuel =>
          let thisoff := Z.of_nat input - Z.of_nat (pos (entry he e)) in
          if 0x0fff <=? thisoff then Some (len, off)
          else
            let thislen := match_at input (pos (entry he e)) len in
            let '(len, off) := if (len <? thislen)%nat then (thislen, thisoff) else (len, off) in
            match next (entry he e) with
            | None => Some (len, off)
            | Some e' =>
                if good_match <=? Z.of_nat len then Some (len, off)
                else find_loop he input good_drop fuel (Some e') len off (good_match - good_match * good_drop / 100)
            end
      end
  end.

(** The match, if there is one of at least three bytes. *)
Definition pglz_find_match (h : History) (input : nat) (good_match good_drop : Z) : option (option (nat * Z)) :=
  '(len, off) ← find_loop (hist_entries h) input good_drop PGLZ_HISTORY_SIZE
                  (hist_start h !! pglz_hist_idx input) 0 0 good_match;
  Some (if (2 <? len)%nat then Some (len, off) else None).

(** ** The output *)

(** [ctrlp] is [None] while it points to [ctrl_dummy]. *)
Record Out := MkOut { buf : list Z; bp : nat; ctrlp : option nat; ctrlb : Z; ctrl : Z }.

Definition wild_store : string := "store outside of the output area".
Definition store (b : list Z) (i : nat) (v : Z) : result (list Z) :=
  if (i <? length b)%nat then Ok (<[i := v]> b) else Err wild_store.
Definition store_ctrl (o : Out) : result (list Z) :=
  match ctrlp o with Some i => store (buf o) i (ctrlb o) | None => Ok (buf o) end.

Definition pglz_out_ctrl (o : Out) : result Out :=
  if Z.land (ctrl o) 255 =? 0 then
    b ← store_ctrl o;
    Ok (MkOut b (S (bp o)) (Some (bp o)) 0 1)
  else Ok o.

Definition pglz_out_literal (o : Out) (byte : Z) : result Out :=
  o ← pglz_out_ctrl o;
  b ← store (buf o) (bp o) (u8 byte);
  Ok (MkOut b (S (bp o)) (ctrlp o) (ctrlb o) (u8 (Z.shiftl (ctrl o) 1))).

Definition pglz_out_tag (o : Out) (len off : Z) : result Out :=
  o ← pglz_out_ctrl o;
  let ctrlb := Z.lor (ctrlb o) (ctrl o) in
  let ctrl := u8 (Z.shiftl (ctrl o) 1) in
  if 17 <? len then
    b ← store (buf o) (bp o) (u8 (Z.lor (Z.shiftr (Z.land off 0xf00) 4) 0x0f));
    b ← store b (bp o + 1) (u8 (Z.land off 0xff));
    b ← store b (bp o + 2) (u8 (len - 18));
    Ok (MkOut b (bp o + 3) (ctrlp o) ctrlb ctrl)
  else
    b ← store (buf o) (bp o) (u8 (Z.lor (Z.shiftr (Z.land off 0xf00) 4) (len - 3)));
    b ← store b (bp o + 1) (u8 (Z.land off 0xff));
    Ok (MkOut b (bp o + 2) (ctrlp o) ctrlb ctrl).

(** ** [pglz_compress] *)

(** [while (match_len--)] *)
Fixpoint add_all (match_len : nat) (h : History) (dp : nat) : History * nat :=
  match match_len with
  | O => (h, dp)
  | S n => add_all n (pglz_hist_add h dp) (S dp)
  end.

Definition out_of_fuel : string := "out of fuel".

(** The main loop: [None] is [return false]. *)
Fixpoint compress_loop (fuel : nat) (strategy : PGLZ_Strategy) (good_match good_drop result_max : Z)
    (o : Out) (h : History) (dp : nat) (found_match : bool) : result (option Out * History) :=
  if (slen <=? dp)%nat then Ok (Some o, h)
  else
    match fuel with
    | O => Err out_of_fuel
    | S fuel =>
        if result_max <=? Z.of_nat (bp o) then Ok (None, h)
        else if negb found_match && (first_success_by strategy <=? Z.of_nat (bp o)) then Ok (None, h)
        else
          match pglz_find_match h dp good_match good_drop with
          | None => Err out_of_fuel
          | Some (Some (match_len, match_off)) =>
              o ← pglz_out_tag o (Z.of_nat match_len) match_off;
              let '(h, dp) := add_all match_len h dp in
              compress_loop fuel strategy good_match good_drop result_max o h dp true
          | Some None =>
              o ← pglz_out_literal o source.[dp];
              compress_loop fuel strategy good_match good_drop result_max o (pglz_hist_add h dp) (S dp) found_match
          end
    end.

Definition limit (lo hi z : Z) : Z := if hi <? z then hi else if z <? lo then lo else z.

Definition result_max_of (need_rate : Z) : Z :=
  if INT_MAX / 100 <? Z.of_nat slen then Z.of_nat slen / 100 * (100 - need_rate)
  else Z.of_nat slen * (100 - need_rate) / 100.

(** The compressed value, if there is one, and the entries of the history, which the
    next call finds. *)
Definition pglz_compress (strategy : option PGLZ_Strategy) (dest : list Z) (he : gmap nat PGLZ_HistEntry)
    : result (option PGLZ_Header * gmap nat PGLZ_HistEntry) :=
  let strategy := default strategy_default_data strategy in
  if (match_size_good strategy <=? 0) || (Z.of_nat slen <? min_input_size strategy)
     || (max_input_size strategy <? Z.of_nat slen)
  then Ok (None, he)
  else
    let good_match := limit 17 (Z.of_nat PGLZ_MAX_MATCH) (match_size_good strategy) in
    let good_drop := limit 0 100 (match_size_drop strategy) in
    let need_rate := limit 0 99 (min_comp_rate strategy) in
    let result_max := result_max_of need_rate in
    '(o, h) ← compress_loop slen strategy good_match good_drop result_max
                (MkOut dest 0 None 0 0) (MkHistory ∅ he 0 false) 0 false;
    match o with
    | None => Ok (None, hist_entries h)
    | Some o =>
        b ← store_ctrl o;
        let result_size := Z.of_nat (bp o) in
        if result_max <=? result_size then Ok (None, hist_entries h)
        else Ok (Some (MkHeader (SET_VARSIZE_4B_C (result_size + sizeof_header)) (Z.of_nat slen) b), hist_entries h)
    end.

End Compress.

(** ** [pglz_decompress] *)

(** [above] is the memory after the source, [below] the one before the output area:
    [below k] is the byte [k + 1] before it. *)
Section Decompress.
Context (src : PGLZ_Header) (above below : nat → Z).

Definition srcend : Z := VARSIZE_4B (vl_len_ src) - sizeof_header.
Definition destend : Z := rawsize src.

Definition src_byte (i : nat) : Z := default (above i) (data src !! i).

(** [dp[-off]] *)
Definition dest_byte (dest : list Z) (dp : nat) (off : Z) : Z :=
  let i := Z.of_nat dp - off in
  if i <? 0 then below (Z.to_nat (- i - 1)) else dest.[Z.to_nat i].

Record DState := MkD { sp : nat; dest : list Z; dp : nat }.

(** [while (len--)] *)
Fixpoint copy_loop (len : nat) (off : Z) (d : list Z) (p : nat) : result (list Z * nat) :=
  match len with
  | O => Ok (d, p)
  | S len =>
      d' ← store d p (dest_byte d p off);
      copy_loop len off d' (S p)
  end.

(** The loop over the bits of a control byte; [n] of them are left. *)
Fixpoint item_loop (n : nat) (ctrl : Z) (s : DState) : result DState :=
  match n with
  | O => Ok s
  | S n =>
      if srcend <=? Z.of_nat (sp s) then Ok s
      else if negb (Z.land ctrl 1 =? 0) then
        let len := Z.land (src_byte (sp s)) 0x0f + 3 in
        let off := Z.lor (Z.shiftl (Z.land (src_byte (sp s)) 0xf0) 4) (src_byte (sp s + 1)) in
        let '(len, sp') := if len =? 18 then (len + src_byte (sp s + 2), (sp s + 3)%nat) else (len, (sp s + 2)%nat) in
        if destend <? Z.of_nat (dp s) + len then Ok (MkD sp' (dest s) (dp s + Z.to_nat len))
        else
          '(d, p) ← copy_loop (Z.to_nat len) off (dest s) (dp s);
          item_loop n (Z.shiftr ctrl 1) (MkD sp' d p)
      else if destend <=? Z.of_nat (dp s) then Ok s
      else
        d ← store (dest s) (dp s) (src_byte (sp s));
        item_loop n (Z.shiftr ctrl 1) (MkD (S (sp s)) d (S (dp s)))
  end.

Fixpoint decompress_loop (fuel : nat) (s : DState) : result DState :=
  if (Z.of_nat (sp s) <? srcend) && (Z.of_nat (dp s) <? destend) then
    match fuel with
    | O => Err out_of_fuel
    | S fuel =>
        s ← item_loop 8 (src_byte (sp s)) (MkD (S (sp s)) (dest s) (dp s));
        decompress_loop fuel s
    end
  else Ok s.

Definition corrupt : string := "compressed data is corrupt".

(** The output area after the call. *)
Definition pglz_decompress (dest0 : list Z) : result (list Z) :=
  s ← decompress_loop (Z.to_nat srcend) (MkD 0 dest0 0);
  if negb (Z.of_nat (dp s) =? destend) || negb (Z.of_nat (sp s) =? srcend) then Err corrupt
  else Ok (dest s).

End Decompress.

End Pglz.
