(* ===== verification/PglzSpec.v ===== *)
(** What the compression guarantees.

    The history holds the last 4096 positions: [links] says how the entries of a
    window of positions are linked, newest first.  A match that the search returns
    is a repetition in the input.  The output is a sequence of [item]s, eight to a
    control byte ([out_ok]), and [expand] is what they mean; the decompressor
    computes [expand] of what the compressor wrote. *)

From Stdlib Require Import ZArith Lia.
From stdpp Require Import base gmap list option numbers strings.
From S2P Require Import Prelude Pglz.
Import Pglz.

Module PglzSpec.

(** ** The history *)

Section History.
Context (source : list Z).
Notation hash := (pglz_hist_idx source).

Definition slot (p : nat) : nat := (p mod PGLZ_HISTORY_SIZE)%nat.

#[global] Arguments slot : simpl never.

Lemma slot_inj p q : (p < q + 4096)%nat → (q < p + 4096)%nat → slot p = slot q → p = q.
Proof.
  unfold slot, PGLZ_HISTORY_SIZE. intros H1 H2 E.
  pose proof (Nat.div_mod_eq p 4096). pose proof (Nat.div_mod_eq q 4096). nia.
Qed.

(** The entries of the positions from [lo] to [hi]. *)
Record links (hs : gmap Z nat) (he : gmap nat PGLZ_HistEntry) (lo hi : nat) : Prop := MkLinks {
  l_entry : ∀ p, (lo ≤ p < hi)%nat → pos (entry he (slot p)) = p ∧ hindex (entry he (slot p)) = hash p;
  l_start : ∀ h i, hs !! h = Some i → ∃ p, (lo ≤ p < hi)%nat ∧ i = slot p ∧ hash p = h ∧ prev (entry he (slot p)) = None;
  l_next : ∀ p i, (lo ≤ p < hi)%nat → next (entry he (slot p)) = Some i →
    ∃ q, (lo ≤ q < p)%nat ∧ i = slot q ∧ hash q = hash p ∧ prev (entry he (slot q)) = Some (slot p);
  l_prev : ∀ p i, (lo ≤ p < hi)%nat → prev (entry he (slot p)) = Some i →
    ∃ q, (p < q < hi)%nat ∧ i = slot q ∧ next (entry he (slot q)) = Some (slot p);
  l_first : ∀ p, (lo ≤ p < hi)%nat → prev (entry he (slot p)) = None → hs !! hash p = Some (slot p) }.

Lemma entry_insert he i e j : entry (<[i := e]> he) j = if decide (i = j) then e else entry he j.
Proof.
  unfold entry. case_decide; subst; [by rewrite lookup_insert_eq|by rewrite lookup_insert_ne].
Qed.

(** Taking out the last entry of a list. *)
Lemma delink_last i hs he :
  next (entry he i) = None → prev (entry he i) ≠ Some i →
  hist_delink i hs he =
    match prev (entry he i) with
    | None => (delete (hindex (entry he i)) hs, he)
    | Some p => (hs, set_next he p None)
    end.
Proof.
  intros Hn Hp. unfold hist_delink. rewrite Hn. destruct (prev (entry he i)) as [p|] eqn:E; [|by rewrite Hn].
  unfold set_next. rewrite entry_insert, decide_False by congruence. by rewrite Hn.
Qed.

Lemma delink_links hs he lo hi :
  links hs he lo hi → (lo < hi)%nat → (hi ≤ lo + 4096)%nat →
  links (hist_delink (slot lo) hs he).1 (hist_delink (slot lo) hs he).2 (S lo) hi.
Proof.
  intros [L1 L2 L3 L4 L5] Hlo Hhi.
  assert (next (entry he (slot lo)) = None) as Hnext.
  { destruct (next (entry he (slot lo))) as [i|] eqn:E; [|done]. destruct (L3 lo i ltac:(lia) E) as (q & ? & _). lia. }
  assert (∀ p, (lo ≤ p < hi)%nat → slot p = slot lo → p = lo) as Hinj by (intros; apply slot_inj; [lia|lia|done]).
  assert (prev (entry he (slot lo)) ≠ Some (slot lo)) as Hself.
  { intros E. destruct (L4 lo _ ltac:(lia) E) as (q & Hq & Es & _). symmetry in Es. apply Hinj in Es; lia. }
  rewrite delink_last by done. destruct (L1 lo ltac:(lia)) as [_ Hh].
  destruct (prev (entry he (slot lo))) as [i|] eqn:Ep; cbn [fst snd].
  - destruct (L4 lo i ltac:(lia) Ep) as (q & Hq & -> & Hqn).
    assert (∀ p, (lo ≤ p < hi)%nat → slot p = slot q → p = q) as Hinjq by (intros; apply slot_inj; [lia|lia|done]).
    set (he' := set_next he (slot q) None).
    assert (∀ j, entry he' j = if decide (slot q = j) then MkEntry None (prev (entry he j)) (hindex (entry he j)) (pos (entry he j))
                                 else entry he j) as He'.
    { intros j. unfold he', set_next. rewrite entry_insert. case_decide; by subst. }
    clearbody he'. split.
    + intros p Hp. rewrite He'. destruct (L1 p ltac:(lia)). by case_decide.
    + intros h i E. destruct (L2 h i E) as (p & Hp & -> & Hph & Hpp). exists p. rewrite He'.
      assert (p ≠ lo) by (intros ->; congruence). split; [lia|]. by case_decide.
    + intros p i Hp. rewrite He'. case_decide as Eq; [done|]. intros E. destruct (L3 p i ltac:(lia) E) as (q' & Hq' & -> & Hh' & Hp').
      exists q'. assert (q' ≠ lo). { intros ->. rewrite Ep in Hp'. by injection Hp'. }
      split; [lia|]. split; [done|]. split; [done|]. rewrite He'. by case_decide.
    + intros p i Hp. rewrite He'. intros E. assert (prev (entry he (slot p)) = Some i) as E' by (by case_decide).
      destruct (L4 p i ltac:(lia) E') as (q' & Hq' & -> & Hn). exists q'. split; [lia|]. split; [done|]. rewrite He'.
      destruct (decide (slot q = slot q')) as [Eq|]; [|done]. exfalso. rewrite <- Eq, Hqn in Hn. injection Hn as Hn. symmetry in Hn. apply Hinj in Hn; lia.
    + intros p Hp. rewrite He'. intros E. apply L5; [lia|]. by case_decide.
  - rewrite Hh.
    assert (hs !! hash lo = Some (slot lo)) as Hs by (apply L5; [lia|done]).
    split.
    + intros p Hp. apply L1. lia.
    + intros h i E. apply lookup_delete_Some in E as [Hne E]. destruct (L2 h i E) as (p & Hp & -> & Hph & Hpp).
      exists p. assert (p ≠ lo) by (intros ->; congruence). split; [lia|done].
    + intros p i Hp E. destruct (L3 p i ltac:(lia) E) as (q & Hq & -> & Hh' & Hp'). exists q.
      assert (q ≠ lo) by (intros ->; congruence). split; [lia|done].
    + intros p i Hp E. destruct (L4 p i ltac:(lia) E) as (q & Hq & -> & Hn). exists q. split; [lia|done].
    + intros p Hp E. rewrite lookup_delete_ne; [apply L5; [lia|done]|].
      intros Eh. assert (hs !! hash p = Some (slot p)) as Hsp by (apply L5; [lia|done]).
      rewrite <- Eh, Hs in Hsp. injection Hsp as Hsp. symmetry in Hsp. apply Hinj in Hsp; lia.
Qed.

Lemma link_links hs he lo hi :
  links hs he lo hi → (lo ≤ hi)%nat → (hi < lo + 4096)%nat →
  let he1 := <[slot hi := MkEntry (hs !! hash hi) None (hash hi) hi]> he in
  let he2 := match hs !! hash hi with Some e => set_prev he1 e (Some (slot hi)) | None => he1 end in
  links (<[hash hi := slot hi]> hs) he2 lo (S hi).
Proof.
  intros [L1 L2 L3 L4 L5] Hlo Hhi he1 he2.
  assert (∀ p, (lo ≤ p < hi)%nat → slot p ≠ slot hi) as Hnew by (intros p Hp E; apply slot_inj in E; lia).
  assert (entry he2 (slot hi) = MkEntry (hs !! hash hi) None (hash hi) hi) as Ehi.
  { unfold he2. destruct (hs !! hash hi) as [e|] eqn:E; [|unfold he1; by rewrite entry_insert, decide_True].
    destruct (L2 _ _ E) as (p & Hp & -> & _). unfold set_prev. rewrite entry_insert, decide_False by auto.
    unfold he1. by rewrite entry_insert, decide_True. }
  assert (∀ p, (lo ≤ p < hi)%nat → entry he2 (slot p) =
    MkEntry (next (entry he (slot p))) (if decide (hs !! hash hi = Some (slot p)) then Some (slot hi) else prev (entry he (slot p)))
      (hindex (entry he (slot p))) (pos (entry he (slot p)))) as Eold.
  { intros p Hp. assert (entry he1 (slot p) = entry he (slot p)) as E1.
    { unfold he1. by rewrite entry_insert, decide_False by (intros ?; by apply (Hnew p)). }
    unfold he2. destruct (hs !! hash hi) as [e|] eqn:E; [|rewrite E1; by destruct (entry he (slot p))].
    unfold set_prev. rewrite entry_insert. destruct (decide (e = slot p)) as [->|Hne].
    - by rewrite decide_True, E1.
    - rewrite decide_False by congruence. rewrite E1. by destruct (entry he (slot p)). }
  clearbody he2. split.
  - intros p Hp. destruct (decide (p = hi)) as [->|]; [by rewrite Ehi|]. rewrite Eold by lia. apply L1. lia.
  - intros h i. destruct (decide (h = hash hi)) as [->|Hne].
    + rewrite lookup_insert_eq. intros [= <-]. exists hi. rewrite Ehi. split; [lia|done].
    + rewrite lookup_insert_ne by done. intros E. destruct (L2 h i E) as (p & Hp & -> & Hph & Hpp). exists p.
      split; [lia|]. split; [done|]. split; [done|]. rewrite Eold by done. cbn. rewrite decide_False; [done|].
      intros E'. destruct (L2 _ _ E') as (p' & Hp' & Es & Hph' & _). apply slot_inj in Es; [|lia..]. congruence.
  - intros p i Hp. destruct (decide (p = hi)) as [->|Hne].
    + rewrite Ehi. cbn. intros E. destruct (L2 _ _ E) as (q & Hq & -> & Hqh & _). exists q. split; [lia|].
      split; [done|]. split; [done|]. rewrite Eold by lia. cbn. by rewrite decide_True.
    + rewrite Eold by lia. cbn. intros E. destruct (L3 p i ltac:(lia) E) as (q & Hq & -> & Hqh & Hqp). exists q.
      split; [lia|]. split; [done|]. split; [done|]. rewrite Eold by lia. cbn. rewrite decide_False; [done|].
      intros E'. destruct (L2 _ _ E') as (p' & Hp' & Es & _ & Hpp). apply slot_inj in Es; [|lia..]. congruence.
  - intros p i Hp. destruct (decide (p = hi)) as [->|Hne]; [by rewrite Ehi|]. rewrite Eold by lia. cbn.
    case_decide as Eh.
    + intros [= <-]. exists hi. split; [lia|]. split; [done|]. by rewrite Ehi.
    + intros E. destruct (L4 p i ltac:(lia) E) as (q & Hq & -> & Hqn). exists q. split; [lia|]. split; [done|].
      by rewrite Eold by lia.
  - intros p Hp. destruct (decide (p = hi)) as [->|Hne]; [by rewrite lookup_insert_eq|]. rewrite Eold by lia. cbn.
    case_decide as Eh; [done|]. intros E. specialize (L5 p ltac:(lia) E).
    rewrite lookup_insert_ne; [done|]. congruence.
Qed.

(** The history when the positions before [dp] have been added. *)
Definition hist_inv (h : History) (dp : nat) : Prop :=
  hist_next h = slot dp ∧ hist_recycle h = (4096 <=? dp)%nat ∧ links (hist_start h) (hist_entries h) (dp - 4096) dp.

Lemma hist_empty he : hist_inv (MkHistory ∅ he 0 false) 0.
Proof. split; [done|]. split; [done|]. split; intros; try lia; done. Qed.

Lemma slot_succ p : slot (S p) = if (4096 <=? S (slot p))%nat then 0%nat else S (slot p).
Proof.
  unfold slot, PGLZ_HISTORY_SIZE. pose proof (Nat.mod_upper_bound p 4096 ltac:(lia)).
  pose proof (Nat.div_mod_eq p 4096) as E. destruct (Nat.leb_spec 4096 (S (p mod 4096))).
  - replace (S p) with (0 + (S (p / 4096)) * 4096)%nat by lia. by rewrite Nat.Div0.mod_add.
  - symmetry. apply (Nat.mod_unique _ _ (p / 4096)); lia.
Qed.

Lemma hist_add_inv h dp : hist_inv h dp → hist_inv (pglz_hist_add source h dp) (S dp).
Proof.
  intros (Hn & Hr & HL). unfold pglz_hist_add. rewrite Hn, Hr.
  assert (∃ hs he, (if (4096 <=? dp)%nat then hist_delink (slot dp) (hist_start h) (hist_entries h)
                    else (hist_start h, hist_entries h)) = (hs, he) ∧ links hs he (S dp - 4096) dp) as (hs & he & -> & HL').
  { destruct (Nat.leb_spec 4096 dp).
    - assert (slot dp = slot (dp - 4096)) as ->.
      { unfold slot, PGLZ_HISTORY_SIZE. rewrite <- (Nat.Div0.mod_add (dp - 4096) 1 4096). f_equal. lia. }
      pose proof (delink_links _ _ _ _ HL ltac:(lia) ltac:(lia)) as HD. destruct (hist_delink _ _ _) as [hs he].
      exists hs, he. split; [done|]. by replace (S dp - 4096)%nat with (S (dp - 4096)) by lia.
    - eexists _, _. split; [done|]. by replace (S dp - 4096)%nat with (dp - 4096)%nat by lia. }
  apply link_links in HL'; [|lia..]. cbv zeta in HL'. change PGLZ_HISTORY_SIZE with 4096%nat.
  unfold hist_inv. rewrite slot_succ. destruct (Nat.leb_spec 4096 (S (slot dp))) as [Hw|Hw]; cbn [hist_next hist_recycle hist_start hist_entries].
  - split; [done|]. split; [|done]. symmetry. apply Nat.leb_le. unfold slot, PGLZ_HISTORY_SIZE in Hw.
    pose proof (Nat.Div0.mod_le dp 4096). lia.
  - split; [done|]. split; [|done]. destruct (Nat.leb_spec 4096 dp), (Nat.leb_spec 4096 (S dp)); try lia; try done.
    assert (dp = 4095)%nat as -> by lia. exfalso. revert Hw. unfold slot, PGLZ_HISTORY_SIZE. rewrite Nat.mod_small; lia.
Qed.

Lemma add_all_inv n h dp :
  hist_inv h dp → hist_inv (add_all source n h dp).1 (dp + n) ∧ (add_all source n h dp).2 = (dp + n)%nat.
Proof.
  revert h dp. induction n as [|n IH]; intros h dp H; cbn [add_all].
  - by rewrite Nat.add_0_r.
  - rewrite <- Nat.add_succ_comm. apply IH. by apply hist_add_inv.
Qed.

(** ** Matches *)

(** [len] bytes at [ip] repeat those at [hp]. *)
Definition matches (ip hp len : nat) : Prop :=
  (ip + len ≤ length source)%nat ∧ ∀ k, (k < len)%nat → source.[ip + k] = source.[hp + k].

Lemma match_loop_spec n ip hp t :
  matches ip hp t →
  matches ip hp (match_loop source n (ip + t) (hp + t) t) ∧ (match_loop source n (ip + t) (hp + t) t ≤ t + n)%nat.
Proof.
  revert t. induction n as [|n IH]; intros t Ht; cbn [match_loop]; [split; [done|lia]|].
  destruct (_ && _) eqn:E; [|split; [done|lia]].
  apply andb_true_iff in E as [E1%Nat.ltb_lt E2%Z.eqb_eq]. unfold slen in E1.
  replace (S (ip + t)) with (ip + S t)%nat by lia. replace (S (hp + t)) with (hp + S t)%nat by lia.
  destruct (IH (S t)) as [H1 H2]; [|split; [done|lia]].
  destruct Ht as [Hl Hk]. split; [lia|]. intros k Hk'. destruct (decide (k = t)) as [->|]; [done|]. apply Hk. lia.
Qed.

Lemma match_at_spec ip hp len :
  (ip + len ≤ length source)%nat → (ip ≤ length source)%nat → (hp ≤ ip)%nat → (len ≤ 273)%nat →
  matches ip hp (match_at source ip hp len) ∧ (match_at source ip hp len ≤ 273)%nat.
Proof.
  intros Hl Hip Hhp Hlen. unfold match_at. change PGLZ_MAX_MATCH with 273%nat.
  assert (matches ip hp 0) as H0 by (split; [lia|intros; lia]).
  destruct (16 <=? len)%nat.
  - destruct (memcmp_eq source ip hp len) eqn:E; [|split; [done|lia]]. apply bool_decide_eq_true in E.
    assert (matches ip hp len) as Hm.
    { split; [done|]. intros k Hk. unfold word_at.
      assert (∀ a, source !! (a + k)%nat = take len (drop a source) !! k) as Ha by (intros a; by rewrite lookup_take_lt, lookup_drop).
      by rewrite !Ha, E. }
    destruct (match_loop_spec (273 - len) ip hp len Hm). split; [done|lia].
  - destruct (match_loop_spec 273 ip hp 0 H0) as [H1 H2]. rewrite !Nat.add_0_r in *. done.
Qed.

(** The best match so far. *)
Definition best (input len : nat) (off : Z) : Prop :=
  (len ≤ 273)%nat ∧ (input + len ≤ length source)%nat ∧
  (len ≠ 0%nat → 1 <= off < 0xfff ∧ off <= Z.of_nat input ∧ matches input (input - Z.to_nat off) len).

Lemma find_loop_spec h input good_drop fuel p len off good_match :
  hist_inv h input → (input ≤ length source)%nat →
  (input - 4096 ≤ p < input)%nat → (p < input - 4096 + fuel)%nat → best input len off →
  ∃ len' off', find_loop source (hist_entries h) input good_drop fuel (Some (slot p)) len off good_match = Some (len', off') ∧
    best input len' off'.
Proof.
  intros (_ & _ & HL) Hin. revert p len off good_match. induction fuel as [|fuel IH]; intros p len off gm Hp Hf Hb; [lia|].
  cbn [find_loop]. destruct (l_entry _ _ _ _ HL p Hp) as [-> _].
  destruct (Z.leb_spec 0xfff (Z.of_nat input - Z.of_nat p)) as [|Hoff]; [by exists len, off|].
  destruct Hb as (Hlen & Hfit & Hb).
  destruct (match_at_spec input p len Hfit Hin ltac:(lia) Hlen) as [Hm Hml]. set (t := match_at source input p len) in *.
  set (best' := if (len <? t)%nat then (t, Z.of_nat input - Z.of_nat p) else (len, off)).
  assert (best input best'.1 best'.2) as Hb'.
  { unfold best'. destruct (Nat.ltb_spec len t); [|done]. cbn. split; [done|]. split; [apply Hm|]. intros _.
    split; [lia|]. split; [lia|]. by replace (input - Z.to_nat (Z.of_nat input - Z.of_nat p))%nat with p by lia. }
  destruct best' as [len' off']. cbn in Hb'.
  destruct (next (entry (hist_entries h) (slot p))) as [e|] eqn:En; [|by exists len', off'].
  destruct (l_next _ _ _ _ HL p e Hp En) as (q & Hq & -> & _).
  case_match; [by exists len', off'|]. apply IH; [lia|lia|done].
Qed.

Lemma find_match_spec h input good_match good_drop :
  hist_inv h input → (input < length source)%nat →
  ∃ m, pglz_find_match source h input good_match good_drop = Some m ∧
    match m with
    | None => True
    | Some (len, off) => (3 ≤ len ≤ 273)%nat ∧ 1 <= off < 0xfff ∧ off <= Z.of_nat input ∧ matches input (input - Z.to_nat off) len
    end.
Proof.
  intros Hi Hin. unfold pglz_find_match.
  assert (∃ len off, find_loop source (hist_entries h) input good_drop PGLZ_HISTORY_SIZE
    (hist_start h !! pglz_hist_idx source input) 0 0 good_match = Some (len, off) ∧ best input len off) as (len & off & -> & Hb).
  { assert (best input 0 0) as H0 by (split; [lia|]; split; [lia|done]).
    destruct (hist_start h !! pglz_hist_idx source input) as [i|] eqn:E.
    - pose proof Hi as (_ & _ & HL). destruct (l_start _ _ _ _ HL _ _ E) as (p & Hp & -> & _).
      apply find_loop_spec; [done|lia|done|unfold PGLZ_HISTORY_SIZE; lia|done].
    - by exists 0%nat, 0. }
  destruct Hb as (H1 & H2 & H3). exists (if (2 <? len)%nat then Some (len, off) else None). split; [done|].
  destruct (Nat.ltb_spec 2 len); [|done].
  destruct H3 as (? & ? & ?); [lia|]. split; [lia|done].
Qed.

End History.
(** ** What is written *)

Inductive item := Lit (b : Z) | Tag (len : nat) (off : Z).

Definition item_ok (it : item) : Prop :=
  match it with Lit b => is_u8 b | Tag len off => (3 ≤ len ≤ 273)%nat ∧ 1 <= off < 0xfff end.

Definition item_bytes (it : item) : list Z :=
  match it with
  | Lit b => [b]
  | Tag len off =>
      if (17 <? len)%nat then [Z.lor (Z.shiftr (Z.land off 0xf00) 4) 0x0f; Z.land off 0xff; Z.of_nat len - 18]
      else [Z.lor (Z.shiftr (Z.land off 0xf00) 4) (Z.of_nat len - 3); Z.land off 0xff]
  end.
Definition body (g : list item) : list Z := flat_map item_bytes g.

(** The control byte of a group: the bits of its tags. *)
Fixpoint bits (g : list item) : Z :=
  match g with
  | [] => 0
  | it :: g => (match it with Lit _ => 0 | Tag _ _ => 1 end) + 2 * bits g
  end.
Definition group_bytes (g : list item) : list Z := bits g :: body g.
Definition encoding (gs : list (list item)) : list Z := flat_map group_bytes gs.

(** What the items mean: the output so far is continued. *)
Fixpoint repeat_back (len : nat) (off : Z) (out : list Z) : list Z :=
  match len with
  | O => out
  | S len => repeat_back len off (out ++ [out.[Z.to_nat (Z.of_nat (length out) - off)]])
  end.
Definition expand (out : list Z) (it : item) : list Z :=
  match it with Lit b => out ++ [b] | Tag len off => repeat_back len off out end.

(** The tags of [l] refer to bytes that are there. *)
Fixpoint items_ok (out : list Z) (l : list item) : Prop :=
  match l with
  | [] => True
  | it :: l =>
      item_ok it ∧ (match it with Lit _ => True | Tag _ off => off <= Z.of_nat (length out) end) ∧
      items_ok (expand out it) l
  end.

Lemma items_ok_app out l it :
  items_ok out l → item_ok it →
  (match it with Lit _ => True | Tag _ off => off <= Z.of_nat (length (foldl expand out l)) end) →
  items_ok out (l ++ [it]).
Proof.
  revert out. induction l as [|x l IH]; intros out Hl Hit Ho; cbn in *; [done|].
  destruct Hl as (H1 & H2 & H3). split; [done|]. split; [done|]. by apply IH.
Qed.

Lemma bits_app g it :
  bits (g ++ [it]) = bits g + (match it with Lit _ => 0 | Tag _ _ => 2 ^ Z.of_nat (length g) end).
Proof.
  induction g as [|x g IH]; cbn [bits app length]; [by destruct it|]. rewrite IH.
  destruct it; [lia|]. rewrite Nat2Z.inj_succ, Z.pow_succ_r by lia. lia.
Qed.

Lemma bits_range g : 0 <= bits g < 2 ^ Z.of_nat (length g).
Proof.
  induction g as [|x g IH]; cbn [bits length]; [done|]. rewrite Nat2Z.inj_succ, Z.pow_succ_r by lia.
  destruct x; lia.
Qed.

Lemma body_app g it : body (g ++ [it]) = body g ++ item_bytes it.
Proof. unfold body. rewrite flat_map_app. cbn. by rewrite app_nil_r. Qed.

(** The output area after [length dest] bytes were given: complete groups [gs], the
    last group [g], whose control byte is still to be stored. *)
Definition out_ok (room : nat) (o : Out) (gs : list (list item)) (g : list item) : Prop :=
  length (buf o) = room ∧
  match ctrlp o with
  | None => gs = [] ∧ g = [] ∧ bp o = 0%nat ∧ ctrl o = 0
  | Some c =>
      ∃ x rest, buf o = encoding gs ++ x :: body g ++ rest ∧ c = length (encoding gs) ∧
        bp o = (c + 1 + length (body g))%nat ∧ ctrlb o = bits g ∧ ctrl o = u8 (2 ^ Z.of_nat (length g)) ∧
        (length g ≤ 8)%nat ∧ Forall (λ g, length g = 8%nat) gs
  end.

Lemma store_ok b i v : (i < length b)%nat → store b i v = Ok (<[i := v]> b).
Proof. intros H. unfold store. by destruct (Nat.ltb_spec i (length b)); [|lia]. Qed.

Lemma insert_middle {A} (l : list A) x y r i : i = length l → <[i := y]> (l ++ x :: r) = l ++ y :: r.
Proof. intros ->. by rewrite insert_app_r_alt, Nat.sub_diag by lia. Qed.

Lemma store_at l x r i v : i = length l → store (l ++ x :: r) i v = Ok (l ++ v :: r).
Proof. intros E. rewrite store_ok, insert_middle by (rewrite ?length_app; cbn; lia || done). done. Qed.

(** Facts about the few values that tags and control bytes have. *)
Lemma tag_bytes_ok off l :
  0 <= off < 4096 → 0 <= l < 16 →
  let t := Z.lor (Z.shiftr (Z.land off 0xf00) 4) l in
  u8 t = t ∧ u8 (Z.land off 0xff) = Z.land off 0xff ∧ Z.land t 0x0f = l ∧
  Z.lor (Z.shiftl (Z.land t 0xf0) 4) (Z.land off 0xff) = off.
Proof.
  intros Ho Hl.
  assert (forallb (λ o, forallb (λ l, let t := Z.lor (Z.shiftr (Z.land o 0xf00) 4) l in
    (u8 t =? t) && (u8 (Z.land o 0xff) =? Z.land o 0xff) && (Z.land t 0x0f =? l) &&
    (Z.lor (Z.shiftl (Z.land t 0xf0) 4) (Z.land o 0xff) =? o)) (seqZ 0 16)) (seqZ 0 4096) = true) as H by (vm_compute; reflexivity).
  rewrite forallb_forall in H. specialize (H off ltac:(apply list_elem_of_In, elem_of_seqZ; lia)).
  rewrite forallb_forall in H. specialize (H l ltac:(apply list_elem_of_In, elem_of_seqZ; lia)).
  cbv zeta in *. rewrite !andb_true_iff, !Z.eqb_eq in H. tauto.
Qed.

Lemma ctrl_bits n a :
  (n < 8)%nat → 0 <= a < 2 ^ Z.of_nat n →
  Z.land (u8 (2 ^ Z.of_nat n)) 255 ≠ 0 ∧ Z.lor a (u8 (2 ^ Z.of_nat n)) = a + 2 ^ Z.of_nat n ∧
  u8 (Z.shiftl (u8 (2 ^ Z.of_nat n)) 1) = u8 (2 ^ Z.of_nat (S n)).
Proof.
  intros Hn Ha.
  assert (forallb (λ n, forallb (λ a, negb (Z.land (u8 (2 ^ n)) 255 =? 0) && (Z.lor a (u8 (2 ^ n)) =? a + 2 ^ n) &&
    (u8 (Z.shiftl (u8 (2 ^ n)) 1) =? u8 (2 ^ (n + 1)))) (seqZ 0 (2 ^ n))) (seqZ 0 8) = true) as H by (vm_compute; reflexivity).
  rewrite forallb_forall in H. specialize (H (Z.of_nat n) ltac:(apply list_elem_of_In, elem_of_seqZ; lia)).
  rewrite forallb_forall in H. specialize (H a ltac:(apply list_elem_of_In, elem_of_seqZ; lia)).
  rewrite !andb_true_iff, negb_true_iff, Z.eqb_neq, !Z.eqb_eq in H. rewrite Nat2Z.inj_succ. unfold Z.succ. tauto.
Qed.

Lemma encoding_app gs g : encoding (gs ++ [g]) = encoding gs ++ bits g :: body g.
Proof. unfold encoding. rewrite flat_map_app. cbn. by rewrite app_nil_r. Qed.

(** A control byte with a free bit. *)
Lemma out_ctrl_spec room o gs g :
  out_ok room o gs g → (bp o < room)%nat →
  ∃ o' gs' g', pglz_out_ctrl o = Ok o' ∧ out_ok room o' gs' g' ∧ ctrlp o' ≠ None ∧ (length g' < 8)%nat ∧
    concat gs' ++ g' = concat gs ++ g ∧ (bp o' ≤ S (bp o))%nat.
Proof.
  destruct o as [b p [c|] cb ct]; intros [Hlen H]; cbn in *.
  - destruct H as (x & rest & -> & -> & -> & -> & -> & Hg & Hgs). intros Hroom.
    destruct (decide (length g = 8%nat)) as [E8|].
    + unfold pglz_out_ctrl, store_ctrl. cbn. rewrite E8. cbn. rewrite store_at by done.
      destruct rest as [|y rest]; [rewrite length_app in Hlen; cbn in Hlen; rewrite app_nil_r in Hlen; lia|].
      eexists _, (gs ++ [g]), []. split; [reflexivity|]. split.
      * split; [cbn; rewrite !length_app in *; cbn in *; rewrite !length_app in *; done|]. cbn.
        exists y, rest. rewrite encoding_app. split; [by rewrite <- app_assoc|]. rewrite length_app. cbn.
        split_and!; try lia; [done|]. apply Forall_app. split; [done|by constructor].
      * cbn. rewrite concat_app. cbn. rewrite !app_nil_r. split_and!; [done|lia|done|lia].
    + destruct (ctrl_bits (length g) (bits g) ltac:(lia) (bits_range g)) as (Hc & _).
      exists (MkOut (encoding gs ++ x :: body g ++ rest) (length (encoding gs) + 1 + length (body g)) (Some (length (encoding gs))) (bits g)
        (u8 (2 ^ Z.of_nat (length g)))), gs, g.
      unfold pglz_out_ctrl. cbn. destruct (Z.eqb_spec (Z.land (u8 (2 ^ Z.of_nat (length g))) 255) 0); [done|].
      split; [done|]. split; [|split_and!; [done|lia|done|lia]]. split; [done|]. cbn. exists x, rest. done.
  - destruct H as (-> & -> & -> & ->). intros Hroom. destruct b as [|y rest]; [cbn in Hlen; lia|].
    eexists _, [], []. split; [reflexivity|]. split; [|split_and!; [done|cbn; lia|done|cbn; lia]].
    split; [done|]. cbn. exists y, rest. split_and!; try done; lia.
Qed.

(** The bytes of an item and its bit. *)
Lemma out_item_ok room b p c cb ct gs g it :
  out_ok room (MkOut b p (Some c) cb ct) gs g → (length g < 8)%nat → (p + length (item_bytes it) ≤ room)%nat →
  ∃ l r old, b = l ++ old ++ r ∧ length l = p ∧ length old = length (item_bytes it) ∧
    out_ok room (MkOut (l ++ item_bytes it ++ r) (p + length (item_bytes it)) (Some c)
      (match it with Lit _ => cb | Tag _ _ => Z.lor cb ct end) (u8 (Z.shiftl ct 1))) gs (g ++ [it]).
Proof.
  intros [Hlen H] Hg Hroom. cbn in *. destruct H as (x & rest & -> & -> & -> & -> & -> & _ & Hgs).
  set (n := length (item_bytes it)) in *.
  assert (n ≤ length rest)%nat as Hrest by (rewrite !length_app in Hlen; cbn in Hlen; rewrite !length_app in Hlen; lia).
  exists (encoding gs ++ x :: body g), (drop n rest), (take n rest).
  destruct (ctrl_bits (length g) (bits g) Hg (bits_range g)) as (_ & Hlor & Hshift).
  split; [by rewrite <- app_assoc; cbn; rewrite take_drop|]. split; [rewrite length_app; cbn; lia|].
  split; [rewrite length_take; lia|]. split.
  - cbn. rewrite <- Hlen, !length_app. cbn. rewrite !length_app, length_drop. lia.
  - cbn. exists x, (drop n rest). rewrite body_app, bits_app, !length_app, <- !app_assoc. cbn [app].
    rewrite <- ?app_assoc. split; [done|]. split; [done|]. split; [lia|].
    split; [destruct it; rewrite ?Hlor; lia|]. cbn [length]. rewrite Nat.add_1_r. split; [done|]. split; [lia|done].
Qed.

Lemma store_next l a x r v : store (l ++ a :: x :: r) (length l + 1) v = Ok (l ++ a :: v :: r).
Proof.
  change (a :: x :: r) with ([a] ++ x :: r). rewrite app_assoc, store_at by (rewrite length_app; done). by rewrite <- app_assoc.
Qed.
Lemma store_third l a b x r v : store (l ++ a :: b :: x :: r) (length l + 2) v = Ok (l ++ a :: b :: v :: r).
Proof.
  change (a :: b :: x :: r) with ([a; b] ++ x :: r). rewrite app_assoc, store_at by (rewrite length_app; done). by rewrite <- app_assoc.
Qed.

Definition out_item (o : Out) (it : item) : result Out :=
  match it with Lit b => pglz_out_literal o b | Tag len off => pglz_out_tag o (Z.of_nat len) off end.

Lemma item_bytes_length it : (1 ≤ length (item_bytes it) ≤ 3)%nat.
Proof. destruct it; cbn; [lia|]. case_match; cbn; lia. Qed.

(** Writing an item takes at most four bytes. *)
Lemma out_item_spec room o gs g it :
  out_ok room o gs g → item_ok it → (bp o + 4 ≤ room)%nat →
  ∃ o' gs' g', out_item o it = Ok o' ∧ out_ok room o' gs' g' ∧ concat gs' ++ g' = concat gs ++ g ++ [it] ∧
    g' ≠ [] ∧ ctrlp o' ≠ None ∧ (bp o' ≤ bp o + 4)%nat.
Proof.
  intros Ho Hit Hroom. destruct (out_ctrl_spec room o gs g Ho ltac:(lia)) as (o1 & gs1 & g1 & Ec & Ho1 & Hc & Hg1 & Eg & Hb).
  destruct o1 as [b p [c|] cb ct]; [|done]. cbn [bp] in Hb. pose proof (item_bytes_length it) as Hn.
  destruct (out_item_ok room b p c cb ct gs1 g1 it Ho1 Hg1 ltac:(lia)) as (l & r & old & -> & Hl & Hold & Hok).
  exists (MkOut (l ++ item_bytes it ++ r) (p + length (item_bytes it)) (Some c)
      (match it with Lit _ => cb | Tag _ _ => Z.lor cb ct end) (u8 (Z.shiftl ct 1))), gs1, (g1 ++ [it]).
  assert (out_item o it = Ok (MkOut (l ++ item_bytes it ++ r) (p + length (item_bytes it)) (Some c)
      (match it with Lit _ => cb | Tag _ _ => Z.lor cb ct end) (u8 (Z.shiftl ct 1)))) as ->.
  { subst p. unfold out_item. destruct it as [v|len off].
    - destruct old as [|x [|? ?]]; try done. unfold pglz_out_literal. rewrite Ec.
      unfold mbind, result_bind. cbn [buf bp ctrlp ctrlb ctrl app item_bytes length].
      replace (u8 v) with v by (symmetry; apply Z.mod_small, Hit). rewrite store_at by done. by rewrite Nat.add_1_r.
    - destruct Hit as [Hlen Hoff]. unfold pglz_out_tag. rewrite Ec. unfold mbind at 1, result_bind at 1. cbn [buf bp ctrlp ctrlb ctrl].
      cbn [item_bytes] in *. destruct (Nat.ltb_spec 17 len), (Z.ltb_spec 17 (Z.of_nat len)); try lia.
      + destruct old as [|x [|y [|z [|? ?]]]]; try done. cbn [app] in *.
        destruct (tag_bytes_ok off 15 ltac:(lia) ltac:(lia)) as (-> & -> & _).
        replace (u8 (Z.of_nat len - 18)) with (Z.of_nat len - 18) by (unfold u8; rewrite Z.mod_small; lia).
        unfold mbind, result_bind. rewrite store_at by done. rewrite store_next, store_third. done.
      + destruct old as [|x [|y [|? ?]]]; try done. cbn [app] in *.
        destruct (tag_bytes_ok off (Z.of_nat len - 3) ltac:(lia) ltac:(lia)) as (-> & -> & _).
        unfold mbind, result_bind. rewrite store_at by done. rewrite store_next. done. }
  split; [done|]. split; [done|]. rewrite !app_assoc, Eg. split; [done|].
  split; [by destruct g1|]. split; [done|]. cbn. lia.
Qed.

End PglzSpec.
