(* ===== verification/PglzProps.v ===== *)
(** The properties of the compression.

    [compress_spec] and [decompress_spec] relate both functions to the items and
    their expansion; the theorems are the round trip and the safety of the compressor.
    The decompressor on any input is the subject of [PglzFormat]. *)

From Stdlib Require Import ZArith Lia.
From stdpp Require Import base gmap list option numbers strings.
From S2P Require Import Prelude Pglz PglzSpec.
Import Pglz PglzSpec.

Module PglzProps.

(** ** Compressing *)

Section Compress.
Context (source : list Z) (Hbytes : Forall is_u8 source).

Lemma take_snoc dp : (dp < length source)%nat → take dp source ++ [source.[dp]] = take (S dp) source.
Proof. intros H. symmetry. apply take_S_r. by apply lookup_word_at. Qed.

(** A tag for a match continues the output with the matching bytes. *)
Lemma repeat_match len off dp :
  1 <= off <= Z.of_nat dp → matches source dp (dp - Z.to_nat off) len →
  repeat_back len off (take dp source) = take (dp + len) source.
Proof.
  revert dp. induction len as [|len IH]; intros dp Hoff [Hl Hm]; cbn [repeat_back]; [by rewrite Nat.add_0_r|].
  rewrite length_take_le by lia.
  replace ((take dp source).[Z.to_nat (Z.of_nat dp - off)]) with (source.[dp]).
  2: { specialize (Hm 0%nat ltac:(lia)). rewrite !Nat.add_0_r in Hm. rewrite Hm. unfold word_at.
       rewrite lookup_take_lt by lia. do 2 f_equal. lia. }
  rewrite take_snoc, <- Nat.add_succ_comm by lia. apply IH; [lia|]. split; [lia|].
  intros k Hk. specialize (Hm (S k) ltac:(lia)). rewrite <- !Nat.add_succ_comm in Hm. rewrite Hm. f_equal. lia.
Qed.

(** The state of the main loop: what was written expands to what was read. *)
Record progress (room : nat) (o : Out) (h : History) (dp : nat) (gs : list (list item)) (g : list item) : Prop := MkProgress {
  p_out : out_ok room o gs g;
  p_hist : hist_inv source h dp;
  p_dp : (dp ≤ length source)%nat;
  p_items : items_ok [] (concat gs ++ g);
  p_expand : foldl expand [] (concat gs ++ g) = take dp source;
  p_open : dp ≠ 0%nat → g ≠ [] ∧ ctrlp o ≠ None }.

Lemma progress_item room o h dp gs g it n h' :
  progress room o h dp gs g → item_ok it → (bp o + 4 ≤ room)%nat →
  (match it with Lit _ => True | Tag _ off => off <= Z.of_nat dp end) →
  expand (take dp source) it = take (dp + n) source → (n ≠ 0)%nat → (dp + n ≤ length source)%nat → hist_inv source h' (dp + n) →
  ∃ o' gs' g', out_item o it = Ok o' ∧ progress room o' h' (dp + n) gs' g'.
Proof.
  intros [P1 P2 P3 P4 P5 P6] Hit Hroom Hoff He Hn Hdp Hh.
  destruct (out_item_spec room o gs g it P1 Hit Hroom) as (o' & gs' & g' & Eo & Ho & Eg & Hg & Hc & _).
  exists o', gs', g'. split; [done|]. rewrite app_assoc in Eg. split; [done|done|done| | |done].
  - rewrite Eg. apply items_ok_app; [done|done|]. rewrite P5, length_take_le by done. done.
  - by rewrite Eg, foldl_app, P5.
Qed.

Lemma compress_loop_spec room strategy good_match good_drop result_max fuel o h dp found gs g :
  progress room o h dp gs g → (length source - dp ≤ fuel)%nat →
  result_max <= Z.of_nat (length source) → (length source + 4 ≤ room)%nat →
  ∃ r h', compress_loop source fuel strategy good_match good_drop result_max o h dp found = Ok (r, h') ∧
    match r with
    | None => True
    | Some o' => ∃ gs' g', progress room o' h' (length source) gs' g'
    end.
Proof.
  intros HP Hf Hmax Hroom. revert o h dp found gs g HP Hf.
  induction fuel as [|fuel IH]; intros o h dp found gs g HP Hf; cbn [compress_loop]; unfold slen;
    destruct (Nat.leb_spec (length source) dp) as [Hdone|Hdp];
    try (exists (Some o), h; split; [done|]; exists gs, g; pose proof (p_dp _ _ _ _ _ _ HP);
         by replace (length source) with dp by lia); [lia|].
  destruct (Z.leb_spec result_max (Z.of_nat (bp o))); [by eexists None, h|].
  destruct (negb found && _); [by eexists None, h|].
  destruct (find_match_spec source h dp good_match good_drop (p_hist _ _ _ _ _ _ HP) Hdp) as (m & -> & Hm).
  destruct m as [[len off]|].
  - destruct Hm as (Hlen & Hoff & Hoff' & Hmatch). pose proof (proj1 Hmatch) as Hfit.
    destruct (add_all_inv source len h dp (p_hist _ _ _ _ _ _ HP)) as [Hh Ed].
    destruct (add_all source len h dp) as [h1 dp1]. cbn [fst snd] in *. subst dp1.
    destruct (progress_item room o h dp gs g (Tag len off) len h1 HP) as (o' & gs' & g' & Eo & HP'); try done; try lia.
    { cbn. apply repeat_match; [lia|done]. }
    cbn [out_item] in Eo. rewrite Eo. apply (IH o' h1 (dp + len)%nat true gs' g' HP'). lia.
  - destruct (progress_item room o h dp gs g (Lit source.[dp]) 1 (pglz_hist_add source h dp) HP) as (o' & gs' & g' & Eo & HP'); try done; try lia.
    { apply word_at_Forall; [done|done]. }
    { cbn. rewrite Nat.add_1_r. by apply take_snoc. }
    { rewrite Nat.add_1_r. apply hist_add_inv, (p_hist _ _ _ _ _ _ HP). }
    cbn [out_item] in Eo. rewrite Eo. rewrite Nat.add_1_r in HP'.
    apply (IH o' (pglz_hist_add source h dp) (S dp) found gs' g' HP'). lia.
Qed.

(** The datum holds the groups [gs], the last of them filled or not. *)
Record holds (d : PGLZ_Header) (gs : list (list item)) (g : list item) : Prop := MkHolds {
  h_data : ∃ rest, data d = encoding (gs ++ [g]) ++ rest;
  h_full : Forall (λ g, length g = 8%nat) gs;
  h_last : g ≠ [] ∧ (length g ≤ 8)%nat;
  h_len : vl_len_ d = SET_VARSIZE_4B_C (Z.of_nat (length (encoding (gs ++ [g]))) + sizeof_header);
  h_raw : rawsize d = Z.of_nat (length source);
  h_items : items_ok [] (concat gs ++ g);
  h_expand : foldl expand [] (concat gs ++ g) = source }.

Lemma limit_range lo hi z : lo <= hi → lo <= limit lo hi z <= hi.
Proof. intros H. unfold limit. destruct (Z.ltb_spec hi z), (Z.ltb_spec z lo); lia. Qed.

Lemma result_max_le rate : 0 <= rate <= 99 → result_max_of source rate <= Z.of_nat (length source).
Proof.
  intros H. unfold result_max_of, slen. destruct (Z.ltb_spec (INT_MAX / 100) (Z.of_nat (length source))).
  - pose proof (Z.mul_div_le (Z.of_nat (length source)) 100 ltac:(lia)). nia.
  - apply Z.div_le_upper_bound; nia.
Qed.

Lemma store_ctrl_last room o gs g :
  out_ok room o gs g → ctrlp o ≠ None → g ≠ [] →
  ∃ b rest, store_ctrl o = Ok b ∧ b = encoding (gs ++ [g]) ++ rest ∧ bp o = length (encoding (gs ++ [g])) ∧ length b = room ∧
    Forall (λ g, length g = 8%nat) gs ∧ (length g ≤ 8)%nat.
Proof.
  destruct o as [b p [c|] cb ct]; [|done]. intros [Hlen H] _ Hg. cbn in *.
  destruct H as (x & rest & -> & -> & -> & -> & _ & Hl & Hgs). unfold store_ctrl. cbn. rewrite store_at by done.
  eexists _, rest. split; [done|]. rewrite encoding_app, <- app_assoc. split; [done|].
  rewrite !length_app in *. cbn in *. split; [lia|]. done.
Qed.

Definition rate_of (strategy : option PGLZ_Strategy) : Z := limit 0 99 (min_comp_rate (default strategy_default_data strategy)).

Lemma compress_spec strategy dest he :
  (length source + 4 ≤ length dest)%nat →
  ∃ r he', pglz_compress source strategy dest he = Ok (r, he') ∧
    match r with
    | None => True
    | Some d => length (data d) = length dest ∧ ∃ gs g, holds d gs g ∧
        Z.of_nat (length (encoding (gs ++ [g]))) < result_max_of source (rate_of strategy)
    end.
Proof.
  intros Hroom. unfold pglz_compress. fold (rate_of strategy). set (st := default strategy_default_data strategy).
  destruct (_ || _ || _); [by eexists None, he|].
  pose proof (limit_range 0 99 (min_comp_rate st) ltac:(lia)) as Hrate. change (limit 0 99 (min_comp_rate st)) with (rate_of strategy) in Hrate.
  pose proof (result_max_le _ Hrate) as Hmax.
  edestruct (compress_loop_spec (length dest) st (limit 17 (Z.of_nat PGLZ_MAX_MATCH) (match_size_good st)) (limit 0 100 (match_size_drop st))
    (result_max_of source (rate_of strategy)) (slen source) (MkOut dest 0 None 0 0) (MkHistory ∅ he 0 false) 0 false [] [])
    as (r & h' & -> & Hr); [|unfold slen; lia|done|done|].
  { split; try done; [apply hist_empty|lia]. }
  unfold mbind, result_bind. destruct r as [o|]; [|by eexists None, _]. destruct Hr as (gs & g & [P1 P2 P3 P4 P5 P6]).
  destruct (decide (source = [])) as [E|Hne].
  { destruct (store_ctrl o) as [b|] eqn:Es.
    - assert (result_max_of source (rate_of strategy) <= Z.of_nat (bp o)) by (apply (f_equal length) in E; cbn in E; lia).
      destruct (Z.leb_spec (result_max_of source (rate_of strategy)) (Z.of_nat (bp o))); [by eexists None, _|lia].
    - exfalso. unfold store_ctrl in Es. destruct o as [b p [c|] cb ct]; [|done]. cbn in *.
      destruct P1 as [Hlen (x & rest & Hb & -> & _)]. cbn in Hb. subst b. by rewrite store_at in Es. }
  destruct P6 as [Hg Hc]; [by destruct source|].
  destruct (store_ctrl_last _ o gs g P1 Hc Hg) as (b & rest & -> & Eb & Ebp & Hlen & Hgs & Hg8). rewrite Ebp.
  destruct (Z.leb_spec (result_max_of source (rate_of strategy)) (Z.of_nat (length (encoding (gs ++ [g]))))); [by eexists None, _|].
  eexists (Some _), _. split; [done|]. split; [done|]. exists gs, g. split; [|done].
  split; try done; [by exists rest|]. by rewrite P5, firstn_all.
Qed.

End Compress.
(** ** Decompressing *)

Lemma varsize_set n : 0 <= n < 2 ^ 30 → VARSIZE_4B (SET_VARSIZE_4B_C n) = n.
Proof.
  intros Hn. unfold VARSIZE_4B, SET_VARSIZE_4B_C. rewrite Z.land_lor_distr_l.
  change (Z.land 0x40000000 0x3FFFFFFF) with 0. rewrite Z.lor_0_r. change 0x3FFFFFFF with (Z.ones 30).
  rewrite <- Z.land_assoc, Z.land_diag, Z.land_ones by lia. by apply Z.mod_small.
Qed.

Lemma bits_cons it g :
  negb (Z.land (bits (it :: g)) 1 =? 0) = (match it with Lit _ => false | Tag _ _ => true end) ∧
  Z.shiftr (bits (it :: g)) 1 = bits g.
Proof.
  change 1 with (Z.ones 1) at 1. rewrite Z.land_ones, Z.shiftr_div_pow2 by lia. change (2 ^ 1) with 2. cbn [bits].
  rewrite (Z.mul_comm 2), Z.mod_add, Z.div_add by lia. by destruct it.
Qed.

Lemma repeat_back_length len off out : length (repeat_back len off out) = (length out + len)%nat.
Proof. revert out. induction len as [|len IH]; intros out; cbn; [lia|]. rewrite IH, length_app. cbn. lia. Qed.

Lemma expand_longer out it : item_ok it → (length out < length (expand out it))%nat.
Proof. destruct it; cbn; [rewrite length_app; cbn; lia|]. intros [? _]. rewrite repeat_back_length. lia. Qed.

Section Decompress.
Context (src : PGLZ_Header) (above below : nat → Z).

(** The copy of a tag is [repeat_back] when the offset stays inside of the output. *)
Lemma copy_loop_spec len off out rest :
  1 <= off <= Z.of_nat (length out) → (len ≤ length rest)%nat →
  ∃ rest', copy_loop below len off (out ++ rest) (length out) = Ok (repeat_back len off out ++ rest', (length out + len)%nat) ∧
    length rest' = (length rest - len)%nat.
Proof.
  revert out rest. induction len as [|len IH]; intros out rest Ho Hr; cbn [copy_loop repeat_back].
  { exists rest. rewrite Nat.add_0_r, Nat.sub_0_r. done. }
  destruct rest as [|x rest]; [cbn in Hr; lia|]. rewrite store_at by done. unfold mbind, result_bind.
  assert (dest_byte below (out ++ x :: rest) (length out) off = out.[Z.to_nat (Z.of_nat (length out) - off)]) as ->.
  { unfold dest_byte. destruct (Z.ltb_spec (Z.of_nat (length out) - off) 0); [lia|].
    rewrite word_at_app, decide_True by lia. done. }
  set (y := out.[_]). change (out ++ y :: rest) with (out ++ [y] ++ rest). rewrite app_assoc.
  replace (S (length out)) with (length (out ++ [y])) by (rewrite length_app; cbn; lia).
  destruct (IH (out ++ [y]) rest) as (rest' & -> & Hl); [rewrite length_app; cbn; lia|cbn in Hr; lia|].
  exists rest'. rewrite length_app. cbn. split; [do 2 f_equal; lia|lia].
Qed.

(** The bytes of the source at [i]. *)
Definition at_source (i : nat) (l : list Z) : Prop := ∀ k, (k < length l)%nat → src_byte src above (i + k) = l.[k].

Lemma at_source_app i l l' : at_source i (l ++ l') → at_source i l ∧ at_source (i + length l) l'.
Proof.
  intros H. split; intros k Hk.
  - rewrite H, word_at_app, decide_True by (rewrite ?length_app; lia). done.
  - rewrite <- Nat.add_assoc, H, word_at_app, decide_False by (rewrite ?length_app; lia). f_equal. lia.
Qed.

(** One item: its bytes are read and its expansion is written. *)
Lemma item_step n g it i out rest :
  at_source i (item_bytes it) → Z.of_nat i < srcend src → item_ok it →
  (match it with Lit _ => True | Tag _ off => off <= Z.of_nat (length out) end) →
  Z.of_nat (length (out ++ rest)) = destend src → (length (expand out it) ≤ length (out ++ rest))%nat →
  ∃ rest', length (expand out it ++ rest') = length (out ++ rest) ∧
    item_loop src above below (S n) (bits (it :: g)) (MkD i (out ++ rest) (length out)) =
    item_loop src above below n (bits g) (MkD (i + length (item_bytes it)) (expand out it ++ rest') (length (expand out it))).
Proof.
  intros Hat Hi Hit Hoff Hd Hfit. cbn [item_loop sp dest dp].
  destruct (Z.leb_spec (srcend src) (Z.of_nat i)); [lia|]. destruct (bits_cons it g) as [-> ->].
  rewrite length_app in Hfit, Hd. destruct it as [b|len off].
  - pose proof (Hat 0%nat ltac:(cbn; lia)) as Hb. rewrite Nat.add_0_r in Hb. rewrite Hb. cbn [expand] in *. rewrite length_app in Hfit. cbn in Hfit.
    destruct (Z.leb_spec (destend src) (Z.of_nat (length out))); [lia|]. destruct rest as [|x rest]; [cbn in *; lia|].
    rewrite store_at by done. exists rest. rewrite !length_app. cbn. split; [lia|]. unfold mbind, result_bind.
    rewrite <- app_assoc. cbn. by rewrite !Nat.add_1_r.
  - cbn [expand] in *. rewrite repeat_back_length in *. destruct Hit as [Hlen Ho]. cbn [item_bytes] in *.
    destruct (copy_loop_spec len off out rest ltac:(lia) ltac:(lia)) as (rest' & Ecopy & Hrest').
    assert (∀ k, (k < length (item_bytes (Tag len off)))%nat → src_byte src above (i + k) = (item_bytes (Tag len off)).[k]) as Hb
      by exact Hat. cbn [item_bytes] in Hb.
    exists rest'. split; [rewrite !length_app, repeat_back_length; lia|].
    destruct (Nat.ltb_spec 17 len).
    + rewrite (Hb 2%nat) by (cbn; lia). rewrite (Hb 1%nat) by (cbn; lia).
      specialize (Hb 0%nat ltac:(cbn; lia)). rewrite Nat.add_0_r in Hb. rewrite Hb.
      destruct (tag_bytes_ok off 15 ltac:(lia) ltac:(lia)) as (_ & _ & E1 & E2).
      unfold word_at. cbn [lookup list_lookup]. cbn [default from_option id]. rewrite E1, E2. change (15 + 3) with 18. rewrite Z.eqb_refl.
      replace (18 + (Z.of_nat len - 18)) with (Z.of_nat len) by lia. rewrite Nat2Z.id.
      destruct (Z.ltb_spec (destend src) (Z.of_nat (length out) + Z.of_nat len)); [lia|]. by rewrite Ecopy.
    + rewrite (Hb 1%nat) by (cbn; lia). specialize (Hb 0%nat ltac:(cbn; lia)). rewrite Nat.add_0_r in Hb. rewrite Hb.
      destruct (tag_bytes_ok off (Z.of_nat len - 3) ltac:(lia) ltac:(lia)) as (_ & _ & E1 & E2).
      unfold word_at. cbn [lookup list_lookup]. cbn [default from_option id]. rewrite E1, E2.
      replace (Z.of_nat len - 3 + 3) with (Z.of_nat len) by lia. destruct (Z.eqb_spec (Z.of_nat len) 18); [lia|].
      rewrite Nat2Z.id. destruct (Z.ltb_spec (destend src) (Z.of_nat (length out) + Z.of_nat len)); [lia|]. by rewrite Ecopy.
Qed.

Lemma expand_all_longer out l : items_ok out l → (length out ≤ length (foldl expand out l))%nat.
Proof.
  revert out. induction l as [|it l IH]; intros out H; cbn in *; [lia|]. destruct H as (H1 & _ & H2).
  pose proof (expand_longer out it H1). specialize (IH _ H2). lia.
Qed.

(** The items of a group; after the last group the source ends. *)
Lemma group_spec g n i out rest :
  at_source i (body g) → (length g ≤ n)%nat → (length g = n ∨ Z.of_nat (i + length (body g)) = srcend src) →
  Z.of_nat (i + length (body g)) <= srcend src → items_ok out g →
  Z.of_nat (length (out ++ rest)) = destend src → (length (foldl expand out g) ≤ length (out ++ rest))%nat →
  ∃ rest', length (foldl expand out g ++ rest') = length (out ++ rest) ∧
    item_loop src above below n (bits g) (MkD i (out ++ rest) (length out)) =
    Ok (MkD (i + length (body g)) (foldl expand out g ++ rest') (length (foldl expand out g))).
Proof.
  revert n i out rest. induction g as [|it g IH]; intros n i out rest Hat Hn Hend Hi Hok Hd Hfit.
  - exists rest. split; [done|]. cbn [body flat_map length foldl] in *. rewrite Nat.add_0_r in *.
    destruct n as [|n]; [done|]. destruct Hend as [|Hend]; [done|]. cbn [item_loop sp].
    by destruct (Z.leb_spec (srcend src) (Z.of_nat i)); [|lia].
  - destruct Hok as (Hit & Hoff & Hok). cbn [foldl] in *. change (body (it :: g)) with (item_bytes it ++ body g) in *.
    apply at_source_app in Hat as [Hat1 Hat2]. rewrite length_app in *. destruct n as [|n]; [cbn in Hn; lia|].
    pose proof (expand_all_longer _ _ Hok). pose proof (item_bytes_length it).
    destruct (item_step n g it i out rest) as (rest1 & Hl1 & ->); try done; try lia; try (rewrite length_app; lia).
    destruct (IH n (i + length (item_bytes it))%nat (expand out it) rest1) as (rest' & Hl' & ->); try done.
    + cbn in Hn. lia.
    + destruct Hend as [Hend|Hend]; [left; cbn in Hend; lia|right; rewrite <- Hend; lia].
    + lia.
    + by rewrite Hl1, length_app.
    + rewrite Hl1, length_app. lia.
    + exists rest'. rewrite Hl', Hl1, !length_app, Nat.add_assoc. done.
Qed.

Fixpoint groups_ok (gs : list (list item)) : Prop :=
  match gs with
  | [] => True
  | g :: gs => (1 ≤ length g ≤ 8)%nat ∧ (gs ≠ [] → length g = 8%nat) ∧ groups_ok gs
  end.

Lemma items_ok_split out l l' : items_ok out (l ++ l') → items_ok out l ∧ items_ok (foldl expand out l) l'.
Proof.
  revert out. induction l as [|it l IH]; intros out H; cbn in *; [done|]. destruct H as (H1 & H2 & H3).
  destruct (IH _ H3). done.
Qed.

Lemma groups_spec gs fuel i out rest :
  groups_ok gs → at_source i (encoding gs) → Z.of_nat (i + length (encoding gs)) = srcend src → (length gs ≤ fuel)%nat →
  items_ok out (concat gs) → Z.of_nat (length (foldl expand out (concat gs))) = destend src →
  Z.of_nat (length (out ++ rest)) = destend src →
  decompress_loop src above below fuel (MkD i (out ++ rest) (length out)) =
  Ok (MkD (i + length (encoding gs)) (foldl expand out (concat gs)) (length (foldl expand out (concat gs)))).
Proof.
  revert fuel i out rest. induction gs as [|g gs IH]; intros fuel i out rest Hg Hat Hi Hf Hok Hd Hr.
  - cbn in *. rewrite Nat.add_0_r in *. assert (rest = []) as -> by (destruct rest; [done|]; rewrite length_app in Hr; cbn in Hr; lia).
    rewrite app_nil_r. destruct fuel; cbn; by destruct (Z.ltb_spec (Z.of_nat i) (srcend src)); [lia|].
  - destruct Hg as (Hlen & H8 & Hg). change (encoding (g :: gs)) with (bits g :: body g ++ encoding gs) in *.
    change (concat (g :: gs)) with (g ++ concat gs) in *. rewrite foldl_app in *. apply items_ok_split in Hok as [Hok1 Hok2].
    pose proof (expand_all_longer _ _ Hok2) as L2.
    assert (length out < length (foldl expand out g))%nat as L1.
    { destruct g as [|it g]; [cbn in Hlen; lia|]. cbn in Hok1 |- *. destruct Hok1 as (O1 & _ & O2).
      pose proof (expand_longer out it O1). pose proof (expand_all_longer _ _ O2). lia. }
    destruct fuel as [|fuel]; [cbn in Hf; lia|]. cbn [decompress_loop sp dp dest].
    cbn [length] in Hi, Hf. rewrite length_app in Hi.
    destruct (Z.ltb_spec (Z.of_nat i) (srcend src)); [|lia]. destruct (Z.ltb_spec (Z.of_nat (length out)) (destend src)); [|lia]. cbn [andb].
    pose proof (Hat 0%nat ltac:(cbn; lia)) as Hb. rewrite Nat.add_0_r in Hb. rewrite Hb.
    assert (at_source (S i) (body g ++ encoding gs)) as Hat'.
    { intros k Hk. replace (S i + k)%nat with (i + S k)%nat by lia. apply (Hat (S k)). cbn. lia. }
    apply at_source_app in Hat' as [Hat1 Hat2].
    destruct (group_spec g 8 (S i) out rest) as (rest1 & Hl1 & E1); try done; try lia.
    { destruct gs as [|g' gs]; [right; cbn in Hi; lia|left; by apply H8]. }
    change ((bits g :: body g ++ encoding gs).[0]) with (bits g). rewrite E1. unfold mbind, result_bind.
    rewrite (IH fuel (S i + length (body g))%nat (foldl expand out g) rest1); try done; try lia.
    do 2 f_equal. cbn. rewrite length_app. lia.
Qed.

(** ** Any source *)

Lemma copy_loop_safe len off d p :
  (p + len ≤ length d)%nat → ∃ d', copy_loop below len off d p = Ok (d', (p + len)%nat) ∧ length d' = length d.
Proof.
  revert d p. induction len as [|len IH]; intros d p H; cbn [copy_loop].
  { exists d. by rewrite Nat.add_0_r. }
  rewrite store_ok by lia. unfold mbind, result_bind.
  destruct (IH (<[p := dest_byte below d p off]> d) (S p)) as (d' & E & Hl); [rewrite length_insert; lia|].
  exists d'. rewrite E, Hl, length_insert, <- Nat.add_succ_comm. done.
Qed.

Definition fits (d : list Z) : Prop := length d = Z.to_nat (destend src).

Lemma copy_fits len off d p :
  fits d → Z.of_nat p + len <= destend src →
  ∃ d', copy_loop below (Z.to_nat len) off d p = Ok (d', (p + Z.to_nat len)%nat) ∧ fits d'.
Proof.
  intros Hd Hl. destruct (decide (0 <= len)).
  - destruct (copy_loop_safe (Z.to_nat len) off d p) as (d' & E & Hd'); [unfold fits in Hd; lia|].
    exists d'. split; [done|]. unfold fits. congruence.
  - exists d. replace (Z.to_nat len) with 0%nat by lia. by rewrite Nat.add_0_r.
Qed.

Lemma item_loop_safe n ct s :
  fits (dest s) → ∃ s', item_loop src above below n ct s = Ok s' ∧ fits (dest s') ∧ (sp s ≤ sp s')%nat.
Proof.
  revert ct s. induction n as [|n IH]; intros ct s Hd; cbn [item_loop]; [by exists s|].
  case_match; [by exists s|]. case_match.
  - set (l := Z.land _ 15 + 3). set (off := Z.lor _ _).
    assert (∃ l' sp', (if l =? 18 then (l + src_byte src above (sp s + 2), (sp s + 3)%nat) else (l, (sp s + 2)%nat)) = (l', sp') ∧
      (sp s ≤ sp')%nat) as (l' & sp' & -> & Hsp) by (case_match; eexists _, _; (split; [done|lia])).
    destruct (Z.ltb_spec (destend src) (Z.of_nat (dp s) + l')); [by eexists|].
    destruct (copy_fits l' off (dest s) (dp s) Hd ltac:(lia)) as (d' & -> & Hd'). unfold mbind, result_bind.
    destruct (IH (Z.shiftr ct 1) (MkD sp' d' (dp s + Z.to_nat l'))) as (s' & -> & A1 & A2); [done|]. exists s'. cbn in A2. split_and!; [done..|lia].
  - destruct (Z.leb_spec (destend src) (Z.of_nat (dp s))); [by exists s|]. rewrite store_ok by (unfold fits in Hd; lia).
    unfold mbind, result_bind. destruct (IH (Z.shiftr ct 1) (MkD (S (sp s)) (<[dp s := src_byte src above (sp s)]> (dest s)) (S (dp s)))) as (s' & -> & A1 & A2).
    + cbn. unfold fits. rewrite length_insert. exact Hd.
    + exists s'. cbn in A2. split_and!; [done..|lia].
Qed.

Lemma decompress_loop_safe fuel s :
  fits (dest s) → srcend src - Z.of_nat (sp s) <= Z.of_nat fuel →
  ∃ s', decompress_loop src above below fuel s = Ok s' ∧ fits (dest s').
Proof.
  revert s. induction fuel as [|fuel IH]; intros s Hd Hf; cbn [decompress_loop];
    destruct (Z.ltb_spec (Z.of_nat (sp s)) (srcend src)); cbn [andb]; try (by exists s); [lia|].
  case_match; [|by exists s]. destruct (item_loop_safe 8 (src_byte src above (sp s)) (MkD (S (sp s)) (dest s) (dp s)) Hd) as (s1 & -> & Hd1 & Hs1).
  unfold mbind, result_bind. cbn in Hs1. apply IH; [done|lia].
Qed.

End Decompress.

(** ** The memory after the source *)

Section Above.
Context (src : PGLZ_Header) (above1 above2 below : nat → Z) (Hdata : srcend src <= Z.of_nat (length (data src))).

(** Both runs do the same or have read beyond the end. *)
Definition same_or_over (r1 r2 : result DState) : Prop :=
  r1 = r2 ∨ ∃ s1 s2, r1 = Ok s1 ∧ r2 = Ok s2 ∧ srcend src < Z.of_nat (sp s1) ∧ srcend src < Z.of_nat (sp s2).

Lemma src_byte_same i : Z.of_nat i < srcend src → src_byte src above1 i = src_byte src above2 i.
Proof.
  intros Hi. unfold src_byte. destruct (lookup_lt_is_Some_2 (data src) i) as [b ->]; [lia|done].
Qed.

(** A tag whose last byte is beyond the end ends the loop. *)
Lemma tag_over above n ct s len off sp' :
  fits src (dest s) → srcend src < Z.of_nat sp' →
  ∃ s', (if destend src <? Z.of_nat (dp s) + len then Ok (MkD sp' (dest s) (dp s + Z.to_nat len))
         else '(d, p) ← copy_loop below (Z.to_nat len) off (dest s) (dp s); item_loop src above below n ct (MkD sp' d p)) = Ok s' ∧
    srcend src < Z.of_nat (sp s').
Proof.
  intros Hd Hsp. destruct (Z.ltb_spec (destend src) (Z.of_nat (dp s) + len)); [by eexists|].
  destruct (copy_fits src below len off (dest s) (dp s) Hd ltac:(lia)) as (d' & -> & _). unfold mbind, result_bind.
  eexists (MkD sp' d' _). destruct n; cbn [item_loop sp]; [done|]. by destruct (Z.leb_spec (srcend src) (Z.of_nat sp')); [|lia].
Qed.

Lemma both_over n ct s len1 off1 len2 off2 sp' :
  fits src (dest s) → srcend src < Z.of_nat sp' →
  same_or_over
    (if destend src <? Z.of_nat (dp s) + len1 then Ok (MkD sp' (dest s) (dp s + Z.to_nat len1))
     else '(d, p) ← copy_loop below (Z.to_nat len1) off1 (dest s) (dp s); item_loop src above1 below n ct (MkD sp' d p))
    (if destend src <? Z.of_nat (dp s) + len2 then Ok (MkD sp' (dest s) (dp s + Z.to_nat len2))
     else '(d, p) ← copy_loop below (Z.to_nat len2) off2 (dest s) (dp s); item_loop src above2 below n ct (MkD sp' d p)).
Proof.
  intros Hd Hsp. destruct (tag_over above1 n ct s len1 off1 sp' Hd Hsp) as (s1 & -> & H1).
  destruct (tag_over above2 n ct s len2 off2 sp' Hd Hsp) as (s2 & -> & H2). right. by exists s1, s2.
Qed.

Lemma item_loop_same n ct s :
  fits src (dest s) → same_or_over (item_loop src above1 below n ct s) (item_loop src above2 below n ct s).
Proof.
  revert ct s. induction n as [|n IH]; intros ct s Hd; cbn [item_loop]; [by left|].
  destruct (Z.leb_spec (srcend src) (Z.of_nat (sp s))) as [|Hsp]; [by left|]. rewrite (src_byte_same (sp s)) by done. case_match.
  - set (l := Z.land _ 15 + 3). set (hi := Z.shiftl _ 4). destruct (Z.eqb_spec l 18) as [El|El].
    + destruct (decide (Z.of_nat (sp s + 3) <= srcend src)) as [Hin|Hout].
      * rewrite !src_byte_same by lia. case_match; [by left|].
        destruct (copy_fits src below (l + src_byte src above2 (sp s + 2)) (Z.lor hi (src_byte src above2 (sp s + 1))) (dest s) (dp s) Hd ltac:(lia)) as (d' & -> & Hd').
        apply IH. done.
      * apply both_over; [done|lia].
    + destruct (decide (Z.of_nat (sp s + 2) <= srcend src)) as [Hin|Hout].
      * rewrite !src_byte_same by lia. case_match; [by left|].
        destruct (copy_fits src below l (Z.lor hi (src_byte src above2 (sp s + 1))) (dest s) (dp s) Hd ltac:(lia)) as (d' & -> & Hd').
        apply IH. done.
      * apply both_over; [done|lia].
  - case_match; [by left|]. rewrite store_ok by (unfold fits in Hd; lia). unfold mbind, result_bind. apply IH.
    cbn. unfold fits. by rewrite length_insert.
Qed.

Lemma decompress_over above fuel s : srcend src < Z.of_nat (sp s) → decompress_loop src above below fuel s = Ok s.
Proof. intros H. destruct fuel; cbn [decompress_loop]; by destruct (Z.ltb_spec (Z.of_nat (sp s)) (srcend src)); [lia|]. Qed.

Lemma decompress_loop_same fuel s :
  fits src (dest s) → same_or_over (decompress_loop src above1 below fuel s) (decompress_loop src above2 below fuel s).
Proof.
  revert s. induction fuel as [|fuel IH]; intros s Hd; [left; reflexivity|]. cbn [decompress_loop].
  destruct (Z.ltb_spec (Z.of_nat (sp s)) (srcend src)) as [Hs|]; cbn [andb]; [|left; reflexivity].
  destruct (Z.of_nat (dp s) <? destend src); [|left; reflexivity].
  rewrite src_byte_same by done. destruct (item_loop_same 8 (src_byte src above2 (sp s)) (MkD (S (sp s)) (dest s) (dp s)) Hd) as [->|H'].
  - destruct (item_loop_safe src above2 below 8 (src_byte src above2 (sp s)) (MkD (S (sp s)) (dest s) (dp s)) Hd) as (s1 & -> & Hd1 & _).
    by apply IH.
  - destruct H' as (s1 & s2 & -> & -> & H1 & H2). unfold mbind, result_bind. rewrite !decompress_over by done.
    right. by exists s1, s2.
Qed.

Lemma decompress_same dest0 :
  fits src dest0 → pglz_decompress src above1 below dest0 = pglz_decompress src above2 below dest0.
Proof.
  intros Hd. unfold pglz_decompress.
  destruct (decompress_loop_same (Z.to_nat (srcend src)) (MkD 0 dest0 0) Hd) as [->|(s1 & s2 & -> & -> & H1 & H2)]; [done|].
  unfold mbind, result_bind.
  destruct (Z.eqb_spec (Z.of_nat (sp s1)) (srcend src)), (Z.eqb_spec (Z.of_nat (sp s2)) (srcend src)); try lia.
  by rewrite !orb_true_r.
Qed.

End Above.

(** ** Theorems *)

Lemma groups_ok_of gs g : Forall (λ g, length g = 8%nat) gs → g ≠ [] → (length g ≤ 8)%nat → groups_ok (gs ++ [g]).
Proof.
  intros Hgs Hg Hl. induction Hgs as [|g' gs E _ IH]; cbn.
  - destruct g; [done|]. cbn in *. split; [lia|done].
  - rewrite E. split; [lia|done].
Qed.

Lemma groups_count gs : (length gs ≤ length (encoding gs))%nat.
Proof. unfold encoding. induction gs as [|g gs IH]; cbn; [lia|]. rewrite length_app. lia. Qed.

Lemma decompress_spec source d gs g above below dest0 :
  holds source d gs g → Z.of_nat (length (encoding (gs ++ [g]))) + sizeof_header < 2 ^ 30 → length dest0 = length source →
  pglz_decompress d above below dest0 = Ok source.
Proof.
  intros [[rest Hdata] Hfull [Hg Hg8] Hlen Hraw Hitems Hexp] Hsize Hdest.
  assert (concat (gs ++ [g]) = concat gs ++ g) as Ec by (rewrite concat_app; cbn; by rewrite app_nil_r). rewrite <- Ec in *.
  assert (srcend d = Z.of_nat (length (encoding (gs ++ [g])))) as Hend.
  { unfold srcend. rewrite Hlen, varsize_set; unfold sizeof_header in *; lia. }
  unfold pglz_decompress. change (MkD 0 dest0 0) with (MkD 0 ([] ++ dest0) (length (@nil Z))).
  rewrite (groups_spec d above below (gs ++ [g])).
  - unfold mbind, result_bind. cbn [dp sp dest]. rewrite Hexp, Nat.add_0_l. unfold destend. rewrite Hraw, Hend, !Z.eqb_refl. done.
  - by apply groups_ok_of.
  - intros k Hk. unfold src_byte. rewrite Hdata, lookup_app_l, Nat.add_0_l by lia. unfold word_at.
    destruct (lookup_lt_is_Some_2 (encoding (gs ++ [g])) k Hk) as [b ->]. done.
  - by rewrite Hend.
  - rewrite Hend, Nat2Z.id. apply groups_count.
  - done.
  - rewrite Hexp. by unfold destend.
  - cbn. unfold destend. by rewrite Hraw, Hdest.
Qed.

Definition room_ok (source dest : list Z) : Prop :=
  PGLZ_MAX_OUTPUT (Z.of_nat (length source)) <= sizeof_header + Z.of_nat (length dest).

(** C5: what was compressed is decompressed to what it was.  Whenever [pglz_compress]
    succeeds on a source within the limit of a varlena header, with any strategy, any contents of the output area and any entries left
    in the static history by earlier calls, then [pglz_decompress] writes exactly
    the source into an area of [PGLZ_RAW_SIZE] bytes, whatever memory surrounds it. *)
Theorem pglz_roundtrip source strategy dest he d he' above below dest0 :
  Forall is_u8 source → room_ok source dest → Z.of_nat (length source) + sizeof_header < 2 ^ 30 →
  pglz_compress source strategy dest he = Ok (Some d, he') →
  Z.of_nat (length dest0) = PGLZ_RAW_SIZE d →
  pglz_decompress d above below dest0 = Ok source.
Proof.
  intros Hb Hroom Hsize E Hdest. unfold room_ok, PGLZ_MAX_OUTPUT, sizeof_header in *.
  destruct (compress_spec source Hb strategy dest he ltac:(lia)) as (r & he1 & E' & Hr).
  rewrite E in E'. injection E' as <- <-. destruct Hr as (_ & gs & g & Hh & Hmax).
  pose proof (result_max_le source (rate_of strategy) (limit_range 0 99 _ ltac:(lia))) as Hle.
  apply (decompress_spec source d gs g); [done|unfold sizeof_header; lia|].
  unfold PGLZ_RAW_SIZE in Hdest. rewrite (h_raw _ _ _ _ Hh) in Hdest. lia.
Qed.

(** C22: the compressor is safe and pays off.  With an output area of
    [PGLZ_MAX_OUTPUT] bytes it ends, walks its linked lists without getting lost and
    stores nothing outside of the area, for any input and strategy; what it returns
    is smaller than the input by the rate that the strategy asks for. *)
Theorem pglz_compress_safe source strategy dest he :
  Forall is_u8 source → room_ok source dest →
  ∃ r he', pglz_compress source strategy dest he = Ok (r, he') ∧
    match r with
    | None => True
    | Some d =>
        length (data d) = length dest ∧ PGLZ_RAW_SIZE d = Z.of_nat (length source) ∧
        (Z.of_nat (length source) + sizeof_header < 2 ^ 30 →
         VARSIZE_4B (vl_len_ d) - sizeof_header < result_max_of source (rate_of strategy) <= Z.of_nat (length source))
    end.
Proof.
  intros Hb Hroom. unfold room_ok, PGLZ_MAX_OUTPUT, sizeof_header in *.
  destruct (compress_spec source Hb strategy dest he ltac:(lia)) as (r & he1 & E & Hr). exists r, he1. split; [done|].
  destruct r as [d|]; [|done]. destruct Hr as (Hlen & gs & g & Hh & Hmax). split; [done|]. split; [apply (h_raw _ _ _ _ Hh)|].
  pose proof (result_max_le source (rate_of strategy) (limit_range 0 99 _ ltac:(lia))) as Hle. intros Hsize.
  rewrite (h_len _ _ _ _ Hh), varsize_set by (unfold sizeof_header; lia). unfold sizeof_header. lia.
Qed.

(** ** A repetition *)

Definition sample_source : list Z := [97; 98; 99; 100; 97; 98; 99; 100; 97; 98; 99; 100; 97; 98; 99; 100].
Definition sample_dest : list Z := replicate 20 0.
Definition sample_datum : PGLZ_Header :=
  match pglz_compress sample_source (Some strategy_always_data) sample_dest ∅ with
  | Ok (Some d, _) => d
  | _ => MkHeader 0 0 []
  end.
Definition sample_entries : gmap nat PGLZ_HistEntry :=
  match pglz_compress sample_source (Some strategy_always_data) sample_dest ∅ with Ok (_, he) => he | Err _ => ∅ end.

Lemma sample_bytes : Forall is_u8 sample_source.
Proof. repeat constructor; unfold is_u8; lia. Qed.

Lemma pglz_roundtrip_witness :
  take 7 (data sample_datum) = [16; 97; 98; 99; 100; 9; 4] ∧
  pglz_decompress sample_datum (λ _, 0) (λ _, 0) (replicate 16 0) = Ok sample_source.
Proof.
  split; [vm_compute; reflexivity|].
  apply (pglz_roundtrip sample_source (Some strategy_always_data) sample_dest ∅ sample_datum sample_entries);
    [apply sample_bytes|vm_compute; discriminate|vm_compute; reflexivity|vm_compute; reflexivity|vm_compute; reflexivity].
Defined.

Lemma pglz_compress_safe_witness :
  ∃ r he', pglz_compress sample_source None sample_dest ∅ = Ok (r, he') ∧
    match r with
    | None => True
    | Some d =>
        length (data d) = length sample_dest ∧ PGLZ_RAW_SIZE d = Z.of_nat (length sample_source) ∧
        (Z.of_nat (length sample_source) + sizeof_header < 2 ^ 30 →
         VARSIZE_4B (vl_len_ d) - sizeof_header < result_max_of sample_source (rate_of None) <= Z.of_nat (length sample_source))
    end.
Proof. apply (pglz_compress_safe sample_source None sample_dest ∅); [apply sample_bytes|vm_compute; discriminate]. Defined.

End PglzProps.
