(* ===== verification/PglzFormat.v ===== *)
(** The format of compressed data and the decompressor on any bytes: a reference
    reading of the bytes as literals and tags, what the items mean for the output,
    and the theorem that [pglz_decompress] (src/backend/utils/adt/pg_lzcompress.c)
    computes exactly this, or reports corrupt data.  Unlike [expand] of [PglzSpec],
    which the round trip uses, the meaning here covers every offset that the bytes
    can spell, also the ones that the compressor never writes. *)
From Stdlib Require Import ZArith Lia.
From stdpp Require Import base gmap list option numbers strings.
From S2P Require Import Prelude Pglz PglzSpec PglzProps.
Import Pglz PglzSpec PglzProps.

Module PglzFormat.

(** ** The items of a datum *)

(** One item and the bytes after it; a set bit says that it is a tag. *)
Definition read_item (tag : bool) (bs : list Z) : option (item * list Z) :=
  match tag, bs with
  | false, b :: bs => Some (Lit b, bs)
  | true, b0 :: b1 :: bs =>
      let len := Z.land b0 0x0f + 3 in
      let off := Z.lor (Z.shiftl (Z.land b0 0xf0) 4) b1 in
      if len =? 18 then
        match bs with
        | b2 :: bs => Some (Tag (Z.to_nat (len + b2)) off, bs)
        | [] => None
        end
      else Some (Tag (Z.to_nat len) off, bs)
  | _, _ => None
  end.

(** The items of [n] bits of a control byte: fewer only at the end of the data. *)
Fixpoint read_group (n : nat) (ctrl : Z) (bs : list Z) : option (list item * list Z) :=
  match n, bs with
  | O, _ | _, [] => Some ([], bs)
  | S n, _ =>
      '(it, bs) ← read_item (negb (Z.land ctrl 1 =? 0)) bs;
      '(g, bs) ← read_group n (Z.shiftr ctrl 1) bs;
      Some (it :: g, bs)
  end.

(** The groups; a control byte without an item is no group. *)
Fixpoint read_items (fuel : nat) (bs : list Z) : option (list item) :=
  match bs with
  | [] => Some []
  | ctrl :: rest =>
      match fuel, rest with
      | S fuel, _ :: _ =>
          '(g, bs) ← read_group 8 ctrl rest;
          l ← read_items fuel bs;
          Some (g ++ l)
      | _, _ => None
      end
  end.

(** ** The meaning of the items *)

Section Meaning.
Context (below : nat → Z) (dest0 : list Z).

(** The byte that an offset refers to when [out] has been written: in front of the
    area when it is too large, the old contents of the area when it is zero. *)
Definition back (out : list Z) (off : Z) : Z :=
  let i := Z.of_nat (length out) - off in
  if i <? 0 then below (Z.to_nat (- i - 1)) else (out ++ drop (length out) dest0).[Z.to_nat i].
Fixpoint repeat_any (len : nat) (off : Z) (out : list Z) : list Z :=
  match len with
  | O => out
  | S len => repeat_any len off (out ++ [back out off])
  end.
Definition expand_any (out : list Z) (it : item) : list Z :=
  match it with Lit b => out ++ [b] | Tag len off => repeat_any len off out end.
Definition meaning (l : list item) : list Z := foldl expand_any [] l.

Lemma repeat_any_length len off out : length (repeat_any len off out) = (length out + len)%nat.
Proof. revert out. induction len as [|len IH]; intros out; cbn; [lia|]. rewrite IH, length_app. cbn. lia. Qed.

Lemma repeat_any_prefix len off out : out `prefix_of` repeat_any len off out.
Proof.
  revert out. induction len as [|len IH]; intros out; cbn [repeat_any]; [done|].
  etrans; [|apply IH]. by apply prefix_app_r.
Qed.

(** An offset that is too large takes bytes from in front of the area. *)
Lemma repeat_any_below len off out k :
  (k < len)%nat → Z.of_nat (length out + k) < off →
  repeat_any len off out !! (length out + k)%nat = Some (below (Z.to_nat (off - Z.of_nat (length out + k) - 1))).
Proof.
  revert out k. induction len as [|len IH]; intros out k Hk Ho; [lia|]. cbn [repeat_any]. destruct k as [|k].
  - eapply prefix_lookup_Some; [|apply repeat_any_prefix]. rewrite Nat.add_0_r in *. rewrite list_lookup_middle by done. f_equal. unfold back.
    destruct (Z.ltb_spec (Z.of_nat (length out) - off) 0); [|lia]. f_equal. lia.
  - specialize (IH (out ++ [back out off]) k). rewrite length_app in IH. cbn [length] in IH.
    replace (length out + S k)%nat with (length out + 1 + k)%nat in * by lia. apply IH; lia.
Qed.

Lemma expand_any_prefix l out : out `prefix_of` foldl expand_any out l.
Proof.
  revert out. induction l as [|it l IH]; intros out; cbn [foldl]; [done|]. etrans; [|apply IH].
  destruct it; cbn; [by apply prefix_app_r|apply repeat_any_prefix].
Qed.

Definition item_any (it : item) : Prop := match it with Lit _ => True | Tag len _ => (3 ≤ len)%nat end.

Lemma expand_any_longer out it : item_any it → (length out < length (expand_any out it))%nat.
Proof. destruct it; cbn; [rewrite length_app; cbn; lia|]. intros ?. rewrite repeat_any_length. lia. Qed.

Lemma expand_any_le l out : (length out ≤ length (foldl expand_any out l))%nat.
Proof. apply prefix_length, expand_any_prefix. Qed.

(** The output area when [out] has been written. *)
Definition area (out : list Z) : list Z := out ++ drop (length out) dest0.

Lemma area_store out x :
  (length out < length dest0)%nat → store (area out) (length out) x = Ok (area (out ++ [x])).
Proof.
  intros H. unfold area. destruct (lookup_lt_is_Some_2 dest0 (length out) H) as [y Hy].
  rewrite (drop_S _ _ _ Hy), store_at by done. rewrite length_app, <- app_assoc. cbn. by rewrite Nat.add_1_r.
Qed.

Lemma copy_loop_any len off out :
  (length out + len ≤ length dest0)%nat →
  copy_loop below len off (area out) (length out) = Ok (area (repeat_any len off out), (length out + len)%nat).
Proof.
  revert out. induction len as [|len IH]; intros out H; cbn [copy_loop repeat_any]; [by rewrite Nat.add_0_r|].
  rewrite area_store by lia. unfold mbind, result_bind. change (dest_byte below (area out) (length out) off) with (back out off).
  replace (S (length out)) with (length (out ++ [back out off])) by (rewrite length_app; cbn; lia).
  rewrite IH; rewrite length_app; cbn; [|lia]. do 2 f_equal. lia.
Qed.

End Meaning.

(** ** What is read *)

Lemma read_item_ok tag bs it bs' :
  Forall is_u8 bs → read_item tag bs = Some (it, bs') →
  item_any it ∧ Forall is_u8 bs' ∧ (length bs' < length bs)%nat.
Proof.
  intros Hb. destruct tag, bs as [|b0 bs]; cbn; try done; [|intros [= <- <-]; apply Forall_cons in Hb as [_ Hb]; split_and!; [done..|lia]].
  destruct bs as [|b1 bs]; [done|]. apply Forall_cons in Hb as [_ Hb]. apply Forall_cons in Hb as [_ Hb].
  assert (0 <= Z.land b0 15) by (apply Z.land_nonneg; lia).
  case_match; [|intros [= <- <-]; cbn; split_and!; [lia|done|lia]].
  destruct bs as [|b2 bs]; [done|]. apply Forall_cons in Hb as [Hb2 Hb]. intros [= <- <-]. cbn.
  unfold is_u8 in Hb2. split_and!; [lia|done|lia].
Qed.

Lemma read_group_more n ctrl b bs :
  read_group (S n) ctrl (b :: bs) =
  '(it, bs) ← read_item (negb (Z.land ctrl 1 =? 0)) (b :: bs); '(g, bs) ← read_group n (Z.shiftr ctrl 1) bs; Some (it :: g, bs).
Proof. done. Qed.

Lemma read_group_bytes n ctrl bs g bs' :
  Forall is_u8 bs → read_group n ctrl bs = Some (g, bs') → Forall is_u8 bs' ∧ (length bs' ≤ length bs)%nat.
Proof.
  revert ctrl bs g. induction n as [|n IH]; intros ctrl [|b bs] g Hb; cbn [read_group]; try (intros [= <- <-]; by split).
  destruct (read_item _ _) as [[it bs1]|] eqn:E1; [|done]. apply read_item_ok in E1 as (_ & Hb1 & Hl); [|done]. cbn.
  destruct (read_group n _ bs1) as [[g1 bs2]|] eqn:E2; [|done]. cbn. intros [= <- <-].
  apply IH in E2 as [? ?]; [|done]. split; [done|]. cbn in *. lia.
Qed.

(** ** The loops read this *)

Section Loops.
Context (src : PGLZ_Header) (above below : nat → Z) (dest0 : list Z).
Context (Hdest : length dest0 = Z.to_nat (destend src)).
Context (Hdata : 0 <= srcend src <= Z.of_nat (length (data src))) (Hbytes : Forall is_u8 (data src)).

Definition source : list Z := take (Z.to_nat (srcend src)) (data src).

(** The state when [out] has been written and [bs] is left. *)
Definition at_state (out bs : list Z) (s : DState) : Prop :=
  dest s = area dest0 out ∧ dp s = length out ∧ bs = drop (sp s) source ∧ (sp s ≤ length source)%nat.

(** A state that the loop ends in and that is reported as corrupt. *)
Definition bad (s : DState) : Prop :=
  srcend src < Z.of_nat (sp s) ∨ destend src < Z.of_nat (dp s) ∨ (destend src = Z.of_nat (dp s) ∧ Z.of_nat (sp s) < srcend src).

Lemma source_length : Z.of_nat (length source) = srcend src.
Proof. unfold source. rewrite length_take. lia. Qed.

Lemma source_bytes : Forall is_u8 source.
Proof. by apply Forall_take. Qed.

Lemma source_byte i b bs : drop i source = b :: bs → src_byte src above i = b ∧ drop (S i) source = bs ∧ (i < length source)%nat.
Proof.
  intros E. assert (source !! i = Some b) as Hb by (by rewrite <- (Nat.add_0_r i), <- lookup_drop, E).
  split_and!; [|by rewrite <- Nat.add_1_r, <- drop_drop, E|by apply lookup_lt_Some in Hb].
  unfold source in Hb. apply lookup_take_Some in Hb as [Hb _]. unfold src_byte. by rewrite Hb.
Qed.

Lemma source_end i : (i ≤ length source)%nat → drop i source = [] → i = length source.
Proof. intros Hi E. apply (f_equal length) in E. rewrite length_drop in E. cbn in E. lia. Qed.

Lemma source_more i b bs : drop i source = b :: bs → (srcend src <=? Z.of_nat i) = false.
Proof. intros E. apply source_byte in E as (_ & _ & ?). pose proof source_length. lia. Qed.

Lemma area_fits out : Z.of_nat (length out) <= destend src → fits src (area dest0 out).
Proof. intros H. unfold fits, area. rewrite length_app, length_drop. lia. Qed.

(** What a loop makes of the state when the reading is [r]. *)
Definition outcome (out : list Z) (r : option (list item * list Z)) (s : DState) : Prop :=
  match r with
  | Some (g, bs) =>
      let out := foldl (expand_any below dest0) out g in
      if Z.of_nat (length out) <=? destend src then at_state out bs s else bad s
  | None => bad s
  end.

(** A state that is bad since the item does not fit. *)
Lemma outcome_full out it r s :
  destend src < Z.of_nat (length (expand_any below dest0 out it)) → bad s →
  outcome out ('(g, bs) ← r; Some (it :: g, bs)) s.
Proof.
  intros Hl Hs. destruct r as [[g bs]|]; cbn; [|done].
  pose proof (expand_any_le below dest0 g (expand_any below dest0 out it)).
  by destruct (Z.leb_spec (Z.of_nat (length (foldl (expand_any below dest0) (expand_any below dest0 out it) g))) (destend src)); [lia|].
Qed.

Lemma outcome_cons out it r s :
  outcome (expand_any below dest0 out it) r s → outcome out ('(g, bs) ← r; Some (it :: g, bs)) s.
Proof. by destruct r as [[g bs]|]. Qed.

(** A tag that is all there. *)
Lemma tag_step n ctrl out bs s len off sp' :
  (∀ s, at_state (repeat_any below dest0 (Z.to_nat len) off out) bs s →
     Z.of_nat (length (repeat_any below dest0 (Z.to_nat len) off out)) <= destend src →
     ∃ s', item_loop src above below n ctrl s = Ok s' ∧ outcome (repeat_any below dest0 (Z.to_nat len) off out) (read_group n ctrl bs) s') →
  0 <= len → dest s = area dest0 out → dp s = length out → bs = drop sp' source → (sp' ≤ length source)%nat →
  ∃ s', (if destend src <? Z.of_nat (dp s) + len then Ok (MkD sp' (dest s) (dp s + Z.to_nat len))
         else '(d, p) ← copy_loop below (Z.to_nat len) off (dest s) (dp s); item_loop src above below n ctrl (MkD sp' d p)) = Ok s' ∧
    outcome out ('(g, bs) ← read_group n ctrl bs; Some (Tag (Z.to_nat len) off :: g, bs)) s'.
Proof.
  intros IH Hlen Hd Hp Hbs Hsp. rewrite Hd, Hp. pose proof (repeat_any_length below dest0 (Z.to_nat len) off out) as Hr.
  destruct (Z.ltb_spec (destend src) (Z.of_nat (length out) + len)) as [Hfull|Hfits].
  - eexists. split; [done|]. apply outcome_full; [cbn; lia|]. right. left. cbn. lia.
  - rewrite copy_loop_any by lia. unfold mbind at 1, result_bind.
    destruct (IH (MkD sp' (area dest0 (repeat_any below dest0 (Z.to_nat len) off out)) (length out + Z.to_nat len))) as (s' & E & Ho).
    + by split_and!.
    + lia.
    + exists s'. split; [exact E|]. by apply outcome_cons.
Qed.

(** A tag that is cut off by the end of the data. *)
Lemma tag_cut n ctrl s len off sp' :
  fits src (dest s) → srcend src < Z.of_nat sp' →
  ∃ s', (if destend src <? Z.of_nat (dp s) + len then Ok (MkD sp' (dest s) (dp s + Z.to_nat len))
         else '(d, p) ← copy_loop below (Z.to_nat len) off (dest s) (dp s); item_loop src above below n ctrl (MkD sp' d p)) = Ok s' ∧ bad s'.
Proof. intros Hf Hsp. destruct (tag_over src below above n ctrl s len off sp' Hf Hsp) as (s' & E & H). exists s'. split; [exact E|by left]. Qed.

Lemma tag_any n ctrl out b0 bs s :
  (∀ out bs s, at_state out bs s → Z.of_nat (length out) <= destend src →
     ∃ s', item_loop src above below n ctrl s = Ok s' ∧ outcome out (read_group n ctrl bs) s') →
  at_state out (b0 :: bs) s → Z.of_nat (length out) <= destend src →
  ∃ s', (let '(len, sp') := if Z.land b0 15 + 3 =? 18 then (Z.land b0 15 + 3 + src_byte src above (sp s + 2), (sp s + 3)%nat)
                            else (Z.land b0 15 + 3, (sp s + 2)%nat) in
         if destend src <? Z.of_nat (dp s) + len then Ok (MkD sp' (dest s) (dp s + Z.to_nat len))
         else '(d, p) ← copy_loop below (Z.to_nat len) (Z.lor (Z.shiftl (Z.land b0 240) 4) (src_byte src above (sp s + 1))) (dest s) (dp s);
              item_loop src above below n ctrl (MkD sp' d p)) = Ok s' ∧
    outcome out ('(it, bs) ← read_item true (b0 :: bs); '(g, bs) ← read_group n ctrl bs; Some (it :: g, bs)) s'.
Proof.
  intros IH (Hd & Hp & Hbs & Hsp) Hout. pose proof source_length as Hlen.
  pose proof source_bytes as Hbytes2. pose proof (area_fits out Hout) as Hf. rewrite <- Hd in Hf.
  assert (0 <= Z.land b0 15) by (apply Z.land_nonneg; lia). set (l := Z.land b0 15 + 3) in *.
  destruct (source_byte _ _ _ (eq_sym Hbs)) as (_ & Hbs1 & Hsp1). destruct bs as [|b1 bs].
  { apply source_end in Hbs1; [|lia]. destruct (l =? 18); apply tag_cut; (done || lia). }
  destruct (source_byte _ _ _ Hbs1) as (Hb1 & Hbs2 & Hsp2). rewrite <- Nat.add_1_r in Hb1. rewrite Hb1. cbn [read_item]. fold l.
  destruct (Z.eqb_spec l 18) as [El|El]; cycle 1.
  { unfold mbind at 2, option_bind at 1. apply tag_step; [by intros; apply IH|lia|done..| |lia]. rewrite <- Hbs2. f_equal. lia. }
  destruct bs as [|b2 bs].
  { apply source_end in Hbs2; [|lia]. apply tag_cut; (done || lia). }
  destruct (source_byte _ _ _ Hbs2) as (Hb2 & Hbs3 & Hsp3). replace (S (S (sp s))) with (sp s + 2)%nat in * by lia. rewrite Hb2.
  assert (is_u8 b2) as Hu. { apply (Forall_drop _ (sp s + 2)%nat) in Hbytes2. rewrite Hbs2 in Hbytes2. by apply Forall_cons in Hbytes2 as [? _]. }
  unfold mbind at 2, option_bind at 1. unfold is_u8 in Hu. apply tag_step; [by intros; apply IH|lia|done..| |lia]. rewrite <- Hbs3. f_equal. lia.
Qed.

Lemma item_loop_any n ctrl out bs s :
  at_state out bs s → Z.of_nat (length out) <= destend src →
  ∃ s', item_loop src above below n ctrl s = Ok s' ∧ outcome out (read_group n ctrl bs) s'.
Proof.
  revert ctrl out bs s. induction n as [|n IH]; intros ctrl out bs s Hs Hout.
  { exists s. split; [done|]. cbn. by destruct (Z.leb_spec (Z.of_nat (length out)) (destend src)); [|lia]. }
  destruct Hs as (Hd & Hp & Hbs & Hsp). cbn [item_loop]. pose proof source_length as Hlen. destruct bs as [|b0 bs].
  { exists s. symmetry in Hbs. pose proof (source_end _ Hsp Hbs). split; [by destruct (Z.leb_spec (srcend src) (Z.of_nat (sp s))); [|lia]|].
    cbn. destruct (Z.leb_spec (Z.of_nat (length out)) (destend src)); [|lia]. by split_and!. }
  rewrite (source_more _ _ _ (eq_sym Hbs)). destruct (source_byte _ _ _ (eq_sym Hbs)) as (-> & Hbs1 & Hsp1).
  cbn [read_group]. destruct (negb _); cycle 1.
  - cbn [read_item]. unfold mbind at 2, option_bind at 1. rewrite Hp, Hd.
    destruct (Z.leb_spec (destend src) (Z.of_nat (length out))) as [Hfull|Hroom].
    + exists s. split; [done|]. apply outcome_full; [cbn; rewrite length_app; cbn; lia|]. right. right. lia.
    + rewrite area_store by lia. unfold mbind at 1, result_bind.
      destruct (IH (Z.shiftr ctrl 1) (out ++ [b0]) bs (MkD (S (sp s)) (area dest0 (out ++ [b0])) (S (length out)))) as (s' & E & Ho).
      * split_and!; [done|cbn; rewrite length_app; cbn; lia|done|cbn; lia].
      * rewrite length_app; cbn; lia.
      * exists s'. split; [exact E|]. by apply outcome_cons.
  - apply tag_any; [intros; by apply IH|by split_and!|done].
Qed.

(** ** The outer loop *)

(** What the call returns when the loop has ended in [s]. *)
Definition finish (s : DState) : result (list Z) :=
  if negb (Z.of_nat (dp s) =? destend src) || negb (Z.of_nat (sp s) =? srcend src) then Err corrupt else Ok (dest s).

Definition decoded (out : list Z) (r : option (list item)) : result (list Z) :=
  match r with
  | Some l =>
      let out := foldl (expand_any below dest0) out l in
      if Z.of_nat (length out) =? destend src then Ok out else Err corrupt
  | None => Err corrupt
  end.

Lemma bad_ends fuel s : bad s → decompress_loop src above below fuel s = Ok s ∧ finish s = Err corrupt.
Proof.
  intros Hs. unfold bad, finish in *. split.
  - destruct fuel; cbn [decompress_loop];
      destruct (Z.ltb_spec (Z.of_nat (sp s)) (srcend src)), (Z.ltb_spec (Z.of_nat (dp s)) (destend src)); cbn [andb]; (done || lia).
  - destruct (Z.eqb_spec (Z.of_nat (dp s)) (destend src)), (Z.eqb_spec (Z.of_nat (sp s)) (srcend src)); cbn [negb orb]; (done || lia).
Qed.

(** More items do not fit. *)
Lemma decoded_full out l : destend src < Z.of_nat (length out) → decoded out (Some l) = Err corrupt.
Proof.
  intros H. cbn. pose proof (expand_any_le below dest0 l out).
  by destruct (Z.eqb_spec (Z.of_nat (length (foldl (expand_any below dest0) out l))) (destend src)); [lia|].
Qed.

Lemma decoded_app out g r : decoded out (l ← r; Some (g ++ l)) = decoded (foldl (expand_any below dest0) out g) r.
Proof. destruct r as [l|]; [|done]. cbn. by rewrite foldl_app. Qed.

Lemma read_items_cons fuel ctrl bs l :
  Forall is_u8 bs → read_items fuel (ctrl :: bs) = Some l → ∃ it l', l = it :: l' ∧ item_any it.
Proof.
  intros Hb. destruct fuel as [|fuel], bs as [|b bs]; cbn [read_items]; try done.
  rewrite read_group_more. destruct (read_item _ _) as [[it bs1]|] eqn:E; [|done]. apply read_item_ok in E as (Hit & _); [|done].
  cbn -[read_group]. destruct (read_group 7 _ bs1) as [[g bs2]|]; [|done]. cbn. destruct (read_items fuel bs2) as [l'|]; [|done]. cbn.
  intros [= <-]. by exists it, (g ++ l').
Qed.

Lemma loop_at_end fuel out s :
  at_state out [] s → Z.of_nat (length out) <= destend src →
  decompress_loop src above below fuel s = Ok s ∧ finish s = decoded out (Some []).
Proof.
  intros (Hd & Hp & Hbs & Hsp) Hout. pose proof (source_end _ Hsp (eq_sym Hbs)) as He. pose proof source_length as Hlen. split.
  - destruct fuel; cbn [decompress_loop]; by destruct (Z.ltb_spec (Z.of_nat (sp s)) (srcend src)); [lia|].
  - unfold finish. cbn. rewrite Hp, Hd. destruct (Z.eqb_spec (Z.of_nat (sp s)) (srcend src)); [|lia].
    destruct (Z.eqb_spec (Z.of_nat (length out)) (destend src)); [|done]. cbn. unfold area. rewrite drop_ge, app_nil_r by lia. done.
Qed.

Lemma decompress_loop_any fuel out bs s :
  at_state out bs s → Z.of_nat (length out) <= destend src → (length bs ≤ fuel)%nat →
  ∃ s', decompress_loop src above below fuel s = Ok s' ∧ finish s' = decoded out (read_items fuel bs).
Proof.
  revert out bs s. induction fuel as [|fuel IH]; intros out [|c bs] s Hs Hout Hf; try (exists s; by apply loop_at_end); [cbn in Hf; lia|].
  destruct Hs as (Hd & Hp & Hbs & Hsp). pose proof source_length as Hlen.
  destruct (source_byte _ _ _ (eq_sym Hbs)) as (Hc & Hbs1 & Hsp1).
  assert (Forall is_u8 bs) as Hb by (rewrite <- Hbs1; apply Forall_drop, source_bytes).
  destruct (decide (Z.of_nat (length out) = destend src)) as [Hfull|Hroom].
  { exists s. destruct (bad_ends (S fuel) s) as [E1 E2]; [right; right; lia|]. split; [exact E1|]. rewrite E2.
    destruct (read_items (S fuel) (c :: bs)) as [l|] eqn:E; [|done]. destruct (read_items_cons _ _ _ _ Hb E) as (it & l' & -> & Hit).
    symmetry. change (decoded (expand_any below dest0 out it) (Some l') = Err corrupt). apply decoded_full.
    pose proof (expand_any_longer below dest0 out it Hit). cbn. lia. }
  cbn [decompress_loop]. destruct (Z.ltb_spec (Z.of_nat (sp s)) (srcend src)); [|lia].
  destruct (Z.ltb_spec (Z.of_nat (dp s)) (destend src)); [|lia]. cbn [andb]. rewrite Hc.
  destruct (item_loop_any 8 c out bs (MkD (S (sp s)) (dest s) (dp s))) as (s1 & -> & Ho); [by split_and!|done|].
  unfold mbind at 1, result_bind. destruct bs as [|b bs].
  { cbn in Ho. destruct (Z.leb_spec (Z.of_nat (length out)) (destend src)); [|lia]. exists s1.
    destruct (loop_at_end fuel out s1 Ho Hout) as [E1 E2]. split; [exact E1|]. rewrite E2. cbn.
    by destruct (Z.eqb_spec (Z.of_nat (length out)) (destend src)); [lia|]. }
  cbn [read_items]. destruct (read_group 8 c (b :: bs)) as [[g bs']|] eqn:Eg; cycle 1.
  { exists s1. by apply bad_ends. }
  apply read_group_bytes in Eg as [_ Hl]; [|done]. unfold mbind, option_bind at 1. cbn in Ho.
  destruct (Z.leb_spec (Z.of_nat (length (foldl (expand_any below dest0) out g))) (destend src)) as [Hle|Hgt].
  - destruct (IH _ _ _ Ho Hle) as (s' & E1 & E2); [cbn in *; lia|]. exists s'. split; [exact E1|]. by rewrite decoded_app.
  - exists s1. destruct (bad_ends fuel s1 Ho) as [E1 ->]. split; [exact E1|]. rewrite decoded_app.
    destruct (read_items fuel bs') as [l|]; [|done]. by rewrite decoded_full.
Qed.

(** The whole call. *)
Lemma decompress_any : pglz_decompress src above below dest0 = decoded [] (read_items (length source) source).
Proof.
  unfold pglz_decompress. destruct (decide (0 <= destend src)) as [H0|H0].
  - destruct (decompress_loop_any (Z.to_nat (srcend src)) [] source (MkD 0 dest0 0)) as (s & -> & E).
    + by split_and!; [..|cbn; lia].
    + done.
    + unfold source. rewrite length_take. lia.
    + unfold mbind, result_bind. fold (finish s). rewrite E. f_equal. f_equal. pose proof source_length. lia.
  - assert (decompress_loop src above below (Z.to_nat (srcend src)) (MkD 0 dest0 0) = Ok (MkD 0 dest0 0)) as ->.
    { destruct (Z.to_nat (srcend src)); cbn [decompress_loop sp dp]; (destruct (Z.ltb_spec (Z.of_nat 0) (destend src)); [lia|]); by rewrite andb_false_r. }
    unfold mbind, result_bind. cbn [sp dp dest]. destruct (Z.eqb_spec (Z.of_nat 0) (destend src)); [lia|]. cbn [negb orb].
    unfold decoded. destruct (read_items _ _); [|done].
    by destruct (Z.eqb_spec (Z.of_nat (length (foldl (expand_any below dest0) [] l))) (destend src)); [lia|].
Qed.

End Loops.

(** C23: what the decompressor does with any bytes.  On any input and an output area
    of [PGLZ_RAW_SIZE] bytes it ends, stores nothing outside of the area, and returns
    a whole area or reports corrupt data; a datum that is cut short makes it read
    beyond the end, but the outcome does not depend on what it reads there.  And it
    decodes: it succeeds exactly when the bytes of the datum are groups of items up to
    the last byte and the items mean exactly [PGLZ_RAW_SIZE] bytes, which it returns. *)
Theorem pglz_decompress_safe src above below dest0 :
  length dest0 = Z.to_nat (PGLZ_RAW_SIZE src) →
  ((∃ out, pglz_decompress src above below dest0 = Ok out ∧ length out = length dest0) ∨
   pglz_decompress src above below dest0 = Err corrupt) ∧
  (srcend src <= Z.of_nat (length (data src)) →
   ∀ above', pglz_decompress src above' below dest0 = pglz_decompress src above below dest0) ∧
  (0 <= srcend src <= Z.of_nat (length (data src)) → Forall is_u8 (data src) →
   pglz_decompress src above below dest0 =
   match read_items (length (source src)) (source src) with
   | Some l =>
       if Z.of_nat (length (meaning below dest0 l)) =? PGLZ_RAW_SIZE src then Ok (meaning below dest0 l) else Err corrupt
   | None => Err corrupt
   end).
Proof.
  intros Hd. split; [|split; [intros Hdata above'; by apply decompress_same|intros; by apply decompress_any]].
  unfold pglz_decompress. destruct (decompress_loop_safe src above below (Z.to_nat (srcend src)) (MkD 0 dest0 0) Hd ltac:(cbn; lia)) as (s & -> & Hs).
  unfold mbind, result_bind. case_match; [by right|]. left. exists (dest s). split; [done|]. unfold fits, destend, PGLZ_RAW_SIZE in *. congruence.
Qed.

(** C24: what the decompressor does not check.  The offset of a tag may point before
    the output area: a datum with such a tag anywhere, which is otherwise complete, is
    accepted without an error, and the bytes of the tag are in the result what the
    memory in front of the area holds. *)
Theorem pglz_decompress_unchecked src above below dest0 l1 len off l2 :
  length dest0 = Z.to_nat (PGLZ_RAW_SIZE src) →
  0 <= srcend src <= Z.of_nat (length (data src)) → Forall is_u8 (data src) →
  read_items (length (source src)) (source src) = Some (l1 ++ Tag len off :: l2) →
  Z.of_nat (length (meaning below dest0 (l1 ++ Tag len off :: l2))) = PGLZ_RAW_SIZE src →
  ∃ out, pglz_decompress src above below dest0 = Ok out ∧
    ∀ k, (k < len)%nat → let n := (length (meaning below dest0 l1) + k)%nat in
      Z.of_nat n < off → out !! n = Some (below (Z.to_nat (off - Z.of_nat n - 1))).
Proof.
  intros Hd Hdata Hb Hread Hlen. eexists. split.
  - rewrite (decompress_any src above below dest0 Hd Hdata Hb), Hread. cbn. unfold meaning, PGLZ_RAW_SIZE, destend in *. rewrite Hlen, Z.eqb_refl. done.
  - intros k Hk n Hn. rewrite foldl_app. cbn [foldl expand_any]. eapply prefix_lookup_Some; [|apply expand_any_prefix].
    by apply repeat_any_below.
Qed.

(** ** Samples *)

(** Three literals, a tag that repeats them, and a tag whose offset is too large. *)
Definition sample_format : PGLZ_Header :=
  MkHeader (SET_VARSIZE_4B_C 16) 10 [24; 97; 98; 99; 1; 3; 0; 8].

Lemma pglz_decompress_safe_witness :
  length (replicate 10 0) = Z.to_nat (PGLZ_RAW_SIZE sample_format) ∧
  pglz_decompress sample_format (λ _, 0) (λ k, 200 + Z.of_nat k) (replicate 10 0) = Ok [97; 98; 99; 97; 98; 99; 97; 200; 97; 98].
Proof.
  split; [reflexivity|].
  rewrite (proj2 (proj2 (pglz_decompress_safe sample_format (λ _, 0) (λ k, 200 + Z.of_nat k) (replicate 10 0) eq_refl))).
  - vm_compute. reflexivity.
  - vm_compute. split; discriminate.
  - repeat constructor; vm_compute; (reflexivity || discriminate).
Defined.

Lemma pglz_decompress_unchecked_witness :
  ∃ out, pglz_decompress sample_format (λ _, 0) (λ k, 200 + Z.of_nat k) (replicate 10 0) = Ok out ∧ out !! 7%nat = Some 200.
Proof.
  destruct (pglz_decompress_unchecked sample_format (λ _, 0) (λ k, 200 + Z.of_nat k) (replicate 10 0)
    [Lit 97; Lit 98; Lit 99; Tag 4 3] 3 8 []) as (out & E & H).
  - reflexivity.
  - vm_compute. split; discriminate.
  - repeat constructor; vm_compute; (reflexivity || discriminate).
  - vm_compute. reflexivity.
  - vm_compute. reflexivity.
  - exists out. split; [exact E|]. apply (H 0%nat); [lia|]. vm_compute. reflexivity.
Defined.

End PglzFormat.
