(* ===== verification/Sinval.v ===== *)
(** The shared invalidation queue: backend/storage/ipc/sinvaladt.c and sinval.c.

    Backends tell each other which cache entries to drop through a circular buffer in
    shared memory.  The first half of this file has the operations on the shared
    segment [SISeg].  The second half has the processes: each has a program counter
    [PC] and takes one step at a time, a step being at most one access to what other
    processes may access at the same time, with the two lightweight locks as part of the
    state: each acquisition is a step, which is only possible when nobody has the lock in a
    way that excludes it.  A schedule is a list of labels, so every interleaving is a run.
    What is done under both locks is one step, as is the spinlock-protected access to
    maxMsgNum.

    [sent], [base], [born], [got], [seen] and [issued] are not in the program: they record
    the messages ever queued, by how much the message numbers have been reduced, and what
    each process was given, for the theorems to speak about. *)
From stdpp Require Import base list option numbers gmap sets.
From S2P Require Import Prelude.

Module Sinval.

Definition MAXNUMMESSAGES : Z := 4096.
Definition MSGNUMWRAPAROUND : Z := MAXNUMMESSAGES * 262144.
Definition CLEANUP_MIN : Z := MAXNUMMESSAGES / 2.
Definition CLEANUP_QUANTUM : Z := MAXNUMMESSAGES / 16.
Definition SIG_THRESHOLD : Z := MAXNUMMESSAGES / 2.
Definition WRITE_QUANTUM : nat := 64.
Definition MAXINVALMSGS : nat := 32.
Definition InvalidLocalTransactionId : Z := 0.

(** ** The shared segment *)

Record ProcState := MkPS {
  procPid : nat; nextMsgNum : Z; resetState : bool; signaled : bool; hasMessages : bool;
  sendOnly : bool; nextLXID : Z }.

Definition set_nextMsgNum (n : Z) (st : ProcState) : ProcState :=
  MkPS (procPid st) n (resetState st) (signaled st) (hasMessages st) (sendOnly st) (nextLXID st).
Definition set_resetState (b : bool) (st : ProcState) : ProcState :=
  MkPS (procPid st) (nextMsgNum st) b (signaled st) (hasMessages st) (sendOnly st) (nextLXID st).
Definition set_signaled (b : bool) (st : ProcState) : ProcState :=
  MkPS (procPid st) (nextMsgNum st) (resetState st) b (hasMessages st) (sendOnly st) (nextLXID st).
Definition set_hasMessages (b : bool) (st : ProcState) : ProcState :=
  MkPS (procPid st) (nextMsgNum st) (resetState st) (signaled st) b (sendOnly st) (nextLXID st).

Definition inactive : ProcState := MkPS 0 0 false false false false InvalidLocalTransactionId.

(** [do result = nextLocalTransactionId++ while (!LocalTransactionIdIsValid(result))] on the
    counter [next]: at most one value is skipped. *)
Definition GetNextLocalTransactionId (next : Z) : Z * Z :=
  if next =? InvalidLocalTransactionId then (u32 (next + 1), u32 (next + 2)) else (next, u32 (next + 1)).

Section Messages.
Context {M : Type}.

(** A slot of the buffer that was never written is [None]. *)
Record SISeg := MkSeg {
  minMsgNum : Z; maxMsgNum : Z; nextThreshold : Z; lastBackend : nat; maxBackends : nat;
  buffer : list (option M); procState : list ProcState }.

Definition set_procState (f : list ProcState → list ProcState) (g : SISeg) : SISeg :=
  MkSeg (minMsgNum g) (maxMsgNum g) (nextThreshold g) (lastBackend g) (maxBackends g) (buffer g) (f (procState g)).
Definition set_lastBackend (n : nat) (g : SISeg) : SISeg :=
  MkSeg (minMsgNum g) (maxMsgNum g) (nextThreshold g) n (maxBackends g) (buffer g) (procState g).
Definition set_maxMsgNum (n : Z) (g : SISeg) : SISeg :=
  MkSeg (minMsgNum g) n (nextThreshold g) (lastBackend g) (maxBackends g) (buffer g) (procState g).

(** [segP->buffer[k % MAXNUMMESSAGES]] *)
Definition index (k : Z) : nat := Z.to_nat (k mod MAXNUMMESSAGES).
Definition set_buffer (k : Z) (m : M) (g : SISeg) : SISeg :=
  MkSeg (minMsgNum g) (maxMsgNum g) (nextThreshold g) (lastBackend g) (maxBackends g)
    (<[index k := Some m]> (buffer g)) (procState g).

Definition CreateSharedInvalidationState (MaxBackends : nat) : SISeg :=
  MkSeg 0 0 CLEANUP_MIN 0 MaxBackends (replicate (Z.to_nat MAXNUMMESSAGES) None) (replicate MaxBackends inactive).

Definition active_at (ps : list ProcState) (i : nat) : bool :=
  match ps !! i with Some st => negb (procPid st =? 0)%nat | None => false end.

(** The entry found and the segment with [lastBackend] moved; [None]: too many clients. *)
Definition free_entry (g : SISeg) : option (nat * SISeg) :=
  match find_up 0 (lastBackend g) (λ i, if active_at (procState g) i then None else Some i) with
  | Some i => Some (i, g)
  | None => if (lastBackend g <? maxBackends g)%nat then Some (lastBackend g, set_lastBackend (S (lastBackend g)) g)
            else None
  end.

(** MyBackendId - 1, the local transaction id to go on with, and the segment. *)
Definition SharedInvalBackendInit (MyProcPid : nat) (only_send : bool) (g : SISeg) : option (nat * Z * SISeg) :=
  match free_entry g with
  | None => None
  | Some (i, g) =>
      let lxid := match procState g !! i with Some st => nextLXID st | None => InvalidLocalTransactionId end in
      Some (i, lxid,
            set_procState (<[i := MkPS MyProcPid (maxMsgNum g) false false false only_send lxid]>) g)
  end.

(** [for (i = segP->lastBackend; i > 0; i--) if (procState[i - 1].procPid != 0) break;] *)
Fixpoint last_active (ps : list ProcState) (i : nat) : nat :=
  match i with
  | O => O
  | S j => if active_at ps j then i else last_active ps j
  end.

Definition CleanupInvalidationState (i : nat) (nextLocalTransactionId : Z) (g : SISeg) : SISeg :=
  let g := set_procState
             (alter (λ st, MkPS 0 0 false false (hasMessages st) (sendOnly st) nextLocalTransactionId) i) g in
  set_lastBackend (last_active (procState g) (lastBackend g)) g.

Definition BackendIdIsActive (backendID : Z) (g : SISeg) : bool :=
  (0 <? backendID) && (backendID <=? Z.of_nat (lastBackend g)) && active_at (procState g) (Z.to_nat (backendID - 1)).

(** The first loop of [SICleanupQueue] over the entries [ps] from number [i] on. *)
Fixpoint cleanup_scan (lowbound : Z) (ps : list ProcState) (i : nat) (min minsig : Z) (needSig : option nat)
    : list ProcState * Z * option nat :=
  match ps with
  | [] => ([], min, needSig)
  | st :: ps =>
      let n := nextMsgNum st in
      if (procPid st =? 0)%nat || resetState st || sendOnly st then
        let '(ps, min, needSig) := cleanup_scan lowbound ps (S i) min minsig needSig in (st :: ps, min, needSig)
      else if n <? lowbound then
        let '(ps, min, needSig) := cleanup_scan lowbound ps (S i) min minsig needSig in
        (set_resetState true st :: ps, min, needSig)
      else
        let min := if n <? min then n else min in
        let '(minsig, needSig) := if (n <? minsig) && negb (signaled st) then (n, Some i) else (minsig, needSig) in
        let '(ps, min, needSig) := cleanup_scan lowbound ps (S i) min minsig needSig in (st :: ps, min, needSig)
  end.

Definition threshold (numMsgs : Z) : Z :=
  if numMsgs <? CLEANUP_MIN then CLEANUP_MIN else (numMsgs / CLEANUP_QUANTUM + 1) * CLEANUP_QUANTUM.

(** By how much [SICleanupQueue] reduces the message numbers. *)
Definition reduction (min : Z) : Z := if MSGNUMWRAPAROUND <=? min then MSGNUMWRAPAROUND else 0.

(** What [SICleanupQueue] does under both locks: the new segment, the pid to signal if there
    is one, and the reduction of the message numbers. *)
Definition cleanup (minFree : Z) (g : SISeg) : SISeg * option nat * Z :=
  let max := maxMsgNum g in
  let '(ps, min, needSig) := cleanup_scan (max - MAXNUMMESSAGES + minFree) (take (lastBackend g) (procState g)) 0
                               max (max - SIG_THRESHOLD) None in
  let w := reduction min in
  let ps := if w =? 0 then ps else (λ st, set_nextMsgNum (s32 (nextMsgNum st - w)) st) <$> ps in
  let ps := match needSig with Some i => alter (set_signaled true) i ps | None => ps end in
  (MkSeg (min - w) (max - w) (threshold (max - min)) (lastBackend g) (maxBackends g) (buffer g)
     (ps ++ drop (lastBackend g) (procState g)),
   match needSig with Some i => procPid <$> ps !! i | None => None end, w).

(** ** Processes *)

(** Where a process is.  [Ins...]: in [SIInsertDataEntries], with the messages of this round
    and the [rest] of its input; [Get...]: in [SIGetDataEntries]; [Rcv...], [InInval1],
    [InInval2], [InReset]: in [ReceiveSharedInvalidMessages], the latter in its callbacks;
    [En...], [Hd...]: in the loops of [EnableCatchupInterrupt], [HandleCatchupInterrupt]. *)
Inductive PC :=
  | Idle
  | InsLoop (data : list M)
  | InsCheck (chunk rest : list M)
  | InsClean (chunk rest : list M)
  | InsCleaning (chunk rest : list M)
  | InsSignal (his_pid : nat) (chunk rest : list M)
  | InsRelock (chunk rest : list M)
  | InsPut (put todo rest : list M) (max : Z)
  | InsPublish (put rest : list M) (max : Z)
  | InsKick (i put : nat) (rest : list M)
  | GetCheck | GetLock | GetClear | GetMax
  | GetTest (max : Z)
  | GetRead (n : nat) (max : Z)
  | RcvDrain1 | InInval1 | RcvGet | RcvDrain2 | InInval2 | InReset | RcvEnd
  | RcvClean | RcvCleanRead | RcvCleaning
  | RcvSignal (his_pid : nat)
  | RcvReturn
  | EnLoop | EnTest | EnOff | EnProc
  | HdLoop | HdTest | HdOff | HdProc.

(** A backend: its slot (MyBackendId - 1), the static variables of the two files, the calls of
    [ReceiveSharedInvalidMessages] it is in, innermost first, each with the place to return to,
    and the places its signal handlers return to. *)
Record Proc := MkProc {
  backend : nat; nextLocalTransactionId : Z;
  pc : PC;
  messages : list (option M); nextmsg : nat; nummsgs : nat; counter : Z;
  calls : list (PC * nat); handlers : list PC;
  catchupInterruptEnabled : bool; catchupInterruptOccurred : bool; signal_pending : bool;
  born : nat; got : list (option M) }.

Definition set_pc (c : PC) (P : Proc) : Proc :=
  MkProc (backend P) (nextLocalTransactionId P) c (messages P) (nextmsg P) (nummsgs P) (counter P) (calls P)
    (handlers P) (catchupInterruptEnabled P) (catchupInterruptOccurred P) (signal_pending P) (born P) (got P).
Definition set_lxid (x : Z) (P : Proc) : Proc :=
  MkProc (backend P) x (pc P) (messages P) (nextmsg P) (nummsgs P) (counter P) (calls P)
    (handlers P) (catchupInterruptEnabled P) (catchupInterruptOccurred P) (signal_pending P) (born P) (got P).
Definition set_messages (l : list (option M)) (a b : nat) (P : Proc) : Proc :=
  MkProc (backend P) (nextLocalTransactionId P) (pc P) l a b (counter P) (calls P)
    (handlers P) (catchupInterruptEnabled P) (catchupInterruptOccurred P) (signal_pending P) (born P) (got P).
Definition set_calls (l : list (PC * nat)) (P : Proc) : Proc :=
  MkProc (backend P) (nextLocalTransactionId P) (pc P) (messages P) (nextmsg P) (nummsgs P) (counter P) l
    (handlers P) (catchupInterruptEnabled P) (catchupInterruptOccurred P) (signal_pending P) (born P) (got P).
Definition set_interrupt (l : list PC) (en oc sg : bool) (P : Proc) : Proc :=
  MkProc (backend P) (nextLocalTransactionId P) (pc P) (messages P) (nextmsg P) (nummsgs P) (counter P) (calls P)
    l en oc sg (born P) (got P).
Definition set_stream (b : nat) (l : list (option M)) (P : Proc) : Proc :=
  MkProc (backend P) (nextLocalTransactionId P) (pc P) (messages P) (nextmsg P) (nummsgs P)
    (u64 (counter P + 1)) (calls P)
    (handlers P) (catchupInterruptEnabled P) (catchupInterruptOccurred P) (signal_pending P) b l.

(** [wlock]: the holder of SInvalWriteLock, which every step takes exclusively (only the lookup
    [BackendIdIsActive] shares it); [rlock]: those who share SInvalReadLock; [xlock]: who has it
    exclusively. *)
Record Sys := MkSys {
  seg : SISeg; wlock : option nat; rlock : gset nat; xlock : option nat; procs : gmap nat Proc;
  sent : list M; base : Z; issued : list (nat * Z) }.

Definition put_proc (p : nat) (P : Proc) (s : Sys) : Sys :=
  MkSys (seg s) (wlock s) (rlock s) (xlock s) (<[p := P]> (procs s)) (sent s) (base s) (issued s).
Definition goto (p : nat) (P : Proc) (c : PC) (s : Sys) : Sys := put_proc p (set_pc c P) s.
Definition set_seg (g : SISeg) (s : Sys) : Sys :=
  MkSys g (wlock s) (rlock s) (xlock s) (procs s) (sent s) (base s) (issued s).
Definition set_wlock (l : option nat) (s : Sys) : Sys :=
  MkSys (seg s) l (rlock s) (xlock s) (procs s) (sent s) (base s) (issued s).
Definition set_rlock (r : gset nat) (s : Sys) : Sys :=
  MkSys (seg s) (wlock s) r (xlock s) (procs s) (sent s) (base s) (issued s).
Definition set_xlock (l : option nat) (s : Sys) : Sys :=
  MkSys (seg s) (wlock s) (rlock s) l (procs s) (sent s) (base s) (issued s).
Definition set_sent (l : list M) (s : Sys) : Sys :=
  MkSys (seg s) (wlock s) (rlock s) (xlock s) (procs s) l (base s) (issued s).
Definition set_base (b : Z) (s : Sys) : Sys :=
  MkSys (seg s) (wlock s) (rlock s) (xlock s) (procs s) (sent s) b (issued s).

Definition wlock_free (s : Sys) : bool := match wlock s with None => true | Some _ => false end.
Definition xlock_free (s : Sys) : bool := match xlock s with None => true | Some _ => false end.
Definition rlock_free (s : Sys) : bool := bool_decide (rlock s = ∅) && xlock_free s.

(** Update of the own entry of procState. *)
Definition on_entry (i : nat) (f : ProcState → ProcState) (s : Sys) : Sys :=
  set_seg (set_procState (alter f i) (seg s)) s.
Definition my_entry (P : Proc) (s : Sys) : ProcState := default inactive (procState (seg s) !! backend P).

(** [SendProcSignal]: the signal will reach the process if it is still there. *)
Definition SendProcSignal (q : nat) (s : Sys) : Sys :=
  match procs s !! q with
  | Some Q => put_proc q (set_interrupt (handlers Q) (catchupInterruptEnabled Q) (catchupInterruptOccurred Q) true Q) s
  | None => s
  end.

(** The number of messages whose insertion was completed. *)
Definition kicking (s : Sys) : nat :=
  match wlock s with
  | Some w => match procs s !! w with
              | Some W => match pc W with InsKick _ k _ => k | _ => 0%nat end
              | None => 0%nat end
  | None => 0%nat
  end.
Definition completed (s : Sys) : nat := (length (sent s) - kicking s)%nat.

(** The call of [ReceiveSharedInvalidMessages] by [P], to return to [ret]. *)
Definition call_receive (p : nat) (P : Proc) (ret : PC) (s : Sys) : Sys :=
  goto p (set_calls ((ret, completed s) :: calls P) P) RcvDrain1 s.

(** The steps of [SIInsertDataEntries]; those of [SICleanupQueue] in it are [InsClean], where
    it waits for the readers, [InsCleaning], where it does its work and releases the read
    lock, and with a signal to send the write lock as well, [InsSignal] and [InsRelock]. *)
Definition SIInsertDataEntries_step (p : nat) (P : Proc) (s : Sys) : option Sys :=
  let g := seg s in
  match pc P with
  | InsLoop [] => Some (goto p P Idle s)
  | InsLoop data =>
      if wlock_free s then
        Some (goto p P (InsCheck (take WRITE_QUANTUM data) (drop WRITE_QUANTUM data)) (set_wlock (Some p) s))
      else None
  | InsCheck chunk rest =>
      let numMsgs := maxMsgNum g - minMsgNum g in
      if (MAXNUMMESSAGES <? numMsgs + Z.of_nat (length chunk)) || (nextThreshold g <=? numMsgs)
      then Some (goto p P (InsClean chunk rest) s)
      else Some (goto p P (InsPut [] chunk rest (maxMsgNum g)) s)
  | InsClean chunk rest =>
      if rlock_free s then Some (goto p P (InsCleaning chunk rest) (set_xlock (Some p) s)) else None
  | InsCleaning chunk rest =>
      let '(g, needSig, w) := cleanup (Z.of_nat (length chunk)) g in
      let s := set_xlock None (set_base (base s + w) (set_seg g s)) in
      match needSig with
      | Some q => Some (goto p P (InsSignal q chunk rest) (set_wlock None s))
      | None => Some (goto p P (InsCheck chunk rest) s)
      end
  | InsSignal q chunk rest => Some (SendProcSignal q (goto p P (InsRelock chunk rest) s))
  | InsRelock chunk rest =>
      if wlock_free s then Some (goto p P (InsCheck chunk rest) (set_wlock (Some p) s)) else None
  | InsPut put [] rest max => Some (goto p P (InsPublish put rest max) s)
  | InsPut put (m :: todo) rest max =>
      Some (goto p P (InsPut (put ++ [m]) todo rest (max + 1)) (set_seg (set_buffer max m g) s))
  | InsPublish put rest max =>
      Some (goto p P (InsKick 0 (length put) rest) (set_sent (sent s ++ put) (set_seg (set_maxMsgNum max g) s)))
  | InsKick i k rest =>
      if (i <? lastBackend g)%nat
      then Some (goto p P (InsKick (S i) k rest) (on_entry i (set_hasMessages true) s))
      else Some (goto p P (InsLoop rest) (set_wlock None s))
  | _ => None
  end.

(** The steps of [SIGetDataEntries(messages, MAXINVALMSGS)] and the handling of its result by the
    caller. *)
Definition SIGetDataEntries_step (p : nat) (P : Proc) (s : Sys) : option Sys :=
  let g := seg s in
  let st := my_entry P s in
  match pc P with
  | GetCheck =>
      if hasMessages st then Some (goto p P GetLock s)
      else Some (goto p (set_messages (messages P) 0 0 P) RcvDrain2 s)
  | GetLock => if xlock_free s then Some (goto p P GetClear (set_rlock ({[p]} ∪ rlock s) s)) else None
  | GetClear => Some (goto p P GetMax (on_entry (backend P) (set_hasMessages false) s))
  | GetMax => Some (goto p P (GetTest (maxMsgNum g)) s)
  | GetTest max =>
      if resetState st then
        Some (goto p (set_stream (Z.to_nat (max + base s)) [] P) InReset
                (set_rlock (rlock s ∖ {[p]})
                   (on_entry (backend P) (λ st, set_signaled false (set_resetState false (set_nextMsgNum max st))) s)))
      else Some (goto p P (GetRead 0 max) s)
  | GetRead n max =>
      if (n <? MAXINVALMSGS)%nat && (nextMsgNum st <? max) then
        let m := mjoin (buffer g !! index (nextMsgNum st)) in
        Some (goto p (set_messages (<[n := m]> (messages P)) (nextmsg P) (nummsgs P) P) (GetRead (S n) max)
                (on_entry (backend P) (set_nextMsgNum (nextMsgNum st + 1)) s))
      else
        Some (goto p (set_messages (messages P) 0 n P) RcvDrain2
                (set_rlock (rlock s ∖ {[p]})
                   (on_entry (backend P) (if max <=? nextMsgNum st then set_signaled false else set_hasMessages true) s)))
  | _ => None
  end.

(** [SharedInvalidationMessage *msg = &messages[nextmsg++]; invalFunction(msg)] *)
Definition deliver (P : Proc) : Proc :=
  set_stream (born P) (got P ++ [mjoin (messages P !! nextmsg P)])
    (set_messages (messages P) (S (nextmsg P)) (nummsgs P) P).

(** The steps of [ReceiveSharedInvalidMessages]; those of [SICleanupQueue] in it are [RcvClean] and
    [RcvCleanRead], where it takes the write lock and then the read lock, [RcvCleaning], where it
    does its work and releases both, and [RcvSignal]. *)
Definition ReceiveSharedInvalidMessages_step (p : nat) (P : Proc) (s : Sys) : option Sys :=
  match pc P with
  | RcvDrain1 =>
      if (nextmsg P <? nummsgs P)%nat then Some (goto p (deliver P) InInval1 s) else Some (goto p P RcvGet s)
  | InInval1 => Some (goto p P RcvDrain1 s)
  | RcvGet => Some (goto p (set_messages (messages P) 0 0 P) GetCheck s)
  | RcvDrain2 =>
      if (nextmsg P <? nummsgs P)%nat then Some (goto p (deliver P) InInval2 s)
      else if (nummsgs P =? MAXINVALMSGS)%nat then Some (goto p P RcvGet s)
      else Some (goto p P RcvEnd s)
  | InInval2 => Some (goto p P RcvDrain2 s)
  | InReset => Some (goto p P RcvEnd s)
  | RcvEnd =>
      if catchupInterruptOccurred P then
        Some (goto p (set_interrupt (handlers P) (catchupInterruptEnabled P) false (signal_pending P) P) RcvClean s)
      else Some (goto p P RcvReturn s)
  | RcvClean =>
      if wlock_free s then Some (goto p P RcvCleanRead (set_wlock (Some p) s)) else None
  | RcvCleanRead =>
      if rlock_free s then Some (goto p P RcvCleaning (set_xlock (Some p) s)) else None
  | RcvCleaning =>
      let '(g, needSig, w) := cleanup 0 (seg s) in
      let s := set_wlock None (set_xlock None (set_base (base s + w) (set_seg g s))) in
      match needSig with
      | Some q => Some (goto p P (RcvSignal q) s)
      | None => Some (goto p P RcvReturn s)
      end
  | RcvSignal q => Some (SendProcSignal q (goto p P RcvReturn s))
  | RcvReturn =>
      match calls P with
      | (ret, _) :: cs => Some (goto p (set_calls cs P) ret s)
      | [] => None
      end
  | _ => None
  end.

(** The steps of [EnableCatchupInterrupt] and of the same loop in [HandleCatchupInterrupt];
    [ProcessCatchupEvent] makes [ReceiveSharedInvalidMessages] run. *)
Definition catchup_step (p : nat) (P : Proc) (s : Sys) : option Sys :=
  let enable b := set_interrupt (handlers P) b (catchupInterruptOccurred P) (signal_pending P) P in
  match pc P with
  | EnLoop => Some (goto p (enable true) EnTest s)
  | EnTest => if catchupInterruptOccurred P then Some (goto p P EnOff s) else Some (goto p P Idle s)
  | EnOff => Some (goto p (enable false) EnProc s)
  | EnProc => if catchupInterruptOccurred P then Some (call_receive p P EnLoop s) else Some (goto p P EnLoop s)
  | HdLoop => Some (goto p (enable true) HdTest s)
  | HdTest =>
      if catchupInterruptOccurred P then Some (goto p P HdOff s)
      else match handlers P with
           | ret :: hs =>
               Some (goto p (set_interrupt hs (catchupInterruptEnabled P) (catchupInterruptOccurred P) (signal_pending P) P) ret s)
           | [] => None
           end
  | HdOff => Some (goto p (enable false) HdProc s)
  | HdProc => if catchupInterruptOccurred P then Some (call_receive p P HdLoop s) else Some (goto p P HdLoop s)
  | _ => None
  end.

(** [HandleCatchupInterrupt], at any place of the process. *)
Definition HandleCatchupInterrupt (p : nat) (P : Proc) (s : Sys) : Sys :=
  if catchupInterruptEnabled P
  then goto p (set_interrupt (pc P :: handlers P) false true false P) HdLoop s
  else put_proc p (set_interrupt (handlers P) false true false P) s.

Definition proc_step (p : nat) (P : Proc) (s : Sys) : option Sys :=
  match pc P with
  | Idle => None
  | InsLoop _ | InsCheck _ _ | InsClean _ _ | InsCleaning _ _ | InsSignal _ _ _ | InsRelock _ _ | InsPut _ _ _ _
  | InsPublish _ _ _ | InsKick _ _ _ => SIInsertDataEntries_step p P s
  | GetCheck | GetLock | GetClear | GetMax | GetTest _ | GetRead _ _ => SIGetDataEntries_step p P s
  | RcvDrain1 | InInval1 | RcvGet | RcvDrain2 | InInval2 | InReset | RcvEnd | RcvClean
  | RcvCleanRead | RcvCleaning | RcvSignal _ | RcvReturn => ReceiveSharedInvalidMessages_step p P s
  | _ => catchup_step p P s
  end.

(** ** Schedules *)

(** [Init], [Exit]: a process comes and goes; [Send], [Receive], [Enable], [Disable]: it calls
    [SendSharedInvalidMessages], ...; [Step]: it takes its next step; [Abort]: a callback raises
    an error; [Deliver]: a pending signal arrives; [NewLXID]: [GetNextLocalTransactionId]. *)
Inductive Label :=
  | Init (p : nat) (only_send : bool)
  | Exit (p : nat)
  | Send (p : nat) (msgs : list M)
  | Receive (p : nat)
  | Enable (p : nat)
  | Disable (p : nat)
  | Step (p : nat)
  | Abort (p : nat)
  | Deliver (p : nat)
  | NewLXID (p : nat).

Definition writing (c : PC) : bool :=
  match c with
  | InsCheck _ _ | InsClean _ _ | InsCleaning _ _ | InsPut _ _ _ _ | InsPublish _ _ _ | InsKick _ _ _
  | RcvCleanRead | RcvCleaning => true
  | _ => false
  end.
Definition reading (c : PC) : bool :=
  match c with GetClear | GetMax | GetTest _ | GetRead _ _ => true | _ => false end.
Definition cleaning (c : PC) : bool :=
  match c with InsCleaning _ _ | RcvCleaning => true | _ => false end.
Definition in_callback (c : PC) : bool :=
  match c with InInval1 | InInval2 | InReset => true | _ => false end.
Definition is_idle (c : PC) : bool := match c with Idle => true | _ => false end.

Definition new_proc (i : nat) (lxid : Z) (b : nat) : Proc :=
  MkProc i lxid Idle (replicate MAXINVALMSGS None) 0 0 0 [] [] false false false b [].

Definition exec (l : Label) (s : Sys) : option Sys :=
  match l with
  | Init p only_send =>
      if (p =? 0)%nat || negb (wlock_free s) then None
      else match procs s !! p, SharedInvalBackendInit p only_send (seg s) with
           | None, Some (i, lxid, g) => Some (put_proc p (new_proc i lxid (length (sent s))) (set_seg g s))
           | _, _ => None
           end
  | Exit p =>
      P ← procs s !! p;
      if wlock_free s && negb (reading (pc P)) then
        let s := set_seg (CleanupInvalidationState (backend P) (nextLocalTransactionId P) (seg s)) s in
        Some (MkSys (seg s) (wlock s) (rlock s) (xlock s) (delete p (procs s)) (sent s) (base s) (issued s))
      else None
  | Send p msgs =>
      P ← procs s !! p;
      if is_idle (pc P) && negb (catchupInterruptEnabled P) then Some (goto p P (InsLoop msgs) s) else None
  | Receive p =>
      P ← procs s !! p;
      if (is_idle (pc P) && negb (catchupInterruptEnabled P) || in_callback (pc P)) && negb (sendOnly (my_entry P s))
      then Some (call_receive p P (pc P) s) else None
  | Enable p =>
      P ← procs s !! p;
      if is_idle (pc P) && negb (catchupInterruptEnabled P) && negb (sendOnly (my_entry P s))
      then Some (goto p P EnLoop s) else None
  | Disable p =>
      P ← procs s !! p;
      if is_idle (pc P)
      then Some (put_proc p (set_interrupt (handlers P) false (catchupInterruptOccurred P) (signal_pending P) P) s)
      else None
  | Step p => P ← procs s !! p; proc_step p P s
  | Abort p =>
      P ← procs s !! p;
      if in_callback (pc P) then Some (goto p (set_interrupt [] (catchupInterruptEnabled P)
                                               (catchupInterruptOccurred P) (signal_pending P) (set_calls [] P)) Idle s)
      else None
  | Deliver p => P ← procs s !! p; if signal_pending P then Some (HandleCatchupInterrupt p P s) else None
  | NewLXID p =>
      P ← procs s !! p;
      if is_idle (pc P) && negb (catchupInterruptEnabled P) then
        let '(x, next) := GetNextLocalTransactionId (nextLocalTransactionId P) in
        let s := put_proc p (set_lxid next P) s in
        Some (MkSys (seg s) (wlock s) (rlock s) (xlock s) (procs s) (sent s) (base s) (issued s ++ [(backend P, x)]))
      else None
  end.

(** The state after a schedule; [None] if one of its labels was not possible. *)
Fixpoint run (ls : list Label) (s : Sys) : option Sys :=
  match ls with
  | [] => Some s
  | l :: ls => s ← exec l s; run ls s
  end.

Definition start (MaxBackends : nat) : Sys :=
  MkSys (CreateSharedInvalidationState MaxBackends) None ∅ None ∅ [] 0 [].

End Messages.
Arguments SISeg : clear implicits.
Arguments PC : clear implicits.
Arguments Proc : clear implicits.
Arguments Sys : clear implicits.
Arguments Label : clear implicits.

End Sinval.
