(* ===== verification/SinvalSpec.v ===== *)
(** The invariant of the shared invalidation queue and of every process that uses it, and
    its preservation by every step of every schedule. *)
From stdpp Require Import base list option numbers gmap sets sorting.
From S2P Require Import Prelude Sinval.

Module SinvalSpec.
Import Sinval.

Section Spec.
Context {M : Type}.
Implicit Types (s : Sys M) (g : SISeg M) (P : Proc M) (st : ProcState).

(** ** The invariant of a process *)

(** The messages a process has taken out of the queue but not yet given to the callback. *)
Definition pending P : list (option M) :=
  match pc P with
  | GetRead n _ => take n (messages P)
  | _ => take (nummsgs P - nextmsg P) (drop (nextmsg P) (messages P))
  end.

(** How far a process is in the sequence of all messages: what it was given, and what it took. *)
Definition delivered P : nat := (born P + length (got P))%nat.
Definition fetched P : nat := (delivered P + length (pending P))%nat.

(** What it took since it started, or was reset, is a segment of the sequence. *)
Definition segment (sq : list M) (from len : nat) : list (option M) := Some <$> take len (drop from sq).
Definition stream_ok (sq : list M) P : Prop :=
  got P ++ pending P = segment sq (born P) (length (got P ++ pending P)) ∧ (fetched P ≤ length sq)%nat.

Definition receives st : Prop := sendOnly st = false.

Definition cursor_ok (B : Z) P st : Prop :=
  receives st → resetState st = false → nextMsgNum st + B = Z.of_nat (fetched P).

(** A process without [hasMessages] has nothing to read, apart from the [k] messages for which
    the flag is still to be set. *)
Definition flag_ok (hi : Z) (k : nat) P st : Prop :=
  receives st → hasMessages st = false →
  match pc P with
  | GetMax => True
  | GetTest max | GetRead _ max => hi <= max + Z.of_nat k
  | _ => resetState st = false ∧ hi <= nextMsgNum st + Z.of_nat k
  end.

Definition seen P : nat := match calls P with (_, n) :: _ => n | [] => 0%nat end.

(** The places that handlers and calls return to. *)
Definition interruptible (c : PC M) : bool :=
  match c with Idle | EnTest | EnOff | HdTest | HdOff => true | _ => false end.
Definition caller (c : PC M) : bool :=
  match c with Idle | EnLoop | HdLoop | InInval1 | InInval2 | InReset => true | _ => false end.

Definition calls_ok (C : nat) P : Prop :=
  Forall (λ c, caller c.1 = true ∧ (c.2 ≤ C)%nat) (calls P) ∧
  StronglySorted (λ c d, d.2 ≤ c.2)%nat (calls P).

(** Everything that was queued when the innermost call was entered has been taken out. *)
Definition caught_up P : Prop :=
  (seen P ≤ fetched P)%nat ∧ nextmsg P = nummsgs P ∧ nummsgs P ≠ MAXINVALMSGS.

Definition pc_ok (lo hi B : Z) P st : Prop :=
  match pc P with
  | Idle | InsLoop _ | InsPut _ _ _ _ | InsPublish _ _ _ | InsKick _ _ _ => True
  | InsCheck chunk _ | InsClean chunk _ | InsCleaning chunk _ | InsSignal _ chunk _ | InsRelock chunk _ => (length chunk ≤ WRITE_QUANTUM)%nat
  | GetCheck | GetLock | GetClear | GetMax => receives st ∧ nextmsg P = 0%nat ∧ nummsgs P = 0%nat
  | GetTest max =>
      receives st ∧ nextmsg P = 0%nat ∧ nummsgs P = 0%nat ∧ lo <= max <= hi ∧ Z.of_nat (seen P) <= max + B ∧
      Z.of_nat (fetched P) <= max + B ∧ (resetState st = false → nextMsgNum st <= max)
  | GetRead n max =>
      receives st ∧ nextmsg P = 0%nat ∧ nummsgs P = 0%nat ∧ max <= hi ∧ Z.of_nat (seen P) <= max + B ∧
      resetState st = false ∧ nextMsgNum st <= max ∧ (n ≤ MAXINVALMSGS)%nat
  | RcvDrain2 | InInval2 => receives st ∧ (nummsgs P ≠ MAXINVALMSGS → (seen P ≤ fetched P)%nat)
  | InReset | RcvEnd | RcvClean | RcvCleanRead | RcvCleaning | RcvSignal _ | RcvReturn => receives st ∧ caught_up P
  | RcvGet => receives st ∧ nextmsg P = nummsgs P
  | RcvDrain1 | InInval1 | EnLoop | EnTest | EnOff | EnProc | HdLoop | HdTest | HdOff | HdProc =>
      receives st
  end.

Record proc_ok (lo hi B : Z) (sq : list M) (C k : nat) P st : Prop := {
  ok_messages : (nextmsg P ≤ nummsgs P ≤ MAXINVALMSGS)%nat ∧ length (messages P) = MAXINVALMSGS;
  ok_stream : stream_ok sq P;
  ok_cursor : cursor_ok B P st;
  ok_flag : flag_ok hi k P st;
  ok_calls : calls_ok C P;
  ok_handlers : Forall (λ c, interruptible c = true) (handlers P) ∧
                (catchupInterruptEnabled P = true → interruptible (pc P) = true ∧ receives st);
  ok_pc : pc_ok lo hi B P st }.

(** ** The invariant of the system *)

(** The messages for which the flag of slot [i] is still to be set. *)
Definition kick s (i : nat) : nat :=
  match wlock s with
  | Some w => match procs s !! w with
              | Some W => match pc W with InsKick j k _ => if (j <=? i)%nat then k else 0%nat | _ => 0%nat end
              | None => 0%nat end
  | None => 0%nat
  end.

Definition writer_ok s P : Prop :=
  let g := seg s in
  let stored put := ∀ j : nat, (j < length put)%nat → buffer g !! index (maxMsgNum g + Z.of_nat j) = Some (put !! j) in
  match pc P with
  | InsPut put todo _ max =>
      max = maxMsgNum g + Z.of_nat (length put) ∧ max + Z.of_nat (length todo) <= minMsgNum g + MAXNUMMESSAGES ∧ stored put
  | InsPublish put _ max =>
      max = maxMsgNum g + Z.of_nat (length put) ∧ max <= minMsgNum g + MAXNUMMESSAGES ∧ stored put
  | InsKick _ k _ => (k ≤ length (sent s))%nat
  | _ => True
  end.

Record Inv s : Prop := {
  inv_len : length (buffer (seg s)) = Z.to_nat MAXNUMMESSAGES;
  inv_ps : length (procState (seg s)) = maxBackends (seg s);
  inv_last : (lastBackend (seg s) ≤ maxBackends (seg s))%nat;
  inv_inactive i st : procState (seg s) !! i = Some st → (lastBackend (seg s) ≤ i)%nat → procPid st = 0%nat;
  inv_owner p P : procs s !! p = Some P → p ≠ 0%nat ∧ ∃ st, procState (seg s) !! backend P = Some st ∧ procPid st = p;
  inv_num : 0 <= minMsgNum (seg s) <= maxMsgNum (seg s) ∧ maxMsgNum (seg s) <= minMsgNum (seg s) + MAXNUMMESSAGES ∧
            minMsgNum (seg s) < MSGNUMWRAPAROUND ∧ 0 <= base s ∧
            maxMsgNum (seg s) + base s = Z.of_nat (length (sent s));
  inv_buf k : minMsgNum (seg s) <= k < maxMsgNum (seg s) →
              buffer (seg s) !! index k = Some (sent s !! Z.to_nat (k + base s));
  inv_wlock p : wlock s = Some p ↔ ∃ P, procs s !! p = Some P ∧ writing (pc P) = true;
  inv_rlock p : p ∈ rlock s ↔ ∃ P, procs s !! p = Some P ∧ reading (pc P) = true;
  inv_entry i st : procState (seg s) !! i = Some st → procPid st ≠ 0%nat → receives st → resetState st = false →
                   minMsgNum (seg s) <= nextMsgNum st <= maxMsgNum (seg s);
  inv_proc p P st : procs s !! p = Some P → procState (seg s) !! backend P = Some st →
                    proc_ok (minMsgNum (seg s)) (maxMsgNum (seg s)) (base s) (sent s) (completed s) (kick s (backend P)) P st;
  inv_writer p P : procs s !! p = Some P → writer_ok s P }.

(** The read lock is held exclusively by the one process that cleans up, and then by nobody else. *)
Definition excl_ok s : Prop :=
  (∀ p, xlock s = Some p ↔ ∃ P, procs s !! p = Some P ∧ cleaning (pc P) = true) ∧ (xlock s ≠ None → rlock s = ∅).

(** ** Frame lemmas *)

Lemma writer_unique s p q P Q :
  Inv s → procs s !! p = Some P → procs s !! q = Some Q → writing (pc P) = true → writing (pc Q) = true → p = q.
Proof.
  intros HI HP HQ WP WQ.
  assert (wlock s = Some p) as E by (apply (inv_wlock s HI); eauto).
  assert (wlock s = Some q) as E' by (apply (inv_wlock s HI); eauto). congruence.
Qed.

Lemma writer_ok_idle s P : writing (pc P) = false → writer_ok s P.
Proof. unfold writer_ok. by destruct (pc P). Qed.

Lemma owner_inj s p q P Q :
  Inv s → procs s !! p = Some P → procs s !! q = Some Q → backend P = backend Q → p = q.
Proof.
  intros HI HP HQ E. destruct (inv_owner s HI p P HP) as (_ & st & E1 & <-).
  destruct (inv_owner s HI q Q HQ) as (_ & st' & E2 & <-). congruence.
Qed.

Lemma owner_last s p P : Inv s → procs s !! p = Some P → (backend P < lastBackend (seg s))%nat.
Proof.
  intros HI HP. destruct (inv_owner s HI p P HP) as (Hp & st & E & Hst).
  destruct (decide (backend P < lastBackend (seg s))%nat); [done|].
  pose proof (inv_inactive s HI (backend P) st E). lia.
Qed.

(** What the flags wait for depends only on the holder of the write lock. *)
Lemma kick_ext s s' :
  wlock s' = wlock s → (∀ w, wlock s = Some w → pc <$> procs s' !! w = pc <$> procs s !! w) →
  (∀ i, kick s' i = kick s i) ∧ kicking s' = kicking s.
Proof.
  intros Hw Hp. unfold kick, kicking. rewrite Hw. destruct (wlock s) as [w|]; [|done].
  specialize (Hp w eq_refl). destruct (procs s' !! w), (procs s !! w); simplify_eq/=; try done.
  rewrite Hp. done.
Qed.

Lemma kick_le s i : (kick s i ≤ kicking s)%nat.
Proof. unfold kick, kicking. repeat case_match; lia. Qed.

(** The process [p] went on to [P'], changing its own entry with [f]. *)
Definition local s (p : nat) P' (f : ProcState → ProcState) (r : gset nat) : Sys M :=
  MkSys (set_procState (alter f (backend P')) (seg s)) (wlock s) r (xlock s) (<[p := P']> (procs s)) (sent s) (base s) (issued s).

Definition lock_of s (p : nat) P' : gset nat :=
  if reading (pc P') then {[p]} ∪ rlock s else rlock s ∖ {[p]}.

Lemma local_inv s p P P' st f :
  Inv s → procs s !! p = Some P → procState (seg s) !! backend P = Some st →
  backend P' = backend P → writing (pc P) = false → writing (pc P') = false → procPid (f st) = procPid st →
  (receives (f st) → resetState (f st) = false → minMsgNum (seg s) <= nextMsgNum (f st) <= maxMsgNum (seg s)) →
  proc_ok (minMsgNum (seg s)) (maxMsgNum (seg s)) (base s) (sent s) (completed s) (kick s (backend P)) P' (f st) →
  Inv (local s p P' f (lock_of s p P')).
Proof.
  intros HI HP Hst Hb W W' Hpid He Hok.
  assert (∀ w, wlock s = Some w → w ≠ p) as Hw.
  { intros w Hw ->. apply (inv_wlock s HI) in Hw as (Q & ? & ?). congruence. }
  destruct (kick_ext s (local s p P' f (lock_of s p P'))) as [Hk Hk']; [done| |].
  { intros w Hw'. cbn. by rewrite lookup_insert_ne by (intros <-; by apply (Hw p)). }
  assert (completed (local s p P' f (lock_of s p P')) = completed s) as Hc by (unfold completed; by rewrite Hk').
  assert (∀ i st', alter f (backend P') (procState (seg s)) !! i = Some st' →
            i = backend P ∧ st' = f st ∨ i ≠ backend P ∧ procState (seg s) !! i = Some st') as Hps.
  { intros i st'. rewrite Hb. destruct (decide (i = backend P)) as [->|Hne].
    - rewrite list_lookup_alter_eq, Hst. intros [= <-]. by left.
    - rewrite list_lookup_alter_ne by done. by right. }
  constructor; cbn [local seg set_procState buffer procState maxBackends lastBackend minMsgNum maxMsgNum base sent wlock rlock procs].
  - apply HI.
  - rewrite length_alter. apply HI.
  - apply HI.
  - intros i st' [[-> ->]|[_ E]]%Hps; [rewrite Hpid|]; by eapply (inv_inactive s HI).
  - intros q Q. rewrite lookup_insert_Some. intros [[<- <-]|[Hne HQ]].
    + destruct (inv_owner s HI p P HP) as (H0 & st' & E & E'). split; [done|]. exists (f st).
      rewrite Hb, list_lookup_alter_eq, Hst. split; [done|]. simplify_eq. done.
    + destruct (inv_owner s HI q Q HQ) as (H0 & st' & E & E'). split; [done|]. exists st'.
      rewrite list_lookup_alter_ne; [done|]. rewrite Hb. intros EE. apply Hne. by eapply (owner_inj s).
  - apply HI.
  - apply HI.
  - intros q. rewrite (inv_wlock s HI q). destruct (decide (q = p)) as [->|Hne].
    + rewrite lookup_insert_eq, HP. split; intros (? & ? & ?); congruence.
    + by rewrite lookup_insert_ne by done.
  - intros q. unfold lock_of. destruct (decide (q = p)) as [->|Hne].
    + rewrite lookup_insert_eq. destruct (reading (pc P')) eqn:E.
      * split; [by eauto|set_solver].
      * split; [set_solver|intros (? & [= <-] & ?); congruence].
    + rewrite lookup_insert_ne by done. rewrite <- (inv_rlock s HI q). destruct (reading (pc P')); set_solver.
  - intros i st' [[-> ->]|[_ E]]%Hps Hne; [intros; by apply He|by apply (inv_entry s HI i)].
  - intros q Q st'. rewrite lookup_insert_Some, Hc, Hk. intros [[<- <-]|[Hne HQ]] [[E ->]|[E E']]%Hps.
    + by rewrite Hb.
    + congruence.
    + destruct Hne. by eapply (owner_inj s).
    + by apply (inv_proc s HI q).
  - intros q Q. rewrite lookup_insert_Some. intros [[<- <-]|[Hne HQ]]; [by apply writer_ok_idle|].
    by apply (inv_writer s HI q).
Qed.

Lemma alter_id (l : list ProcState) i : alter (λ st, st) i l = l.
Proof. apply list_alter_id. done. Qed.

Lemma lock_same s p P P' :
  Inv s → procs s !! p = Some P → reading (pc P') = reading (pc P) → lock_of s p P' = rlock s.
Proof.
  intros HI HP Hr. apply set_eq. intros q. unfold lock_of. rewrite Hr. destruct (reading (pc P)) eqn:E.
  - assert (p ∈ rlock s) by (apply (inv_rlock s HI); eauto). set_solver.
  - assert (p ∉ rlock s) by (rewrite (inv_rlock s HI); intros (? & ? & ?); congruence). set_solver.
Qed.

Lemma local_id s p P' r :
  local s p P' (λ st, st) r = MkSys (seg s) (wlock s) r (xlock s) (<[p := P']> (procs s)) (sent s) (base s) (issued s).
Proof. unfold local. f_equal. destruct (seg s). unfold set_procState. cbn. by rewrite alter_id. Qed.

Lemma put_inv s p P P' st :
  Inv s → procs s !! p = Some P → procState (seg s) !! backend P = Some st →
  backend P' = backend P → writing (pc P) = false → writing (pc P') = false → reading (pc P') = reading (pc P) →
  proc_ok (minMsgNum (seg s)) (maxMsgNum (seg s)) (base s) (sent s) (completed s) (kick s (backend P)) P' st →
  Inv (put_proc p P' s).
Proof.
  intros HI HP Hst Hb W W' Hr Hok.
  assert (put_proc p P' s = local s p P' (λ st, st) (lock_of s p P')) as ->.
  { by rewrite local_id, (lock_same s p P). }
  eapply local_inv; try done. intros ??. eapply (inv_entry s HI); try done.
  destruct (inv_owner s HI p P HP) as (? & st' & E & ?). congruence.
Qed.

(** ** The steps of a reader *)

Definition plain (c : PC M) : bool :=
  match c with GetMax | GetTest _ | GetRead _ _ => false | _ => true end.

Definition same_data P P' : Prop :=
  messages P' = messages P ∧ nextmsg P' = nextmsg P ∧ nummsgs P' = nummsgs P ∧ born P' = born P ∧ got P' = got P.

Lemma pending_plain P :
  plain (pc P) = true → pending P = take (nummsgs P - nextmsg P) (drop (nextmsg P) (messages P)).
Proof. unfold pending. by destruct (pc P). Qed.

Lemma flag_plain hi k P st :
  plain (pc P) = true →
  flag_ok hi k P st ↔ (receives st → hasMessages st = false → resetState st = false ∧ hi <= nextMsgNum st + Z.of_nat k).
Proof. unfold flag_ok. by destruct (pc P). Qed.

Lemma same_pending P P' : same_data P P' → plain (pc P) = true → plain (pc P') = true → pending P' = pending P.
Proof. intros (E1 & E2 & E3 & _ & _) A B. rewrite !pending_plain by done. by rewrite E1, E2, E3. Qed.

Lemma same_fetched P P' : same_data P P' → plain (pc P) = true → plain (pc P') = true → fetched P' = fetched P.
Proof.
  intros Hd A A'. unfold fetched, delivered. rewrite (same_pending P P') by done. by destruct Hd as (_ & _ & _ & -> & ->).
Qed.

Lemma same_caught_up P P' :
  same_data P P' → calls P' = calls P → plain (pc P) = true → plain (pc P') = true → caught_up P → caught_up P'.
Proof.
  intros Hd Hc A A'. unfold caught_up. rewrite (same_fetched P P') by done. unfold seen.
  destruct Hd as (_ & -> & -> & _ & _). by rewrite Hc.
Qed.

Lemma plain_ok lo hi B sq C k P P' st :
  proc_ok lo hi B sq C k P st → same_data P P' → plain (pc P) = true → plain (pc P') = true →
  calls_ok C P' → Forall (λ c, interruptible c = true) (handlers P') →
  (catchupInterruptEnabled P' = true → interruptible (pc P') = true ∧ receives st) →
  pc_ok lo hi B P' st → proc_ok lo hi B sq C k P' st.
Proof.
  intros [Hm Hs Hcu Hf Hc Hh Hpc] Hd A A' Hc' Hh' He Hpc'. pose proof (same_pending P P' Hd A A') as Hp.
  destruct Hd as (E1 & E2 & E3 & E4 & E5).
  constructor; try done.
  - by rewrite E1, E2, E3.
  - unfold stream_ok, fetched, delivered in *. by rewrite Hp, E4, E5.
  - unfold cursor_ok, fetched, delivered in *. by rewrite Hp, E4, E5.
  - apply flag_plain; [done|]. by apply (flag_plain hi k P).
Qed.

Lemma pending_length P :
  (nextmsg P ≤ nummsgs P ≤ MAXINVALMSGS)%nat → length (messages P) = MAXINVALMSGS → plain (pc P) = true →
  length (pending P) = (nummsgs P - nextmsg P)%nat.
Proof. intros ? ? ?. rewrite pending_plain by done. rewrite length_take, length_drop. lia. Qed.

Lemma segment_snoc (sq : list M) a n m :
  sq !! (a + n)%nat = Some m → segment sq a (S n) = segment sq a n ++ [Some m].
Proof.
  intros E. unfold segment. rewrite (take_S_r _ _ m) by (by rewrite lookup_drop). by rewrite fmap_app.
Qed.

Lemma segment_length (sq : list M) a n : (a + n ≤ length sq)%nat → length (segment sq a n) = n.
Proof. intros. unfold segment. rewrite length_fmap, length_take, length_drop. lia. Qed.

Lemma segment_app (sq tl : list M) a n : (a + n ≤ length sq)%nat → segment (sq ++ tl) a n = segment sq a n.
Proof.
  intros. unfold segment. f_equal. rewrite drop_app_le by lia. rewrite take_app_le; [done|]. rewrite length_drop. lia.
Qed.

(** The process only moves on. *)
Lemma move_ok lo hi B sq C k P st c :
  proc_ok lo hi B sq C k P st → plain (pc P) = true → plain c = true →
  (catchupInterruptEnabled P = true → interruptible (pc P) = true → interruptible c = true) →
  pc_ok lo hi B (set_pc c P) st → proc_ok lo hi B sq C k (set_pc c P) st.
Proof.
  intros Hok A A' He Hpc. apply (plain_ok _ _ _ _ _ _ P); try done; try apply Hok.
  intros E. destruct (proj2 (ok_handlers _ _ _ _ _ _ _ _ Hok) E). split; [by apply He|done].
Qed.

(** A message moves from the array to the callback. *)
Lemma deliver_pending P c c' :
  plain c = true → plain (pc P) = true → (nextmsg P < nummsgs P ≤ MAXINVALMSGS)%nat →
  length (messages P) = MAXINVALMSGS → pc (set_pc c' (deliver P)) = c →
  got (set_pc c' (deliver P)) ++ pending (set_pc c' (deliver P)) = got P ++ pending P.
Proof.
  intros A A' Hn Hl <-. rewrite (pending_plain P A'), pending_plain by done. cbn. rewrite <- app_assoc. f_equal.
  assert (is_Some (messages P !! nextmsg P)) as [m Hm] by (apply lookup_lt_is_Some; lia).
  rewrite Hm. cbn. rewrite (drop_S (messages P) m (nextmsg P) Hm).
  replace (nummsgs P - nextmsg P)%nat with (S (nummsgs P - S (nextmsg P))) by lia. done.
Qed.

Lemma deliver_ok lo hi B sq C k P st c :
  proc_ok lo hi B sq C k P st → plain (pc P) = true → plain c = true → interruptible c = false →
  interruptible (pc P) = false → (nextmsg P < nummsgs P)%nat →
  (pc_ok lo hi B P st → fetched (set_pc c (deliver P)) = fetched P → pc_ok lo hi B (set_pc c (deliver P)) st) →
  proc_ok lo hi B sq C k (set_pc c (deliver P)) st.
Proof.
  intros [Hm Hs Hcu Hf Hc Hh Hpc] A A' I I' Hlt Himp.
  pose proof (deliver_pending P c c A' A ltac:(lia) (proj2 Hm) eq_refl) as Hp.
  assert (fetched (set_pc c (deliver P)) = fetched P) as Hfe.
  { apply (f_equal length) in Hp. rewrite !length_app in Hp. unfold fetched, delivered. cbn [born set_pc deliver set_stream] in *. lia. }
  constructor; try done.
  - cbn. lia.
  - unfold stream_ok. rewrite Hp, Hfe. apply Hs.
  - unfold cursor_ok. rewrite Hfe. apply Hcu.
  - apply flag_plain; [done|]. by apply (flag_plain hi k P).
  - split; [apply Hh|]. intros E. cbn in E. apply Hh in E as [E _]. congruence.
  - by apply Himp.
Qed.

(** The array is emptied before more is read. *)
Lemma empty_ok lo hi B sq C k P st c :
  proc_ok lo hi B sq C k P st → plain (pc P) = true → plain c = true → interruptible (pc P) = false →
  nextmsg P = nummsgs P →
  (fetched (set_pc c (set_messages (messages P) 0 0 P)) = fetched P →
   pc_ok lo hi B (set_pc c (set_messages (messages P) 0 0 P)) st) →
  proc_ok lo hi B sq C k (set_pc c (set_messages (messages P) 0 0 P)) st.
Proof.
  intros [Hm Hs Hcu Hf Hc Hh Hpc] A A' I E Himp.
  set (P' := set_pc c (set_messages (messages P) 0 0 P)) in *.
  assert (pending P = []) as E1 by (rewrite pending_plain by done; by rewrite E, Nat.sub_diag).
  assert (pending P' = []) as E2 by (by rewrite pending_plain).
  assert (fetched P' = fetched P) as Hfe by (unfold fetched; by rewrite E1, E2).
  constructor; try done.
  - cbn. split; [lia|apply Hm].
  - unfold stream_ok in *. rewrite E2, Hfe. rewrite E1 in Hs. apply Hs.
  - unfold cursor_ok. rewrite Hfe. apply Hcu.
  - apply flag_plain; [done|]. by apply (flag_plain hi k P).
  - split; [apply Hh|]. intros EE. cbn in EE. apply Hh in EE as [EE _]. congruence.
  - by apply Himp.
Qed.

Lemma get_clear_ok lo hi B sq C k P st :
  proc_ok lo hi B sq C k P st → pc P = GetClear → proc_ok lo hi B sq C k (set_pc GetMax P) (set_hasMessages false st).
Proof.
  intros [Hm Hs Hcu Hf Hc Hh Hpc] E. unfold pc_ok, stream_ok, cursor_ok, fetched, pending in *. rewrite E in *.
  constructor; try done.
Qed.

Lemma get_max_ok lo hi B sq C k P st :
  proc_ok lo hi B sq C k P st → pc P = GetMax → lo <= hi → hi + B = Z.of_nat (length sq) → (C ≤ length sq)%nat →
  (receives st → resetState st = false → lo <= nextMsgNum st <= hi) →
  proc_ok lo hi B sq C k (set_pc (GetTest hi) P) st.
Proof.
  intros [Hm Hs Hcu Hf Hc Hh Hpc] E Hlo Hhi HC He. unfold pc_ok, stream_ok, cursor_ok, fetched, pending in *. rewrite E in *.
  constructor; try done.
  - intros ??. cbn. lia.
  - destruct Hpc as (R & E1 & E2). destruct Hs as [_ Hs]. unfold fetched, pending, delivered in *. cbn.
    split_and!; try (done || lia); [|intros; by apply He].
    destruct Hc as [Hc _]. unfold seen. cbn. destruct (calls P) as [|[? n] ?]; [lia|].
    apply Forall_cons_1 in Hc as [[_ Hc] _]. cbn in Hc. lia.
Qed.

Lemma get_reset_ok lo hi B sq C k P st max :
  proc_ok lo hi B sq C k P st → pc P = GetTest max → hi + B = Z.of_nat (length sq) →
  proc_ok lo hi B sq C k (set_pc InReset (set_stream (Z.to_nat (max + B)) [] P))
    (set_signaled false (set_resetState false (set_nextMsgNum max st))).
Proof.
  intros [Hm Hs Hcu Hf Hc Hh Hpc] E Hhi. unfold pc_ok, flag_ok in *. rewrite E in *.
  destruct Hpc as (R & E1 & E2 & Hmax & Hseen & _ & _).
  set (P' := set_pc InReset (set_stream (Z.to_nat (max + B)) [] P)) in *.
  assert (pending P' = []) as Ep by (rewrite pending_plain by done; cbn; by rewrite E1, E2).
  assert (fetched P' = Z.to_nat (max + B)) as Hfe by (unfold fetched, delivered; rewrite Ep; cbn; lia).
  constructor; try done.
  - unfold stream_ok. rewrite Ep, Hfe. split; [done|lia].
  - intros _ _. rewrite Hfe. cbn. lia.
  - intros ? HH. cbn in *. split; [done|]. by apply Hf.
  - split; [done|]. unfold caught_up. rewrite Hfe. change (seen P') with (seen P). cbn. rewrite E1, E2. split_and!; [lia|done|done].
Qed.

Lemma get_first_ok lo hi B sq C k P st max :
  proc_ok lo hi B sq C k P st → pc P = GetTest max → resetState st = false →
  proc_ok lo hi B sq C k (set_pc (GetRead 0 max) P) st.
Proof.
  intros [Hm Hs Hcu Hf Hc Hh Hpc] E Hr. unfold pc_ok, flag_ok, stream_ok, cursor_ok, fetched, pending in *. rewrite E in *.
  destruct Hpc as (R & E1 & E2 & Hmax & Hseen & _ & Hle). rewrite E1, E2 in *. cbn [Nat.sub take app] in *.
  constructor; try done.
  - cbn. rewrite E1, E2. split; [lia|apply Hm].
  - cbn. split_and!; auto; lia.
Qed.

Lemma get_read_ok lo hi B sq C k P st n max m :
  proc_ok lo hi B sq C k P st → pc P = GetRead n max → hi + B = Z.of_nat (length sq) →
  (n < MAXINVALMSGS)%nat → nextMsgNum st < max → sq !! Z.to_nat (nextMsgNum st + B) = Some m →
  proc_ok lo hi B sq C k (set_pc (GetRead (S n) max) (set_messages (<[n := Some m]> (messages P)) (nextmsg P) (nummsgs P) P))
    (set_nextMsgNum (nextMsgNum st + 1) st).
Proof.
  intros [Hm Hs Hcu Hf Hc Hh Hpc] E Hhi Hn Hlt Hsq.
  unfold pc_ok, flag_ok in *. rewrite E in *. destruct Hpc as (R & E1 & E2 & Hmax & Hseen & Hr & Hle & _).
  set (P' := set_pc (GetRead (S n) max) (set_messages (<[n := Some m]> (messages P)) (nextmsg P) (nummsgs P) P)) in *.
  assert (pending P' = pending P ++ [Some m]) as Ep.
  { unfold pending. rewrite E. cbn. destruct Hm as [_ Hl].
    rewrite (take_S_r _ _ (Some m)) by (apply list_lookup_insert_eq; lia). by rewrite take_insert_ge by lia. }
  pose proof (Hcu R Hr) as Hcu'.
  assert (fetched P' = S (fetched P)) as Hfe by (unfold fetched, delivered; rewrite Ep, length_app; cbn; lia).
  constructor; try done.
  - cbn. by rewrite length_insert.
  - destruct Hs as [Hs1 Hs2]. unfold stream_ok. rewrite Hfe, Ep. change (got P') with (got P). change (born P') with (born P).
    rewrite (app_assoc (got P)), (length_app _ [_]), Nat.add_1_r, (segment_snoc _ _ _ m), <- Hs1; [split; [done|lia]|].
    rewrite <- Hsq. f_equal. rewrite length_app. unfold fetched, delivered in Hcu'. lia.
  - intros _ _. rewrite Hfe. cbn. lia.
  - cbn. change (seen P') with (seen P). split_and!; try done; lia.
Qed.

Lemma get_end_ok lo hi B sq C k P st n max :
  proc_ok lo hi B sq C k P st → pc P = GetRead n max → (n = MAXINVALMSGS ∨ max <= nextMsgNum st) →
  proc_ok lo hi B sq C k (set_pc RcvDrain2 (set_messages (messages P) 0 n P))
    ((if max <=? nextMsgNum st then set_signaled false else set_hasMessages true) st).
Proof.
  intros [Hm Hs Hcu Hf Hc Hh Hpc] E Hend.
  unfold pc_ok, flag_ok in *. rewrite E in *. destruct Hpc as (R & E1 & E2 & Hmax & Hseen & Hr & Hle & Hn).
  set (P' := set_pc RcvDrain2 (set_messages (messages P) 0 n P)) in *.
  assert (pending P' = pending P) as Ep.
  { rewrite pending_plain by done. unfold pending. rewrite E. cbn. by rewrite drop_0, Nat.sub_0_r. }
  pose proof (Hcu R Hr) as Hcu'.
  assert (fetched P' = fetched P) as Hfe by (unfold fetched, delivered; by rewrite Ep).
  constructor; try done.
  - cbn. split; [lia|apply Hm].
  - unfold stream_ok. rewrite Hfe, Ep. apply Hs.
  - intros _ _. rewrite Hfe, <- Hcu'. by case_match.
  - intros _. cbn. destruct (Z.leb_spec max (nextMsgNum st)); cbn; [|done]. intros HH. split; [done|]. specialize (Hf R HH). lia.
  - split; [apply Hh|]. intros EE. cbn in EE. apply Hh in EE as [EE _]. done.
  - split; [destruct (max <=? nextMsgNum st); exact R|]. rewrite Hfe. cbn. change (seen P') with (seen P). intros Hne.
    assert (max <= nextMsgNum st) by naive_solver lia. lia.
Qed.

(** ** Preservation, reading *)

Lemma proc_facts s p P :
  Inv s → procs s !! p = Some P →
  ∃ st, procState (seg s) !! backend P = Some st ∧ my_entry P s = st ∧
    proc_ok (minMsgNum (seg s)) (maxMsgNum (seg s)) (base s) (sent s) (completed s) (kick s (backend P)) P st ∧
    (receives st → resetState st = false → minMsgNum (seg s) <= nextMsgNum st <= maxMsgNum (seg s)).
Proof.
  intros HI HP. destruct (inv_owner s HI p P HP) as (H0 & st & E & Hpid). exists st.
  unfold my_entry. rewrite E. split_and!; [done|done|by apply (inv_proc s HI p)|].
  apply (inv_entry s HI (backend P)); [done|congruence].
Qed.

(** The position of a reader, and where the message is that it reads next. *)
Lemma next_message s k :
  Inv s → minMsgNum (seg s) <= k < maxMsgNum (seg s) →
  ∃ m, sent s !! Z.to_nat (k + base s) = Some m ∧ mjoin (buffer (seg s) !! index k) = Some m.
Proof.
  intros HI Hk. destruct (inv_num s HI) as (? & ? & ? & ? & Hl).
  assert (is_Some (sent s !! Z.to_nat (k + base s))) as [m Hm] by (apply lookup_lt_is_Some; lia).
  exists m. split; [done|]. rewrite (inv_buf s HI k Hk). by rewrite Hm.
Qed.

Lemma get_check_ok s p P st :
  Inv s → procs s !! p = Some P → procState (seg s) !! backend P = Some st → pc P = GetCheck → hasMessages st = false →
  proc_ok (minMsgNum (seg s)) (maxMsgNum (seg s)) (base s) (sent s) (completed s) (kick s (backend P))
    (set_pc RcvDrain2 (set_messages (messages P) 0 0 P)) st.
Proof.
  intros HI HP Est E Hh. pose proof (inv_proc s HI p P st HP Est) as Hok.
  pose proof (ok_pc _ _ _ _ _ _ _ _ Hok) as Hpc. unfold pc_ok in Hpc. rewrite E in Hpc. destruct Hpc as (R & E1 & E2).
  apply empty_ok; rewrite ?E; try done; [congruence|].
  intros Hf. split; [done|]. rewrite Hf. intros _.
  pose proof (ok_flag _ _ _ _ _ _ _ _ Hok) as Hfl. rewrite flag_plain in Hfl by (by rewrite E).
  destruct (Hfl R Hh) as [Hr Hle]. pose proof (ok_cursor _ _ _ _ _ _ _ _ Hok R Hr) as Hcu.
  destruct (ok_calls _ _ _ _ _ _ _ _ Hok) as [Hc _].
  pose proof (kick_le s (backend P)). destruct (inv_num s HI) as (_ & _ & _ & _ & Hl).
  unfold seen. cbn. destruct (calls P) as [|[? n] ?]; [lia|].
  apply Forall_cons_1 in Hc as [[_ Hc] _]. unfold completed in Hc. cbn in Hc. lia.
Qed.

Lemma get_step_inv s p P s' :
  Inv s → procs s !! p = Some P → SIGetDataEntries_step p P s = Some s' → Inv s'.
Proof.
  intros HI HP. destruct (proc_facts s p P HI HP) as (st & Est & My & Hok & He).
  destruct (inv_num s HI) as (Hn1 & Hn2 & Hn3 & Hn4 & Hl).
  assert (completed s ≤ length (sent s))%nat as Hcl by (unfold completed; lia).
  pose proof (ok_pc _ _ _ _ _ _ _ _ Hok) as Hpc. unfold pc_ok in Hpc.
  pose proof (lock_same s p P) as Hsame.
  unfold SIGetDataEntries_step. rewrite My. destruct (pc P) eqn:E; try done.
  - destruct (hasMessages st) eqn:Hh; intros [= <-]; eapply put_inv; rewrite ?E; try done.
    + apply move_ok; rewrite ?E; done.
    + by eapply get_check_ok.
  - destruct (xlock_free s); [|done]. intros [= <-]. unfold goto, put_proc, set_rlock. cbn. rewrite <- local_id.
    eapply local_inv; rewrite ?E; try done. apply move_ok; rewrite ?E; done.
  - intros [= <-]. unfold goto, put_proc, on_entry, set_seg. cbn. rewrite <- (Hsame (set_pc GetMax P)) by done.
    eapply (local_inv s p P (set_pc GetMax P) st (set_hasMessages false)); rewrite ?E; try done. by apply get_clear_ok.
  - intros [= <-]. eapply put_inv; rewrite ?E; try done. eapply get_max_ok; done || lia.
  - destruct (resetState st) eqn:Hr; intros [= <-]; [|eapply put_inv; rewrite ?E; try done; by eapply get_first_ok].
    eapply (local_inv s p P (set_pc InReset (set_stream (Z.to_nat (max + base s)) [] P)) st
      (λ st, set_signaled false (set_resetState false (set_nextMsgNum max st)))); rewrite ?E; try done; [cbn; lia|].
    by eapply get_reset_ok.
  - destruct Hpc as (R & E1 & E2 & Hmax & Hseen & Hr & Hle & Hn).
    destruct (Nat.ltb_spec n MAXINVALMSGS) as [Hlt|Hge]; [destruct (Z.ltb_spec (nextMsgNum st) max) as [Hlt'|Hge']|]; intros [= <-].
    + destruct (next_message s (nextMsgNum st) HI) as (m & Hm & Hb); [specialize (He R Hr); lia|]. rewrite Hb.
      pose proof (get_read_ok _ _ _ _ _ _ P st n max m Hok E Hl Hlt Hlt' Hm) as Hok'.
      set (P' := set_messages (<[n := Some m]> (messages P)) (nextmsg P) (nummsgs P) P) in *.
      unfold goto, put_proc, on_entry, set_seg. cbn. rewrite <- (Hsame (set_pc (GetRead (S n) max) P')) by done.
      eapply (local_inv s p P (set_pc (GetRead (S n) max) P') st (set_nextMsgNum (nextMsgNum st + 1))); rewrite ?E; try done.
      specialize (He R Hr). cbn. lia.
    + eapply (local_inv s p P (set_pc RcvDrain2 (set_messages (messages P) 0 n P)) st); rewrite ?E; try done.
      3: eapply get_end_ok; try done; by right.
      all: by destruct (max <=? nextMsgNum st).
    + eapply (local_inv s p P (set_pc RcvDrain2 (set_messages (messages P) 0 n P)) st); rewrite ?E; try done.
      3: eapply get_end_ok; try done; left; lia.
      all: by destruct (max <=? nextMsgNum st).
Qed.

(** ** Preservation, signals *)

Lemma interrupt_inv s q Q h e o sg :
  Inv s → procs s !! q = Some Q → Forall (λ c, interruptible c = true) h →
  (e = true → catchupInterruptEnabled Q = true) → Inv (put_proc q (set_interrupt h e o sg Q) s).
Proof.
  intros HI HQ Hh He.
  assert (∀ p P, procs (put_proc q (set_interrupt h e o sg Q) s) !! p = Some P →
            procs s !! p = Some P ∨ p = q ∧ P = set_interrupt h e o sg Q) as Hp.
  { intros p P. cbn. rewrite lookup_insert_Some. naive_solver. }
  destruct (kick_ext s (put_proc q (set_interrupt h e o sg Q) s)) as [Hk Hk']; [done| |].
  { intros w _. cbn. destruct (decide (w = q)) as [->|]; [by rewrite lookup_insert_eq, HQ|by rewrite lookup_insert_ne]. }
  assert (∀ p (f : PC M → bool), (∃ P, procs (put_proc q (set_interrupt h e o sg Q) s) !! p = Some P ∧ f (pc P) = true) ↔
            ∃ P, procs s !! p = Some P ∧ f (pc P) = true) as Hpc.
  { intros p f. cbn. destruct (decide (p = q)) as [->|]; [|by rewrite lookup_insert_ne].
    rewrite lookup_insert_eq, HQ. split; intros (P & [= <-] & E); eauto. }
  constructor; try apply HI.
  - intros p P [HP|[-> ->]]%Hp; [by apply (inv_owner s HI)|apply (inv_owner s HI q Q HQ)].
  - intros p. rewrite Hpc. apply HI.
  - intros p. rewrite Hpc. apply HI.
  - unfold completed. rewrite Hk'. intros p P st HP E. rewrite Hk. apply Hp in HP as [HP|[-> ->]]; [by apply (inv_proc s HI p)|].
    destruct (inv_proc s HI q Q st HQ E). constructor; try done.
    split; [done|]. cbn. intros Ee. by apply ok_handlers0, He.
  - intros p P [HP|[-> ->]]%Hp; [by apply (inv_writer s HI p)|apply (inv_writer s HI q Q HQ)].
Qed.

Lemma signal_inv s q : Inv s → Inv (SendProcSignal q s).
Proof.
  intros HI. unfold SendProcSignal. destruct (procs s !! q) as [Q|] eqn:HQ; [|done].
  apply interrupt_inv; try done. destruct (proc_facts s q Q HI HQ) as (st & _ & _ & Hok & _). apply Hok.
Qed.

(** ** Preservation, [ReceiveSharedInvalidMessages] without its cleanup *)

Lemma calls_ok_nil C P : calls P = [] → calls_ok C P.
Proof. unfold calls_ok. intros ->. split; constructor. Qed.

Lemma calls_push C P ret c :
  calls_ok C P → caller ret = true → calls_ok C (set_pc c (set_calls ((ret, C) :: calls P) P)).
Proof.
  intros [Hc1 Hc2] Hret. split; cbn.
  - constructor; [split; [done|cbn; lia]|done].
  - constructor; [done|]. eapply Forall_impl; [done|]. intros x [_ Hx]. done.
Qed.

Lemma call_ok s p P st ret :
  Inv s → procs s !! p = Some P → procState (seg s) !! backend P = Some st →
  plain (pc P) = true → caller ret = true → catchupInterruptEnabled P = false → receives st →
  proc_ok (minMsgNum (seg s)) (maxMsgNum (seg s)) (base s) (sent s) (completed s) (kick s (backend P))
    (set_pc RcvDrain1 (set_calls ((ret, completed s) :: calls P) P)) st.
Proof.
  intros HI HP Est A Hret He R. pose proof (inv_proc s HI p P st HP Est) as Hok.
  apply (plain_ok _ _ _ _ _ _ P); try done; try apply Hok; [|cbn; congruence]. by apply calls_push; [apply Hok|].
Qed.

Lemma return_ok lo hi B sq C k P st ret n cs :
  proc_ok lo hi B sq C k P st → pc P = RcvReturn → calls P = (ret, n) :: cs →
  proc_ok lo hi B sq C k (set_pc ret (set_calls cs P)) st.
Proof.
  intros Hok E Ec. pose proof (ok_pc _ _ _ _ _ _ _ _ Hok) as Hpc. unfold pc_ok in Hpc. rewrite E in Hpc.
  destruct Hpc as [R (Hseen & Hn1 & Hn2)]. destruct (ok_calls _ _ _ _ _ _ _ _ Hok) as [Hc1 Hc2]. rewrite Ec in Hc1, Hc2.
  apply Forall_cons_1 in Hc1 as [[Hret Hn] Hc1]. apply StronglySorted_inv in Hc2 as [Hc2 Hc3].
  assert (plain ret = true) as A by (by destruct ret).
  assert (seen (set_pc ret (set_calls cs P)) ≤ fetched (set_pc ret (set_calls cs P)))%nat as Hs.
  { rewrite (same_fetched P) by (rewrite ?E; done). etrans; [|exact Hseen]. unfold seen. cbn. rewrite Ec. destruct cs as [|[? m] ?]; [lia|].
    by apply Forall_cons_1 in Hc3 as [Hc3 _]. }
  apply (plain_ok _ _ _ _ _ _ P); rewrite ?E; try done; try apply Hok.
  - cbn. intros Ee. apply Hok in Ee as [Ee _]. by rewrite E in Ee.
  - unfold pc_ok. cbn [pc set_pc]. destruct ret; try done. 
Qed.

Definition in_cleanup (c : PC M) : bool :=
  match c with RcvClean | RcvCleanRead | RcvCleaning => true | _ => false end.

Lemma receive_step_inv s p P s' :
  Inv s → procs s !! p = Some P → in_cleanup (pc P) = false → ReceiveSharedInvalidMessages_step p P s = Some s' → Inv s'.
Proof.
  intros HI HP Hne. destruct (proc_facts s p P HI HP) as (st & Est & _ & Hok & He).
  pose proof (ok_pc _ _ _ _ _ _ _ _ Hok) as Hpc. unfold pc_ok in Hpc. destruct (ok_messages _ _ _ _ _ _ _ _ Hok) as [[Hm1 Hm2] _].
  unfold ReceiveSharedInvalidMessages_step. destruct (pc P) eqn:E; try done.
  - destruct (Nat.ltb_spec (nextmsg P) (nummsgs P)); intros [= <-]; eapply put_inv; rewrite ?E; try done.
    + apply deliver_ok; rewrite ?E; done.
    + apply move_ok; rewrite ?E; try done. split; [done|cbn; lia].
  - intros [= <-]; eapply put_inv; rewrite ?E; try done. apply move_ok; rewrite ?E; done.
  - intros [= <-]; eapply put_inv; rewrite ?E; try done. destruct Hpc. apply empty_ok; rewrite ?E; done.
  - destruct (Nat.ltb_spec (nextmsg P) (nummsgs P)); [|destruct (Nat.eqb_spec (nummsgs P) MAXINVALMSGS)];
      intros [= <-]; eapply put_inv; rewrite ?E; try done.
    + apply deliver_ok; rewrite ?E; try done. intros _ Hf. unfold pc_ok. cbn [pc set_pc]. by rewrite Hf.
    + apply move_ok; rewrite ?E; try done. split; [apply Hpc|cbn; lia].
    + apply move_ok; rewrite ?E; try done. destruct Hpc as [R Hs]. split; [done|].
      unfold caught_up. rewrite (same_fetched P) by (rewrite ?E; done). split_and!; [by apply Hs|cbn; lia|done].
  - intros [= <-]; eapply put_inv; rewrite ?E; try done. apply move_ok; rewrite ?E; try done.
    unfold pc_ok. cbn [pc set_pc]. by rewrite (same_fetched P) by (rewrite ?E; done).
  - intros [= <-]; eapply put_inv; rewrite ?E; try done. apply move_ok; rewrite ?E; try done.
    split; [apply Hpc|]. apply (same_caught_up P); rewrite ?E; try done. apply Hpc.
  - destruct (catchupInterruptOccurred P); intros [= <-]; eapply put_inv; rewrite ?E; try done.
    + apply (plain_ok _ _ _ _ _ _ P); rewrite ?E; try done; try apply Hok; [intros Ee; apply Hok in Ee as [Ee _]; by rewrite E in Ee|].
      split; [apply Hpc|]. apply (same_caught_up P); rewrite ?E; try done. apply Hpc.
    + apply move_ok; rewrite ?E; try done. split; [apply Hpc|]. apply (same_caught_up P); rewrite ?E; try done. apply Hpc.
  - intros [= <-]. apply signal_inv. eapply put_inv; rewrite ?E; try done. apply move_ok; rewrite ?E; try done.
    split; [apply Hpc|]. apply (same_caught_up P); rewrite ?E; try done. apply Hpc.
  - destruct (calls P) as [|[ret n] cs] eqn:Ec; [done|]. intros [= <-].
    assert (caller ret = true) as Hret.
    { destruct (ok_calls _ _ _ _ _ _ _ _ Hok) as [Hc _]. rewrite Ec in Hc. by apply Forall_cons_1 in Hc as [[? _] _]. }
    eapply put_inv; rewrite ?E; try done; [by destruct ret|by destruct ret|]. by eapply return_ok.
Qed.

Lemma catchup_step_inv s p P s' :
  Inv s → procs s !! p = Some P → catchup_step p P s = Some s' → Inv s'.
Proof.
  intros HI HP. destruct (proc_facts s p P HI HP) as (st & Est & _ & Hok & He).
  pose proof (ok_pc _ _ _ _ _ _ _ _ Hok) as Hpc. unfold pc_ok in Hpc.
  destruct (ok_handlers _ _ _ _ _ _ _ _ Hok) as [Hh Hen].
  unfold catchup_step. destruct (pc P) eqn:E; try done.
  6: { destruct (catchupInterruptOccurred P) eqn:Eo; [intros [= <-]; eapply put_inv; rewrite ?E; try done; apply move_ok; rewrite ?E; done|].
    destruct (handlers P) as [|ret hs] eqn:Eh; [done|]. intros [= <-]. apply Forall_cons_1 in Hh as [Hret Hh].
    eapply put_inv; rewrite ?E; try done; [by destruct ret|by destruct ret|].
    apply (plain_ok _ _ _ _ _ _ P); rewrite ?E; try done; try apply Hok; by destruct ret. }
  all: repeat case_match; intros [= <-]; try done; unfold call_receive; eapply put_inv; rewrite ?E; try done;
    apply (plain_ok _ _ _ _ _ _ P); rewrite ?E; try done; try apply Hok; by apply calls_push; [apply Hok|].
Qed.

(** ** [SICleanupQueue] *)

Definition considered st : bool := negb ((procPid st =? 0)%nat || resetState st || sendOnly st).
Definition scanned (lowbound : Z) st : ProcState :=
  if considered st && (nextMsgNum st <? lowbound) then set_resetState true st else st.
Definition kept (lowbound : Z) st : Prop := considered st = true ∧ lowbound <= nextMsgNum st.

Lemma cleanup_scan_spec lowbound ps i min minsig ns ps' min' ns' :
  cleanup_scan lowbound ps i min minsig ns = (ps', min', ns') →
  ps' = scanned lowbound <$> ps ∧ min' <= min ∧ (∀ st, st ∈ ps → kept lowbound st → min' <= nextMsgNum st) ∧
  (min' = min ∨ ∃ st, st ∈ ps ∧ kept lowbound st ∧ min' = nextMsgNum st).
Proof.
  revert i min minsig ns ps' min' ns'. induction ps as [|st ps IH]; intros i min minsig ns ps' min' ns'; cbn [cleanup_scan].
  { intros [= <- <- <-]. split_and!; [done|lia|set_solver|by left]. }
  assert (∀ mi ms n, ∃ t m n', cleanup_scan lowbound ps (S i) mi ms n = (t, m, n')) as Hd.
  { intros mi ms n. destruct (cleanup_scan lowbound ps (S i) mi ms n) as [[t m] n'] eqn:E. eauto. }
  unfold kept, scanned, considered in *. cbn [fmap list_fmap].
  destruct ((procPid st =? 0)%nat || resetState st || sendOnly st) eqn:Ec; cbn [negb andb].
  { destruct (Hd min minsig ns) as (t & m & n' & E). rewrite E. intros [= <- <- <-].
    apply IH in E as (-> & E1 & E2 & E3). split_and!; [done|done| |set_solver].
    intros st' [->|Hin]%elem_of_cons [Hc Hn]; [by rewrite Ec in Hc|by apply E2]. }
  destruct (Z.ltb_spec (nextMsgNum st) lowbound) as [Hlt|Hge].
  { destruct (Hd min minsig ns) as (t & m & n' & E). rewrite E. intros [= <- <- <-].
    apply IH in E as (-> & E1 & E2 & E3). split_and!; [done|done| |set_solver].
    intros st' [->|Hin]%elem_of_cons [Hc Hn]; [lia|by apply E2]. }
  set (mi := if nextMsgNum st <? min then nextMsgNum st else min).
  assert (mi <= min ∧ mi <= nextMsgNum st ∧ (mi = min ∨ mi = nextMsgNum st)) as (M1 & M2 & M3).
  { unfold mi. destruct (Z.ltb_spec (nextMsgNum st) min); lia. }
  destruct (if (nextMsgNum st <? minsig) && negb (signaled st) then (nextMsgNum st, Some i) else (minsig, ns)) as [ms n].
  destruct (Hd mi ms n) as (t & m & n' & E). rewrite E. intros [= <- <- <-].
  apply IH in E as (-> & E1 & E2 & E3). split_and!; [done|lia| |].
  - intros st' [->|Hin]%elem_of_cons [Hc Hn]; [lia|by apply E2].
  - destruct E3 as [->|(st' & Hin & Hk & ->)].
    + destruct M3 as [->| ->]; [by left|right; exists st; rewrite Ec; set_solver].
    + right. exists st'. set_solver.
Qed.

(** What happens to an entry. *)
Definition entry_cleaned (w lowbound : Z) (below : bool) st st' : Prop :=
  procPid st' = procPid st ∧ hasMessages st' = hasMessages st ∧ sendOnly st' = sendOnly st ∧ nextLXID st' = nextLXID st ∧
  resetState st' = (resetState st || (below && considered st && (nextMsgNum st <? lowbound))) ∧
  (if below then nextMsgNum st' = if w =? 0 then nextMsgNum st else s32 (nextMsgNum st - w) else st' = st).

Lemma scanned_cleaned w lb st b :
  entry_cleaned w lb true st
    ((if b : bool then set_signaled true else id)
       (if w =? 0 then scanned lb st else set_nextMsgNum (s32 (nextMsgNum (scanned lb st) - w)) (scanned lb st))).
Proof.
  unfold entry_cleaned, scanned. cbn [andb].
  destruct (considered st && (nextMsgNum st <? lb)) eqn:E, (w =? 0), b; cbn; rewrite ?orb_true_r, ?orb_false_r; done.
Qed.

Lemma cleanup_spec minFree g g' q w :
  cleanup minFree g = (g', q, w) → (lastBackend g ≤ length (procState g))%nat →
  ∃ m, w = reduction m ∧
    minMsgNum g' = m - w ∧ maxMsgNum g' = maxMsgNum g - w ∧ nextThreshold g' = threshold (maxMsgNum g - m) ∧
    lastBackend g' = lastBackend g ∧ maxBackends g' = maxBackends g ∧ buffer g' = buffer g ∧
    length (procState g') = length (procState g) ∧ m <= maxMsgNum g ∧
    (∀ i st, procState g !! i = Some st → (i < lastBackend g)%nat →
       kept (maxMsgNum g - MAXNUMMESSAGES + minFree) st → m <= nextMsgNum st) ∧
    (m = maxMsgNum g ∨ ∃ i st, procState g !! i = Some st ∧ kept (maxMsgNum g - MAXNUMMESSAGES + minFree) st ∧ m = nextMsgNum st) ∧
    (∀ i st, procState g !! i = Some st → ∃ st', procState g' !! i = Some st' ∧
       entry_cleaned w (maxMsgNum g - MAXNUMMESSAGES + minFree) (i <? lastBackend g)%nat st st').
Proof.
  unfold cleanup. intros E Hl.
  destruct (cleanup_scan _ _ _ _ _ _) as [[ps m] ns] eqn:Es.
  apply cleanup_scan_spec in Es as (-> & M1 & M2 & M3). injection E as <- _ <-. exists m.
  set (lb := maxMsgNum g - MAXNUMMESSAGES + minFree) in *.
  set (w := reduction m).
  set (f := λ st, if w =? 0 then scanned lb st else set_nextMsgNum (s32 (nextMsgNum (scanned lb st) - w)) (scanned lb st)).
  set (ps1 := (if w =? 0 then scanned lb <$> take (lastBackend g) (procState g) else _)).
  assert (ps1 = f <$> take (lastBackend g) (procState g)) as ->.
  { unfold ps1, f. destruct (w =? 0); [done|]. by rewrite <- list_fmap_compose. }
  split_and!; try done.
  - cbn. rewrite length_app, length_drop. destruct ns; rewrite ?length_alter, length_fmap, length_take; lia.
  - intros i st Hi Hlt Hk. apply M2; [|done]. apply list_elem_of_lookup. exists i. by rewrite lookup_take_lt.
  - destruct M3 as [->|(st & Hin & Hk & ->)]; [by left|right].
    apply list_elem_of_lookup in Hin as [i Hi]. exists i, st. apply lookup_take_Some in Hi as [Hi _]. done.
  - intros i st Hi. cbn [procState]. destruct (Nat.ltb_spec i (lastBackend g)) as [Hlt|Hge].
    + assert (∃ b : bool, match ns with Some i => alter (set_signaled true) i (f <$> take (lastBackend g) (procState g))
              | None => f <$> take (lastBackend g) (procState g) end !! i = Some ((if b then set_signaled true else id) (f st))) as [b Hb].
      { assert ((f <$> take (lastBackend g) (procState g)) !! i = Some (f st)) as Hf
          by (rewrite list_lookup_fmap, lookup_take_lt, Hi by done; done).
        destruct ns as [j|]; [|by exists false]. destruct (decide (j = i)) as [->|].
        - exists true. by rewrite list_lookup_alter_eq, Hf.
        - exists false. by rewrite list_lookup_alter_ne. }
      exists ((if b then set_signaled true else id) (f st)). split; [by apply lookup_app_l_Some|]. apply scanned_cleaned.
    + exists st. split; [|by unfold entry_cleaned; cbn; rewrite orb_false_r].
      rewrite lookup_app_r; destruct ns; rewrite ?length_alter, length_fmap, length_take; try lia;
        rewrite lookup_drop, <- Hi; f_equal; lia.
Qed.

(** ** Preservation, writing *)

Definition is_kick (c : PC M) : bool := match c with InsKick _ _ _ => true | _ => false end.
Lemma no_kick s p P :
  procs s !! p = Some P → (wlock s = None ∨ wlock s = Some p) → is_kick (pc P) = false →
  (∀ i, kick s i = 0%nat) ∧ kicking s = 0%nat.
Proof. unfold kick, kicking. intros HP [-> | ->] E; [done|]. rewrite HP. by destruct (pc P). Qed.

(** The writer moves on, and takes or gives up the lock. *)
Lemma wmove_inv s p P c l :
  Inv s → procs s !! p = Some P → (wlock s = None ∨ wlock s = Some p) → l = (if writing c then Some p else None) →
  reading (pc P) = false → reading c = false → is_kick (pc P) = false → is_kick c = false →
  catchupInterruptEnabled P = false →
  (∀ lo hi B st, pc_ok lo hi B P st → pc_ok lo hi B (set_pc c P) st) → writer_ok s (set_pc c P) → Inv (goto p P c (set_wlock l s)).
Proof.
  intros HI HP Hw -> Rd' Rd Hk Hk' He Hpc Hwo.
  set (s' := goto p P c _). destruct (no_kick s p P HP Hw Hk) as [K1 K2].
  assert (procs s' !! p = Some (set_pc c P)) as HP' by (cbn; by rewrite lookup_insert_eq).
  assert ((∀ i, kick s' i = 0%nat) ∧ kicking s' = 0%nat) as [K1' K2'].
  { eapply no_kick; [done| |done]. cbn. destruct (writing c); auto. }
  assert (∀ q Q, procs s' !! q = Some Q → q = p ∧ Q = set_pc c P ∨ q ≠ p ∧ procs s !! q = Some Q) as Hp.
  { intros q Q. cbn. rewrite lookup_insert_Some. naive_solver. }
  assert (plain c = true) as Pl by (by destruct c).
  assert (plain (pc P) = true) as Pl' by (by destruct (pc P)).
  constructor; try apply HI.
  - intros q Q [[-> ->]|[_ HQ]]%Hp; [apply (inv_owner s HI p P HP)|by apply (inv_owner s HI)].
  - intros q. cbn. split.
    + destruct (writing c) eqn:W; [|done]. intros [= <-]. exists (set_pc c P). by rewrite lookup_insert_eq.
    + intros (Q & HQ & W). apply Hp in HQ as [[-> ->]|[Hne HQ]]; [cbn in W; by rewrite W|].
      assert (wlock s = Some q) by (apply (inv_wlock s HI); eauto). destruct Hw; congruence.
  - intros q. cbn. rewrite (inv_rlock s HI q). destruct (decide (q = p)) as [->|].
    + rewrite lookup_insert_eq, HP. split; intros (? & [= <-] & ?); cbn in *; congruence.
    + by rewrite lookup_insert_ne by done.
  - unfold completed. rewrite K2'. intros q Q st HQ E. rewrite K1'.
    apply Hp in HQ as [[-> ->]|[Hne HQ]].
    + pose proof (inv_proc s HI p P st HP E) as Hok. unfold completed in Hok. rewrite K1, K2 in Hok.
      apply move_ok; try done; [congruence|]. apply Hpc, Hok.
    + pose proof (inv_proc s HI q Q st HQ E) as Hok. unfold completed in Hok. by rewrite K1, K2 in Hok.
  - intros q Q [[-> ->]|[Hne HQ]]%Hp; [done|by apply (inv_writer s HI q)].
Qed.

(** ** Preservation, cleanup *)

Lemma reduction_range m : 0 <= m < MSGNUMWRAPAROUND + MAXNUMMESSAGES → 0 <= m - reduction m < MSGNUMWRAPAROUND ∧ 0 <= reduction m.
Proof. unfold reduction, MSGNUMWRAPAROUND, MAXNUMMESSAGES. intros. destruct (Z.leb_spec (4096 * 262144) m); lia. Qed.

Lemma index_reduction k m : index (k - reduction m) = index k.
Proof.
  unfold index, reduction. destruct (MSGNUMWRAPAROUND <=? m); [|by rewrite Z.sub_0_r].
  f_equal. unfold MSGNUMWRAPAROUND. replace (k - MAXNUMMESSAGES * 262144) with (k + (- 262144) * MAXNUMMESSAGES) by lia.
  apply Z_mod_plus_full.
Qed.

Lemma cleaned_next w lb st st' :
  entry_cleaned w lb true st st' → 0 <= w → 0 <= nextMsgNum st - w → nextMsgNum st < 2 ^ 31 → nextMsgNum st' = nextMsgNum st - w.
Proof.
  intros (_ & _ & _ & _ & _ & C6) ? ? ?. rewrite C6. destruct (Z.eqb_spec w 0); [lia|]. apply s32_id. unfold is_s32. lia.
Qed.

Lemma cleaned_reset w lb st st' :
  entry_cleaned w lb true st st' → resetState st' = false →
  resetState st = false ∧ (procPid st ≠ 0%nat → receives st → kept lb st).
Proof.
  intros (_ & _ & _ & _ & C5 & _) E. rewrite C5 in E. apply orb_false_iff in E as [E1 E2]. split; [done|].
  intros Hp R. unfold receives in R. unfold kept, considered in *. rewrite E1, R, orb_false_r in *.
  destruct (Nat.eqb_spec (procPid st) 0); [done|]. cbn in *. split; [done|]. by apply Z.ltb_ge.
Qed.

(** A process that is not reading is not disturbed by the cleanup, except that it may be told to
    reset. *)
Lemma cleaned_ok lo lo' hi B sq P st st' w lb :
  proc_ok lo hi B sq (length sq) 0 P st → reading (pc P) = false → entry_cleaned w lb true st st' → lb <= hi →
  0 <= w → (receives st → resetState st' = false → 0 <= nextMsgNum st - w ∧ nextMsgNum st <= hi) →
  (receives st → resetState st = false → nextMsgNum st <= hi) → hi < 2 ^ 31 →
  proc_ok lo' (hi - w) (B + w) sq (length sq) 0 P st'.
Proof.
  intros Hok Hrd HC Hlb Hw Hr Hr' Hhi. pose proof HC as (C1 & C2 & C3 & C4 & C5 & C6).
  assert (plain (pc P) = true) as A by (by destruct (pc P)).
  assert (receives st' ↔ receives st) as HR by (unfold receives; by rewrite C3).
  assert (receives st → resetState st' = false → nextMsgNum st' = nextMsgNum st - w) as Hn.
  { intros R E. destruct (Hr R E). eapply cleaned_next; try done. lia. }
  destruct Hok as [Hm Hs Hcu Hf Hc Hh Hpc]. constructor; try done.
  - intros R%HR E. rewrite Hn by done. apply cleaned_reset with (1 := HC) in E as [E _].
    rewrite <- (Hcu R E). lia.
  - apply flag_plain; [done|]. intros R%HR E. rewrite C2 in E. rewrite flag_plain in Hf by done.
    destruct (Hf R E) as [E1 E2].
    assert (resetState st' = false) as E3.
    { rewrite C5, E1. cbn. destruct (Z.ltb_spec (nextMsgNum st) lb); [lia|by rewrite andb_false_r]. }
    rewrite Hn by done. split; [done|lia].
  - split; [apply Hh|]. intros Ee. apply Hh in Ee as [? ?]. split; [done|by apply HR].
  - unfold pc_ok in *. destruct (pc P); try done; rewrite ?HR; done.
Qed.

(** What the cleanup keeps lies between the old bounds. *)
Lemma cleanup_min s minFree g' q w :
  Inv s → 0 <= minFree <= MAXNUMMESSAGES → cleanup minFree (seg s) = (g', q, w) →
  ∃ m, w = reduction m ∧ minMsgNum g' = m - w ∧ maxMsgNum g' = maxMsgNum (seg s) - w ∧
    minMsgNum (seg s) <= m <= maxMsgNum (seg s) ∧ maxMsgNum (seg s) - m <= MAXNUMMESSAGES - minFree ∧
    0 <= m - w < MSGNUMWRAPAROUND ∧ 0 <= w ∧ maxMsgNum (seg s) < 2 ^ 31 ∧
    (∀ i st, procState (seg s) !! i = Some st → kept (maxMsgNum (seg s) - MAXNUMMESSAGES + minFree) st → m <= nextMsgNum st).
Proof.
  intros HI Hfree E. destruct (inv_num s HI) as (Hn1 & Hn2 & Hn3 & Hn4 & Hl).
  apply cleanup_spec in E; [|rewrite (inv_ps s HI); apply HI].
  destruct E as (m & -> & E1 & E2 & _ & _ & _ & _ & _ & E3 & E4 & E5 & _). exists m.
  assert (∀ i st, procState (seg s) !! i = Some st → kept (maxMsgNum (seg s) - MAXNUMMESSAGES + minFree) st →
    minMsgNum (seg s) <= nextMsgNum st ∧ (i < lastBackend (seg s))%nat) as Hk.
  { intros i st Hi [Hc _]. unfold considered in Hc. apply negb_true_iff, orb_false_iff in Hc as [Hc Hs].
    apply orb_false_iff in Hc as [Hp Hr]. apply Nat.eqb_neq in Hp. split.
    - by apply (inv_entry s HI i st).
    - destruct (decide (i < lastBackend (seg s))%nat); [done|]. destruct Hp. apply (inv_inactive s HI i st Hi). lia. }
  assert (minMsgNum (seg s) <= m ∧ maxMsgNum (seg s) - m <= MAXNUMMESSAGES - minFree) as [M1 M2].
  { destruct E5 as [->|(i & st & Hi & HK & ->)]; [lia|]. destruct (Hk i st Hi HK). destruct HK. lia. }
  destruct (reduction_range m) as [R1 R2]; [lia|]. unfold MSGNUMWRAPAROUND, MAXNUMMESSAGES in *.
  split_and!; try done; try lia. intros i st Hi HK. apply (E4 i st Hi); [by apply (Hk i st)|done].
Qed.

Lemma cleanup_entries s minFree g' q w :
  Inv s → cleanup minFree (seg s) = (g', q, w) →
  ∀ i st', procState g' !! i = Some st' → ∃ st, procState (seg s) !! i = Some st ∧
    entry_cleaned w (maxMsgNum (seg s) - MAXNUMMESSAGES + minFree) (i <? lastBackend (seg s))%nat st st'.
Proof.
  intros HI E i st' Hi. apply cleanup_spec in E; [|rewrite (inv_ps s HI); apply HI].
  destruct E as (_ & _ & _ & _ & _ & _ & _ & _ & Elen & _ & _ & _ & Eps).
  assert (is_Some (procState (seg s) !! i)) as [st Hst] by (apply lookup_lt_is_Some; rewrite <- Elen; by eapply lookup_lt_Some).
  exists st. destruct (Eps i st Hst) as (st2 & E1 & E2). split; [done|congruence].
Qed.

Lemma cleanup_inv s minFree g' q w :
  Inv s → rlock s = ∅ → (∀ p P, procs s !! p = Some P → writing (pc P) = true → cleaning (pc P) = true) →
  0 <= minFree <= MAXNUMMESSAGES → cleanup minFree (seg s) = (g', q, w) → Inv (set_base (base s + w) (set_seg g' s)).
Proof.
  intros HI Hr Hc Hfree E. destruct (inv_num s HI) as (Hn1 & Hn2 & Hn3 & Hn4 & Hl).
  pose proof (cleanup_entries s minFree g' q w HI E) as Eps'.
  destruct (cleanup_min s minFree g' q w HI Hfree E) as (m & Hw & Emin & Emax & M1 & M2 & M3 & W0 & M4 & Hk).
  apply cleanup_spec in E; [|rewrite (inv_ps s HI); apply HI].
  destruct E as (_ & _ & _ & _ & _ & Elast & Emb & Ebuf & Elen & _ & _ & _ & Eps).
  set (lb := maxMsgNum (seg s) - MAXNUMMESSAGES + minFree) in *.
  assert ((∀ i, kick s i = 0%nat) ∧ kicking s = 0%nat) as [K1 K2].
  { destruct (wlock s) as [p|] eqn:Ew; [|unfold kick, kicking; by rewrite Ew].
    destruct (proj1 (inv_wlock s HI p) Ew) as (P & HP & W). specialize (Hc p P HP W).
    eapply no_kick; [done|by right|by destruct (pc P)]. }
  constructor; cbn [seg set_base set_seg base sent procs wlock rlock].
  - rewrite Ebuf. apply HI.
  - rewrite Elen, Emb. apply HI.
  - rewrite Elast, Emb. apply HI.
  - rewrite Elast. intros i st' (st & Hi & C1 & _)%Eps' Hle. rewrite C1. by apply (inv_inactive s HI i).
  - intros p P HP. destruct (inv_owner s HI p P HP) as (H0 & st & Hst & <-). split; [done|].
    destruct (Eps _ _ Hst) as (st' & ? & C1 & _). exists st'. done.
  - rewrite Emin, Emax. unfold MAXNUMMESSAGES in *. lia.
  - rewrite Emin, Emax, Ebuf. intros k Hk'.
    replace (k + (base s + w)) with (k + w + base s) by lia. rewrite <- (inv_buf s HI (k + w)) by lia.
    rewrite <- (index_reduction (k + w) m), <- Hw. do 2 f_equal. lia.
  - apply HI.
  - apply HI.
  - rewrite Emin, Emax. intros i st' (st & Hi & HC)%Eps' Hp R Hres. pose proof HC as (C1 & C2 & C3 & _).
    rewrite C1 in Hp. unfold receives in R. rewrite C3 in R.
    assert (i < lastBackend (seg s))%nat as Hlt.
    { destruct (decide (i < lastBackend (seg s))%nat); [done|]. destruct Hp. apply (inv_inactive s HI i st Hi). lia. }
    apply Nat.ltb_lt in Hlt. rewrite Hlt in HC. destruct (cleaned_reset _ _ _ _ HC Hres) as [Hr' HK].
    specialize (Hk i st Hi (HK Hp R)). destruct (inv_entry s HI i st Hi Hp R Hr').
    rewrite (cleaned_next w lb st st') by (done || lia). lia.
  - unfold completed. intros p P st' HP (st & Hi & HC)%Eps'. cbn.
    rewrite Emax. change (kick _ (backend P)) with (kick s (backend P)). change (kicking _) with (kicking s). rewrite K1, K2, Nat.sub_0_r.
    pose proof (inv_proc s HI p P st HP Hi) as Hok. unfold completed in Hok. rewrite K1, K2, Nat.sub_0_r in Hok.
    pose proof (owner_last s p P HI HP) as Hlt. apply Nat.ltb_lt in Hlt. rewrite Hlt in HC.
    destruct (proc_facts s p P HI HP) as (st2 & E2 & _ & _ & He). assert (st2 = st) as -> by congruence.
    destruct (inv_owner s HI p P HP) as (H0 & st2 & E3 & Hpid). assert (st2 = st) as -> by congruence.
    eapply (cleaned_ok _ _ _ _ _ _ st); try done.
    + destruct (reading (pc P)) eqn:Erd; [|done].
      assert (p ∈ rlock s) by (apply (inv_rlock s HI); eauto). set_solver.
    + unfold lb. lia.
    + intros R Hres. destruct (cleaned_reset _ _ _ _ HC Hres) as [Hr' HK]. specialize (He R Hr').
      assert (kept lb st) as Hkp by (apply HK; [congruence|done]). specialize (Hk _ st Hi Hkp). lia.
    + intros R Hr'. by apply He.
  - intros p P HP. destruct (writing (pc P)) eqn:W; [|by apply writer_ok_idle].
    specialize (Hc p P HP W). unfold writer_ok. by destruct (pc P).
Qed.

(** ** Preservation, storing messages *)

Lemma index_lt k : (index k < Z.to_nat MAXNUMMESSAGES)%nat.
Proof. unfold index. pose proof (Z.mod_pos_bound k MAXNUMMESSAGES eq_refl). lia. Qed.

Lemma index_ne k k' : k < k' < k + MAXNUMMESSAGES → index k ≠ index k'.
Proof.
  unfold index. intros Hk E. pose proof (Z.mod_pos_bound k MAXNUMMESSAGES eq_refl). pose proof (Z.mod_pos_bound k' MAXNUMMESSAGES eq_refl).
  apply Z2Nat.inj in E; [|lia|lia]. pose proof (Z.div_mod k MAXNUMMESSAGES ltac:(done)). pose proof (Z.div_mod k' MAXNUMMESSAGES ltac:(done)).
  assert (k' / MAXNUMMESSAGES = k / MAXNUMMESSAGES ∨ k / MAXNUMMESSAGES + 1 <= k' / MAXNUMMESSAGES) as [E'|E'].
  { pose proof (Z.div_le_mono k k' MAXNUMMESSAGES). unfold MAXNUMMESSAGES in *. lia. }
  all: unfold MAXNUMMESSAGES in *; lia.
Qed.

Lemma set_wlock_id s : set_wlock (wlock s) s = s.
Proof. by destruct s. Qed.

(** A message is stored in a slot that nobody may read yet. *)
Lemma put_message_inv s p P put m todo rest max :
  Inv s → procs s !! p = Some P → pc P = InsPut put (m :: todo) rest max → catchupInterruptEnabled P = false →
  Inv (goto p P (InsPut (put ++ [m]) todo rest (max + 1)) (set_seg (set_buffer max m (seg s)) s)).
Proof.
  intros HI HP E He. destruct (inv_num s HI) as (Hn1 & Hn2 & Hn3 & Hn4 & Hl).
  assert (wlock s = Some p) as Ew by (apply (inv_wlock s HI); exists P; by rewrite E).
  pose proof (inv_writer s HI p P HP) as Hwo. unfold writer_ok in Hwo. rewrite E in Hwo. destruct Hwo as (W1 & W2 & W3). cbn [length] in W2.
  set (s1 := set_seg (set_buffer max m (seg s)) s).
  assert (writing (pc P) = true) as Wp by (by rewrite E).
  (* the system with the new buffer, where the writer has yet to move on *)
  assert (Inv (goto p P (InsClean [] rest) s1)) as HI1.
  { assert (Inv (goto p P (InsClean [] rest) (set_wlock (Some p) s))) as HI0.
    { eapply wmove_inv; rewrite ?E; try done; [by right|]. intros. cbn. lia. }
    constructor; try apply HI0.
    - cbn. rewrite length_insert. apply HI.
    - cbn. intros k Hk. rewrite list_lookup_insert_ne; [by apply (inv_buf s HI)|].
      apply not_eq_sym, index_ne. lia.
    - cbn. rewrite Ew. apply (inv_wlock _ HI0).
    - intros q Q st HQ Hst. pose proof (inv_proc _ HI0 q Q st HQ Hst) as Hok.
      destruct (kick_ext (goto p P (InsClean [] rest) (set_wlock (Some p) s)) (goto p P (InsClean [] rest) s1)) as [K1 K2]; [done|done|].
      unfold completed in *. by rewrite K1, K2.
    - intros q Q HQ. destruct (writing (pc Q)) eqn:W; [|by apply writer_ok_idle].
      assert (q = p) as ->. { eapply (writer_unique _ q p Q); [exact HI0|done|cbn; apply lookup_insert_eq|done|done]. }
      cbn in HQ. rewrite lookup_insert_eq in HQ. injection HQ as <-. done. }
  pose (P1 := set_pc (InsClean [] rest) P).
  assert (goto p P (InsPut (put ++ [m]) todo rest (max + 1)) s1 =
          goto p P1 (InsPut (put ++ [m]) todo rest (max + 1)) (set_wlock (Some p) (goto p P (InsClean [] rest) s1))) as ->.
  { unfold goto, put_proc, set_wlock. cbn. rewrite Ew, insert_insert_eq. done. }
  apply wmove_inv; try done.
  - cbn. by rewrite lookup_insert_eq.
  - by right.
  - unfold writer_ok. cbn. rewrite length_app. cbn. split_and!; [lia|lia|]. intros j Hj.
    destruct (decide (j = length put)) as [->|Hne].
    + rewrite W1, list_lookup_insert_eq by (rewrite (inv_len s HI); apply index_lt).
      by rewrite lookup_app_r, Nat.sub_diag by lia.
    + rewrite list_lookup_insert_ne by (apply not_eq_sym, index_ne; lia).
      rewrite lookup_app_l by lia. apply W3. lia.
Qed.

(** ** Preservation, publishing messages and setting the flags *)

Lemma publish_ok lo hi B sq C P st put :
  proc_ok lo hi B sq C 0 P st → proc_ok lo (hi + Z.of_nat (length put)) B (sq ++ put) C (length put) P st.
Proof.
  intros [Hm Hs Hcu Hf Hc Hh Hpc]. constructor; try done.
  - destruct Hs as [Hs1 Hs2]. split; [|rewrite length_app; lia]. rewrite segment_app; [done|].
    rewrite length_app. unfold fetched, delivered in Hs2. lia.
  - intros R E. specialize (Hf R E). destruct (pc P); try done; intuition lia.
  - unfold pc_ok in *. destruct (pc P); try done; intuition lia.
Qed.

Lemma flagged_ok lo hi B sq C C' k k' P st b :
  proc_ok lo hi B sq C k P st → (C ≤ C')%nat → (b = false → k = k') →
  proc_ok lo hi B sq C' k' P (if b : bool then set_hasMessages true st else st).
Proof.
  intros [Hm Hs Hcu Hf Hc Hh Hpc] HC Hk.
  assert (calls_ok C' P) as Hc'.
  { destruct Hc as [Hc1 Hc2]. split; [|done]. eapply Forall_impl; [done|]. intros ? [? ?]. split; [done|lia]. }
  destruct b; [|rewrite <- Hk by done; done]. constructor; try done.
Qed.

(** The processes after the writer [p] went from [P] to place [c]. *)
Lemma goto_procs s p P c s1 q Q :
  procs s !! p = Some P → procs s1 = procs s → procs (goto p P c s1) !! q = Some Q →
  ∃ Q0, procs s !! q = Some Q0 ∧ backend Q = backend Q0 ∧
    (q = p ∧ Q0 = P ∧ Q = set_pc c P ∨ q ≠ p ∧ Q = Q0).
Proof.
  intros HP E. cbn. rewrite E, lookup_insert_Some. intros [[<- <-]|[Hne HQ]]; [exists P|exists Q]; naive_solver.
Qed.

Lemma goto_place s p P c s1 (f : PC M → bool) q :
  procs s !! p = Some P → procs s1 = procs s → f c = f (pc P) →
  (∃ Q, procs (goto p P c s1) !! q = Some Q ∧ f (pc Q) = true) ↔ ∃ Q, procs s !! q = Some Q ∧ f (pc Q) = true.
Proof.
  intros HP E Hf. cbn. rewrite E. destruct (decide (q = p)) as [->|]; [|by rewrite lookup_insert_ne].
  rewrite lookup_insert_eq, HP. split; intros (Q & [= <-] & EQ); cbn in *; [rewrite Hf in EQ|]; eexists; (split; [done|]); cbn; congruence.
Qed.

Lemma publish_inv s p P put rest max :
  Inv s → procs s !! p = Some P → pc P = InsPublish put rest max → catchupInterruptEnabled P = false →
  Inv (goto p P (InsKick 0 (length put) rest) (set_sent (sent s ++ put) (set_seg (set_maxMsgNum max (seg s)) s))).
Proof.
  intros HI HP E He. destruct (inv_num s HI) as (Hn1 & Hn2 & Hn3 & Hn4 & Hl).
  assert (wlock s = Some p) as Ew by (apply (inv_wlock s HI); exists P; by rewrite E).
  pose proof (inv_writer s HI p P HP) as Hwo. unfold writer_ok in Hwo. rewrite E in Hwo. destruct Hwo as (W1 & W2 & W3).
  destruct (no_kick s p P HP ltac:(by right) ltac:(by rewrite E)) as [K1 K2].
  set (s1 := set_sent _ _). set (s' := goto p P _ s1).
  assert ((∀ i, kick s' i = length put) ∧ kicking s' = length put) as [K1' K2'].
  { unfold kick, kicking. cbn. rewrite Ew, lookup_insert_eq. done. }
  assert (completed s' = completed s) as Hc.
  { unfold completed. rewrite K2, K2'. cbn. rewrite length_app. lia. }
  constructor; try apply HI.
  - intros q Q HQ. destruct (goto_procs s p P _ s1 q Q HP eq_refl HQ) as (Q0 & HQ0 & -> & _). by apply (inv_owner s HI).
  - cbn. rewrite length_app. lia.
  - cbn. intros k Hk. destruct (decide (k < maxMsgNum (seg s))) as [Hlt|Hge].
    + rewrite lookup_app_l by lia. apply (inv_buf s HI). lia.
    + specialize (W3 (Z.to_nat (k - maxMsgNum (seg s))) ltac:(lia)).
      rewrite lookup_app_r by lia. replace (Z.to_nat (k + base s) - length (sent s))%nat with (Z.to_nat (k - maxMsgNum (seg s))) by lia.
      rewrite <- W3. do 2 f_equal. lia.
  - intros q. unfold s'. rewrite (goto_place s p P _ s1 writing) by (try rewrite E; done). apply HI.
  - intros q. unfold s'. rewrite (goto_place s p P _ s1 reading) by (try rewrite E; done). apply HI.
  - intros i st Hi Hp R Hr. pose proof (inv_entry s HI i st Hi Hp R Hr). cbn. lia.
  - intros q Q st HQ Hi. rewrite Hc, K1'.
    destruct (goto_procs s p P _ s1 q Q HP eq_refl HQ) as (Q0 & HQ0 & Eb & HQ'). rewrite Eb in Hi.
    pose proof (inv_proc s HI q Q0 st HQ0 Hi) as Hok. rewrite K1 in Hok. apply (publish_ok _ _ _ _ _ _ _ put) in Hok.
    rewrite <- W1 in Hok. destruct HQ' as [(-> & -> & ->)|[_ ->]]; [|done].
    apply move_ok; rewrite ?E; try done.
  - intros q Q HQ. destruct (goto_procs s p P _ s1 q Q HP eq_refl HQ) as (Q0 & HQ0 & _ & [(-> & -> & ->)|[Hne ->]]).
    + unfold writer_ok. cbn. rewrite length_app. lia.
    + apply writer_ok_idle. destruct (writing (pc Q0)) eqn:W; [|done].
      destruct Hne. eapply (writer_unique s); try done. by rewrite E.
Qed.

Lemma kick_inv s p P j k rest :
  Inv s → procs s !! p = Some P → pc P = InsKick j k rest → catchupInterruptEnabled P = false →
  Inv (goto p P (InsKick (S j) k rest) (on_entry j (set_hasMessages true) s)).
Proof.
  intros HI HP E He.
  assert (wlock s = Some p) as Ew by (apply (inv_wlock s HI); exists P; by rewrite E).
  pose proof (inv_writer s HI p P HP) as Hwo. unfold writer_ok in Hwo. rewrite E in Hwo.
  set (s1 := on_entry _ _ s). set (s' := goto p P _ s1).
  assert (completed s' = completed s) as Hc.
  { unfold completed, kicking. cbn. by rewrite Ew, lookup_insert_eq, HP, E. }
  assert (∀ i, i ≠ j → kick s i = kick s' i) as K.
  { intros i Hi. unfold kick. cbn. rewrite Ew, lookup_insert_eq, HP, E. cbn [pc set_pc].
    destruct (Nat.leb_spec j i), (Nat.leb_spec (S j) i); lia. }
  assert (∀ i st', procState (seg s') !! i = Some st' → ∃ st, procState (seg s) !! i = Some st ∧
            st' = if bool_decide (i = j) then set_hasMessages true st else st) as Hps.
  { intros i st'. cbn. destruct (decide (i = j)) as [->|Hne].
    - rewrite list_lookup_alter_eq, bool_decide_eq_true_2 by done. destruct (procState (seg s) !! j); naive_solver.
    - rewrite list_lookup_alter_ne, bool_decide_eq_false_2 by done. eauto. }
  constructor; try apply HI.
  - cbn. rewrite length_alter. apply HI.
  - intros i st' (st & Hi & ->)%Hps Hle. rewrite <- (inv_inactive s HI i st Hi Hle). by case_bool_decide.
  - intros q Q HQ. destruct (goto_procs s p P _ s1 q Q HP eq_refl HQ) as (Q0 & HQ0 & -> & _).
    destruct (inv_owner s HI q Q0 HQ0) as (H0 & st & Hst & Hpid). split; [done|]. cbn.
    destruct (decide (backend Q0 = j)) as [<-|].
    + exists (set_hasMessages true st). by rewrite list_lookup_alter_eq, Hst.
    + exists st. by rewrite list_lookup_alter_ne.
  - intros q. unfold s'. rewrite (goto_place s p P _ s1 writing) by (try rewrite E; done). apply HI.
  - intros q. unfold s'. rewrite (goto_place s p P _ s1 reading) by (try rewrite E; done). apply HI.
  - intros i st' (st & Hi & ->)%Hps. pose proof (inv_entry s HI i st Hi). case_bool_decide; done.
  - intros q Q st' HQ (st & Hi & ->)%Hps. rewrite Hc.
    destruct (goto_procs s p P _ s1 q Q HP eq_refl HQ) as (Q0 & HQ0 & Eb & HQ'). rewrite Eb in *.
    pose proof (inv_proc s HI q Q0 st HQ0 Hi) as Hok.
    apply (flagged_ok _ _ _ _ _ (completed s) _ (kick s' (backend Q0)) _ _ (bool_decide (backend Q0 = j))) in Hok;
      [|done|intros Hne%bool_decide_eq_false_1; by apply K].
    destruct HQ' as [(-> & -> & ->)|[_ ->]]; [|done]. apply move_ok; rewrite ?E; try done.
  - intros q Q HQ. destruct (goto_procs s p P _ s1 q Q HP eq_refl HQ) as (Q0 & HQ0 & _ & [(-> & -> & ->)|[Hne ->]]).
    + done.
    + apply writer_ok_idle. destruct (writing (pc Q0)) eqn:W; [|done].
      destruct Hne. eapply (writer_unique s); try done. by rewrite E.
Qed.

(** The lock is released when all flags are set. *)
Lemma release_inv s p P j k rest :
  Inv s → procs s !! p = Some P → pc P = InsKick j k rest → (lastBackend (seg s) ≤ j)%nat →
  Inv (goto p P (InsLoop rest) (set_wlock None s)).
Proof.
  intros HI HP E Hj. assert (wlock s = Some p) as Ew by (apply (inv_wlock s HI); exists P; by rewrite E).
  set (s1 := set_wlock None s). set (s' := goto p P _ s1).
  assert (completed s ≤ completed s')%nat as Hc by (unfold completed, kicking; cbn; lia).
  assert (∀ q Q, procs s !! q = Some Q → kick s (backend Q) = kick s' (backend Q)) as K.
  { intros q Q HQ. pose proof (owner_last s q Q HI HQ). unfold kick. cbn. rewrite Ew, HP, E. destruct (Nat.leb_spec j (backend Q)); lia. }
  constructor; try apply HI.
  - intros q Q HQ. destruct (goto_procs s p P _ s1 q Q HP eq_refl HQ) as (Q0 & HQ0 & -> & _). by apply (inv_owner s HI).
  - intros q. cbn. split; [done|]. intros (Q & HQ & W).
    destruct (goto_procs s p P _ s1 q Q HP eq_refl HQ) as (Q0 & HQ0 & _ & [(-> & -> & ->)|[Hne ->]]); [done|].
    destruct Hne. eapply (writer_unique s); try done. by rewrite E.
  - intros q. unfold s'. rewrite (goto_place s p P _ s1 reading) by (try rewrite E; done). apply HI.
  - intros q Q st HQ Hi.
    destruct (goto_procs s p P _ s1 q Q HP eq_refl HQ) as (Q0 & HQ0 & Eb & HQ'). rewrite Eb in *.
    pose proof (inv_proc s HI q Q0 st HQ0 Hi) as Hok.
    apply (flagged_ok _ _ _ _ _ (completed s') _ (kick s' (backend Q0)) _ _ false) in Hok; [|done|intros; by eapply K].
    destruct HQ' as [(-> & -> & ->)|[_ ->]]; [|done]. apply move_ok; rewrite ?E; try done.
  - intros q Q HQ. destruct (goto_procs s p P _ s1 q Q HP eq_refl HQ) as (Q0 & HQ0 & _ & [(-> & -> & ->)|[Hne ->]]); [done|].
    apply writer_ok_idle. destruct (writing (pc Q0)) eqn:W; [|done].
    destruct Hne. eapply (writer_unique s); try done. by rewrite E.
Qed.

(** ** The steps of the writer and of the cleanup *)

Lemma xlock_inv s x : Inv s → Inv (set_xlock x s).
Proof. intros HI. constructor; apply HI. Qed.

(** Under both locks the cleanup does its work undisturbed. *)
Lemma work_inv s p P minFree g' q w :
  Inv s → excl_ok s → procs s !! p = Some P → cleaning (pc P) = true →
  0 <= minFree <= MAXNUMMESSAGES → cleanup minFree (seg s) = (g', q, w) → Inv (set_base (base s + w) (set_seg g' s)).
Proof.
  intros HI [Hx Hr] HP Hc Hfree E. eapply cleanup_inv; try done.
  - apply Hr. intros Ex. assert (xlock s = Some p) by (apply Hx; eauto). congruence.
  - intros p' P' HP' W'. assert (p' = p) as -> by (eapply (writer_unique s); try done; by destruct (pc P)). by simplify_eq.
Qed.

Lemma insert_step_inv s p P s' :
  Inv s → excl_ok s → procs s !! p = Some P → SIInsertDataEntries_step p P s = Some s' → Inv s'.
Proof.
  intros HI HX HP. destruct (proc_facts s p P HI HP) as (st & Est & _ & Hok & _).
  pose proof (ok_pc _ _ _ _ _ _ _ _ Hok) as Hpc. unfold pc_ok in Hpc.
  assert (interruptible (pc P) = false → catchupInterruptEnabled P = false) as Hen.
  { intros I. destruct (catchupInterruptEnabled P) eqn:Ee; [|done]. apply Hok in Ee as [Ee _]. congruence. }
  assert (writing (pc P) = true → wlock s = Some p) as Hw by (intros W; apply (inv_wlock s HI); eauto).
  unfold SIInsertDataEntries_step, wlock_free. destruct (pc P) eqn:E; try done.
  - destruct data as [|m data].
    + intros [= <-]. eapply put_inv; rewrite ?E; try done. apply move_ok; rewrite ?E; done.
    + destruct (wlock s) eqn:Ew; [done|]. intros [= <-]. eapply wmove_inv; rewrite ?E; try done; [by left|by apply Hen|].
      intros. unfold pc_ok. cbn [pc set_pc length]. rewrite length_take. unfold WRITE_QUANTUM. lia.
  - specialize (Hw eq_refl). rewrite <- (set_wlock_id s) at 3 4. rewrite Hw.
    destruct (_ || _) eqn:Eb; intros [= <-]; eapply wmove_inv; rewrite ?E; try done; try (by right); try (by apply Hen).
    apply orb_false_iff in Eb as [Eb _]. apply Z.ltb_ge in Eb. unfold writer_ok. cbn. split_and!; [lia|lia|intros; lia].
  - specialize (Hw eq_refl). destruct (rlock_free s); [|done]. intros [= <-].
    rewrite <- (set_wlock_id (set_xlock _ _)). cbn [wlock set_xlock]. rewrite Hw.
    eapply wmove_inv; rewrite ?E; try done; [by apply xlock_inv|by right|by apply Hen].
  - specialize (Hw eq_refl). destruct (cleanup (Z.of_nat (length chunk)) (seg s)) as [[g' q] w] eqn:Ec.
    assert (Inv (set_base (base s + w) (set_seg g' s))) as HI'.
    { apply (work_inv s p P (Z.of_nat (length chunk)) g' q w); rewrite ?E; try done. unfold WRITE_QUANTUM, MAXNUMMESSAGES in *. lia. }
    destruct q as [q|]; intros [= <-]; [|rewrite <- (set_wlock_id (set_xlock _ _)); cbn [wlock set_xlock set_base set_seg]; rewrite Hw];
      (eapply wmove_inv; rewrite ?E; try done; [by apply xlock_inv|by right|by apply Hen]).
  - intros [= <-]. apply signal_inv. eapply put_inv; rewrite ?E; try done. apply move_ok; rewrite ?E; done.
  - destruct (wlock s) eqn:Ew; [done|]. intros [= <-]. eapply wmove_inv; rewrite ?E; try done; [by left|by apply Hen].
  - specialize (Hw eq_refl). destruct todo as [|m todo]; intros [= <-]; [|apply put_message_inv; auto].
    rewrite <- (set_wlock_id s), Hw. eapply wmove_inv; rewrite ?E; try done; [by right|by apply Hen|].
    pose proof (inv_writer s HI p P HP) as Hwo. unfold writer_ok in *. rewrite E in Hwo. cbn in Hwo |- *. rewrite Z.add_0_r in Hwo. done.
  - intros [= <-]. apply publish_inv; auto.
  - destruct (Nat.ltb_spec i (lastBackend (seg s))); intros [= <-]; [apply kick_inv; auto|by eapply release_inv].
Qed.

Lemma receive_clean_inv s p P s' :
  Inv s → excl_ok s → procs s !! p = Some P → in_cleanup (pc P) = true →
  ReceiveSharedInvalidMessages_step p P s = Some s' → Inv s'.
Proof.
  intros HI HX HP Hc. destruct (proc_facts s p P HI HP) as (st & _ & _ & Hok & _).
  assert (catchupInterruptEnabled P = false) as Hen.
  { destruct (catchupInterruptEnabled P) eqn:Ee; [|done]. apply Hok in Ee as [Ee _]. by destruct (pc P). }
  assert (∀ c lo hi B st, in_cleanup c = true ∨ (∃ q, c = RcvSignal q) ∨ c = RcvReturn → pc_ok lo hi B P st → pc_ok lo hi B (set_pc c P) st) as Hpc.
  { intros c lo hi B st1 Hcc Hp. assert (receives st1 ∧ caught_up P) as [R Hcu] by (unfold pc_ok in Hp; by destruct (pc P)).
    assert (caught_up (set_pc c P)) by (apply (same_caught_up P); try done; [by destruct (pc P)|by destruct Hcc as [?|[[? ->]| ->]]; [destruct c|..]]).
    by destruct Hcc as [?|[[? ->]| ->]]; [destruct c|..]. }
  assert (writing (pc P) = true → wlock s = Some p) as Hw by (intros W; apply (inv_wlock s HI); eauto).
  unfold ReceiveSharedInvalidMessages_step, wlock_free. destruct (pc P) eqn:E; try done.
  - destruct (wlock s) eqn:Ew; [done|]. intros [= <-]. eapply wmove_inv; rewrite ?E; try done; [by left|]. auto.
  - specialize (Hw eq_refl). destruct (rlock_free s); [|done]. intros [= <-].
    rewrite <- (set_wlock_id (set_xlock _ _)). cbn [wlock set_xlock]. rewrite Hw.
    eapply wmove_inv; rewrite ?E; try done; [by apply xlock_inv|by right|]. auto.
  - specialize (Hw eq_refl). destruct (cleanup 0 (seg s)) as [[g' q] w] eqn:Ec.
    assert (Inv (set_base (base s + w) (set_seg g' s))) as HI' by (apply (work_inv s p P 0 g' q w); rewrite ?E; try done; unfold MAXNUMMESSAGES; lia).
    destruct q as [q|]; intros [= <-]; (eapply wmove_inv; rewrite ?E; try done; [by apply xlock_inv|by right|]); eauto.
Qed.

(** ** Preservation, processes that come and go *)

Lemma find_inactive ps lo n i :
  find_up lo n (λ i, if active_at ps i then None else Some i) = Some i →
  (lo ≤ i < lo + n)%nat ∧ active_at ps i = false.
Proof.
  revert lo. induction n as [|n IH]; intros lo; cbn; [done|]. destruct (active_at ps lo) eqn:E.
  - intros H. apply IH in H. split; [lia|apply H].
  - intros [= <-]. split; [lia|done].
Qed.

Lemma active_at_false ps i st : ps !! i = Some st → active_at ps i = false ↔ procPid st = 0%nat.
Proof. unfold active_at. intros ->. by rewrite negb_false_iff, Nat.eqb_eq. Qed.

Lemma init_spec p o g i lx g' :
  SharedInvalBackendInit p o g = Some (i, lx, g') → length (procState g) = maxBackends g → (lastBackend g ≤ maxBackends g)%nat →
  (∀ i st, procState g !! i = Some st → (lastBackend g ≤ i)%nat → procPid st = 0%nat) →
  ∃ st n, procState g !! i = Some st ∧ procPid st = 0%nat ∧ lx = nextLXID st ∧ (lastBackend g ≤ n ≤ maxBackends g)%nat ∧ (i < n)%nat ∧
    g' = set_lastBackend n (set_procState (<[i := MkPS p (maxMsgNum g) false false false o lx]>) g).
Proof.
  unfold SharedInvalBackendInit, free_entry. intros E Hl Hle Hin.
  destruct (find_up 0 (lastBackend g) _) as [j|] eqn:Ef.
  - apply find_inactive in Ef as [Hj Ha]. assert (is_Some (procState g !! j)) as [st Hst] by (apply lookup_lt_is_Some; lia).
    rewrite Hst in E. injection E as <- <- <-. exists st, (lastBackend g). split_and!; try done; try lia.
    by apply (active_at_false _ _ _ Hst).
  - destruct (Nat.ltb_spec (lastBackend g) (maxBackends g)) as [Hlt|]; [|done]. cbn [procState set_lastBackend] in E.
    assert (is_Some (procState g !! lastBackend g)) as [st Hst] by (apply lookup_lt_is_Some; lia).
    rewrite Hst in E. injection E as <- <- <-. exists st, (S (lastBackend g)). split_and!; try done; try lia.
    by apply (Hin _ _ Hst).
Qed.

Lemma new_proc_ok lo hi B sq C k i lx p o :
  hi + B = Z.of_nat (length sq) →
  proc_ok lo hi B sq C k (new_proc i lx (length sq)) (MkPS p hi false false false o lx).
Proof.
  intros Hl. constructor; try done; unfold stream_ok, cursor_ok, fetched, delivered, pending; cbn.
  - split; [lia|reflexivity].
  - split; [done|lia].
  - intros _ _. lia.
  - intros _ _. cbn. split; [done|lia].
  - by apply calls_ok_nil.
Qed.

Lemma init_inv s p o i lx g' :
  Inv s → p ≠ 0%nat → wlock s = None → procs s !! p = None → SharedInvalBackendInit p o (seg s) = Some (i, lx, g') →
  Inv (put_proc p (new_proc i lx (length (sent s))) (set_seg g' s)).
Proof.
  intros HI Hp Ew Hnew E. apply init_spec in E as (st & n & Hst & Hpid & Elx & Hn & Hin & ->); try apply HI.
  set (st' := MkPS p _ _ _ _ _ _). set (s' := put_proc _ _ _).
  assert (i < length (procState (seg s)))%nat as Hi by (by eapply lookup_lt_Some).
  destruct (inv_num s HI) as (Hn1 & Hn2 & Hn3 & Hn4 & Hl).
  assert (∀ j st1, procState (seg s') !! j = Some st1 → j = i ∧ st1 = st' ∨ j ≠ i ∧ procState (seg s) !! j = Some st1) as Hps.
  { intros j st1. cbn. rewrite list_lookup_insert_Some. naive_solver. }
  assert (∀ q Q, procs s !! q = Some Q → q ≠ p ∧ backend Q ≠ i) as Hold.
  { intros q Q HQ. split; [congruence|]. intros Eb. destruct (inv_owner s HI q Q HQ) as (H0 & st1 & E1 & <-). congruence. }
  assert (∀ q Q, procs s' !! q = Some Q → q = p ∧ Q = new_proc i lx (length (sent s)) ∨ procs s !! q = Some Q) as Hp'.
  { intros q Q. cbn. rewrite lookup_insert_Some. naive_solver. }
  assert (kicking s' = 0%nat ∧ kicking s = 0%nat ∧ ∀ j, kick s' j = 0%nat ∧ kick s j = 0%nat) as (K1 & K2 & K3).
  { unfold kicking, kick. cbn. by rewrite Ew. }
  assert (∀ q (f : PC M → bool), f Idle = false →
    (∃ Q, procs s' !! q = Some Q ∧ f (pc Q) = true) ↔ ∃ Q, procs s !! q = Some Q ∧ f (pc Q) = true) as Hpl.
  { intros q f Hf. split.
    - intros (Q & [[-> ->]|HQ]%Hp' & EQ); [cbn in EQ; congruence|eauto].
    - intros (Q & HQ & EQ). exists Q. split; [|done]. cbn. destruct (Hold q Q HQ) as [Hne _]. by rewrite lookup_insert_ne by congruence. }
  constructor; try apply HI.
  - cbn. rewrite length_insert. apply HI.
  - cbn. lia.
  - intros j st1 [[-> ->]|[_ Hj]]%Hps Hle; cbn in Hle; [lia|]. apply (inv_inactive s HI j st1 Hj). lia.
  - intros q Q [[-> ->]|HQ]%Hp'; (split; [done || apply (inv_owner s HI q Q HQ)|]).
    + exists st'. cbn. by rewrite list_lookup_insert_eq.
    + destruct (inv_owner s HI q Q HQ) as (_ & st1 & E1 & E2). exists st1. cbn.
      destruct (Hold q Q HQ). by rewrite list_lookup_insert_ne by congruence.
  - intros q. rewrite Hpl by done. apply HI.
  - intros q. rewrite Hpl by done. apply HI.
  - intros j st1 [[-> ->]|[_ Hj]]%Hps ? ? ?; [cbn; lia|by apply (inv_entry s HI j)].
  - intros q Q st1 HQ Hj. unfold completed. rewrite K1, (proj1 (K3 _)).
    apply Hp' in HQ as [[-> ->]|HQ]; apply Hps in Hj as [[Ej ->]|[Hne Hj]].
    + by apply new_proc_ok.
    + done.
    + destruct (Hold q Q HQ). done.
    + pose proof (inv_proc s HI q Q st1 HQ Hj) as Hok. unfold completed in Hok. by rewrite K2, (proj2 (K3 _)) in Hok.
  - intros q Q [[-> ->]|HQ]%Hp'; [done|by apply (inv_writer s HI q)].
Qed.

Lemma last_active_spec ps n :
  (last_active ps n ≤ n)%nat ∧ ∀ j, (last_active ps n ≤ j < n)%nat → active_at ps j = false.
Proof.
  induction n as [|n [IH1 IH2]]; cbn; [split; [lia|intros; lia]|].
  destruct (active_at ps n) eqn:E; [split; [lia|intros; lia]|]. split; [lia|]. intros j Hj.
  destruct (decide (j = n)) as [->|]; [done|]. apply IH2. lia.
Qed.

Lemma exit_inv s p P :
  Inv s → procs s !! p = Some P → wlock s = None → reading (pc P) = false →
  Inv (MkSys (CleanupInvalidationState (backend P) (nextLocalTransactionId P) (seg s)) (wlock s) (rlock s) (xlock s)
         (delete p (procs s)) (sent s) (base s) (issued s)).
Proof.
  intros HI HP Ew Hrd. destruct (proc_facts s p P HI HP) as (st & Hst & _ & _ & _).
  unfold CleanupInvalidationState. set (f := λ st, MkPS _ _ _ _ _ _ _).
  set (n := last_active _ _). set (s' := MkSys _ _ _ _ _ _ _ _).
  assert (∀ j st1, procState (seg s') !! j = Some st1 →
            j = backend P ∧ procPid st1 = 0%nat ∨ j ≠ backend P ∧ procState (seg s) !! j = Some st1) as Hps.
  { intros j st1. cbn. destruct (decide (j = backend P)) as [->|].
    - rewrite list_lookup_alter_eq, Hst. intros [= <-]. by left.
    - rewrite list_lookup_alter_ne by done. by right. }
  destruct (last_active_spec (alter f (backend P) (procState (seg s))) (lastBackend (seg s))) as [L1 L2].
  change (last_active _ _) with n in L1, L2.
  assert (∀ q Q, procs s' !! q = Some Q → q ≠ p ∧ backend Q ≠ backend P ∧ procs s !! q = Some Q) as Hp'.
  { intros q Q. cbn. rewrite lookup_delete_Some. intros [Hne HQ]. split_and!; [done| |done].
    intros Eb. destruct Hne. symmetry. by eapply (owner_inj s). }
  assert (∀ q (f : PC M → bool), f (pc P) = false →
    (∃ Q, procs s' !! q = Some Q ∧ f (pc Q) = true) ↔ ∃ Q, procs s !! q = Some Q ∧ f (pc Q) = true) as Hpl.
  { intros q h Hf. split; [intros (Q & (_ & _ & HQ)%Hp' & EQ); eauto|].
    intros (Q & HQ & EQ). exists Q. split; [|done]. cbn. apply lookup_delete_Some. split; [|done]. intros <-. congruence. }
  assert (kicking s' = 0%nat ∧ kicking s = 0%nat ∧ ∀ j, kick s' j = 0%nat ∧ kick s j = 0%nat) as (K1 & K2 & K3).
  { unfold kicking, kick. cbn. by rewrite Ew. }
  constructor; try apply HI.
  - cbn. rewrite length_alter. apply HI.
  - change (n ≤ maxBackends (seg s))%nat. etrans; [exact L1|apply HI].
  - intros j st1 Hj Hle. change (n ≤ j)%nat in Hle. destruct (decide (lastBackend (seg s) ≤ j)%nat) as [Hge|Hlt].
    + apply Hps in Hj as [[_ ?]|[_ Hj]]; [done|]. by apply (inv_inactive s HI j).
    + apply (active_at_false _ _ _ Hj), L2. lia.
  - intros q Q (Hne & Hb & HQ)%Hp'. destruct (inv_owner s HI q Q HQ) as (H0 & st1 & E1 & E2). split; [done|].
    exists st1. cbn. by rewrite list_lookup_alter_ne by congruence.
  - intros q. rewrite Hpl; [apply HI|]. destruct (writing (pc P)) eqn:W; [|done].
    assert (wlock s = Some p) by (apply (inv_wlock s HI); eauto). congruence.
  - intros q. rewrite Hpl by done. apply HI.
  - intros j st1 [[-> ?]|[_ Hj]]%Hps ? ? ?; [done|by apply (inv_entry s HI j)].
  - intros q Q st1 (Hne & Hb & HQ)%Hp' [[? _]|[_ Hj]]%Hps; [done|]. unfold completed. rewrite K1, (proj1 (K3 _)).
    pose proof (inv_proc s HI q Q st1 HQ Hj) as Hok. unfold completed in Hok. by rewrite K2, (proj2 (K3 _)) in Hok.
  - intros q Q (_ & _ & HQ)%Hp'. pose proof (inv_writer s HI q Q HQ) as Hwo. apply writer_ok_idle.
    destruct (writing (pc Q)) eqn:W; [|done]. assert (wlock s = Some q) by (apply (inv_wlock s HI); eauto). congruence.
Qed.

End Spec.
End SinvalSpec.
