(* ===== verification/SinvalProps.v ===== *)
(** The theorems about the shared invalidation queue: what backends are told, in every
    schedule. *)
From stdpp Require Import base list option numbers gmap sets sorting.
From S2P Require Import Prelude Sinval SinvalSpec.

Module SinvalProps.
Import Sinval SinvalSpec.

Section Props.
Context {M : Type}.
Implicit Types (s : Sys M) (g : SISeg M) (P : Proc M) (st : ProcState).

(** ** Every schedule keeps the invariant *)

Lemma initial_inv n : Inv (start (M := M) n).
Proof.
  constructor; cbn.
  - by rewrite length_replicate.
  - by rewrite length_replicate.
  - lia.
  - by intros i st [-> _]%lookup_replicate_1.
  - done.
  - unfold MSGNUMWRAPAROUND, MAXNUMMESSAGES. lia.
  - lia.
  - intros p. split; [done|]. by intros (? & ? & ?).
  - intros p. split; [set_solver|]. by intros (? & ? & ?).
  - by intros i st [-> _]%lookup_replicate_1.
  - done.
  - done.
Qed.

Lemma proc_step_inv s p P s' : Inv s → excl_ok s → procs s !! p = Some P → proc_step p P s = Some s' → Inv s'.
Proof.
  intros HI HX HP. unfold proc_step. destruct (pc P) eqn:E; try done;
    try (by apply insert_step_inv); try (by apply get_step_inv); try (by apply catchup_step_inv);
    try (by apply receive_step_inv; rewrite ?E); by apply receive_clean_inv; rewrite ?E.
Qed.

Lemma deliver_signal_inv s p P : Inv s → procs s !! p = Some P → Inv (HandleCatchupInterrupt p P s).
Proof.
  intros HI HP. destruct (proc_facts s p P HI HP) as (st & Est & _ & Hok & _).
  destruct (ok_handlers _ _ _ _ _ _ _ _ Hok) as [Hh Hen]. unfold HandleCatchupInterrupt.
  destruct (catchupInterruptEnabled P) eqn:Ee; [|by apply interrupt_inv].
  destruct (Hen eq_refl) as [Hi R].
  eapply put_inv; try done; [by destruct (pc P)|by destruct (pc P)|].
  apply (plain_ok _ _ _ _ _ _ P); try done; try apply Hok; [by destruct (pc P)|by constructor].
Qed.

Lemma abort_inv s p P o :
  Inv s → procs s !! p = Some P → in_callback (pc P) = true →
  Inv (goto p (set_interrupt [] (catchupInterruptEnabled P) o (signal_pending P) (set_calls [] P)) Idle s).
Proof.
  intros HI HP Hc. destruct (proc_facts s p P HI HP) as (st & Est & _ & Hok & _).
  eapply put_inv; try done; [by destruct (pc P)|by destruct (pc P)|].
  apply (plain_ok _ _ _ _ _ _ P); try done; try apply Hok; [by destruct (pc P)|by apply calls_ok_nil|].
  cbn. intros Ee. apply Hok in Ee as [_ R]. done.
Qed.

Lemma issued_inv s l : Inv s → Inv (MkSys (seg s) (wlock s) (rlock s) (xlock s) (procs s) (sent s) (base s) l).
Proof. intros [? ? ? ? ? ? ? ? ? ? ? ?]. constructor; done. Qed.

Lemma exec_inv l s s' : Inv s → excl_ok s → exec l s = Some s' → Inv s'.
Proof.
  intros HI HX. destruct l as [p o|p|p msgs|p|p|p|p|p|p|p]; cbn [exec].
  1: { destruct (Nat.eqb_spec p 0); [done|]. unfold wlock_free. destruct (wlock s) eqn:Ew; [done|]. cbn [orb negb].
    destruct (procs s !! p) eqn:HP; [done|]. destruct (SharedInvalBackendInit p o (seg s)) as [[[i lx] g]|] eqn:E; [|done].
    intros [= <-]. by eapply init_inv. }
  all: destruct (procs s !! p) as [P|] eqn:HP; [|done]; cbn [mbind option_bind].
  all: destruct (proc_facts s p P HI HP) as (st & Est & My & Hok & _).
  - unfold wlock_free. destruct (wlock s) eqn:Ew; [done|]. destruct (reading (pc P)) eqn:Er; [done|].
    intros [= <-]. by apply exit_inv.
  - destruct (pc P) eqn:E; try done. destruct (catchupInterruptEnabled P) eqn:Ee; [done|]. intros [= <-].
    eapply put_inv; rewrite ?E; try done. apply move_ok; rewrite ?E; try done. congruence.
  - rewrite My. destruct (is_idle (pc P) && negb (catchupInterruptEnabled P) || in_callback (pc P)) eqn:Ec; [|done].
    destruct (sendOnly st) eqn:R; [done|]. intros [= <-].
    assert (plain (pc P) = true ∧ caller (pc P) = true ∧ writing (pc P) = false ∧ reading (pc P) = false) as (A1 & A2 & A3 & A4)
      by (by destruct (pc P)).
    assert (catchupInterruptEnabled P = false) as Ee.
    { destruct (catchupInterruptEnabled P) eqn:Ee; [|done]. apply Hok in Ee as [Ei _]. by destruct (pc P). }
    unfold call_receive. eapply put_inv; try done. by eapply call_ok.
  - rewrite My. destruct (pc P) eqn:E; try done. destruct (catchupInterruptEnabled P) eqn:Ee; [done|].
    destruct (sendOnly st) eqn:R; [done|]. intros [= <-].
    eapply put_inv; rewrite ?E; try done. apply move_ok; rewrite ?E; try done. congruence.
  - destruct (pc P) eqn:E; try done. intros [= <-]. apply interrupt_inv; try done. apply Hok.
  - by apply proc_step_inv.
  - destruct (in_callback (pc P)) eqn:E; [|done]. intros [= <-]. by apply abort_inv.
  - destruct (signal_pending P); [|done]. intros [= <-]. by apply deliver_signal_inv.
  - destruct (pc P) eqn:E; try done. destruct (catchupInterruptEnabled P) eqn:Ee; [done|].
    destruct (GetNextLocalTransactionId (nextLocalTransactionId P)) as [x nx]. intros [= <-].
    apply (issued_inv (put_proc p (set_lxid nx P) s)). eapply put_inv; cbn; rewrite ?E; try done.
    apply (plain_ok _ _ _ _ _ _ P); cbn; rewrite ?E; try done; try apply Hok. congruence.
Qed.

(** ** Exclusive access *)

(** The process [p] goes on to [X] without taking or giving up the exclusive lock. *)
Lemma excl_put s s1 p P X :
  excl_ok s → procs s1 = procs s → procs s !! p = Some P → cleaning (pc X) = cleaning (pc P) →
  xlock s1 = xlock s → rlock s1 ⊆ rlock s ∨ xlock s = None → excl_ok (put_proc p X s1).
Proof.
  intros [Hx Hr] Ep HP Hc Ex Er. split; cbn; rewrite Ex.
  - intros q. rewrite Hx, Ep. destruct (decide (q = p)) as [->|]; [|by rewrite lookup_insert_ne].
    rewrite lookup_insert_eq, HP. split; intros (? & [= <-] & ?); eexists; (split; [done|congruence]).
  - intros Hne. specialize (Hr Hne). destruct Er as [Er|Er]; [set_solver|done].
Qed.

Lemma excl_take s p P c l :
  excl_ok s → rlock_free s = true → procs s !! p = Some P → cleaning c = true →
  excl_ok (goto p P c (set_xlock (Some p) (set_wlock l s))).
Proof.
  intros [Hx _] Hf HP Hc. apply andb_true_iff in Hf as [Hr%bool_decide_eq_true_1 Hf]. split; cbn; [|done].
  assert (xlock s = None) as Ex by (unfold xlock_free in Hf; by destruct (xlock s)).
  intros q. destruct (decide (q = p)) as [->|Hne].
  - rewrite lookup_insert_eq. split; [intros _; by eexists|done].
  - rewrite lookup_insert_ne by done. split; [congruence|]. intros H. apply Hx in H. congruence.
Qed.

Lemma excl_drop s s1 p P c :
  excl_ok s → procs s1 = procs s → procs s !! p = Some P → cleaning (pc P) = true → cleaning c = false →
  xlock s1 = None → excl_ok (goto p P c s1).
Proof.
  intros [Hx _] Ep HP HcP Hc Ex. split; cbn; rewrite Ex; [|done]. assert (xlock s = Some p) as Exp by (apply Hx; eauto).
  intros q. split; [done|]. rewrite Ep. intros (Q & HQ & EQ). apply lookup_insert_Some in HQ as [[<- <-]|[Hne HQ]]; [cbn in EQ; congruence|].
  assert (xlock s = Some q) by (apply Hx; eauto). congruence.
Qed.

Lemma excl_signal s q : excl_ok s → excl_ok (SendProcSignal q s).
Proof. intros HX. unfold SendProcSignal. destruct (procs s !! q) eqn:E; [|done]. eapply excl_put; try done. by left. Qed.

Lemma returns_clean s p P :
  Inv s → procs s !! p = Some P →
  (∀ ret n cs, calls P = (ret, n) :: cs → cleaning ret = false) ∧ (∀ ret hs, handlers P = ret :: hs → cleaning ret = false).
Proof.
  intros HI HP. destruct (proc_facts s p P HI HP) as (st & _ & _ & Hok & _). split.
  - intros ret n cs E. destruct (ok_calls _ _ _ _ _ _ _ _ Hok) as [Hc _]. rewrite E in Hc.
    apply Forall_cons_1 in Hc as [[Hc _] _]. by destruct ret.
  - intros ret hs E. destruct (ok_handlers _ _ _ _ _ _ _ _ Hok) as [Hc _]. rewrite E in Hc.
    apply Forall_cons_1 in Hc as [Hc _]. by destruct ret.
Qed.

Lemma proc_step_excl s p P s' :
  Inv s → excl_ok s → procs s !! p = Some P → proc_step p P s = Some s' → excl_ok s'.
Proof.
  intros HI HX HP. destruct (returns_clean s p P HI HP) as [Hret Hret'].
  unfold proc_step, SIInsertDataEntries_step, SIGetDataEntries_step, ReceiveSharedInvalidMessages_step, catchup_step,
    call_receive.
  destruct (pc P) eqn:E; try done.
  all: repeat case_match; intros [= <-]; try done; try apply excl_signal.
  all: try (eapply excl_drop; rewrite ?E; done).
  all: try (eapply (excl_take s p P _ (wlock s)); done).
  all: eapply (excl_put s _ p P); rewrite ?E; try done; try (by left); try (left; set_solver); cbn; eauto.
  right. unfold xlock_free in *. by destruct (xlock s).
Qed.

Lemma exec_excl l s s' : Inv s → excl_ok s → exec l s = Some s' → excl_ok s'.
Proof.
  intros HI HX. destruct l as [p o|p|p msgs|p|p|p|p|p|p|p]; cbn [exec].
  1: { destruct (_ || _); [done|]. destruct (procs s !! p) eqn:HP; [done|].
    destruct (SharedInvalBackendInit p o (seg s)) as [[[i lx] g]|]; [|done]. intros [= <-]. destruct HX as [Hx Hr].
    split; cbn; [|done]. intros q. rewrite Hx. destruct (decide (q = p)) as [->|]; [|by rewrite lookup_insert_ne].
    rewrite lookup_insert_eq, HP. split; [by intros (? & ? & ?)|by intros (? & [= <-] & ?)]. }
  all: destruct (procs s !! p) as [P|] eqn:HP; [|done]; cbn [mbind option_bind].
  6: by apply proc_step_excl.
  1: { unfold wlock_free. destruct (wlock s) eqn:Ew; [done|]. case_match; [|done]. intros [= <-]. destruct HX as [Hx Hr].
    split; cbn; [|done]. intros q. rewrite Hx. destruct (decide (q = p)) as [->|]; [|by rewrite lookup_delete_ne].
    rewrite lookup_delete_eq, HP. split; [|by intros (? & ? & ?)]. intros (? & [= <-] & Hc).
    assert (wlock s = Some p) by (apply (inv_wlock s HI); exists P; by destruct (pc P)). congruence. }
  all: unfold call_receive, goto, HandleCatchupInterrupt, goto.
  all: repeat case_match; intros [= <-]; try done.
  all: try (eapply (excl_put s _ p P); cbn; try done; try (by left); by destruct (pc P)).
  destruct (proc_facts s p P HI HP) as (st & _ & _ & Hok & _).
  destruct (proj2 (ok_handlers _ _ _ _ _ _ _ _ Hok)) as [Hi _]; [done|].
  eapply (excl_put s _ p P); cbn; try done; [by destruct (pc P)|by left].
Qed.

Lemma initial_excl n : excl_ok (start (M := M) n).
Proof. split; [|done]. intros p. split; [done|]. by intros (? & ? & ?). Qed.

Lemma run_sound ls s s' : Inv s → excl_ok s → run ls s = Some s' → Inv s' ∧ excl_ok s'.
Proof.
  revert s. induction ls as [|l ls IH]; intros s HI HX; cbn [run]; [by intros [= <-]|].
  destruct (exec l s) as [s1|] eqn:E; [|done]. apply IH; [by eapply exec_inv|by eapply exec_excl].
Qed.

Lemma run_inv ls n s : run ls (start n) = Some s → Inv s.
Proof. intros E. by eapply run_sound; [apply initial_inv|apply initial_excl|]. Qed.

Lemma run_excl ls n s : run ls (start n) = Some s → excl_ok s.
Proof. intros E. by eapply run_sound; [apply initial_inv|apply initial_excl|]. Qed.

(** ** What a process is told *)

(** The messages a process was given since it started or was told to reset, and where in the
    sequence of all messages that was. *)
Definition view P : nat * list (option M) := (born P, got P).

(** A reader of the sequence [sq]: it is given the next message, or it is told to drop everything
    and goes on at a later place. *)
Inductive view_step (sq : list M) : nat * list (option M) → nat * list (option M) → Prop :=
  | view_same v : view_step sq v v
  | view_message b l m : sq !! (b + length l)%nat = Some m → view_step sq (b, l) (b, l ++ [Some m])
  | view_reset b l b' : (b + length l ≤ b' ≤ length sq)%nat → view_step sq (b, l) (b', []).

Definition same_views s s' : Prop :=
  ∀ q Q Q', procs s !! q = Some Q → procs s' !! q = Some Q' → view Q' = view Q.

Lemma same_put s s1 p P X : procs s1 = procs s → procs s !! p = Some P → view X = view P → same_views s (put_proc p X s1).
Proof.
  intros E HP Hv q Q Q' HQ. cbn. rewrite E, lookup_insert_Some. intros [[<- <-]|[_ HQ']]; congruence.
Qed.

Lemma same_signal s s1 q : same_views s s1 → same_views s (SendProcSignal q s1).
Proof.
  intros H. unfold SendProcSignal. destruct (procs s1 !! q) as [Q1|] eqn:E1; [|done].
  intros r R R' HR. cbn. rewrite lookup_insert_Some. intros [[<- <-]|[_ HR']]; [by apply (H q R Q1)|by apply (H r R R')].
Qed.

(** The two steps that tell a process something. *)
Definition told s p P (X : Proc M) s' : Prop :=
  procs s' = <[p := X]> (procs s) ∧ sent s' = sent s ∧
  ((nextmsg P < nummsgs P)%nat ∧ plain (pc P) = true ∧ view X = (born P, got P ++ [mjoin (messages P !! nextmsg P)]) ∨
   ∃ max, pc P = GetTest max ∧ resetState (my_entry P s) = true ∧ view X = (Z.to_nat (max + base s), [])).

Lemma proc_step_views s p P s' :
  procs s !! p = Some P → proc_step p P s = Some s' → same_views s s' ∨ ∃ X, told s p P X s'.
Proof.
  intros HP. unfold proc_step, SIInsertDataEntries_step, SIGetDataEntries_step, ReceiveSharedInvalidMessages_step, catchup_step,
    call_receive, goto.
  destruct (pc P) eqn:E; try done.
  all: repeat case_match; intros [= <-]; try done; try (left; try apply same_signal; by eapply same_put).
  - right. eexists. split; [done|]. split; [done|]. right. eauto.
  - right. eexists. split; [done|]. split; [done|]. left. rewrite E. split_and!; [by apply Nat.ltb_lt|done|done].
  - right. eexists. split; [done|]. split; [done|]. left. rewrite E. split_and!; [by apply Nat.ltb_lt|done|done].
Qed.

Lemma exec_views l s s' :
  exec l s = Some s' → same_views s s' ∨ ∃ p P X, procs s !! p = Some P ∧ told s p P X s'.
Proof.
  destruct l as [p o|p|p msgs|p|p|p|p|p|p|p]; cbn [exec].
  1: { destruct (_ || _); [done|]. destruct (procs s !! p) eqn:HP; [done|].
    destruct (SharedInvalBackendInit p o (seg s)) as [[[i lx] g]|]; [|done]. intros [= <-]. left.
    intros q Q Q' HQ. cbn. rewrite lookup_insert_Some. intros [[<- <-]|[_ HQ']]; congruence. }
  all: destruct (procs s !! p) as [P|] eqn:HP; [|done]; cbn [mbind option_bind].
  6: { intros E. apply (proc_step_views s p P s' HP) in E as [E|[X E]]; [by left|right]. eauto. }
  all: unfold call_receive, goto, HandleCatchupInterrupt, goto.
  all: repeat case_match; intros [= <-]; try done; left; try (by eapply same_put).
  - intros q Q Q' HQ. cbn. rewrite lookup_delete_Some. intros [_ HQ']. congruence.
Qed.

Lemma told_step s p P X s' :
  Inv s → procs s !! p = Some P → told s p P X s' → view_step (sent s') (view P) (view X).
Proof.
  intros HI HP (_ & -> & [(Hlt & A & ->)|(max & E & Hr & ->)]); destruct (proc_facts s p P HI HP) as (st & Est & My & Hok & _).
  - destruct (ok_messages _ _ _ _ _ _ _ _ Hok) as [Hm Hml]. destruct (ok_stream _ _ _ _ _ _ _ _ Hok) as [Hs1 Hs2].
    pose proof (pending_length P Hm Hml A) as Hpl. unfold fetched, delivered in Hs2.
    assert (is_Some (sent s !! (born P + length (got P))%nat)) as [m Hm'] by (apply lookup_lt_is_Some; lia).
    assert ((got P ++ pending P) !! length (got P) = Some (Some m)) as Hg.
    { rewrite Hs1. unfold segment. rewrite list_lookup_fmap, lookup_take_lt by (rewrite length_app; lia). by rewrite lookup_drop, Hm'. }
    rewrite lookup_app_r, Nat.sub_diag, (pending_plain P A), lookup_take_lt, lookup_drop, Nat.add_0_r in Hg by lia.
    rewrite Hg. by apply view_message.
  - pose proof (ok_pc _ _ _ _ _ _ _ _ Hok) as Hpc. unfold pc_ok in Hpc. rewrite E in Hpc.
    destruct Hpc as (R & E1 & E2 & Hmax & _ & Hf & _). destruct (inv_num s HI) as (_ & _ & _ & _ & Hl).
    apply view_reset. unfold fetched, delivered in Hf. lia.
Qed.

(** ** What a process sends *)

(** The messages a process has yet to put into the queue. *)
Definition owed (c : PC M) : list M :=
  match c with
  | InsLoop data => data
  | InsCheck chunk rest | InsClean chunk rest | InsCleaning chunk rest | InsSignal _ chunk rest | InsRelock chunk rest => chunk ++ rest
  | InsPut put todo rest _ => put ++ todo ++ rest
  | InsPublish put rest _ => put ++ rest
  | InsKick _ _ rest => rest
  | _ => []
  end.

(** Process [p] put [put] into the queue. *)
Definition owes s s' (p : nat) (put : list M) : Prop :=
  sent s' = sent s ++ put ∧
  ∀ q Q Q', procs s !! q = Some Q → procs s' !! q = Some Q' →
    owed (pc Q) = (if decide (q = p) then put else []) ++ owed (pc Q').

Lemma owes_put s s1 p P X put :
  procs s1 = procs s → procs s !! p = Some P → sent s1 = sent s ++ put → owed (pc P) = put ++ owed (pc X) →
  owes s (put_proc p X s1) p put.
Proof.
  intros E HP Hs Ho. split; [done|]. intros q Q Q' HQ. cbn. rewrite E, lookup_insert_Some.
  intros [[<- <-]|[Hne HQ']]; [rewrite decide_True by done|rewrite decide_False by done]; by simplify_eq.
Qed.

Lemma owes_signal s s1 p put q : owes s s1 p put → owes s (SendProcSignal q s1) p put.
Proof.
  intros [Hs H]. unfold SendProcSignal. destruct (procs s1 !! q) as [Q1|] eqn:E1; [|done]. split; [done|].
  intros r R R' HR. cbn. rewrite lookup_insert_Some. intros [[<- <-]|[_ HR']]; [by apply (H q R Q1)|by apply (H r R R')].
Qed.

Lemma returns_owe s p P :
  Inv s → procs s !! p = Some P →
  (∀ ret n cs, calls P = (ret, n) :: cs → owed ret = []) ∧ (∀ ret hs, handlers P = ret :: hs → owed ret = []).
Proof.
  intros HI HP. destruct (proc_facts s p P HI HP) as (st & _ & _ & Hok & _). split.
  - intros ret n cs E. destruct (ok_calls _ _ _ _ _ _ _ _ Hok) as [Hc _]. rewrite E in Hc.
    apply Forall_cons_1 in Hc as [[Hc _] _]. by destruct ret.
  - intros ret hs E. destruct (ok_handlers _ _ _ _ _ _ _ _ Hok) as [Hc _]. rewrite E in Hc.
    apply Forall_cons_1 in Hc as [Hc _]. by destruct ret.
Qed.

Lemma proc_step_owes s p P s' :
  Inv s → procs s !! p = Some P → proc_step p P s = Some s' → ∃ put, owes s s' p put.
Proof.
  intros HI HP. destruct (returns_owe s p P HI HP) as [Hret Hret'].
  unfold proc_step, SIInsertDataEntries_step, SIGetDataEntries_step, ReceiveSharedInvalidMessages_step, catchup_step,
    call_receive, goto.
  destruct (pc P) eqn:E; try done.
  all: repeat case_match; intros [= <-]; try done; try (exists []; try apply owes_signal; eapply owes_put; cbn;
    rewrite ?app_nil_r, ?E; try done; symmetry; by eauto).
  - exists []. eapply owes_put; cbn; rewrite ?app_nil_r, ?E; try done. cbn. by rewrite take_drop.
  - exists []. eapply owes_put; cbn; rewrite ?app_nil_r, ?E; try done. cbn. by rewrite <- app_assoc.
  - exists put. eapply owes_put; cbn; rewrite ?E; done.
Qed.

(** What a call adds. *)
Definition asked (l : Label M) (p : nat) : list M :=
  match l with Send q msgs => if decide (p = q) then msgs else [] | _ => [] end.
Definition steps (l : Label M) (p : nat) : bool :=
  match l with Step q => bool_decide (p = q) | _ => false end.

Lemma exec_sent l s s' :
  Inv s → exec l s = Some s' → ∃ put, sent s' = sent s ++ put ∧ ((∀ p, l ≠ Step p) → put = []) ∧
    ∀ q Q Q', procs s !! q = Some Q → procs s' !! q = Some Q' →
      owed (pc Q) ++ asked l q = (if steps l q then put else []) ++ owed (pc Q').
Proof.
  intros HI. destruct l as [p o|p|p msgs|p|p|p|p|p|p|p]; cbn [exec asked steps].
  1: { destruct (_ || _); [done|]. destruct (procs s !! p) eqn:HP; [done|].
    destruct (SharedInvalBackendInit p o (seg s)) as [[[i lx] g]|]; [|done]. intros [= <-]. exists [].
    rewrite app_nil_r. split_and!; [done|done|]. intros q Q Q' HQ. cbn. rewrite app_nil_r, lookup_insert_Some.
    intros [[<- <-]|[_ HQ']]; congruence. }
  all: destruct (procs s !! p) as [P|] eqn:HP; [|done]; cbn [mbind option_bind].
  6: { intros E. apply (proc_step_owes s p P s' HI HP) in E as [put [Hs Ho]]. exists put. split_and!; [done| |].
    - intros Hne. by destruct (Hne p).
    - intros q Q Q' HQ HQ'. rewrite app_nil_r, (Ho q Q Q' HQ HQ'). by destruct (decide (q = p)), (bool_decide_reflect (q = p)). }
  all: unfold call_receive, goto, HandleCatchupInterrupt, goto.
  all: repeat case_match; intros [= <-]; try done; exists []; rewrite app_nil_r; (split_and!; [done|done|]).
  all: intros q Q Q' HQ; cbn; rewrite ?lookup_delete_Some, ?lookup_insert_Some.
  - intros [_ HQ']. rewrite app_nil_r. congruence.
  - intros [[-> <-]|[Hne HQ']]; simplify_eq; [rewrite decide_True by done|rewrite decide_False by done; by rewrite app_nil_r].
    by destruct (pc P).
  - intros [[-> <-]|[Hne HQ']]; simplify_eq; rewrite app_nil_r; [by destruct (pc P)|done].
  - intros [[-> <-]|[Hne HQ']]; simplify_eq; rewrite app_nil_r; [by destruct (pc P)|done].
  - intros [[-> <-]|[Hne HQ']]; simplify_eq; by rewrite app_nil_r.
  - intros [[-> <-]|[Hne HQ']]; simplify_eq; rewrite app_nil_r; [by destruct (pc P)|done].
  - intros [[-> <-]|[Hne HQ']]; simplify_eq; rewrite app_nil_r; [|done].
    destruct (proc_facts s q P HI HP) as (st & Est & My & Hok & He).
    destruct (proj2 (ok_handlers _ _ _ _ _ _ _ _ Hok)) as [Hi _]; [done|]. by destruct (pc P).
  - intros [[-> <-]|[Hne HQ']]; simplify_eq; by rewrite app_nil_r.
  - intros [[-> <-]|[Hne HQ']]; simplify_eq; by rewrite app_nil_r.
Qed.

(** Only [Init] makes a process. *)
Definition no_new s s' : Prop := ∀ q, procs s !! q = None → procs s' !! q = None.

Lemma no_new_put s s1 p P X : procs s1 = procs s → procs s !! p = Some P → no_new s (put_proc p X s1).
Proof. intros E HP q HQ. cbn. rewrite E. rewrite lookup_insert_ne; [done|congruence]. Qed.

Lemma no_new_signal s s1 q : no_new s s1 → no_new s (SendProcSignal q s1).
Proof.
  intros H r HR. unfold SendProcSignal. destruct (procs s1 !! q) eqn:E; [|by apply H].
  cbn. rewrite lookup_insert_ne; [by apply H|]. intros ->. specialize (H r HR). congruence.
Qed.

Lemma proc_step_no_new s p P s' : procs s !! p = Some P → proc_step p P s = Some s' → no_new s s'.
Proof.
  intros HP.
  unfold proc_step, SIInsertDataEntries_step, SIGetDataEntries_step, ReceiveSharedInvalidMessages_step, catchup_step, call_receive, goto.
  destruct (pc P) eqn:E; try done.
  all: repeat case_match; intros [= <-]; try done; try apply no_new_signal; by eapply no_new_put.
Qed.

Lemma exec_new l s s' p P' :
  exec l s = Some s' → procs s !! p = None → procs s' !! p = Some P' → view P' = (length (sent s), []).
Proof.
  destruct l as [q o|q|q msgs|q|q|q|q|q|q|q]; cbn [exec].
  1: { destruct (_ || _); [done|]. destruct (procs s !! q) eqn:HP; [done|].
    destruct (SharedInvalBackendInit q o (seg s)) as [[[i lx] g]|]; [|done]. intros [= <-] HN. cbn.
    rewrite lookup_insert_Some. intros [[<- <-]|[_ HQ']]; [done|congruence]. }
  all: destruct (procs s !! q) as [P|] eqn:HP; [|done]; cbn [mbind option_bind]; intros E HN HS.
  all: enough (no_new s s') as Hn by (specialize (Hn p HN); congruence).
  6: by eapply proc_step_no_new.
  all: unfold call_receive, goto, HandleCatchupInterrupt, goto in E.
  all: repeat case_match; try done; injection E as <-; try (by eapply no_new_put).
  - intros r HR. cbn. rewrite lookup_delete_None. by right.
Qed.

Lemma segment_prefix (sq : list M) a l1 l2 :
  l1 ++ l2 = segment sq a (length (l1 ++ l2)) → l1 = segment sq a (length l1).
Proof.
  intros E. apply (f_equal (take (length l1))) in E. rewrite take_app_length in E. rewrite E at 1.
  unfold segment. rewrite <- fmap_take, take_take. f_equal. f_equal. rewrite length_app. lia.
Qed.

(** C3: every backend reads one and the same sequence of messages.  Whatever the schedule, the
    sequence of all messages only grows, and what a step lets a backend see of it is nothing,
    the next message, or the order to drop everything it knows, after which it goes on at a
    later place of the sequence; a backend that starts begins at its end.  So no backend misses a
    message without being told to reset, sees one twice, sees them out of order, or sees
    a slot of the buffer that was not filled or was already overwritten. *)
Theorem sinval_refines_log n ls l s s' :
  run ls (start n) = Some s → exec l s = Some s' →
  (∃ more, sent s' = sent s ++ more) ∧
  (∀ p P P', procs s !! p = Some P → procs s' !! p = Some P' → view_step (sent s') (view P) (view P')) ∧
  (∀ p P', procs s !! p = None → procs s' !! p = Some P' → view P' = (length (sent s), [])) ∧
  ∀ p P, procs s !! p = Some P → got P = segment (sent s) (born P) (length (got P)) ∧ (delivered P ≤ length (sent s))%nat.
Proof.
  intros Hrun E. assert (Inv s) as HI by (by eapply run_inv). split_and!.
  - destruct (exec_sent l s s' HI E) as (put & Hs & _). by exists put.
  - intros p P P' HP HP'. destruct (exec_views l s s' E) as [Hs|(q & Q & X & HQ & Ht)].
    + rewrite (Hs p P P' HP HP'). apply view_same.
    + pose proof Ht as (Hpr & _ & _). rewrite Hpr, lookup_insert_Some in HP'. destruct HP' as [[<- <-]|[_ HP']].
      * simplify_eq. by eapply told_step.
      * simplify_eq. apply view_same.
  - intros p P'. by apply (exec_new l).
  - intros p P HP. destruct (proc_facts s p P HI HP) as (st & _ & _ & Hok & _). destruct (ok_stream _ _ _ _ _ _ _ _ Hok) as [Hs1 Hs2].
    unfold fetched in Hs2. split; [|lia]. by eapply segment_prefix.
Qed.

(** senders lose nothing.  Every step adds to the sequence of messages exactly the first of
    those the process it belongs to has yet to send, in their order, and what is left shrinks by
    them; a call of [SendSharedInvalidMessages] adds its messages to what is to be sent, and
    nothing else changes that, so when the call has returned all of them are in the sequence. *)
Theorem sinval_send_appends n ls l s s' :
  run ls (start n) = Some s → exec l s = Some s' →
  ∃ put, sent s' = sent s ++ put ∧ ((∀ p, l ≠ Step p) → put = []) ∧
    ∀ q Q Q', procs s !! q = Some Q → procs s' !! q = Some Q' →
      owed (pc Q) ++ asked l q = (if steps l q then put else []) ++ owed (pc Q').
Proof. intros Hrun. apply exec_sent. by eapply run_inv. Qed.

(** C12: "We guarantee to process all messages that had been queued before the routine was entered".
    When a call of [ReceiveSharedInvalidMessages] is about to return, also a recursive one out of a
    callback and also after earlier calls were left by an error, every message whose insertion was
    completed when it was entered has been given to the callback, or a reset came after it;
    whatever other processes did in between. *)
Theorem sinval_receive_complete n ls ls' s0 s1 s2 p P0 P2 :
  run ls (start n) = Some s0 → procs s0 !! p = Some P0 → exec (Receive p) s0 = Some s1 →
  run ls' s1 = Some s2 → procs s2 !! p = Some P2 → pc P2 = RcvReturn → calls P2 = (pc P0, completed s0) :: calls P0 →
  (completed s0 ≤ delivered P2)%nat ∧ pending P2 = [].
Proof.
  intros H0 HP0 H1 H2 HP2 E Ec.
  assert (Inv s2) as HI by (eapply run_sound; [eapply exec_inv; [by eapply run_inv|by eapply run_excl|done]|
    eapply exec_excl; [by eapply run_inv|by eapply run_excl|done]|done]).
  destruct (proc_facts s2 p P2 HI HP2) as (st & _ & _ & Hok & _).
  pose proof (ok_pc _ _ _ _ _ _ _ _ Hok) as Hpc. unfold pc_ok in Hpc. rewrite E in Hpc. destruct Hpc as [_ (Hs & En & _)].
  assert (pending P2 = []) as Ep by (rewrite pending_plain by (by rewrite E); by rewrite En, Nat.sub_diag).
  split; [|done]. unfold seen, fetched in Hs. rewrite Ec, Ep in Hs. cbn in Hs. lia.
Qed.


Lemma threshold_gt k : 0 <= k → k < threshold k.
Proof.
  unfold threshold, CLEANUP_MIN, CLEANUP_QUANTUM, MAXNUMMESSAGES. intros. change (4096 / 2) with 2048. change (4096 / 16) with 256.
  destruct (Z.ltb_spec k 2048); [lia|]. pose proof (Z.div_mod k 256). pose proof (Z.mod_pos_bound k 256). lia.
Qed.

Lemma cleanup_room s k g' q w :
  Inv s → (k ≤ WRITE_QUANTUM)%nat → cleanup (Z.of_nat k) (seg s) = (g', q, w) →
  maxMsgNum g' - minMsgNum g' + Z.of_nat k <= MAXNUMMESSAGES ∧ maxMsgNum g' - minMsgNum g' < nextThreshold g' ∧
  ∀ i st st', procState (seg s) !! i = Some st → procState g' !! i = Some st' → resetState st = false →
    resetState st' = true → nextMsgNum st < maxMsgNum (seg s) - MAXNUMMESSAGES + Z.of_nat k.
Proof.
  intros HI Hk Ec.
  destruct (cleanup_min s (Z.of_nat k) g' q w HI) as (m & -> & E1 & E2 & M1 & M2 & _); [unfold WRITE_QUANTUM, MAXNUMMESSAGES in *; lia|done|].
  apply cleanup_spec in Ec; [|rewrite (inv_ps s HI); apply HI].
  destruct Ec as (m' & _ & E3 & _ & E4 & _ & _ & _ & _ & _ & _ & _ & Eps).
  assert (m - reduction m = m' - reduction m) as Em by lia. assert (m' = m) as -> by lia.
  split_and!.
  - lia.
  - rewrite E4. pose proof (threshold_gt (maxMsgNum (seg s) - m)). lia.
  - intros i st st' Hi Hi' Hr Hr'. destruct (Eps i st Hi) as (st2 & E5 & (_ & _ & _ & _ & C5 & _)).
    assert (st2 = st') as -> by congruence. rewrite Hr, Hr' in C5. cbn in C5. symmetry in C5.
    apply andb_true_iff in C5 as [_ C5]. by apply Z.ltb_lt.
Qed.

(** The retry loop of [SIInsertDataEntries] makes progress.  Once it has both locks,
    [SICleanupQueue] makes room for the messages and sets the threshold above what is left, so that
    without a signal to send the next check succeeds; it tells only those backends to reset that
    are in the way. *)
Theorem sinval_cleanup_makes_room n ls s p P chunk rest :
  run ls (start n) = Some s → procs s !! p = Some P → pc P = InsCleaning chunk rest →
  ∃ s', exec (Step p) s = Some s' ∧
    (let numMsgs := maxMsgNum (seg s') - minMsgNum (seg s') in
     numMsgs + Z.of_nat (length chunk) <= MAXNUMMESSAGES ∧ numMsgs < nextThreshold (seg s')) ∧
    (∀ i st st', procState (seg s) !! i = Some st → procState (seg s') !! i = Some st' →
       resetState st = false → resetState st' = true →
       nextMsgNum st < maxMsgNum (seg s) - MAXNUMMESSAGES + Z.of_nat (length chunk)) ∧
    ∃ P', procs s' !! p = Some P' ∧
      ((∃ q, pc P' = InsSignal q chunk rest) ∨
       pc P' = InsCheck chunk rest ∧
       exec (Step p) s' = Some (goto p P' (InsPut [] chunk rest (maxMsgNum (seg s'))) s')).
Proof.
  intros Hrun HP E. assert (Inv s) as HI by (by eapply run_inv).
  destruct (proc_facts s p P HI HP) as (st0 & _ & _ & Hok & _).
  pose proof (ok_pc _ _ _ _ _ _ _ _ Hok) as Hpc. unfold pc_ok in Hpc. rewrite E in Hpc.
  cbn [exec]. rewrite HP. cbn [mbind option_bind]. unfold proc_step, SIInsertDataEntries_step. rewrite E.
  destruct (cleanup (Z.of_nat (length chunk)) (seg s)) as [[g' q] w] eqn:Ec.
  destruct (cleanup_room s (length chunk) g' q w HI Hpc Ec) as (R1 & R2 & R3).
  destruct q as [q|]; (eexists; split; [done|]; split; [done|]; split; [exact R3|]);
    (eexists; split; [cbn; apply lookup_insert_eq|]); [left; by eexists|right].
  split; [done|]. cbn. rewrite lookup_insert_eq. cbn.
  destruct (Z.ltb_spec MAXNUMMESSAGES (maxMsgNum g' - minMsgNum g' + Z.of_nat (length chunk))); [lia|].
  destruct (Z.leb_spec (nextThreshold g') (maxMsgNum g' - minMsgNum g')); [lia|done].
Qed.

(** ** Calls, handlers and interrupts of a process *)

Definition in_receive (c : PC M) : bool :=
  match c with
  | GetCheck | GetLock | GetClear | GetMax | GetTest _ | GetRead _ _ | RcvDrain1 | InInval1 | RcvGet | RcvDrain2
  | InInval2 | InReset | RcvEnd | RcvClean | RcvCleanRead | RcvCleaning | RcvSignal _ | RcvReturn => true
  | _ => false
  end.
Definition in_handler (c : PC M) : bool :=
  match c with HdLoop | HdTest | HdOff | HdProc => true | _ => false end.
Definition nonempty {A} (l : list A) : bool := match l with [] => false | _ => true end.

(** A process in [ReceiveSharedInvalidMessages] has somewhere to return to: the callbacks it was called
    from and at last the main loop or one of the loops for interrupts; and a handler as well. *)
Fixpoint calls_wf (c : PC M) (cs : list (PC M * nat)) (hs : list (PC M)) : bool :=
  if in_receive c then
    match cs with [] => false | (ret, _) :: cs => caller ret && calls_wf ret cs hs end
  else negb (nonempty cs) && (negb (in_handler c) || nonempty hs).
Fixpoint handlers_wf (hs : list (PC M)) : bool :=
  match hs with
  | [] => true
  | c :: hs => interruptible c && (negb (in_handler c) || nonempty hs) && handlers_wf hs
  end.

Definition stack_ok P : bool :=
  calls_wf (pc P) (calls P) (handlers P) && handlers_wf (handlers P) &&
  (negb (catchupInterruptEnabled P) || interruptible (pc P)) &&
  (negb (is_idle (pc P) && catchupInterruptEnabled P) || negb (catchupInterruptOccurred P)).

Definition stacks_ok s : Prop := ∀ p P, procs s !! p = Some P → stack_ok P = true.

Lemma stacks_put s s1 p X : stacks_ok s → procs s1 = procs s → stack_ok X = true → stacks_ok (put_proc p X s1).
Proof. intros Hs E HX q Q. cbn. rewrite E, lookup_insert_Some. intros [[_ <-]|[_ HQ]]; [done|by eapply Hs]. Qed.

Lemma stack_signal Q :
  stack_ok Q = true → stack_ok (set_interrupt (handlers Q) (catchupInterruptEnabled Q) (catchupInterruptOccurred Q) true Q) = true.
Proof. done. Qed.

Lemma stacks_signal s q : stacks_ok s → stacks_ok (SendProcSignal q s).
Proof.
  intros Hs. unfold SendProcSignal. destruct (procs s !! q) as [Q|] eqn:E; [|done].
  eapply stacks_put; [done|done|]. apply stack_signal. by eapply Hs.
Qed.

Lemma proc_step_stacks s p P s' :
  stacks_ok s → procs s !! p = Some P → proc_step p P s = Some s' → stacks_ok s'.
Proof.
  intros Hs HP. pose proof (Hs p P HP) as HPok. unfold stack_ok in HPok.
  unfold proc_step, SIInsertDataEntries_step, SIGetDataEntries_step, ReceiveSharedInvalidMessages_step, catchup_step, call_receive, goto.
  destruct (pc P) eqn:E; try done.
  all: repeat case_match; intros [= <-]; try done; try apply stacks_signal; (eapply stacks_put; [done|done|]);
    unfold stack_ok; cbn [pc set_pc calls set_calls handlers set_interrupt set_messages set_stream deliver
      catchupInterruptEnabled catchupInterruptOccurred].
  all: destruct (calls P) as [|[ret0 k0] cs0] eqn:Ec; cbn in HPok |- *; try done.
  all: repeat match goal with
    | H : (_ && _)%bool = true |- _ => apply andb_true_iff in H as [? ?]
    | H : calls_wf _ _ _ = true |- _ => rewrite H
    | H : handlers_wf _ = true |- _ => rewrite H; clear H
    | H : negb (catchupInterruptEnabled _) || false = true |- _ =>
        rewrite orb_false_r, negb_true_iff in H; rewrite H
    | H : handlers _ = _ :: _ |- _ => rewrite H in *; clear H; cbn in *
    end.
  all: rewrite ?andb_false_r; try done.
  - by rewrite H, !orb_true_r.
  - by rewrite !andb_true_r.
  - rewrite !orb_true_r. by destruct p0; cbn in *; rewrite ?orb_true_r, ?andb_true_r in *.
  - by rewrite !andb_true_r.
Qed.

Lemma exec_stacks l s s' : stacks_ok s → exec l s = Some s' → stacks_ok s'.
Proof.
  intros Hs. destruct l as [p o|p|p msgs|p|p|p|p|p|p|p]; cbn [exec].
  1: { repeat case_match; try done. intros [= <-]. by eapply stacks_put. }
  all: destruct (procs s !! p) as [P|] eqn:HP; [|done]; cbn [mbind option_bind].
  6: by apply proc_step_stacks.
  all: pose proof (Hs p P HP) as HPok; unfold stack_ok in HPok.
  1: { case_match; [|done]. intros [= <-] q Q. cbn. rewrite lookup_delete_Some. intros [_ HQ]. by eapply Hs. }
  all: unfold call_receive, goto, HandleCatchupInterrupt, goto.
  all: repeat case_match; intros [= <-]; try done; try (eapply stacks_put; [done|done|]);
    unfold stack_ok; cbn [pc set_pc calls set_calls handlers set_interrupt set_lxid
      catchupInterruptEnabled catchupInterruptOccurred]; try done.
  all: destruct (pc P); cbn in *; try done; destruct (catchupInterruptEnabled P), (handlers_wf (handlers P)); cbn in *;
    rewrite ?andb_false_r, ?andb_true_r in *; try done.
  all: destruct (calls P) as [|[ret0 k0] cs0]; cbn in *; try done.
Qed.

Lemma run_stacks ls n s : run ls (start n) = Some s → stacks_ok s.
Proof.
  assert (stacks_ok (start n)) as H by (by intros p P). revert H. generalize (start (M := M) n).
  induction ls as [|l ls IH]; intros s0 H; cbn [run]; [by intros [= <-]|].
  destruct (exec l s0) as [s1|] eqn:E; [|done]. apply IH. by eapply exec_stacks.
Qed.

Lemma free_excl s : rlock_free s = true → xlock_free s = true.
Proof. by intros [_ ?]%andb_true_iff. Qed.

(** A process that is not idle and need not wait for a lock can take a step. *)
Lemma can_step s p P :
  stack_ok P = true → pc P ≠ Idle →
  reading (pc P) || cleaning (pc P) = true ∨ rlock_free s = true ∧ (writing (pc P) = true ∨ wlock_free s = true) →
  ∃ s', proc_step p P s = Some s'.
Proof.
  unfold stack_ok, proc_step, SIInsertDataEntries_step, SIGetDataEntries_step, ReceiveSharedInvalidMessages_step, catchup_step.
  intros Hs Hi Hl. destruct (pc P) eqn:E; try done.
  all: try (destruct Hl as [Hl|[Hr [Hl|Hw]]]; [done| |]; rewrite ?(free_excl s Hr), ?Hr, ?Hw in * ).
  all: repeat case_match; try done; try (eexists; reflexivity).
  cbn in Hs. by destruct (calls P).
Qed.

(** C19: the processes never block each other for good.  Whatever happened before, as long as a
    process is in one of the routines some process can take a step: one that has the read lock,
    shared or exclusively, always can; when nobody has it, the holder of the write lock can, even
    if it is about to take the read lock; and without a holder everyone can.  It depends on the
    order in which [SICleanupQueue] takes the two locks. *)
Theorem sinval_no_deadlock n ls s p P :
  run ls (start n) = Some s → procs s !! p = Some P → pc P ≠ Idle → ∃ q s', exec (Step q) s = Some s'.
Proof.
  intros Hrun HP Hi. assert (Inv s) as HI by (by eapply run_inv). pose proof (run_excl ls n s Hrun) as [Hx _].
  pose proof (run_stacks ls n s Hrun) as Hs.
  assert (∃ q Q, procs s !! q = Some Q ∧ pc Q ≠ Idle ∧
    (reading (pc Q) || cleaning (pc Q) = true ∨ rlock_free s = true ∧ (writing (pc Q) = true ∨ wlock_free s = true)))
    as (q & Q & HQ & HQi & Hl).
  { unfold rlock_free, xlock_free, wlock_free. destruct (xlock s) as [x|] eqn:Ex.
    { destruct (proj1 (Hx x) eq_refl) as (X & HX & EX). exists x, X. split_and!; [done|by intros E; rewrite E in EX|left; rewrite EX; apply orb_true_r]. }
    destruct (decide (rlock s = ∅)) as [Er|Er].
    - rewrite bool_decide_eq_true_2 by done. destruct (wlock s) as [w|] eqn:Ew; [|exists p, P; split_and!; auto].
      apply (inv_wlock s HI) in Ew as (W & HW & EW). exists w, W. split_and!; [done| |auto]. by intros E; rewrite E in EW.
    - apply set_choose_L in Er as [q Hq]. apply (inv_rlock s HI) in Hq as (Q & HQ & EQ). exists q, Q.
      split_and!; [done|by intros E; rewrite E in EQ|left; by rewrite EQ]. }
  destruct (can_step s q Q (Hs q Q HQ) HQi Hl) as [s' Hs']. exists q, s'. cbn. by rewrite HQ.
Qed.

(** C21: the control state is well formed.  The write lock is held by the one process that is at a
    place where the code holds it, the read lock by the readers, or exclusively by the one that cleans up; every call and every signal handler
    has a place to return to; [BackendIdIsActive] knows the process; the interrupt is only enabled where a handler may run, for a process
    that receives messages; and a process that waits for its client with the interrupt enabled
    has no interrupt that was left unserved, wherever the signals arrived. *)
Theorem sinval_control_well_formed n ls s p P :
  run ls (start n) = Some s → procs s !! p = Some P →
  (wlock s = Some p ↔ writing (pc P) = true) ∧ (p ∈ rlock s ↔ reading (pc P) = true) ∧
  (xlock s = Some p ↔ cleaning (pc P) = true) ∧ (xlock s ≠ None → rlock s = ∅) ∧
  calls_wf (pc P) (calls P) (handlers P) = true ∧ handlers_wf (handlers P) = true ∧
  BackendIdIsActive (Z.of_nat (backend P) + 1) (seg s) = true ∧
  (catchupInterruptEnabled P = true → interruptible (pc P) = true ∧ sendOnly (my_entry P s) = false) ∧
  (pc P = Idle → catchupInterruptEnabled P = true → catchupInterruptOccurred P = false).
Proof.
  intros Hrun HP. assert (Inv s) as HI by (by eapply run_inv).
  pose proof (run_stacks ls n s Hrun p P HP) as Hs. unfold stack_ok in Hs.
  apply andb_true_iff in Hs as [[[H1 H2]%andb_true_iff H3]%andb_true_iff H4].
  destruct (proc_facts s p P HI HP) as (st & Est & My & Hok & _). rewrite My. split_and!; try done.
  - rewrite (inv_wlock s HI p). split; [intros (? & ? & ?); congruence|eauto].
  - rewrite (inv_rlock s HI p). split; [intros (? & ? & ?); congruence|eauto].
  - rewrite (proj1 (run_excl ls n s Hrun) p). split; [intros (? & ? & ?); congruence|eauto].
  - apply (run_excl ls n s Hrun).
  - pose proof (owner_last s p P HI HP). destruct (inv_owner s HI p P HP) as (H0 & st' & E1 & E2).
    unfold BackendIdIsActive, active_at. replace (Z.to_nat (Z.of_nat (backend P) + 1 - 1)) with (backend P) by lia. rewrite E1.
    destruct (Z.ltb_spec 0 (Z.of_nat (backend P) + 1)), (Z.leb_spec (Z.of_nat (backend P) + 1) (Z.of_nat (lastBackend (seg s))));
      try lia. by destruct (Nat.eqb_spec (procPid st') 0); [congruence|].
  - apply Hok.
  - intros E Ee. rewrite E, Ee in H4. cbn in H4. by apply negb_true_iff.
Qed.

(** ** Local transaction ids *)

(** The ids issued to the processes of slot [i], in order; the id number [k]; and the counter after
    [k] ids. *)
Definition ids s (i : nat) : list Z := snd <$> filter (λ x, x.1 = i) (issued s).
Definition nth_id (k : nat) : Z := 1 + Z.of_nat k mod (2 ^ 32 - 1).
Definition counter_after (k : nat) : Z :=
  match k with O => 0 | S j => u32 (2 + Z.of_nat j mod (2 ^ 32 - 1)) end.

Lemma next_id k : GetNextLocalTransactionId (counter_after k) = (nth_id k, counter_after (S k)).
Proof.
  unfold GetNextLocalTransactionId, InvalidLocalTransactionId, nth_id. destruct k as [|j]; [reflexivity|].
  cbn [counter_after]. set (N := 2 ^ 32 - 1). set (r := Z.of_nat j mod N).
  assert (0 <= r < N) as Hr by (apply Z.mod_pos_bound; reflexivity).
  assert (Z.of_nat (S j) mod N = if decide (r = N - 1) then 0 else r + 1) as ->.
  { rewrite Nat2Z.inj_succ, <- Z.add_1_r, <- Zplus_mod_idemp_l. fold r. case_decide as E.
    - rewrite E. replace (N - 1 + 1) with N by lia. apply Z_mod_same_full.
    - apply Z.mod_small. lia. }
  unfold u32. change (2 ^ 32) with (N + 1). case_decide as E.
  - rewrite E. replace (2 + (N - 1)) with (N + 1) by lia. rewrite Z_mod_same_full. reflexivity.
  - rewrite (Z.mod_small (2 + r)) by lia. destruct (Z.eqb_spec (2 + r) 0); [lia|]. f_equal; [lia|]. f_equal. lia.
Qed.

Definition ids_ok s : Prop :=
  (∀ i k x, ids s i !! k = Some x → x = nth_id k) ∧
  (∀ i st, procState (seg s) !! i = Some st → procPid st = 0%nat → nextLXID st = counter_after (length (ids s i))) ∧
  (∀ p P, procs s !! p = Some P → nextLocalTransactionId P = counter_after (length (ids s (backend P)))).

(** What most steps do not touch. *)
Definition keeps_entries (g g' : SISeg M) : Prop :=
  ∀ i st', procState g' !! i = Some st' →
    ∃ st, procState g !! i = Some st ∧ procPid st' = procPid st ∧ nextLXID st' = nextLXID st.
Definition keeps s s' : Prop :=
  issued s' = issued s ∧ keeps_entries (seg s) (seg s') ∧
  ∀ p P', procs s' !! p = Some P' →
    ∃ P, procs s !! p = Some P ∧ backend P' = backend P ∧ nextLocalTransactionId P' = nextLocalTransactionId P.

Lemma keeps_ok s s' : ids_ok s → keeps s s' → ids_ok s'.
Proof.
  intros (H1 & H2 & H3) (E & Ke & Kp). unfold ids_ok, ids in *. rewrite E. split_and!; [done| |].
  - intros i st' Hi Hp. destruct (Ke i st' Hi) as (st & Hst & E1 & E2). rewrite E2. apply H2; congruence.
  - intros p P' HP'. destruct (Kp p P' HP') as (P & HP & E1 & E2). rewrite E1, E2. by apply (H3 p).
Qed.

Lemma keeps_entries_same g g' : procState g' = procState g → keeps_entries g g'.
Proof. intros E i st'. rewrite E. eauto. Qed.

Lemma keeps_entries_alter g f i :
  (∀ st, procPid (f st) = procPid st ∧ nextLXID (f st) = nextLXID st) → keeps_entries g (set_procState (alter f i) g).
Proof.
  intros Hf j st'. cbn. destruct (decide (j = i)) as [->|].
  - rewrite list_lookup_alter_eq. destruct (procState g !! i) as [st|]; [|done]. intros [= <-]. exists st. by destruct (Hf st).
  - rewrite list_lookup_alter_ne by done. eauto.
Qed.

Lemma keeps_entries_cleanup s minFree g' q w :
  Inv s → cleanup minFree (seg s) = (g', q, w) → keeps_entries (seg s) g'.
Proof.
  intros HI Ec i st' Hi. destruct (cleanup_entries s minFree g' q w HI Ec i st' Hi) as (st & Hst & C1 & _ & _ & C4 & _). eauto.
Qed.

Lemma keeps_put s s1 p P X :
  procs s1 = procs s → procs s !! p = Some P → issued s1 = issued s → keeps_entries (seg s) (seg s1) →
  backend X = backend P → nextLocalTransactionId X = nextLocalTransactionId P → keeps s (put_proc p X s1).
Proof.
  intros E HP Ei Ke Eb En. split; [done|]. split; [done|]. intros q Q. cbn. rewrite E, lookup_insert_Some.
  intros [[<- <-]|[_ HQ]]; eauto.
Qed.

Lemma keeps_signal s s1 q : keeps s s1 → keeps s (SendProcSignal q s1).
Proof.
  intros (H1 & H2 & H3). unfold SendProcSignal. destruct (procs s1 !! q) as [Q1|] eqn:E; [|done].
  split; [done|]. split; [done|]. intros r R. cbn. rewrite lookup_insert_Some. intros [[<- <-]|[_ HR]]; [|by apply H3].
  apply (H3 q Q1 E).
Qed.

Lemma proc_step_keeps s p P s' : Inv s → procs s !! p = Some P → proc_step p P s = Some s' → keeps s s'.
Proof.
  intros HI HP.
  unfold proc_step, SIInsertDataEntries_step, SIGetDataEntries_step, ReceiveSharedInvalidMessages_step, catchup_step, call_receive, goto.
  destruct (pc P) eqn:E; try done.
  all: repeat case_match; intros [= <-]; try done; try apply keeps_signal; eapply keeps_put; try done; cbn.
  all: try (by apply keeps_entries_same); try (by eapply keeps_entries_cleanup); by apply keeps_entries_alter.
Qed.

Lemma init_ids s p o i lx g' :
  Inv s → ids_ok s → procs s !! p = None → SharedInvalBackendInit p o (seg s) = Some (i, lx, g') → p ≠ 0%nat →
  ids_ok (put_proc p (new_proc i lx (length (sent s))) (set_seg g' s)).
Proof.
  intros HI (H1 & H2 & H3) HP E Hp. apply init_spec in E as (st & n & Hst & Hpid & -> & _ & _ & ->); try apply HI.
  split_and!; [done| |].
  - intros j st' Hj. cbn in Hj. apply list_lookup_insert_Some in Hj as [(-> & <- & _)|[_ Hj]]; [done|by apply H2].
  - intros q Q. cbn. rewrite lookup_insert_Some. intros [[<- <-]|[_ HQ]]; [by apply H2|by apply (H3 q)].
Qed.

Lemma exit_ids s p P g' :
  ids_ok s → procs s !! p = Some P → g' = CleanupInvalidationState (backend P) (nextLocalTransactionId P) (seg s) →
  ids_ok (MkSys g' (wlock s) (rlock s) (xlock s) (delete p (procs s)) (sent s) (base s) (issued s)).
Proof.
  intros (H1 & H2 & H3) HP ->. split_and!; [done| |].
  - intros j st'. cbn. destruct (decide (j = backend P)) as [->|].
    + rewrite list_lookup_alter_eq. destruct (procState (seg s) !! backend P); [|done]. intros [= <-] _. by apply (H3 p).
    + rewrite list_lookup_alter_ne by done. apply H2.
  - intros q Q. cbn. rewrite lookup_delete_Some. intros [_ HQ]. by apply (H3 q).
Qed.

Lemma issue_ids s p P x next :
  Inv s → ids_ok s → procs s !! p = Some P → GetNextLocalTransactionId (nextLocalTransactionId P) = (x, next) →
  ids_ok (MkSys (seg s) (wlock s) (rlock s) (xlock s) (<[p := set_lxid next P]> (procs s)) (sent s) (base s) (issued s ++ [(backend P, x)])).
Proof.
  intros HI (H1 & H2 & H3) HP E. rewrite (H3 p P HP), next_id in E. injection E as <- <-.
  set (s' := MkSys _ _ _ _ _ _ _ _).
  assert (∀ i, ids s' i = ids s i ++ if decide (i = backend P) then [nth_id (length (ids s (backend P)))] else []) as Hids.
  { intros i. unfold ids, s'. cbn [issued]. rewrite filter_app, fmap_app. f_equal. rewrite filter_cons. cbn.
    destruct (decide (backend P = i)), (decide (i = backend P)); try done; congruence. }
  split_and!.
  - intros i k x. rewrite Hids. destruct (decide (i = backend P)) as [->|]; [|rewrite app_nil_r; apply H1].
    rewrite lookup_app_Some, list_lookup_singleton_Some. intros [Hk|(Hk & Ek & <-)]; [by apply H1 in Hk|]. f_equal. lia.
  - intros i st Hi Hp. rewrite Hids. destruct (decide (i = backend P)) as [->|]; [|rewrite app_nil_r; by apply H2].
    destruct (inv_owner s HI p P HP) as (H0 & st2 & E2 & E3). cbn in Hi. congruence.
  - intros q Q HQ. rewrite Hids. cbn in HQ. apply lookup_insert_Some in HQ as [[<- <-]|[Hne HQ]]; cbn [backend set_lxid nextLocalTransactionId].
    + rewrite decide_True by done. rewrite length_app. cbn. by rewrite Nat.add_1_r.
    + rewrite decide_False, app_nil_r; [by apply (H3 q)|]. intros Eb. destruct Hne. by eapply (owner_inj s).
Qed.

Lemma exec_ids l s s' : Inv s → ids_ok s → exec l s = Some s' → ids_ok s'.
Proof.
  intros HI Hs. destruct l as [p o|p|p msgs|p|p|p|p|p|p|p]; cbn [exec].
  1: { destruct (Nat.eqb_spec p 0); [done|]. destruct (wlock_free s); [|done]. cbn [orb negb].
    destruct (procs s !! p) eqn:HP; [done|]. destruct (SharedInvalBackendInit p o (seg s)) as [[[i lx] g]|] eqn:E; [|done].
    intros [= <-]. by eapply init_ids. }
  all: destruct (procs s !! p) as [P|] eqn:HP; [|done]; cbn [mbind option_bind].
  6: { intros E. eapply keeps_ok; [done|]. by eapply proc_step_keeps. }
  1: { case_match; [|done]. intros [= <-]. by eapply exit_ids. }
  all: unfold call_receive, goto, HandleCatchupInterrupt, goto.
  all: repeat case_match; intros [= <-]; try done;
    try (eapply keeps_ok; [done|]; eapply keeps_put; try done; by apply keeps_entries_same).
  by apply issue_ids.
Qed.

(** A virtual transaction id is not reused.  The id number [k] that processes in one slot draw,
    one process after the other, is 1 + k mod (2 ^ 32 - 1): it is never the invalid id, and the same id
    comes again only after all others, also when the process that had it is gone. *)
Theorem lxids_consecutive n ls s i k x :
  run ls (start n) = Some s → ids s i !! k = Some x → x = 1 + Z.of_nat k mod (2 ^ 32 - 1).
Proof.
  assert (ids_ok (start n)) as H.
  { split_and!; [done| |done]. by intros j st [-> _]%lookup_replicate_1. }
  intros Hrun. enough (ids_ok s) as (H1 & _) by apply H1.
  revert Hrun H. pose proof (initial_inv n) as HI. pose proof (initial_excl n) as HX. revert HI HX. generalize (start (M := M) n).
  induction ls as [|l ls IH]; intros s0 HI HX; cbn [run]; [by intros [= <-]|].
  destruct (exec l s0) as [s1|] eqn:E; [|done]. intros Hrun H. eapply (IH s1); [by eapply exec_inv|by eapply exec_excl|done|by eapply exec_ids].
Qed.

End Props.
(** ** Witnesses: concrete schedules of small systems *)

Definition after (ls : list (Label nat)) : Sys nat := default (start 2) (run ls (start 2)).
Definition proc_of (p : nat) (s : Sys nat) : Proc nat := default (new_proc 0 0 0) (procs s !! p).

(** Process 1 has sent two messages, process 2 has taken them out of the queue. *)
Definition sent_two : list (Label nat) := [Init 1 false; Init 2 false; Send 1 [7%nat; 8%nat]] ++ replicate 10 (Step 1).
Definition taken_two : list (Label nat) := sent_two ++ Receive 2 :: replicate 10 (Step 2).

Lemma sinval_refines_log_witness :
  view (proc_of 2 (after (taken_two ++ [Step 2]))) = (0%nat, [Some 7%nat]) ∧
  view_step [7%nat; 8%nat] (view (proc_of 2 (after taken_two))) (view (proc_of 2 (after (taken_two ++ [Step 2])))).
Proof.
  split; [vm_compute; reflexivity|].
  apply (sinval_refines_log 2 taken_two (Step 2) (after taken_two) (after (taken_two ++ [Step 2]))) with (p := 2%nat);
    vm_compute; reflexivity.
Defined.

Definition stored_two : list (Label nat) := [Init 1 false; Init 2 false; Send 1 [7%nat; 8%nat]] ++ replicate 5 (Step 1).

Lemma sinval_send_appends_witness :
  pc (proc_of 1 (after stored_two)) = InsPublish [7%nat; 8%nat] [] 2 ∧
  ∃ put, sent (after (stored_two ++ [Step 1])) = sent (after stored_two) ++ put ∧ ((∀ p, @Step nat 1 ≠ Step p) → put = []) ∧
    ∀ q Q Q', procs (after stored_two) !! q = Some Q → procs (after (stored_two ++ [Step 1])) !! q = Some Q' →
      owed (pc Q) ++ asked (Step 1) q = (if steps (@Step nat 1) q then put else []) ++ owed (pc Q').
Proof.
  split; [vm_compute; reflexivity|].
  apply (sinval_send_appends 2 stored_two (Step 1)); vm_compute; reflexivity.
Defined.

Lemma sinval_receive_complete_witness :
  completed (after sent_two) = 2%nat ∧
  (2 ≤ delivered (proc_of 2 (after (taken_two ++ replicate 6 (Step 2)))))%nat.
Proof.
  split; [vm_compute; reflexivity|].
  apply (sinval_receive_complete 2 sent_two (replicate 16 (Step 2)) (after sent_two) (after (sent_two ++ [Receive 2]))
    (after (taken_two ++ replicate 6 (Step 2))) 2 (proc_of 2 (after sent_two))); vm_compute; reflexivity.
Defined.


(** Process 1 has filled half of the buffer and has taken the locks to clean it. *)
Definition half_full : list (Label nat) :=
  [Init 1 false; Init 2 false; Send 1 (seq 0 2112)] ++ replicate (Z.to_nat 2275) (Step 1).

Lemma sinval_cleanup_makes_room_witness :
  pc (proc_of 1 (after half_full)) = InsCleaning (seq 2048 64) [] ∧
  ∃ s', exec (Step 1) (after half_full) = Some s' ∧ maxMsgNum (seg s') - minMsgNum (seg s') < nextThreshold (seg s').
Proof.
  split; [vm_compute; reflexivity|].
  destruct (sinval_cleanup_makes_room 2 half_full (after half_full) 1 (proc_of 1 (after half_full)) (seq 2048 64) [])
    as (s' & E & (_ & Hlt) & _); [vm_compute; reflexivity..|].
  exists s'. split; [exact E|exact Hlt].
Defined.

(** While process 1 cleans up, process 2 waits for the read lock. *)
Definition waiting : list (Label nat) := half_full ++ [Receive 2; Step 2; Step 2; Step 2].

Lemma sinval_no_deadlock_witness :
  pc (proc_of 2 (after waiting)) = GetLock ∧ exec (Step 2) (after waiting) = None ∧
  ∃ q s', exec (Step q) (after waiting) = Some s'.
Proof.
  split; [vm_compute; reflexivity|]. split; [vm_compute; reflexivity|].
  apply (sinval_no_deadlock 2 waiting (after waiting) 2 (proc_of 2 (after waiting))); [vm_compute; reflexivity..|].
  vm_compute. discriminate.
Defined.

Lemma sinval_control_well_formed_witness :
  wlock (after stored_two) = Some 1%nat ↔ writing (pc (proc_of 1 (after stored_two))) = true.
Proof.
  apply (sinval_control_well_formed 2 stored_two (after stored_two) 1 (proc_of 1 (after stored_two))); vm_compute; reflexivity.
Defined.

Definition three_ids : list (Label nat) :=
  [Init 1 false; NewLXID 1; NewLXID 1; Exit 1; Init 3 false; NewLXID 3].

Lemma lxids_consecutive_witness : ids (after three_ids) 0 = [1; 2; 3] ∧ 3 = 1 + Z.of_nat 2 mod (2 ^ 32 - 1).
Proof.
  split; [vm_compute; reflexivity|].
  apply (lxids_consecutive 2 three_ids (after three_ids) 0 2 3); vm_compute; reflexivity.
Defined.

End SinvalProps.
