(* ===== verification/BitComp.v ===== *)
(** Compressed bitmaps: backend/utils/misc/bitstream.c and bitmap_compression.c.

    A bit stream over a buffer of bytes, and the encoding of an array of 32-bit words as
    a stream of two-bit flags with run lengths, which the visibility map of append-only
    tables uses for the bitmaps it stores. *)
From stdpp Require Import base list option numbers strings.
From S2P Require Import Prelude.

Module BitComp.

(** ** The bit stream *)

Record Bitstream := MkStream {
  bitOffset : nat; byteOffset : nat; data : list Z; dataSize : nat; error : bool }.

Definition Bitstream_Init (data : list Z) (dataSize : nat) : Bitstream := MkStream 0 0 data dataSize false.

(** Of a function that returns a bool and changes the stream, both. *)
Definition Bitstream_CheckForError (bs : Bitstream) : bool * Bitstream :=
  if error bs then (false, bs)
  else if (dataSize bs <=? byteOffset bs)%nat
       then (false, MkStream (bitOffset bs) 0 (data bs) (dataSize bs) true)
       else (true, bs).

Definition advance (bs : Bitstream) : Bitstream :=
  if (S (bitOffset bs) =? 8)%nat
  then MkStream 0 (S (byteOffset bs)) (data bs) (dataSize bs) (error bs)
  else MkStream (S (bitOffset bs)) (byteOffset bs) (data bs) (dataSize bs) (error bs).

(** [1 << (7 - bitstream->bitOffset)] *)
Definition bit_mask (bs : Bitstream) : Z := Z.shiftl 1 (7 - Z.of_nat (bitOffset bs)).

(** [None]: false is returned. *)
Definition Bitstream_GetBit (bs : Bitstream) : option Z * Bitstream :=
  let '(ok, bs) := Bitstream_CheckForError bs in
  if ok then
    let c := (data bs).[byteOffset bs] in
    (Some (if Z.land c (bit_mask bs) =? 0 then 0 else 1), advance bs)
  else (None, bs).

Definition Bitstream_PutBit (bs : Bitstream) (v : Z) : bool * Bitstream :=
  let '(ok, bs) := Bitstream_CheckForError bs in
  if ok then
    let d := if v =? 0 then data bs
             else <[byteOffset bs := Z.lor (data bs).[byteOffset bs] (bit_mask bs)]> (data bs) in
    (true, advance (MkStream (bitOffset bs) (byteOffset bs) d (dataSize bs) (error bs)))
  else (false, bs).

Definition Bitstream_Skip (bs : Bitstream) (skipBitCount : nat) : bool * Bitstream :=
  let '(ok, bs) := Bitstream_CheckForError bs in
  if ok then
    let newBitOffset := (bitOffset bs + skipBitCount)%nat in
    (true, MkStream (newBitOffset mod 8) (byteOffset bs + newBitOffset / 8) (data bs) (dataSize bs) (error bs))
  else (false, bs).

Definition Bitstream_GetOffset (bs : Bitstream) : nat := (byteOffset bs * 8 + bitOffset bs)%nat.
Definition Bitstream_GetRemaining (bs : Bitstream) : Z := Z.of_nat (dataSize bs * 8) - Z.of_nat (Bitstream_GetOffset bs).
Definition Bitstream_HasError (bs : Bitstream) : bool := error bs.
Definition Bitstream_GetLength (bs : Bitstream) : nat :=
  if (bitOffset bs =? 0)%nat then byteOffset bs else S (byteOffset bs).

Definition Bitstream_Align (bs : Bitstream) (alignment : nat) : bool * Bitstream :=
  let forAlignment := (Bitstream_GetOffset bs mod alignment)%nat in
  if (0 <? forAlignment)%nat then Bitstream_Skip bs (alignment - forAlignment) else (true, bs).

(** The offset in the buffer that the pointer returned by [Bitstream_GetAlignedData] has. *)
Definition Bitstream_GetAlignedData (bs : Bitstream) (alignment : nat) : nat * Bitstream :=
  let bs := (Bitstream_Align bs alignment).2 in (byteOffset bs, bs).

Fixpoint get_loop (n : nat) (v : Z) (bs : Bitstream) : option Z * Bitstream :=
  match n with
  | O => (Some v, bs)
  | S n =>
      match Bitstream_GetBit bs with
      | (Some tmp, bs) => get_loop n (Z.lor (u32 (Z.shiftl v 1)) tmp) bs
      | (None, bs) => (None, bs)
      end
  end.
Definition Bitstream_Get (bs : Bitstream) (n : nat) : option Z * Bitstream := get_loop n 0 bs.

Fixpoint put_loop (n : nat) (v mask : Z) (bs : Bitstream) : bool * Bitstream :=
  match n with
  | O => (true, bs)
  | S n =>
      match Bitstream_PutBit bs (if Z.land v mask =? 0 then 0 else 1) with
      | (true, bs) => put_loop n v (Z.shiftr mask 1) bs
      | (false, bs) => (false, bs)
      end
  end.
Definition Bitstream_Put (bs : Bitstream) (v : Z) (bitCount : nat) : bool * Bitstream :=
  put_loop bitCount v (u32 (Z.shiftl 1 (Z.of_nat bitCount - 1))) bs.

(** ** Compression *)

Definition BITMAP_COMPRESSION_FLAG_ZERO : Z := 0.
Definition BITMAP_COMPRESSION_FLAG_ONE : Z := 1.
Definition BITMAP_COMPRESSION_FLAG_RLE : Z := 2.
Definition BITMAP_COMPRESSION_FLAG_RAW : Z := 3.
Definition BITMAP_COMPRESSION_TYPE_NO : Z := 0.
Definition BITMAP_COMPRESSION_TYPE_DEFAULT : Z := 1.
Definition BITMAP_COMPRESSION_HEADER_SIZE : nat := 2.

(** [if (!f(bitstream)) return false;] *)
Definition andThen (r : bool * Bitstream) (k : Bitstream → bool * Bitstream) : bool * Bitstream :=
  let '(ok, bs) := r in if ok then k bs else (false, bs).

Fixpoint put_times (n : nat) (v : Z) (bs : Bitstream) : bool * Bitstream :=
  match n with O => (true, bs) | S n => andThen (Bitstream_Put bs v 2) (put_times n v) end.

Definition Bitmap_EncodeRLE (bs : Bitstream) (rleRepeatCount : nat) (lastBlockFlag : Z) : bool * Bitstream :=
  if (lastBlockFlag =? BITMAP_COMPRESSION_FLAG_RAW) || (4 <? rleRepeatCount)%nat then
    andThen (Bitstream_Put bs BITMAP_COMPRESSION_FLAG_RLE 2) (λ bs,
    Bitstream_Put bs (Z.of_nat rleRepeatCount - 1) 8)
  else put_times rleRepeatCount lastBlockFlag bs.

Definition encode_run (bs : Bitstream) (rleRepeatCount : nat) (lastBlockFlag : Z) : bool * Bitstream :=
  if (0 <? rleRepeatCount)%nat then Bitmap_EncodeRLE bs rleRepeatCount lastBlockFlag else (true, bs).

Definition block_flag (blockData : Z) : Z :=
  if blockData =? 0 then BITMAP_COMPRESSION_FLAG_ZERO
  else if blockData =? 0xFFFFFFFF then BITMAP_COMPRESSION_FLAG_ONE
  else BITMAP_COMPRESSION_FLAG_RAW.

Definition encode_block (bs : Bitstream) (blockData : Z) : bool * Bitstream :=
  andThen (Bitstream_Put bs (block_flag blockData) 2) (λ bs,
  if block_flag blockData =? BITMAP_COMPRESSION_FLAG_RAW then Bitstream_Put bs blockData 32 else (true, bs)).

(** The loop over the blocks; [i] tells whether there was a block before. *)
Fixpoint compress_blocks (bitmap : list Z) (i : nat) (lastBlockData lastBlockFlag : Z) (rleRepeatCount : nat)
    (bs : Bitstream) : bool * Bitstream :=
  match bitmap with
  | [] => encode_run bs rleRepeatCount lastBlockFlag
  | blockData :: bitmap =>
      if (blockData =? lastBlockData) && (rleRepeatCount <=? 255)%nat && (0 <? i)%nat
      then compress_blocks bitmap (S i) lastBlockData lastBlockFlag (S rleRepeatCount) bs
      else
        andThen (encode_run bs rleRepeatCount lastBlockFlag) (λ bs,
        andThen (encode_block bs blockData) (λ bs,
        compress_blocks bitmap (S i) blockData (block_flag blockData) 0 bs))
  end.
Definition Bitmap_Compress_Default (bitmap : list Z) (bs : Bitstream) : bool * Bitstream :=
  compress_blocks bitmap 0 0 0 0 bs.

Definition Bitmap_Compress_Write_Header (compressionType : Z) (blockCount : nat) (bs : Bitstream) : bool * Bitstream :=
  andThen (Bitstream_Put bs compressionType 1) (λ bs,
  andThen (Bitstream_Skip bs 3) (λ bs,
  Bitstream_Put bs (Z.of_nat blockCount) 12)).

(** The bytes of an array of uint32, and back, on a little-endian machine. *)
Definition word_bytes (w : Z) : list Z := [Z.land w 0xff; Z.land (Z.shiftr w 8) 0xff; Z.land (Z.shiftr w 16) 0xff; Z.land (Z.shiftr w 24) 0xff].
Definition words_bytes (ws : list Z) : list Z := ws ≫= word_bytes.
Definition word_at_byte (d : list Z) (o : nat) : Z :=
  d.[o] + Z.shiftl d.[o + 1] 8 + Z.shiftl d.[o + 2] 16 + Z.shiftl d.[o + 3] 24.

Definition overwrite (d : list Z) (o : nat) (bytes : list Z) : list Z := take o d ++ bytes ++ drop (o + length bytes) d.

Definition header_failed : string := "Failed to write bitmap compression header".
Definition bad_type : string := "illegal compression type during bitmap compression".

(** The uncompressed form, which [Bitmap_Compress] also falls back to. *)
Definition Bitmap_Compress_No (bitmap : list Z) (maxOutDataSize : nat) : result (list Z * nat) :=
  match Bitmap_Compress_Write_Header BITMAP_COMPRESSION_TYPE_NO (length bitmap)
          (Bitstream_Init (replicate maxOutDataSize 0) maxOutDataSize) with
  | (false, _) => Err header_failed
  | (true, bs) =>
      match bitmap with
      | [] => Ok (data bs, 2%nat)
      | _ => let '(o, bs) := Bitstream_GetAlignedData bs 16 in
             Ok (overwrite (data bs) o (words_bytes bitmap), (length bitmap * 4 + 2)%nat)
      end
  end.

(** The contents of the output buffer, the first [maxOutDataSize] bytes of it, and the size. *)
Definition Bitmap_Compress (compressionType : Z) (bitmap : list Z) (maxOutDataSize : nat) : result (list Z * nat) :=
  if compressionType =? BITMAP_COMPRESSION_TYPE_NO then Bitmap_Compress_No bitmap maxOutDataSize
  else
    match Bitmap_Compress_Write_Header compressionType (length bitmap)
            (Bitstream_Init (replicate maxOutDataSize 0) maxOutDataSize) with
    | (false, _) => Err header_failed
    | (true, bs) =>
        if compressionType =? BITMAP_COMPRESSION_TYPE_DEFAULT then
          match Bitmap_Compress_Default bitmap bs with
          | (true, bs) => Ok (data bs, Bitstream_GetLength bs)
          | (false, _) => Bitmap_Compress_No bitmap maxOutDataSize
          end
        else Err bad_type
    end.

(** ** Decompression *)

Record BitmapDecompressState := MkDecompress { bitstream : Bitstream; compressionType : Z; blockCount : nat }.

(** The fields that are not reached keep what they had, [t0] and [n0]. *)
Definition BitmapDecompress_Init (inData : list Z) (inDataSize : nat) (t0 : Z) (n0 : nat) : bool * BitmapDecompressState :=
  match Bitstream_Get (Bitstream_Init inData inDataSize) 1 with
  | (None, bs) => (false, MkDecompress bs t0 n0)
  | (Some t, bs) =>
      match Bitstream_Skip bs 3 with
      | (false, bs) => (false, MkDecompress bs t n0)
      | (true, bs) =>
          match Bitstream_Get bs 12 with
          | (None, bs) => (false, MkDecompress bs t n0)
          | (Some n, bs) => (true, MkDecompress bs t (Z.to_nat n))
          end
      end
  end.
Definition BitmapDecompress_GetBlockCount (state : BitmapDecompressState) : nat := blockCount state.
Definition BitmapDecompress_GetCompressionType (state : BitmapDecompressState) : Z := compressionType state.
Definition BitmapDecompress_HasError (state : BitmapDecompressState) : bool := Bitstream_HasError (bitstream state).

(** The local variables of the loop; [stop] after its [break]; [asserts]: its Assert, that a run is
    never the first block, held so far. *)
Record Loop := MkLoop {
  stream : Bitstream; bitmap : list Z; pos : nat; lastBlockData : Z; rleRepeatCount : Z; failed : bool; stop : bool;
  asserts : bool }.

Definition decode_flag (l : Loop) (flag : Z) (bs : Bitstream) : Loop :=
  let i := pos l in
  let '(bm, bs, rle, failed) :=
    if flag =? BITMAP_COMPRESSION_FLAG_ZERO then (<[i := 0]> (bitmap l), bs, rleRepeatCount l, failed l)
    else if flag =? BITMAP_COMPRESSION_FLAG_ONE then (<[i := 0xFFFFFFFF]> (bitmap l), bs, rleRepeatCount l, failed l)
    else if flag =? BITMAP_COMPRESSION_FLAG_RAW then
      match Bitstream_Get bs 32 with
      | (Some w, bs) => (<[i := w]> (bitmap l), bs, rleRepeatCount l, failed l)
      | (None, bs) => (bitmap l, bs, rleRepeatCount l, true)
      end
    else
      match Bitstream_Get bs 8 with
      | (Some c, bs) => (<[i := lastBlockData l]> (bitmap l), bs, c, failed l)
      | (None, bs) => (bitmap l, bs, rleRepeatCount l, true)
      end in
  let ok := negb (flag =? BITMAP_COMPRESSION_FLAG_RLE) || negb (i =? 0)%nat in
  MkLoop bs bm (S i) bm.[i] rle failed false (asserts l && ok).

Definition decode_step (l : Loop) : Loop :=
  if stop l then l
  else if rleRepeatCount l =? 0 then
    match Bitstream_Get (stream l) 2 with
    | (None, bs) => MkLoop bs (bitmap l) (pos l) (lastBlockData l) (rleRepeatCount l) true true (asserts l)
    | (Some flag, bs) => decode_flag l flag bs
    end
  else MkLoop (stream l) (<[pos l := lastBlockData l]> (bitmap l)) (S (pos l)) (lastBlockData l) (rleRepeatCount l - 1)
         (failed l) false (asserts l).

Definition bad_count : string := "invalid block count for bitmap during decompression".
Definition bad_rle : string := "illegal RLE state after bitmap decompression".
Definition read_error : string := "bitstream read error seen during decompression".
Definition bad_type_in : string := "illegal compression type during bitmap decompression".

Definition decode_loop (state : BitmapDecompressState) (bm : list Z) : Loop :=
  Nat.iter (blockCount state) decode_step (MkLoop (bitstream state) bm 0 0 0 false false true).

(** The contents of [bitmap], before and after; [beyond] is what follows the input in memory. *)
Definition BitmapDecompress_Decompress (beyond : list Z) (state : BitmapDecompressState) (bm : list Z) : result (list Z) :=
  if (length bm <? blockCount state)%nat then Err bad_count
  else if compressionType state =? BITMAP_COMPRESSION_TYPE_NO then
    let '(o, bs) := Bitstream_GetAlignedData (bitstream state) 16 in
    Ok (((λ i, word_at_byte (data bs ++ beyond) (o + 4 * i)) <$> seq 0 (blockCount state)) ++ drop (blockCount state) bm)
  else if compressionType state =? BITMAP_COMPRESSION_TYPE_DEFAULT then
    let l := decode_loop state bm in
    if 0 <? rleRepeatCount l then Err bad_rle
    else if failed l then Err read_error
    else Ok (bitmap l)
  else Err bad_type_in.

(** Whether its Asserts hold. *)
Definition BitmapDecompress_asserts (state : BitmapDecompressState) (bm : list Z) : bool :=
  (Bitstream_GetOffset (bitstream state) =? 16)%nat &&
  (negb (compressionType state =? BITMAP_COMPRESSION_TYPE_DEFAULT) || asserts (decode_loop state bm)).

End BitComp.
