(* ===== verification/BitCompSpec.v ===== *)
(** What the bit stream and the bitmap compression compute: bits as lists, the format as a
    relation between words and bits, and the round trip. *)
From stdpp Require Import base list option numbers strings.
From S2P Require Import Prelude BitComp.

Module BitCompSpec.
Import BitComp.

(** ** Bits *)

(** The first bit is the most significant one. *)
Definition bits_of (n : nat) (v : Z) : list bool := (λ k, Z.testbit v (Z.of_nat (n - 1 - k))) <$> seq 0 n.
Definition bits (d : list Z) : list bool := d ≫= bits_of 8.
Definition num (l : list bool) : Z := fold_left (λ v (b : bool), 2 * v + Z.b2z b) l 0.

Lemma length_bits_of n v : length (bits_of n v) = n.
Proof. unfold bits_of. by rewrite length_fmap, length_seq. Qed.

Lemma length_bits d : length (bits d) = (8 * length d)%nat.
Proof. induction d as [|c d IH]; [done|]. cbn [bits mbind list_bind]. rewrite length_app. unfold bits in IH. rewrite IH, length_bits_of. cbn [length]. lia. Qed.

Lemma bits_of_lookup n v k : (k < n)%nat → bits_of n v !! k = Some (Z.testbit v (Z.of_nat (n - 1 - k))).
Proof. intros. unfold bits_of. rewrite list_lookup_fmap, lookup_seq_lt by done. done. Qed.

Lemma bits_of_S n v : bits_of (S n) v = Z.testbit v (Z.of_nat n) :: bits_of n v.
Proof.
  apply list_eq. intros [|k].
  - rewrite bits_of_lookup by lia. cbn [lookup list_lookup]. do 3 f_equal. lia.
  - rewrite lookup_cons_ne_0 by done. cbn [pred]. destruct (decide (k < n)%nat).
    + rewrite !bits_of_lookup by lia. do 3 f_equal. lia.
    + rewrite !lookup_ge_None_2; [done|rewrite length_bits_of; lia..].
Qed.

Lemma bits_concat d d' : bits (d ++ d') = bits d ++ bits d'.
Proof. apply bind_app. Qed.

Lemma bits_take d n : bits (take n d) = take (8 * n) (bits d).
Proof.
  rewrite <- (take_drop n d) at 2. rewrite bits_concat. destruct (decide (n ≤ length d)%nat).
  - rewrite take_app_length'; [done|]. rewrite length_bits, length_take. lia.
  - rewrite (take_ge d), drop_ge by lia. rewrite app_nil_r, take_ge; [done|]. rewrite length_bits. lia.
Qed.

Lemma bits_lookup d i j : (i < length d)%nat → (j < 8)%nat → bits d !! (8 * i + j)%nat = Some (Z.testbit d.[i] (7 - Z.of_nat j)).
Proof.
  intros Hi Hj. rewrite <- (take_drop_middle d i d.[i]) by (by apply lookup_word_at). rewrite bits_concat.
  assert (length (bits (take i d)) = 8 * i)%nat as Hl by (rewrite length_bits, length_take; lia).
  rewrite lookup_app_r, Hl by lia. replace (8 * i + j - 8 * i)%nat with j by lia.
  cbn [bits mbind list_bind]. rewrite lookup_app_l by (rewrite length_bits_of; lia).
  rewrite bits_of_lookup by lia. rewrite (take_drop_middle d i d.[i]) by (by apply lookup_word_at). do 2 f_equal. lia.
Qed.

Lemma num_snoc l b : num (l ++ [b]) = 2 * num l + Z.b2z b.
Proof. unfold num. by rewrite fold_left_app. Qed.

Lemma num_app_bits l n v : 0 <= v < 2 ^ Z.of_nat n → num (l ++ bits_of n v) = num l * 2 ^ Z.of_nat n + v.
Proof.
  revert l v. induction n as [|n IH]; intros l v Hv.
  { cbn in *. rewrite app_nil_r. lia. }
  rewrite bits_of_S, cons_middle, app_assoc.
  assert (bits_of n v = bits_of n (v mod 2 ^ Z.of_nat n)) as E.
  { unfold bits_of. apply list_fmap_ext. intros i k Hk. apply lookup_seq in Hk as [_ Hk].
    rewrite Z.mod_pow2_bits_low; [done|]. lia. }
  assert (0 < 2 ^ Z.of_nat n) as Hp by (apply Z.pow_pos_nonneg; lia).
  rewrite E, IH, num_snoc by (apply Z.mod_pos_bound; lia).
  rewrite Z.testbit_spec' by lia. replace (Z.of_nat (S n)) with (Z.of_nat n + 1) in * by lia.
  rewrite Z.pow_add_r in * by lia.
  rewrite (Z.mod_small (v / 2 ^ Z.of_nat n) 2); [pose proof (Z.div_mod v (2 ^ Z.of_nat n)); lia|].
  split; [apply Z.div_pos; lia|]. apply Z.div_lt_upper_bound; lia.
Qed.

Lemma num_bits_of n v : 0 <= v < 2 ^ Z.of_nat n → num (bits_of n v) = v.
Proof. intros. rewrite <- (app_nil_l (bits_of n v)), num_app_bits by done. done. Qed.

Lemma num_range l : 0 <= num l < 2 ^ Z.of_nat (length l).
Proof.
  induction l as [|b l IH] using rev_ind; [done|]. rewrite num_snoc, length_app. cbn [length].
  replace (Z.of_nat (length l + 1)) with (Z.of_nat (length l) + 1) by lia. rewrite Z.pow_add_r by lia.
  destruct b; cbn [Z.b2z]; lia.
Qed.

(** ** The stream *)

(** The stream over [d] at bit [p]. *)
Definition str (d : list Z) (p : nat) : Bitstream := MkStream (p mod 8) (p / 8) d (length d) false.

Lemma advance_str d p : advance (str d p) = str d (S p).
Proof.
  unfold advance, str. cbn [bitOffset byteOffset data dataSize error].
  pose proof (Nat.div_mod_eq p 8). pose proof (Nat.mod_upper_bound p 8). pose proof (Nat.div_mod_eq (S p) 8). pose proof (Nat.mod_upper_bound (S p) 8).
  destruct (Nat.eqb_spec (S (p mod 8)) 8); f_equal; lia.
Qed.

Lemma check_str d p :
  Bitstream_CheckForError (str d p) =
  if (p <? 8 * length d)%nat then (true, str d p) else (false, MkStream (p mod 8) 0 d (length d) true).
Proof.
  unfold Bitstream_CheckForError, str. cbn [bitOffset byteOffset data dataSize error].
  pose proof (Nat.div_mod_eq p 8). pose proof (Nat.mod_upper_bound p 8).
  destruct (Nat.leb_spec (length d) (p / 8)), (Nat.ltb_spec p (8 * length d)); try done; lia.
Qed.

Lemma bits_at d p b :
  bits d !! p = Some b → (p < 8 * length d)%nat ∧ Z.testbit d.[p / 8] (7 - Z.of_nat (p mod 8)) = b.
Proof.
  intros H. assert (p < 8 * length d)%nat as Hp by (rewrite <- length_bits; by eapply lookup_lt_Some).
  split; [done|]. pose proof (Nat.div_mod_eq p 8). pose proof (Nat.mod_upper_bound p 8).
  rewrite (Nat.div_mod_eq p 8) in H. rewrite bits_lookup in H by lia. congruence.
Qed.

Lemma land_bit c k : 0 <= k → Z.land c (Z.shiftl 1 k) =? 0 = negb (Z.testbit c k).
Proof.
  intros Hk. rewrite Z.shiftl_1_l. destruct (Z.testbit c k) eqn:E; cbn.
  - apply Z.eqb_neq. intros H. assert (Z.testbit (Z.land c (2 ^ k)) k = true) as Hb.
    { rewrite Z.land_spec, E, Z.pow2_bits_true; done. }
    by rewrite H, Z.bits_0 in Hb.
  - apply Z.eqb_eq. apply Z.bits_inj'. intros i Hi. rewrite Z.land_spec, Z.bits_0.
    rewrite Z.pow2_bits_eqb by lia. destruct (Z.eqb_spec k i) as [->|]; [by rewrite E|by rewrite andb_false_r].
Qed.

Lemma get_bit d p b : bits d !! p = Some b → Bitstream_GetBit (str d p) = (Some (Z.b2z b), str d (S p)).
Proof.
  intros [Hp Hb]%bits_at. unfold Bitstream_GetBit. rewrite check_str. destruct (Nat.ltb_spec p (8 * length d)); [|lia].
  rewrite advance_str. unfold bit_mask. cbn [bitOffset byteOffset data str]. pose proof (Nat.mod_upper_bound p 8).
  rewrite land_bit by lia. rewrite Hb. by destruct b.
Qed.

Lemma get_loop_bits l d p v :
  (∀ k b, l !! k = Some b → bits d !! (p + k)%nat = Some b) → 0 <= v → v * 2 ^ Z.of_nat (length l) + num l < 2 ^ 32 →
  get_loop (length l) v (str d p) = (Some (v * 2 ^ Z.of_nat (length l) + num l), str d (p + length l)).
Proof.
  revert p v. induction l as [|b l IH]; intros p v Hl Hv Hb; cbn [length get_loop].
  { cbn. do 2 f_equal; [lia|by rewrite Nat.add_0_r]. }
  pose proof (Hl 0%nat b eq_refl) as H0. rewrite Nat.add_0_r in H0. rewrite (get_bit d p b H0).
  assert (num (b :: l) = Z.b2z b * 2 ^ Z.of_nat (length l) + num l) as En.
  { change (b :: l) with ([b] ++ l). unfold num. rewrite fold_left_app. cbn [fold_left].
    generalize (Z.b2z b). intros x. replace (2 * 0 + x) with x by lia. clear. revert x.
    assert (∀ x y, fold_left (λ v (b : bool), 2 * v + Z.b2z b) l (x + y) = x * 2 ^ Z.of_nat (length l) + fold_left (λ v (b : bool), 2 * v + Z.b2z b) l y) as H.
    { induction l as [|a l IH]; intros x y; cbn [fold_left length]; [cbn; lia|].
      replace (2 * (x + y) + Z.b2z a) with (2 * x + (2 * y + Z.b2z a)) by lia. rewrite IH.
      replace (Z.of_nat (S (length l))) with (Z.of_nat (length l) + 1) by lia. rewrite Z.pow_add_r by lia. lia. }
    intros x. rewrite <- (H x 0). f_equal. lia. }
  pose proof (num_range l) as Hr. cbn [length] in Hb. replace (Z.of_nat (S (length l))) with (Z.of_nat (length l) + 1) in * by lia.
  rewrite Z.pow_add_r in * by lia. assert (0 < 2 ^ Z.of_nat (length l)) by (apply Z.pow_pos_nonneg; lia).
  assert (0 <= Z.b2z b <= 1) as Hbb by (by destruct b).
  assert (Z.lor (u32 (Z.shiftl v 1)) (Z.b2z b) = 2 * v + Z.b2z b) as ->.
  { rewrite Z.shiftl_mul_pow2, u32_id by (unfold is_u32; nia). change (2 ^ 1) with 2. rewrite (Z.mul_comm v).
    destruct b; cbn [Z.b2z]; [|by rewrite Z.lor_0_r, Z.add_0_r]. by destruct v as [|v|v]. }
  rewrite (IH (S p) (2 * v + Z.b2z b)).
  - do 2 f_equal; [rewrite En; lia|lia].
  - intros k x Hk. rewrite <- (Hl (S k) x Hk). f_equal. lia.
  - lia.
  - rewrite En in Hb. lia.
Qed.

(** Reading back what [bits_of] wrote. *)
Lemma get_bits d p n v w t :
  bits d = w ++ bits_of n v ++ t → length w = p → 0 <= v < 2 ^ Z.of_nat n → (n ≤ 32)%nat →
  Bitstream_Get (str d p) n = (Some v, str d (p + n)).
Proof.
  intros E <- Hv Hn. unfold Bitstream_Get. pose proof (get_loop_bits (bits_of n v) d (length w) 0) as H.
  rewrite length_bits_of, num_bits_of in H by done. rewrite H; [do 2 f_equal; lia| |lia|].
  - intros k b Hk. rewrite E, lookup_app_r, lookup_app_l by (try apply lookup_lt_Some in Hk; lia).
    rewrite <- Hk. f_equal. lia.
  - assert (2 ^ Z.of_nat n <= 2 ^ 32) by (apply Z.pow_le_mono_r; lia). lia.
Qed.

(** A stream of [N] bytes into which [w] was written. *)
Definition wr (N : nat) (w : list bool) (bs : Bitstream) : Prop :=
  ∃ d r, bs = str d (length w) ∧ bits d = w ++ replicate r false ∧ length d = N.

Lemma bits_insert d i c :
  (i < length d)%nat → bits (<[i := c]> d) = take (8 * i) (bits d) ++ bits_of 8 c ++ drop (8 * i + 8) (bits d).
Proof.
  intros Hi. rewrite insert_take_drop by done. rewrite bits_concat, bits_take. f_equal.
  cbn [bits mbind list_bind]. f_equal. rewrite <- (take_drop (S i) d) at 2. rewrite bits_concat.
  rewrite drop_app_ge; [|rewrite length_bits, length_take; lia].
  rewrite length_bits, length_take. replace (8 * i + 8 - 8 * (S i `min` length d))%nat with 0%nat by lia. done.
Qed.

Lemma bits_set d p :
  (p < 8 * length d)%nat →
  bits (<[(p / 8)%nat := Z.lor d.[p / 8] (Z.shiftl 1 (7 - Z.of_nat (p mod 8)))]> d) = <[p := true]> (bits d).
Proof.
  intros Hp. pose proof (Nat.div_mod_eq p 8) as Hd. pose proof (Nat.mod_upper_bound p 8 ltac:(lia)) as Hm.
  set (i := (p / 8)%nat) in *. set (j := (p mod 8)%nat) in *. apply list_eq. intros q.
  destruct (decide (q < 8 * length d)%nat) as [Hq|Hq].
  2:{ rewrite !lookup_ge_None_2; [done|..]; rewrite ?length_insert, length_bits, ?length_insert; lia. }
  pose proof (Nat.div_mod_eq q 8) as Hdq. pose proof (Nat.mod_upper_bound q 8 ltac:(lia)) as Hmq.
  rewrite Hdq at 1. rewrite bits_lookup by (rewrite ?length_insert; lia). rewrite word_at_insert by lia.
  assert (bits d !! q = Some (Z.testbit d.[q / 8] (7 - Z.of_nat (q mod 8)))) as Eq
    by (rewrite Hdq at 1; apply bits_lookup; lia).
  destruct (decide (p = q)) as [<-|Hne].
  - rewrite list_lookup_insert_eq by (rewrite length_bits; lia). fold i j. rewrite decide_True by done.
    rewrite Z.lor_spec, Z.shiftl_1_l, Z.pow2_bits_true, orb_true_r by lia. done.
  - rewrite list_lookup_insert_ne, Eq by done. case_decide as Ei; [|done]. f_equal.
    rewrite Z.lor_spec, Z.shiftl_1_l, Z.pow2_bits_false, orb_false_r; [by rewrite Ei|]. lia.
Qed.

Lemma put_bit N w bs v :
  wr N w bs →
  match Bitstream_PutBit bs v with
  | (true, bs') => wr N (w ++ [negb (v =? 0)]) bs'
  | (false, _) => (8 * N ≤ length w)%nat
  end.
Proof.
  intros (d & r & -> & Hb & <-). unfold Bitstream_PutBit. rewrite check_str.
  assert (8 * length d = length w + r)%nat as Hl by (rewrite <- length_bits, Hb, length_app, length_replicate; done).
  destruct (Nat.ltb_spec (length w) (8 * length d)) as [Hlt|]; [|lia].
  destruct r as [|r]; [lia|]. cbn [bitOffset byteOffset data dataSize error str].
  set (d' := if v =? 0 then d else _).
  assert (bits d' = (w ++ [negb (v =? 0)]) ++ replicate r false ∧ length d' = length d) as [Hb' Hl'].
  { unfold d'. destruct (v =? 0); cbn [negb].
    - rewrite <- app_assoc. split; [exact Hb|done].
    - split; [|by rewrite length_insert]. unfold bit_mask. cbn [bitOffset str]. rewrite bits_set by done. rewrite Hb.
      cbn [replicate]. rewrite insert_app_r_alt by lia. rewrite Nat.sub_diag. cbn. by rewrite <- app_assoc. }
  exists d', r. split; [|done]. rewrite <- Hl'. fold (str d' (length w)). rewrite advance_str, length_app. cbn. f_equal. lia.
Qed.

Lemma put_loop_bits n N w bs v :
  wr N w bs → (n ≤ 32)%nat →
  match put_loop n v (Z.shiftl 1 (Z.of_nat n - 1)) bs with
  | (true, bs') => wr N (w ++ bits_of n v) bs'
  | (false, _) => (8 * N < length w + n)%nat
  end.
Proof.
  revert w bs. induction n as [|n IH]; intros w bs H Hn; cbn [put_loop].
  { cbn. by rewrite app_nil_r. }
  replace (Z.of_nat (S n) - 1) with (Z.of_nat n) by lia. rewrite land_bit by lia.
  pose proof (put_bit N w bs (if negb (Z.testbit v (Z.of_nat n)) then 0 else 1) H) as Hp.
  assert (negb ((if negb (Z.testbit v (Z.of_nat n)) then 0 else 1) =? 0) = Z.testbit v (Z.of_nat n)) as Eb by (by destruct (Z.testbit v _)).
  rewrite Eb in Hp. destruct (Bitstream_PutBit bs _) as [[|] bs']; [|lia].
  rewrite bits_of_S, cons_middle, app_assoc. rewrite Z.shiftr_shiftl_l by lia.
  specialize (IH (w ++ [Z.testbit v (Z.of_nat n)]) bs' Hp ltac:(lia)).
  destruct (put_loop n v _ bs') as [[|] bs2]; [done|]. rewrite length_app in IH. cbn in IH. lia.
Qed.

Lemma put_bits n N w bs v :
  wr N w bs → (1 ≤ n ≤ 32)%nat →
  match Bitstream_Put bs v n with
  | (true, bs') => wr N (w ++ bits_of n v) bs'
  | (false, _) => (8 * N < length w + n)%nat
  end.
Proof.
  intros H Hn. unfold Bitstream_Put. rewrite u32_id; [apply put_loop_bits; [done|lia]|].
  rewrite Z.shiftl_1_l. split; [apply Z.pow_nonneg; lia|]. apply Z.pow_lt_mono_r; lia.
Qed.

(** ** The format *)

Definition block_bits (w : Z) : list bool :=
  bits_of 2 (block_flag w) ++ if block_flag w =? BITMAP_COMPRESSION_FLAG_RAW then bits_of 32 w else [].

(** The bits [e] encode the words [ws], the last of which is [l]. *)
Inductive Enc : list Z → Z → list bool → Prop :=
  | enc_nil : Enc [] 0 []
  | enc_block ws l e w : Enc ws l e → is_u32 w → Enc (ws ++ [w]) w (e ++ block_bits w)
  | enc_rle ws l e c : Enc ws l e → ws ≠ [] → 0 <= c < 256 →
      Enc (ws ++ replicate (S (Z.to_nat c)) l) l (e ++ bits_of 2 BITMAP_COMPRESSION_FLAG_RLE ++ bits_of 8 c).

Lemma enc_last ws l e : Enc ws l e → is_u32 l.
Proof. induction 1; [split; lia|done|done]. Qed.

(** ** The encoder writes the format *)

Section Encoder.
Variables (N : nat) (h : list bool).

(** [r] wrote the encoding of [ws], with [l] at their end, after [h], or failed for lack of space. *)
Definition wrote (r : bool * Bitstream) (ws : list Z) (l : Z) : Prop :=
  match r with (true, bs) => ∃ e, wr N (h ++ e) bs ∧ Enc ws l e | (false, _) => True end.

Lemma wrote_andThen r k ws l ws' l' :
  wrote r ws l → (∀ bs e, wr N (h ++ e) bs → Enc ws l e → wrote (k bs) ws' l') → wrote (andThen r k) ws' l'.
Proof. destruct r as [[|] bs]; cbn; [intros (e & Hw & He) H; by eapply H|done]. Qed.

Lemma put_more bs w n v (k : Bitstream → bool * Bitstream) ws l :
  wr N w bs → (1 ≤ n ≤ 32)%nat → (∀ bs', wr N (w ++ bits_of n v) bs' → wrote (k bs') ws l) →
  wrote (andThen (Bitstream_Put bs v n) k) ws l.
Proof.
  intros Hw Hn H. pose proof (put_bits n N w bs v Hw Hn) as Hp. destruct (Bitstream_Put bs v n) as [[|] bs']; [|done].
  by apply H.
Qed.

Lemma put_last bs w n v ws l :
  wr N w bs → (1 ≤ n ≤ 32)%nat → (∃ e, w ++ bits_of n v = h ++ e ∧ Enc ws l e) → wrote (Bitstream_Put bs v n) ws l.
Proof.
  intros Hw Hn (e & E & He). pose proof (put_bits n N w bs v Hw Hn) as Hp. destruct (Bitstream_Put bs v n) as [[|] bs']; [|done].
  exists e. by rewrite <- E.
Qed.

Lemma encode_block_wrote bs e ws l w :
  wr N (h ++ e) bs → Enc ws l e → is_u32 w → wrote (encode_block bs w) (ws ++ [w]) w.
Proof.
  intros Hw He Hu. pose proof (enc_block ws l e w He Hu) as He'. unfold block_bits in He'.
  unfold encode_block. eapply put_more; [done|lia|]. intros bs' Hw'. destruct (block_flag w =? _).
  - eapply put_last; [done|lia|]. eexists. split; [|exact He']. by rewrite <- !app_assoc.
  - eexists. split; [|exact He']. by rewrite app_nil_r, app_assoc.
Qed.

Lemma put_times_wrote n bs e ws l flag :
  wr N (h ++ e) bs → Enc ws l e → flag = block_flag l → flag ≠ BITMAP_COMPRESSION_FLAG_RAW →
  wrote (put_times n flag bs) (ws ++ replicate n l) l.
Proof.
  intros Hw He -> Hf. revert bs e ws Hw He. induction n as [|n IH]; intros bs e ws Hw He; cbn [put_times replicate].
  { exists e. by rewrite app_nil_r. }
  eapply put_more; [done|lia|]. intros bs' Hw'. rewrite cons_middle, app_assoc.
  pose proof (enc_block ws l e l He (enc_last _ _ _ He)) as He'. unfold block_bits in He'.
  apply Z.eqb_neq in Hf. rewrite Hf, app_nil_r in He'. eapply (IH bs'); [|exact He']. by rewrite app_assoc.
Qed.

Lemma encode_run_wrote r bs e ws l :
  wr N (h ++ e) bs → Enc ws l e → (r ≤ 256)%nat → (ws = [] → r = 0%nat) →
  wrote (encode_run bs r (block_flag l)) (ws ++ replicate r l) l.
Proof.
  intros Hw He Hr Hne. unfold encode_run. destruct (Nat.ltb_spec 0 r) as [Hlt|Hge].
  2:{ assert (r = 0%nat) as -> by lia. exists e. by rewrite app_nil_r. }
  assert (ws ≠ []) as Hws by (intros E; specialize (Hne E); lia).
  unfold Bitmap_EncodeRLE. destruct (_ || _) eqn:Ec.
  - eapply put_more; [done|lia|]. intros bs' Hw'. eapply put_last; [done|lia|]. eexists. split; [by rewrite <- !app_assoc|].
    replace r with (S (Z.to_nat (Z.of_nat r - 1))) at 1 by lia. apply enc_rle; [done|done|lia].
  - apply orb_false_iff in Ec as [Ec _]. apply Z.eqb_neq in Ec. by eapply put_times_wrote.
Qed.

Lemma compress_blocks_wrote bm i l r bs e ws :
  wr N (h ++ e) bs → Enc ws l e → (r ≤ 256)%nat → (i = 0%nat ↔ ws = []) → (ws = [] → r = 0%nat) → Forall is_u32 bm →
  ∃ l', wrote (compress_blocks bm i l (block_flag l) r bs) (ws ++ replicate r l ++ bm) l'.
Proof.
  revert i l r bs e ws. induction bm as [|w bm IH]; intros i l r bs e ws Hw He Hr Hi Hne HF; cbn [compress_blocks].
  { exists l. rewrite app_nil_r. by eapply encode_run_wrote. }
  apply Forall_cons_1 in HF as [Hu HF]. destruct (_ && _) eqn:Ec.
  - apply andb_true_iff in Ec as [[->%Z.eqb_eq Er]%andb_true_iff Ei]. apply Nat.leb_le in Er. apply Nat.ltb_lt in Ei.
    assert (ws ≠ []) by (intros E; apply Hi in E; lia).
    destruct (IH (S i) l (S r) bs e ws) as [l' Hl']; try done; try lia. exists l'.
    by rewrite replicate_S_end, <- app_assoc in Hl'.
  - pose proof (encode_run_wrote r bs e ws l Hw He Hr Hne) as Hrun.
    destruct (encode_run bs r (block_flag l)) as [[|] bs1]; [|by exists 0]. destruct Hrun as (e1 & Hw1 & He1). cbn [andThen].
    pose proof (encode_block_wrote bs1 e1 _ l w Hw1 He1 Hu) as Hblk.
    destruct (encode_block bs1 w) as [[|] bs2]; [|by exists 0]. destruct Hblk as (e2 & Hw2 & He2).
    destruct (IH (S i) w 0%nat bs2 e2 ((ws ++ replicate r l) ++ [w])) as [l' Hl']; try done; try lia.
    + split; [lia|]. by intros [_ ?]%app_nil.
    + exists l'. cbn [replicate app] in Hl'. by rewrite <- !app_assoc in Hl'.
Qed.

End Encoder.

(** ** The decoder reads the format *)

Lemma insert_next (ws bm : list Z) x :
  (length ws < length bm)%nat →
  <[length ws := x]> (ws ++ drop (length ws) bm) = (ws ++ [x]) ++ drop (length (ws ++ [x])) bm.
Proof.
  intros Hl. rewrite insert_app_r_alt, Nat.sub_diag by lia. rewrite <- app_assoc. f_equal.
  destruct (drop (length ws) bm) as [|y tl] eqn:E.
  { apply (f_equal length) in E. rewrite length_drop in E. cbn in E. lia. }
  cbn. f_equal. rewrite length_app. cbn. rewrite <- drop_drop, E. done.
Qed.

Lemma word_at_next (ws : list Z) x tl : ((ws ++ [x]) ++ tl).[length ws] = x.
Proof. apply word_at_lookup. rewrite <- app_assoc. by apply list_lookup_middle. Qed.

(** The loop after it has decoded [ws]. *)
Definition decoded (d : list Z) (p : nat) (bm ws : list Z) (l rle : Z) : Loop :=
  MkLoop (str d p) (ws ++ drop (length ws) bm) (length ws) l rle false false true.

Lemma decode_rle d p bm ws l n :
  (length ws + n ≤ length bm)%nat →
  Nat.iter n decode_step (decoded d p bm ws l (Z.of_nat n)) = decoded d p bm (ws ++ replicate n l) l 0.
Proof.
  revert ws. induction n as [|n IH]; intros ws Hl.
  { cbn. by rewrite app_nil_r. }
  rewrite Nat.iter_succ_r. cbn [replicate]. rewrite cons_middle, app_assoc, <- IH by (rewrite length_app; cbn; lia).
  f_equal. unfold decode_step, decoded. cbn [stop rleRepeatCount stream bitmap pos lastBlockData failed asserts].
  destruct (Z.eqb_spec (Z.of_nat (S n)) 0); [lia|]. rewrite insert_next by lia. f_equal; [rewrite length_app; cbn; lia|lia].
Qed.

Lemma decode_block d bm ws l w h t :
  bits d = h ++ block_bits w ++ t → is_u32 w → (length ws < length bm)%nat →
  decode_step (decoded d (length h) bm ws l 0) = decoded d (length (h ++ block_bits w)) bm (ws ++ [w]) w 0.
Proof.
  intros Hb Hu Hl. unfold decode_step, decoded. cbn [stop rleRepeatCount stream bitmap pos lastBlockData failed asserts Z.eqb].
  unfold block_bits in *. rewrite <- app_assoc in Hb.
  assert (0 <= block_flag w < 2 ^ Z.of_nat 2) as Hf by (unfold block_flag; repeat case_match; done).
  rewrite (get_bits d (length h) 2 (block_flag w) h _ Hb) by (done || lia).
  unfold decode_flag. cbn [pos bitmap rleRepeatCount failed lastBlockData].
  unfold block_flag in *. destruct (Z.eqb_spec w 0) as [->|H0]; [|destruct (Z.eqb_spec w 0xFFFFFFFF) as [->|H1]]; cbn [Z.eqb].
  - cbn [BITMAP_COMPRESSION_FLAG_RAW BITMAP_COMPRESSION_FLAG_ZERO BITMAP_COMPRESSION_FLAG_ONE Z.eqb Pos.eqb].
    rewrite insert_next by done. rewrite word_at_next, !length_app, length_bits_of. cbn [length]. f_equal; lia || (f_equal; lia).
  - cbn [BITMAP_COMPRESSION_FLAG_RAW BITMAP_COMPRESSION_FLAG_ZERO BITMAP_COMPRESSION_FLAG_ONE Z.eqb Pos.eqb].
    rewrite insert_next by done. rewrite word_at_next, !length_app, length_bits_of. cbn [length]. f_equal; lia || (f_equal; lia).
  - cbn [BITMAP_COMPRESSION_FLAG_RAW BITMAP_COMPRESSION_FLAG_ZERO BITMAP_COMPRESSION_FLAG_ONE Z.eqb Pos.eqb] in *.
    rewrite (get_bits d (length h + 2) 32 w (h ++ bits_of 2 BITMAP_COMPRESSION_FLAG_RAW) t);
      [|by rewrite <- app_assoc|by rewrite length_app, length_bits_of|exact Hu|lia].
    rewrite insert_next by done. rewrite word_at_next, !length_app, !length_bits_of. cbn. f_equal; lia || (f_equal; lia).
Qed.

Lemma decode_run d bm ws l c h t :
  bits d = h ++ (bits_of 2 BITMAP_COMPRESSION_FLAG_RLE ++ bits_of 8 c) ++ t → 0 <= c < 256 → is_u32 l → ws ≠ [] →
  (length ws + S (Z.to_nat c) ≤ length bm)%nat →
  Nat.iter (S (Z.to_nat c)) decode_step (decoded d (length h) bm ws l 0) =
  decoded d (length h + 10) bm (ws ++ replicate (S (Z.to_nat c)) l) l 0.
Proof.
  intros Hb Hc Hu Hne Hl. rewrite Nat.iter_succ_r.
  assert (decode_step (decoded d (length h) bm ws l 0) = decoded d (length h + 10) bm (ws ++ [l]) l (Z.of_nat (Z.to_nat c))) as ->.
  { unfold decode_step, decoded. cbn [stop rleRepeatCount stream bitmap pos lastBlockData failed asserts Z.eqb].
    rewrite <- app_assoc in Hb.
    rewrite (get_bits d (length h) 2 BITMAP_COMPRESSION_FLAG_RLE h _ Hb) by (done || lia).
    unfold decode_flag. cbn [pos bitmap rleRepeatCount failed lastBlockData BITMAP_COMPRESSION_FLAG_RLE
      BITMAP_COMPRESSION_FLAG_RAW BITMAP_COMPRESSION_FLAG_ZERO BITMAP_COMPRESSION_FLAG_ONE Z.eqb Pos.eqb].
    rewrite (get_bits d (length h + 2) 8 c (h ++ bits_of 2 BITMAP_COMPRESSION_FLAG_RLE) t);
      [|by rewrite <- app_assoc|by rewrite length_app, length_bits_of|done|lia].
    rewrite insert_next by lia. rewrite word_at_next, length_app. cbn. destruct ws; [done|]. cbn. f_equal; lia || (f_equal; lia). }
  rewrite decode_rle by (rewrite length_app; cbn; lia). cbn [replicate]. by rewrite <- app_assoc.
Qed.

Lemma decode_enc ws l e : Enc ws l e → ∀ d bm h t,
  bits d = h ++ e ++ t → (length ws ≤ length bm)%nat →
  Nat.iter (length ws) decode_step (MkLoop (str d (length h)) bm 0 0 0 false false true) =
  decoded d (length h + length e) bm ws l 0.
Proof.
  induction 1 as [|ws l e w He IH Hu|ws l e c He IH Hne Hc]; intros d bm h t Hb Hl.
  - cbn. unfold decoded. cbn. by rewrite Nat.add_0_r, drop_0.
  - rewrite length_app in Hl |- *. cbn [length] in *. rewrite Nat.add_comm, Nat.iter_add.
    rewrite <- app_assoc in Hb. rewrite (IH d bm h _ Hb) by lia.
    replace (length h + length e)%nat with (length (h ++ e)) by (by rewrite length_app).
    change (Nat.iter 1 decode_step ?x) with (decode_step x). rewrite (decode_block d bm ws l w (h ++ e) t);
      [|by rewrite <- app_assoc|done|lia]. f_equal. rewrite !length_app. lia.
  - rewrite length_app, length_replicate in Hl |- *. rewrite Nat.add_comm, Nat.iter_add.
    rewrite <- app_assoc in Hb. rewrite (IH d bm h _ Hb) by lia.
    replace (length h + length e)%nat with (length (h ++ e)) by (by rewrite length_app).
    rewrite (decode_run d bm ws l c (h ++ e) t);
      [|by rewrite <- app_assoc|done|by eapply enc_last|done|lia].
    f_equal. rewrite !length_app, !length_bits_of. lia.
Qed.

(** ** The header *)

Definition header (t : Z) (n : nat) : list bool := bits_of 1 t ++ replicate 3 false ++ bits_of 12 (Z.of_nat n).

Lemma length_header t n : length (header t n) = 16%nat.
Proof. unfold header. by rewrite !length_app, !length_bits_of, length_replicate. Qed.

Lemma bits_zero n : bits (replicate n 0) = replicate (8 * n) false.
Proof.
  induction n as [|n IH]; [done|]. cbn [replicate bits mbind list_bind]. unfold bits in IH. rewrite IH.
  replace (8 * S n)%nat with (8 + 8 * n)%nat by lia. by rewrite replicate_add.
Qed.

Lemma wr_init N : wr N [] (Bitstream_Init (replicate N 0) N).
Proof.
  exists (replicate N 0), (8 * N)%nat. rewrite bits_zero, length_replicate. split; [|done].
  unfold Bitstream_Init, str. by rewrite length_replicate.
Qed.

Lemma skip_str d p k : (p < 8 * length d)%nat → Bitstream_Skip (str d p) k = (true, str d (p + k)).
Proof.
  intros Hp. unfold Bitstream_Skip. rewrite check_str. destruct (Nat.ltb_spec p (8 * length d)); [|lia].
  unfold str. cbn [bitOffset byteOffset data dataSize error].
  pose proof (Nat.div_mod_eq p 8). pose proof (Nat.mod_upper_bound p 8 ltac:(lia)).
  pose proof (Nat.div_mod_eq (p mod 8 + k) 8). pose proof (Nat.mod_upper_bound (p mod 8 + k) 8 ltac:(lia)).
  pose proof (Nat.div_mod_eq (p + k) 8). pose proof (Nat.mod_upper_bound (p + k) 8 ltac:(lia)). do 2 f_equal; lia.
Qed.

Lemma skip_wr N w bs k :
  wr N w bs → (1 ≤ k)%nat → (length w + k ≤ 8 * N)%nat → ∃ bs', Bitstream_Skip bs k = (true, bs') ∧ wr N (w ++ replicate k false) bs'.
Proof.
  intros (d & r & -> & Hb & <-) Hk Hl. rewrite skip_str by lia. eexists. split; [done|].
  assert (8 * length d = length w + r)%nat as Hr by (rewrite <- length_bits, Hb, length_app, length_replicate; done).
  exists d, (r - k)%nat. split; [rewrite length_app, length_replicate; done|]. split; [|done].
  rewrite Hb, <- app_assoc, <- replicate_add. do 2 f_equal. lia.
Qed.

Lemma put_wr n N w bs v :
  wr N w bs → (1 ≤ n ≤ 32)%nat → (length w + n ≤ 8 * N)%nat →
  ∃ bs', Bitstream_Put bs v n = (true, bs') ∧ wr N (w ++ bits_of n v) bs'.
Proof.
  intros Hw Hn Hl. pose proof (put_bits n N w bs v Hw Hn) as H. destruct (Bitstream_Put bs v n) as [[|] bs']; [eauto|lia].
Qed.

Lemma write_header N t n :
  (2 ≤ N)%nat → ∃ bs, Bitmap_Compress_Write_Header t n (Bitstream_Init (replicate N 0) N) = (true, bs) ∧ wr N (header t n) bs.
Proof.
  intros HN. unfold Bitmap_Compress_Write_Header.
  destruct (put_wr 1 N [] _ t (wr_init N)) as (b1 & -> & H1); [lia|cbn; lia|]. cbn [andThen].
  destruct (skip_wr N _ b1 3 H1) as (b2 & -> & H2); [lia|rewrite length_app, length_bits_of; cbn; lia|]. cbn [andThen].
  destruct (put_wr 12 N _ b2 (Z.of_nat n) H2) as (b3 & -> & H3); [lia|rewrite !length_app, length_bits_of, length_replicate; cbn; lia|].
  eexists. split; [done|]. unfold header. by rewrite <- !app_assoc in H3.
Qed.

Lemma read_header d t n rest t0 n0 :
  bits d = header t n ++ rest → (t = 0 ∨ t = 1) → (n < 4096)%nat →
  BitmapDecompress_Init d (length d) t0 n0 = (true, MkDecompress (str d 16) t n).
Proof.
  intros Hb Ht Hn. unfold BitmapDecompress_Init. change (Bitstream_Init d (length d)) with (str d 0).
  assert (16 ≤ 8 * length d)%nat as Hl by (rewrite <- length_bits, Hb, length_app, length_header; lia).
  unfold header in Hb. rewrite <- !app_assoc in Hb.
  rewrite (get_bits d 0 1 t [] _ Hb) by (cbn; lia). rewrite skip_str by lia.
  rewrite (get_bits d (0 + 1 + 3) 12 (Z.of_nat n) (bits_of 1 t ++ replicate 3 false) rest).
  - by rewrite Nat2Z.id.
  - rewrite Hb. by rewrite <- app_assoc.
  - by rewrite length_app, length_bits_of, length_replicate.
  - change (2 ^ Z.of_nat 12) with 4096. lia.
  - lia.
Qed.

(** ** The round trip *)

(** The buffer [d] of which [n] bytes were used can be decompressed to [ws]. *)
Definition good_encoding (d : list Z) (n : nat) (ws : list Z) : Prop :=
  (2 ≤ n ≤ length d)%nat ∧ ∀ t0 n0 beyond, ∃ state,
    BitmapDecompress_Init (take n d) n t0 n0 = (true, state) ∧ BitmapDecompress_HasError state = false ∧
    BitmapDecompress_GetBlockCount state = length ws ∧
    BitmapDecompress_Decompress beyond state (replicate (length ws) 0) = Ok ws ∧
    BitmapDecompress_asserts state (replicate (length ws) 0) = true.

Lemma default_good N ws l e bs :
  wr N (header BITMAP_COMPRESSION_TYPE_DEFAULT (length ws) ++ e) bs → Enc ws l e → (length ws < 4096)%nat →
  good_encoding (data bs) (Bitstream_GetLength bs) ws ∧ length (data bs) = N.
Proof.
  intros (d & r & -> & Hb & <-) He Hn. split; [|done].
  set (p := length (header BITMAP_COMPRESSION_TYPE_DEFAULT (length ws) ++ e)) in *.
  assert (p = 16 + length e)%nat as Ep by (unfold p; rewrite length_app, length_header; done).
  assert (8 * length d = p + r)%nat as Hr by (rewrite <- length_bits, Hb, length_app, length_replicate; done).
  set (n := Bitstream_GetLength (str d p)). cbn [data str].
  assert (p ≤ 8 * n ∧ n ≤ length d ∧ 2 ≤ n)%nat as (Hp & Hn1 & Hn2).
  { unfold n, Bitstream_GetLength, str. cbn [bitOffset byteOffset]. pose proof (Nat.div_mod_eq p 8).
    pose proof (Nat.mod_upper_bound p 8 ltac:(lia)). destruct (Nat.eqb_spec (p mod 8) 0); lia. }
  assert (length (take n d) = n) as Hlt by (rewrite length_take; lia).
  assert (bits (take n d) = header BITMAP_COMPRESSION_TYPE_DEFAULT (length ws) ++ e ++ replicate (8 * n - p) false) as Hb'.
  { rewrite bits_take, Hb, take_app_ge by (fold p; lia). rewrite <- app_assoc. do 2 f_equal. fold p.
    rewrite take_replicate. f_equal. lia. }
  split; [lia|]. intros t0 n0 beyond.
  eexists. split; [rewrite <- Hlt at 2; apply (read_header _ _ _ _ t0 n0 Hb'); [by right|done]|].
  split; [done|]. split; [done|]. unfold BitmapDecompress_asserts, BitmapDecompress_Decompress, decode_loop.
  cbn [blockCount compressionType bitstream].
  rewrite length_replicate, Nat.ltb_irrefl. cbn [BITMAP_COMPRESSION_TYPE_DEFAULT BITMAP_COMPRESSION_TYPE_NO Z.eqb Pos.eqb].
  pose proof (decode_enc ws l e He (take n d) (replicate (length ws) 0) _ _ Hb') as Hdec.
  rewrite length_header in Hdec. rewrite Hdec by (by rewrite length_replicate).
  unfold decoded. cbn [rleRepeatCount failed bitmap asserts Z.ltb Z.compare].
  rewrite drop_ge, app_nil_r by (rewrite length_replicate; lia). done.
Qed.

(** The uncompressed form. *)
Lemma word_bytes_back w : is_u32 w →
  Z.land w 0xff + Z.shiftl (Z.land (Z.shiftr w 8) 0xff) 8 + Z.shiftl (Z.land (Z.shiftr w 16) 0xff) 16
  + Z.shiftl (Z.land (Z.shiftr w 24) 0xff) 24 = w.
Proof.
  intros Hw. unfold is_u32 in Hw. change 0xff with (Z.ones 8). rewrite !Z.land_ones, !Z.shiftr_div_pow2, !Z.shiftl_mul_pow2 by lia.
  change (2 ^ 8) with 256. change (2 ^ 16) with 65536. change (2 ^ 24) with 16777216.
  assert (w / 65536 = w / 256 / 256) as -> by (rewrite Zdiv_Zdiv by lia; done).
  assert (w / 16777216 = w / 256 / 256 / 256) as -> by (rewrite !Zdiv_Zdiv by lia; done).
  pose proof (Z.div_mod w 256). pose proof (Z.div_mod (w / 256) 256). pose proof (Z.div_mod (w / 256 / 256) 256).
  rewrite (Z.mod_small (w / 256 / 256 / 256)); [lia|].
  rewrite !Zdiv_Zdiv by lia. split; [apply Z.div_pos; lia|]. apply Z.div_lt_upper_bound; lia.
Qed.

Lemma length_words_bytes ws : length (words_bytes ws) = (4 * length ws)%nat.
Proof. induction ws as [|w ws IH]; [done|]. unfold words_bytes in *. cbn [mbind list_bind]. rewrite length_app, IH. cbn [length word_bytes]. lia. Qed.

Lemma words_bytes_lookup ws i w rest k :
  ws !! i = Some w → (k < 4)%nat → (words_bytes ws ++ rest) !! (4 * i + k)%nat = word_bytes w !! k.
Proof.
  revert i. induction ws as [|x ws IH]; intros i Hi Hk; [done|]. unfold words_bytes in *. cbn [mbind list_bind]. rewrite <- app_assoc.
  destruct i as [|i]; cbn in Hi.
  - simplify_eq. rewrite lookup_app_l by (cbn; lia). done.
  - rewrite lookup_app_r by (cbn; lia). rewrite <- (IH i Hi Hk). f_equal. cbn [length word_bytes]. lia.
Qed.

Lemma words_back pre ws rest i w :
  ws !! i = Some w → is_u32 w → word_at_byte (pre ++ words_bytes ws ++ rest) (length pre + 4 * i) = w.
Proof.
  intros Hi Hu. assert (∀ k, (k < 4)%nat → (pre ++ words_bytes ws ++ rest).[length pre + 4 * i + k] = default 0 (word_bytes w !! k)) as H.
  { intros k Hk. unfold word_at. rewrite lookup_app_r by lia.
    replace (length pre + 4 * i + k - length pre)%nat with (4 * i + k)%nat by lia. by rewrite (words_bytes_lookup ws i w). }
  unfold word_at_byte. rewrite <- (Nat.add_0_r (length pre + 4 * i)) at 1. rewrite !H by lia. cbn. by apply word_bytes_back.
Qed.

Lemma no_good N ws :
  Forall is_u32 ws → (length ws < 4096)%nat → (4 * length ws + 2 ≤ N)%nat →
  ∃ d n, Bitmap_Compress_No ws N = Ok (d, n) ∧ length d = N ∧ good_encoding d n ws.
Proof.
  intros HF Hn HN. unfold Bitmap_Compress_No.
  destruct (write_header N BITMAP_COMPRESSION_TYPE_NO (length ws)) as (bs & -> & (d & r & -> & Hb & Hd)); [lia|].
  rewrite length_header.
  assert (∃ d', match ws with
    | [] => Ok (data (str d 16), 2%nat)
    | _ :: _ => let '(o, bs) := Bitstream_GetAlignedData (str d 16) 16 in
                Ok (overwrite (data bs) o (words_bytes ws), (length ws * 4 + 2)%nat) end
    = Ok (d', (4 * length ws + 2)%nat) ∧ length d' = N ∧ take (4 * length ws + 2) d' = take 2 d ++ words_bytes ws) as (d' & -> & Hl & Ht).
  { destruct ws as [|w ws'] eqn:Ew; [exists d; rewrite app_nil_r; done|]. rewrite <- Ew in *.
    change (Bitstream_GetAlignedData (str d 16) 16) with (2%nat, str d 16). cbn [data str].
    eexists. split; [do 2 f_equal; lia|]. unfold overwrite. pose proof (length_words_bytes ws) as Hlb.
    split; [rewrite !length_app, length_take, length_drop; lia|].
    rewrite take_app_ge by (rewrite length_take; lia). rewrite take_app_length' by (rewrite length_take; lia). done. }
  exists d', (4 * length ws + 2)%nat. split; [done|]. split; [done|]. split; [lia|]. intros t0 n0 beyond.
  assert (bits (take (4 * length ws + 2) d') = header BITMAP_COMPRESSION_TYPE_NO (length ws) ++ bits (words_bytes ws)) as Hbits.
  { rewrite Ht, bits_concat, bits_take, Hb. by rewrite take_app_length' by (by rewrite length_header). }
  assert (length (take (4 * length ws + 2) d') = 4 * length ws + 2)%nat as Hlt by (rewrite length_take; lia).
  eexists. split; [rewrite <- Hlt at 2; apply (read_header _ _ _ _ t0 n0 Hbits); [by left|done]|].
  split; [done|]. split; [done|]. split; [|done]. unfold BitmapDecompress_Decompress. cbn [blockCount compressionType bitstream].
  rewrite length_replicate, Nat.ltb_irrefl. cbn [BITMAP_COMPRESSION_TYPE_NO Z.eqb].
  change (Bitstream_GetAlignedData (str ?x 16) 16) with (2%nat, str x 16). cbn [data str].
  rewrite drop_ge, app_nil_r by (rewrite length_replicate; lia). f_equal. rewrite Ht.
  apply list_eq. intros i. rewrite list_lookup_fmap. destruct (decide (i < length ws)%nat) as [Hi|Hi].
  - rewrite lookup_seq_lt by done. cbn [fmap option_fmap option_map]. destruct (lookup_lt_is_Some_2 ws i Hi) as [w Hw].
    rewrite Hw. f_equal. rewrite <- app_assoc.
    pose proof (words_back (take 2 d) ws beyond i w Hw ltac:(by eapply Forall_lookup_1)) as Hwb.
    rewrite length_take in Hwb. replace (2 `min` length d)%nat with 2%nat in Hwb by lia. exact Hwb.
  - rewrite (lookup_ge_None_2 ws) by lia. rewrite lookup_seq_ge by lia. done.
Qed.

(** What [Bitmap_Compress] returns can be decompressed to what it was given. *)
Lemma compress_good t ws N :
  (t = BITMAP_COMPRESSION_TYPE_NO ∨ t = BITMAP_COMPRESSION_TYPE_DEFAULT) → Forall is_u32 ws →
  (length ws < 4096)%nat → (4 * length ws + 2 ≤ N)%nat →
  ∃ d n, Bitmap_Compress t ws N = Ok (d, n) ∧ length d = N ∧ good_encoding d n ws.
Proof.
  intros Ht HF Hn HN. unfold Bitmap_Compress. destruct Ht as [-> | ->]; [by apply no_good|].
  set (t := BITMAP_COMPRESSION_TYPE_DEFAULT). change (t =? BITMAP_COMPRESSION_TYPE_NO) with false. change (t =? BITMAP_COMPRESSION_TYPE_DEFAULT) with true.
  destruct (write_header N t (length ws)) as (bs & -> & Hw); [lia|]. unfold Bitmap_Compress_Default.
  destruct (compress_blocks_wrote N (header t (length ws)) ws 0 0 0 bs [] []) as [l Hl]; try done; try (by rewrite app_nil_r); try (by constructor); try lia.
  change (block_flag 0) with 0 in Hl. destruct (compress_blocks ws 0 0 0 0 bs) as [[|] bs']; [|by apply no_good].
  destruct Hl as (e & Hw' & He). destruct (default_good N ws l e bs' Hw' He Hn) as [Hg Hlen]. eauto.
Qed.

(** C38: what a bitmap of fewer than 4096 words is compressed to, in either format and with room
    for the uncompressed form, is decompressed to the same words, whatever follows it in
    memory, and the Asserts of the decompression hold. *)
Theorem bitmap_compress_roundtrip t ws N :
  (t = BITMAP_COMPRESSION_TYPE_NO ∨ t = BITMAP_COMPRESSION_TYPE_DEFAULT) → Forall is_u32 ws →
  (length ws < 4096)%nat → (4 * length ws + 2 ≤ N)%nat →
  ∃ d n, Bitmap_Compress t ws N = Ok (d, n) ∧ length d = N ∧ (BITMAP_COMPRESSION_HEADER_SIZE ≤ n ≤ N)%nat ∧
    ∀ t0 n0 beyond, ∃ state,
      BitmapDecompress_Init (take n d) n t0 n0 = (true, state) ∧ BitmapDecompress_HasError state = false ∧
      BitmapDecompress_GetBlockCount state = length ws ∧
      BitmapDecompress_Decompress beyond state (replicate (length ws) 0) = Ok ws ∧
    BitmapDecompress_asserts state (replicate (length ws) 0) = true.
Proof.
  intros Ht HF Hn HN. destruct (compress_good t ws N Ht HF Hn HN) as (d & n & E & Hd & Hg1 & Hg2). subst N. eauto 8.
Qed.

Lemma bitmap_compress_roundtrip_witness : ∃ d n,
  Bitmap_Compress BITMAP_COMPRESSION_TYPE_DEFAULT [7; 7; 7; 0xFFFFFFFF; 0; 0; 0; 0; 0; 0; 9] 46 = Ok (d, n) ∧ length d = 46%nat ∧
  (BITMAP_COMPRESSION_HEADER_SIZE ≤ n ≤ 46)%nat ∧
  ∀ t0 n0 beyond, ∃ state,
    BitmapDecompress_Init (take n d) n t0 n0 = (true, state) ∧ BitmapDecompress_HasError state = false ∧
    BitmapDecompress_GetBlockCount state = 11%nat ∧
    BitmapDecompress_Decompress beyond state (replicate 11 0) = Ok [7; 7; 7; 0xFFFFFFFF; 0; 0; 0; 0; 0; 0; 9] ∧
    BitmapDecompress_asserts state (replicate 11 0) = true.
Proof.
  apply (bitmap_compress_roundtrip BITMAP_COMPRESSION_TYPE_DEFAULT [7; 7; 7; 0xFFFFFFFF; 0; 0; 0; 0; 0; 0; 9] 46).
  - right. reflexivity.
  - repeat constructor; vm_compute; congruence.
  - apply Nat.ltb_lt. reflexivity.
  - apply Nat.leb_le. reflexivity.
Defined.

End BitCompSpec.
