(* ===== verification/Visimap.v ===== *)
(** The visibility map of append-only tables: backend/access/appendonly/appendonly_visimap.c,
    appendonly_visimap_entry.c and appendonly_visimap_store.c, with the tuple ids of
    include/access/appendonlytid.h and the delete descriptor of appendonlyam.c.

    The rows of an append-only table are never overwritten; a deleted row is recorded
    as a bit in an entry of an auxiliary heap relation.  An entry covers 32768 row numbers
    of one segment file.  A command that deletes rows keeps one entry in memory and the
    other entries it has changed in a work file, and writes all of them to the relation
    at its end.

    The heap, its unique index and the work file are the services this code is built on:
    the heap is an array of row versions, and the work file an array of bytes with a
    position. *)
From stdpp Require Import base list option numbers strings gmap sorting.
From S2P Require Import Prelude Bitmapset BitComp.
Import Bitmapset BitComp.

Module Visimap.

(** ** Tuple ids *)

Record AOTupleId := MkTupleId { bytes_0_1 : Z; bytes_2_3 : Z; bytes_4_5 : Z }.

Definition AOTupleIdGet_segmentFileNum (h : AOTupleId) : Z := Z.shiftr (Z.land (bytes_0_1 h) 0xFE00) 9.
Definition AOTupleIdGet_makeHeapExecutorHappy (h : AOTupleId) : Z := Z.land (bytes_4_5 h) 0x8000.
Definition AOTupleIdGet_rowNum (h : AOTupleId) : Z :=
  Z.lor (Z.lor (u64 (Z.shiftl (Z.land (bytes_0_1 h) 0x01FF) 31)) (u64 (Z.shiftl (bytes_2_3 h) 15)))
    (Z.land (bytes_4_5 h) 0x7FFF).

Definition AOTupleIdInit_Init : AOTupleId := MkTupleId 0 0 0x8000.
Definition AOTupleIdInit_segmentFileNum (h : AOTupleId) (e : Z) : AOTupleId :=
  MkTupleId (u16 (Z.lor (bytes_0_1 h) (Z.shiftl (u16 (Z.land 0x007F (u16 e))) 9))) (bytes_2_3 h) (bytes_4_5 h).
Definition AOTupleIdInit_rowNum (h : AOTupleId) (e : Z) : AOTupleId :=
  MkTupleId (u16 (Z.lor (bytes_0_1 h) (u16 (Z.shiftr (Z.land 0x000000FFFFFFFFFF (u64 e)) 31))))
    (u16 (Z.lor (bytes_2_3 h) (u16 (Z.shiftr (Z.land 0x000000007FFFFFFF (u64 e)) 15))))
    (u16 (Z.lor (bytes_4_5 h) (Z.land 0x7FFF (u64 e)))).

(** The same bytes as a heap tid: [bi_hi], [bi_lo] and [ip_posid]. *)
Definition BlockIdGetBlockNumber (h : AOTupleId) : Z := u32 (Z.lor (Z.shiftl (bytes_0_1 h) 16) (u16 (bytes_2_3 h))).
Definition ItemPointerCompare (arg1 arg2 : AOTupleId) : Z :=
  let b1 := BlockIdGetBlockNumber arg1 in
  let b2 := BlockIdGetBlockNumber arg2 in
  if b1 <? b2 then -1
  else if b2 <? b1 then 1
  else if bytes_4_5 arg1 <? bytes_4_5 arg2 then -1
  else if bytes_4_5 arg2 <? bytes_4_5 arg1 then 1
  else 0.

(** ** Entries *)

Definition APPENDONLY_VISIMAP_MAX_RANGE : Z := 32768.
Definition APPENDONLY_VISIMAP_MAX_BITMAP_SIZE : nat := 4096.
(** [offsetof(AppendOnlyVisimapData, data)]: the length word and the version. *)
Definition data_offset : nat := 8.
Definition APPENDONLY_VISIMAP_DATA_BUFFER_SIZE : nat :=
  (data_offset + APPENDONLY_VISIMAP_MAX_BITMAP_SIZE + BITMAP_COMPRESSION_HEADER_SIZE)%nat.

(** The length word of a varlena, in network byte order. *)
Definition VARSIZE (d : list Z) : Z :=
  Z.land (Z.shiftl d.[0] 24 + Z.shiftl d.[1] 16 + Z.shiftl d.[2] 8 + d.[3]) 0x3FFFFFFF.
Definition length_bytes (len : Z) : list Z := reverse (word_bytes (Z.land len 0x3FFFFFFF)).
Definition SET_VARSIZE (d : list Z) (len : Z) : list Z := overwrite d 0 (length_bytes len).

(** [data] is the buffer of the entry, all of its bytes; [tupleTid] is [None] when invalid. *)
Record AppendOnlyVisimapEntry := MkEntry {
  data : list Z; bitmap : option Bitmapset; segmentFileNum : Z; firstRowNum : Z; dirty : bool; tupleTid : option nat }.

(** A row of the visimap relation. *)
Record VisimapRow := MkRow { segno : Z; first_row_no : Z; visimap : option (list Z) }.

Inductive HTSU_Result :=
  HeapTupleMayBeUpdated | HeapTupleInvisible | HeapTupleSelfUpdated | HeapTupleUpdated | HeapTupleBeingUpdated.
#[export] Instance HTSU_Result_eq_dec : EqDecision HTSU_Result.
Proof. solve_decision. Defined.

Definition AppendOnlyVisimapEntry_Init (tid : option nat) : AppendOnlyVisimapEntry :=
  MkEntry (SET_VARSIZE (replicate APPENDONLY_VISIMAP_DATA_BUFFER_SIZE 0) 0) None (-1) (-1) false tid.

Definition AppendOnlyVisimapEntry_Reset (e : AppendOnlyVisimapEntry) : AppendOnlyVisimapEntry :=
  MkEntry (data e) None (-1) (-1) false (tupleTid e).

Definition AppendOnlyVisimapEntry_GetFirstRowNum (tupleId : AOTupleId) : Z :=
  AOTupleIdGet_rowNum tupleId / APPENDONLY_VISIMAP_MAX_RANGE * APPENDONLY_VISIMAP_MAX_RANGE.

Definition AppendOnlyVisimapEntry_New (e : AppendOnlyVisimapEntry) (tupleId : AOTupleId) : AppendOnlyVisimapEntry :=
  MkEntry (data e) None (AOTupleIdGet_segmentFileNum tupleId) (AppendOnlyVisimapEntry_GetFirstRowNum tupleId)
    (dirty e) None.

Definition decompression_error : string := "error occured during visimap bitmap decompression".

(** The local [decompressState] starts undefined; its fields are read only after
    [BitmapDecompress_Init] has set them or the error flag. *)
Definition AppendOnlyVisiMapEnty_ReadData (e : AppendOnlyVisimapEntry) (dataSize : Z) : result AppendOnlyVisimapEntry :=
  let inDataSize := Z.to_nat (u32 dataSize) in
  let inData := drop data_offset (data e) in
  let decompressState := (BitmapDecompress_Init (take inDataSize inData) inDataSize 0 0).2 in
  if BitmapDecompress_HasError decompressState then Err decompression_error
  else
    let newWordCount := BitmapDecompress_GetBlockCount decompressState in
    b ← (if (0 <? newWordCount)%nat then
           ws ← BitmapDecompress_Decompress (drop inDataSize inData) decompressState (replicate newWordCount 0);
           Ok (Some (MkBitmapset newWordCount ws))
         else Ok None);
    Ok (MkEntry (data e) b (segmentFileNum e) (firstRowNum e) (dirty e) (tupleTid e)).

Definition AppendOnlyVisimapEntry_Copyout (e : AppendOnlyVisimapEntry) (tuple : VisimapRow) : result AppendOnlyVisimapEntry :=
  match visimap tuple with
  | None => Ok (MkEntry (data e) None (segno tuple) (first_row_no tuple) (dirty e) (tupleTid e))
  | Some value =>
      AppendOnlyVisiMapEnty_ReadData
        (MkEntry (overwrite (data e) 0 (take (Z.to_nat (VARSIZE value)) value)) (bitmap e) (segno tuple) (first_row_no tuple)
           (dirty e) (tupleTid e))
        (VARSIZE value - Z.of_nat data_offset)
  end.

Definition AppendOnlyVisimapEntry_GetHiddenTupleCount (e : AppendOnlyVisimapEntry) : Z := bms_num_members (bitmap e).

Definition entry_words (e : AppendOnlyVisimapEntry) : list Z :=
  match bitmap e with Some b => take (nwords b) (words b) | None => [] end.

Definition AppendOnlyVisimapEntry_WriteData (e : AppendOnlyVisimapEntry) : result AppendOnlyVisimapEntry :=
  let bitmapSize := (match bitmap e with Some b => nwords b * 4 | None => 0 end + BITMAP_COMPRESSION_HEADER_SIZE)%nat in
  let d := overwrite (data e) 4 (word_bytes 1) in
  '(out, compressedBitmapSize) ← Bitmap_Compress BITMAP_COMPRESSION_TYPE_DEFAULT (entry_words e) bitmapSize;
  Ok (MkEntry (SET_VARSIZE (overwrite d data_offset out) (Z.of_nat (data_offset + compressedBitmapSize)))
        (bitmap e) (segmentFileNum e) (firstRowNum e) (dirty e) (tupleTid e)).

Definition AppendOnlyVisimapEntry_Write (e : AppendOnlyVisimapEntry) : result (VisimapRow * AppendOnlyVisimapEntry) :=
  let clean e := MkEntry (data e) (bitmap e) (segmentFileNum e) (firstRowNum e) false (tupleTid e) in
  if bms_is_empty (bitmap e) then Ok (MkRow (segmentFileNum e) (firstRowNum e) None, clean e)
  else
    e ← AppendOnlyVisimapEntry_WriteData e;
    Ok (MkRow (segmentFileNum e) (firstRowNum e) (Some (take (Z.to_nat (VARSIZE (data e))) (data e))), clean e).

Definition AppendOnlyVisimapEntry_AreAllVisible (e : AppendOnlyVisimapEntry) : bool := bms_is_empty (bitmap e).
Definition AppendOnlyVisimapEntry_GetRownumOffset (e : AppendOnlyVisimapEntry) (rowNum : Z) : Z := rowNum - firstRowNum e.
Definition AppendOnlyVisimapEntry_HasChanged (e : AppendOnlyVisimapEntry) : bool := dirty e.
Definition AppendOnlyVisimapEntry_IsValid (e : AppendOnlyVisimapEntry) : bool :=
  (0 <=? segmentFileNum e) && (0 <=? firstRowNum e).

Definition AppendOnlyVisimapEntry_CoversTuple (e : AppendOnlyVisimapEntry) (tupleId : AOTupleId) : bool :=
  if negb (AppendOnlyVisimapEntry_IsValid e) then false
  else if negb (segmentFileNum e =? AOTupleIdGet_segmentFileNum tupleId) then false
  else
    let rowNum := AOTupleIdGet_rowNum tupleId in
    (firstRowNum e <=? rowNum) && (rowNum <? firstRowNum e + APPENDONLY_VISIMAP_MAX_RANGE).

Definition AppendOnlyVisimapEntry_IsVisible (e : AppendOnlyVisimapEntry) (tupleId : AOTupleId) : result bool :=
  if AppendOnlyVisimapEntry_AreAllVisible e then Ok true
  else negb <$> bms_is_member (s32 (AppendOnlyVisimapEntry_GetRownumOffset e (AOTupleIdGet_rowNum tupleId))) (bitmap e).

Definition AppendOnlyVisimapEntry_GetMinimalSizeToCover (offset : Z) : Z :=
  let minSize := u32 (offset / BITS_PER_BITMAPWORD + 1) in
  let minSize := u32 (minSize - 1) in
  let minSize := Z.lor minSize (Z.shiftr minSize 1) in
  let minSize := Z.lor minSize (Z.shiftr minSize 2) in
  let minSize := Z.lor minSize (Z.shiftr minSize 4) in
  let minSize := Z.lor minSize (Z.shiftr minSize 8) in
  let minSize := Z.lor minSize (Z.shiftr minSize 16) in
  u32 (minSize + 1).

Definition AppendOnlyVisimapEntry_HideTuple (e : AppendOnlyVisimapEntry) (tupleId : AOTupleId)
    : result (HTSU_Result * AppendOnlyVisimapEntry) :=
  let rowNumOffset := AppendOnlyVisimapEntry_GetRownumOffset e (AOTupleIdGet_rowNum tupleId) in
  let x := s32 rowNumOffset in
  covers ← bms_covers_member (bitmap e) x;
  let b := if negb covers
           then bms_resize (bitmap e) (Z.to_nat (s32 (AppendOnlyVisimapEntry_GetMinimalSizeToCover rowNumOffset)))
           else bitmap e in
  member ← bms_is_member x b;
  '(b, res) ← (if negb member then b ← bms_add_member b x; Ok (b, HeapTupleMayBeUpdated)
               else if dirty e then Ok (b, HeapTupleSelfUpdated)
               else Ok (b, HeapTupleUpdated));
  Ok (res, MkEntry (data e) b (segmentFileNum e) (firstRowNum e) true (tupleTid e)).

(** The new value of the tuple id, [None] when false is returned. *)
Definition AppendOnlyVisimapEntry_GetNextInvisible (e : AppendOnlyVisimapEntry) (tupleId : AOTupleId) : option AOTupleId :=
  let currentBitmapOffset :=
    if AppendOnlyVisimapEntry_CoversTuple e tupleId
    then AppendOnlyVisimapEntry_GetRownumOffset e (AOTupleIdGet_rowNum tupleId) else -1 in
  let offset := bms_first_from (bitmap e) (s32 (currentBitmapOffset + 1)) in
  if 0 <=? offset
  then Some (AOTupleIdInit_rowNum (AOTupleIdInit_segmentFileNum AOTupleIdInit_Init (segmentFileNum e)) (firstRowNum e + offset))
  else None.

(** ** The store

    A version of a row is [visible] to the snapshot of the command and [live] as long as
    the command has neither updated nor deleted it; its tid is its index.  A change made
    by the command is not visible to it. *)
Record Version := MkVersion { row : VisimapRow; visible : bool; live : bool }.

Definition row_key (r : VisimapRow) : Z * Z := (segno r, first_row_no r).

Definition already_updated : string := "tuple already updated by self".
Definition duplicate_key : string := "duplicate key value violates unique constraint".
Definition no_tuple : string := "heap tuple does not exist".

Definition simple_heap_insert (rel : list Version) (tuple : VisimapRow) : list Version :=
  rel ++ [MkVersion tuple false true].

Definition simple_heap_delete (rel : list Version) (tid : nat) : result (list Version) :=
  match rel !! tid with
  | Some v => if live v then Ok (<[tid := MkVersion (row v) (visible v) false]> rel) else Err already_updated
  | None => Err no_tuple
  end.

Definition simple_heap_update (rel : list Version) (tid : nat) (tuple : VisimapRow) : result (list Version) :=
  rel ← simple_heap_delete rel tid; Ok (simple_heap_insert rel tuple).

(** The index is unique: the new entry, for the last version, is refused when another
    live version has its key. *)
Definition CatalogUpdateIndexes (rel : list Version) (tuple : VisimapRow) : result (list Version) :=
  if (1 <? length (filter (λ v, live v = true ∧ row_key (row v) = row_key tuple) rel))%nat then Err duplicate_key else Ok rel.

(** A new command: its snapshot sees what the commands before have left. *)
Definition next_command (rel : list Version) : list Version := (λ v, MkVersion (row v) (live v) (live v)) <$> rel.

(** An index scan: the tids and rows that the snapshot sees and the scan keys select,
    in the order of the index. *)
Definition key_le (a b : nat * VisimapRow) : Prop :=
  segno a.2 < segno b.2 ∨ segno a.2 = segno b.2 ∧ first_row_no a.2 <= first_row_no b.2.
#[export] Instance key_le_dec a b : Decision (key_le a b).
Proof. unfold key_le. apply _. Defined.

Definition AppendOnlyVisimapStore_BeginScan (rel : list Version) (keys : VisimapRow → bool) : list (nat * VisimapRow) :=
  merge_sort key_le (omap (λ '(i, v), if visible v && keys (row v) then Some (i, row v) else None) (zip (seq 0 (length rel)) rel)).

Inductive ScanDirection := ForwardScanDirection | BackwardScanDirection.

Definition AppendOnlyVisimapStore_GetNextTuple (scan : list (nat * VisimapRow)) (dir : ScanDirection)
    : option ((nat * VisimapRow) * list (nat * VisimapRow)) :=
  match dir with
  | ForwardScanDirection => match scan with [] => None | t :: scan => Some (t, scan) end
  | BackwardScanDirection => match reverse scan with [] => None | t :: scan => Some (t, reverse scan) end
  end.

(** [None] when false is returned; the tid is copied by the callers that ask for it. *)
Definition AppendOnlyVisimapStore_GetNext (scan : list (nat * VisimapRow)) (dir : ScanDirection) (e : AppendOnlyVisimapEntry)
    : result (option (nat * AppendOnlyVisimapEntry * list (nat * VisimapRow))) :=
  match AppendOnlyVisimapStore_GetNextTuple scan dir with
  | None => Ok None
  | Some ((tid, tuple), scan) => e ← AppendOnlyVisimapEntry_Copyout e tuple; Ok (Some (tid, e, scan))
  end.

Definition set_tid (e : AppendOnlyVisimapEntry) (tid : option nat) : AppendOnlyVisimapEntry :=
  MkEntry (data e) (bitmap e) (segmentFileNum e) (firstRowNum e) (dirty e) tid.

Definition AppendOnlyVisimapStore_Find (rel : list Version) (segmentFileNum firstRowNum : Z) (e : AppendOnlyVisimapEntry)
    : result (option AppendOnlyVisimapEntry) :=
  let scan := AppendOnlyVisimapStore_BeginScan rel (λ r, (segno r =? segmentFileNum) && (first_row_no r =? firstRowNum)) in
  next ← AppendOnlyVisimapStore_GetNext scan BackwardScanDirection e;
  Ok (match next with Some (tid, e, _) => Some (set_tid e (Some tid)) | None => None end).

Definition AppendOnlyVisimapStore_Store (rel : list Version) (e : AppendOnlyVisimapEntry)
    : result (list Version * AppendOnlyVisimapEntry) :=
  '(tuple, e) ← AppendOnlyVisimapEntry_Write e;
  rel ← (match tupleTid e with
         | Some tid => simple_heap_update rel tid tuple
         | None => Ok (simple_heap_insert rel tuple)
         end);
  rel ← CatalogUpdateIndexes rel tuple;
  Ok (rel, set_tid e None).

Fixpoint delete_tuples (rel : list Version) (scan : list (nat * VisimapRow)) : result (list Version) :=
  match scan with
  | [] => Ok rel
  | (tid, _) :: scan => rel ← simple_heap_delete rel tid; delete_tuples rel scan
  end.
Definition AppendOnlyVisimapStore_DeleteSegmentFile (rel : list Version) (segmentFileNum : Z) : result (list Version) :=
  delete_tuples rel (AppendOnlyVisimapStore_BeginScan rel (λ r, segno r =? segmentFileNum)).

Fixpoint count_hidden (scan : list (nat * VisimapRow)) (e : AppendOnlyVisimapEntry) (hiddenTupcount : Z)
    : result (Z * AppendOnlyVisimapEntry) :=
  match scan with
  | [] => Ok (hiddenTupcount, e)
  | (_, tuple) :: scan =>
      e ← AppendOnlyVisimapEntry_Copyout e tuple;
      count_hidden scan e (hiddenTupcount + AppendOnlyVisimapEntry_GetHiddenTupleCount e)
  end.
Definition AppendOnlyVisimapStore_GetSegmentFileHiddenTupleCount (rel : list Version) (e : AppendOnlyVisimapEntry) (segmentFileNum : Z)
    : result (Z * AppendOnlyVisimapEntry) :=
  count_hidden (AppendOnlyVisimapStore_BeginScan rel (λ r, segno r =? segmentFileNum)) e 0.
Definition AppendOnlyVisimapStore_GetRelationHiddenTupleCount (rel : list Version) (e : AppendOnlyVisimapEntry)
    : result (Z * AppendOnlyVisimapEntry) :=
  count_hidden (AppendOnlyVisimapStore_BeginScan rel (λ _, true)) e 0.

(** ** The visibility map *)

Record AppendOnlyVisimap := MkVisimap { visimapEntry : AppendOnlyVisimapEntry; visimapStore : list Version }.

Definition AppendOnlyVisimap_Init (rel : list Version) : AppendOnlyVisimap :=
  MkVisimap (AppendOnlyVisimapEntry_Init None) rel.

Definition AppendOnlyVisimap_Store (m : AppendOnlyVisimap) : result AppendOnlyVisimap :=
  '(rel, e) ← AppendOnlyVisimapStore_Store (visimapStore m) (visimapEntry m); Ok (MkVisimap e rel).

Definition store_if_changed (m : AppendOnlyVisimap) : result AppendOnlyVisimap :=
  if AppendOnlyVisimapEntry_HasChanged (visimapEntry m) then AppendOnlyVisimap_Store m else Ok m.

(** What is left of the map is the relation. *)
Definition AppendOnlyVisimap_Finish (m : AppendOnlyVisimap) : result (list Version) := visimapStore <$> store_if_changed m.

Definition AppendOnlyVisimap_Find (m : AppendOnlyVisimap) (aoTupleId : AOTupleId) : result AppendOnlyVisimap :=
  found ← AppendOnlyVisimapStore_Find (visimapStore m) (AOTupleIdGet_segmentFileNum aoTupleId)
            (AppendOnlyVisimapEntry_GetFirstRowNum aoTupleId) (visimapEntry m);
  Ok (MkVisimap (default (AppendOnlyVisimapEntry_New (visimapEntry m) aoTupleId) found) (visimapStore m)).

Definition AppendOnlyVisimap_IsVisible (m : AppendOnlyVisimap) (aoTupleId : AOTupleId) : result (bool * AppendOnlyVisimap) :=
  m ← (if negb (AppendOnlyVisimapEntry_CoversTuple (visimapEntry m) aoTupleId)
       then m ← store_if_changed m; AppendOnlyVisimap_Find m aoTupleId
       else Ok m);
  v ← AppendOnlyVisimapEntry_IsVisible (visimapEntry m) aoTupleId;
  Ok (v, m).

Definition AppendOnlyVisimap_DeleteSegmentFile (m : AppendOnlyVisimap) (segno : Z) : result AppendOnlyVisimap :=
  MkVisimap (visimapEntry m) <$> AppendOnlyVisimapStore_DeleteSegmentFile (visimapStore m) segno.

Definition AppendOnlyVisimap_GetRelationHiddenTupleCount (m : AppendOnlyVisimap) : result (Z * AppendOnlyVisimap) :=
  '(n, e) ← AppendOnlyVisimapStore_GetRelationHiddenTupleCount (visimapStore m) (visimapEntry m);
  Ok (n, MkVisimap e (visimapStore m)).
Definition AppendOnlyVisimap_GetSegmentFileHiddenTupleCount (m : AppendOnlyVisimap) (segno : Z) : result (Z * AppendOnlyVisimap) :=
  '(n, e) ← AppendOnlyVisimapStore_GetSegmentFileHiddenTupleCount (visimapStore m) (visimapEntry m) segno;
  Ok (n, MkVisimap e (visimapStore m)).

(** ** Scans for the invisible tuples *)

Record AppendOnlyVisimapScan := MkScan { visimap_of : AppendOnlyVisimap; indexScan : list (nat * VisimapRow); isFinished : bool }.

Definition AppendOnlyVisimapScan_Init (rel : list Version) : AppendOnlyVisimapScan :=
  MkScan (AppendOnlyVisimap_Init rel) (AppendOnlyVisimapStore_BeginScan rel (λ _, true)) false.

Definition scan_entry (s : AppendOnlyVisimapScan) : AppendOnlyVisimapEntry := visimapEntry (visimap_of s).
Definition set_entry (s : AppendOnlyVisimapScan) (e : AppendOnlyVisimapEntry) (scan : list (nat * VisimapRow)) (fin : bool)
    : AppendOnlyVisimapScan :=
  MkScan (MkVisimap e (visimapStore (visimap_of s))) scan fin.

(** The loop of [AppendOnlyVisimapScan_GetNextInvisible]: whether it returns true, the
    tuple id and the scan. *)
Fixpoint next_invisible (fuel : nat) (s : AppendOnlyVisimapScan) (tupleId : AOTupleId)
    : result (bool * AOTupleId * AppendOnlyVisimapScan) :=
  match fuel with
  | O => Err "no fuel"
  | S fuel =>
      let look s tupleId :=
        match AppendOnlyVisimapEntry_GetNextInvisible (scan_entry s) tupleId with
        | None => next_invisible fuel (set_entry s (AppendOnlyVisimapEntry_Reset (scan_entry s)) (indexScan s) (isFinished s)) tupleId
        | Some tupleId => Ok (true, tupleId, s)
        end in
      if isFinished s then Ok (true, tupleId, s)
      else if negb (AppendOnlyVisimapEntry_IsValid (scan_entry s)) then
        next ← AppendOnlyVisimapStore_GetNext (indexScan s) ForwardScanDirection (scan_entry s);
        match next with
        | None => Ok (false, tupleId, set_entry s (scan_entry s) (indexScan s) true)
        | Some (_, e, scan) => look (set_entry s e scan (isFinished s)) AOTupleIdInit_Init
        end
      else look s tupleId
  end.
Definition AppendOnlyVisimapScan_GetNextInvisible (s : AppendOnlyVisimapScan) (tupleId : AOTupleId)
    : result (bool * AOTupleId * AppendOnlyVisimapScan) :=
  next_invisible (2 + length (indexScan s)) s tupleId.

Definition AppendOnlyVisimapScan_Finish (s : AppendOnlyVisimapScan) : result (list Version) := AppendOnlyVisimap_Finish (visimap_of s).

(** The rows that gp_aovisimap returns, one per call: tuple id, segno and row_num. *)
Fixpoint gp_aovisimap_calls (fuel : nat) (s : AppendOnlyVisimapScan) (aoTupleId : AOTupleId)
    : result (list (AOTupleId * Z * Z)) :=
  match fuel with
  | O => Err "no fuel"
  | S fuel =>
      '(found, aoTupleId, s) ← AppendOnlyVisimapScan_GetNextInvisible s aoTupleId;
      if (found : bool) then
        rest ← gp_aovisimap_calls fuel s aoTupleId;
        Ok ((aoTupleId, AOTupleIdGet_segmentFileNum aoTupleId, AOTupleIdGet_rowNum aoTupleId) :: rest)
      else _ ← AppendOnlyVisimapScan_Finish s; Ok []
  end.
Definition gp_aovisimap (rel : list Version) : result (list (AOTupleId * Z * Z)) :=
  gp_aovisimap_calls (S (Z.to_nat APPENDONLY_VISIMAP_MAX_RANGE * length rel)) (AppendOnlyVisimapScan_Init rel) AOTupleIdInit_Init.

End Visimap.
