(* ===== verification/VisimapSpec.v ===== *)
(** What an entry of the visibility map is, in memory, in the relation and in the work file.

    Tuple ids are pairs of a segment file and a row number; a bitmap is a set of row
    offsets; the bytes of an entry determine its bitmap. *)
From Stdlib Require Import ZArith Lia.
From stdpp Require Import base list option numbers strings gmap sorting.
From S2P Require Import Prelude Bitmapset BitmapsetSpec BitComp BitCompSpec Visimap.
Import Bitmapset BitmapsetSpec BitComp BitCompSpec Visimap.

Module VisimapSpec.

(** ** Tuple ids *)

Definition tid_of (s r : Z) : AOTupleId := AOTupleIdInit_rowNum (AOTupleIdInit_segmentFileNum AOTupleIdInit_Init s) r.
Definition tid_wf (h : AOTupleId) : Prop := is_u16 (bytes_0_1 h) ∧ is_u16 (bytes_2_3 h) ∧ is_u16 (bytes_4_5 h).
Definition tid_pair (h : AOTupleId) : Z * Z := (AOTupleIdGet_segmentFileNum h, AOTupleIdGet_rowNum h).

Lemma land_low a b n : 0 <= n → 0 <= b < 2 ^ n → Z.land (a * 2 ^ n) b = 0.
Proof.
  intros Hn Hb. apply Z.bits_inj'. intros i Hi. rewrite Z.land_spec, Z.bits_0.
  destruct (decide (i < n)); [by rewrite Z.mul_pow2_bits_low|].
  rewrite <- (Z.mod_small b (2 ^ n)), Z.mod_pow2_bits_high, andb_false_r by lia. done.
Qed.

Lemma lor_low a b n : 0 <= n → 0 <= b < 2 ^ n → Z.lor (a * 2 ^ n) b = a * 2 ^ n + b.
Proof. intros Hn Hb. pose proof (Z.add_lor_land (a * 2 ^ n) b). rewrite land_low in H by done. lia. Qed.

Lemma land_ones_mod a n : 0 <= n → Z.land a (2 ^ n - 1) = a mod 2 ^ n.
Proof. intros Hn. rewrite <- Z.land_ones by done. by rewrite Z.ones_equiv, Z.sub_1_r. Qed.

Lemma get_seg h : is_u16 (bytes_0_1 h) → AOTupleIdGet_segmentFileNum h = bytes_0_1 h / 2 ^ 9.
Proof.
  intros Hu. unfold AOTupleIdGet_segmentFileNum. rewrite Z.shiftr_land. change (Z.shiftr 0xFE00 9) with (2 ^ 7 - 1).
  rewrite land_ones_mod, Z.shiftr_div_pow2 by lia. apply Z.mod_small. unfold is_u16 in Hu.
  split; [apply Z.div_pos; lia|apply Z.div_lt_upper_bound; lia].
Qed.

Lemma get_row h : tid_wf h →
  AOTupleIdGet_rowNum h = (bytes_0_1 h mod 2 ^ 9) * 2 ^ 31 + bytes_2_3 h * 2 ^ 15 + bytes_4_5 h mod 2 ^ 15.
Proof.
  intros (H0 & H2 & H4). unfold is_u16, AOTupleIdGet_rowNum in *.
  change 0x01FF with (2 ^ 9 - 1). change 0x7FFF with (2 ^ 15 - 1). rewrite !land_ones_mod, !Z.shiftl_mul_pow2 by lia.
  pose proof (Z.mod_pos_bound (bytes_0_1 h) (2 ^ 9) ltac:(lia)). pose proof (Z.mod_pos_bound (bytes_4_5 h) (2 ^ 15) ltac:(lia)).
  unfold u64. rewrite !(Z.mod_small (_ * _) (2 ^ 64)) by lia. rewrite lor_low by lia.
  replace (bytes_0_1 h mod 2 ^ 9 * 2 ^ 31 + bytes_2_3 h * 2 ^ 15)
    with ((bytes_0_1 h mod 2 ^ 9 * 2 ^ 16 + bytes_2_3 h) * 2 ^ 15) by lia.
  rewrite lor_low by lia. done.
Qed.

Lemma tid_bytes s r : 0 <= s < 2 ^ 7 → 0 <= r < 2 ^ 40 →
  tid_of s r = MkTupleId (s * 2 ^ 9 + r / 2 ^ 31) (r / 2 ^ 15 mod 2 ^ 16) (2 ^ 15 + r mod 2 ^ 15).
Proof.
  intros Hs Hr. unfold tid_of, AOTupleIdInit_rowNum, AOTupleIdInit_segmentFileNum, AOTupleIdInit_Init.
  cbn [bytes_0_1 bytes_2_3 bytes_4_5]. unfold u64. rewrite !(Z.mod_small r (2 ^ 64)) by lia.
  change 0x007F with (2 ^ 7 - 1). change 0x000000FFFFFFFFFF with (2 ^ 40 - 1). change 0x000000007FFFFFFF with (2 ^ 31 - 1).
  change 0x7FFF with (2 ^ 15 - 1). change 0x8000 with (1 * 2 ^ 15).
  rewrite !(Z.land_comm (_ - 1)), !land_ones_mod, !Z.lor_0_l by lia. unfold u16.
  rewrite (Z.mod_small s (2 ^ 16)), (Z.mod_small s (2 ^ 7)), (Z.mod_small s (2 ^ 16)), (Z.mod_small r (2 ^ 40)) by lia.
  rewrite !Z.shiftr_div_pow2, Z.shiftl_mul_pow2 by lia.
  pose proof (Z.div_mod r (2 ^ 31) ltac:(lia)). pose proof (Z.mod_pos_bound r (2 ^ 31) ltac:(lia)).
  pose proof (Z.mod_pos_bound r (2 ^ 15) ltac:(lia)).
  assert (0 <= r / 2 ^ 31 < 2 ^ 9) by lia.
  assert (r mod 2 ^ 31 / 2 ^ 15 = r / 2 ^ 15 mod 2 ^ 16) as ->.
  { change (2 ^ 31) with (2 ^ 15 * 2 ^ 16). rewrite Z.rem_mul_r by lia.
    rewrite (Z.mul_comm (2 ^ 15)), Z.div_add, Z.div_small by lia. lia. }
  pose proof (Z.mod_pos_bound (r / 2 ^ 15) (2 ^ 16) ltac:(lia)).
  rewrite (Z.mod_small (s * 2 ^ 9)), (Z.mod_small (r / 2 ^ 31)), !(Z.mod_small (r / 2 ^ 15 mod 2 ^ 16)), !lor_low by lia.
  f_equal; apply Z.mod_small; lia.
Qed.

Lemma tid_of_wf s r : 0 <= s < 2 ^ 7 → 0 <= r < 2 ^ 40 → tid_wf (tid_of s r).
Proof.
  intros Hs Hr. rewrite tid_bytes by done. unfold tid_wf, is_u16. cbn [bytes_0_1 bytes_2_3 bytes_4_5].
  pose proof (Z.mod_pos_bound (r / 2 ^ 15) (2 ^ 16) ltac:(lia)). pose proof (Z.mod_pos_bound r (2 ^ 15) ltac:(lia)).
  assert (0 <= r / 2 ^ 31 < 2 ^ 9); [|lia]. split; [apply Z.div_pos; lia|apply Z.div_lt_upper_bound; lia].
Qed.

Lemma tid_of_pair s r : 0 <= s < 2 ^ 7 → 0 <= r < 2 ^ 40 → tid_pair (tid_of s r) = (s, r).
Proof.
  intros Hs Hr. pose proof (tid_of_wf s r Hs Hr) as Hwf. unfold tid_pair. rewrite get_seg, get_row by (done || apply Hwf).
  rewrite tid_bytes by done. cbn [bytes_0_1 bytes_2_3 bytes_4_5].
  assert (0 <= r / 2 ^ 31 < 2 ^ 9) by (split; [apply Z.div_pos; lia|apply Z.div_lt_upper_bound; lia]).
  rewrite Z.div_add_l, (Z.div_small (r / 2 ^ 31)) by lia. rewrite (Z.add_comm (s * 2 ^ 9)), Z.mod_add, (Z.mod_small (r / 2 ^ 31)) by lia.
  change (2 ^ 15 + r mod 2 ^ 15) with (1 * 2 ^ 15 + r mod 2 ^ 15). rewrite (Z.add_comm (1 * 2 ^ 15)), Z.mod_add, Z.mod_mod by lia.
  f_equal; [lia|]. pose proof (Z.div_mod r (2 ^ 15) ltac:(lia)). pose proof (Z.div_mod (r / 2 ^ 15) (2 ^ 16) ltac:(lia)).
  rewrite Z.div_div in * by lia. change (2 ^ 15 * 2 ^ 16) with (2 ^ 31) in *. lia.
Qed.

Lemma tid_pair_range h : tid_wf h → 0 <= (tid_pair h).1 < 2 ^ 7 ∧ 0 <= (tid_pair h).2 < 2 ^ 40.
Proof.
  intros Hh. pose proof Hh as (H0 & H2 & H4). cbn [fst snd tid_pair]. rewrite get_seg, get_row by done. unfold is_u16 in *.
  pose proof (Z.mod_pos_bound (bytes_0_1 h) (2 ^ 9) ltac:(lia)). pose proof (Z.mod_pos_bound (bytes_4_5 h) (2 ^ 15) ltac:(lia)).
  split; [|lia]. split; [apply Z.div_pos; lia|apply Z.div_lt_upper_bound; lia].
Qed.

(** ** The bytes of an entry *)

Definition of_words (ws : list Z) : option Bitmapset :=
  match ws with [] => None | _ => Some (MkBitmapset (length ws) ws) end.

(** The bitmap of an entry: within the range of an entry, and never an empty array. *)
Definition bm_ok (b : option Bitmapset) : Prop :=
  bms_wf b ∧ (bms_len b ≤ 1024)%nat ∧ match b with Some a => nwords a ≠ 0%nat | None => True end.

Definition bm_words (b : option Bitmapset) : list Z := match b with Some b => take (nwords b) (words b) | None => [] end.

Lemma bm_words_ok b : bm_ok b →
  of_words (bm_words b) = b ∧ length (bm_words b) = bms_len b ∧ Forall is_u32 (bm_words b).
Proof.
  destruct b as [[n ws]|]; [|by cbn]. intros ((Hl & Hu & _) & _ & Hn). cbn in *. subst n. rewrite firstn_all.
  split; [|done]. by destruct ws.
Qed.

(** [v] is a stored bitmap with the words [ws]. *)
Definition varlena (v ws : list Z) : Prop :=
  ∃ d n, v = length_bytes (Z.of_nat (8 + n)) ++ word_bytes 1 ++ take n d ∧ (length d ≤ 4098)%nat ∧ good_encoding d n ws.

Lemma length_length_bytes len : length (length_bytes len) = 4%nat.
Proof. unfold length_bytes. by rewrite length_reverse. Qed.

Lemma varsize_bytes len rest : 0 <= len < 2 ^ 30 → VARSIZE (length_bytes len ++ rest) = len.
Proof.
  intros Hl. unfold VARSIZE, length_bytes. change 0x3FFFFFFF with (2 ^ 30 - 1). rewrite !land_ones_mod by lia.
  rewrite (Z.mod_small len) by lia.
  change (reverse (word_bytes len)) with
    [Z.land (Z.shiftr len 24) 0xff; Z.land (Z.shiftr len 16) 0xff; Z.land (Z.shiftr len 8) 0xff; Z.land len 0xff].
  unfold word_at. cbn [lookup list_lookup app default]. unfold id.
  pose proof (word_bytes_back len ltac:(unfold is_u32; lia)). rewrite Z.mod_small; [lia|]. lia.
Qed.

Lemma overwrite_length d o x : (o + length x ≤ length d)%nat → length (overwrite d o x) = length d.
Proof. intros H. unfold overwrite. rewrite !length_app, length_take, length_drop. lia. Qed.

Lemma overwrite_prefix d x : overwrite d 0 x = x ++ drop (length x) d.
Proof. done. Qed.

Lemma varlena_length v ws : varlena v ws → (10 ≤ length v ≤ 4106)%nat ∧ ∀ rest, VARSIZE (v ++ rest) = Z.of_nat (length v).
Proof.
  intros (d & n & -> & Hd & (Hn & _)).
  assert (length (length_bytes (Z.of_nat (8 + n)) ++ word_bytes 1 ++ take n d) = (8 + n)%nat) as ->.
  { rewrite !length_app, length_length_bytes, length_take. cbn [length word_bytes]. lia. }
  split; [lia|]. intros rest. rewrite <- app_assoc. apply varsize_bytes. lia.
Qed.

Definition set_bitmap (e : AppendOnlyVisimapEntry) (b : option Bitmapset) : AppendOnlyVisimapEntry :=
  MkEntry (data e) b (segmentFileNum e) (firstRowNum e) (dirty e) (tupleTid e).

Lemma read_data_ok e v ws rest size :
  varlena v ws → data e = v ++ rest → size = Z.of_nat (length v) - 8 →
  AppendOnlyVisiMapEnty_ReadData e size = Ok (set_bitmap e (of_words ws)).
Proof.
  intros Hv He Hsize. destruct (varlena_length v ws Hv) as [Hlen _]. destruct Hv as (d & n & -> & Hd & (Hn & Hg)).
  set (v := length_bytes (Z.of_nat (8 + n)) ++ word_bytes 1 ++ take n d) in *.
  assert (length v = 8 + n)%nat as Hl.
  { unfold v. rewrite !length_app, length_length_bytes, length_take. cbn [length word_bytes]. lia. }
  unfold AppendOnlyVisiMapEnty_ReadData. rewrite u32_id by (unfold is_u32; lia).
  replace (Z.to_nat size) with n by lia.
  assert (drop data_offset (data e) = take n d ++ rest) as ->.
  { rewrite He. unfold v. rewrite app_assoc, <- !app_assoc, app_assoc. apply drop_app_length'.
    rewrite length_app, length_length_bytes. done. }
  assert (length (take n d) = n) as Ht by (rewrite length_take; lia).
  rewrite take_app_length', drop_app_length' by done.
  destruct (Hg 0 0%nat rest) as (st & Hi & He' & Hb & Hdec & _). rewrite Hi. cbn [snd]. rewrite He', Hb.
  destruct ws as [|w ws]; [done|]. change (0 <? length (w :: ws))%nat with true.
  cbn [mbind result_bind]. rewrite Hdec. done.
Qed.

Lemma write_data_ok e : bm_ok (bitmap e) → length (data e) = APPENDONLY_VISIMAP_DATA_BUFFER_SIZE →
  ∃ d v rest, AppendOnlyVisimapEntry_WriteData e
    = Ok (MkEntry d (bitmap e) (segmentFileNum e) (firstRowNum e) (dirty e) (tupleTid e)) ∧
    d = v ++ rest ∧ varlena v (bm_words (bitmap e)) ∧ length d = APPENDONLY_VISIMAP_DATA_BUFFER_SIZE.
Proof.
  intros Hb Hlen. destruct (bm_words_ok _ Hb) as (_ & Hwl & Hu). destruct Hb as (_ & Hb & _).
  set (N := (bms_len (bitmap e) * 4 + BITMAP_COMPRESSION_HEADER_SIZE)%nat).
  destruct (compress_good BITMAP_COMPRESSION_TYPE_DEFAULT (bm_words (bitmap e)) N) as (out & n & Ec & Hout & Hg);
    [by right|done|lia|unfold N, BITMAP_COMPRESSION_HEADER_SIZE; lia|].
  unfold AppendOnlyVisimapEntry_WriteData.
  replace (match bitmap e with Some b => nwords b * 4 | None => 0 end + BITMAP_COMPRESSION_HEADER_SIZE)%nat with N
    by (unfold N; by destruct (bitmap e)).
  change (entry_words e) with (bm_words (bitmap e)). rewrite Ec. cbn [mbind result_bind].
  unfold N, BITMAP_COMPRESSION_HEADER_SIZE in Hout. change APPENDONLY_VISIMAP_DATA_BUFFER_SIZE with 4106%nat in *.
  assert (length (overwrite (overwrite (data e) 4 (word_bytes 1)) data_offset out) = 4106%nat) as Hl2.
  { rewrite !overwrite_length; rewrite ?overwrite_length; cbn [length word_bytes]; unfold data_offset; lia. }
  pose proof (proj1 Hg) as Hn.
  eexists _, (length_bytes (Z.of_nat (8 + n)) ++ word_bytes 1 ++ take n out),
    (drop n out ++ drop (8 + length out) (overwrite (data e) 4 (word_bytes 1))).
  split; [done|]. split; [|split].
  - unfold SET_VARSIZE. rewrite overwrite_prefix, length_length_bytes, <- !app_assoc. f_equal.
    unfold overwrite at 1. rewrite drop_app_le by (rewrite length_take, overwrite_length; cbn [length word_bytes]; unfold data_offset; lia).
    unfold overwrite at 1, data_offset. rewrite take_app_ge by (rewrite length_take; lia). rewrite length_take.
    rewrite drop_app_length' by (rewrite length_take; lia).
    replace (8 - (4 `min` length (data e)))%nat with (length (word_bytes 1)) by (rewrite Nat.min_l by lia; done).
    rewrite take_app_length. f_equal. rewrite (app_assoc (take n out)), take_drop. done.
  - exists out, n. split; [done|]. split; [lia|done].
  - unfold SET_VARSIZE. rewrite overwrite_length by (rewrite length_length_bytes; lia). done.
Qed.

(** ** Bitmaps as sets of row offsets *)

Lemma minimal_size off : 0 <= off < 32768 →
  off / 32 + 1 <= AppendOnlyVisimapEntry_GetMinimalSizeToCover off <= 1024.
Proof.
  intros Ho. assert (0 <= off / 32 < 1024) as Hk by (split; [apply Z.div_pos; lia|apply Z.div_lt_upper_bound; lia]).
  assert (forallb (λ k, let m := AppendOnlyVisimapEntry_GetMinimalSizeToCover (32 * k) in (k + 1 <=? m) && (m <=? 1024))
            (seqZ 0 1024) = true) as H by (vm_compute; reflexivity).
  rewrite forallb_forall in H. specialize (H (off / 32)). rewrite <- list_elem_of_In, elem_of_seqZ in H. specialize (H ltac:(lia)).
  cbv zeta in H. apply andb_prop in H as [H1%Z.leb_le H2%Z.leb_le].
  assert (AppendOnlyVisimapEntry_GetMinimalSizeToCover (32 * (off / 32)) = AppendOnlyVisimapEntry_GetMinimalSizeToCover off) as E.
  { unfold AppendOnlyVisimapEntry_GetMinimalSizeToCover, BITS_PER_BITMAPWORD. rewrite (Z.mul_comm 32), Z.div_mul by lia. done. }
  lia.
Qed.

Lemma resize_elem b n x : bms_wf b → elem x (bms_resize b n) ↔ elem x b.
Proof.
  intros Hb. unfold elem, has. assert (bms_word (bms_resize b n) (Z.to_nat (x / 32)) = bms_word b (Z.to_nat (x / 32))) as ->; [|done].
  generalize (Z.to_nat (x / 32)). intros i. destruct b as [b|]; cbn [bms_resize].
  - destruct (Nat.leb_spec n (nwords b)); [done|]. cbn. rewrite word_at_app, word_at_replicate. destruct Hb as (Hl & _).
    case_decide; [done|]. rewrite (word_at_ge (words b)) by lia. by case_decide.
  - cbn. rewrite word_at_replicate. by case_decide.
Qed.

Lemma resize_ok b n : bms_wf b → (0 < n ≤ 1024)%nat → (bms_len b ≤ n)%nat →
  bms_wf (bms_resize b n) ∧ bms_len (bms_resize b n) = n.
Proof.
  intros Hb Hn Hle. destruct b as [b|]; cbn [bms_resize].
  - destruct Hb as (Hl & Hu & Hw). cbn in Hle. destruct (Nat.leb_spec n (nwords b)); [by cbn; repeat split; try done; lia|].
    cbn. rewrite length_app, length_replicate. repeat split; [lia| |lia]. apply Forall_app. split; [done|].
    apply Forall_replicate. unfold is_u32. lia.
  - cbn. rewrite length_replicate. repeat split; [|lia]. apply Forall_replicate. unfold is_u32. lia.
Qed.

Lemma add_member_len b x c : (WORDNUM x < bms_len b)%nat → bms_add_member b x = Ok c → bms_len c = bms_len b.
Proof.
  intros Hx. unfold bms_add_member. destruct (x <? 0); [done|]. destruct b as [b|]; cbn in *; [|lia].
  destruct (Nat.leb_spec (nwords b) (WORDNUM x)); [lia|]. intros [= <-]. done.
Qed.

Lemma WORDNUM_div x : 0 <= x < 2 ^ 31 → Z.of_nat (WORDNUM x) = x / 32.
Proof. intros Hx. rewrite WORDNUM_spec by (unfold is_u32; lia). pose proof (Z.div_pos x 32). lia. Qed.

Lemma add_member_ok b x : bm_ok b → 0 <= x < 32768 → (WORDNUM x < bms_len b)%nat →
  ∃ c, bms_add_member b x = Ok c ∧ bm_ok c ∧ ∀ y, elem y c ↔ elem y b ∨ y = x.
Proof.
  intros (Hb & Hl & Hn) Hx Hw. destruct (add_member_words b x Hb) as (c & Ec & Hc & Hcw); [lia|]. exists c. split; [done|].
  pose proof (add_member_len b x c Hw Ec) as Hlen. split; [split; [done|split; [lia|]]|].
  { destruct c as [c|]; [|done]. cbn in Hlen. lia. }
  destruct (make_singleton_words x) as (s & _ & _ & Hs & Hsw); [lia|]. intros y.
  rewrite <- (elem_single (Some s) x y Hs ltac:(lia) Hsw). apply elem_lor. intros i. rewrite Hcw, Hsw. done.
Qed.

(** The set with room for [x]. *)
Lemma cover_ok b x : bm_ok b → 0 <= x < 32768 → ∃ covers, bms_covers_member b x = Ok covers ∧
  let b' := if negb covers then bms_resize b (Z.to_nat (s32 (AppendOnlyVisimapEntry_GetMinimalSizeToCover x))) else b in
  bm_ok b' ∧ (WORDNUM x < bms_len b')%nat ∧ ∀ y, elem y b' ↔ elem y b.
Proof.
  intros (Hb & Hl & Hn) Hx. pose proof (WORDNUM_div x ltac:(lia)) as Hw. pose proof (minimal_size x Hx) as Hm.
  rewrite s32_id by (unfold is_s32; lia). set (n := Z.to_nat (AppendOnlyVisimapEntry_GetMinimalSizeToCover x)).
  assert (bms_covers_member b x = Ok (WORDNUM x <? bms_len b)%nat) as ->.
  { unfold bms_covers_member. rewrite (proj2 (Z.ltb_ge x 0)) by lia. by destruct b. }
  eexists. split; [done|]. destruct (Nat.ltb_spec (WORDNUM x) (bms_len b)); cbn [negb]; [done|].
  destruct (resize_ok b n) as [Hr Hrl]; [done|lia|lia|]. split; [split; [done|split; [lia|]]|].
  - destruct (bms_resize b n) as [c|]; [|done]. cbn in Hrl. lia.
  - split; [lia|]. intros y. by apply resize_elem.
Qed.

(** ** Entries *)

Definition key_ok (k : Z * Z) : Prop := 0 <= k.1 < 2 ^ 7 ∧ 0 <= k.2 < 2 ^ 40 ∧ k.2 mod 32768 = 0.
Definition id_key (id : AOTupleId) : Z * Z := (AOTupleIdGet_segmentFileNum id, AppendOnlyVisimapEntry_GetFirstRowNum id).
Definition id_off (id : AOTupleId) : Z := AOTupleIdGet_rowNum id mod 32768.

(** The entry is positioned at the key [k]. *)
Definition entry_at (e : AppendOnlyVisimapEntry) (k : Z * Z) : Prop :=
  length (data e) = APPENDONLY_VISIMAP_DATA_BUFFER_SIZE ∧ segmentFileNum e = k.1 ∧ firstRowNum e = k.2 ∧ key_ok k ∧ bm_ok (bitmap e).

Lemma id_split id : tid_wf id → key_ok (id_key id) ∧ 0 <= id_off id < 32768 ∧
  AOTupleIdGet_rowNum id = (id_key id).2 + id_off id.
Proof.
  intros Hid. destruct (tid_pair_range id Hid) as [H1 H2]. cbn [tid_pair fst snd] in *. unfold key_ok, id_key, id_off. cbn [fst snd].
  unfold AppendOnlyVisimapEntry_GetFirstRowNum, APPENDONLY_VISIMAP_MAX_RANGE.
  pose proof (Z.div_mod (AOTupleIdGet_rowNum id) 32768 ltac:(lia)). pose proof (Z.mod_pos_bound (AOTupleIdGet_rowNum id) 32768 ltac:(lia)).
  rewrite Z.mod_mul by lia. pose proof (Z.div_pos (AOTupleIdGet_rowNum id) 32768 ltac:(lia) ltac:(lia)). lia.
Qed.

Lemma covers_iff e k id : entry_at e k → tid_wf id → AppendOnlyVisimapEntry_CoversTuple e id = bool_decide (id_key id = k).
Proof.
  intros (_ & Hs & Hf & (Hk1 & Hk2 & Hk3) & _) Hid. destruct (id_split id Hid) as ((_ & Hi2 & Hi3) & Ho & Hr).
  destruct k as [s f]. cbn [fst snd] in *. unfold AppendOnlyVisimapEntry_CoversTuple, AppendOnlyVisimapEntry_IsValid.
  rewrite Hs, Hf, Hr. rewrite (proj2 (Z.leb_le 0 s)), (proj2 (Z.leb_le 0 f)) by lia. cbn [andb negb].
  unfold id_key, APPENDONLY_VISIMAP_MAX_RANGE in *. cbn [fst snd] in *.
  destruct (Z.eqb_spec s (AOTupleIdGet_segmentFileNum id)) as [E|E]; cbn [negb].
  2: { symmetry. apply bool_decide_eq_false. congruence. }
  apply eq_true_iff_eq. rewrite andb_true_iff, Z.leb_le, Z.ltb_lt, bool_decide_eq_true. subst s.
  set (g := AppendOnlyVisimapEntry_GetFirstRowNum id) in *.
  apply Z.mod_divide in Hk3 as [p ->]; [|lia]. apply Z.mod_divide in Hi3 as [q ->]; [|lia].
  split; [intros; f_equal; lia|]. intros [= ?]. lia.
Qed.

Lemma invalid_covers e id : AppendOnlyVisimapEntry_IsValid e = false → AppendOnlyVisimapEntry_CoversTuple e id = false.
Proof. unfold AppendOnlyVisimapEntry_CoversTuple. by intros ->. Qed.

Lemma offset_of e id : entry_at e (id_key id) → tid_wf id →
  AppendOnlyVisimapEntry_GetRownumOffset e (AOTupleIdGet_rowNum id) = id_off id ∧ s32 (id_off id) = id_off id.
Proof.
  intros (_ & _ & Hf & _) Hid. destruct (id_split id Hid) as (_ & Ho & Hr). unfold AppendOnlyVisimapEntry_GetRownumOffset.
  split; [lia|]. apply s32_id. unfold is_s32. lia.
Qed.

Lemma is_visible_ok e id : entry_at e (id_key id) → tid_wf id →
  AppendOnlyVisimapEntry_IsVisible e id = Ok (bool_decide (¬ elem (id_off id) (bitmap e))).
Proof.
  intros He Hid. destruct (offset_of e id He Hid) as [E1 E2]. destruct (id_split id Hid) as (_ & Ho & _).
  destruct He as (_ & _ & _ & _ & (Hb & _)). unfold AppendOnlyVisimapEntry_IsVisible, AppendOnlyVisimapEntry_AreAllVisible. rewrite E1, E2.
  rewrite bool_decide_not. destruct (bms_is_empty (bitmap e)) eqn:Em.
  - rewrite bool_decide_eq_false_2; [done|]. intros Hel. assert (bms_is_empty (bitmap e) = false); [|congruence].
    apply is_empty_elem; [done|by eexists].
  - rewrite is_member_elem by (done || lia). cbn. do 2 f_equal. apply bool_decide_ext. by apply elem_of_to_gset.
Qed.

(** What [AppendOnlyVisimapEntry_HideTuple] answers. *)
Definition hide_answer (hidden dirty : bool) : HTSU_Result :=
  if hidden then if dirty then HeapTupleSelfUpdated else HeapTupleUpdated else HeapTupleMayBeUpdated.

Lemma hide_ok e id : entry_at e (id_key id) → tid_wf id →
  ∃ b, AppendOnlyVisimapEntry_HideTuple e id
         = Ok (hide_answer (bool_decide (elem (id_off id) (bitmap e))) (dirty e),
               MkEntry (data e) b (segmentFileNum e) (firstRowNum e) true (tupleTid e)) ∧
       bm_ok b ∧ ∀ y, elem y b ↔ elem y (bitmap e) ∨ y = id_off id.
Proof.
  intros He Hid. destruct (offset_of e id He Hid) as [E1 E2]. destruct (id_split id Hid) as (_ & Ho & _).
  destruct He as (_ & _ & _ & _ & Hb). unfold AppendOnlyVisimapEntry_HideTuple. rewrite E1, E2.
  destruct (cover_ok (bitmap e) (id_off id) Hb Ho) as (cv & -> & Hb' & Hw & Hel). cbn [mbind result_bind] in *.
  set (b' := if negb cv then _ else _) in *. rewrite is_member_elem by (lia || apply Hb'). cbn [mbind result_bind].
  rewrite (bool_decide_ext (id_off id ∈ to_gset b') (elem (id_off id) (bitmap e)))
    by (rewrite elem_of_to_gset by apply Hb'; apply Hel).
  destruct (bool_decide_reflect (elem (id_off id) (bitmap e))) as [Hm|Hm]; cbn [negb hide_answer].
  - exists b'. split; [by destruct (dirty e)|]. split; [done|]. intros y. rewrite Hel. naive_solver.
  - destruct (add_member_ok b' (id_off id) Hb' Ho Hw) as (c & -> & Hc & Hce). cbn [mbind result_bind]. exists c.
    split; [done|]. split; [done|]. intros y. rewrite Hce, Hel. done.
Qed.

End VisimapSpec.
