(* ===== verification/VisimapStoreSpec.v ===== *)
(** What the visibility map relation represents: the set of the hidden rows.

    The relation is read through the versions that satisfy a predicate, the visible or the
    live ones; each entry has one version, whose bytes determine the hidden rows in its range. *)
From Stdlib Require Import ZArith Lia.
From stdpp Require Import base list option numbers strings gmap sorting.
From S2P Require Import Prelude Bitmapset BitmapsetSpec BitComp BitCompSpec Visimap VisimapSpec.
Import Bitmapset BitmapsetSpec BitComp BitCompSpec Visimap VisimapSpec.

Module VisimapStoreSpec.

(** The entry that covers a row. *)
Definition pair_key (p : Z * Z) : Z * Z := (p.1, p.2 / 32768 * 32768).

(** The bitmap [b] of the entry [k] has the rows of [S] in its range. *)
Definition agrees (S : gset (Z * Z)) (k : Z * Z) (b : option Bitmapset) : Prop :=
  ∀ y, 0 <= y < 32768 → elem y b ↔ (k.1, k.2 + y) ∈ S.

Definition row_bm (r : VisimapRow) (b : option Bitmapset) : Prop :=
  bm_ok b ∧ match visimap r with None => b = None | Some v => ∃ ws, varlena v ws ∧ b = of_words ws end.

(** The versions selected by [f] represent [S], except for the entries in [P]. *)
Definition reads_but (P : Z * Z → Prop) (f : Version → bool) (rel : list Version) (S : gset (Z * Z)) : Prop :=
  (∀ i v, rel !! i = Some v → f v = true → key_ok (row_key (row v)) ∧
     ∃ b, row_bm (row v) b ∧ (P (row_key (row v)) ∨ agrees S (row_key (row v)) b)) ∧
  (∀ i j v w, rel !! i = Some v → rel !! j = Some w → f v = true → f w = true →
     row_key (row v) = row_key (row w) → i = j) ∧
  (∀ p, p ∈ S → 0 <= p.1 < 2 ^ 7 ∧ 0 <= p.2 < 2 ^ 40 ∧
     (P (pair_key p) ∨ ∃ i v, rel !! i = Some v ∧ f v = true ∧ row_key (row v) = pair_key p)).

Definition reads : (Version → bool) → list Version → gset (Z * Z) → Prop := reads_but (λ _, False).

(** At the start of a command, when its snapshot sees exactly the live versions. *)
Definition represents (rel : list Version) (S : gset (Z * Z)) : Prop :=
  (∀ i v, rel !! i = Some v → visible v = live v) ∧ reads live rel S.

Lemma bm_ok_None : bm_ok None.
Proof. split; [done|]. split; [cbn; lia|done]. Qed.

Lemma elem_None y : ¬ elem y None.
Proof. unfold elem, has. cbn. by rewrite Z.bits_0, andb_false_r. Qed.

Lemma bm_elem_range b y : bm_ok b → elem y b → 0 <= y < 32768.
Proof. intros (Hb & Hl & _) He. pose proof (has_lt b y Hb He). lia. Qed.

Lemma pair_key_off k y : key_ok k → 0 <= y < 32768 → pair_key (k.1, k.2 + y) = k.
Proof.
  intros (_ & _ & Hm) Hy. unfold pair_key. cbn [fst snd]. apply Z.mod_divide in Hm as [q Hq]; [|lia].
  destruct k as [s f]. cbn [fst snd] in *. f_equal. rewrite Hq, Z.div_add_l, (Z.div_small y) by lia. lia.
Qed.

Lemma id_pair id : tid_wf id → pair_key (tid_pair id) = id_key id ∧ tid_pair id = ((id_key id).1, (id_key id).2 + id_off id).
Proof.
  intros Hid. destruct (id_split id Hid) as (_ & _ & Hr). split; [done|]. unfold tid_pair. rewrite Hr. done.
Qed.

Lemma agrees_id S id b : tid_wf id → agrees S (id_key id) b → elem (id_off id) b ↔ tid_pair id ∈ S.
Proof.
  intros Hid Ha. destruct (id_split id Hid) as (_ & Ho & _). destruct (id_pair id Hid) as [_ ->]. by apply Ha.
Qed.

(** ** Reading *)

Lemma copyout_ok e r b : row_bm r b → length (data e) = APPENDONLY_VISIMAP_DATA_BUFFER_SIZE →
  ∃ d, AppendOnlyVisimapEntry_Copyout e r = Ok (MkEntry d b (segno r) (first_row_no r) (dirty e) (tupleTid e)) ∧
       length d = APPENDONLY_VISIMAP_DATA_BUFFER_SIZE.
Proof.
  intros [_ Hr] Hl. unfold AppendOnlyVisimapEntry_Copyout. destruct (visimap r) as [v|]; [|subst b; eauto].
  destruct Hr as (ws & Hv & ->). destruct (varlena_length v ws Hv) as [Hlen Hsz].
  specialize (Hsz []). rewrite app_nil_r in Hsz. rewrite Hsz, Nat2Z.id, firstn_all.
  exists (overwrite (data e) 0 v). erewrite read_data_ok; [|done|apply overwrite_prefix|done]. split; [done|].
  rewrite overwrite_length; [done|]. rewrite Hl. change APPENDONLY_VISIMAP_DATA_BUFFER_SIZE with 4106%nat. lia.
Qed.

Lemma elem_of_scan rel keys i r :
  (i, r) ∈ AppendOnlyVisimapStore_BeginScan rel keys ↔
  ∃ v, rel !! i = Some v ∧ visible v = true ∧ keys r = true ∧ row v = r.
Proof.
  unfold AppendOnlyVisimapStore_BeginScan. rewrite merge_sort_Permutation, list_elem_of_omap. split.
  - intros ([j v] & Hj & Hv). apply list_elem_of_lookup in Hj as [n Hn]. apply lookup_zip_Some in Hn as [Hn1 Hn2].
    apply lookup_seq in Hn1 as [-> _]. destruct (visible v) eqn:E1, (keys (row v)) eqn:E2; simplify_eq/=. eauto.
  - intros (v & Hi & Hv & Hk & <-). exists (i, v). rewrite Hv, Hk. split; [|done]. apply list_elem_of_lookup. exists i.
    apply lookup_zip_Some. split; [|done]. apply lookup_seq. split; [done|]. by eapply lookup_lt_Some.
Qed.

Lemma NoDup_omap_fst {A B} (l : list (nat * A)) (g : A → option B) :
  NoDup l.*1 → NoDup (omap (λ '(i, v), (λ w, (i, w)) <$> g v) l).*1.
Proof.
  induction l as [|[i v] l IH]; cbn; [constructor|]. intros [Hi Hl]%NoDup_cons. specialize (IH Hl).
  destruct (g v) as [w|]; cbn; [|done]. apply NoDup_cons. split; [|done]. contradict Hi.
  apply list_elem_of_fmap in Hi as ([j x] & -> & Hx). apply list_elem_of_omap in Hx as ([j' a] & Ha & Hx').
  destruct (g a); simplify_eq/=. apply list_elem_of_fmap. by exists (j, a).
Qed.

Lemma scan_NoDup rel keys : NoDup (AppendOnlyVisimapStore_BeginScan rel keys).*1.
Proof.
  unfold AppendOnlyVisimapStore_BeginScan. rewrite merge_sort_Permutation.
  rewrite (list_omap_ext _ (λ '(i, v), (λ w, (i, w)) <$> (if visible v && keys (row v) then Some (row v) else None)) _ (zip (seq 0 (length rel)) rel)).
  - apply NoDup_omap_fst. rewrite fst_zip by (rewrite length_seq; lia). apply NoDup_seq.
  - apply Forall_Forall2_diag, Forall_forall. intros [i v] _. by destruct (_ && _).
Qed.

Lemma singleton_scan rel keys i r : (i, r) ∈ AppendOnlyVisimapStore_BeginScan rel keys →
  (∀ j r', (j, r') ∈ AppendOnlyVisimapStore_BeginScan rel keys → j = i) →
  AppendOnlyVisimapStore_BeginScan rel keys = [(i, r)].
Proof.
  pose proof (scan_NoDup rel keys) as Hnd. destruct (AppendOnlyVisimapStore_BeginScan rel keys) as [|[j q] l]; [set_solver|].
  intros Hin Hall. assert (j = i) as -> by (apply (Hall j q); set_solver). cbn in Hnd. apply NoDup_cons in Hnd as [Hn _].
  assert (l = []) as ->.
  { destruct l as [|[j q'] l]; [done|]. destruct Hn. rewrite (Hall j q') by set_solver. set_solver. }
  apply list_elem_of_singleton in Hin. by rewrite Hin.
Qed.

(** The version that a tid in an entry stands for: the live version of the entry, or none. *)
Definition tid_ok (rel : list Version) (k : Z * Z) (tid : option nat) : Prop :=
  match tid with
  | Some i => ∃ v, rel !! i = Some v ∧ live v = true ∧ row_key (row v) = k
  | None => ∀ i v, rel !! i = Some v → live v = true → row_key (row v) ≠ k
  end.

Lemma find_ok rel S k e : represents rel S → key_ok k → length (data e) = APPENDONLY_VISIMAP_DATA_BUFFER_SIZE →
  (AppendOnlyVisimapStore_Find rel k.1 k.2 e = Ok None ∧ tid_ok rel k None ∧ agrees S k None) ∨
  (∃ d b i, AppendOnlyVisimapStore_Find rel k.1 k.2 e = Ok (Some (MkEntry d b k.1 k.2 (dirty e) (Some i))) ∧
     length d = APPENDONLY_VISIMAP_DATA_BUFFER_SIZE ∧ bm_ok b ∧ tid_ok rel k (Some i) ∧ agrees S k b).
Proof.
  intros [Hset (Hrow & Huniq & Hp)] Hk Hl. unfold AppendOnlyVisimapStore_Find.
  set (keys := λ r, (segno r =? k.1) && (first_row_no r =? k.2)).
  assert (∀ r, keys r = true ↔ row_key r = k) as Hkeys.
  { intros r. unfold keys, row_key. destruct k as [s f]. cbn [fst snd]. rewrite andb_true_iff, !Z.eqb_eq. naive_solver. }
  destruct (AppendOnlyVisimapStore_BeginScan rel keys) as [|[i r] l] eqn:E.
  - left. split; [done|].
    assert (tid_ok rel k None) as Ht.
    { intros i v Hi Hv Hr. assert ((i, row v) ∈ AppendOnlyVisimapStore_BeginScan rel keys) as Hin; [|rewrite E in Hin; set_solver].
      apply elem_of_scan. exists v. rewrite Hkeys. naive_solver. }
    split; [done|]. intros y Hy. split; [by intros ?%elem_None|].
    intros Hin. destruct (Hp _ Hin) as (_ & _ & [[]|(i & v & Hi & Hv & Hr)]). rewrite pair_key_off in Hr by done. destruct (Ht i v Hi Hv Hr).
  - right. assert ((i, r) ∈ AppendOnlyVisimapStore_BeginScan rel keys) as Hin by (rewrite E; set_solver).
    pose proof Hin as (v & Hi & Hv & Hr & <-)%elem_of_scan. rewrite Hset with i v in Hv by done. apply Hkeys in Hr.
    rewrite <- E, (singleton_scan _ _ _ _ Hin).
    2: { intros j r' (w & Hj & Hw & Hr' & <-)%elem_of_scan. rewrite Hset with j w in Hw by done. apply Hkeys in Hr'.
         apply (Huniq j i w v); congruence. }
    destruct (Hrow i v Hi Hv) as (_ & b & Hb & [[]|Ha]). unfold AppendOnlyVisimapStore_GetNext. cbn [AppendOnlyVisimapStore_GetNextTuple reverse rev_append].
    destruct (copyout_ok e (row v) b Hb Hl) as (d & -> & Hd). cbn. rewrite Hr in Ha.
    exists d, b, i. unfold row_key in Hr. subst k. cbn. split; [done|]. split; [done|]. split; [apply Hb|]. split; [by exists v|done].
Qed.

(** ** Writing *)

Definition dead (v : Version) : Version := MkVersion (row v) (visible v) false.

(** The relation after the entry with the given tid is stored as [r]. *)
Definition stored (rel : list Version) (tid : option nat) (r : VisimapRow) : list Version :=
  match tid with Some i => alter dead i rel | None => rel end ++ [MkVersion r false true].

Lemma write_ok e k : entry_at e k → ∃ r d b, AppendOnlyVisimapEntry_Write e
    = Ok (r, MkEntry d (bitmap e) (segmentFileNum e) (firstRowNum e) false (tupleTid e)) ∧
  length d = APPENDONLY_VISIMAP_DATA_BUFFER_SIZE ∧ row_key r = k ∧ row_bm r b ∧ ∀ y, elem y b ↔ elem y (bitmap e).
Proof.
  intros (Hl & Hs & Hf & Hk & Hb). unfold AppendOnlyVisimapEntry_Write, row_key. destruct k as [s f]. cbn [fst snd] in *.
  destruct (bms_is_empty (bitmap e)) eqn:Em.
  - eexists _, _, None. split; [done|]. split; [done|]. cbn. split; [congruence|]. split; [by split; [apply bm_ok_None|]|].
    intros y. split; [by intros ?%elem_None|].
    intros He. assert (bms_is_empty (bitmap e) = false); [|congruence]. apply is_empty_elem; [apply Hb|by eexists].
  - destruct (write_data_ok e Hb Hl) as (d & v & rest & -> & -> & Hv & Hd). cbn [mbind result_bind data].
    destruct (varlena_length _ _ Hv) as [_ Hsz]. rewrite Hsz, Nat2Z.id, take_app_length.
    eexists _, _, (bitmap e). split; [done|]. split; [done|]. cbn. split; [congruence|]. split; [|done]. split; [done|].
    cbn. exists (bm_words (bitmap e)). split; [done|]. symmetry. by apply bm_words_ok.
Qed.

Lemma stored_lookup rel tid r j v : tid_ok rel (row_key r) tid → stored rel tid r !! j = Some v →
  (j < length rel)%nat ∧ (tid ≠ Some j ∧ rel !! j = Some v ∨ tid = Some j ∧ live v = false) ∨
  j = length rel ∧ v = MkVersion r false true.
Proof.
  unfold stored. intros Ht Hj.
  set (rel' := match tid with Some i => alter dead i rel | None => rel end) in *.
  assert (length rel' = length rel) as Hl by (unfold rel'; destruct tid; rewrite ?length_alter; done).
  apply lookup_app_Some in Hj as [Hj|[Hge Hj]].
  - left. pose proof (lookup_lt_Some _ _ _ Hj). split; [lia|]. unfold rel' in Hj. destruct tid as [i|]; [|by left].
    destruct (decide (i = j)) as [->|Hne].
    + right. split; [done|]. rewrite list_lookup_alter_eq in Hj. by destruct (rel !! j); simplify_eq/=.
    + rewrite list_lookup_alter_ne in Hj by done. left. split; [congruence|done].
  - right. apply list_lookup_singleton_Some in Hj as [Hz <-]. split; [lia|done].
Qed.

Lemma stored_other rel tid r j v : tid_ok rel (row_key r) tid → rel !! j = Some v → row_key (row v) ≠ row_key r →
  stored rel tid r !! j = Some v.
Proof.
  intros Ht Hj Hne. pose proof (lookup_lt_Some _ _ _ Hj). unfold stored. rewrite lookup_app_l by (destruct tid; rewrite ?length_alter; lia).
  destruct tid as [i|]; [|done]. rewrite list_lookup_alter_ne; [done|]. intros ->.
  destruct Ht as (w & Hw & _ & Hk). congruence.
Qed.

Lemma stored_new rel tid r : stored rel tid r !! length rel = Some (MkVersion r false true).
Proof. unfold stored. apply list_lookup_middle. destruct tid; by rewrite ?length_alter. Qed.

Definition live_unique (rel : list Version) : Prop :=
  ∀ i j v w, rel !! i = Some v → rel !! j = Some w → live v = true → live w = true → row_key (row v) = row_key (row w) → i = j.

(** No live version but the new one has its key. *)
Lemma stored_fresh rel tid r j v : live_unique rel → tid_ok rel (row_key r) tid →
  stored rel tid r !! j = Some v → live v = true → row_key (row v) = row_key r → j = length rel.
Proof.
  intros Hu Ht Hj Hv Hk. destruct (stored_lookup _ _ _ _ _ Ht Hj) as [(Hlt & [[Hne Hjv]|[_ Hd]])|[Hj' _]]; [|congruence|done].
  destruct tid as [i|]; [|destruct (Ht j v Hjv Hv Hk)]. destruct Ht as (w & Hw & Hwl & Hwk).
  destruct Hne. f_equal. apply (Hu i j w v); congruence.
Qed.

Lemma stored_index rel tid r : live_unique rel → tid_ok rel (row_key r) tid →
  CatalogUpdateIndexes (stored rel tid r) r = Ok (stored rel tid r).
Proof.
  intros Hu Ht. unfold CatalogUpdateIndexes.
  assert (filter (λ v, live v = true ∧ row_key (row v) = row_key r) (stored rel tid r) = [MkVersion r false true]) as ->; [|done].
  unfold stored at 1. rewrite filter_app, (filter_none _ (match tid with Some i => alter dead i rel | None => rel end)); [by rewrite filter_cons_True|].
  intros v [j Hj]%list_elem_of_lookup [Hv Hk].
  assert (j < length rel)%nat by (apply lookup_lt_Some in Hj; destruct tid; rewrite ?length_alter in Hj; done).
  assert (j = length rel); [|lia]. apply (stored_fresh rel tid r j v); try done. unfold stored. by apply lookup_app_l_Some.
Qed.

Lemma stored_unique rel tid r : live_unique rel → tid_ok rel (row_key r) tid → live_unique (stored rel tid r).
Proof.
  intros Hu Ht i j v w Hi Hj Hv Hw Hk.
  destruct (decide (row_key (row v) = row_key r)) as [E|E].
  - transitivity (length rel); [|symmetry]; eapply stored_fresh; try done; congruence.
  - destruct (stored_lookup _ _ _ _ _ Ht Hi) as [(_ & [[_ Hi']|[_ ?]])|[_ ->]]; [|congruence|done].
    destruct (stored_lookup _ _ _ _ _ Ht Hj) as [(_ & [[_ Hj']|[_ ?]])|[_ ->]]; [|congruence|done]. by apply (Hu i j v w).
Qed.

Lemma stored_tid rel tid r k t : tid_ok rel (row_key r) tid → k ≠ row_key r → tid_ok rel k t → tid_ok (stored rel tid r) k t.
Proof.
  intros Ht Hne. destruct t as [i|]; cbn [tid_ok].
  - intros (v & Hi & Hv & <-). exists v. split; [|done]. by apply stored_other.
  - intros Hn i v Hi Hv Hk. destruct (stored_lookup _ _ _ _ _ Ht Hi) as [(_ & [[_ Hi']|[_ ?]])|[_ ->]]; [|congruence|].
    + by apply (Hn i v).
    + cbn in Hk. congruence.
Qed.

Lemma stored_reads P rel S tid r b : reads_but P live rel S → tid_ok rel (row_key r) tid →
  key_ok (row_key r) → row_bm r b → agrees S (row_key r) b →
  reads_but (λ k, P k ∧ k ≠ row_key r) live (stored rel tid r) S.
Proof.
  intros (Hrow & Hu & Hp) Ht Hk Hb Ha. split; [|split; [by apply stored_unique|]].
  - intros i v Hi Hv. destruct (stored_lookup _ _ _ _ _ Ht Hi) as [(_ & [[_ Hi']|[_ ?]])|[_ ->]]; [|congruence|].
    + destruct (Hrow i v Hi' Hv) as (Hkv & b' & Hb' & Hor). split; [done|]. exists b'. split; [done|].
      destruct (decide (row_key (row v) = row_key r)) as [E|E]; [|tauto].
      pose proof (stored_fresh rel tid r i v Hu Ht Hi Hv E). apply lookup_lt_Some in Hi'. lia.
    + cbn. split; [done|]. exists b. tauto.
  - intros p Hin. destruct (Hp p Hin) as (H1 & H2 & Hor). split; [done|]. split; [done|].
    destruct (decide (pair_key p = row_key r)) as [E|E].
    + right. eexists _, _. split; [apply stored_new|]. by cbn.
    + destruct Hor as [?|(i & v & Hi & Hv & Hkv)]; [by left|]. right. exists i, v. split; [|done].
      apply stored_other; [done..|]. congruence.
Qed.

Lemma store_entry_ok P rel S e k : reads_but P live rel S → entry_at e k → agrees S k (bitmap e) → tid_ok rel k (tupleTid e) →
  ∃ rel' d, AppendOnlyVisimapStore_Store rel e
      = Ok (rel', MkEntry d (bitmap e) (segmentFileNum e) (firstRowNum e) false None) ∧
    length d = APPENDONLY_VISIMAP_DATA_BUFFER_SIZE ∧ reads_but (λ k', P k' ∧ k' ≠ k) live rel' S ∧
    ∀ k' t, k' ≠ k → tid_ok rel k' t → tid_ok rel' k' t.
Proof.
  intros Hr He Ha Ht. destruct (write_ok e k He) as (r & d & b & Ew & Hd & <- & Hb & Hel). unfold AppendOnlyVisimapStore_Store.
  rewrite Ew. cbn [mbind result_bind tupleTid].
  assert (match tupleTid e with Some tid => simple_heap_update rel tid r | None => Ok (simple_heap_insert rel r) end
          = Ok (stored rel (tupleTid e) r)) as ->.
  { destruct (tupleTid e) as [i|]; [|done]. destruct Ht as (v & Hi & Hv & _).
    unfold simple_heap_update, simple_heap_delete, simple_heap_insert, stored. rewrite Hi, Hv. cbn. do 2 f_equal.
    apply list_eq. intros j. destruct (decide (i = j)) as [<-|Hne].
    - rewrite list_lookup_insert_eq by (by eapply lookup_lt_Some). by rewrite list_lookup_alter_eq, Hi.
    - by rewrite list_lookup_insert_ne, list_lookup_alter_ne. }
  cbn [mbind result_bind]. rewrite stored_index by (done || exact (proj1 (proj2 Hr))). cbn [mbind result_bind].
  exists (stored rel (tupleTid e) r), d. split; [done|]. split; [done|]. split.
  - apply (stored_reads P _ _ _ _ b); try done; [apply He|]. intros y Hy. rewrite Hel. by apply Ha.
  - intros k' t Hne. by apply stored_tid.
Qed.

Lemma reads_weaken P Q f rel S : (∀ k, P k → Q k) → reads_but P f rel S → reads_but Q f rel S.
Proof.
  intros HPQ (Hrow & Hu & Hp). split; [|split; [done|]].
  - intros i v Hi Hv. destruct (Hrow i v Hi Hv) as (Hk & b & Hb & [?|?]); split; eauto 6.
  - intros p Hin. destruct (Hp p Hin) as (? & ? & [?|?]); eauto.
Qed.

Lemma next_represents rel S : reads live rel S → represents (next_command rel) S.
Proof.
  intros (Hrow & Hu & Hp). unfold next_command. split.
  { intros i v (w & -> & _)%list_lookup_fmap_Some. done. }
  split; [|split].
  - intros i v (w & -> & Hi)%list_lookup_fmap_Some Hv. cbn in *. by apply (Hrow i).
  - intros i j v w (v' & -> & Hi)%list_lookup_fmap_Some (w' & -> & Hj)%list_lookup_fmap_Some Hv Hw Hk. cbn in *. by apply (Hu i j v' w').
  - intros p Hin. destruct (Hp p Hin) as (? & ? & [[]|(i & v & Hi & Hv & Hk)]). split; [done|]. split; [done|].
    right. exists i, (MkVersion (row v) (live v) (live v)). rewrite list_lookup_fmap, Hi. done.
Qed.

End VisimapStoreSpec.
