(* ===== verification/VisimapScanSpec.v ===== *)
(** What the scans over the visibility map relation deliver. *)
From Stdlib Require Import ZArith Lia Sorted.
From stdpp Require Import base list option numbers strings gmap sorting.
From S2P Require Import Prelude Bitmapset BitmapsetSpec BitComp BitCompSpec Visimap VisimapSpec VisimapStoreSpec.
Import Bitmapset BitmapsetSpec BitComp BitCompSpec Visimap VisimapSpec VisimapStoreSpec.

Module VisimapScanSpec.

(** ** The rows of a scan and their bitmaps *)

(** The bitmap that the bytes of a row stand for. *)
Definition bm_of (r : VisimapRow) : option Bitmapset :=
  match AppendOnlyVisimapEntry_Copyout (AppendOnlyVisimapEntry_Init None) r with Ok e => bitmap e | Err _ => None end.

Lemma bm_of_row r b : row_bm r b → bm_of r = b.
Proof. intros Hr. unfold bm_of. destruct (copyout_ok (AppendOnlyVisimapEntry_Init None) r b Hr) as (d & -> & _); done. Qed.

Definition good_row (S : gset (Z * Z)) (r : VisimapRow) : Prop :=
  row_bm r (bm_of r) ∧ key_ok (row_key r) ∧ agrees S (row_key r) (bm_of r).

(** The scan delivers the entries in the order of their keys. *)
Definition key_lt (k k' : Z * Z) : Prop := k.1 < k'.1 ∨ k.1 = k'.1 ∧ k.2 < k'.2.

#[export] Instance key_le_trans : Transitive key_le.
Proof. intros a b c. unfold key_le. lia. Qed.
#[export] Instance key_le_total : Total key_le.
Proof. intros a b. unfold key_le. lia. Qed.

Lemma strictly_sorted (l : list (nat * VisimapRow)) : StronglySorted key_le l → NoDup (row_key ∘ snd <$> l) →
  StronglySorted key_lt (row_key ∘ snd <$> l).
Proof.
  induction 1 as [|a l Hs IH Ha]; cbn; [constructor|]. intros [Hn Hnd]%NoDup_cons. constructor; [by apply IH|].
  apply Forall_forall. intros k Hk. pose proof Hk as (b & -> & Hb)%list_elem_of_fmap. rewrite Forall_forall in Ha.
  specialize (Ha b Hb). unfold key_le, key_lt in *. cbn in *. assert (row_key a.2 ≠ row_key b.2) as Hne.
  { intros E. apply Hn. rewrite E. done. }
  unfold row_key in Hne. cbn. destruct (decide (first_row_no a.2 = first_row_no b.2)); [|lia].
  destruct (decide (segno a.2 = segno b.2)); [|lia]. congruence.
Qed.

(** The entries a scan delivers are those that the relation has. *)
Lemma scan_rows rel S keys : represents rel S →
  (∀ t, t ∈ AppendOnlyVisimapStore_BeginScan rel keys → good_row S t.2 ∧ keys t.2 = true) ∧
  StronglySorted key_lt (row_key ∘ snd <$> AppendOnlyVisimapStore_BeginScan rel keys).
Proof.
  intros [Hset (Hrow & Hu & Hp)]. set (l := AppendOnlyVisimapStore_BeginScan rel keys).
  assert (∀ t, t ∈ l → ∃ v, rel !! t.1 = Some v ∧ live v = true ∧ row v = t.2 ∧ keys t.2 = true) as Hl.
  { intros [i r] (v & Hi & Hv & ? & <-)%elem_of_scan. exists v. rewrite <- (Hset i v Hi). done. }
  split.
  - intros t Ht. destruct (Hl t Ht) as (v & Hi & Hv & <- & ?). destruct (Hrow _ v Hi Hv) as (Hk & b & Hb & [[]|Ha]).
    split; [|done]. unfold good_row. rewrite (bm_of_row _ _ Hb). done.
  - apply strictly_sorted; [apply (StronglySorted_merge_sort key_le)|].
    pose proof (scan_NoDup rel keys) as Hnd. fold l in Hnd. clearbody l. induction l as [|t l IH]; [constructor|].
    cbn in *. apply NoDup_cons in Hnd as [Hn Hnd]. apply NoDup_cons. split; [|apply IH; [|done]; set_solver].
    intros (t' & E & Ht')%list_elem_of_fmap. destruct (Hl t) as (v & Hi & Hv & E1 & _); [set_solver|].
    destruct (Hl t') as (w & Hj & Hw & E2 & _); [set_solver|]. apply Hn.
    rewrite (Hu t.1 t'.1 v w) by (done || (rewrite E1, E2; exact E)). apply list_elem_of_fmap. eauto.
Qed.

Lemma scan_complete rel S keys p : represents rel S → p ∈ S → (∀ r, row_key r = pair_key p → keys r = true) →
  ∃ t, t ∈ AppendOnlyVisimapStore_BeginScan rel keys ∧ row_key t.2 = pair_key p.
Proof.
  intros [Hset (_ & _ & Hp)] Hin Hkeys. destruct (Hp p Hin) as (_ & _ & [[]|(i & v & Hi & Hv & Hk)]).
  exists (i, row v). split; [|done]. apply elem_of_scan. exists v. rewrite (Hset i v Hi). auto.
Qed.

(** ** The invisible rows *)

(** The rows of the entry [k] at the offsets [ys]. *)
Definition rows_at (k : Z * Z) (ys : list Z) : list (Z * Z) := (λ y, (k.1, k.2 + y)) <$> ys.

(** A scan of an entry starts behind the tuple id (0, 0) that it is given. *)
Definition start (k : Z * Z) : Z := if decide (k = (0, 0)) then 1 else 0.
Definition rows_from (st : Z * Z → Z) (l : list (nat * VisimapRow)) : list (Z * Z) :=
  l ≫= λ t, rows_at (row_key t.2) (members_from (bm_of t.2) (st (row_key t.2))).
Definition invisible : list (nat * VisimapRow) → list (Z * Z) := rows_from start.

Lemma members_step b lo : bm_ok b → 0 <= lo <= 32768 →
  let o := bms_first_from b lo in
  members_from b lo = if 0 <=? o then o :: members_from b (o + 1) else [].
Proof.
  intros (Hb & Hl & _) Hlo. cbn. destruct (first_from_spec b lo Hb) as [[-> Hn]|(Hle & Hel & Hn)]; [unfold is_u32; lia| |].
  - by apply members_from_nil.
  - rewrite (proj2 (Z.leb_le 0 _)) by lia. apply members_from_cons; (done || lia).
Qed.

Lemma next_in_entry e k t : entry_at e k → tid_wf t →
  let lo := if decide (id_key t = k) then id_off t + 1 else 0 in
  match members_from (bitmap e) lo with
  | [] => AppendOnlyVisimapEntry_GetNextInvisible e t = None
  | y :: ys => AppendOnlyVisimapEntry_GetNextInvisible e t = Some (tid_of k.1 (k.2 + y)) ∧ 0 <= y < 32768 ∧
               ys = members_from (bitmap e) (y + 1)
  end.
Proof.
  intros He Ht. destruct (id_split t Ht) as (_ & Ho & _). cbn zeta. set (lo := if decide _ then _ else _).
  assert (s32 ((if AppendOnlyVisimapEntry_CoversTuple e t
      then AppendOnlyVisimapEntry_GetRownumOffset e (AOTupleIdGet_rowNum t) else -1) + 1) = lo) as Elo.
  { rewrite (covers_iff e k t He Ht). unfold lo. destruct (decide (id_key t = k)) as [<-|Hne].
    - rewrite bool_decide_eq_true_2 by done. rewrite (proj1 (offset_of e t He Ht)). apply s32_id. unfold is_s32. lia.
    - rewrite bool_decide_eq_false_2 by done. done. }
  assert (0 <= lo <= 32768) as Hlo by (unfold lo; case_decide; lia).
  destruct He as (_ & Hs & Hf & Hk & Hb). pose proof (members_step (bitmap e) lo Hb Hlo) as Hm. cbn zeta in Hm.
  unfold AppendOnlyVisimapEntry_GetNextInvisible. rewrite Elo, Hs, Hf. destruct (Z.leb_spec 0 (bms_first_from (bitmap e) lo)) as [H0|H0];
    rewrite Hm; [|done]. split; [done|]. split; [|done].
  apply (bm_elem_range (bitmap e)); [done|]. apply (elem_of_members_from (bitmap e) lo); [apply Hb|]. rewrite Hm. set_solver.
Qed.

Lemma row_id k y : key_ok k → 0 <= y < 32768 →
  0 <= k.2 + y < 2 ^ 40 ∧ tid_wf (tid_of k.1 (k.2 + y)) ∧ id_key (tid_of k.1 (k.2 + y)) = k ∧ id_off (tid_of k.1 (k.2 + y)) = y.
Proof.
  intros Hk Hy. pose proof Hk as (H1 & H2 & H3). apply Z.mod_divide in H3 as [q Hq]; [|lia].
  assert (0 <= k.2 + y < 2 ^ 40) as Hr by lia. split; [done|]. pose proof (tid_of_wf k.1 (k.2 + y) H1 Hr) as Hwf. split; [done|].
  pose proof (tid_of_pair k.1 (k.2 + y) H1 Hr) as Hp. destruct (id_pair _ Hwf) as [E1 E2]. rewrite Hp, pair_key_off in E1 by done.
  split; [done|]. rewrite Hp, <- E1 in E2. injection E2. lia.
Qed.

Lemma init_id : tid_wf AOTupleIdInit_Init ∧ id_key AOTupleIdInit_Init = (0, 0) ∧ id_off AOTupleIdInit_Init = 0.
Proof. split; [|done]. unfold tid_wf, is_u16. cbn. lia. Qed.

(** The offsets of an entry behind the tuple id [t]. *)
Definition behind (k : Z * Z) (b : option Bitmapset) (t : AOTupleId) : list Z :=
  members_from b (if decide (id_key t = k) then id_off t + 1 else 0).

Lemma behind_init k b : behind k b AOTupleIdInit_Init = members_from b (start k).
Proof.
  unfold behind, start. destruct init_id as (_ & -> & ->). destruct (decide (k = (0, 0))) as [->|Hne]; [done|].
  by rewrite decide_False.
Qed.

Lemma behind_row k b y : key_ok k → 0 <= y < 32768 → behind k b (tid_of k.1 (k.2 + y)) = members_from b (y + 1).
Proof. intros Hk Hy. destruct (row_id k y Hk Hy) as (_ & _ & E & Eo). unfold behind. by rewrite decide_True, Eo. Qed.

(** The state of a scan that has still the rows [todo] to deliver. *)
Definition scan_at (S : gset (Z * Z)) (s : AppendOnlyVisimapScan) (t : AOTupleId) (todo : list (Z * Z)) : Prop :=
  isFinished s = false ∧ (∀ x, x ∈ indexScan s → good_row S x.2) ∧
  length (data (scan_entry s)) = APPENDONLY_VISIMAP_DATA_BUFFER_SIZE ∧ dirty (scan_entry s) = false ∧
  (AppendOnlyVisimapEntry_IsValid (scan_entry s) = false ∧ todo = invisible (indexScan s) ∨
   ∃ k, entry_at (scan_entry s) k ∧ tid_wf t ∧ todo = rows_at k (behind k (bitmap (scan_entry s)) t) ++ invisible (indexScan s)).

Definition delivers (S : gset (Z * Z)) (n : nat) (todo : list (Z * Z)) (r : result (bool * AOTupleId * AppendOnlyVisimapScan)) : Prop :=
  match todo with
  | [] => ∃ t s, r = Ok (false, t, s) ∧ dirty (scan_entry s) = false
  | p :: todo => ∃ s, r = Ok (true, tid_of p.1 p.2, s) ∧ scan_at S s (tid_of p.1 p.2) todo ∧ (length (indexScan s) ≤ n)%nat ∧
                 0 <= p.1 < 2 ^ 7 ∧ 0 <= p.2 < 2 ^ 40
  end.

Lemma entry_valid e k : entry_at e k → AppendOnlyVisimapEntry_IsValid e = true.
Proof.
  intros (_ & Hs & Hf & (H1 & H2 & _) & _). unfold AppendOnlyVisimapEntry_IsValid. rewrite Hs, Hf.
  rewrite !(proj2 (Z.leb_le 0 _)) by lia. done.
Qed.

(** The second half of a round, in an entry. *)
Lemma look_ok S s t k todo fuel n : scan_at S s t todo → entry_at (scan_entry s) k → tid_wf t →
  todo = rows_at k (behind k (bitmap (scan_entry s)) t) ++ invisible (indexScan s) → (length (indexScan s) ≤ n)%nat →
  (∀ s t todo, scan_at S s t todo → AppendOnlyVisimapEntry_IsValid (scan_entry s) = false → (length (indexScan s) ≤ n)%nat →
     delivers S n todo (next_invisible fuel s t)) →
  delivers S n todo
    match AppendOnlyVisimapEntry_GetNextInvisible (scan_entry s) t with
    | None => next_invisible fuel (set_entry s (AppendOnlyVisimapEntry_Reset (scan_entry s)) (indexScan s) (isFinished s)) t
    | Some t => Ok (true, t, s)
    end.
Proof.
  intros (Hf & Hg & Hl & Hd & _) He Ht -> Hn IH. pose proof (next_in_entry _ _ _ He Ht) as Hnext. cbn zeta in Hnext.
  fold (behind k (bitmap (scan_entry s)) t) in Hnext. destruct (behind k (bitmap (scan_entry s)) t) as [|y ys].
  - rewrite Hnext. cbn [rows_at fmap list_fmap app]. apply IH; [|done|done].
    split; [done|]. split; [done|]. split; [done|]. split; [done|]. by left.
  - destruct Hnext as (-> & Hy & ->). assert (key_ok k) as Hk by apply He. destruct (row_id k y Hk Hy) as (Hr & Hwf & _ & _).
    cbn [rows_at fmap list_fmap app delivers fst snd]. exists s. split; [done|]. split; [|split; [done|split; [apply Hk|done]]].
    split; [done|]. split; [done|]. split; [done|]. split; [done|]. right. exists k. rewrite behind_row by done. done.
Qed.

Lemma next_invalid S fuel : ∀ n s t todo, scan_at S s t todo → AppendOnlyVisimapEntry_IsValid (scan_entry s) = false →
  (length (indexScan s) ≤ n)%nat → (n < fuel)%nat → delivers S n todo (next_invisible fuel s t).
Proof.
  induction fuel as [|fuel IH]; intros n s t todo Hs Hv Hn Hfu; [lia|]. pose proof Hs as (Hf & Hg & Hl & Hd & Hcase).
  destruct Hcase as [[_ ->]|(k & He & _)]; [|apply entry_valid in He; congruence].
  cbn [next_invisible]. rewrite Hf, Hv. cbn [negb]. unfold AppendOnlyVisimapStore_GetNext. cbn [AppendOnlyVisimapStore_GetNextTuple].
  destruct (indexScan s) as [|[i r] scan] eqn:Es; [by eexists _, _|].
  destruct (Hg (i, r)) as (Hrow & Hk & _); [set_solver|]. cbn [snd] in *.
  destruct (copyout_ok (scan_entry s) r (bm_of r) Hrow Hl) as (d & -> & Hdl). cbn [mbind result_bind].
  set (s' := set_entry s _ scan false). destruct init_id as (Hwi & _).
  assert (entry_at (scan_entry s') (row_key r)) as He' by exact (conj Hdl (conj eq_refl (conj eq_refl (conj Hk (proj1 Hrow))))).
  cbn [length] in Hn. destruct n as [|n]; [lia|].
  assert (scan_at S s' AOTupleIdInit_Init (rows_at (row_key r) (behind (row_key r) (bitmap (scan_entry s')) AOTupleIdInit_Init) ++ invisible (indexScan s'))) as Hs'.
  { split; [done|]. split; [intros x Hx; apply Hg; cbn in Hx; set_solver|]. split; [done|]. split; [done|]. right. eauto. }
  replace (invisible ((i, r) :: scan)) with (rows_at (row_key r) (behind (row_key r) (bitmap (scan_entry s')) AOTupleIdInit_Init) ++ invisible (indexScan s'))
    by (rewrite behind_init; done).
  assert (∀ r' l, delivers S n l r' → delivers S (Datatypes.S n) l r') as Hmono.
  { intros r' [|p l]; [done|]. intros (s1 & ? & ? & ? & ?). exists s1. repeat (split; [done|]). split; [lia|done]. }
  apply Hmono. apply (look_ok S s' _ (row_key r) _ fuel n Hs' He' Hwi eq_refl); [cbn; lia|].
  intros s1 t1 todo1 H1 Hv1 Hn1. apply IH; (done || lia).
Qed.

Lemma get_next_ok S s t todo : scan_at S s t todo →
  delivers S (length (indexScan s)) todo (AppendOnlyVisimapScan_GetNextInvisible s t).
Proof.
  intros Hs. unfold AppendOnlyVisimapScan_GetNextInvisible. destruct (AppendOnlyVisimapEntry_IsValid (scan_entry s)) eqn:Hv.
  - pose proof Hs as (Hf & _ & _ & _ & [[? _]|(k & He & Ht & E)]); [congruence|]. cbn [Nat.add next_invisible]. rewrite Hf, Hv. cbn [negb].
    pose proof (look_ok S s t k todo (1 + length (indexScan s)) (length (indexScan s)) Hs He Ht E ltac:(lia)) as Hlook.
    rewrite Hf in Hlook. apply Hlook. intros s1 t1 todo1 H1 Hv1 Hn1. apply next_invalid; (done || lia).
  - apply next_invalid; (done || lia).
Qed.

(** ** All calls of a scan *)

Definition out_rows (l : list (Z * Z)) : list (AOTupleId * Z * Z) := (λ p, (tid_of p.1 p.2, p.1, p.2)) <$> l.

Lemma calls_ok S todo : ∀ fuel s t, scan_at S s t todo → (length todo < fuel)%nat →
  gp_aovisimap_calls fuel s t = Ok (out_rows todo).
Proof.
  induction todo as [|p todo IH]; intros [|fuel] s t Hs Hf; cbn [length] in Hf; try lia; cbn [gp_aovisimap_calls].
  - destruct (get_next_ok S s t [] Hs) as (t' & s' & -> & Hd). cbn [mbind result_bind].
    unfold AppendOnlyVisimapScan_Finish, AppendOnlyVisimap_Finish, store_if_changed, AppendOnlyVisimapEntry_HasChanged.
    unfold scan_entry in Hd. rewrite Hd. done.
  - destruct (get_next_ok S s t _ Hs) as (s' & -> & Hs' & _ & H1 & H2). cbn [mbind result_bind].
    rewrite (IH fuel s' _ Hs') by lia. cbn [mbind result_bind out_rows fmap list_fmap].
    pose proof (tid_of_pair p.1 p.2 H1 H2) as [= -> ->]. done.
Qed.

Lemma members_length b lo : bm_ok b → 0 <= lo → Z.of_nat (length (members_from b lo)) <= APPENDONLY_VISIMAP_MAX_RANGE.
Proof.
  intros (_ & Hl & _) Hlo. unfold members_from.
  pose proof (length_filter (λ x, elem x b) (seqZ lo (32 * Z.of_nat (bms_len b) - lo))) as H. rewrite length_seqZ in H.
  unfold APPENDONLY_VISIMAP_MAX_RANGE. lia.
Qed.

Lemma invisible_length S l : (∀ x, x ∈ l → good_row S x.2) →
  Z.of_nat (length (invisible l)) <= APPENDONLY_VISIMAP_MAX_RANGE * Z.of_nat (length l).
Proof.
  intros Hg. induction l as [|x l IH]; [cbn; lia|]. unfold invisible, rows_from in *. cbn [mbind list_bind length]. rewrite length_app.
  unfold rows_at at 1. rewrite length_fmap. destruct (Hg x) as (Hr & _ & _); [set_solver|].
  pose proof (members_length (bm_of x.2) (start (row_key x.2)) (proj1 Hr) ltac:(unfold start; case_decide; lia)).
  specialize (IH ltac:(set_solver)). lia.
Qed.

Lemma scan_length rel keys : (length (AppendOnlyVisimapStore_BeginScan rel keys) ≤ length rel)%nat.
Proof.
  unfold AppendOnlyVisimapStore_BeginScan. rewrite merge_sort_Permutation. 
  assert (∀ {A B} (f : A → option B) l, (length (omap f l) ≤ length l)%nat) as H.
  { intros A B f l. induction l as [|x l IH]; cbn; [lia|]. destruct (f x); cbn; lia. }
  etransitivity; [apply H|]. rewrite length_zip. lia.
Qed.

Lemma elem_of_rows S st l s r : (∀ x, x ∈ l → good_row S x.2) →
  (s, r) ∈ rows_from st l ↔ (s, r) ∈ S ∧ st (pair_key (s, r)) <= r mod 32768 ∧ ∃ x, x ∈ l ∧ row_key x.2 = pair_key (s, r).
Proof.
  intros Hg. unfold rows_from. rewrite list_elem_of_bind. split.
  - intros (x & Hin & Hx). destruct (Hg x Hx) as ((Hb & _) & Hk & Ha). apply list_elem_of_fmap in Hin as (y & E & Hy).
    apply elem_of_members_from in Hy as [Hst Hel]; [|apply Hb]. pose proof (bm_elem_range _ _ Hb Hel) as Hyr.
    rewrite E, pair_key_off by done. split; [by apply Ha|]. split; [|eauto]. apply (f_equal snd) in E. cbn [snd] in E. rewrite E.
    destruct Hk as (_ & _ & Hm). rewrite Z.add_mod, Hm, Z.add_0_l, Z.mod_mod, (Z.mod_small y) by lia. done.
  - intros (Hin & Hst & x & Hx & Hk). exists x. split; [|done]. destruct (Hg x Hx) as ((Hb & _) & Hko & Ha).
    apply list_elem_of_fmap. exists (r mod 32768). pose proof (Z.div_mod r 32768 ltac:(lia)) as Hdm.
    pose proof (Z.mod_pos_bound r 32768 ltac:(lia)) as Hmb.
    assert ((s, r) = ((row_key x.2).1, (row_key x.2).2 + r mod 32768)) as E by (rewrite Hk; unfold pair_key; cbn [fst snd]; f_equal; lia).
    split; [done|]. apply elem_of_members_from; [apply Hb|]. rewrite Hk. split; [done|]. apply Ha; [done|]. by rewrite <- E.
Qed.

(** The scan misses the row (0, 0) only. *)
Lemma start_row s r : 0 <= r → start (pair_key (s, r)) <= r mod 32768 ↔ (s, r) ≠ (0, 0).
Proof.
  intros Hr. unfold start, pair_key. cbn [fst snd]. pose proof (Z.div_mod r 32768 ltac:(lia)). pose proof (Z.mod_pos_bound r 32768 ltac:(lia)).
  case_decide as E.
  - injection E as -> E. split; [intros ? [= ->]; done|]. intros Hne. destruct (decide (r = 0)); [congruence|]. lia.
  - split; [|lia]. intros _ [= -> ->]. by apply E.
Qed.

Lemma sorted_app {A} (R : A → A → Prop) l l' : StronglySorted R l → StronglySorted R l' →
  (∀ x y, x ∈ l → y ∈ l' → R x y) → StronglySorted R (l ++ l').
Proof.
  intros Hl Hl' Hc. induction Hl as [|x l Hs IH Hx]; [done|]. cbn. constructor; [apply IH; set_solver|].
  apply Forall_app. split; [done|]. apply Forall_forall. set_solver.
Qed.

Lemma sorted_members b lo : StronglySorted Z.lt (members_from b lo).
Proof. apply sorted_filter, seqZ_sorted. Qed.

Lemma sorted_rows_at k ys : StronglySorted Z.lt ys → StronglySorted key_lt (rows_at k ys).
Proof.
  induction 1 as [|y ys Hs IH Hy]; [constructor|]. cbn. constructor; [done|]. apply Forall_forall.
  intros p (y' & -> & Hin)%list_elem_of_fmap. rewrite Forall_forall in Hy. specialize (Hy y' Hin). right. cbn. lia.
Qed.

Lemma sorted_rows S st l : (∀ x, x ∈ l → good_row S x.2) → StronglySorted key_lt (row_key ∘ snd <$> l) →
  StronglySorted key_lt (rows_from st l).
Proof.
  intros Hg. induction l as [|x l IH]; cbn; [constructor|]. intros [Hs Hx]%StronglySorted_inv. specialize (IH ltac:(set_solver) Hs).
  apply sorted_app; [apply sorted_rows_at, sorted_members|done|].
  intros p [s r] (y & -> & Hy)%list_elem_of_fmap Hq. destruct (Hg x) as ((Hb & _) & Hk & _); [set_solver|].
  apply elem_of_members_from in Hy as [_ Hel]; [|apply Hb]. pose proof (bm_elem_range _ _ Hb Hel) as Hyr.
  apply (elem_of_rows S) in Hq as (_ & _ & x' & Hx' & Hk'); [|set_solver]. rewrite Forall_forall in Hx.
  assert (key_lt (row_key x.2) (row_key x'.2)) as Hlt by (apply Hx, list_elem_of_fmap; eauto).
  destruct (Hg x') as (_ & Hko' & _); [set_solver|]. rewrite Hk' in Hlt, Hko'.
  pose proof (Z.div_mod r 32768 ltac:(lia)). pose proof (Z.mod_pos_bound r 32768 ltac:(lia)).
  destruct Hk as (_ & _ & Hm). apply Z.mod_divide in Hm as [q Hq]; [|lia].
  unfold key_lt, pair_key in *. cbn [fst snd] in *. lia.
Qed.

Lemma sorted_NoDup l : StronglySorted key_lt l → NoDup l.
Proof.
  induction 1 as [|x l Hs IH Hx]; constructor; [|done]. intros Hin. rewrite Forall_forall in Hx. specialize (Hx x Hin).
  unfold key_lt in Hx. lia.
Qed.

(** ** The number of hidden rows *)

Lemma count_ok S l : ∀ e n, (∀ x, x ∈ l → good_row S x.2) → length (data e) = APPENDONLY_VISIMAP_DATA_BUFFER_SIZE →
  ∃ e', count_hidden l e n = Ok (n + Z.of_nat (length (rows_from (λ _, 0) l)), e').
Proof.
  induction l as [|[i r] l IH]; intros e n Hg Hl; cbn [count_hidden]; [exists e; cbn; do 3 f_equal; lia|].
  destruct (Hg (i, r)) as (Hrow & _ & _); [set_solver|]. cbn [snd] in Hrow.
  destruct (copyout_ok e r (bm_of r) Hrow Hl) as (d & -> & Hd). cbn [mbind result_bind].
  edestruct (IH (MkEntry d (bm_of r) (segno r) (first_row_no r) (dirty e) (tupleTid e))) as (e' & ->); [set_solver|done|].
  exists e'. do 2 f_equal. unfold AppendOnlyVisimapEntry_GetHiddenTupleCount. cbn [bitmap]. rewrite num_members_length by apply Hrow.
  unfold rows_from. cbn [mbind list_bind snd]. rewrite length_app. unfold rows_at at 2. rewrite length_fmap. unfold members. lia.
Qed.

(** A scan with the keys of whole entries sees the rows of these entries. *)
Lemma scan_size rel S keys (P : Z * Z → Prop) `{!∀ p, Decision (P p)} : represents rel S →
  (∀ p r, p ∈ S → row_key r = pair_key p → keys r = true ↔ P p) →
  length (rows_from (λ _, 0) (AppendOnlyVisimapStore_BeginScan rel keys)) = size (filter P S).
Proof.
  intros Hrep HP. destruct (scan_rows rel S keys Hrep) as [Hg Hs]. set (l := AppendOnlyVisimapStore_BeginScan rel keys) in *.
  assert (∀ x, x ∈ l → good_row S x.2) as Hg' by (intros x Hx; apply (Hg x Hx)).
  rewrite <- (size_list_to_set (C := gset (Z * Z))) by (apply sorted_NoDup, (sorted_rows S); done). f_equal. apply set_eq. intros [s r].
  rewrite elem_of_list_to_set, (elem_of_rows S), elem_of_filter by done. split.
  - intros (Hin & _ & x & Hx & Hk). split; [|done]. apply (HP _ x.2 Hin Hk). apply (Hg x Hx).
  - intros [Hp Hin]. split; [done|]. split; [apply Z.mod_pos_bound; lia|].
    apply (scan_complete rel S); [done..|]. intros r' Hr'. by apply (HP _ r' Hin Hr').
Qed.

(** ** Deleting the entries of a segment file *)

Lemma delete_tuples_ok l : ∀ rel, NoDup l.*1 → (∀ x, x ∈ l → ∃ v, rel !! x.1 = Some v ∧ live v = true) →
  ∃ rel', delete_tuples rel l = Ok rel' ∧ ∀ i, rel' !! i = if decide (i ∈ l.*1) then dead <$> rel !! i else rel !! i.
Proof.
  induction l as [|[j r] l IH]; intros rel Hnd Hl; [by exists rel|]. cbn in Hnd. apply NoDup_cons in Hnd as [Hj Hnd].
  destruct (Hl (j, r)) as (v & Hv & Hlv); [set_solver|]. cbn [fst] in Hv. cbn [delete_tuples]. unfold simple_heap_delete.
  rewrite Hv, Hlv. cbn [mbind result_bind]. pose proof (lookup_lt_Some _ _ _ Hv) as Hlt.
  assert (∀ i, i ≠ j → <[j := MkVersion (row v) (visible v) false]> rel !! i = rel !! i) as Hother
    by (intros i Hne; by apply list_lookup_insert_ne).
  destruct (IH (<[j := MkVersion (row v) (visible v) false]> rel) Hnd) as (rel' & -> & Hrel').
  { intros x Hx. rewrite Hother; [apply Hl; set_solver|]. intros E. apply Hj. rewrite <- E. apply list_elem_of_fmap. eauto. }
  exists rel'. split; [done|]. intros i. rewrite Hrel'. cbn [fmap list_fmap fst]. destruct (decide (i = j)) as [->|Hne].
  - rewrite decide_False by done. rewrite decide_True by set_solver. rewrite list_lookup_insert_eq by done. by rewrite Hv.
  - rewrite Hother by done. by rewrite (decide_ext (i ∈ l.*1) (i ∈ j :: l.*1)) by set_solver.
Qed.

Lemma delete_segment_ok rel S seg : represents rel S →
  ∃ rel', AppendOnlyVisimapStore_DeleteSegmentFile rel seg = Ok rel' ∧ reads live rel' (filter (λ p, p.1 ≠ seg) S).
Proof.
  intros [Hset (Hrow & Hu & Hp)]. unfold AppendOnlyVisimapStore_DeleteSegmentFile.
  set (l := AppendOnlyVisimapStore_BeginScan rel (λ r, segno r =? seg)).
  assert (∀ i v, rel !! i = Some v → live v = true → i ∈ l.*1 ↔ segno (row v) = seg) as Hl.
  { intros i v Hi Hv. rewrite list_elem_of_fmap. split.
    - intros ([j r] & E & (w & Hw & _ & Hr & <-)%elem_of_scan). cbn in E. subst j. simplify_eq. by apply Z.eqb_eq.
    - intros Hs. exists (i, row v). split; [done|]. apply elem_of_scan. exists v. rewrite (Hset i v Hi), Z.eqb_eq. done. }
  destruct (delete_tuples_ok l rel (scan_NoDup _ _)) as (rel' & -> & Hrel').
  { intros [i r] (v & Hi & Hv & _ & _)%elem_of_scan. exists v. rewrite <- (Hset i v Hi). done. }
  assert (∀ i v, rel' !! i = Some v ∧ live v = true ↔ rel !! i = Some v ∧ live v = true ∧ segno (row v) ≠ seg) as Hlive.
  { intros i v. rewrite Hrel'. destruct (rel !! i) as [w|] eqn:Hi; [|split; [by case_decide; intros [? _]|by intros [? _]]].
    destruct (decide (i ∈ l.*1)) as [Hin|Hin]; cbn; (split; [intros [[= <-] Hv]|intros ([= <-] & Hv & Hs)]); [done| | |done].
    - by apply (Hl i w Hi Hv) in Hin.
    - split; [done|]. split; [done|]. by rewrite <- (Hl i w Hi Hv). }
  exists rel'. split; [done|]. split; [|split].
  - intros i v Hi Hv. destruct (proj1 (Hlive i v) (conj Hi Hv)) as (Hi' & _ & Hs). destruct (Hrow i v Hi' Hv) as (Hk & b & Hb & [[]|Ha]).
    split; [done|]. exists b. split; [done|]. right. intros y Hy. rewrite (Ha y Hy), elem_of_filter. cbn. tauto.
  - intros i j v w Hi Hj Hv Hw Hk. destruct (proj1 (Hlive i v) (conj Hi Hv)) as (Hi' & _). destruct (proj1 (Hlive j w) (conj Hj Hw)) as (Hj' & _).
    by apply (Hu i j v w).
  - intros p [Hne Hin]%elem_of_filter. destruct (Hp p Hin) as (? & ? & [[]|(i & v & Hi & Hv & Hk)]). split; [done|]. split; [done|].
    right. exists i, v. destruct (proj2 (Hlive i v)) as [? ?]; [|done]. split; [done|]. split; [done|]. unfold row_key, pair_key in Hk.
    congruence.
Qed.

End VisimapScanSpec.
