(* ===== verification/VisimapDelete.v ===== *)
(** Deleting through the visibility map: the second half of
    backend/access/appendonly/appendonly_visimap.c, and the delete descriptor of
    appendonlyam.c.

    The entries that a command has changed and left are kept in a work file; a hash table
    tells for each of them where its newest copy is. *)
From stdpp Require Import base list option numbers strings gmap.
From S2P Require Import Prelude Bitmapset BitComp Visimap.
Import Bitmapset BitComp Visimap.

Module VisimapDelete.

(** ** The work file *)

Record ExecWorkFile := MkFile { content : list Z; position : nat }.

Definition ExecWorkFile_Seek (f : ExecWorkFile) (offset : Z) : ExecWorkFile := MkFile (content f) (Z.to_nat offset).
Definition ExecWorkFile_GetSize (f : ExecWorkFile) : Z := Z.of_nat (length (content f)).
Definition ExecWorkFile_Read (f : ExecWorkFile) (size : nat) : list Z * ExecWorkFile :=
  let d := take size (drop (position f) (content f)) in (d, MkFile (content f) (position f + length d)).
(** A write behind the end fills the gap with zeros. *)
Definition ExecWorkFile_Write (f : ExecWorkFile) (d : list Z) : ExecWorkFile :=
  MkFile (resize (position f) 0 (content f) ++ d ++ drop (position f + length d) (content f)) (position f + length d).

(** ** The delete descriptor *)

(** [AppendOnlyVisiMapDeleteKey], two uint64, and its bytes. *)
Definition sizeof_key : nat := 16.
Definition u64_bytes (z : Z) : list Z := word_bytes (u32 z) ++ word_bytes (Z.shiftr z 32).
Definition u64_at (d : list Z) (o : nat) : Z := word_at_byte d o + Z.shiftl (word_at_byte d (o + 4)) 32.
Definition s64 (z : Z) : Z := (z + 2 ^ 63) mod 2 ^ 64 - 2 ^ 63.
Definition key_bytes (key : Z * Z) : list Z := u64_bytes key.1 ++ u64_bytes key.2.
Definition key_of_bytes (d : list Z) : Z * Z := (u64_at d 0, u64_at d 8).

Record AppendOnlyVisiMapDeleteData := MkDeleteData { workFileOffset : Z; stashedTid : option nat }.

Record AppendOnlyVisimapDelete := MkDelete {
  visiMap : AppendOnlyVisimap; dirtyEntryCache : gmap (Z * Z) AppendOnlyVisiMapDeleteData; workfile : ExecWorkFile }.

Definition AppendOnlyVisimapDelete_Init (m : AppendOnlyVisimap) : AppendOnlyVisimapDelete := MkDelete m ∅ (MkFile [] 0).

Definition AppendOnlyVisimapDelete_RebuildEntry (e : AppendOnlyVisimapEntry) (segno firstRowNum : Z) (tid : option nat)
    : result AppendOnlyVisimapEntry :=
  e ← AppendOnlyVisiMapEnty_ReadData (MkEntry (data e) (bitmap e) (s32 segno) (s64 firstRowNum) (dirty e) (tupleTid e))
        (VARSIZE (data e) - Z.of_nat data_offset);
  Ok (MkEntry (data e) (bitmap e) (segmentFileNum e) (Visimap.firstRowNum e) true tid).

Definition spill_error : string := "Failed to read visimap delete spill data".

Definition set_data (e : AppendOnlyVisimapEntry) (d : list Z) : AppendOnlyVisimapEntry :=
  MkEntry d (bitmap e) (segmentFileNum e) (firstRowNum e) (dirty e) (tupleTid e).

(** Reads the length word into the buffer of the entry, then the rest of the data. *)
Definition read_data (e : AppendOnlyVisimapEntry) (f : ExecWorkFile) : result (AppendOnlyVisimapEntry * ExecWorkFile) :=
  let '(d, f) := ExecWorkFile_Read f 4 in
  let e := set_data e (overwrite (data e) 0 d) in
  if negb (length d =? 4)%nat then Err spill_error
  else
    let dataLen := Z.to_nat (VARSIZE (data e)) in
    let '(d, f) := ExecWorkFile_Read f (dataLen - 4) in
    let e := set_data e (overwrite (data e) 4 d) in
    if negb (length d =? dataLen - 4)%nat then Err spill_error else Ok (e, f).

Definition AppendOnlyVisimapDelete_Unstash (del : AppendOnlyVisimapDelete) (segno firstRowNum : Z)
    (deleteData : AppendOnlyVisiMapDeleteData) : result AppendOnlyVisimapDelete :=
  let m := visiMap del in
  let f := ExecWorkFile_Seek (workfile del) (workFileOffset deleteData) in
  let '(key, f) := ExecWorkFile_Read f sizeof_key in
  if negb (length key =? sizeof_key)%nat then Err spill_error
  else
    '(e, f) ← read_data (visimapEntry m) f;
    e ← AppendOnlyVisimapDelete_RebuildEntry e segno firstRowNum (stashedTid deleteData);
    Ok (MkDelete (MkVisimap e (visimapStore m)) (dirtyEntryCache del) f).

Definition AppendOnlyVisimapDelete_Find (del : AppendOnlyVisimapDelete) (aoTupleId : AOTupleId) : result AppendOnlyVisimapDelete :=
  let firstRowNum := AppendOnlyVisimapEntry_GetFirstRowNum aoTupleId in
  let key := (AOTupleIdGet_segmentFileNum aoTupleId, u64 firstRowNum) in
  match dirtyEntryCache del !! key with
  | Some r => AppendOnlyVisimapDelete_Unstash del key.1 key.2 r
  | None =>
      m ← AppendOnlyVisimap_Find (visiMap del) aoTupleId;
      Ok (MkDelete m (dirtyEntryCache del) (workfile del))
  end.

Definition entry_key (e : AppendOnlyVisimapEntry) : Z * Z := (u64 (segmentFileNum e), u64 (firstRowNum e)).

Definition AppendOnlyVisimapDelete_Stash (del : AppendOnlyVisimapDelete) : result AppendOnlyVisimapDelete :=
  let m := visiMap del in
  let key := entry_key (visimapEntry m) in
  e ← AppendOnlyVisimapEntry_WriteData (visimapEntry m);
  let offset := ExecWorkFile_GetSize (workfile del) in
  let f := ExecWorkFile_Seek (workfile del) offset in
  let f := ExecWorkFile_Write f (key_bytes key) in
  let f := ExecWorkFile_Write f (take (Z.to_nat (VARSIZE (data e))) (data e)) in
  let r := MkDeleteData offset (tupleTid e) in
  Ok (MkDelete (MkVisimap (MkEntry (data e) (bitmap e) (segmentFileNum e) (firstRowNum e) false (tupleTid e)) (visimapStore m))
        (<[key := r]> (dirtyEntryCache del)) f).

Definition AppendOnlyVisimapDelete_Hide (del : AppendOnlyVisimapDelete) (aoTupleId : AOTupleId)
    : result (HTSU_Result * AppendOnlyVisimapDelete) :=
  del ← (if negb (AppendOnlyVisimapEntry_CoversTuple (visimapEntry (visiMap del)) aoTupleId) then
           del ← (if AppendOnlyVisimapEntry_HasChanged (visimapEntry (visiMap del))
                  then AppendOnlyVisimapDelete_Stash del else Ok del);
           AppendOnlyVisimapDelete_Find del aoTupleId
         else Ok del);
  '(res, e) ← AppendOnlyVisimapEntry_HideTuple (visimapEntry (visiMap del)) aoTupleId;
  Ok (res, MkDelete (MkVisimap e (visimapStore (visiMap del))) (dirtyEntryCache del) (workfile del)).

(** ** Writing back *)

Definition no_meta_data : string := "Found a stashed visimap entry without corresponding meta data".

(** The loop that reads the records of the file; [key] is what the last read has returned. *)
Fixpoint write_back (fuel : nat) (cache : gmap (Z * Z) AppendOnlyVisiMapDeleteData) (m : AppendOnlyVisimap)
    (key : list Z) (f : ExecWorkFile) (currentOffset : Z) : result AppendOnlyVisimap :=
  match fuel with
  | O => Err "no fuel"
  | S fuel =>
      if (length key =? sizeof_key)%nat then
        '(e, f) ← read_data (visimapEntry m) f;
        let dataLen := VARSIZE (data e) in
        match cache !! key_of_bytes key with
        | None => Err no_meta_data
        | Some deleteData =>
            m ← (if negb (currentOffset =? workFileOffset deleteData) then Ok (MkVisimap e (visimapStore m))
                 else
                   let '(segno, firstRowNum) := key_of_bytes key in
                   e ← AppendOnlyVisimapDelete_RebuildEntry e segno firstRowNum (stashedTid deleteData);
                   AppendOnlyVisimap_Store (MkVisimap e (visimapStore m)));
            let '(key, f) := ExecWorkFile_Read f sizeof_key in
            write_back fuel cache m key f (currentOffset + (dataLen + Z.of_nat sizeof_key))
        end
      else if (length key =? 0)%nat then Ok m
      else Err spill_error
  end.

Definition AppendOnlyVisimapDelete_WriteBackStashedEntries (del : AppendOnlyVisimapDelete) : result AppendOnlyVisimapDelete :=
  if (size (dirtyEntryCache del) =? 0)%nat then Ok del
  else
    let '(key, f) := ExecWorkFile_Read (ExecWorkFile_Seek (workfile del) 0) sizeof_key in
    m ← write_back (S (length (content f))) (dirtyEntryCache del) (visiMap del) key f 0;
    Ok (MkDelete m (dirtyEntryCache del) f).

Definition INT64_MAX : Z := 2 ^ 63 - 1.

Definition AppendOnlyVisimapDelete_Finish (del : AppendOnlyVisimapDelete) : result AppendOnlyVisimap :=
  del ← (if AppendOnlyVisimapEntry_HasChanged (visimapEntry (visiMap del)) then
           m ← AppendOnlyVisimap_Store (visiMap del);
           let key := entry_key (visimapEntry m) in
           let cache := match dirtyEntryCache del !! key with
                        | Some _ => <[key := MkDeleteData INT64_MAX None]> (dirtyEntryCache del)
                        | None => dirtyEntryCache del
                        end in
           Ok (MkDelete m cache (workfile del))
         else Ok del);
  visiMap <$> AppendOnlyVisimapDelete_WriteBackStashedEntries del.

(** ** The delete command on an append-only table *)

Definition appendonly_delete_init (rel : list Version) : AppendOnlyVisimapDelete :=
  AppendOnlyVisimapDelete_Init (AppendOnlyVisimap_Init rel).
Definition appendonly_delete (del : AppendOnlyVisimapDelete) (aoTupleId : AOTupleId) : result (HTSU_Result * AppendOnlyVisimapDelete) :=
  AppendOnlyVisimapDelete_Hide del aoTupleId.
Definition appendonly_delete_finish (del : AppendOnlyVisimapDelete) : result (list Version) :=
  m ← AppendOnlyVisimapDelete_Finish del; AppendOnlyVisimap_Finish m.

Fixpoint delete_all (del : AppendOnlyVisimapDelete) (ids : list AOTupleId) : result (list HTSU_Result * AppendOnlyVisimapDelete) :=
  match ids with
  | [] => Ok ([], del)
  | id :: ids =>
      '(res, del) ← appendonly_delete del id;
      '(l, del) ← delete_all del ids;
      Ok (res :: l, del)
  end.

(** A command that deletes the rows [ids], in this order: the answers and the relation. *)
Definition delete_command (rel : list Version) (ids : list AOTupleId) : result (list HTSU_Result * list Version) :=
  '(l, del) ← delete_all (appendonly_delete_init rel) ids;
  rel ← appendonly_delete_finish del;
  Ok (l, rel).

End VisimapDelete.
