(* ===== verification/VisimapDeleteSpec.v ===== *)
(** The invariant of a delete command: what the entry in memory, the hash table and the work
    file say together about the rows hidden so far, and that writing them back makes the
    relation represent these rows. *)
From Stdlib Require Import ZArith Lia.
From stdpp Require Import base list option numbers strings gmap.
From S2P Require Import Prelude Bitmapset BitmapsetSpec BitComp BitCompSpec Visimap VisimapSpec VisimapStoreSpec VisimapDelete.
Import Bitmapset BitmapsetSpec BitComp BitCompSpec Visimap VisimapSpec VisimapStoreSpec VisimapDelete.

Module VisimapDeleteSpec.

(** ** The work file as a list of records *)

Definition rec_bytes (r : (Z * Z) * list Z) : list Z := key_bytes r.1 ++ r.2.
Definition file_bytes (recs : list ((Z * Z) * list Z)) : list Z := recs ≫= rec_bytes.

Lemma length_key_bytes k : length (key_bytes k) = sizeof_key.
Proof. done. Qed.

Lemma u64_words z : 0 <= z < 2 ^ 63 → is_u32 (u32 z) ∧ is_u32 (Z.shiftr z 32) ∧ u32 z + Z.shiftl (Z.shiftr z 32) 32 = z.
Proof.
  intros Hz. split; [apply u32_range|]. rewrite Z.shiftr_div_pow2, Z.shiftl_mul_pow2 by lia. unfold is_u32, u32.
  pose proof (Z.div_mod z (2 ^ 32) ltac:(lia)). pose proof (Z.div_pos z (2 ^ 32) ltac:(lia) ltac:(lia)).
  pose proof (Z.div_lt_upper_bound z (2 ^ 32) (2 ^ 32) ltac:(lia) ltac:(lia)). lia.
Qed.

Lemma key_back k : key_ok k → key_of_bytes (key_bytes k) = k.
Proof.
  intros (H1 & H2 & _). destruct k as [s f]. cbn [fst snd] in *.
  destruct (u64_words s ltac:(lia)) as (Hs1 & Hs2 & Es). destruct (u64_words f ltac:(lia)) as (Hf1 & Hf2 & Ef).
  assert (key_bytes (s, f) = [] ++ words_bytes [u32 s; Z.shiftr s 32; u32 f; Z.shiftr f 32] ++ []) as -> by done.
  set (ws := [u32 s; Z.shiftr s 32; u32 f; Z.shiftr f 32]).
  pose proof (words_back [] ws [] 0 _ eq_refl Hs1) as E0. pose proof (words_back [] ws [] 1 _ eq_refl Hs2) as E1.
  pose proof (words_back [] ws [] 2 _ eq_refl Hf1) as E2. pose proof (words_back [] ws [] 3 _ eq_refl Hf2) as E3.
  cbn [length Nat.add Nat.mul] in E0, E1, E2, E3. unfold key_of_bytes, u64_at. cbn [Nat.add].
  rewrite E0, E1, E2, E3, Es, Ef. done.
Qed.

Lemma read_at pre x post n : n = length x →
  ExecWorkFile_Read (MkFile (pre ++ x ++ post) (length pre)) n = (x, MkFile (pre ++ x ++ post) (length pre + length x)).
Proof.
  intros ->. unfold ExecWorkFile_Read. cbn [content position]. rewrite drop_app_length, take_app_length. done.
Qed.

Lemma read_record_data e v ws pre post :
  varlena v ws → length (data e) = APPENDONLY_VISIMAP_DATA_BUFFER_SIZE →
  ∃ rest, read_data e (MkFile (pre ++ v ++ post) (length pre))
            = Ok (set_data e (v ++ rest), MkFile (pre ++ v ++ post) (length pre + length v)) ∧
          length (v ++ rest) = APPENDONLY_VISIMAP_DATA_BUFFER_SIZE.
Proof.
  intros Hv Hl. destruct (varlena_length v ws Hv) as [Hlen _]. destruct Hv as (d & n & Ev & Hd & (Hn & _)).
  set (tl := word_bytes 1 ++ take n d) in Ev. set (len := Z.of_nat (8 + n)) in Ev.
  assert (length v = 8 + n ∧ length tl = 4 + n)%nat as [Hlv Hlt].
  { rewrite Ev. unfold tl. rewrite !length_app, length_length_bytes, length_take. cbn [length word_bytes]. lia. }
  exists (drop (length tl) (drop 4 (data e))). unfold read_data.
  replace (pre ++ v ++ post) with (pre ++ length_bytes len ++ tl ++ post) by (rewrite Ev, <- app_assoc; done).
  rewrite read_at by (by rewrite length_length_bytes). rewrite length_length_bytes. cbn [Nat.eqb negb set_data data].
  rewrite overwrite_prefix, length_length_bytes, varsize_bytes by lia.
  replace (Z.to_nat len - 4)%nat with (length tl) by lia.
  replace (pre ++ length_bytes len ++ tl ++ post) with ((pre ++ length_bytes len) ++ tl ++ post) by (by rewrite <- app_assoc).
  replace (length pre + 4)%nat with (length (pre ++ length_bytes len)) by (by rewrite length_app, length_length_bytes).
  rewrite read_at by done. rewrite Nat.eqb_refl. cbn [negb]. change APPENDONLY_VISIMAP_DATA_BUFFER_SIZE with 4106%nat in *.
  split.
  - f_equal. f_equal; [|f_equal; rewrite length_app, length_length_bytes; lia]. unfold set_data. cbn [bitmap segmentFileNum firstRowNum dirty tupleTid].
    f_equal. unfold overwrite. rewrite take_app_length' by (by rewrite length_length_bytes). rewrite Ev, <- app_assoc. do 2 f_equal.
  - rewrite length_app, !length_drop. lia.
Qed.

(** ** The invariant *)

(** The hash table points to the newest copy of the entry [k]; when the entry is in memory
    that copy may be outdated. *)
Definition stash_ok (rel : list Version) (T : gset (Z * Z)) (cur : option (Z * Z)) (recs : list ((Z * Z) * list Z))
    (k : Z * Z) (r : AppendOnlyVisiMapDeleteData) : Prop :=
  ∃ pre v post ws, recs = pre ++ (k, v) :: post ∧ workFileOffset r = Z.of_nat (length (file_bytes pre)) ∧
    varlena v ws ∧ bm_ok (of_words ws) ∧ (cur = Some k ∨ agrees T k (of_words ws)) ∧ tid_ok rel k (stashedTid r).

Definition recs_ok (cache : gmap (Z * Z) AppendOnlyVisiMapDeleteData) (recs : list ((Z * Z) * list Z)) : Prop :=
  ∀ k v, (k, v) ∈ recs → key_ok k ∧ (∃ ws, varlena v ws) ∧ is_Some (cache !! k).

(** The entry in memory, positioned at the key [cur] or nowhere. *)
Definition entry_inv (rel : list Version) (T K : gset (Z * Z)) (e : AppendOnlyVisimapEntry) (cur : option (Z * Z)) : Prop :=
  match cur with
  | Some k => entry_at e k ∧ tid_ok rel k (tupleTid e) ∧ agrees T k (bitmap e) ∧ dirty e = bool_decide (k ∈ K)
  | None => length (data e) = APPENDONLY_VISIMAP_DATA_BUFFER_SIZE ∧ dirty e = false
  end.

(** The command has found [S] hidden and hidden rows until [T], in the entries [K]; the file has
    at most [n] records. *)
Record del_inv (rel : list Version) (S T K : gset (Z * Z)) (cur : option (Z * Z)) (n : nat) (del : AppendOnlyVisimapDelete) : Prop := {
  inv_rel : represents rel S;
  inv_store : visimapStore (visiMap del) = rel;
  inv_sub : S ⊆ T;
  inv_new p : p ∈ T → p ∉ S → pair_key p ∈ K ∧ 0 <= p.1 < 2 ^ 7 ∧ 0 <= p.2 < 2 ^ 40;
  inv_cached k : is_Some (dirtyEntryCache del !! k) → k ∈ K;
  inv_touched k : k ∈ K → cur = Some k ∨ is_Some (dirtyEntryCache del !! k);
  inv_entry : entry_inv rel T K (visimapEntry (visiMap del)) cur;
  inv_file : ∃ recs, content (workfile del) = file_bytes recs ∧ (length recs ≤ n)%nat ∧
    recs_ok (dirtyEntryCache del) recs ∧
    ∀ k r, dirtyEntryCache del !! k = Some r → stash_ok rel T cur recs k r
}.

Lemma agrees_sub S T k b : agrees S k b → S ⊆ T → (∀ p, p ∈ T → p ∉ S → pair_key p ≠ k) → key_ok k → agrees T k b.
Proof.
  intros Ha Hs Hn Hk y Hy. rewrite (Ha y Hy). split; [set_solver|]. intros Hin. apply dec_stable. intros Hni.
  apply (Hn _ Hin Hni). by apply pair_key_off.
Qed.

Lemma entry_key_at e k : entry_at e k → entry_key e = k.
Proof.
  intros (_ & Hs & Hf & (H1 & H2 & _) & _). unfold entry_key, u64. rewrite Hs, Hf, !Z.mod_small by lia. by destruct k.
Qed.

Lemma file_bytes_app r1 r2 : file_bytes (r1 ++ r2) = file_bytes r1 ++ file_bytes r2.
Proof. apply bind_app. Qed.

Lemma write_at_end d x : ExecWorkFile_Write (MkFile d (length d)) x = MkFile (d ++ x) (length (d ++ x)).
Proof.
  unfold ExecWorkFile_Write. cbn [content position]. rewrite resize_all_alt by done. rewrite drop_ge by lia.
  by rewrite app_nil_r, length_app.
Qed.

Lemma stash_ok_app rel T cur cur' recs more k r : (cur = Some k → cur' = Some k) →
  stash_ok rel T cur recs k r → stash_ok rel T cur' (recs ++ more) k r.
Proof.
  intros Hc (pre & v & post & ws & -> & Ho & Hv & Hb & Ha & Ht). exists pre, v, (post ++ more), ws.
  rewrite <- app_assoc. cbn. split; [done|]. split; [done|]. split; [done|]. split; [done|]. split; [tauto|done].
Qed.

Lemma stash_inv rel S T K k n del : del_inv rel S T K (Some k) n del → k ∈ K →
  ∃ del', AppendOnlyVisimapDelete_Stash del = Ok del' ∧ del_inv rel S T K None (1 + n) del'.
Proof.
  intros Hinv Hk. destruct (inv_entry _ _ _ _ _ _ _ Hinv) as (He & Ht & Ha & Hd).
  destruct (inv_file _ _ _ _ _ _ _ Hinv) as (recs & Hc & Hn & Hr & Hs). unfold AppendOnlyVisimapDelete_Stash.
  rewrite (entry_key_at _ _ He). set (e := visimapEntry (visiMap del)) in *.
  pose proof He as (Hl & _ & _ & Hko & Hb). destruct (write_data_ok e Hb Hl) as (d & v & rest & -> & -> & Hv & Hd').
  cbn [mbind result_bind data tupleTid segmentFileNum firstRowNum bitmap].
  destruct (varlena_length _ _ Hv) as [_ Hsz]. rewrite Hsz, Nat2Z.id, take_app_length.
  unfold ExecWorkFile_Seek, ExecWorkFile_GetSize. rewrite Nat2Z.id, !write_at_end, Hc.
  eexists. split; [done|]. destruct (bm_words_ok _ Hb) as (Hbw & _ & _).
  destruct Hinv as [Hrep Hst Hsub Hnew Hca Hto _ _]. split; cbn [visiMap visimapStore dirtyEntryCache visimapEntry workfile content]; try done.
  - intros k' [r Hkr]. destruct (decide (k = k')) as [<-|Hne]; [done|]. rewrite lookup_insert_ne in Hkr by done. apply Hca. eauto.
  - intros k' Hk'. right. destruct (decide (k = k')) as [<-|Hne]; [rewrite lookup_insert_eq; eauto|].
    rewrite lookup_insert_ne by done. destruct (Hto k' Hk'); [congruence|done].
  - exists (recs ++ [(k, v)]). split; [|split; [rewrite length_app; cbn; lia|split]].
    + rewrite file_bytes_app. unfold file_bytes at 2. cbn. unfold rec_bytes. cbn [fst snd]. by rewrite app_nil_r, <- app_assoc.
    + intros k' v' [Hin|Hin]%elem_of_app.
      * destruct (Hr k' v' Hin) as (? & ? & ?). split; [done|]. split; [done|]. by apply lookup_insert_is_Some'; right.
      * apply list_elem_of_singleton in Hin. simplify_eq. split; [done|]. split; [eauto|]. rewrite lookup_insert_eq. eauto.
    + intros k' r. destruct (decide (k = k')) as [<-|Hne].
      * rewrite lookup_insert_eq. intros [= <-]. exists recs, v, [], (bm_words (bitmap e)). rewrite Hbw. cbn. tauto.
      * rewrite lookup_insert_ne by done. intros Hkr. apply (stash_ok_app _ _ (Some k)); [congruence|]. by apply Hs.
Qed.

Lemma rebuild_ok e v ws rest k tid : varlena v ws → data e = v ++ rest → key_ok k →
  AppendOnlyVisimapDelete_RebuildEntry e k.1 k.2 tid = Ok (MkEntry (data e) (of_words ws) k.1 k.2 true tid).
Proof.
  intros Hv Hd (H1 & H2 & _). unfold AppendOnlyVisimapDelete_RebuildEntry. destruct (varlena_length v ws Hv) as [_ Hsz].
  rewrite Hd, Hsz. rewrite (read_data_ok _ v ws rest) by done. cbn [mbind result_bind set_bitmap data bitmap segmentFileNum firstRowNum].
  rewrite s32_id by (unfold is_s32; lia). unfold s64. rewrite Z.mod_small by lia. do 2 f_equal. lia.
Qed.

Lemma file_split pre k v post : file_bytes (pre ++ (k, v) :: post) = file_bytes pre ++ key_bytes k ++ v ++ file_bytes post.
Proof. by rewrite file_bytes_app. Qed.

Lemma unstash_ok rel T recs del k r : key_ok k → stash_ok rel T None recs k r → content (workfile del) = file_bytes recs →
  length (data (visimapEntry (visiMap del))) = APPENDONLY_VISIMAP_DATA_BUFFER_SIZE →
  ∃ e f, AppendOnlyVisimapDelete_Unstash del k.1 k.2 r
      = Ok (MkDelete (MkVisimap e (visimapStore (visiMap del))) (dirtyEntryCache del) f) ∧
    content f = content (workfile del) ∧ entry_at e k ∧ tid_ok rel k (tupleTid e) ∧ agrees T k (bitmap e) ∧ dirty e = true.
Proof.
  intros Hk (pre & v & post & ws & -> & Ho & Hv & Hb & [?|Ha] & Ht) Hc Hl; [done|].
  unfold AppendOnlyVisimapDelete_Unstash, ExecWorkFile_Seek. rewrite Ho, Nat2Z.id, Hc, file_split.
  rewrite read_at by done. rewrite length_key_bytes. cbn [Nat.eqb negb].
  destruct (read_record_data (visimapEntry (visiMap del)) v ws (file_bytes pre ++ key_bytes k) (file_bytes post) Hv Hl) as (rest & Er & Hlen).
  rewrite length_app, <- app_assoc in Er. rewrite length_key_bytes in Er. rewrite Er. cbn [mbind result_bind].
  rewrite (rebuild_ok _ v ws rest) by done. cbn [mbind result_bind]. eexists _, _. split; [done|]. split; [done|].
  cbn. done.
Qed.

Lemma find_inv rel S T K n del id : del_inv rel S T K None n del → tid_wf id →
  ∃ del', AppendOnlyVisimapDelete_Find del id = Ok del' ∧ del_inv rel S T K (Some (id_key id)) n del'.
Proof.
  intros Hinv Hid. destruct (id_split id Hid) as (Hk & _ & _). pose proof (inv_entry _ _ _ _ _ _ _ Hinv) as [Hl Hd].
  destruct (inv_file _ _ _ _ _ _ _ Hinv) as (recs & Hc & Hn & Hr & Hs). unfold AppendOnlyVisimapDelete_Find.
  assert ((AOTupleIdGet_segmentFileNum id, u64 (AppendOnlyVisimapEntry_GetFirstRowNum id)) = id_key id) as ->.
  { unfold id_key, u64. f_equal. apply Z.mod_small. destruct Hk as (_ & Hk & _). unfold id_key in Hk. cbn in Hk. lia. }
  destruct Hinv as [Hrep Hst Hsub Hnew Hca Hto _ _].
  assert (∀ k r, dirtyEntryCache del !! k = Some r → stash_ok rel T (Some (id_key id)) recs k r) as Hs'.
  { intros k r Hkr. rewrite <- (app_nil_r recs). apply (stash_ok_app _ _ None); [done|]. by apply Hs. }
  assert (∀ k, k ∈ K → Some (id_key id) = Some k ∨ is_Some (dirtyEntryCache del !! k)) as Hto' by (intros k [?|?]%Hto; [done|by right]).
  destruct (dirtyEntryCache del !! id_key id) as [r|] eqn:Er.
  - destruct (unstash_ok rel T recs del (id_key id) r) as (e & f & -> & Hf & He & Ht & Ha & Hde); [done|by apply Hs|done|done|].
    eexists. split; [done|]. split; cbn [visiMap visimapStore dirtyEntryCache visimapEntry workfile content]; try done.
    + split; [done|]. split; [done|]. split; [done|]. rewrite Hde. symmetry. apply bool_decide_eq_true. apply Hca. eauto.
    + exists recs. rewrite Hf. done.
  - assert (id_key id ∉ K) as HnK by (intros [?|[? ?]]%Hto; congruence).
    assert (∀ b, agrees S (id_key id) b → agrees T (id_key id) b) as Hag.
    { intros b Hb. apply (agrees_sub S); try done. intros p Hp Hps E. apply HnK. rewrite <- E. by apply Hnew. }
    unfold AppendOnlyVisimap_Find. rewrite Hst. change (AOTupleIdGet_segmentFileNum id) with (id_key id).1.
    change (AppendOnlyVisimapEntry_GetFirstRowNum id) with (id_key id).2.
    destruct (find_ok rel S (id_key id) (visimapEntry (visiMap del)) Hrep Hk Hl) as [(-> & Ht & Ha)|(d & b & i & -> & Hdl & Hb & Ht & Ha)];
      cbn [mbind result_bind default]; (eexists; split; [done|]);
      (split; cbn [visiMap visimapStore dirtyEntryCache visimapEntry workfile content]; try done; [|by exists recs]);
      unfold entry_inv, entry_at; cbn [AppendOnlyVisimapEntry_New data bitmap segmentFileNum firstRowNum dirty tupleTid];
      rewrite Hd, bool_decide_eq_false_2 by done; auto 10 using bm_ok_None.
Qed.

Lemma agrees_add T k b p : key_ok k → pair_key p ≠ k → agrees T k b → agrees (T ∪ {[p]}) k b.
Proof.
  intros Hk Hne Ha. apply (agrees_sub T); try done; [set_solver|]. intros q Hq Hnq. assert (q = p) as -> by set_solver. done.
Qed.

Lemma forget_inv rel S T K k n del : del_inv rel S T K (Some k) n del → k ∉ K → del_inv rel S T K None n del.
Proof.
  intros [Hrep Hst Hsub Hnew Hca Hto He (recs & Hc & Hn & Hr & Hs)] Hk. destruct He as ((Hl & _) & _ & _ & Hd).
  split; try done.
  - intros k' Hk'. destruct (Hto k' Hk'); [congruence|by right].
  - split; [done|]. by rewrite Hd, bool_decide_eq_false_2.
  - exists recs. split; [done|]. split; [done|]. split; [done|]. intros k' r Hkr. rewrite <- (app_nil_r recs).
    apply (stash_ok_app _ _ (Some k)); [|by apply Hs]. intros [= <-]. destruct Hk. apply Hca. eauto.
Qed.

(** The entry in memory moves to the one that covers [id]. *)
Lemma move_inv rel S T K cur n del id : del_inv rel S T K cur n del → tid_wf id →
  (cur = None → AppendOnlyVisimapEntry_IsValid (visimapEntry (visiMap del)) = false) →
  ∃ del', (if negb (AppendOnlyVisimapEntry_CoversTuple (visimapEntry (visiMap del)) id) then
             del ← (if AppendOnlyVisimapEntry_HasChanged (visimapEntry (visiMap del))
                    then AppendOnlyVisimapDelete_Stash del else Ok del);
             AppendOnlyVisimapDelete_Find del id
           else Ok del) = Ok del' ∧ del_inv rel S T K (Some (id_key id)) (1 + n) del'.
Proof.
  intros Hinv Hid Hval. pose proof (inv_entry _ _ _ _ _ _ _ Hinv) as He. unfold AppendOnlyVisimapEntry_HasChanged.
  assert (∀ cur, del_inv rel S T K cur n del → del_inv rel S T K cur (1 + n) del) as Hmore.
  { intros c [? ? ? ? ? ? ? (recs & ? & ? & ?)]. split; try done. exists recs. split; [done|]. split; [lia|done]. }
  destruct cur as [k|].
  - destruct He as (He & _ & _ & Hd). rewrite (covers_iff _ _ _ He Hid).
    destruct (bool_decide_reflect (id_key id = k)) as [<-|Hk]; cbn [negb]; [eauto|].
    rewrite Hd. destruct (bool_decide_reflect (k ∈ K)) as [HK|HK].
    + destruct (stash_inv _ _ _ _ _ _ _ Hinv HK) as (del' & -> & Hinv'). cbn [mbind result_bind]. by apply find_inv.
    + cbn [mbind result_bind]. apply find_inv; [|done]. apply Hmore. by apply (forget_inv _ _ _ _ k).
  - destruct He as [_ Hd]. rewrite invalid_covers, Hd by auto. cbn [negb mbind result_bind]. apply find_inv; [by apply Hmore|done].
Qed.

Lemma hide_inv rel S T K cur n del id : del_inv rel S T K cur n del → tid_wf id →
  (cur = None → AppendOnlyVisimapEntry_IsValid (visimapEntry (visiMap del)) = false) →
  ∃ del', AppendOnlyVisimapDelete_Hide del id
      = Ok (hide_answer (bool_decide (tid_pair id ∈ T)) (bool_decide (id_key id ∈ K)), del') ∧
    del_inv rel S (T ∪ {[tid_pair id]}) (K ∪ {[id_key id]}) (Some (id_key id)) (1 + n) del'.
Proof.
  intros Hinv Hid Hval. unfold AppendOnlyVisimapDelete_Hide.
  destruct (move_inv _ _ _ _ _ _ _ _ Hinv Hid Hval) as (d1 & -> & H1). cbn [mbind result_bind]. clear del Hinv Hval.
  destruct H1 as [Hrep Hst Hsub Hnew Hca Hto (He & Ht & Ha & Hd) (recs & Hc & Hn & Hr & Hs)].
  destruct (hide_ok _ id He Hid) as (b & -> & Hb & Hel). cbn [mbind result_bind].
  rewrite Hd, (bool_decide_ext _ _ (agrees_id T id _ Hid Ha)).
  eexists. split; [done|]. destruct (id_split id Hid) as (Hk & Ho & _). destruct (id_pair id Hid) as [Hpk Hpair].
  split; cbn [visiMap visimapStore dirtyEntryCache visimapEntry workfile content]; try done.
  - set_solver.
  - intros p [Hp|Hp]%elem_of_union Hns; [split; [|by apply Hnew]; apply elem_of_union_l; by apply Hnew|].
    apply elem_of_singleton in Hp as ->. rewrite Hpk. split; [set_solver|]. by apply tid_pair_range.
  - intros k Hk'. apply elem_of_union_l. by apply Hca.
  - intros k [?|Hk']%elem_of_union; [by apply Hto|]. apply elem_of_singleton in Hk' as ->. by left.
  - destruct He as (Hl & Hs1 & Hf & _). split; [done|]. split; [done|]. split.
    + intros y Hy. cbn [bitmap]. rewrite Hel, (Ha y Hy), Hpair, elem_of_union, elem_of_singleton.
      split; [intros [?| ->]; [by left|by right]|]. intros [?|[= ?]]; [by left|right; lia].
    + cbn. symmetry. apply bool_decide_eq_true. set_solver.
  - exists recs. split; [done|]. split; [done|]. split; [done|]. intros k r Hkr.
    destruct (Hs k r Hkr) as (pre & v & post & ws & E & Hof & Hv & Hbw & Hag & Htk). exists pre, v, post, ws.
    split; [done|]. split; [done|]. split; [done|]. split; [done|]. split; [|done].
    destruct (decide (k = id_key id)) as [->|Hne]; [by left|]. destruct Hag as [?|Hag]; [congruence|]. right.
    apply agrees_add; [|congruence|done]. apply (Hr k v). rewrite E. set_solver.
Qed.

(** ** Writing back *)

Lemma length_file_bytes recs : (16 * length recs ≤ length (file_bytes recs))%nat.
Proof.
  induction recs as [|[k v] recs IH]; [done|]. change ((k, v) :: recs) with ([] ++ (k, v) :: recs). rewrite file_split.
  rewrite !length_app, length_key_bytes. cbn [length app file_bytes]. unfold sizeof_key. lia.
Qed.

(** Records are told apart by their offsets. *)
Lemma record_after pre r post pre' r' post' : pre ++ r :: post = pre' ++ r' :: post' →
  (length (file_bytes pre) ≤ length (file_bytes pre'))%nat →
  pre' = pre ∧ r' = r ∨ (length (file_bytes (pre ++ [r])) ≤ length (file_bytes pre'))%nat.
Proof.
  intros E Hle. apply app_eq_app in E as (l & [[-> E]|[-> E]]).
  - pose proof (length_file_bytes l). rewrite file_bytes_app, length_app in Hle. destruct l as [|x l]; [|cbn [length] in *; lia].
    left. rewrite app_nil_r. by simplify_eq/=.
  - destruct l as [|x l]; [left; rewrite app_nil_r; by simplify_eq/=|]. right. simplify_eq/=.
    change (x :: l) with ([x] ++ l). rewrite app_assoc, (file_bytes_app (pre ++ [x])), length_app. lia.
Qed.

Section WriteBack.
  Context (T : gset (Z * Z)) (recs : list ((Z * Z) * list Z)) (cache : gmap (Z * Z) AppendOnlyVisiMapDeleteData).
  Context (Hrecs : recs_ok cache recs).
  Context (Hsize : Z.of_nat (length (file_bytes recs)) < INT64_MAX).

  (** The hash table says which records are the newest; an entry that has been stored is marked. *)
  Context (Hcache : ∀ k r, cache !! k = Some r → workFileOffset r = INT64_MAX ∨
    ∃ pre v post ws, recs = pre ++ (k, v) :: post ∧ workFileOffset r = Z.of_nat (length (file_bytes pre)) ∧
      varlena v ws ∧ bm_ok (of_words ws) ∧ agrees T k (of_words ws)).

  (** The newest record of [k] is still to come. *)
Definition pending (pre : list ((Z * Z) * list Z)) (k : Z * Z) : Prop :=
    ∃ r, cache !! k = Some r ∧ Z.of_nat (length (file_bytes pre)) <= workFileOffset r ∧ workFileOffset r ≠ INT64_MAX.

Definition tids_ok (pre : list ((Z * Z) * list Z)) (rel : list Version) : Prop :=
    ∀ k r, cache !! k = Some r → Z.of_nat (length (file_bytes pre)) <= workFileOffset r → workFileOffset r ≠ INT64_MAX →
      tid_ok rel k (stashedTid r).

Lemma pending_next pre k v post k' : recs = pre ++ (k, v) :: post → pending pre k' →
  (∃ r, cache !! k = Some r ∧ workFileOffset r = Z.of_nat (length (file_bytes pre)) ∧ k' = k) ∨ pending (pre ++ [(k, v)]) k'.
Proof.
  intros E (r & Hr & Hle & Hmax). destruct (Hcache k' r Hr) as [?|(pre' & v' & post' & ws & E' & Ho & _)]; [done|].
  rewrite E in E'. destruct (record_after _ _ _ _ _ _ E') as [[-> [= -> ->]]|Haf]; [lia|left; by exists r|].
  right. exists r. split; [done|]. split; [lia|done].
Qed.

Lemma pending_end k : ¬ pending recs k.
Proof.
  intros (r & Hr & Hle & Hmax). destruct (Hcache k r Hr) as [?|(pre & v & post & ws & E & Ho & _)]; [done|].
  rewrite E, file_split, !length_app, length_key_bytes, Ho in Hle. unfold sizeof_key in Hle. lia.
Qed.

(** One record: it is stored when it is the newest copy of its entry, and skipped otherwise. *)
Lemma write_back_record pre k v post m rest r : recs = pre ++ (k, v) :: post → cache !! k = Some r →
  (∃ ws, varlena v ws) → key_ok k → length (v ++ rest) = APPENDONLY_VISIMAP_DATA_BUFFER_SIZE → dirty (visimapEntry m) = false →
  reads_but (pending pre) live (visimapStore m) T → tids_ok pre (visimapStore m) →
  ∃ m', (if negb (Z.of_nat (length (file_bytes pre)) =? workFileOffset r)
         then Ok (MkVisimap (set_data (visimapEntry m) (v ++ rest)) (visimapStore m))
         else
           e ← AppendOnlyVisimapDelete_RebuildEntry (set_data (visimapEntry m) (v ++ rest)) k.1 k.2 (stashedTid r);
           AppendOnlyVisimap_Store (MkVisimap e (visimapStore m))) = Ok m' ∧
    length (data (visimapEntry m')) = APPENDONLY_VISIMAP_DATA_BUFFER_SIZE ∧ dirty (visimapEntry m') = false ∧
    reads_but (pending (pre ++ [(k, v)])) live (visimapStore m') T ∧ tids_ok (pre ++ [(k, v)]) (visimapStore m').
Proof.
  intros E Hr [ws0 Hv0] Hk Hl Hd Hreads Htids.
  assert (length (file_bytes pre) ≤ length (file_bytes (pre ++ [(k, v)])))%nat as Hgrow by (rewrite file_bytes_app, length_app; lia).
  assert (Z.of_nat (length (file_bytes pre)) < INT64_MAX) as Hlt by (rewrite E, file_bytes_app, length_app in Hsize; lia).
  destruct (Z.eqb_spec (Z.of_nat (length (file_bytes pre))) (workFileOffset r)) as [Eo|Eo]; cbn [negb].
  - destruct (Hcache k r Hr) as [?|(pre' & v' & post' & ws & E' & Ho & Hv & Hb & Ha)]; [lia|].
    rewrite E in E'. destruct (record_after _ _ _ _ _ _ E') as [[-> [= ->]]|Haf]; [lia| |].
    2: { rewrite file_bytes_app, length_app in Haf. pose proof (length_file_bytes [(k, v)]). cbn [length] in *. lia. }
    rewrite (rebuild_ok _ v ws rest) by done. cbn [mbind result_bind]. unfold AppendOnlyVisimap_Store. cbn [visimapStore visimapEntry].
    edestruct (store_entry_ok (pending pre) (visimapStore m) T (MkEntry (v ++ rest) (of_words ws) k.1 k.2 true (stashedTid r)) k)
      as (rel' & d & Es & Hd' & Hre & Hti); [done|exact (conj Hl (conj eq_refl (conj eq_refl (conj Hk Hb))))|done|apply (Htids k r Hr); lia|].
    cbn [set_data data]. rewrite Es. cbn [mbind result_bind]. eexists. split; [done|]. cbn. split; [done|]. split; [done|]. split.
    + eapply reads_weaken; [|exact Hre]. intros k' [Hp Hne]. destruct (pending_next pre k v post k' E Hp) as [(? & _ & _ & ?)|?]; done.
    + intros k' r' Hr' Hle Hmax. apply Hti; [|apply (Htids k' r' Hr'); [lia|done]]. intros ->.
      rewrite Hr in Hr'. simplify_eq. rewrite file_bytes_app, length_app in Hle. pose proof (length_file_bytes [(k, v)]). cbn [length] in *. lia.
  - eexists. split; [done|]. cbn. split; [done|]. split; [done|]. split.
    + eapply reads_weaken; [|exact Hreads]. intros k' Hp. destruct (pending_next pre k v post k' E Hp) as [(r' & Hr' & Ho & _)|?]; [|done].
      congruence.
    + intros k' r' Hr' Hle Hmax. apply (Htids k' r' Hr'); [lia|done].
Qed.

Lemma write_back_ok post : ∀ pre m fuel, recs = pre ++ post → (length post < fuel)%nat →
  length (data (visimapEntry m)) = APPENDONLY_VISIMAP_DATA_BUFFER_SIZE → dirty (visimapEntry m) = false →
  reads_but (pending pre) live (visimapStore m) T → tids_ok pre (visimapStore m) →
  let '(key, f) := ExecWorkFile_Read (MkFile (file_bytes recs) (length (file_bytes pre))) sizeof_key in
  ∃ m', write_back fuel cache m key f (Z.of_nat (length (file_bytes pre))) = Ok m' ∧
    reads live (visimapStore m') T ∧ dirty (visimapEntry m') = false.
Proof.
  induction post as [|[k v] post IH]; intros pre m [|fuel] E Hf Hl Hd Hreads Htids; cbn [length] in Hf; try lia.
  - unfold ExecWorkFile_Read. cbn [content position]. rewrite app_nil_r in E. rewrite <- E, drop_all. cbn.
    exists m. split; [done|]. split; [|done]. eapply reads_weaken; [|exact Hreads]. intros k. rewrite <- E. apply pending_end.
  - destruct (Hrecs k v) as (Hk & Hv & [r Hr]); [rewrite E; set_solver|]. pose proof Hv as [ws Hv'].
    assert (file_bytes recs = file_bytes pre ++ key_bytes k ++ v ++ file_bytes post) as Eb by (rewrite E; apply file_split).
    rewrite Eb, read_at by done. cbn [write_back]. rewrite length_key_bytes, Nat.eqb_refl.
    destruct (read_record_data (visimapEntry m) v ws (file_bytes pre ++ key_bytes k) (file_bytes post) Hv' Hl) as (rest & Er & Hlen).
    rewrite length_app, <- app_assoc in Er. rewrite length_key_bytes in Er. rewrite Er. cbn [mbind result_bind].
    rewrite key_back, Hr by done. destruct (varlena_length v ws Hv') as [_ Hsz].
    change (data (set_data (visimapEntry m) (v ++ rest))) with (v ++ rest). rewrite Hsz.
    destruct (write_back_record pre k v post m rest r E Hr Hv Hk Hlen Hd Hreads Htids) as (m' & Em & Hl' & Hd' & Hre & Hti).
    destruct k as [s f]. cbn [fst snd] in Em. rewrite Em. cbn [mbind result_bind].
    specialize (IH (pre ++ [((s, f), v)]) m' fuel ltac:(rewrite <- app_assoc; done) ltac:(lia) Hl' Hd' Hre Hti).
    assert (length (file_bytes (pre ++ [((s, f), v)])) = length (file_bytes pre) + sizeof_key + length v)%nat as Hlb.
    { rewrite file_split, !length_app, length_key_bytes. change (length (file_bytes [])) with 0%nat. lia. }
    rewrite Hlb, Eb in IH.
    destruct (ExecWorkFile_Read _ sizeof_key) as [key' f'].
    replace (Z.of_nat (length (file_bytes pre)) + (Z.of_nat (length v) + Z.of_nat sizeof_key))
      with (Z.of_nat (length (file_bytes pre) + sizeof_key + length v)) by lia. done.
Qed.

Lemma write_back_all m f : content f = file_bytes recs →
  length (data (visimapEntry m)) = APPENDONLY_VISIMAP_DATA_BUFFER_SIZE → dirty (visimapEntry m) = false →
  reads_but (pending []) live (visimapStore m) T → tids_ok [] (visimapStore m) →
  ∃ del, AppendOnlyVisimapDelete_WriteBackStashedEntries (MkDelete m cache f) = Ok del ∧
    reads live (visimapStore (visiMap del)) T ∧ dirty (visimapEntry (visiMap del)) = false.
Proof.
  intros Hf Hl Hd Hreads Htids. unfold AppendOnlyVisimapDelete_WriteBackStashedEntries. cbn [dirtyEntryCache workfile visiMap].
  destruct (Nat.eqb_spec (size cache) 0) as [Hz|Hz].
  - exists (MkDelete m cache f). split; [done|]. split; [|done]. eapply reads_weaken; [|exact Hreads].
    apply map_size_empty_inv in Hz. intros k (r & Hr & _). rewrite Hz, lookup_empty in Hr. done.
  - pose proof (write_back_ok recs [] m (S (length (file_bytes recs))) eq_refl) as Hw.
    pose proof (length_file_bytes recs). specialize (Hw ltac:(lia) Hl Hd Hreads Htids).
    unfold ExecWorkFile_Seek. rewrite Hf. unfold ExecWorkFile_Read in *. cbn [content position] in *.
    destruct Hw as (m' & Em & Hr & Hd'). change (Z.of_nat (length (file_bytes []))) with 0 in Em.
    change (length (file_bytes [])) with 0%nat in Em. change (Z.to_nat 0) with 0%nat. rewrite Em. cbn [mbind result_bind].
    eexists. split; [done|]. cbn. done.
Qed.

End WriteBack.

Lemma file_size cache recs : recs_ok cache recs → Z.of_nat (length (file_bytes recs)) <= 4122 * Z.of_nat (length recs).
Proof.
  induction recs as [|[k v] recs IH]; intros Hr; [cbn; lia|]. destruct (Hr k v) as (_ & [ws Hv] & _); [set_solver|].
  pose proof (proj1 (varlena_length v ws Hv)) as Hl. specialize (IH ltac:(intros k' v' Hin; apply Hr; set_solver)).
  assert (length (file_bytes ((k, v) :: recs)) = sizeof_key + (length v + length (file_bytes recs)))%nat as ->.
  { change ((k, v) :: recs) with ([] ++ (k, v) :: recs). rewrite file_split, !length_app. done. }
  cbn [length]. unfold sizeof_key. lia.
Qed.

Lemma represents_touched rel S T K cur n del : del_inv rel S T K cur n del → reads_but (λ k, k ∈ K) live rel T.
Proof.
  intros Hinv. destruct (inv_rel _ _ _ _ _ _ _ Hinv) as [_ (Hrow & Hu & Hp)]. pose proof (inv_sub _ _ _ _ _ _ _ Hinv) as Hsub.
  pose proof (inv_new _ _ _ _ _ _ _ Hinv) as Hnew. split; [|split; [done|]].
  - intros i v Hi Hv. destruct (Hrow i v Hi Hv) as (Hk & b & Hb & [[]|Ha]). split; [done|]. exists b. split; [done|].
    destruct (decide (row_key (row v) ∈ K)) as [|Hn]; [by left|]. right. apply (agrees_sub S); try done.
    intros p Hp1 Hp2 E. apply Hn. rewrite <- E. by apply Hnew.
  - intros p Hin. destruct (decide (p ∈ S)) as [Hs|Hs].
    + destruct (Hp p Hs) as (? & ? & [[]|?]). auto.
    + destruct (Hnew p Hin Hs) as (? & ? & ?). auto.
Qed.

(** What the hash table says about the entries that are not in memory. *)
Lemma stashed_entries (rel : list Version) (T : gset (Z * Z)) (cur : option (Z * Z)) (recs : list ((Z * Z) * list Z)) (cache : gmap (Z * Z) AppendOnlyVisiMapDeleteData) :
  Z.of_nat (length (file_bytes recs)) < INT64_MAX →
  (∀ k r, cache !! k = Some r → stash_ok rel T cur recs k r) →
  ∀ k r, cache !! k = Some r → 0 <= workFileOffset r < INT64_MAX ∧ tid_ok rel k (stashedTid r) ∧
    (cur ≠ Some k → ∃ pre v post ws, recs = pre ++ (k, v) :: post ∧ workFileOffset r = Z.of_nat (length (file_bytes pre)) ∧
      varlena v ws ∧ bm_ok (of_words ws) ∧ agrees T k (of_words ws)).
Proof.
  intros Hsz Hs k r Hkr. destruct (Hs k r Hkr) as (pre & v & post & ws & E & Ho & Hv & Hb & Ha & Ht).
  split; [rewrite E, file_bytes_app, length_app in Hsz; lia|]. split; [done|]. intros Hne.
  exists pre, v, post, ws. destruct Ha; [done|]. auto.
Qed.

(** The entry in memory is stored first, and its mark in the hash table keeps an older copy
    from being stored over it. *)
Lemma finish_current (rel : list Version) (T K : gset (Z * Z)) (k : Z * Z) (recs : list ((Z * Z) * list Z))
    (cache : gmap (Z * Z) AppendOnlyVisiMapDeleteData) e f :
  Z.of_nat (length (file_bytes recs)) < INT64_MAX → content f = file_bytes recs → recs_ok cache recs →
  (∀ k' r, cache !! k' = Some r → stash_ok rel T (Some k) recs k' r) →
  (∀ k', k' ∈ K → Some k = Some k' ∨ is_Some (cache !! k')) → reads_but (λ k', k' ∈ K) live rel T →
  entry_at e k → tid_ok rel k (tupleTid e) → agrees T k (bitmap e) → dirty e = true →
  ∃ m, AppendOnlyVisimapDelete_Finish (MkDelete (MkVisimap e rel) cache f) = Ok m ∧
    reads live (visimapStore m) T ∧ dirty (visimapEntry m) = false.
Proof.
  intros Hsz Hc Hr Hs Hto Hreads He Ht Ha Hd. pose proof (stashed_entries _ _ _ _ _ Hsz Hs) as Hst.
  unfold AppendOnlyVisimapDelete_Finish, AppendOnlyVisimapEntry_HasChanged. cbn [visiMap visimapEntry dirtyEntryCache workfile].
  rewrite Hd. unfold AppendOnlyVisimap_Store. cbn [visimapStore visimapEntry].
  destruct (store_entry_ok _ rel T e k Hreads He Ha Ht) as (rel' & d & -> & Hdl & Hre & Hti). cbn [mbind result_bind].
  set (e' := MkEntry d _ _ _ _ _).
  assert (entry_key (visimapEntry (MkVisimap e' rel')) = k) as -> by (apply (entry_key_at e k He)).
  set (cache' := match cache !! k with Some _ => _ | None => _ end).
  assert (∀ k' r, cache' !! k' = Some r → k' = k ∧ workFileOffset r = INT64_MAX ∨ k' ≠ k ∧ cache !! k' = Some r) as Hc'.
  { intros k' r. unfold cache'. destruct (cache !! k) eqn:Ek.
    - destruct (decide (k = k')) as [<-|Hne]; [rewrite lookup_insert_eq; intros [= <-]; by left|].
      rewrite lookup_insert_ne by done. intros ?. by right.
    - intros Hk'. right. split; [congruence|done]. }
  assert (∀ k', is_Some (cache !! k') → is_Some (cache' !! k')) as Hc2.
  { intros k' Hk'. unfold cache'. destruct (cache !! k); [|done]. by apply lookup_insert_is_Some'; right. }
  destruct (write_back_all T recs cache') with (m := MkVisimap e' rel') (f := f) as (del & -> & ? & ?); try done.
  - intros k' v Hin. destruct (Hr k' v Hin) as (? & ? & ?). auto.
  - intros k' r [[-> ?]|[Hne Hkr]]%Hc'; [by left|]. right. apply (Hst k' r Hkr). congruence.
  - eapply reads_weaken; [|exact Hre]. intros k' [HK Hne]. destruct (Hto k' HK) as [?|Hk']; [congruence|].
    destruct (Hc2 k' Hk') as [r Hr']. destruct (Hc' k' r Hr') as [[? _]|[_ Hkr]]; [done|]. exists r. split; [done|].
    destruct (Hst k' r Hkr) as [? _]. change (length (file_bytes [])) with 0%nat. lia.
  - intros k' r Hkr _ Hmax. destruct (Hc' k' r Hkr) as [[_ ?]|[Hne Hkr']]; [done|]. apply Hti; [done|]. by apply (Hst k' r Hkr').
  - eexists. done.
Qed.

(** All that the command has changed reaches the relation. *)
Lemma finish_ok rel S T K cur n del : del_inv rel S T K cur n del → 4122 * Z.of_nat n < INT64_MAX →
  ∃ m, AppendOnlyVisimapDelete_Finish del = Ok m ∧ reads live (visimapStore m) T ∧ dirty (visimapEntry m) = false.
Proof.
  intros Hinv Hn. pose proof (represents_touched _ _ _ _ _ _ _ Hinv) as Hreads.
  destruct Hinv as [_ Hst _ _ Hca Hto He (recs & Hc & Hlen & Hr & Hs)].
  assert (Z.of_nat (length (file_bytes recs)) < INT64_MAX) as Hsz by (pose proof (file_size _ _ Hr); lia).
  destruct del as [[e rel'] cache f]. cbn [visiMap visimapEntry visimapStore dirtyEntryCache workfile] in *. subst rel'.
  destruct (dirty e) eqn:Hd.
  { destruct cur as [k|]; [|destruct He; congruence]. destruct He as (He & Ht & Ha & _). by apply (finish_current rel T K k recs). }
  assert (∀ k, k ∈ K → cur ≠ Some k) as Hcur.
  { intros k HkK ->. destruct He as (_ & _ & _ & E). rewrite Hd, bool_decide_eq_true_2 in E; done. }
  pose proof (stashed_entries _ _ _ _ _ Hsz Hs) as Hse.
  unfold AppendOnlyVisimapDelete_Finish, AppendOnlyVisimapEntry_HasChanged. cbn [visiMap visimapEntry]. rewrite Hd. cbn [mbind result_bind].
  destruct (write_back_all T recs cache) with (m := MkVisimap e rel) (f := f) as (del & -> & ? & ?); try done.
  - intros k r Hkr. right. apply (Hse k r Hkr). apply Hcur, Hca. eauto.
  - destruct cur as [k|]; apply He.
  - eapply reads_weaken; [|exact Hreads]. intros k Hk. destruct (Hto k Hk) as [?|[r Hkr]]; [by destruct (Hcur k Hk)|].
    exists r. destruct (Hse k r Hkr) as [? _]. split; [done|]. change (length (file_bytes [])) with 0%nat. lia.
  - intros k r Hkr _ _. by apply (Hse k r Hkr).
  - eexists. done.
Qed.

End VisimapDeleteSpec.
