(* ===== verification/VisimapProps.v ===== *)
(** The theorems on the visibility map of append-only tables. *)
From Stdlib Require Import ZArith Lia Sorted.
From stdpp Require Import base list option numbers strings gmap sorting.
From S2P Require Import Prelude Bitmapset BitmapsetSpec BitComp BitCompSpec.
From S2P Require Import Visimap VisimapSpec VisimapStoreSpec VisimapScanSpec VisimapDelete VisimapDeleteSpec.
Import Bitmapset BitmapsetSpec BitComp BitCompSpec Visimap VisimapSpec VisimapStoreSpec VisimapScanSpec VisimapDelete VisimapDeleteSpec.

Module VisimapProps.

(** ** Tuple ids *)

(** The order of the pairs (segment file, row number). *)
Definition pair_compare (p q : Z * Z) : Z :=
  if p.1 <? q.1 then -1 else if q.1 <? p.1 then 1
  else if p.2 <? q.2 then -1 else if q.2 <? p.2 then 1 else 0.

Definition packed (h : AOTupleId) : Z := bytes_0_1 h * 2 ^ 32 + bytes_2_3 h * 2 ^ 16 + bytes_4_5 h.

Lemma compare_packed h h' : tid_wf h → tid_wf h' →
  ItemPointerCompare h h' = if packed h <? packed h' then -1 else if packed h' <? packed h then 1 else 0.
Proof.
  intros (H0 & H2 & H4) (H0' & H2' & H4'). unfold is_u16 in *.
  assert (∀ g, is_u16 (bytes_0_1 g) → is_u16 (bytes_2_3 g) → BlockIdGetBlockNumber g = bytes_0_1 g * 2 ^ 16 + bytes_2_3 g) as Hb.
  { intros g Hg1 Hg2. unfold is_u16, BlockIdGetBlockNumber, u16, u32 in *. rewrite (Z.mod_small (bytes_2_3 g)), Z.shiftl_mul_pow2 by lia.
    rewrite lor_low by lia. apply Z.mod_small. lia. }
  unfold ItemPointerCompare. rewrite !Hb by done. unfold packed.
  repeat match goal with |- context [?a <? ?b] => destruct (Z.ltb_spec a b) end; lia || done.
Qed.

(** A segment file number below 128 and a row number below 2^40 survive being packed into a
    tuple id, whose last 16 bits are never zero, and tuple ids compare as heap tids the way
    the pairs do. *)
Theorem aotid_roundtrip s r s' r' :
  0 <= s < 2 ^ 7 → 0 <= r < 2 ^ 40 → 0 <= s' < 2 ^ 7 → 0 <= r' < 2 ^ 40 →
  tid_wf (tid_of s r) ∧ AOTupleIdGet_segmentFileNum (tid_of s r) = s ∧ AOTupleIdGet_rowNum (tid_of s r) = r ∧
  AOTupleIdGet_makeHeapExecutorHappy (tid_of s r) ≠ 0 ∧
  ItemPointerCompare (tid_of s r) (tid_of s' r') = pair_compare (s, r) (s', r').
Proof.
  intros Hs Hr Hs' Hr'. split; [by apply tid_of_wf|]. pose proof (tid_of_pair s r Hs Hr) as [= -> ->].
  split; [done|]. split; [done|]. split.
  - unfold AOTupleIdGet_makeHeapExecutorHappy. rewrite tid_bytes by done. cbn [bytes_4_5]. pose proof (Z.mod_pos_bound r (2 ^ 15) ltac:(lia)).
    intros E%(f_equal (λ z, Z.testbit z 15)). rewrite Z.land_spec, Z.bits_0 in E. change (Z.testbit 0x8000 15) with true in E.
    rewrite andb_true_r in E. apply Z.testbit_false in E; [|lia]. change (2 ^ 15 + r mod 2 ^ 15) with (1 * 2 ^ 15 + r mod 2 ^ 15) in E.
    rewrite Z.div_add_l, Z.div_small in E by lia. done.
  - rewrite compare_packed by (by apply tid_of_wf). rewrite !tid_bytes by done. unfold packed, pair_compare. cbn [bytes_0_1 bytes_2_3 bytes_4_5 fst snd].
    assert (∀ x, 0 <= x < 2 ^ 40 → ∃ a b c, 0 <= a < 2 ^ 9 ∧ 0 <= b < 2 ^ 16 ∧ 0 <= c < 2 ^ 15 ∧
      x / 2 ^ 31 = a ∧ x / 2 ^ 15 mod 2 ^ 16 = b ∧ x mod 2 ^ 15 = c ∧ x = a * 2 ^ 31 + b * 2 ^ 15 + c) as Hsplit.
    { intros x Hx. eexists _, _, _. pose proof (Z.div_mod x (2 ^ 15) ltac:(lia)). pose proof (Z.div_mod (x / 2 ^ 15) (2 ^ 16) ltac:(lia)) as H1.
      rewrite Z.div_div in H1 by lia. change (2 ^ 15 * 2 ^ 16) with (2 ^ 31) in H1.
      split; [|split; [apply Z.mod_pos_bound; lia|split; [apply Z.mod_pos_bound; lia|split; [done|split; [done|split; [done|lia]]]]]].
      split; [apply Z.div_pos; lia|apply Z.div_lt_upper_bound; lia]. }
    destruct (Hsplit r Hr) as (a & b & c & Ha & Hb & Hc & -> & -> & -> & ->).
    destruct (Hsplit r' Hr') as (a' & b' & c' & Ha' & Hb' & Hc' & -> & -> & -> & ->).
    repeat match goal with |- context [?a <? ?b] => destruct (Z.ltb_spec a b) end; lia || done.
Qed.

(** ** Deleting *)

(** What a command answers for the rows [ids] when the rows [T] are hidden and it has already
    been in the entries [K]: a row is reported hidden by this command when the command has
    hidden any row of its entry. *)
Fixpoint answers (T K : gset (Z * Z)) (ids : list AOTupleId) : list HTSU_Result :=
  match ids with
  | [] => []
  | id :: ids => hide_answer (bool_decide (tid_pair id ∈ T)) (bool_decide (id_key id ∈ K))
                 :: answers (T ∪ {[tid_pair id]}) (K ∪ {[id_key id]}) ids
  end.

Lemma delete_init_inv rel S : represents rel S → del_inv rel S S ∅ None 0 (appendonly_delete_init rel).
Proof.
  intros Hrep. split; cbn [visiMap visimapStore dirtyEntryCache visimapEntry workfile content appendonly_delete_init AppendOnlyVisimapDelete_Init AppendOnlyVisimap_Init];
    try done; [intros k [? Hk]; by rewrite lookup_empty in Hk|]. exists []. split; [done|]. split; [cbn; lia|].
  split; [intros k v Hin; set_solver|]. intros k r Hk. by rewrite lookup_empty in Hk.
Qed.

Lemma delete_all_ok rel S ids : ∀ T K cur n del, del_inv rel S T K cur n del →
  (cur = None → AppendOnlyVisimapEntry_IsValid (visimapEntry (visiMap del)) = false) → Forall tid_wf ids →
  ∃ K' cur' del', delete_all del ids = Ok (answers T K ids, del') ∧
    del_inv rel S (T ∪ list_to_set (tid_pair <$> ids)) K' cur' (length ids + n) del'.
Proof.
  induction ids as [|id ids IH]; intros T K cur n del Hinv Hval Hwf; cbn [delete_all answers].
  { exists K, cur, del. split; [done|]. cbn. by rewrite union_empty_r_L. }
  apply Forall_cons in Hwf as [Hid Hwf]. unfold appendonly_delete.
  destruct (hide_inv _ _ _ _ _ _ _ _ Hinv Hid Hval) as (d1 & -> & H1). cbn [mbind result_bind].
  destruct (IH _ _ _ _ _ H1 ltac:(done) Hwf) as (K' & cur' & del' & -> & H'). cbn [mbind result_bind].
  exists K', cur', del'. split; [done|]. cbn [fmap list_fmap list_to_set length].
  replace (T ∪ ({[tid_pair id]} ∪ list_to_set (tid_pair <$> ids))) with (T ∪ {[tid_pair id]} ∪ list_to_set (tid_pair <$> ids)) by set_solver.
  replace (Datatypes.S (length ids) + n)%nat with (length ids + (1 + n))%nat by lia. done.
Qed.

Lemma delete_command_ok rel S ids :
  represents rel S → Forall tid_wf ids → 4122 * Z.of_nat (length ids) < INT64_MAX →
  ∃ rel', delete_command rel ids = Ok (answers S ∅ ids, rel') ∧
          represents (next_command rel') (S ∪ list_to_set (tid_pair <$> ids)).
Proof.
  intros Hrep Hwf Hn. unfold delete_command.
  destruct (delete_all_ok rel S ids S ∅ None 0 _ (delete_init_inv rel S Hrep) ltac:(done) Hwf) as (K & cur & del & -> & Hinv).
  cbn [mbind result_bind]. unfold appendonly_delete_finish.
  destruct (finish_ok _ _ _ _ _ _ _ Hinv) as (m & -> & Hr & Hd); [by rewrite Nat.add_0_r|]. cbn [mbind result_bind].
  unfold AppendOnlyVisimap_Finish, store_if_changed, AppendOnlyVisimapEntry_HasChanged. rewrite Hd. cbn.
  eexists. split; [done|]. by apply next_represents.
Qed.

(** Delete commands, one after the other: the answers and the relation that the next command sees. *)
Fixpoint run_commands (rel : list Version) (cmds : list (list AOTupleId)) : result (list (list HTSU_Result) * list Version) :=
  match cmds with
  | [] => Ok ([], rel)
  | ids :: cmds =>
      '(l, rel) ← delete_command rel ids;
      '(ls, rel) ← run_commands (next_command rel) cmds;
      Ok (l :: ls, rel)
  end.

(** The specification: a set of hidden rows that grows. *)
Fixpoint spec_commands (S : gset (Z * Z)) (cmds : list (list AOTupleId)) : list (list HTSU_Result) * gset (Z * Z) :=
  match cmds with
  | [] => ([], S)
  | ids :: cmds =>
      let '(ls, S') := spec_commands (S ∪ list_to_set (tid_pair <$> ids)) cmds in (answers S ∅ ids :: ls, S')
  end.

Definition command_ok (ids : list AOTupleId) : Prop := Forall tid_wf ids ∧ 4122 * Z.of_nat (length ids) < INT64_MAX.

(** C4: delete commands on a relation that represents a set of hidden rows never fail: each row
    gets the answer of the specification, and afterwards the relation represents the old
    rows and all the given ones, whatever their order and however often a command moved
    between entries and spilled them. *)
Theorem visimap_delete_refines rel S cmds :
  represents rel S → Forall command_ok cmds →
  ∃ rel', run_commands rel cmds = Ok ((spec_commands S cmds).1, rel') ∧ represents rel' (spec_commands S cmds).2.
Proof.
  intros Hrep Hok. revert rel S Hrep. induction Hok as [|ids cmds [Hwf Hn] Hok IH]; intros rel S Hrep; [by exists rel|].
  destruct (delete_command_ok rel S ids Hrep Hwf Hn) as (r1 & E1 & H1). destruct (IH _ _ H1) as (r2 & E2 & H2).
  exists r2. cbn [run_commands spec_commands]. rewrite E1. cbn [mbind result_bind]. rewrite E2. cbn [mbind result_bind].
  destruct (spec_commands _ cmds) as [ls S']. done.
Qed.

(** ** Visibility *)

(** The checks of a scan over the table, one per row, with the entry kept from one to the next. *)
Fixpoint visible_all (m : AppendOnlyVisimap) (ids : list AOTupleId) : result (list bool * AppendOnlyVisimap) :=
  match ids with
  | [] => Ok ([], m)
  | id :: ids =>
      '(v, m) ← AppendOnlyVisimap_IsVisible m id;
      '(l, m) ← visible_all m ids;
      Ok (v :: l, m)
  end.

Definition vis_inv (rel : list Version) (S : gset (Z * Z)) (m : AppendOnlyVisimap) : Prop :=
  let e := visimapEntry m in
  visimapStore m = rel ∧ dirty e = false ∧ length (data e) = APPENDONLY_VISIMAP_DATA_BUFFER_SIZE ∧
  (AppendOnlyVisimapEntry_IsValid e = false ∨ ∃ k, entry_at e k ∧ agrees S k (bitmap e)).

Lemma find_visible rel S m id : represents rel S → vis_inv rel S m → tid_wf id →
  ∃ m', AppendOnlyVisimap_Find m id = Ok m' ∧ vis_inv rel S m' ∧ entry_at (visimapEntry m') (id_key id) ∧
    agrees S (id_key id) (bitmap (visimapEntry m')).
Proof.
  intros Hrep (Hst & Hd & Hl & _) Hid. destruct (id_split id Hid) as (Hk & _ & _). unfold AppendOnlyVisimap_Find. rewrite Hst.
  change (AOTupleIdGet_segmentFileNum id) with (id_key id).1. change (AppendOnlyVisimapEntry_GetFirstRowNum id) with (id_key id).2.
  destruct (find_ok rel S (id_key id) (visimapEntry m) Hrep Hk Hl) as [(-> & _ & Ha)|(d & b & i & -> & Hdl & Hb & _ & Ha)];
    cbn [mbind result_bind default]; (eexists; split; [done|]).
  - assert (entry_at (AppendOnlyVisimapEntry_New (visimapEntry m) id) (id_key id)) as He
      by exact (conj Hl (conj eq_refl (conj eq_refl (conj Hk bm_ok_None)))).
    split; [|done]. split; [done|]. split; [done|]. split; [done|]. right. eauto.
  - set (e := MkEntry d b _ _ _ _).
    assert (entry_at e (id_key id)) as He by exact (conj Hdl (conj eq_refl (conj eq_refl (conj Hk Hb)))).
    split; [|done]. split; [done|]. split; [done|]. split; [done|]. right. eauto.
Qed.

Lemma visible_step rel S m id : represents rel S → vis_inv rel S m → tid_wf id →
  ∃ m', AppendOnlyVisimap_IsVisible m id = Ok (bool_decide (tid_pair id ∉ S), m') ∧ vis_inv rel S m'.
Proof.
  intros Hrep Hinv Hid. unfold AppendOnlyVisimap_IsVisible.
  assert (∃ m', (if negb (AppendOnlyVisimapEntry_CoversTuple (visimapEntry m) id)
                 then m ← store_if_changed m; AppendOnlyVisimap_Find m id else Ok m) = Ok m' ∧
    vis_inv rel S m' ∧ entry_at (visimapEntry m') (id_key id) ∧ agrees S (id_key id) (bitmap (visimapEntry m'))) as (m' & -> & Hinv' & He & Ha).
  { pose proof (find_visible rel S m id Hrep Hinv Hid) as Hfind. pose proof Hinv as (_ & Hd & _ & Hcase).
    unfold store_if_changed, AppendOnlyVisimapEntry_HasChanged. rewrite Hd. destruct Hcase as [Hv|(k & He & Ha)].
    - by rewrite invalid_covers.
    - rewrite (covers_iff _ _ _ He Hid). destruct (bool_decide_reflect (id_key id = k)) as [<-|Hne]; [|done]. cbn. eauto. }
  cbn [mbind result_bind]. rewrite (is_visible_ok _ _ He Hid). cbn [mbind result_bind]. exists m'. split; [|done]. do 2 f_equal.
  apply bool_decide_ext. by rewrite (agrees_id S id _ Hid Ha).
Qed.

Lemma visible_all_ok rel S ids : represents rel S → Forall tid_wf ids → ∀ m, vis_inv rel S m →
  ∃ m', visible_all m ids = Ok ((λ id, bool_decide (tid_pair id ∉ S)) <$> ids, m') ∧ vis_inv rel S m'.
Proof.
  intros Hrep. induction 1 as [|id ids Hid Hwf IH]; intros m Hinv; cbn [visible_all]; [by exists m|].
  destruct (visible_step rel S m id Hrep Hinv Hid) as (m1 & -> & H1). cbn [mbind result_bind].
  destruct (IH m1 H1) as (m2 & -> & H2). cbn [mbind result_bind]. by exists m2.
Qed.

(** C35: on a relation that represents a set of hidden rows the check says of every row, in any
    sequence of checks, that it is visible exactly when it is not in the set, without
    errors, and leaves the relation alone. *)
Theorem visimap_is_visible rel S ids :
  represents rel S → Forall tid_wf ids →
  ∃ m, visible_all (AppendOnlyVisimap_Init rel) ids = Ok ((λ id, bool_decide (tid_pair id ∉ S)) <$> ids, m) ∧
       AppendOnlyVisimap_Finish m = Ok rel.
Proof.
  intros Hrep Hwf. destruct (visible_all_ok rel S ids Hrep Hwf (AppendOnlyVisimap_Init rel)) as (m & -> & Hst & Hd & _).
  { split; [done|]. split; [done|]. split; [done|]. by left. }
  exists m. split; [done|]. unfold AppendOnlyVisimap_Finish, store_if_changed, AppendOnlyVisimapEntry_HasChanged. rewrite Hd.
  cbn. by rewrite Hst.
Qed.

(** C36: gp_aovisimap lists the hidden rows: each once, with the tuple id that belongs to it, in
    the order of segment files and row numbers; only row 0 of segment file 0 is left out,
    as a scan starts behind the tuple id (0, 0). *)
Theorem visimap_scan_lists_hidden rel S :
  represents rel S →
  ∃ l, gp_aovisimap rel = Ok ((λ p, (tid_of p.1 p.2, p.1, p.2)) <$> l) ∧
       StronglySorted key_lt l ∧ ∀ p, p ∈ l ↔ p ∈ S ∧ p ≠ (0, 0).
Proof.
  intros Hrep. destruct (scan_rows rel S (λ _, true) Hrep) as [Hg Hs].
  set (l := AppendOnlyVisimapStore_BeginScan rel (λ _, true)) in *.
  assert (∀ x, x ∈ l → good_row S x.2) as Hg' by (intros x Hx; apply (Hg x Hx)).
  exists (invisible l). split; [|split].
  - unfold gp_aovisimap. apply (calls_ok S).
    + split; [done|]. split; [done|]. split; [done|]. split; [done|]. by left.
    + pose proof (invisible_length S l Hg'). pose proof (scan_length rel (λ _, true)). fold l in H0.
      pose proof (Z2Nat.id APPENDONLY_VISIMAP_MAX_RANGE ltac:(unfold APPENDONLY_VISIMAP_MAX_RANGE; lia)).
      assert (0 <= APPENDONLY_VISIMAP_MAX_RANGE) by (unfold APPENDONLY_VISIMAP_MAX_RANGE; lia). nia.
  - by apply (sorted_rows S).
  - intros [s r]. unfold invisible. rewrite (elem_of_rows S) by done.
    destruct Hrep as [Hset Hrd]. pose proof Hrd as (_ & _ & Hp). split.
    + intros (Hin & Hst & _). destruct (Hp _ Hin) as (_ & Hr & _). cbn [snd] in Hr. rewrite start_row in Hst by lia. done.
    + intros [Hin Hne]. destruct (Hp _ Hin) as (_ & Hr & _). cbn [snd] in Hr. rewrite start_row by lia. split; [done|]. split; [done|].
      by apply (scan_complete rel S).
Qed.

(** The numbers of hidden tuples are the numbers of rows in the represented set, for the
    relation and for one segment file. *)
Theorem visimap_hidden_count rel S seg :
  represents rel S →
  fst <$> AppendOnlyVisimap_GetRelationHiddenTupleCount (AppendOnlyVisimap_Init rel) = Ok (Z.of_nat (size S)) ∧
  fst <$> AppendOnlyVisimap_GetSegmentFileHiddenTupleCount (AppendOnlyVisimap_Init rel) seg
    = Ok (Z.of_nat (size (filter (λ p, p.1 = seg) S))).
Proof.
  intros Hrep. unfold AppendOnlyVisimap_GetRelationHiddenTupleCount, AppendOnlyVisimap_GetSegmentFileHiddenTupleCount.
  unfold AppendOnlyVisimapStore_GetRelationHiddenTupleCount, AppendOnlyVisimapStore_GetSegmentFileHiddenTupleCount.
  assert (∀ keys, ∃ e, count_hidden (AppendOnlyVisimapStore_BeginScan rel keys) (AppendOnlyVisimapEntry_Init None) 0
    = Ok (Z.of_nat (length (rows_from (λ _, 0) (AppendOnlyVisimapStore_BeginScan rel keys))), e)) as Hc.
  { intros keys. apply (count_ok S); [|done]. intros x Hx. by apply (scan_rows rel S keys Hrep). }
  cbn [visimapStore visimapEntry AppendOnlyVisimap_Init]. split.
  - destruct (Hc (λ _, true)) as (e & ->). cbn. do 2 f_equal.
    rewrite (scan_size rel S _ (λ _, True)) by done. f_equal. apply set_eq. intros p. rewrite elem_of_filter. tauto.
  - destruct (Hc (λ r, segno r =? seg)) as (e & ->). cbn. do 2 f_equal.
    apply (scan_size rel S _ (λ p, p.1 = seg)); [done|]. intros p r _ Hk. rewrite Z.eqb_eq. unfold row_key, pair_key in Hk. naive_solver.
Qed.

(** Removing a segment file removes its rows from the represented set and no others. *)
Theorem visimap_delete_segment rel S seg :
  represents rel S →
  ∃ m, AppendOnlyVisimap_DeleteSegmentFile (AppendOnlyVisimap_Init rel) seg = Ok m ∧
       represents (next_command (visimapStore m)) (filter (λ p, p.1 ≠ seg) S).
Proof.
  intros Hrep. unfold AppendOnlyVisimap_DeleteSegmentFile. cbn [visimapStore visimapEntry AppendOnlyVisimap_Init].
  destruct (delete_segment_ok rel S seg Hrep) as (rel' & -> & Hr). eexists. split; [done|]. by apply next_represents.
Qed.

(** C37: hiding a row keeps the bitmap within the 1024 words of an entry, so that what is written
    fits into its buffer, and reading it back gives the same bitmap. *)
Theorem visimap_entry_fits e id :
  entry_at e (id_key id) → tid_wf id →
  ∃ res e1 e2, AppendOnlyVisimapEntry_HideTuple e id = Ok (res, e1) ∧ (bms_len (bitmap e1) ≤ 1024)%nat ∧
    AppendOnlyVisimapEntry_WriteData e1 = Ok e2 ∧ length (data e2) = APPENDONLY_VISIMAP_DATA_BUFFER_SIZE ∧
    10 <= VARSIZE (data e2) <= Z.of_nat APPENDONLY_VISIMAP_DATA_BUFFER_SIZE ∧
    bitmap <$> AppendOnlyVisiMapEnty_ReadData e2 (VARSIZE (data e2) - 8) = Ok (bitmap e1) ∧
    ∀ y, elem y (bitmap e1) ↔ elem y (bitmap e) ∨ y = id_off id.
Proof.
  intros He Hid. destruct (hide_ok e id He Hid) as (b & -> & Hb & Hel). destruct He as (Hl & _).
  set (e1 := MkEntry _ b _ _ _ _). destruct (write_data_ok e1 Hb Hl) as (d & v & rest & Ew & Ed & Hv & Hd).
  destruct (varlena_length _ _ Hv) as [Hlen Hsz]. eexists _, e1, _. split; [done|]. split; [apply Hb|]. split; [exact Ew|].
  cbn [data]. replace (VARSIZE d) with (Z.of_nat (length v)) by (by rewrite Ed, Hsz). split; [done|]. split; [change APPENDONLY_VISIMAP_DATA_BUFFER_SIZE with 4106%nat; lia|].
  split; [|done]. rewrite (read_data_ok _ v (bm_words b) rest) by (done || exact Ed). cbn. f_equal. by apply bm_words_ok.
Qed.

(** ** Instances *)

Lemma represents_nil : represents [] ∅.
Proof. split; [done|]. split; [done|]. split; [done|]. set_solver. Qed.

(** Two commands on an empty relation; the second finds rows that the first has hidden. *)
Definition sample_ids : list AOTupleId := [tid_of 1 5; tid_of 1 40000; tid_of 0 0; tid_of 1 6; tid_of 2 7].
Definition sample_more : list AOTupleId := [tid_of 1 6; tid_of 1 7; tid_of 1 5].
Definition sample_rel : list Version :=
  match delete_command [] sample_ids with Ok (_, rel) => next_command rel | Err _ => [] end.
Definition sample_set : gset (Z * Z) := ∅ ∪ list_to_set (tid_pair <$> sample_ids).

Lemma sample_represents : represents sample_rel sample_set.
Proof.
  destruct (delete_command_ok [] ∅ sample_ids) as (rel & E & H); [apply represents_nil| |vm_compute; reflexivity|].
  - repeat constructor; vm_compute; congruence.
  - unfold sample_rel. rewrite E. done.
Qed.

Ltac solve_tid_wf := repeat constructor; vm_compute; congruence.

Lemma aotid_roundtrip_witness : ItemPointerCompare (tid_of 3 1099511627775) (tid_of 4 0) = -1.
Proof. apply (aotid_roundtrip 3 1099511627775 4 0); vm_compute; intuition congruence. Defined.

Lemma visimap_delete_refines_witness :
  ∃ rel, run_commands [] [sample_ids; sample_more]
    = Ok ([[HeapTupleMayBeUpdated; HeapTupleMayBeUpdated; HeapTupleMayBeUpdated; HeapTupleMayBeUpdated; HeapTupleMayBeUpdated];
           [HeapTupleUpdated; HeapTupleMayBeUpdated; HeapTupleSelfUpdated]], rel) ∧
    represents rel (spec_commands ∅ [sample_ids; sample_more]).2.
Proof.
  assert ((spec_commands ∅ [sample_ids; sample_more]).1
    = [[HeapTupleMayBeUpdated; HeapTupleMayBeUpdated; HeapTupleMayBeUpdated; HeapTupleMayBeUpdated; HeapTupleMayBeUpdated];
       [HeapTupleUpdated; HeapTupleMayBeUpdated; HeapTupleSelfUpdated]]) as <- by (vm_compute; reflexivity).
  apply (visimap_delete_refines [] ∅ [sample_ids; sample_more] represents_nil). repeat constructor; vm_compute; congruence.
Defined.

Lemma visimap_is_visible_witness :
  ∃ m, visible_all (AppendOnlyVisimap_Init sample_rel) sample_more
    = Ok ((λ id, bool_decide (tid_pair id ∉ sample_set)) <$> sample_more, m) ∧ AppendOnlyVisimap_Finish m = Ok sample_rel.
Proof. apply (visimap_is_visible sample_rel sample_set sample_more sample_represents). solve_tid_wf. Defined.

Lemma visimap_scan_lists_hidden_witness :
  ∃ l, gp_aovisimap sample_rel = Ok ((λ p, (tid_of p.1 p.2, p.1, p.2)) <$> l) ∧
       StronglySorted key_lt l ∧ ∀ p, p ∈ l ↔ p ∈ sample_set ∧ p ≠ (0, 0).
Proof. apply (visimap_scan_lists_hidden sample_rel sample_set sample_represents). Defined.

Lemma visimap_hidden_count_witness :
  fst <$> AppendOnlyVisimap_GetRelationHiddenTupleCount (AppendOnlyVisimap_Init sample_rel) = Ok 5.
Proof.
  assert (Z.of_nat (size sample_set) = 5) as <- by (vm_compute; reflexivity).
  apply (visimap_hidden_count sample_rel sample_set 1 sample_represents).
Defined.

Lemma visimap_delete_segment_witness :
  ∃ m, AppendOnlyVisimap_DeleteSegmentFile (AppendOnlyVisimap_Init sample_rel) 1 = Ok m ∧
       represents (next_command (visimapStore m)) (filter (λ p, p.1 ≠ 1) sample_set).
Proof. apply (visimap_delete_segment sample_rel sample_set 1 sample_represents). Defined.

Definition sample_entry : AppendOnlyVisimapEntry := AppendOnlyVisimapEntry_New (AppendOnlyVisimapEntry_Init None) (tid_of 1 32767).

Lemma visimap_entry_fits_witness : ∃ res e1 e2,
  AppendOnlyVisimapEntry_HideTuple sample_entry (tid_of 1 32767) = Ok (res, e1) ∧ (bms_len (bitmap e1) ≤ 1024)%nat ∧
  AppendOnlyVisimapEntry_WriteData e1 = Ok e2 ∧ length (data e2) = APPENDONLY_VISIMAP_DATA_BUFFER_SIZE ∧
  10 <= VARSIZE (data e2) <= Z.of_nat APPENDONLY_VISIMAP_DATA_BUFFER_SIZE ∧
  bitmap <$> AppendOnlyVisiMapEnty_ReadData e2 (VARSIZE (data e2) - 8) = Ok (bitmap e1) ∧
  ∀ y, elem y (bitmap e1) ↔ elem y (bitmap sample_entry) ∨ y = id_off (tid_of 1 32767).
Proof.
  apply (visimap_entry_fits sample_entry (tid_of 1 32767)); [|solve_tid_wf].
  refine (conj eq_refl (conj eq_refl (conj eq_refl (conj _ bm_ok_None)))). vm_compute. intuition congruence.
Defined.

End VisimapProps.
