(* ===== verification/Dynahash.v ===== *)
(** The dynamic hash tables of dynahash.c: linear hashing over a directory of
    segments of bucket headers, each bucket a chain of elements.

    The elements live at stable addresses, their indices in [elements]; a chain
    follows [link].  A pointer to a pointer is a location [Loc]: a bucket header or
    the link of an element.  [World] holds a table, the answers the allocator will
    give and the process-wide list of open scans.  An operation is a function of
    the world that also returns it on errors, as the table outlives an
    [elog(ERROR)].  Keys are hashed, compared and copied by [KeyFunctions]. *)

From Stdlib Require Import ZArith Lia.
From stdpp Require Import base list option numbers strings.
From S2P Require Import Prelude.

Module Dynahash.

(** ** Data *)

Definition DEF_SEGSIZE : Z := 256.
Definition DEF_SEGSIZE_SHIFT : Z := 8.
Definition DEF_DIRSIZE : Z := 256.
Definition DEF_FFACTOR : Z := 1.
Definition NO_MAX_DSIZE : Z := -1.
Definition MAX_SEQ_SCANS : nat := 100.
Definition LONG_MAX : Z := 2 ^ 63 - 1.
Definition INT_MAX : Z := 2 ^ 31 - 1.

(** The hash, comparison and copy functions of a table, at its key size. *)
Class KeyFunctions (K : Type) := {
  hash : K → Z;
  match_key : K → K → bool;
  keycopy : K → K }.

(** An element: the private part, the key and the caller's data behind it. *)
Record HASHELEMENT (K D : Type) := MkElem {
  link : option nat; hashvalue : Z; key : K; data : D }.
Arguments MkElem {K D} _ _ _ _.
Arguments link {K D} _.
Arguments hashvalue {K D} _.
Arguments key {K D} _.
Arguments data {K D} _.

Notation HASHBUCKET := (option nat).
Notation HASHSEGMENT := (list HASHBUCKET).

Record HASHHDR := MkHdr {
  nentries : Z; freeList : HASHBUCKET;
  dsize : Z; nsegs : Z; max_bucket : Z; high_mask : Z; low_mask : Z;
  hdr_keysize : Z; entrysize : Z; num_partitions : Z; ffactor : Z; max_dsize : Z;
  hdr_ssize : Z; hdr_sshift : Z; nelem_alloc : Z }.

Definition IS_PARTITIONED (hctl : HASHHDR) : bool := negb (num_partitions hctl =? 0).

(** [is_palloc]: the allocator is [DynaHashAlloc], which raises an error instead
    of returning NULL.  A directory entry that was never written is [None]. *)
Record HTAB (K D : Type) := MkHtab {
  hctl : HASHHDR; dir : list (option HASHSEGMENT); elements : list (HASHELEMENT K D);
  is_palloc : bool; isshared : bool; frozen : bool;
  keysize : Z; ssize : Z; sshift : Z }.
Arguments MkHtab {K D} _ _ _ _ _ _ _ _ _.
Arguments hctl {K D} _.
Arguments dir {K D} _.
Arguments elements {K D} _.
Arguments is_palloc {K D} _.
Arguments isshared {K D} _.
Arguments frozen {K D} _.
Arguments keysize {K D} _.
Arguments ssize {K D} _.
Arguments sshift {K D} _.

Inductive HASHACTION := HASH_FIND | HASH_ENTER | HASH_REMOVE | HASH_ENTER_NULL.

(** [seq_hashp]: the scan has a table, its pointer is not NULL. *)
Record HASH_SEQ_STATUS := MkSeq {
  seq_hashp : bool; curBucket : Z; curEntry : HASHBUCKET }.

(** An open scan: the table and the nest level of the subtransaction. *)
Record SeqScan := MkScan { seq_scan_table : nat; seq_scan_level : Z }.

(** [self] is the address of the table, [nest_level] what
    [GetCurrentTransactionNestLevel] returns, [supply] the allocator's answers. *)
Record World (K D : Type) := MkWorld {
  tab : HTAB K D; supply : list bool; seq_scans : list SeqScan;
  self : nat; nest_level : Z }.
Arguments MkWorld {K D} _ _ _ _ _.
Arguments tab {K D} _.
Arguments supply {K D} _.
Arguments seq_scans {K D} _.
Arguments self {K D} _.
Arguments nest_level {K D} _.

(** ** Updates *)

Definition set_entries (h : HASHHDR) (n : Z) (fl : HASHBUCKET) : HASHHDR :=
  MkHdr n fl (dsize h) (nsegs h) (max_bucket h) (high_mask h) (low_mask h)
    (hdr_keysize h) (entrysize h) (num_partitions h) (ffactor h) (max_dsize h)
    (hdr_ssize h) (hdr_sshift h) (nelem_alloc h).
Definition set_dir_sizes (h : HASHHDR) (ds ns : Z) : HASHHDR :=
  MkHdr (nentries h) (freeList h) ds ns (max_bucket h) (high_mask h) (low_mask h)
    (hdr_keysize h) (entrysize h) (num_partitions h) (ffactor h) (max_dsize h)
    (hdr_ssize h) (hdr_sshift h) (nelem_alloc h).
Definition set_buckets (h : HASHHDR) (mb hm lm : Z) : HASHHDR :=
  MkHdr (nentries h) (freeList h) (dsize h) (nsegs h) mb hm lm
    (hdr_keysize h) (entrysize h) (num_partitions h) (ffactor h) (max_dsize h)
    (hdr_ssize h) (hdr_sshift h) (nelem_alloc h).
Definition set_nelem_alloc (h : HASHHDR) (n : Z) : HASHHDR :=
  MkHdr (nentries h) (freeList h) (dsize h) (nsegs h) (max_bucket h) (high_mask h)
    (low_mask h) (hdr_keysize h) (entrysize h) (num_partitions h) (ffactor h)
    (max_dsize h) (hdr_ssize h) (hdr_sshift h) n.

(** ** Arithmetic *)

(** Fast MOD arithmetic, assuming that y is a power of 2. *)
Definition MOD (x y : Z) : Z := Z.land x (y - 1).

(** [for (i = 0, limit = 1; limit < num; i++, limit <<= 1);] *)
Fixpoint log2_loop (fuel : nat) (i limit num : Z) : Z :=
  match fuel with
  | O => i
  | S fuel => if limit <? num then log2_loop fuel (i + 1) (Z.shiftl limit 1) num else i
  end.
Definition my_log2 (num : Z) : Z :=
  let num := if num >? LONG_MAX / 2 then LONG_MAX / 2 else num in
  log2_loop 63 0 1 num.

Definition next_pow2_long (num : Z) : Z := Z.shiftl 1 (my_log2 num).
Definition next_pow2_int (num : Z) : Z :=
  let num := if num >? INT_MAX / 2 then INT_MAX / 2 else num in
  Z.shiftl 1 (my_log2 num).

(** [while (n < bound) n <<= 1;], [n] of the width of [wrap]. *)
Fixpoint double_up (wrap : Z → Z) (fuel : nat) (n bound : Z) : Z :=
  match fuel with
  | O => n
  | S fuel =>
      if n <? bound then double_up wrap fuel (wrap (Z.shiftl n 1)) bound else n
  end.
Definition s64 (z : Z) : Z := (z + 2 ^ 63) mod 2 ^ 64 - 2 ^ 63.

Definition MAXALIGN (n : Z) : Z := Z.land (u64 (n + 7)) (2 ^ 64 - 8).
Definition sizeof_HASHELEMENT : Z := 16.

(** [do { allocSize <<= 1; nelem_alloc = allocSize / elementSize; }
    while (nelem_alloc < 32);] *)
Fixpoint nelem_loop (fuel : nat) (allocSize elementSize : Z) : Z :=
  let allocSize := u64 (Z.shiftl allocSize 1) in
  let nelem_alloc := s32 (allocSize / elementSize) in
  match fuel with
  | O => nelem_alloc
  | S fuel => if nelem_alloc <? 32 then nelem_loop fuel allocSize elementSize
              else nelem_alloc
  end.
Definition choose_nelem_alloc (entrysize : Z) : Z :=
  let elementSize := u64 (MAXALIGN sizeof_HASHELEMENT + MAXALIGN entrysize) in
  nelem_loop 64 (32 * 4) elementSize.

(** The segments and the directory entries that [hash_select_dirsize] and
    [hash_estimate_size] expect. *)
Definition nSegments (num_entries : Z) : Z :=
  let nBuckets := next_pow2_long ((num_entries - 1) `quot` DEF_FFACTOR + 1) in
  next_pow2_long ((nBuckets - 1) `quot` DEF_SEGSIZE + 1).
Definition nDirEntries (num_entries : Z) : Z :=
  double_up s64 64 DEF_DIRSIZE (nSegments num_entries).
Definition hash_select_dirsize (num_entries : Z) : Z := nDirEntries num_entries.

(** The checked arithmetic of shmem.c on sizes. *)
Definition add_size (s1 s2 : Z) : result Z :=
  let r := u64 (s1 + s2) in
  if (r <? s1) || (r <? s2) then Err "requested shared memory size overflows size_t" else Ok r.
Definition mul_size (s1 s2 : Z) : result Z :=
  if (s1 =? 0) || (s2 =? 0) then Ok 0 else
  let r := u64 (s1 * s2) in
  if negb (r / s2 =? s1) then Err "requested shared memory size overflows size_t" else Ok r.

Definition sizeof_HASHHDR : Z := 112.
Definition sizeof_pointer : Z := 8.

Definition hash_estimate_size (num_entries entrysize : Z) : result Z :=
  let size := MAXALIGN sizeof_HASHHDR in
  x ← mul_size (nDirEntries num_entries) sizeof_pointer;
  size ← add_size size x;
  x ← mul_size (nSegments num_entries) (MAXALIGN (DEF_SEGSIZE * sizeof_pointer));
  size ← add_size size x;
  let elementAllocCnt := choose_nelem_alloc entrysize in
  let nElementAllocs := (num_entries - 1) `quot` elementAllocCnt + 1 in
  let elementSize := u64 (MAXALIGN sizeof_HASHELEMENT + MAXALIGN entrysize) in
  x ← mul_size elementAllocCnt elementSize;
  x ← mul_size nElementAllocs x;
  add_size size x.

(** Convert a hash value to a bucket number. *)
Definition calc_bucket (hctl : HASHHDR) (hash_val : Z) : Z :=
  let bucket := Z.land hash_val (high_mask hctl) in
  if bucket >? max_bucket hctl then Z.land bucket (low_mask hctl) else bucket.

(** ** Open scans *)

(** The entry at [i] is overwritten with the last one, which goes away. *)
Definition drop_scan (i : nat) (scans : list SeqScan) : list SeqScan :=
  let last := (length scans - 1)%nat in
  match scans !! last with
  | Some s => take last (<[i := s]> scans)
  | None => scans
  end.

Definition has_seq_scans_in (hashp : nat) (scans : list SeqScan) : bool :=
  existsb (λ s, Nat.eqb (seq_scan_table s) hashp) scans.

(** [for (i = num_seq_scans - 1; i >= 0; i--)] of [deregister_seq_scan]. *)
Fixpoint deregister_loop (n : nat) (hashp : nat) (scans : list SeqScan) :
    option (list SeqScan) :=
  match n with
  | O => None
  | S i =>
      match scans !! i with
      | Some s => if Nat.eqb (seq_scan_table s) hashp then Some (drop_scan i scans)
                  else deregister_loop i hashp scans
      | None => None
      end
  end.

(** At the end of a transaction; the first result is the tables warned about. *)
Definition AtEOXact_HashTables (isCommit : bool) (scans : list SeqScan) :
    list nat * list SeqScan :=
  (if isCommit then seq_scan_table <$> scans else [], []).

(** At the end of a subtransaction. *)
Fixpoint subxact_loop (n : nat) (isCommit : bool) (nestDepth : Z) (warned : list nat)
    (scans : list SeqScan) : list nat * list SeqScan :=
  match n with
  | O => (warned, scans)
  | S i =>
      match scans !! i with
      | Some s =>
          if seq_scan_level s >=? nestDepth then
            subxact_loop i isCommit nestDepth (if isCommit then warned ++ [seq_scan_table s] else warned)
              (drop_scan i scans)
          else subxact_loop i isCommit nestDepth warned scans
      | None => (warned, scans)
      end
  end.
Definition AtEOSubXact_HashTables (isCommit : bool) (nestDepth : Z)
    (scans : list SeqScan) : list nat * list SeqScan :=
  subxact_loop (length scans) isCommit nestDepth [] scans.

(** ** Operations *)

Section Operations.
Context {K D : Type} `{KeyFunctions K} `{Inhabited K} `{Inhabited D}.

Notation HTAB := (HTAB K D).
Notation World := (World K D).

Definition M (A : Type) : Type := World → World * result A.
#[export] Instance M_ret : MRet M := λ A a w, (w, Ok a).
#[export] Instance M_bind : MBind M := λ A B f m w,
  match m w with
  | (w', Ok a) => f a w'
  | (w', Err e) => (w', Err e)
  end.
Definition raise {A} (e : string) : M A := λ w, (w, Err e).
Definition gets {A} (f : World → A) : M A := λ w, (w, Ok (f w)).
Definition modify (f : World → World) : M unit := λ w, (f w, Ok tt).

Definition with_tab (w : World) (h : HTAB) : World :=
  MkWorld h (supply w) (seq_scans w) (self w) (nest_level w).
Definition with_scans (w : World) (s : list SeqScan) : World :=
  MkWorld (tab w) (supply w) s (self w) (nest_level w).
Definition with_supply (w : World) (s : list bool) : World :=
  MkWorld (tab w) s (seq_scans w) (self w) (nest_level w).
Definition with_hctl (h : HTAB) (c : HASHHDR) : HTAB :=
  MkHtab c (dir h) (elements h) (is_palloc h) (isshared h) (frozen h)
    (keysize h) (ssize h) (sshift h).
Definition with_dir (h : HTAB) (d : list (option HASHSEGMENT)) : HTAB :=
  MkHtab (hctl h) d (elements h) (is_palloc h) (isshared h) (frozen h)
    (keysize h) (ssize h) (sshift h).
Definition with_elements (h : HTAB) (es : list (HASHELEMENT K D)) : HTAB :=
  MkHtab (hctl h) (dir h) es (is_palloc h) (isshared h) (frozen h)
    (keysize h) (ssize h) (sshift h).
Definition with_frozen (h : HTAB) (f : bool) : HTAB :=
  MkHtab (hctl h) (dir h) (elements h) (is_palloc h) (isshared h) f
    (keysize h) (ssize h) (sshift h).

Definition update (f : HTAB → HTAB) : M unit := modify (λ w, with_tab w (f (tab w))).

(** An access outside of what is allocated. *)
Definition bad_access : string := "invalid memory access".
Definition deref {A} (o : option A) : M A :=
  match o with Some a => mret a | None => raise bad_access end.

(** A pointer to a bucket pointer: [&segp[ndx]] or [&elem->link]. *)
Inductive Loc := Slot (seg ndx : nat) | LinkOf (elem : nat).

Definition set_link (l : HASHBUCKET) (e : HASHELEMENT K D) : HASHELEMENT K D :=
  MkElem l (hashvalue e) (key e) (data e).

Definition segment (h : HTAB) (n : nat) : option HASHSEGMENT := mjoin (dir h !! n).

(** [*loc] and [*loc = v]. *)
Definition load (h : HTAB) (l : Loc) : option HASHBUCKET :=
  match l with
  | Slot seg ndx => segment h seg ≫= (.!! ndx)
  | LinkOf a => link <$> elements h !! a
  end.
Definition store (l : Loc) (v : HASHBUCKET) (h : HTAB) : HTAB :=
  match l with
  | Slot seg ndx => with_dir h (alter (fmap <[ndx := v]>) seg (dir h))
  | LinkOf a => with_elements h (alter (set_link v) a (elements h))
  end.
(** The header of bucket [b]: [&hashp->dir[b >> sshift][MOD(b, ssize)]]. *)
Definition bucket_slot (h : HTAB) (b : Z) : Loc :=
  Slot (Z.to_nat (Z.shiftr b (sshift h))) (Z.to_nat (MOD b (ssize h))).

(** [hashp->alloc(size)] returns memory or not. *)
Definition alloc : M bool := λ w,
  let '(ok, rest) := match supply w with b :: s => (b, s) | [] => (false, []) end in
  let w := with_supply w rest in
  if ok then (w, Ok true)
  else if is_palloc (tab w) then (w, Err "out of memory") else (w, Ok false).

Definition seg_alloc : M (option HASHSEGMENT) :=
  ok ← alloc;
  h ← gets tab;
  mret (if ok : bool then Some (replicate (Z.to_nat (ssize h)) None) else None).

Definition dir_realloc : M bool :=
  h ← gets tab;
  if negb (max_dsize (hctl h) =? NO_MAX_DSIZE) then mret false else
  let new_dsize := Z.shiftl (dsize (hctl h)) 1 in
  p ← alloc;
  if p : bool then
    update (λ h, with_hctl
      (with_dir h (take (Z.to_nat (dsize (hctl h))) (dir h) ++
         replicate (Z.to_nat new_dsize - Z.to_nat (dsize (hctl h))) None))
      (set_dir_sizes (hctl h) new_dsize (nsegs (hctl h))));;
    (* [Assert(hashp->alloc == DynaHashAlloc); pfree(old_p)] *)
    if is_palloc h then mret true else raise bad_access
  else mret false.

(** The links of [nelem] new elements at [base]: each one to the one before. *)
Fixpoint new_elements (nelem : nat) (base : nat) (prev : HASHBUCKET) :
    list (HASHELEMENT K D) :=
  match nelem with
  | O => []
  | S n => MkElem prev 0 inhabitant inhabitant :: new_elements n (S base) (Some base)
  end.

(** Allocate some new elements and link them into the free list; without an element
    there is no [firstElement->link] to set. *)
Definition element_alloc (nelem : Z) : M bool :=
  firstElement ← alloc;
  if firstElement : bool then
    if nelem <? 1 then raise bad_access else
    update (λ h,
      let base := length (elements h) in
      let n := Z.to_nat nelem in
      let prevElement := match n with O => None | S m => Some (base + m)%nat end in
      let h := with_elements h (elements h ++ new_elements n base None) in
      let h := store (LinkOf base) (freeList (hctl h)) h in
      with_hctl h (set_entries (hctl h) (nentries (hctl h)) prevElement));;
    mret true
  else mret false.

(** Create a new entry if possible. *)
Fixpoint get_hash_entry_loop (fuel : nat) : M (option nat) :=
  match fuel with
  | O => raise "for (;;)"
  | S fuel =>
      h ← gets tab;
      match freeList (hctl h) with
      | Some newElement =>
          l ← deref (load h (LinkOf newElement));
          update (λ h, with_hctl h (set_entries (hctl h) (nentries (hctl h) + 1) l));;
          mret (Some newElement)
      | None =>
          ok ← element_alloc (nelem_alloc (hctl h));
          if ok : bool then get_hash_entry_loop fuel else mret None
      end
  end.
Definition get_hash_entry : M (option nat) := get_hash_entry_loop 2.

Definition hash_corrupted {A} : M A :=
  h ← gets tab;
  raise (if isshared h : bool then "PANIC: hash table corrupted"
         else "FATAL: hash table corrupted").

(** [for (currElement = *oldlink; currElement != NULL; currElement = nextElement)]
    of [expand_table]. *)
Fixpoint relocate_loop (fuel : nat) (h : HTAB) (old_bucket : Z)
    (oldlink newlink : Loc) (currElement : HASHBUCKET) : option (HTAB * Loc * Loc) :=
  match fuel with
  | O => None
  | S fuel =>
      match currElement with
      | None => Some (h, oldlink, newlink)
      | Some a =>
          e ← elements h !! a;
          let nextElement := link e in
          if calc_bucket (hctl h) (hashvalue e) =? old_bucket then
            relocate_loop fuel (store oldlink (Some a) h) old_bucket (LinkOf a) newlink
              nextElement
          else
            relocate_loop fuel (store newlink (Some a) h) old_bucket oldlink (LinkOf a)
              nextElement
      end
  end.

(** Allocate the segment of the new bucket if necessary. *)
Definition expand_segment (new_segnum : Z) : M bool :=
  h ← gets tab;
  if new_segnum >=? nsegs (hctl h) then
    ok ← (if new_segnum >=? dsize (hctl h) then dir_realloc else mret true);
    if negb ok then mret false else
    s ← seg_alloc;
    (* [hashp->dir[new_segnum] = seg_alloc(hashp)] *)
    update (λ h, with_dir h (<[Z.to_nat new_segnum := s]> (dir h)));;
    match s with
    | None => mret false
    | Some _ =>
        update (λ h, with_hctl h
          (set_dir_sizes (hctl h) (dsize (hctl h)) (nsegs (hctl h) + 1)));;
        mret true
    end
  else mret true.

(** The masks once [new_bucket] is in use. *)
Definition grow_masks (c : HASHHDR) (new_bucket : Z) : HASHHDR :=
  if u32 new_bucket >? high_mask c then
    set_buckets c (u32 (max_bucket c + 1)) (Z.lor (u32 new_bucket) (high_mask c)) (high_mask c)
  else set_buckets c (u32 (max_bucket c + 1)) (high_mask c) (low_mask c).

(** Expand the table by adding one more hash bucket. *)
Definition expand_table : M bool :=
  h ← gets tab;
  let new_bucket := u32 (max_bucket (hctl h) + 1) in
  let new_segnum := Z.shiftr new_bucket (sshift h) in
  ok ← expand_segment new_segnum;
  if negb ok then mret false else
  h ← gets tab;
  let old_bucket := Z.land new_bucket (low_mask (hctl h)) in
  update (λ h, with_hctl h (grow_masks (hctl h) new_bucket));;
  h ← gets tab;
  let oldlink := bucket_slot h old_bucket in
  let newlink := bucket_slot h new_bucket in
  first ← deref (load h oldlink);
  _ ← deref (load h newlink);
  '(h, oldlink, newlink) ←
    deref (relocate_loop (S (length (elements h))) h old_bucket oldlink newlink first);
  update (λ _, store newlink None (store oldlink None h));;
  mret true.

Definition has_seq_scans : M bool :=
  gets (λ w, has_seq_scans_in (self w) (seq_scans w)).

(** Follow the collision chain looking for the matching key. *)
Fixpoint chain_loop (fuel : nat) (h : HTAB) (hv : Z) (k : K) (prevBucketPtr : Loc)
    (currBucket : HASHBUCKET) : option (Loc * HASHBUCKET) :=
  match fuel with
  | O => None
  | S fuel =>
      match currBucket with
      | None => Some (prevBucketPtr, None)
      | Some a =>
          e ← elements h !! a;
          if (hashvalue e =? hv) && match_key (key e) k then Some (prevBucketPtr, Some a)
          else chain_loop fuel h hv k (LinkOf a) (link e)
      end
  end.

(** Split a bucket before an insertion if it is time to. *)
Definition maybe_expand : M unit :=
  h ← gets tab;
  if IS_PARTITIONED (hctl h) || frozen h then mret () else
  let buckets := u32 (max_bucket (hctl h) + 1) in
  if buckets =? 0 then raise "division by zero" else
  busy ← has_seq_scans;
  if (nentries (hctl h) `quot` buckets >=? ffactor (hctl h)) && negb busy
  then _ ← expand_table; mret () else mret ().

(** [HASH_REMOVE] of the element [a] that [prevBucketPtr] points to. *)
Definition remove_element (prevBucketPtr : Loc) (a : nat) : M unit :=
  h ← gets tab;
  l ← deref (load h (LinkOf a));
  update (λ h,
    let fl := freeList (hctl h) in
    let h := with_hctl h (set_entries (hctl h) (nentries (hctl h) - 1) fl) in
    let h := store prevBucketPtr l h in
    let h := store (LinkOf a) fl h in
    with_hctl h (set_entries (hctl h) (nentries (hctl h)) (Some a))).

(** Link a new entry into the chain and copy the key. *)
Definition link_element (prevBucketPtr : Loc) (a : nat) (hv : Z) (k : K) : M unit :=
  update (λ h,
    let h := store prevBucketPtr (Some a) h in
    with_elements h
      (alter (λ e, MkElem None hv (keycopy k) (data e)) a (elements h))).

(** The result is the element and [*foundPtr]. *)
Definition hash_search_with_hash_value (k : K) (hv : Z) (action : HASHACTION) :
    M (option nat * bool) :=
  (match action with
   | HASH_ENTER | HASH_ENTER_NULL => maybe_expand
   | _ => mret ()
   end);;
  h ← gets tab;
  let bucket := calc_bucket (hctl h) hv in
  let segment_num := Z.to_nat (Z.shiftr bucket (sshift h)) in
  segp ← deref (dir h !! segment_num);
  match segp with
  | None => hash_corrupted
  | Some _ =>
      currBucket ← deref (load h (bucket_slot h bucket));
      '(prevBucketPtr, currBucket) ←
        deref (chain_loop (S (length (elements h))) h hv k (bucket_slot h bucket) currBucket);
      let found := bool_decide (is_Some currBucket) in
      match action with
      | HASH_FIND => mret (currBucket, found)
      | HASH_REMOVE =>
          match currBucket with
          | Some a => remove_element prevBucketPtr a;; mret (Some a, found)
          | None => mret (None, found)
          end
      | HASH_ENTER | HASH_ENTER_NULL =>
          match currBucket with
          | Some a => mret (Some a, found)
          | None =>
              if frozen h : bool then raise "cannot insert into frozen hashtable" else
              e ← get_hash_entry;
              match e with
              | None =>
                  match action with
                  | HASH_ENTER_NULL => mret (None, found)
                  | _ => raise (if isshared h : bool then "out of shared memory"
                                else "out of memory")
                  end
              | Some a => link_element prevBucketPtr a hv k;; mret (Some a, found)
              end
          end
      end
  end.

Definition get_hash_value (k : K) : Z := hash k.
Definition hash_search (k : K) (action : HASHACTION) : M (option nat * bool) :=
  hash_search_with_hash_value k (hash k) action.
Definition hash_get_num_entries : M Z := gets (λ w, nentries (hctl (tab w))).

(** ** Sequential scans *)

Definition register_seq_scan : M unit :=
  scans ← gets seq_scans;
  if (MAX_SEQ_SCANS <=? length scans)%nat then raise "too many active hash_seq_search scans"
  else modify (λ w, with_scans w (seq_scans w ++ [MkScan (self w) (nest_level w)])).
Definition deregister_seq_scan : M unit :=
  scans ← gets seq_scans;
  me ← gets self;
  match deregister_loop (length scans) me scans with
  | Some s => modify (λ w, with_scans w s)
  | None => raise "no hash_seq_search scan for hash table"
  end.

(** [hashp] says whether a table is passed, or NULL. *)
Definition hash_seq_init (hashp : bool) : M HASH_SEQ_STATUS :=
  h ← gets tab;
  (if hashp && negb (frozen h) then register_seq_scan else mret ());;
  mret (MkSeq hashp 0 None).

Definition hash_seq_term : M unit :=
  h ← gets tab;
  if negb (frozen h) then deregister_seq_scan else mret ().

(** [while ((curElem = segp[segment_ndx]) == NULL)]: the bucket reached, and its
    first element unless the buckets are exhausted. *)
Fixpoint seq_loop (fuel : nat) (h : HTAB) (segp : HASHSEGMENT)
    (curBucket segment_num segment_ndx : Z) : option (Z * option nat) :=
  match fuel with
  | O => None
  | S fuel =>
      curElem ← segp !! Z.to_nat segment_ndx;
      match curElem with
      | Some a => Some (curBucket, Some a)
      | None =>
          let curBucket := u32 (curBucket + 1) in
          if curBucket >? max_bucket (hctl h) then Some (curBucket, None) else
          let segment_ndx := segment_ndx + 1 in
          if segment_ndx >=? ssize h then
            segp ← segment h (Z.to_nat (segment_num + 1));
            seq_loop fuel h segp curBucket (segment_num + 1) 0
          else seq_loop fuel h segp curBucket segment_num segment_ndx
      end
  end.

Definition hash_seq_search (status : HASH_SEQ_STATUS) :
    M (HASH_SEQ_STATUS * option nat) :=
  h ← gets tab;
  match curEntry status with
  | Some a =>
      l ← deref (load h (LinkOf a));
      let b := match l with
               | None => u32 (curBucket status + 1) | Some _ => curBucket status end in
      mret (MkSeq (seq_hashp status) b l, Some a)
  | None =>
      if negb (seq_hashp status) then mret (status, None) else
      if curBucket status >? max_bucket (hctl h) then
        hash_seq_term;; mret (status, None)
      else
        let segment_num := Z.shiftr (curBucket status) (sshift h) in
        let segment_ndx := MOD (curBucket status) (ssize h) in
        segp ← deref (segment h (Z.to_nat segment_num));
        '(b, curElem) ←
          deref (seq_loop (S (Z.to_nat (max_bucket (hctl h)))) h segp
                   (curBucket status) segment_num segment_ndx);
        match curElem with
        | None => hash_seq_term;; mret (MkSeq (seq_hashp status) b None, None)
        | Some a =>
            l ← deref (load h (LinkOf a));
            let b := match l with None => u32 (b + 1) | Some _ => b end in
            mret (MkSeq (seq_hashp status) b l, Some a)
        end
  end.

Definition hash_freeze : M unit :=
  h ← gets tab;
  if isshared h : bool then raise "cannot freeze shared hashtable" else
  busy ← has_seq_scans;
  if negb (frozen h) && busy then raise "cannot freeze hashtable because it has active scans"
  else update (λ h, with_frozen h true).

(** ** Creation *)

(** The parameters; [ctl_hctl] is what the shared memory at [info->hctl] holds: the
    header, the directory behind it and the elements they lead to. *)
Record HASHCTL := MkCtl {
  ctl_num_partitions : Z; ctl_ssize : Z; ctl_dsize : Z; ctl_max_dsize : Z;
  ctl_ffactor : Z; ctl_keysize : Z; ctl_entrysize : Z;
  ctl_hctl : HASHHDR * list (option HASHSEGMENT) * list (HASHELEMENT K D) }.

Definition HASH_PARTITION : Z := 0x001.
Definition HASH_SEGMENT : Z := 0x002.
Definition HASH_DIRSIZE : Z := 0x004.
Definition HASH_FFACTOR : Z := 0x008.
Definition HASH_ELEM : Z := 0x020.
Definition HASH_SHARED_MEM : Z := 0x040.
Definition HASH_ATTACH : Z := 0x080.
Definition HASH_ALLOC : Z := 0x100.
Definition flag (flags f : Z) : bool := negb (Z.land flags f =? 0).

(** Set default HASHHDR parameters. *)
Definition hdefault : HASHHDR :=
  MkHdr 0 None DEF_DIRSIZE 0 0 0 0 sizeof_pointer (2 * sizeof_pointer) 0 DEF_FFACTOR
    NO_MAX_DSIZE DEF_SEGSIZE DEF_SEGSIZE_SHIFT 0.

(** The defaults overridden by what the flags name. *)
Definition header_of (info : HASHCTL) (flags : Z) : HASHHDR :=
  let pick f a b := if flag flags f then a else b in
  let d := hdefault in
  MkHdr (nentries d) (freeList d) (pick HASH_DIRSIZE (ctl_dsize info) (dsize d)) (nsegs d)
    (max_bucket d) (high_mask d) (low_mask d)
    (pick HASH_ELEM (ctl_keysize info) (hdr_keysize d))
    (pick HASH_ELEM (ctl_entrysize info) (entrysize d))
    (pick HASH_PARTITION (ctl_num_partitions info) (num_partitions d))
    (pick HASH_FFACTOR (ctl_ffactor info) (ffactor d))
    (pick HASH_DIRSIZE (ctl_max_dsize info) (max_dsize d))
    (pick HASH_SEGMENT (ctl_ssize info) (hdr_ssize d))
    (pick HASH_SEGMENT (my_log2 (ctl_ssize info)) (hdr_sshift d))
    (nelem_alloc d).

(** [for (segp = hashp->dir; hctl->nsegs < nsegs; hctl->nsegs++, segp++)] *)
Fixpoint init_segs (fuel : nat) (segp : nat) (n : Z) : M bool :=
  match fuel with
  | O => raise "for"
  | S fuel =>
      h ← gets tab;
      if nsegs (hctl h) <? n then
        s ← seg_alloc;
        update (λ h, with_dir h (<[segp := s]> (dir h)));;
        match s with
        | None => mret false
        | Some _ =>
            update (λ h, with_hctl h
              (set_dir_sizes (hctl h) (dsize (hctl h)) (nsegs (hctl h) + 1)));;
            init_segs fuel (S segp) n
        end
      else mret true
  end.

(** The number of buckets, and of segments, that a new table starts with. *)
Definition init_nbuckets (c : HASHHDR) (nelem : Z) : Z :=
  let nbuckets := next_pow2_int ((nelem - 1) `quot` ffactor c + 1) in
  double_up s32 31 nbuckets (num_partitions c).
Definition init_nsegs (c : HASHHDR) (nbuckets : Z) : Z :=
  next_pow2_int (s32 ((nbuckets - 1) `quot` hdr_ssize c + 1)).

(** The directory is NULL until here unless the table is shared. *)
Definition init_htab (nelem : Z) : M bool :=
  h ← gets tab;
  let nbuckets := init_nbuckets (hctl h) nelem in
  update (λ h, with_hctl h (set_buckets (hctl h) (u32 (nbuckets - 1))
    (u32 (s32 (s32 (Z.shiftl nbuckets 1) - 1))) (u32 (nbuckets - 1))));;
  let nsegs' := init_nsegs (hctl h) nbuckets in
  if (nsegs' >? dsize (hctl h)) && isshared h then mret false else
  (if nsegs' >? dsize (hctl h)
   then update (λ h, with_hctl h (set_dir_sizes (hctl h) nsegs' (nsegs (hctl h))))
   else mret ());;
  ok ← (if isshared h : bool then mret true else
          p ← alloc;
          if p : bool then
            update (λ h, with_dir h (replicate (Z.to_nat (dsize (hctl h))) None));; mret true
          else mret false);
  if negb ok then mret false else
  ok ← init_segs (S (Z.to_nat nsegs')) 0 nsegs';
  if negb ok then mret false else
  update (λ h, with_hctl h
    (set_nelem_alloc (hctl h) (choose_nelem_alloc (entrysize (hctl h)))));;
  mret true.

(** [DynaHashAlloc]: an error instead of NULL. *)
Definition DynaHashAlloc : M unit := λ w,
  match supply w with
  | true :: s => (with_supply w s, Ok tt)
  | s => (with_supply w (drop 1 s), Err "out of memory")
  end.

(** The local header of the table before [hctl] is filled in. *)
Definition new_htab (info : HASHCTL) (flags : Z) : HTAB :=
  let '(c, d, es) := ctl_hctl info in
  if flag flags HASH_SHARED_MEM
  then MkHtab c d es (negb (flag flags HASH_ALLOC)) true false 0 0 0
  else MkHtab hdefault [] [] (negb (flag flags HASH_ALLOC)) false false 0 0 0.

(** Make local copies of heavily-used fields. *)
Definition local_copies (h : HTAB) : HTAB :=
  MkHtab (hctl h) (dir h) (elements h) (is_palloc h) (isshared h) (frozen h)
    (hdr_keysize (hctl h)) (hdr_ssize (hctl h)) (hdr_sshift (hctl h)).

Definition hash_create (nelem : Z) (info : HASHCTL) (flags : Z) : M unit :=
  DynaHashAlloc;;
  update (λ _, new_htab info flags);;
  if flag flags HASH_SHARED_MEM && flag flags HASH_ATTACH then update local_copies else
  ok ← (if flag flags HASH_SHARED_MEM then mret true else alloc);
  if negb ok then raise "out of memory" else
  update (λ h, local_copies (with_hctl (with_elements h []) (header_of info flags)));;
  ok ← init_htab nelem;
  if negb ok then raise "failed to initialize hash table" else
  h ← gets tab;
  if flag flags HASH_SHARED_MEM || (nelem <? nelem_alloc (hctl h)) then
    ok ← element_alloc (s32 nelem);
    if negb ok then raise "out of memory" else mret ()
  else mret ().

Definition hash_get_shared_size (info : HASHCTL) : Z :=
  u64 (sizeof_HASHHDR + ctl_dsize info * sizeof_pointer).

End Operations.
Arguments HASHCTL : clear implicits.
End Dynahash.
