(* ===== verification/DynahashSpec.v ===== *)
(** Chains and bucket arithmetic of dynahash.c.

    [path] follows the links from a location through a list of elements, [Frame]
    says what a write to some locations leaves alone, and the lemmas on [masks]
    are the arithmetic of linear hashing: growing the table by one bucket moves
    hash values from one old bucket to the new one only. *)

From Stdlib Require Import ZArith Lia.
From stdpp Require Import base sets list option numbers strings.
From S2P Require Import Prelude Dynahash.
Import Dynahash.

Module DynahashSpec.

#[export] Instance Loc_eq_dec : EqDecision Loc.
Proof. solve_decision. Defined.

Section Paths.
Context {K D : Type}.
Implicit Types h : HTAB K D.

(** ** Locations *)

Fixpoint path h (loc : Loc) (l : list nat) : Prop :=
  match l with
  | [] => True
  | a :: l => load h loc = Some (Some a) ∧ path h (LinkOf a) l
  end.
Definition end_loc (loc : Loc) (l : list nat) : Loc :=
  match last l with Some a => LinkOf a | None => loc end.
(** The locations [path] reads: all but the last. *)
Fixpoint reads (loc : Loc) (l : list nat) : list Loc :=
  match l with [] => [] | a :: l => loc :: reads (LinkOf a) l end.
(** A NULL-terminated chain at a location, and from a pointer. *)
Definition chain_at h loc l : Prop :=
  path h loc l ∧ load h (end_loc loc l) = Some None.
Definition chain_from h (p : HASHBUCKET) (l : list nat) : Prop :=
  match l with [] => p = None | a :: l => p = Some a ∧ chain_at h (LinkOf a) l end.

Lemma end_loc_cons loc a l : end_loc loc (a :: l) = end_loc (LinkOf a) l.
Proof. unfold end_loc. rewrite last_cons. by destruct (last l). Qed.
Lemma end_loc_app loc l1 l2 : end_loc loc (l1 ++ l2) = end_loc (end_loc loc l1) l2.
Proof.
  revert loc. induction l1 as [|a l1 IH]; intros loc; [done|].
  by rewrite <-app_comm_cons, !end_loc_cons, IH.
Qed.
Lemma end_loc_cases loc l :
  (l = [] ∧ end_loc loc l = loc) ∨ ∃ a, a ∈ l ∧ end_loc loc l = LinkOf a.
Proof.
  unfold end_loc. destruct (last l) as [a|] eqn:E.
  - right. exists a. split; [|done]. by apply last_Some_elem_of.
  - left. by apply last_None in E.
Qed.

Lemma path_app h loc l1 l2 :
  path h loc (l1 ++ l2) ↔ path h loc l1 ∧ path h (end_loc loc l1) l2.
Proof.
  revert loc. induction l1 as [|a l1 IH]; intros loc; simpl; [tauto|].
  rewrite IH, end_loc_cons. tauto.
Qed.

Lemma chain_at_cons h loc a l :
  chain_at h loc (a :: l) ↔ load h loc = Some (Some a) ∧ chain_at h (LinkOf a) l.
Proof. unfold chain_at. rewrite end_loc_cons. simpl. tauto. Qed.
Lemma chain_at_app h loc l1 l2 :
  chain_at h loc (l1 ++ l2) ↔ path h loc l1 ∧ chain_at h (end_loc loc l1) l2.
Proof. unfold chain_at. rewrite path_app, end_loc_app. tauto. Qed.
Lemma chain_at_load h loc l :
  chain_at h loc l → ∃ p, load h loc = Some p ∧ chain_from h p l.
Proof.
  destruct l as [|a l].
  - intros [_ E]. by exists None.
  - rewrite chain_at_cons. intros [E C]. by exists (Some a).
Qed.
Lemma chain_at_of_load h loc p l :
  load h loc = Some p → chain_from h p l → chain_at h loc l.
Proof.
  destruct l as [|a l]; simpl.
  - intros E ->. by split.
  - intros E [-> C]. by apply chain_at_cons.
Qed.

Lemma reads_cases loc l t : t ∈ reads loc l → t = loc ∨ ∃ a, a ∈ l ∧ t = LinkOf a.
Proof.
  revert loc. induction l as [|a l IH]; intros loc; simpl; [by rewrite elem_of_nil|].
  rewrite elem_of_cons. intros [->|Ht]; [by left|]. right.
  destruct (IH _ Ht) as [->|(b & Hb & ->)]; [exists a|exists b]; split; auto; set_solver.
Qed.

Lemma end_loc_not_read loc l :
  NoDup l → (∀ a, a ∈ l → loc ≠ LinkOf a) → end_loc loc l ∉ reads loc l.
Proof.
  revert loc. induction l as [|a l IH]; intros loc Hnd Hloc; simpl; [set_solver|].
  apply NoDup_cons in Hnd as [Ha Hnd]. rewrite end_loc_cons, elem_of_cons.
  intros [E|E].
  - destruct (end_loc_cases (LinkOf a) l) as [[-> El]|(b & Hb & El)]; rewrite El in E.
    + apply (Hloc a); [set_solver|done].
    + apply (Hloc b); [set_solver|done].
  - apply (IH (LinkOf a)); [done| |done]. intros b Hb [= ->]. done.
Qed.

(** ** Writes *)

Lemma load_store_eq h t v : is_Some (load h t) → load (store t v h) t = Some v.
Proof.
  destruct t as [s n|a]; simpl; unfold segment, load; simpl; intros [p Hp].
  - rewrite list_lookup_alter_eq. destruct (dir h !! s) as [[seg|]|] eqn:E; simplify_eq/=.
    apply list_lookup_insert_eq. by apply lookup_lt_Some in Hp.
  - rewrite list_lookup_alter_eq. by destruct (elements h !! a).
Qed.
Lemma load_store_ne h t t' v : t ≠ t' → load (store t v h) t' = load h t'.
Proof.
  destruct t as [s n|a], t' as [s' n'|a']; simpl; intros Hne; try done.
  - unfold segment; simpl. destruct (decide (s = s')) as [<-|Hs].
    + rewrite list_lookup_alter_eq. destruct (dir h !! s) as [[seg|]|]; simpl; try done.
      apply list_lookup_insert_ne. congruence.
    + by rewrite list_lookup_alter_ne.
  - rewrite list_lookup_alter_ne; congruence.
Qed.

Definition content (e : HASHELEMENT K D) : Z * K * D := (hashvalue e, key e, data e).

(** What stays when only the locations in [T] are written. *)
Record Frame (T : Loc → Prop) h h' : Prop := {
  fr_hctl : hctl h' = hctl h;
  fr_static : (is_palloc h', isshared h', frozen h', keysize h', ssize h', sshift h') =
              (is_palloc h, isshared h, frozen h, keysize h, ssize h, sshift h);
  fr_dir : length (dir h') = length (dir h);
  fr_segs : ∀ i, length <$> segment h' i = length <$> segment h i;
  fr_elems : content <$> elements h' = content <$> elements h;
  fr_load : ∀ t, ¬ T t → load h' t = load h t }.

Lemma frame_trans T h h' h'' : Frame T h h' → Frame T h' h'' → Frame T h h''.
Proof.
  intros [] []. split; try congruence. intros t Ht. rewrite fr_load1 by done. auto.
Qed.
Lemma frame_weaken (T T' : Loc → Prop) h h' :
  (∀ t, T t → T' t) → Frame T h h' → Frame T' h h'.
Proof. intros HT []. split; auto. Qed.

Lemma frame_store (T : Loc → Prop) h t v : T t → Frame T h (store t v h).
Proof.
  intros Ht. split.
  - by destruct t.
  - by destruct t.
  - destruct t; simpl; [by rewrite length_alter|done].
  - intros i. destruct t as [s n|a]; [|done]. unfold segment; simpl.
    destruct (decide (s = i)) as [<-|].
    + rewrite list_lookup_alter_eq. destruct (dir h !! s) as [[seg|]|]; simpl; try done.
      f_equal. apply length_insert.
    + by rewrite list_lookup_alter_ne.
  - destruct t as [s n|a]; [done|]. simpl. apply list_eq. intros i.
    rewrite !list_lookup_fmap. destruct (decide (a = i)) as [<-|].
    + rewrite list_lookup_alter_eq. by destruct (elements h !! a) as [[]|].
    + by rewrite list_lookup_alter_ne.
  - intros t' Ht'. apply load_store_ne. congruence.
Qed.

Lemma frame_sizes T h h' : Frame T h h' → ssize h' = ssize h ∧ sshift h' = sshift h.
Proof. intros F. pose proof (fr_static _ _ _ F) as E. by injection E. Qed.
Lemma frame_length T h h' : Frame T h h' → length (elements h') = length (elements h).
Proof. intros F. by rewrite <-(length_fmap content), (fr_elems _ _ _ F), length_fmap. Qed.
Lemma frame_content T h h' a :
  Frame T h h' → content <$> elements h' !! a = content <$> elements h !! a.
Proof. intros F. by rewrite <-!list_lookup_fmap, (fr_elems _ _ _ F). Qed.
Lemma frame_lookup T h h' a e :
  Frame T h h' → elements h !! a = Some e →
  ∃ e', elements h' !! a = Some e' ∧ content e' = content e.
Proof.
  intros F He. pose proof (frame_content _ _ _ a F) as Hc. rewrite He in Hc.
  destruct (elements h' !! a) as [e'|]; [|done]. exists e'. split; [done|].
  by apply (inj Some).
Qed.
Lemma frame_valid T h h' t : Frame T h h' → is_Some (load h t) → is_Some (load h' t).
Proof.
  intros F [p Hp]. destruct t as [s n|a]; simpl in *.
  - pose proof (fr_segs _ _ _ F s) as Hs.
    destruct (segment h s) as [seg|]; simplify_eq/=.
    destruct (segment h' s) as [seg'|]; simplify_eq/=.
    apply lookup_lt_is_Some_2. apply lookup_lt_Some in Hp. congruence.
  - destruct (elements h !! a) as [e|] eqn:E; simplify_eq/=.
    destruct (frame_lookup _ _ _ _ _ F E) as (e' & -> & _). by eexists.
Qed.

Lemma path_ext h h' loc l :
  (∀ t, t ∈ reads loc l → load h' t = load h t) → path h loc l → path h' loc l.
Proof.
  revert loc. induction l as [|a l IH]; intros loc HT; simpl; [done|].
  intros [Hl Hp]. split; [rewrite HT; [done|set_solver]|].
  apply IH; [|done]. intros t Ht. apply HT. simpl. set_solver.
Qed.
Lemma chain_at_ext h h' loc l :
  load h' loc = load h loc → (∀ a, a ∈ l → load h' (LinkOf a) = load h (LinkOf a)) →
  chain_at h loc l → chain_at h' loc l.
Proof.
  intros Hloc Hl [Hp He]. split.
  - eapply path_ext; [|done]. intros t Ht.
    destruct (reads_cases _ _ _ Ht) as [->|(a & Ha & ->)]; auto.
  - destruct (end_loc_cases loc l) as [[_ E]|(a & Ha & E)]; rewrite E in *; [congruence|].
    by rewrite Hl.
Qed.
Lemma chain_from_ext h h' p l :
  (∀ a, a ∈ l → load h' (LinkOf a) = load h (LinkOf a)) →
  chain_from h p l → chain_from h' p l.
Proof.
  intros Hl. destruct l as [|a l]; [done|]. intros [-> C]. split; [done|].
  eapply chain_at_ext; [| |done]; [|intros b Hb]; apply Hl; set_solver.
Qed.

Lemma path_frame (T : Loc → Prop) h h' loc l :
  Frame T h h' → (∀ t, t ∈ reads loc l → ¬ T t) → path h loc l → path h' loc l.
Proof. intros F HT. apply path_ext. intros t Ht. by apply (fr_load _ _ _ F), HT. Qed.
Lemma chain_at_frame (T : Loc → Prop) h h' loc l :
  Frame T h h' → ¬ T loc → (∀ a, a ∈ l → ¬ T (LinkOf a)) →
  chain_at h loc l → chain_at h' loc l.
Proof.
  intros F Hloc Hl. apply chain_at_ext; [by apply (fr_load _ _ _ F)|].
  intros a Ha. by apply (fr_load _ _ _ F), Hl.
Qed.
Lemma chain_from_frame (T : Loc → Prop) h h' p l :
  Frame T h h' → (∀ a, a ∈ l → ¬ T (LinkOf a)) → chain_from h p l → chain_from h' p l.
Proof. intros F Hl. apply chain_from_ext. intros a Ha. by apply (fr_load _ _ _ F), Hl. Qed.

(** Writing the end of a path replaces what comes after it. *)
Lemma path_store_end h loc l v :
  NoDup l → (∀ a, a ∈ l → loc ≠ LinkOf a) → path h loc l →
  path (store (end_loc loc l) v h) loc l.
Proof.
  intros Hnd Hloc. eapply (path_frame (eq (end_loc loc l))).
  - by apply frame_store.
  - intros t Ht <-. by apply (end_loc_not_read loc l).
Qed.

End Paths.

(** ** Masks *)

Definition masks_at (c : HASHHDR) (k : Z) : Prop :=
  0 <= k < 32 ∧ low_mask c = 2 ^ k - 1 ∧ high_mask c = 2 ^ (k + 1) - 1 ∧
  low_mask c <= max_bucket c <= high_mask c.
Definition masks (c : HASHHDR) : Prop := ∃ k, masks_at c k.

Lemma land_mask x k : 0 <= k → Z.land x (2 ^ k - 1) = x mod 2 ^ k.
Proof. intros Hk. by rewrite <-Z.land_ones, Z.ones_equiv, <-Z.sub_1_r by done. Qed.

Lemma lor_next_mask k : 0 <= k → Z.lor (2 ^ k) (2 ^ k - 1) = 2 ^ (k + 1) - 1.
Proof.
  intros Hk. assert (Z.land (2 ^ k) (2 ^ k - 1) = 0) as Hd.
  { rewrite land_mask by done. apply Z_mod_same_full. }
  rewrite <-Z.lxor_lor, <-Z.add_nocarry_lxor by done.
  rewrite Z.pow_add_r by lia. lia.
Qed.

Lemma mod_split x m : 0 < m → x mod (2 * m) = x mod m ∨ x mod (2 * m) = x mod m + m.
Proof.
  intros Hm. rewrite (Z.mul_comm 2 m), Z.rem_mul_r by lia.
  assert ((x / m) mod 2 = 0 ∨ (x / m) mod 2 = 1) as [-> | ->].
  { pose proof (Z.mod_pos_bound (x / m) 2 ltac:(lia)). lia. }
  - left. lia.
  - right. lia.
Qed.

Lemma calc_bucket_mod c k hv :
  masks_at c k →
  calc_bucket c hv =
    if hv mod (2 * 2 ^ k) >? max_bucket c then hv mod 2 ^ k else hv mod (2 * 2 ^ k).
Proof.
  intros (Hk & El & Eh & _). unfold calc_bucket. rewrite El, Eh, !land_mask by lia.
  rewrite Z.pow_add_r by lia. change (2 ^ 1) with 2. rewrite (Z.mul_comm (2 ^ k) 2).
  destruct (_ >? _); [|done].
  destruct (mod_split hv (2 ^ k)) as [-> | ->]; [lia|..].
  - by rewrite Zmod_mod.
  - rewrite <-(Z.mul_1_l (2 ^ k)) at 2. by rewrite Z_mod_plus_full, Zmod_mod.
Qed.

Lemma masks_pow c k : masks_at c k → 0 < 2 ^ k ∧ 2 ^ (k + 1) = 2 * 2 ^ k.
Proof. intros (Hk & _). rewrite Z.pow_add_r by lia. lia. Qed.

Lemma calc_bucket_range c hv : masks c → 0 <= calc_bucket c hv <= max_bucket c.
Proof.
  intros [k Hm]. rewrite (calc_bucket_mod _ _ _ Hm).
  destruct (masks_pow _ _ Hm) as [Hp Hp1]. destruct Hm as (Hk & El & Eh & Hb).
  pose proof (Z.mod_pos_bound hv (2 ^ k)). pose proof (Z.mod_pos_bound hv (2 * 2 ^ k)).
  destruct (Z.gtb_spec (hv mod (2 * 2 ^ k)) (max_bucket c)); lia.
Qed.

(** The masks after the next bucket is put to use. *)
Lemma grow_masks_at c k :
  masks_at c k → max_bucket c + 1 < 2 ^ 32 →
  let c' := grow_masks c (max_bucket c + 1) in
  max_bucket c' = max_bucket c + 1 ∧
  (if max_bucket c <? high_mask c then masks_at c' k else masks_at c' (k + 1)).
Proof.
  intros Hm Hlt. destruct (masks_pow _ _ Hm) as [Hp Hp1].
  destruct Hm as (Hk & El & Eh & Hb). unfold grow_masks, u32.
  rewrite Z.mod_small by lia.
  destruct (Z.ltb_spec (max_bucket c) (high_mask c)) as [Hh|Hh].
  - destruct (Z.gtb_spec (max_bucket c + 1) (high_mask c)); [lia|].
    split; [done|]. split; simpl; [lia|]. lia.
  - destruct (Z.gtb_spec (max_bucket c + 1) (high_mask c)); [|lia].
    assert (max_bucket c + 1 = 2 ^ (k + 1)) as E by lia.
    split; [done|]. unfold masks_at; simpl. rewrite E, Eh, lor_next_mask by lia.
    assert (k + 1 < 32).
    { apply (Z.pow_lt_mono_r_iff 2); lia. }
    assert (2 ^ (k + 1 + 1) = 2 * 2 ^ (k + 1)) by (rewrite (Z.pow_add_r 2 (k + 1)) by lia; lia).
    lia.
Qed.

(** Linear hashing: a hash value keeps its bucket, or it moves from the one old
    bucket that is split to the new one. *)
Lemma calc_bucket_grow c hv :
  masks c → max_bucket c + 1 < 2 ^ 32 →
  let new := max_bucket c + 1 in
  let old := Z.land new (low_mask c) in
  calc_bucket (grow_masks c new) hv = calc_bucket c hv ∨
  (calc_bucket c hv = old ∧ calc_bucket (grow_masks c new) hv = new).
Proof.
  intros [k Hm] Hlt new old. destruct (grow_masks_at c k Hm Hlt) as [Emax Hm'].
  fold new in Emax, Hm'. rewrite (calc_bucket_mod _ _ _ Hm).
  destruct (masks_pow _ _ Hm) as [Hp Hp1]. pose proof Hm as (Hk & El & Eh & Hb).
  assert (old = new mod 2 ^ k) as -> by (unfold old; rewrite El; apply land_mask; lia).
  assert (∀ m, 0 < m → (hv mod (2 * m)) mod m = hv mod m) as Hmm.
  { intros m Hm0. destruct (mod_split hv m Hm0) as [-> | ->]; [apply Zmod_mod|].
    rewrite <-(Z.mul_1_l m) at 2. by rewrite Z_mod_plus_full, Zmod_mod. }
  pose proof (Z.mod_pos_bound hv (2 * 2 ^ k) ltac:(lia)).
  destruct (Z.ltb_spec (max_bucket c) (high_mask c)) as [Hh|Hh];
    rewrite (calc_bucket_mod _ _ _ Hm'), Emax.
  - destruct (Z.gtb_spec (hv mod (2 * 2 ^ k)) (max_bucket c)) as [Hg|Hg],
      (Z.gtb_spec (hv mod (2 * 2 ^ k)) new) as [Hg'|Hg']; try (by left); [|unfold new in *; lia].
    right. assert (hv mod (2 * 2 ^ k) = new) as <- by (unfold new in *; lia).
    rewrite Hmm; [done|lia].
  - assert (new = 2 * 2 ^ k) as -> by (unfold new; lia).
    destruct (Z.gtb_spec (hv mod (2 * 2 ^ k)) (max_bucket c)) as [Hg|Hg]; [lia|].
    rewrite Hp1. destruct (Z.gtb_spec (hv mod (2 * (2 * 2 ^ k))) (2 * 2 ^ k)) as [Hg'|Hg'];
      [by left|].
    destruct (mod_split hv (2 * 2 ^ k)) as [E|E]; [lia|left; lia|].
    right. assert (hv mod (2 * 2 ^ k) = 0) as E0 by lia. rewrite E, E0. split; [|lia].
    by rewrite Z.mod_mul by lia.
Qed.

End DynahashSpec.
