(* ===== verification/DynahashTable.v ===== *)
(** The layout invariant of a hash table, and that [expand_table] keeps it.

    [layout h bs fl]: bucket [b] of the table holds the chain [bs !! b], the free
    list is [fl], and every element is on exactly one of them. *)

From Stdlib Require Import ZArith Lia.
From stdpp Require Import base gmap sets list option numbers strings.
From S2P Require Import Prelude Dynahash DynahashSpec.
Import Dynahash DynahashSpec.

Module DynahashTable.

(** What a table relies on: keys fall into classes, [match_key] tells the classes
    apart, [hash] does not look further, and [keycopy] stays in the class. *)
Class KeyLaws (K C : Type) `{KeyFunctions K} := {
  valid : K → Prop;
  canon : K → C;
  valid_keycopy k : valid k → valid (keycopy k);
  canon_keycopy k : valid k → canon (keycopy k) = canon k;
  match_canon k k' : valid k → valid k' → match_key k k' = true ↔ canon k = canon k';
  hash_canon k k' : valid k → valid k' → canon k = canon k' → hash k = hash k' }.

(** ** Geometry *)

Section Geometry.
Context {K D : Type}.
Implicit Types h : HTAB K D.

(** The directory is not reallocated unless its memory can be freed. *)
Definition may_realloc h : Prop := is_palloc h = true ∨ max_dsize (hctl h) ≠ NO_MAX_DSIZE.

Record geometry h : Prop := {
  geo_masks : masks (hctl h);
  geo_shift : 0 <= sshift h;
  geo_ssize : ssize h = 2 ^ sshift h;
  geo_dir : Z.of_nat (length (dir h)) = dsize (hctl h);
  geo_nsegs : 0 < nsegs (hctl h) <= dsize (hctl h);
  geo_room : max_bucket (hctl h) < nsegs (hctl h) * ssize h;
  geo_segs : ∀ i, Z.of_nat i < nsegs (hctl h) →
    ∃ seg, segment h i = Some seg ∧ Z.of_nat (length seg) = ssize h;
  geo_alloc : 0 < nelem_alloc (hctl h);
  geo_fixed : may_realloc h }.

Lemma geometry_frame T h h' : Frame T h h' → geometry h → geometry h'.
Proof.
  intros F []. pose proof (fr_static _ _ _ F) as E.
  injection E as E1 E2 E3 E4 E5 E6.
  split; unfold may_realloc; rewrite ?(fr_hctl _ _ _ F), ?E1, ?E5, ?E6, ?(fr_dir _ _ _ F); try done.
  intros i Hi. destruct (geo_segs0 i Hi) as (seg & Es & El).
  pose proof (fr_segs _ _ _ F i) as Hs. rewrite Es in Hs.
  destruct (segment h' i) as [seg'|]; [|done]. exists seg'. split; [done|].
  injection Hs as Hs. by rewrite Hs.
Qed.

Lemma bucket_slot_frame T h h' b : Frame T h h' → bucket_slot h' b = bucket_slot h b.
Proof.
  intros F. pose proof (fr_static _ _ _ F) as E. injection E as E1 E2 E3 E4 E5 E6.
  unfold bucket_slot. by rewrite E5, E6.
Qed.

Lemma shift_div h b : geometry h → Z.shiftr b (sshift h) = b / ssize h.
Proof. intros G. by rewrite Z.shiftr_div_pow2, (geo_ssize _ G) by apply G. Qed.
Lemma MOD_mod h b : geometry h → MOD b (ssize h) = b mod ssize h.
Proof. intros G. unfold MOD. by rewrite (geo_ssize _ G), land_mask by apply G. Qed.
Lemma slot_div_mod h b :
  geometry h → bucket_slot h b = Slot (Z.to_nat (b / ssize h)) (Z.to_nat (b mod ssize h)).
Proof. intros G. unfold bucket_slot. by rewrite shift_div, MOD_mod. Qed.
Lemma ssize_pos h : geometry h → 0 < ssize h.
Proof. intros G. rewrite (geo_ssize _ G). pose proof (geo_shift _ G). lia. Qed.

Lemma bucket_slot_inj h b b' :
  geometry h → 0 <= b → 0 <= b' → bucket_slot h b = bucket_slot h b' → b = b'.
Proof.
  intros G Hb Hb'. rewrite !slot_div_mod by done. intros [= E1 E2].
  pose proof (ssize_pos _ G) as Hs.
  pose proof (Z.div_pos b _ Hb Hs). pose proof (Z.div_pos b' _ Hb' Hs).
  pose proof (Z.mod_pos_bound b _ Hs). pose proof (Z.mod_pos_bound b' _ Hs).
  apply Z2Nat.inj in E1; [|lia..]. apply Z2Nat.inj in E2; [|lia..].
  rewrite (Z.div_mod b (ssize h)), (Z.div_mod b' (ssize h)) by lia. congruence.
Qed.

Lemma bucket_segment h b :
  geometry h → 0 <= b < nsegs (hctl h) * ssize h →
  ∃ seg, segment h (Z.to_nat (Z.shiftr b (sshift h))) = Some seg ∧
    Z.of_nat (length seg) = ssize h.
Proof.
  intros G Hb. pose proof (ssize_pos _ G) as Hs.
  rewrite Z.shiftr_div_pow2, <-(geo_ssize _ G) by apply G.
  apply (geo_segs _ G). rewrite Z2Nat.id by (apply Z.div_pos; lia).
  apply Z.div_lt_upper_bound; lia.
Qed.
Lemma bucket_slot_load h b :
  geometry h → 0 <= b < nsegs (hctl h) * ssize h → is_Some (load h (bucket_slot h b)).
Proof.
  intros G Hb. destruct (bucket_segment h b G Hb) as (seg & Es & El).
  unfold bucket_slot; simpl. rewrite Es; simpl. apply lookup_lt_is_Some_2.
  pose proof (ssize_pos _ G) as Hs. unfold MOD.
  rewrite (geo_ssize _ G), land_mask, <-(geo_ssize _ G) by apply G.
  pose proof (Z.mod_pos_bound b _ Hs). lia.
Qed.
End Geometry.

(** ** Relocation of a chain *)

Definition is_slot (t : Loc) : Prop := ∀ a, t ≠ LinkOf a.

Lemma filter_perm (f : nat → bool) (l : list nat) :
  List.filter f l ++ List.filter (λ a, negb (f a)) l ≡ₚ l.
Proof.
  induction l as [|a l IH]; [done|]. simpl. destruct (f a); simpl.
  - by rewrite IH.
  - by rewrite <-Permutation_middle, IH.
Qed.

Lemma NoDup_perm {A} (l l' : list A) : l ≡ₚ l' → NoDup l → NoDup l'.
Proof. by intros ->. Qed.
Ltac nodup_perm :=
  match goal with
  | H : NoDup ?l |- NoDup _ => apply (NoDup_perm l); [cbn [app]; solve_Permutation|exact H]
  end.

Section Relocate.
Context {K D : Type}.
Implicit Types h : HTAB K D.

(** One element moves from the rest of the chain to the end of one of the two. *)
Lemma relocate_step h so sn lo ln a e l :
  is_slot so → is_slot sn → so ≠ sn → NoDup (a :: l ++ lo ++ ln) →
  elements h !! a = Some e → chain_from h (Some a) (a :: l) →
  path h so lo → path h sn ln → is_Some (load h (end_loc so lo)) →
  let h' := store (end_loc so lo) (Some a) h in
  chain_from h' (link e) l ∧ path h' so (lo ++ [a]) ∧ path h' sn ln.
Proof.
  intros Hso Hsn Hne Hnd He [_ Hc] Hpo Hpn Hl h'.
  assert (Frame (eq (end_loc so lo)) h h') as F by by apply frame_store.
  apply NoDup_cons in Hnd as [Ha Hnd].
  apply NoDup_app in Hnd as (Hndl & Hlo & Hnd). apply NoDup_app in Hnd as (Hndo & Hon & Hndn).
  split_and!.
  - destruct (chain_at_load _ _ _ Hc) as (p & Hp & Hch).
    simpl in Hp. rewrite He in Hp. injection Hp as <-.
    eapply chain_from_frame; [done| |done]. intros b Hb E.
    destruct (end_loc_cases so lo) as [[_ El]|(c & Hc' & El)]; rewrite El in E.
    + by apply (Hso b).
    + injection E as ->. apply (Hlo b); set_solver.
  - apply path_app. split.
    + apply path_store_end; auto.
    + split; [|done]. by apply load_store_eq.
  - eapply path_frame; [done| |done]. intros t Ht E.
    destruct (end_loc_cases so lo) as [[_ El]|(c & Hc' & El)]; rewrite El in E; subst t;
      destruct (reads_cases _ _ _ Ht) as [E'|(d & Hd & E')].
    + done.
    + by apply (Hso d).
    + by apply (Hsn c).
    + injection E' as ->. by apply (Hon d).
Qed.

Definition touched (so sn : Loc) (l : list nat) (t : Loc) : Prop :=
  t = so ∨ t = sn ∨ ∃ a, a ∈ l ∧ t = LinkOf a.

Lemma touched_end so sn lo l :
  (∀ a, a ∈ lo → a ∈ l) → touched so sn l (end_loc so lo) ∧ touched so sn l (end_loc sn lo).
Proof.
  intros Hl. unfold touched.
  destruct (end_loc_cases so lo) as [[_ ->]|(c & Hc & ->)],
    (end_loc_cases sn lo) as [[_ ->]|(d & Hd & ->)]; split; eauto 6.
Qed.

Lemma touched_perm so sn l l' t : l ≡ₚ l' → touched so sn l t → touched so sn l' t.
Proof. intros Hl. unfold touched. by setoid_rewrite Hl. Qed.

(** What a write to one of the chains leaves of the rest. *)
Lemma relocate_write (keep : nat → bool) h ob so sn a e l rest :
  elements h !! a = Some e →
  (∀ b, b ∈ a :: l → ∃ e, elements h !! b = Some e ∧
     keep b = (calc_bucket (hctl h) (hashvalue e) =? ob)) →
  ∀ t v, touched so sn (a :: l ++ rest) t →
  let h1 := store t v h in
  Frame (touched so sn (a :: l ++ rest)) h h1 ∧
  (∀ t', is_Some (load h t') → is_Some (load h1 t')) ∧
  (∀ b, b ∈ l → ∃ e, elements h1 !! b = Some e ∧
     keep b = (calc_bucket (hctl h1) (hashvalue e) =? ob)) ∧
  is_Some (load h1 (LinkOf a)).
Proof.
  intros He Hk t v Ht h1.
  assert (Frame (touched so sn (a :: l ++ rest)) h h1) as F by by apply frame_store.
  split_and!; [done|by intros; eapply frame_valid| |].
  - intros b Hb. destruct (Hk b) as (e' & He' & ->); [set_solver|].
    destruct (frame_lookup _ _ _ _ _ F He') as (e'' & -> & [= E _ _]).
    exists e''. by rewrite E, (fr_hctl _ _ _ F).
  - eapply frame_valid; [done|]. simpl. rewrite He. by eexists.
Qed.

Lemma relocate_loop_spec (keep : nat → bool) fuel h ob so sn lo ln l curr :
  (length l < fuel)%nat → chain_from h curr l → path h so lo → path h sn ln →
  is_slot so → is_slot sn → so ≠ sn → NoDup (l ++ lo ++ ln) →
  is_Some (load h (end_loc so lo)) → is_Some (load h (end_loc sn ln)) →
  (∀ a, a ∈ l → ∃ e, elements h !! a = Some e ∧
     keep a = (calc_bucket (hctl h) (hashvalue e) =? ob)) →
  let lo' := lo ++ List.filter keep l in
  let ln' := ln ++ List.filter (λ a, negb (keep a)) l in
  ∃ h', relocate_loop fuel h ob (end_loc so lo) (end_loc sn ln) curr =
      Some (h', end_loc so lo', end_loc sn ln') ∧
    path h' so lo' ∧ path h' sn ln' ∧
    is_Some (load h' (end_loc so lo')) ∧ is_Some (load h' (end_loc sn ln')) ∧
    Frame (touched so sn (l ++ lo ++ ln)) h h'.
Proof.
  intros Hf Hc Hpo Hpn Hso Hsn Hne. revert fuel h lo ln curr Hf Hc Hpo Hpn.
  induction l as [|a l IH]; intros fuel h lo ln curr Hf Hc Hpo Hpn Hnd Ho Hn Hk;
    (destruct fuel as [|fuel]; [simpl in Hf; lia|]).
  { simpl in *. subst curr. rewrite !app_nil_r. exists h.
    split_and!; try done. }
  destruct (Hk a) as (e & He & Hka); [set_solver|].
  pose proof Hc as [-> _]. simpl relocate_loop. rewrite He. simpl mbind.
  rewrite <-Hka. simpl in Hf.
  pose proof (relocate_write keep h ob so sn a e l (lo ++ ln) He Hk) as Hstep.
  destruct (keep a) eqn:Ek; simpl List.filter; rewrite Ek; simpl.
  - destruct (relocate_step h so sn lo ln a e l) as (Hc' & Hpo' & Hpn'); try done.
    set (h1 := store (end_loc so lo) (Some a) h) in *.
    destruct (Hstep (end_loc so lo) (Some a)) as (F1 & Hn1 & Hk1 & Ha1);
      [apply touched_end; set_solver|].
    destruct (IH fuel h1 (lo ++ [a]) ln (link e)) as (h' & Hr & H1 & H2 & H3 & H4 & F2);
      rewrite ?end_loc_app, ?end_loc_cons in *; try done; [lia|nodup_perm|by apply Hn1|].
    rewrite <-!app_assoc in *. exists h'. split_and!; try done.
    apply (frame_trans _ _ h1); [done|]. eapply frame_weaken, F2.
    intros t. apply touched_perm. cbn [app]. solve_Permutation.
  - destruct (relocate_step h sn so ln lo a e l) as (Hc' & Hpn' & Hpo'); try done.
    { nodup_perm. }
    set (h1 := store (end_loc sn ln) (Some a) h) in *.
    destruct (Hstep (end_loc sn ln) (Some a)) as (F1 & Hn1 & Hk1 & Ha1);
      [apply touched_end; set_solver|].
    destruct (IH fuel h1 lo (ln ++ [a]) (link e)) as (h' & Hr & H1 & H2 & H3 & H4 & F2);
      rewrite ?end_loc_app, ?end_loc_cons in *; try done; [lia|nodup_perm|by apply Hn1|].
    rewrite <-!app_assoc in *. exists h'. split_and!; try done.
    apply (frame_trans _ _ h1); [done|]. eapply frame_weaken, F2.
    intros t. apply touched_perm. cbn [app]. solve_Permutation.
Qed.

(** Both chains are terminated at the end. *)
Lemma terminate_chains h so sn lo ln :
  is_slot so → is_slot sn → so ≠ sn → NoDup (lo ++ ln) →
  path h so lo → path h sn ln →
  is_Some (load h (end_loc so lo)) → is_Some (load h (end_loc sn ln)) →
  let h' := store (end_loc sn ln) None (store (end_loc so lo) None h) in
  chain_at h' so lo ∧ chain_at h' sn ln ∧ Frame (touched so sn (lo ++ ln)) h h'.
Proof.
  intros Hso Hsn Hne Hnd Ho Hn Hlo Hln h'.
  set (h1 := store (end_loc so lo) None h) in *.
  apply NoDup_app in Hnd as (Hndo & Hon & Hndn).
  assert (∀ s s' l l', is_slot s → is_slot s' → s ≠ s' → (∀ a, a ∈ l → a ∉ l') →
    end_loc s l ∉ reads s' l' ∧ end_loc s l ≠ end_loc s' l') as Hsep.
  { intros s s' l l' Hs Hs' Hss Hl.
    destruct (end_loc_cases s l) as [[_ ->]|(c & Hc & ->)]; split.
    - intros Ht. destruct (reads_cases _ _ _ Ht) as [->|(d & Hd & ->)]; [done|by apply (Hs d)].
    - destruct (end_loc_cases s' l') as [[_ ->]|(d & Hd & ->)]; auto.
    - intros Ht. destruct (reads_cases _ _ _ Ht) as [E|(d & Hd & [= ->])].
      + by apply (Hs' c).
      + by apply (Hl d).
    - destruct (end_loc_cases s' l') as [[_ ->]|(d & Hd & ->)].
      + intros E. by apply (Hs' c).
      + intros [= ->]. by apply (Hl d). }
  destruct (Hsep so sn lo ln) as [Hr1 He1]; try done.
  destruct (Hsep sn so ln lo) as [Hr2 He2]; try done; [set_solver|].
  assert (Frame (eq (end_loc so lo)) h h1) as F1 by by apply frame_store.
  assert (Frame (eq (end_loc sn ln)) h1 h') as F2 by by apply frame_store.
  split_and!.
  - split.
    + eapply path_frame; [done|by intros t Ht <-|]. apply path_store_end; auto.
    + rewrite (fr_load _ _ _ F2) by done. by apply load_store_eq.
  - split.
    + apply path_store_end; auto. eapply path_frame; [done|by intros t Ht <-|done].
    + apply load_store_eq. by eapply frame_valid.
  - apply (frame_trans _ _ h1); [eapply frame_weaken, F1|eapply frame_weaken, F2];
      intros t <-; apply touched_end; set_solver.
Qed.
End Relocate.

(** ** Layout *)

Lemma concat_insert_perm {A} (ls : list (list A)) b l :
  ls !! b = Some l →
  ∃ rest, concat ls ≡ₚ l ++ rest ∧ ∀ l', concat (<[b := l']> ls) ≡ₚ l' ++ rest.
Proof.
  intros Hb. exists (concat (take b ls) ++ concat (drop (S b) ls)). split.
  - rewrite <-(take_drop_middle ls b l Hb) at 1. rewrite concat_app, concat_cons.
    solve_Permutation.
  - intros l'. rewrite insert_take_drop by by eapply lookup_lt_Some.
    rewrite concat_app, concat_cons. solve_Permutation.
Qed.

Section Layout.
Context {K C D : Type} `{KeyLaws K C} `{Inhabited K} `{Inhabited D}.
Implicit Types (h : HTAB K D) (w : World K D) (bs : list (list nat)) (fl : list nat).

(** The element at [a] is in use in bucket [b]. *)
Definition placed h (b : nat) (a : nat) : Prop :=
  ∃ e, elements h !! a = Some e ∧ calc_bucket (hctl h) (hashvalue e) = Z.of_nat b ∧
    hashvalue e = hash (key e) ∧ valid (key e).

Record layout h bs fl : Prop := {
  lay_geo : geometry h;
  lay_buckets : Z.of_nat (length bs) = max_bucket (hctl h) + 1;
  lay_chain : ∀ b l, bs !! b = Some l → chain_at h (bucket_slot h (Z.of_nat b)) l;
  lay_free : chain_from h (freeList (hctl h)) fl;
  lay_perm : concat bs ++ fl ≡ₚ seq 0 (length (elements h));
  lay_count : nentries (hctl h) = Z.of_nat (length (concat bs));
  lay_placed : ∀ b l a, bs !! b = Some l → a ∈ l → placed h b a }.

Lemma layout_NoDup h bs fl : layout h bs fl → NoDup (concat bs ++ fl).
Proof. intros L. rewrite (lay_perm _ _ _ L). apply NoDup_seq. Qed.
Lemma layout_disjoint h bs fl b b' l l' a :
  layout h bs fl → bs !! b = Some l → bs !! b' = Some l' → a ∈ l → a ∈ l' → b = b'.
Proof.
  intros L Hb Hb' Ha Ha'.
  destruct (lay_placed _ _ _ L _ _ _ Hb Ha) as (e & He & Hc & _).
  destruct (lay_placed _ _ _ L _ _ _ Hb' Ha') as (e' & He' & Hc' & _).
  simplify_eq. lia.
Qed.
Lemma elem_of_bucket bs b l a : bs !! b = Some l → a ∈ l → a ∈ concat bs.
Proof.
  intros Hb Ha. rewrite list_elem_of_In, in_concat. exists l.
  rewrite <-!list_elem_of_In. split; [by eapply list_elem_of_lookup_2|done].
Qed.
Lemma layout_free_disjoint h bs fl b l a :
  layout h bs fl → bs !! b = Some l → a ∈ l → a ∉ fl.
Proof.
  intros L Hb Ha. pose proof (layout_NoDup _ _ _ L) as Hnd.
  apply NoDup_app in Hnd as (_ & Hd & _). by eapply Hd, elem_of_bucket.
Qed.
Lemma layout_bucket_NoDup h bs fl b l : layout h bs fl → bs !! b = Some l → NoDup l.
Proof.
  intros L Hb. destruct (concat_insert_perm _ _ _ Hb) as (rest & Hp & _).
  pose proof (layout_NoDup _ _ _ L) as Hnd. rewrite Hp in Hnd.
  rewrite !NoDup_app in Hnd. tauto.
Qed.
Lemma layout_lookup h bs fl b :
  layout h bs fl → 0 <= b <= max_bucket (hctl h) → ∃ l, bs !! Z.to_nat b = Some l.
Proof.
  intros L Hb. apply lookup_lt_is_Some_2. pose proof (lay_buckets _ _ _ L). lia.
Qed.

(** A table whose directory changed behind the segments in use. *)
Lemma layout_dir h h' bs fl c :
  layout h bs fl → geometry h' → elements h' = elements h →
  (ssize h', sshift h') = (ssize h, sshift h) →
  hctl h' = c → (nentries c, freeList c, max_bucket c, high_mask c, low_mask c) =
    (nentries (hctl h), freeList (hctl h), max_bucket (hctl h), high_mask (hctl h),
     low_mask (hctl h)) →
  (∀ i, Z.of_nat i < nsegs (hctl h) → segment h' i = segment h i) →
  layout h' bs fl.
Proof.
  intros L G Ee [= Es Eh] <- [= En Ef Em Ehm Elm] Hseg.
  assert (∀ a, load h' (LinkOf a) = load h (LinkOf a)) as Hlink.
  { intros a. simpl. by rewrite Ee. }
  split; rewrite ?En, ?Ef, ?Em, ?Ee; try apply L; [done|..].
  - intros b l Hb.
    assert (bucket_slot h' (Z.of_nat b) = bucket_slot h (Z.of_nat b)) as ->
      by (unfold bucket_slot; by rewrite Es, Eh).
    eapply chain_at_ext, L, Hb; [|done]. unfold bucket_slot; simpl. rewrite Hseg; [done|].
    pose proof (lay_geo _ _ _ L) as G0. pose proof (lay_buckets _ _ _ L).
    pose proof (geo_room _ G0). apply lookup_lt_Some in Hb. pose proof (ssize_pos _ G0).
    rewrite Z.shiftr_div_pow2, <-(geo_ssize _ G0) by apply G0.
    rewrite Z2Nat.id by (apply Z.div_pos; lia). apply Z.div_lt_upper_bound; lia.
  - eapply chain_from_ext, L. done.
  - intros b l a Hb Ha. destruct (lay_placed _ _ _ L _ _ _ Hb Ha) as (e & He & Hc & Hr).
    exists e. rewrite Ee. split_and!; try done; try apply Hr.
    rewrite <-Hc. unfold calc_bucket. by rewrite Em, Ehm, Elm.
Qed.

End Layout.
End DynahashTable.
