(* ===== verification/DynahashExpand.v ===== *)
(** Growing a hash table: [expand_table] keeps the layout and the entries, whatever
    the allocator answers. *)

From Stdlib Require Import ZArith Lia.
From stdpp Require Import base gmap sets list option numbers strings.
From S2P Require Import Prelude Dynahash DynahashSpec DynahashTable.
Import Dynahash DynahashSpec DynahashTable.

Module DynahashExpand.

(** ** Weakest preconditions *)

Section Wp.
Context {K D : Type}.
Implicit Types w : World K D.

Definition dwp {A} (m : M A) w (Q : World K D → result A → Prop) : Prop :=
  Q (m w).1 (m w).2.

Lemma dwp_bind {A B} (m : M A) (f : A → M B) w Q :
  dwp m w (λ w' r, match r with Ok a => dwp (f a) w' Q | Err e => Q w' (Err e) end) →
  dwp (m ≫= f) w Q.
Proof. unfold dwp, mbind, M_bind. by destruct (m w) as [w' [a|e]]. Qed.
Lemma dwp_ret {A} (a : A) w Q : Q w (Ok a) → dwp (mret a) w Q.
Proof. done. Qed.
Lemma dwp_gets {A} (f : World K D → A) w Q : Q w (Ok (f w)) → dwp (gets f) w Q.
Proof. done. Qed.
Lemma dwp_update f w (Q : _ → result unit → Prop) :
  Q (with_tab w (f (tab w))) (Ok tt) → dwp (update f) w Q.
Proof. done. Qed.
Lemma dwp_raise {A} e w (Q : _ → result A → Prop) : Q w (Err e) → dwp (raise e) w Q.
Proof. done. Qed.
Lemma dwp_deref {A} (o : option A) a w Q : o = Some a → Q w (Ok a) → dwp (deref o) w Q.
Proof. by intros ->. Qed.
Lemma dwp_mono {A} (m : M A) w (Q Q' : _ → _ → Prop) :
  (∀ w' r, Q w' r → Q' w' r) → dwp m w Q → dwp m w Q'.
Proof. unfold dwp. auto. Qed.

(** The allocator has [n] more requests to grant. *)
Definition grants (n : nat) (s : list bool) : Prop := take n s = replicate n true.

Lemma grants_drop i n s : grants (i + n) s → grants n (drop i s).
Proof.
  unfold grants. intros E. rewrite take_drop_commute, E, drop_replicate. f_equal. lia.
Qed.
Lemma grants_le n n' s : (n ≤ n')%nat → grants n' s → grants n s.
Proof.
  unfold grants. intros Hn E. replace n with (n `min` n')%nat at 1 by lia.
  rewrite <-take_take, E, take_replicate. f_equal. lia.
Qed.

Definition out_of_memory : string := "out of memory".

Lemma dwp_alloc w (Q : _ → result bool → Prop) :
  let w' := with_supply w (drop 1 (supply w)) in
  Q w' (Ok true) →
  (¬ grants 1 (supply w) →
     Q w' (if is_palloc (tab w) then Err out_of_memory else Ok false)) →
  dwp alloc w Q.
Proof.
  cbv zeta. unfold dwp, alloc, grants. intros Ht Hf.
  destruct (supply w) as [|[] s]; simpl in *.
  - destruct (is_palloc (tab w)); by apply Hf.
  - done.
  - destruct (is_palloc (tab w)); by apply Hf.
Qed.

(** What no operation of this file changes. *)
Definition setup w :=
  (self w, nest_level w, seq_scans w,
   (is_palloc (tab w), isshared (tab w), frozen (tab w), num_partitions (hctl (tab w)))).

End Wp.

(** ** Entries *)

Section Expand.
Context {K C D : Type} `{KeyLaws K C} `{Inhabited K} `{Inhabited D}.
Implicit Types (h : HTAB K D) (w : World K D) (bs : list (list nat)) (fl : list nat).

(** The allocations took at most [n] answers, and an error means that one of them
    was not granted. *)
Definition allocated {A} (n : nat) w w' (r : result A) : Prop :=
  (∃ i, (i ≤ n)%nat ∧ supply w' = drop i (supply w)) ∧
  match r with
  | Ok _ => True
  | Err e => e = out_of_memory ∧ ¬ grants n (supply w)
  end.

(** A step that only prepares the directory. *)
Definition dir_step w w' (bs : list (list nat)) (fl : list nat) : Prop :=
  setup w' = setup w ∧ layout (tab w') bs fl ∧ elements (tab w') = elements (tab w) ∧
  max_bucket (hctl (tab w')) = max_bucket (hctl (tab w)) ∧
  low_mask (hctl (tab w')) = low_mask (hctl (tab w)) ∧
  (ssize (tab w'), sshift (tab w')) = (ssize (tab w), sshift (tab w)).

Lemma dir_step_supply w bs fl s :
  layout (tab w) bs fl → dir_step w (with_supply w s) bs fl.
Proof. done. Qed.

Lemma dir_step_trans w w' w'' bs fl :
  dir_step w w' bs fl → dir_step w' w'' bs fl → dir_step w w'' bs fl.
Proof.
  intros (? & ? & ? & ? & ? & ?) (? & ? & ? & ? & ? & ?).
  unfold dir_step. split_and!; congruence.
Qed.

Lemma dir_realloc_spec w bs fl :
  layout (tab w) bs fl →
  dwp dir_realloc w (λ w' r, dir_step w w' bs fl ∧ allocated 1 w w' r ∧
    nsegs (hctl (tab w')) = nsegs (hctl (tab w)) ∧
    (r = Ok true → nsegs (hctl (tab w')) < dsize (hctl (tab w')))).
Proof.
  intros L. pose proof (lay_geo _ _ _ L) as G. unfold dir_realloc.
  apply dwp_bind, dwp_gets. destruct (Z.eqb_spec (max_dsize (hctl (tab w))) NO_MAX_DSIZE) as [Em|]; cbn [negb].
  2: { apply dwp_ret. split_and!; [done| |done|done]. split; [exists 0%nat|done]. split; [lia|done]. }
  assert (is_palloc (tab w) = true) as Hpal by (by destruct (geo_fixed _ G)).
  apply dwp_bind, dwp_alloc.
  - apply dwp_bind, dwp_update. rewrite Hpal by done. apply dwp_ret. simpl.
    assert (0 < dsize (hctl (tab w))) as Hd by (pose proof (geo_nsegs _ G); lia).
    rewrite take_ge by (pose proof (geo_dir _ G); lia).
    rewrite Z.shiftl_mul_pow2 by lia. change (2 ^ 1) with 2.
    split_and!; [|by split; [exists 1%nat|]|done|pose proof (geo_nsegs _ G); simpl; lia].
    split_and!; try done.
    assert (∀ i, Z.of_nat i < nsegs (hctl (tab w)) → ∀ x,
      mjoin ((dir (tab w) ++ x) !! i) = segment (tab w) i) as Hseg.
    { intros i Hi x. rewrite lookup_app_l; [done|].
      pose proof (geo_nsegs _ G). pose proof (geo_dir _ G). lia. }
    eapply layout_dir; try done; [|by intros i Hi; apply Hseg].
    destruct G. split; simpl; try done.
    + rewrite length_app, length_replicate. lia.
    + lia.
    + intros i Hi. unfold segment; simpl. rewrite Hseg by done. auto.
  - intros Hg. destruct (is_palloc (tab w)).
    + split_and!; [by apply dir_step_supply| |done|done]. by split; [exists 1%nat|].
    + apply dwp_ret. split_and!; [by apply dir_step_supply| |done|done]. by split; [exists 1%nat|].
Qed.

(** Writing the directory entry behind the segments in use. *)
Lemma segment_insert h n s i :
  i ≠ n → segment (with_dir h (<[n := s]> (dir h))) i = segment h i.
Proof. intros Hi. unfold segment; simpl. by rewrite list_lookup_insert_ne. Qed.

Lemma layout_set_segment h bs fl s :
  layout h bs fl → layout (with_dir h (<[Z.to_nat (nsegs (hctl h)) := s]> (dir h))) bs fl.
Proof.
  intros L. assert (∀ i, Z.of_nat i < nsegs (hctl h) →
    segment (with_dir h (<[Z.to_nat (nsegs (hctl h)) := s]> (dir h))) i = segment h i) as Hs.
  { intros i Hi. apply segment_insert. lia. }
  eapply layout_dir; try done. destruct (lay_geo _ _ _ L). split; try done.
  - simpl. by rewrite length_insert.
  - intros i Hi. simpl in *. rewrite Hs by done. auto.
Qed.
Lemma layout_add_segment h bs fl :
  layout h bs fl → nsegs (hctl h) < dsize (hctl h) →
  layout (with_hctl
    (with_dir h (<[Z.to_nat (nsegs (hctl h)) := Some (replicate (Z.to_nat (ssize h)) None)]> (dir h)))
    (set_dir_sizes (hctl h) (dsize (hctl h)) (nsegs (hctl h) + 1))) bs fl.
Proof.
  intros L Hlt. pose proof (lay_geo _ _ _ L) as G. pose proof (ssize_pos _ G) as Hs.
  eapply layout_dir; try done; [|intros i Hi; apply segment_insert; lia].
  pose proof (geo_room _ G). pose proof (geo_nsegs _ G). pose proof (geo_dir _ G).
  split; simpl; try apply G.
  - by rewrite length_insert.
  - lia.
  - nia.
  - intros i Hi. destruct (decide (i = Z.to_nat (nsegs (hctl h)))) as [->|Hne].
    + unfold segment; simpl. rewrite list_lookup_insert_eq by lia.
      eexists; split; [done|]. rewrite length_replicate. lia.
    + change (segment _ _) with
        (segment (with_dir h (<[Z.to_nat (nsegs (hctl h)) :=
           Some (replicate (Z.to_nat (ssize h)) None)]> (dir h))) i).
      rewrite segment_insert by done. apply (geo_segs _ G). lia.
Qed.

Lemma new_segment_spec w bs fl :
  layout (tab w) bs fl → nsegs (hctl (tab w)) < dsize (hctl (tab w)) →
  let new_segnum := nsegs (hctl (tab w)) in
  dwp (s ← seg_alloc;
      update (λ h, with_dir h (<[Z.to_nat new_segnum := s]> (dir h)));;
      match s with
      | None => mret false
      | Some _ =>
          update (λ h, with_hctl h
            (set_dir_sizes (hctl h) (dsize (hctl h)) (nsegs (hctl h) + 1)));;
          mret true
      end) w
    (λ w' r, dir_step w w' bs fl ∧ allocated 1 w w' r ∧
       (r = Ok true → nsegs (hctl (tab w')) = new_segnum + 1)).
Proof.
  intros L Hlt n. apply dwp_bind. unfold seg_alloc. apply dwp_bind, dwp_alloc.
  - apply dwp_bind, dwp_gets, dwp_ret, dwp_bind, dwp_update, dwp_bind, dwp_update, dwp_ret. simpl.
    split_and!; [|by split; [exists 1%nat|]|done]. split_and!; try done.
    by apply layout_add_segment.
  - intros Hg. destruct (is_palloc (tab w)).
    + split_and!; [done|by split; [exists 1%nat|]|done].
    + apply dwp_bind, dwp_gets, dwp_ret, dwp_bind, dwp_update, dwp_ret. simpl.
      split_and!; [|by split; [exists 1%nat|]|done]. split_and!; try done.
      by apply layout_set_segment.
Qed.

Lemma allocated_trans {A} n n' w w' w'' (r : result A) :
  allocated n w w' (Ok ()) → allocated n' w' w'' r → allocated (n + n') w w'' r.
Proof.
  intros [(i & Hi & Ei) _] [(j & Hj & Ej) Hr]. split.
  - exists (i + j)%nat. split; [lia|]. by rewrite Ej, Ei, drop_drop.
  - destruct r as [|e]; [done|]. destruct Hr as [-> Hg]. split; [done|]. intros Hgr.
    apply Hg. rewrite Ei. apply grants_drop. eapply grants_le, Hgr. lia.
Qed.

Lemma allocated_le {A} n n' w w' (r : result A) :
  (n ≤ n')%nat → allocated n w w' r → allocated n' w w' r.
Proof.
  intros Hn [(i & Hi & Ei) Hr]. split; [exists i; split; [lia|done]|].
  destruct r as [|e]; [done|]. destruct Hr as [-> Hg]. split; [done|].
  intros Hg'. by eapply Hg, grants_le.
Qed.

Lemma new_segnum_cases h :
  geometry h →
  let n := Z.shiftr (max_bucket (hctl h) + 1) (sshift h) in
  (n < nsegs (hctl h) ∧ max_bucket (hctl h) + 1 < nsegs (hctl h) * ssize h) ∨
  (n = nsegs (hctl h) ∧ max_bucket (hctl h) + 1 = nsegs (hctl h) * ssize h).
Proof.
  intros G n. unfold n. rewrite Z.shiftr_div_pow2, <-(geo_ssize _ G) by apply G.
  pose proof (ssize_pos _ G). pose proof (geo_room _ G).
  destruct (decide (max_bucket (hctl h) + 1 < nsegs (hctl h) * ssize h)).
  - left. split; [|done]. apply Z.div_lt_upper_bound; lia.
  - right. assert (max_bucket (hctl h) + 1 = nsegs (hctl h) * ssize h) as -> by lia.
    split; [|done]. apply Z.div_mul. lia.
Qed.

Lemma expand_segment_spec w bs fl :
  layout (tab w) bs fl →
  let h := tab w in
  dwp (expand_segment (Z.shiftr (max_bucket (hctl h) + 1) (sshift h))) w
    (λ w' r, dir_step w w' bs fl ∧ allocated 2 w w' r ∧
       (r = Ok true → max_bucket (hctl h) + 1 < nsegs (hctl (tab w')) * ssize (tab w'))).
Proof.
  intros L h. pose proof (lay_geo _ _ _ L) as G. unfold expand_segment.
  apply dwp_bind, dwp_gets. fold h. pose proof (ssize_pos h G) as Hs.
  destruct (new_segnum_cases h G) as [[Hn Hm]|[Hn Hm]].
  { destruct (Z.geb_spec (Z.shiftr (max_bucket (hctl h) + 1) (sshift h)) (nsegs (hctl h)));
      [lia|]. apply dwp_ret. split_and!; [done| |done]. split; [exists 0%nat|done]. split; [lia|done]. }
  rewrite Hn, Z.geb_leb, Z.leb_refl. apply dwp_bind.
  assert (∀ w1 ok, dir_step w w1 bs fl → allocated 1 w w1 (Ok ()) →
    nsegs (hctl (tab w1)) = nsegs (hctl h) →
    (ok = true → nsegs (hctl (tab w1)) < dsize (hctl (tab w1))) →
    dwp (if negb ok then mret false else
      s ← seg_alloc;
      update (λ h', with_dir h' (<[Z.to_nat (nsegs (hctl h)) := s]> (dir h')));;
      match s with
      | None => mret false
      | Some _ =>
          update (λ h, with_hctl h
            (set_dir_sizes (hctl h) (dsize (hctl h)) (nsegs (hctl h) + 1)));;
          mret true
      end) w1 (λ w' r, dir_step w w' bs fl ∧ allocated 2 w w' r ∧
       (r = Ok true → max_bucket (hctl h) + 1 < nsegs (hctl (tab w')) * ssize (tab w')))) as Hrest.
  { intros w1 [] D1 A1 En Hok; simpl negb; cbv iota.
    - pose proof D1 as (_ & L1 & _). rewrite <-En.
      eapply dwp_mono, (new_segment_spec w1); [|done|by apply Hok].
      intros w' r (D2 & A2 & Hr). split_and!.
      + by eapply dir_step_trans.
      + eapply (allocated_trans 1 1); [done|done].
      + intros ->. rewrite Hr, En by done. destruct D2 as (_ & _ & _ & _ & _ & [= -> _]).
        destruct D1 as (_ & _ & _ & _ & _ & [= -> _]). fold h. rewrite Hm. nia.
    - apply dwp_ret. split_and!; [done| |done]. apply (allocated_le 1); [lia|]. by destruct A1. }
  destruct (Z.geb_spec (nsegs (hctl h)) (dsize (hctl h))) as [Hd|Hd].
  - eapply dwp_mono, (dir_realloc_spec w bs fl L). intros w1 [ok|e] (D1 & A1 & En & Hok).
    + apply Hrest; [done| |done|intros ->; by apply Hok]. by destruct A1.
    + split_and!; [done|by apply (allocated_le 1); [lia|]|done].
  - apply dwp_ret, Hrest; [done| |done|by intros _]. split; [exists 0%nat|done]. split; [lia|done].
Qed.

(** ** [expand_table] *)

(** The keep test of [expand_table], on the table with the new masks. *)
Definition keep h (ob : Z) (a : nat) : bool :=
  match elements h !! a with
  | Some e => calc_bucket (hctl h) (hashvalue e) =? ob
  | None => false
  end.

(** The buckets after bucket [ob] is split. *)
Definition split_buckets h (ob : nat) (l : list nat) bs : list (list nat) :=
  <[ob := List.filter (keep h (Z.of_nat ob)) l]> bs ++
  [List.filter (λ a, negb (keep h (Z.of_nat ob) a)) l].

Lemma split_buckets_perm h ob l bs :
  bs !! ob = Some l → concat (split_buckets h ob l bs) ≡ₚ concat bs.
Proof.
  intros Hb. destruct (concat_insert_perm _ _ _ Hb) as (rest & -> & Hr).
  unfold split_buckets. rewrite concat_app, Hr. simpl. rewrite app_nil_r.
  rewrite <-(filter_perm (keep h (Z.of_nat ob)) l) at 3. solve_Permutation.
Qed.

(** Where an element ends up, by [calc_bucket_grow]. *)
Lemma split_placed h bs fl ob l b l' a :
  layout h bs fl → max_bucket (hctl h) + 1 < 2 ^ 32 →
  let new := max_bucket (hctl h) + 1 in
  let h' := with_hctl h (grow_masks (hctl h) new) in
  Z.of_nat ob = Z.land new (low_mask (hctl h)) → bs !! ob = Some l →
  split_buckets h' ob l bs !! b = Some l' → a ∈ l' → placed h' b a.
Proof.
  intros L Hlt new h' Hob Hl Hb Ha.
  assert (∀ b0 l0, bs !! b0 = Some l0 → a ∈ l0 → ∃ e, elements h !! a = Some e ∧
    calc_bucket (hctl h) (hashvalue e) = Z.of_nat b0 ∧ hashvalue e = hash (key e) ∧
    valid (key e)) as Hold by (intros b0 l0; apply (lay_placed _ _ _ L)).
  assert (ob < length bs)%nat as Hlen by by eapply lookup_lt_Some.
  pose proof (lay_buckets _ _ _ L) as Hlb.
  assert (∀ hv, calc_bucket (grow_masks (hctl h) new) hv = calc_bucket (hctl h) hv ∨
    (calc_bucket (hctl h) hv = Z.of_nat ob ∧
     calc_bucket (grow_masks (hctl h) new) hv = new)) as Hgrow.
  { intros hv. rewrite Hob. apply calc_bucket_grow; [apply L|done]. }
  unfold split_buckets in Hb.
  apply lookup_app_Some in Hb as [Hb|[Hge Hb]].
  - destruct (decide (b = ob)) as [->|Hne].
    + rewrite list_lookup_insert_eq in Hb by done. injection Hb as <-.
      apply list_elem_of_In, filter_In in Ha as [Ha Hk]. apply list_elem_of_In in Ha.
      destruct (Hold _ _ Hl Ha) as (e & He & Hc & Hv). exists e. split; [done|].
      unfold keep in Hk. simpl elements in Hk. rewrite He in Hk. apply Z.eqb_eq in Hk. done.
    + rewrite list_lookup_insert_ne in Hb by done.
      destruct (Hold _ _ Hb Ha) as (e & He & Hc & Hv). exists e. split; [done|].
      split; [|done]. simpl. destruct (Hgrow (hashvalue e)) as [-> |[E _]]; [done|lia].
  - rewrite length_insert in Hge, Hb. apply list_lookup_singleton_Some in Hb as [Hb <-].
    apply list_elem_of_In, filter_In in Ha as [Ha Hk]. apply list_elem_of_In in Ha.
    destruct (Hold _ _ Hl Ha) as (e & He & Hc & Hv). exists e. split; [done|].
    unfold keep in Hk. simpl elements in Hk. rewrite He in Hk.
    apply negb_true_iff, Z.eqb_neq in Hk. simpl in Hk |- *. split; [|done].
    destruct (Hgrow (hashvalue e)) as [E|[_ ->]]; [congruence|]. unfold new. lia.
Qed.

Lemma geometry_grow h :
  geometry h → max_bucket (hctl h) + 1 < 2 ^ 32 →
  max_bucket (hctl h) + 1 < nsegs (hctl h) * ssize h →
  let c := grow_masks (hctl h) (max_bucket (hctl h) + 1) in
  geometry (with_hctl h c) ∧ max_bucket c = max_bucket (hctl h) + 1.
Proof.
  intros G Hlt Hroom c. destruct (geo_masks _ G) as [k Hm].
  destruct (grow_masks_at _ k Hm Hlt) as [Emax Hm']. fold c in Emax, Hm'.
  assert ((dsize c, nsegs c, nelem_alloc c, max_dsize c) =
    (dsize (hctl h), nsegs (hctl h), nelem_alloc (hctl h), max_dsize (hctl h))) as [= Ed En Ea Ex].
  { unfold c, grow_masks. by destruct (_ >? _). }
  split; [|done]. split; unfold may_realloc; simpl; rewrite ?Ed, ?En, ?Ea, ?Ex, ?Emax; try apply G; [|done].
  destruct (_ <? _); by eexists.
Qed.

(** The chains of all buckets but the split one stay, the split one is two. *)
Lemma split_chains h h' bs fl so sn ob l :
  layout h bs fl → bs !! ob = Some l →
  so = bucket_slot h (Z.of_nat ob) → sn = bucket_slot h (max_bucket (hctl h) + 1) →
  Frame (touched so sn l) h h' →
  chain_from h' (freeList (hctl h)) fl ∧
  ∀ b lb, b ≠ ob → bs !! b = Some lb → chain_at h' (bucket_slot h (Z.of_nat b)) lb.
Proof.
  intros L Hob -> -> F. pose proof (lay_geo _ _ _ L) as G. split.
  - eapply chain_from_frame; [done| |apply L]. intros a Ha [E|[E|(b & Hb & [= <-])]]; try done.
    by apply (layout_free_disjoint _ _ _ _ _ a L Hob).
  - intros b lb Hne Hb. apply lookup_lt_Some in Hb as Hblt. pose proof (lay_buckets _ _ _ L) as Hlen.
    eapply chain_at_frame; [done| | |by apply (lay_chain _ _ _ L)].
    + intros [E|[E|(a & _ & E)]]; [| |done].
      * apply Hne. apply bucket_slot_inj in E; [lia|done|lia..].
      * apply bucket_slot_inj in E; [lia|done|lia..].
    + intros a Ha [E|[E|(c & Hc & [= <-])]]; try done.
      apply Hne. by apply (layout_disjoint _ _ _ _ _ _ _ a L Hb Hob).
Qed.

Lemma chain_length h bs fl ob l :
  layout h bs fl → bs !! ob = Some l → (length l < S (length (elements h)))%nat.
Proof.
  intros L Hb. pose proof (Permutation_length (lay_perm _ _ _ L)) as Hp.
  destruct (concat_insert_perm _ _ _ Hb) as (rest & Hc & _).
  rewrite length_app, Hc, length_app, length_seq in Hp. lia.
Qed.

(** The new layout, once the two chains are in place. *)
Lemma split_layout h bs fl ob l h3 :
  layout h bs fl → max_bucket (hctl h) + 1 < 2 ^ 32 →
  max_bucket (hctl h) + 1 < nsegs (hctl h) * ssize h →
  bs !! ob = Some l →
  let new := max_bucket (hctl h) + 1 in
  let h1 := with_hctl h (grow_masks (hctl h) new) in
  let so := bucket_slot h1 (Z.of_nat ob) in
  let sn := bucket_slot h1 new in
  Z.of_nat ob = Z.land new (low_mask (hctl h)) →
  Frame (touched so sn l) h1 h3 →
  chain_at h3 so (List.filter (keep h1 (Z.of_nat ob)) l) →
  chain_at h3 sn (List.filter (λ a, negb (keep h1 (Z.of_nat ob) a)) l) →
  layout h3 (split_buckets h1 ob l bs) fl.
Proof.
  intros L Hlt Hroom Hl new h1 so sn Hob F Co Cn. pose proof (lay_geo _ _ _ L) as G.
  destruct (geometry_grow h G Hlt Hroom) as [G1 Emax].
  change (max_bucket (hctl h1) = new) in Emax.
  assert (nentries (hctl h1) = nentries (hctl h) ∧ freeList (hctl h1) = freeList (hctl h))
    as [En Ef] by (unfold h1, grow_masks; simpl; by destruct (_ >? _)).
  pose proof (lay_buckets _ _ _ L) as Hlen. apply lookup_lt_Some in Hl as Hlt'.
  destruct (split_chains h (with_hctl h3 (hctl h)) bs fl so sn ob l) as [Cf Cb]; try done.
  { destruct F. split; try done. }
  pose proof (split_buckets_perm h1 ob l bs Hl) as Hperm.
  split.
  - by eapply geometry_frame.
  - rewrite (fr_hctl _ _ _ F), Emax. unfold split_buckets.
    rewrite length_app, length_insert. simpl. unfold new. lia.
  - intros b lb Hb. rewrite (bucket_slot_frame _ _ _ _ F). unfold split_buckets in Hb.
    apply lookup_app_Some in Hb as [Hb|[Hge Hb]].
    + destruct (decide (b = ob)) as [->|Hne].
      * rewrite list_lookup_insert_eq in Hb by done. by injection Hb as <-.
      * rewrite list_lookup_insert_ne in Hb by done.
        eapply chain_at_ext; [| |by apply (Cb b)]; done.
    + rewrite length_insert in Hge, Hb. apply list_lookup_singleton_Some in Hb as [Hb <-].
      assert (Z.of_nat b = new) as -> by (unfold new; lia). done.
  - rewrite (fr_hctl _ _ _ F), Ef. eapply chain_from_ext; [|by apply Cf]. done.
  - rewrite Hperm, (frame_length _ _ _ F). apply L.
  - rewrite (fr_hctl _ _ _ F), En, Hperm. apply L.
  - intros b lb a Hb Ha.
    destruct (split_placed h bs fl ob l b lb a L Hlt Hob Hl Hb Ha) as (e & He & Hc & Hv).
    destruct (frame_lookup _ _ _ _ _ F He) as (e' & He' & [= E1 E2 E3]).
    exists e'. rewrite (fr_hctl _ _ _ F), E1, E2. done.
Qed.

Lemma split_relocate h bs fl :
  layout h bs fl → max_bucket (hctl h) + 1 < 2 ^ 32 →
  max_bucket (hctl h) + 1 < nsegs (hctl h) * ssize h →
  let new := max_bucket (hctl h) + 1 in
  let old := Z.land new (low_mask (hctl h)) in
  let h1 := with_hctl h (grow_masks (hctl h) new) in
  ∃ first p h2 oldlink newlink bs',
    load h1 (bucket_slot h1 old) = Some first ∧ load h1 (bucket_slot h1 new) = Some p ∧
    relocate_loop (S (length (elements h1))) h1 old (bucket_slot h1 old)
      (bucket_slot h1 new) first = Some (h2, oldlink, newlink) ∧
    let h3 := store newlink None (store oldlink None h2) in
    layout h3 bs' fl ∧ concat bs' ≡ₚ concat bs ∧ Frame (λ _, True) h1 h3.
Proof.
  intros L Hlt Hroom new old h1. pose proof (lay_geo _ _ _ L) as G.
  destruct (geometry_grow h G Hlt Hroom) as [G1 Emax]. fold new in G1, Emax. fold h1 in G1.
  assert (0 <= old <= max_bucket (hctl h)) as Hold.
  { destruct (geo_masks _ G) as (k & Hk & El & Eh & Hb). unfold old.
    rewrite El, land_mask by lia. pose proof (Z.mod_pos_bound new (2 ^ k)). lia. }
  destruct (layout_lookup h bs fl old L Hold) as [l Hl].
  set (ob := Z.to_nat old) in *. assert (Z.of_nat ob = old) as Eob by (unfold ob; lia).
  assert (chain_at h1 (bucket_slot h1 old) l) as Hc.
  { rewrite <-Eob. eapply chain_at_ext; [| |by apply (lay_chain _ _ _ L)]; done. }
  destruct (chain_at_load _ _ _ Hc) as (first & Hfirst & Hcf).
  assert (is_Some (load h1 (bucket_slot h1 new))) as [p Hp].
  { apply bucket_slot_load; [done|]. pose proof (geo_room _ G1). simpl in *. unfold new in *. lia. }
  assert (NoDup l) as Hnd by by eapply layout_bucket_NoDup.
  destruct (relocate_loop_spec (keep h1 old) (S (length (elements h1))) h1 old
    (bucket_slot h1 old) (bucket_slot h1 new) [] [] l first)
    as (h2 & Hr & Po & Pn & Vo & Vn & F); try done.
  { by eapply (chain_length h). }
  { intros E. apply bucket_slot_inj in E; [unfold new in *; lia|done|unfold new in *; lia..]. }
  { by rewrite app_nil_r. }
  { intros a Ha. destruct (lay_placed _ _ _ L _ _ _ Hl Ha) as (e & He & _).
    exists e. split; [done|]. unfold keep. simpl elements. by rewrite He. }
  rewrite !app_nil_r in F. simpl app in *.
  destruct (terminate_chains h2 (bucket_slot h1 old) (bucket_slot h1 new)
    (List.filter (keep h1 old) l) (List.filter (λ a, negb (keep h1 old a)) l))
    as (Co & Cn & F'); try done.
  { intros E. apply bucket_slot_inj in E; [unfold new in *; lia|done|unfold new in *; lia..]. }
  { by rewrite filter_perm. }
  set (h3 := store _ None (store _ None h2)) in *.
  assert (Frame (touched (bucket_slot h1 old) (bucket_slot h1 new) l) h1 h3) as F3.
  { eapply frame_trans; [done|]. eapply frame_weaken, F'. intros t. apply touched_perm, filter_perm. }
  do 2 eexists. exists h2. do 2 eexists. exists (split_buckets h1 ob l bs).
  split; [exact Hfirst|]. split; [exact Hp|]. split; [exact Hr|]. cbv zeta. fold h3.
  split; [|split; [by apply split_buckets_perm|by eapply frame_weaken, F3]].
  rewrite <-Eob in F3, Co, Cn. by apply (split_layout h bs fl ob l).
Qed.

(** The table before and after an attempt to grow: the same entries. *)
Definition expanded {A} w w' (bs : list (list nat)) (fl : list nat) (r : result A) : Prop :=
  setup w' = setup w ∧ allocated 2 w w' r ∧
  max_bucket (hctl (tab w)) <= max_bucket (hctl (tab w')) <= max_bucket (hctl (tab w)) + 1 ∧
  content <$> elements (tab w') = content <$> elements (tab w) ∧
  ∃ bs', layout (tab w') bs' fl ∧ concat bs' ≡ₚ concat bs.

Lemma expanded_dir_step {A} w w' bs fl (r : result A) :
  dir_step w w' bs fl → allocated 2 w w' r → expanded w w' bs fl r.
Proof.
  intros (E & L & Ee & Em & _) HA. split_and!; [done|done|lia|lia|by rewrite Ee|by exists bs].
Qed.

Lemma expand_table_spec w bs fl :
  layout (tab w) bs fl → max_bucket (hctl (tab w)) + 1 < 2 ^ 32 →
  dwp expand_table w (λ w' r, expanded w w' bs fl r).
Proof.
  intros L Hlt. assert (0 <= max_bucket (hctl (tab w))) as Hmax0.
  { pose proof (calc_bucket_range _ 0 (geo_masks _ (lay_geo _ _ _ L))). lia. }
  unfold expand_table. apply dwp_bind, dwp_gets, dwp_bind. unfold u32.
  rewrite Z.mod_small by lia.
  eapply dwp_mono, (expand_segment_spec w bs fl L). intros w1 [ok|e] (D1 & A1 & Hok);
    [|by apply expanded_dir_step].
  destruct ok; [|by apply dwp_ret, expanded_dir_step]. simpl negb. cbv iota.
  specialize (Hok eq_refl). pose proof D1 as (E1 & L1 & Ee & Em & El & _). rewrite <-Em in *.
  destruct (split_relocate (tab w1) bs fl L1 Hlt Hok)
    as (first & p & h2 & ol & nl & bs' & Hf & Hp & Hr & L3 & Hperm & F).
  apply dwp_bind, dwp_gets, dwp_bind, dwp_update, dwp_bind, dwp_gets, dwp_bind.
  eapply dwp_deref; [exact Hf|]. apply dwp_bind. eapply dwp_deref; [exact Hp|].
  apply dwp_bind. eapply dwp_deref; [exact Hr|].
  apply dwp_bind, dwp_update, dwp_ret. cbn [tab with_tab].
  pose proof (fr_static _ _ _ F) as [= S1 S2 S3 _ _ _].
  destruct (geometry_grow (tab w1) (lay_geo _ _ _ L1) Hlt Hok) as [_ Emax].
  split_and!.
  - rewrite <-E1. unfold setup; simpl. rewrite S1, S2, S3, (fr_hctl _ _ _ F).
    unfold grow_masks; simpl. by destruct (_ >? _).
  - by destruct A1.
  - simpl. rewrite (fr_hctl _ _ _ F). simpl. lia.
  - simpl. rewrite (fr_hctl _ _ _ F). simpl. lia.
  - rewrite <-Ee. apply (fr_elems _ _ _ F).
  - by exists bs'.
Qed.

Lemma maybe_expand_spec w bs fl :
  layout (tab w) bs fl → max_bucket (hctl (tab w)) + 1 < 2 ^ 32 →
  dwp maybe_expand w (λ w' r, expanded w w' bs fl r ∧
    (has_seq_scans_in (self w) (seq_scans w) = true → tab w' = tab w)).
Proof.
  intros L Hlt. assert (0 <= max_bucket (hctl (tab w))) as Hmax0.
  { pose proof (calc_bucket_range _ 0 (geo_masks _ (lay_geo _ _ _ L))). lia. }
  assert (expanded w w bs fl (Ok ())) as Hno.
  { apply expanded_dir_step; [done|]. split; [exists 0%nat|done]. split; [lia|done]. }
  unfold maybe_expand. apply dwp_bind, dwp_gets. destruct (_ || _); [by apply dwp_ret|].
  unfold u32. rewrite Z.mod_small by lia.
  destruct (Z.eqb_spec (max_bucket (hctl (tab w)) + 1) 0); [lia|].
  apply dwp_bind, dwp_gets.
  destruct (_ && _) eqn:Eb; [|by apply dwp_ret].
  apply dwp_bind. eapply dwp_mono, (expand_table_spec w bs fl L Hlt).
  intros w' r Hw. assert (has_seq_scans_in (self w) (seq_scans w) = false) as Hs.
  { apply andb_prop in Eb as [_ Eb]. by apply negb_true_iff. }
  destruct r; (split; [done|by rewrite Hs]).
Qed.

End Expand.
End DynahashExpand.
