(* ===== verification/DynahashSearch.v ===== *)
(** Looking up, entering and removing: [hash_search] refines the operations of a
    finite map from key classes to the address and the data of their entry. *)

From Stdlib Require Import ZArith Lia.
From stdpp Require Import base gmap sets list option numbers strings.
From S2P Require Import Prelude Dynahash DynahashSpec DynahashTable DynahashExpand.
Import Dynahash DynahashSpec DynahashTable DynahashExpand.

Module DynahashSearch.

Section Search.
Context {K C D : Type} `{KeyLaws K C} `{Countable C} `{Inhabited K} `{Inhabited D}.
Implicit Types (h : HTAB K D) (w : World K D) (bs : list (list nat)) (fl : list nat).
Implicit Types (m : gmap C (nat * D)) (k : K).

(** ** Chains *)

Lemma chain_loop_spec (hit : nat → bool) fuel h hv k loc p l :
  (length l < fuel)%nat → chain_from h p l →
  (∀ a, a ∈ l → ∃ e, elements h !! a = Some e ∧
     hit a = (hashvalue e =? hv) && match_key (key e) k) →
  (chain_loop fuel h hv k loc p = Some (end_loc loc l, None) ∧ ∀ a, a ∈ l → hit a = false) ∨
  ∃ l1 a l2, l = l1 ++ a :: l2 ∧ hit a = true ∧
    chain_loop fuel h hv k loc p = Some (end_loc loc l1, Some a).
Proof.
  revert fuel loc p. induction l as [|a l IH]; intros [|fuel] loc p Hf Hc Hh;
    try (simpl in Hf; lia).
  { simpl in Hc. subst p. left. split; [done|]. set_solver. }
  destruct Hc as [-> Hc]. destruct (Hh a) as (e & He & Hit); [set_solver|].
  simpl. rewrite He. simpl. rewrite <-Hit. destruct (hit a) eqn:Ea.
  { right. by exists [], a, l. }
  destruct (chain_at_load _ _ _ Hc) as (q & Hq & Hcq).
  simpl in Hq. rewrite He in Hq. injection Hq as <-.
  destruct (IH fuel (LinkOf a) (link e)) as [[E Hn]|(l1 & b & l2 & -> & Hb & E)];
    [simpl in Hf; lia|done|intros; apply Hh; set_solver|..].
  - left. rewrite end_loc_cons. split; [done|]. intros b Hb.
    apply elem_of_cons in Hb as [->|Hb]; auto.
  - right. exists (a :: l1), b, l2. by rewrite end_loc_cons.
Qed.

(** ** Changing one bucket and the free list *)

Lemma layout_update h h' bs fl b l l' fl' :
  layout h bs fl → bs !! b = Some l → geometry h' →
  (ssize h', sshift h') = (ssize h, sshift h) →
  (max_bucket (hctl h'), high_mask (hctl h'), low_mask (hctl h')) =
    (max_bucket (hctl h), high_mask (hctl h), low_mask (hctl h)) →
  length (elements h') = length (elements h) →
  (∀ t, t ≠ bucket_slot h (Z.of_nat b) → (∀ a, a ∈ l ++ fl → t ≠ LinkOf a) →
     load h' t = load h t) →
  (∀ a, a ∉ l ++ fl → content <$> elements h' !! a = content <$> elements h !! a) →
  chain_at h' (bucket_slot h (Z.of_nat b)) l' → chain_from h' (freeList (hctl h')) fl' →
  l' ++ fl' ≡ₚ l ++ fl →
  nentries (hctl h') = nentries (hctl h) + Z.of_nat (length l') - Z.of_nat (length l) →
  (∀ a, a ∈ l' → placed h' b a) →
  layout h' (<[b := l']> bs) fl'.
Proof.
  intros L Hb G [= Es Eh] [= Em Ehm Elm] Hlen Hload Hcont Hc Hf Hp Hn Hpl.
  pose proof (lay_buckets _ _ _ L) as Hbs. apply lookup_lt_Some in Hb as Hlt.
  destruct (concat_insert_perm _ _ _ Hb) as (rest & Hr & Hr').
  assert (∀ b', bucket_slot h' b' = bucket_slot h b') as Hslot.
  { intros b'. unfold bucket_slot. by rewrite Es, Eh. }
  assert (∀ b' lb a, b' ≠ b → bs !! b' = Some lb → a ∈ lb → a ∉ l ++ fl) as Hother.
  { intros b' lb a Hne Hb' Ha [Ha'|Ha']%elem_of_app.
    - apply Hne. by eapply layout_disjoint.
    - by eapply layout_free_disjoint. }
  split.
  - done.
  - by rewrite length_insert, Em.
  - intros b' lb Hb'. rewrite Hslot. destruct (decide (b' = b)) as [->|Hne].
    { rewrite list_lookup_insert_eq in Hb' by done. by injection Hb' as <-. }
    rewrite list_lookup_insert_ne in Hb' by done. apply lookup_lt_Some in Hb' as Hlt'.
    eapply chain_at_ext; [| |by apply (lay_chain _ _ _ L)].
    + apply Hload; [|done]. intros E. apply bucket_slot_inj in E; [lia|apply L|lia..].
    + intros a Ha. apply Hload; [done|]. intros c Hc' [= ->]. by eapply Hother.
  - done.
  - rewrite Hr', Hlen, <-(lay_perm _ _ _ L), Hr. rewrite (Permutation_app_comm l'),
      (Permutation_app_comm l), <-!app_assoc. by rewrite Hp.
  - rewrite Hn, (lay_count _ _ _ L), Hr, Hr', !length_app. lia.
  - intros b' lb a Hb' Ha. destruct (decide (b' = b)) as [->|Hne].
    { rewrite list_lookup_insert_eq in Hb' by done. injection Hb' as <-. auto. }
    rewrite list_lookup_insert_ne in Hb' by done.
    destruct (lay_placed _ _ _ L _ _ _ Hb' Ha) as (e & He & Hcb & Hv).
    pose proof (Hcont a (Hother _ _ _ Hne Hb' Ha)) as Ec. rewrite He in Ec.
    destruct (elements h' !! a) as [e'|] eqn:He'; [|done].
    apply (inj Some) in Ec as [= E1 E2 E3]. exists e'. rewrite E1, E2. split; [done|].
    split; [|done]. rewrite <-Hcb. unfold calc_bucket. by rewrite Em, Ehm, Elm.
Qed.

(** Replacing what follows [l1] in a chain. *)
Lemma splice h s l1 p l' :
  is_slot s → NoDup l1 → path h s l1 → is_Some (load h (end_loc s l1)) →
  (∀ a, a ∈ l1 → a ∉ l') → chain_from h p l' →
  chain_at (store (end_loc s l1) p h) s (l1 ++ l').
Proof.
  intros Hs Hnd Hp Hv Hd Hc. apply chain_at_app. split.
  - apply path_store_end; auto.
  - eapply chain_at_of_load; [by apply load_store_eq|].
    eapply (chain_from_frame (eq (end_loc s l1))); [by apply frame_store| |done].
    intros a Ha E. destruct (end_loc_cases s l1) as [[_ El]|(c & Hc' & El)]; rewrite El in E.
    + by apply (Hs a).
    + injection E as ->. by apply (Hd a).
Qed.

Lemma path_end_valid h s l1 l2 : chain_at h s (l1 ++ l2) → is_Some (load h (end_loc s l1)).
Proof. intros [_ Hc]%chain_at_app. destruct (chain_at_load _ _ _ Hc) as (p & -> & _). by eexists. Qed.

(** ** Removal *)

Definition unlink h (prev : Loc) (a : nat) (l : HASHBUCKET) : HTAB K D :=
  let fl := freeList (hctl h) in
  let h := with_hctl h (set_entries (hctl h) (nentries (hctl h) - 1) fl) in
  let h := store (LinkOf a) fl (store prev l h) in
  with_hctl h (set_entries (hctl h) (nentries (hctl h)) (Some a)).

Lemma unlink_frame h prev a l :
  Frame (λ t, t = prev ∨ t = LinkOf a) h (with_hctl (unlink h prev a l) (hctl h)).
Proof.
  assert (Frame (λ t, t = prev ∨ t = LinkOf a)
    (with_hctl h (set_entries (hctl h) (nentries (hctl h) - 1) (freeList (hctl h))))
    (store (LinkOf a) (freeList (hctl h)) (store prev l
      (with_hctl h (set_entries (hctl h) (nentries (hctl h) - 1) (freeList (hctl h))))))) as F.
  { eapply frame_trans; apply frame_store; auto. }
  destruct F. split; try done.
Qed.

Lemma unlink_hctl h prev a l :
  hctl (unlink h prev a l) = set_entries (hctl h) (nentries (hctl h) - 1) (Some a).
Proof. unfold unlink. by destruct prev. Qed.

Lemma geometry_entries h h' n f :
  hctl h' = set_entries (hctl h) n f → geometry (with_hctl h' (hctl h)) → geometry h'.
Proof. intros E []. unfold may_realloc in *. by split; unfold may_realloc; rewrite ?E. Qed.
Lemma placed_frame T h h' n f b a :
  Frame T h (with_hctl h' (hctl h)) → hctl h' = set_entries (hctl h) n f →
  placed h b a → placed h' b a.
Proof.
  intros F E (e & He & Hc & Hv). destruct (frame_lookup _ _ _ _ _ F He) as (e' & He' & [= E1 E2 _]).
  exists e'. rewrite E1, E2, E. done.
Qed.

Lemma chain_rest h s l1 a l2 e :
  chain_at h s (l1 ++ a :: l2) → elements h !! a = Some e → chain_from h (link e) l2.
Proof.
  intros Hc He. apply chain_at_app in Hc as [_ Hc]. apply chain_at_cons in Hc as [_ Hc].
  destruct (chain_at_load _ _ _ Hc) as (q & Hq & Hcq). simpl in Hq. rewrite He in Hq.
  by injection Hq as <-.
Qed.

Lemma unlink_chain h s l1 a l2 e :
  is_slot s → NoDup (l1 ++ a :: l2) → chain_at h s (l1 ++ a :: l2) → elements h !! a = Some e →
  chain_at (unlink h (end_loc s l1) a (link e)) s (l1 ++ l2).
Proof.
  intros Hs Hnd Hc He. pose proof (chain_rest _ _ _ _ _ _ Hc He) as Hc2.
  rewrite <-Permutation_middle, NoDup_cons in Hnd. destruct Hnd as [Ha Hnd'].
  set (h2 := store (end_loc s l1) (link e) (with_hctl h
    (set_entries (hctl h) (nentries (hctl h) - 1) (freeList (hctl h))))).
  eapply (chain_at_ext (store (LinkOf a) (freeList (hctl h)) h2)); [done..|].
  eapply (chain_at_frame (eq (LinkOf a)) h2).
  - by apply frame_store.
  - intros E. by apply (Hs a).
  - intros c Hc' [= ->]. done.
  - apply NoDup_app in Hnd' as (Hnd1 & Hd & _). apply path_end_valid in Hc as Hv.
    apply chain_at_app in Hc as [Hp _]. apply splice; try done.
    + by eapply path_ext, Hp.
    + by eapply chain_from_ext, Hc2.
Qed.

Lemma unlink_free h s l1 a l2 e fl :
  is_slot s → elements h !! a = Some e → (∀ c, c ∈ l1 ++ a :: l2 → c ∉ fl) →
  chain_from h (freeList (hctl h)) fl →
  chain_from (unlink h (end_loc s l1) a (link e)) (Some a) (a :: fl).
Proof.
  intros Hs He Hfd Hf. set (h' := unlink h (end_loc s l1) a (link e)).
  pose proof (unlink_frame h (end_loc s l1) a (link e)) as F. fold h' in F.
  split; [done|]. eapply chain_at_of_load.
  - apply (load_store_eq (store _ _ _) (LinkOf a) (freeList (hctl h))).
    eapply frame_valid; [by apply (frame_store (λ _, True))|]. simpl. rewrite He. by eexists.
  - eapply (chain_from_ext (with_hctl h' (hctl h))); [done|].
    eapply (chain_from_frame _ h); [exact F| |done]. intros c Hc' [E|[= ->]].
    + destruct (end_loc_cases s l1) as [[_ El]|(d & Hd & El)]; rewrite El in E; [by apply (Hs c)|].
      injection E as ->. apply (Hfd d); [set_solver|done].
    + apply (Hfd a); [set_solver|done].
Qed.

Lemma unlink_layout h bs fl b l1 a l2 e :
  layout h bs fl → bs !! b = Some (l1 ++ a :: l2) → elements h !! a = Some e →
  layout (unlink h (end_loc (bucket_slot h (Z.of_nat b)) l1) a (link e))
    (<[b := l1 ++ l2]> bs) (a :: fl).
Proof.
  intros L Hb He. set (s := bucket_slot h (Z.of_nat b)).
  set (h' := unlink h (end_loc s l1) a (link e)).
  pose proof (unlink_frame h (end_loc s l1) a (link e)) as F. fold h' in F.
  destruct (frame_sizes _ _ _ F) as [Hss Hsh].
  assert (hctl h' = set_entries (hctl h) (nentries (hctl h) - 1) (Some a)) as Ehc
    by apply unlink_hctl.
  eapply (layout_update h h'); try done; rewrite ?Ehc.
  - eapply geometry_entries, geometry_frame; [done..|apply L].
  - f_equal; [exact Hss|exact Hsh].
  - done.
  - apply (frame_length _ _ _ F).
  - intros t Ht Hl. apply (fr_load _ _ _ F). intros [->| ->].
    + destruct (end_loc_cases s l1) as [[_ E]|(c & Hc' & E)]; [done|].
      apply (Hl c); [set_solver|done].
    + apply (Hl a); [set_solver|done].
  - intros c _. apply (frame_content _ _ _ c F).
  - apply unlink_chain; [done|by eapply layout_bucket_NoDup|by apply (lay_chain _ _ _ L)|done].
  - eapply unlink_free; [done..| |apply L]. intros c. by eapply layout_free_disjoint.
  - solve_Permutation.
  - simpl. rewrite !length_app. simpl. lia.
  - intros c Hc'. eapply placed_frame; [done..|]. eapply (lay_placed _ _ _ L); [done|set_solver].
Qed.

(** ** Insertion *)

Definition fill (hv : Z) (k : K) (e : HASHELEMENT K D) : HASHELEMENT K D :=
  MkElem None hv (keycopy k) (data e).
Definition link_in h (prev : Loc) (a : nat) (hv : Z) (k : K) : HTAB K D :=
  let h := store prev (Some a) h in
  with_elements h (alter (fill hv k) a (elements h)).

Lemma link_in_load h prev a hv k t :
  t ≠ prev → t ≠ LinkOf a → load (link_in h prev a hv k) t = load h t.
Proof.
  intros Hp Ha. rewrite <-(load_store_ne h prev t (Some a)) by done.
  destruct t as [s n|c]; [done|]. simpl. rewrite list_lookup_alter_ne; [done|congruence].
Qed.
Lemma link_in_prev h prev a hv k :
  prev ≠ LinkOf a → is_Some (load h prev) → load (link_in h prev a hv k) prev = Some (Some a).
Proof.
  intros Hp Hv. transitivity (load (store prev (Some a) h) prev); [|by apply load_store_eq].
  destruct prev as [s n|c]; [done|]. simpl. rewrite list_lookup_alter_ne; [done|congruence].
Qed.
Lemma link_in_elem h prev a hv k e :
  prev ≠ LinkOf a → elements h !! a = Some e →
  elements (link_in h prev a hv k) !! a = Some (fill hv k e).
Proof.
  intros Hp He. simpl. rewrite list_lookup_alter_eq.
  destruct prev as [s n|c]; simpl; [by rewrite He|].
  rewrite list_lookup_alter_ne by congruence. by rewrite He.
Qed.
Lemma link_in_content h prev a hv k c :
  c ≠ a → content <$> elements (link_in h prev a hv k) !! c = content <$> elements h !! c.
Proof.
  intros Hc. simpl. rewrite list_lookup_alter_ne by done.
  apply (frame_content (λ _, True)). by apply frame_store.
Qed.

Lemma append_chain h h' s l a :
  is_slot s → NoDup l → a ∉ l → chain_at h s l →
  (∀ t, t ≠ end_loc s l → t ≠ LinkOf a → load h' t = load h t) →
  load h' (end_loc s l) = Some (Some a) → load h' (LinkOf a) = Some None →
  chain_at h' s (l ++ [a]).
Proof.
  intros Hs Hnd Ha [Hp _] Hload Hend Hla. apply chain_at_app. split.
  - apply (path_ext h); [|done]. intros t Ht. apply Hload.
    + intros ->. by apply (end_loc_not_read s l Hnd).
    + intros ->. destruct (reads_cases _ _ _ Ht) as [E|(c & Hc & [= ->])]; [|done].
      by apply (Hs a).
  - apply chain_at_cons. by split.
Qed.

(** The layout after the element [a] went from the free list to the end of a
    chain. *)
Lemma layout_append h h' bs fl b l a p k e' :
  layout h bs (a :: fl) → bs !! b = Some l → load h (LinkOf a) = Some p →
  calc_bucket (hctl h) (hash k) = Z.of_nat b →
  geometry h' → (ssize h', sshift h') = (ssize h, sshift h) →
  hctl h' = set_entries (hctl h) (nentries (hctl h) + 1) p →
  length (elements h') = length (elements h) →
  (∀ t, t ≠ end_loc (bucket_slot h (Z.of_nat b)) l → t ≠ LinkOf a → load h' t = load h t) →
  load h' (end_loc (bucket_slot h (Z.of_nat b)) l) = Some (Some a) →
  (∀ c, c ≠ a → content <$> elements h' !! c = content <$> elements h !! c) →
  elements h' !! a = Some e' → link e' = None → hashvalue e' = hash k →
  hash (key e') = hash k → valid (key e') →
  layout h' (<[b := l ++ [a]]> bs) fl.
Proof.
  intros L Hb Ha Hk G Hsz Ehc Hlen Hload Hend Hcont He' Hl' Hv' Hh' Hval'.
  pose proof (lay_chain _ _ _ L _ _ Hb) as Hc.
  pose proof (layout_bucket_NoDup _ _ _ _ _ L Hb) as Hnd.
  assert (∀ c, c ∈ l → c ∉ a :: fl) as Hfd by (intros; by eapply layout_free_disjoint).
  assert (a ∉ l) as Hal by (intros Hal; apply (Hfd a Hal); left).
  assert (∀ c, LinkOf c = end_loc (bucket_slot h (Z.of_nat b)) l → c ∈ l) as Hpl.
  { intros c E. destruct (end_loc_cases (bucket_slot h (Z.of_nat b)) l)
      as [[_ El]|(d & Hd & El)]; rewrite El in E; [done|]. by injection E as ->. }
  eapply (layout_update h h'); try done; rewrite ?Ehc; try done.
  - intros t Ht Hl. apply Hload; [|apply Hl; set_solver].
    destruct (end_loc_cases (bucket_slot h (Z.of_nat b)) l) as [[_ ->]|(c & Hc' & ->)];
      [done|]. apply Hl. set_solver.
  - intros c Hcn. apply Hcont. set_solver.
  - eapply append_chain; try done. simpl. by rewrite He', <-Hl'.
  - pose proof (lay_free _ _ _ L) as [_ Hcf].
    destruct (chain_at_load _ _ _ Hcf) as (q & Hq & Hcq). rewrite Ha in Hq. injection Hq as <-.
    eapply chain_from_ext; [|exact Hcq]. intros c Hc'. apply Hload.
    + intros E. apply (Hfd c); [by apply Hpl|by right].
    + intros [= ->]. pose proof (layout_NoDup _ _ _ L) as Hn.
      apply NoDup_app in Hn as (_ & _ & Hn). by apply NoDup_cons in Hn as [? _].
  - solve_Permutation.
  - simpl. rewrite length_app. simpl. lia.
  - intros c [Hc'|Hc']%elem_of_app.
    + destruct (lay_placed _ _ _ L _ _ _ Hb Hc') as (e0 & He0 & Hcb & Hv).
      assert (content <$> elements h' !! c = content <$> elements h !! c) as Ec
        by (apply Hcont; by intros ->).
      rewrite He0 in Ec. destruct (elements h' !! c) as [e1|] eqn:He1; [|done].
      apply (inj Some) in Ec as [= E1 E2 E3]. exists e1. by rewrite E1, E2, Ehc.
    + apply list_elem_of_singleton in Hc' as ->. exists e'. by rewrite Ehc, Hv', Hh'.
Qed.

Lemma link_in_layout h bs fl b l a p k :
  layout h bs (a :: fl) → bs !! b = Some l → load h (LinkOf a) = Some p →
  calc_bucket (hctl h) (hash k) = Z.of_nat b → valid k →
  let h0 := with_hctl h (set_entries (hctl h) (nentries (hctl h) + 1) p) in
  layout (link_in h0 (end_loc (bucket_slot h (Z.of_nat b)) l) a (hash k) k)
    (<[b := l ++ [a]]> bs) fl.
Proof.
  intros L Hb Ha Hk Hval h0. remember (end_loc (bucket_slot h (Z.of_nat b)) l) as prev eqn:Ep.
  assert (prev ≠ LinkOf a) as Hpa.
  { intros E. destruct (end_loc_cases (bucket_slot h (Z.of_nat b)) l) as [[_ El]|(c & Hc & El)];
      rewrite El in Ep; rewrite Ep in E; [done|]. injection E as ->.
    eapply layout_free_disjoint; [done..|]. left. }
  assert (is_Some (load h0 prev)) as Hv.
  { exists None. subst prev. by apply (lay_chain _ _ _ L). }
  pose proof (frame_store (λ _, True) h0 prev (Some a) I) as F.
  destruct (frame_sizes _ _ _ F) as [Hss Hsh].
  assert (∃ e, elements h !! a = Some e) as [e He].
  { simpl in Ha. destruct (elements h !! a) as [e|]; [by exists e|done]. }
  pose proof (link_in_elem h0 prev a (hash k) k e Hpa He) as He'.
  assert (geometry (store prev (Some a) h0)) as G.
  { eapply geometry_frame; [exact F|]. destruct (lay_geo _ _ _ L). by split. }
  eapply (layout_append h _ bs fl b l a p k); rewrite <-?Ep; try done.
  - destruct G. by split.
  - cbn [link_in ssize sshift with_elements]. by rewrite Hss, Hsh.
  - by destruct prev.
  - cbn [link_in elements with_elements]. rewrite length_alter. exact (frame_length _ _ _ F).
  - intros t H1' H2'. by rewrite link_in_load.
  - by apply link_in_prev.
  - intros c Hc. by rewrite link_in_content.
  - simpl. apply (hash_canon (C:=C)); [by apply valid_keycopy|done|by apply canon_keycopy].
  - by apply valid_keycopy.
Qed.

(** ** Allocation of elements *)

Lemma new_elements_length n base prev : length (new_elements (K:=K) (D:=D) n base prev) = n.
Proof. revert base prev. induction n as [|n IH]; intros; simpl; auto. Qed.
Lemma new_elements_link n base prev i :
  (i < n)%nat →
  link <$> new_elements (K:=K) (D:=D) n base prev !! i =
    Some (match i with O => prev | S j => Some (base + j)%nat end).
Proof.
  revert base prev i. induction n as [|n IH]; intros base prev [|i] Hi; simpl; try done; try lia.
  rewrite IH by lia. destruct i as [|i]; [by rewrite Nat.add_0_r|]. do 2 f_equal. lia.
Qed.

(** The table after [nelem] elements were added to the free list. *)
Definition add_elements h (n : nat) : HTAB K D :=
  let base := length (elements h) in
  let prevElement := match n with O => None | S m => Some (base + m)%nat end in
  let h := with_elements h (elements h ++ new_elements n base None) in
  let h := store (LinkOf base) (freeList (hctl h)) h in
  with_hctl h (set_entries (hctl h) (nentries (hctl h)) prevElement).

Lemma add_elements_old h n a :
  (a < length (elements h))%nat → elements (add_elements h n) !! a = elements h !! a.
Proof.
  intros Ha. simpl. rewrite list_lookup_alter_ne by lia. by apply lookup_app_l.
Qed.
Lemma add_elements_new h n i :
  (i < n)%nat →
  load (add_elements h n) (LinkOf (length (elements h) + i)) =
    Some (match i with O => freeList (hctl h) | S j => Some (length (elements h) + j)%nat end).
Proof.
  intros Hi. pose proof (new_elements_link n (length (elements h)) None i Hi) as E.
  simpl. destruct i as [|i].
  - rewrite Nat.add_0_r, list_lookup_alter_eq, lookup_app_r, Nat.sub_diag by lia.
    by destruct (new_elements _ _ _ !! 0%nat).
  - rewrite list_lookup_alter_ne, lookup_app_r by lia.
    by replace (length (elements h) + S i - length (elements h))%nat with (S i) by lia.
Qed.

Lemma add_elements_chain h n fl i :
  (i ≤ n)%nat → chain_from (add_elements h n) (freeList (hctl h)) fl →
  chain_from (add_elements h n)
    (match i with O => freeList (hctl h) | S j => Some (length (elements h) + j)%nat end)
    (reverse (seq (length (elements h)) i) ++ fl).
Proof.
  intros Hi Hf. induction i as [|i IH]; [done|].
  rewrite seq_S, reverse_app. simpl. split; [done|].
  eapply chain_at_of_load, IH; [|lia]. rewrite add_elements_new by lia. by destruct i.
Qed.

Lemma layout_elem_lt h bs fl a :
  layout h bs fl → a ∈ concat bs ++ fl → (a < length (elements h))%nat.
Proof. intros L Ha. rewrite (lay_perm _ _ _ L), elem_of_seq in Ha. lia. Qed.

Lemma add_elements_layout h bs fl n :
  layout h bs fl → (n = 0%nat → fl = []) →
  layout (add_elements h n) bs (reverse (seq (length (elements h)) n) ++ fl).
Proof.
  intros L Hn. assert (∀ a, a ∈ concat bs ++ fl →
    load (add_elements h n) (LinkOf a) = load h (LinkOf a)) as Hload.
  { intros a Ha. unfold load. rewrite add_elements_old; [done|]. by eapply layout_elem_lt. }
  split.
  - destruct (lay_geo _ _ _ L). by split.
  - apply L.
  - intros b l Hb. eapply chain_at_ext; [| |by apply (lay_chain _ _ _ L)]; [done|].
    intros a Ha. apply Hload, elem_of_app. left. by eapply elem_of_bucket.
  - destruct n as [|n].
    + rewrite (Hn eq_refl). done.
    + apply (add_elements_chain h (S n) fl (S n)); [lia|].
      eapply chain_from_ext, L. intros a Ha. apply Hload, elem_of_app. by right.
  - simpl. rewrite length_alter, length_app, new_elements_length, seq_app.
    rewrite <-(lay_perm _ _ _ L), reverse_Permutation. simpl. solve_Permutation.
  - apply L.
  - intros b l a Hb Ha. destruct (lay_placed _ _ _ L _ _ _ Hb Ha) as (e & He & Hr).
    exists e. rewrite add_elements_old; [done|]. by eapply lookup_lt_Some.
Qed.

Lemma element_alloc_spec w n :
  1 <= n →
  dwp (element_alloc n) w (λ w' r, setup w' = setup w ∧ allocated 1 w w' r ∧
    match r with
    | Ok true => tab w' = add_elements (tab w) (Z.to_nat n)
    | _ => tab w' = tab w ∧ ¬ grants 1 (supply w)
    end).
Proof.
  intros Hn. unfold element_alloc. apply dwp_bind, dwp_alloc.
  - destruct (Z.ltb_spec n 1); [lia|]. apply dwp_bind, dwp_update, dwp_ret. split_and!; [done|by split; [exists 1%nat|]|done].
  - intros Hg. destruct (is_palloc (tab w)); [|apply dwp_ret];
      (split_and!; [done|by split; [exists 1%nat|]|done|done]).
Qed.

(** Taking an element off the free list, after filling it if it is empty. *)
Definition taken h (bs : list (list nat)) (a : nat) h' : Prop :=
  ∃ h1 fl p, (h1 = h ∨ ∃ n, h1 = add_elements h n) ∧ layout h1 bs (a :: fl) ∧
    load h1 (LinkOf a) = Some p ∧
    h' = with_hctl h1 (set_entries (hctl h1) (nentries (hctl h1) + 1) p).

Lemma take_free w1 h bs a fl (Q : World K D → result (option nat) → Prop) fuel :
  (tab w1 = h ∨ ∃ n, tab w1 = add_elements h n) → layout (tab w1) bs (a :: fl) →
  (∀ h', taken h bs a h' → Q (with_tab w1 h') (Ok (Some a))) →
  dwp (get_hash_entry_loop (S fuel)) w1 Q.
Proof.
  intros Hh L HQ. pose proof (lay_free _ _ _ L) as [Ef Hc].
  destruct (chain_at_load _ _ _ Hc) as (p & Hp & _).
  simpl. apply dwp_bind, dwp_gets. rewrite Ef. apply dwp_bind. eapply dwp_deref; [exact Hp|].
  apply dwp_bind, dwp_update, dwp_ret, HQ. by exists (tab w1), fl, p.
Qed.

Lemma get_hash_entry_spec w bs fl :
  layout (tab w) bs fl →
  dwp get_hash_entry w (λ w' r, setup w' = setup w ∧ allocated 1 w w' r ∧
    match r with
    | Ok (Some a) => taken (tab w) bs a (tab w')
    | _ => tab w' = tab w ∧ ¬ grants 1 (supply w)
    end).
Proof.
  intros L. unfold get_hash_entry. destruct fl as [|a fl].
  - simpl. apply dwp_bind, dwp_gets. pose proof (lay_free _ _ _ L) as Ef. simpl in Ef. rewrite Ef.
    pose proof (geo_alloc _ (lay_geo _ _ _ L)) as Hn.
    apply dwp_bind. eapply dwp_mono, element_alloc_spec; [|lia]. intros w1 [[]|e] (E & A & Ht).
    +      set (n := Z.to_nat (nelem_alloc (hctl (tab w)))) in *.
      pose proof (add_elements_layout (tab w) bs [] n L ltac:(done)) as L1.
      rewrite <-Ht, app_nil_r in L1. assert (∃ n', n = S n') as [n' En] by (exists (n - 1)%nat; lia).
      rewrite En, seq_S, reverse_app, reverse_singleton in L1.
      eapply (take_free w1 (tab w) bs _ _ _ 0); [right; by exists n|exact L1|].
      intros h' Hh'. split_and!; [|by destruct A|done]. rewrite <-E.
      destruct Hh' as (h1 & ? & ? & Hor & _ & _ & ->). unfold setup in *. simpl.
      destruct Hor as [->|[? ->]]; simpl in *; congruence.
    + apply dwp_ret. split_and!; [done|by destruct A|apply Ht..].
    + split_and!; [done|done|apply Ht..].
  - apply (take_free w (tab w) bs a fl); [by left|done|]. intros h' Hh'. split_and!; [| |done].
    + destruct Hh' as (h1 & ? & ? & Hor & _ & _ & ->). unfold setup; simpl.
      by destruct Hor as [->|[? ->]].
    + split; [exists 0%nat|done]. split; [lia|done].
Qed.

(** ** The abstract map *)

Definition entry_at h (c : C) (a : nat) (d : D) : Prop :=
  ∃ e, elements h !! a = Some e ∧ canon (key e) = c ∧ data e = d.
(** [m] maps each key class of an entry to the address and data of the entry. *)
Definition represents h bs m : Prop :=
  ∀ c a d, m !! c = Some (a, d) ↔ a ∈ concat bs ∧ entry_at h c a d.

Lemma entry_at_ext h h' c a d :
  content <$> elements h' !! a = content <$> elements h !! a →
  entry_at h c a d ↔ entry_at h' c a d.
Proof.
  intros E. unfold entry_at. destruct (elements h !! a) as [e|], (elements h' !! a) as [e'|];
    [|discriminate E..|done].
  apply (inj Some) in E as [= _ E2 E3].
  split; intros (e0 & [= <-] & Hk & Hd); eexists; (split; [done|]);
    [by rewrite E2, E3|by rewrite <-E2, <-E3].
Qed.
Lemma represents_ext h h' bs bs' m :
  (∀ a, a ∈ concat bs → content <$> elements h' !! a = content <$> elements h !! a) →
  concat bs' ≡ₚ concat bs → represents h bs m → represents h' bs' m.
Proof.
  intros Hc Hp Hr c a d. rewrite (Hr c a d), Hp.
  split; intros [Ha He]; (split; [done|]); by apply (entry_at_ext h h'); [apply Hc|].
Qed.

Lemma represents_remove h h' bs bs' m c a d :
  represents h bs m → m !! c = Some (a, d) → NoDup (concat bs) → concat bs ≡ₚ a :: concat bs' →
  (∀ b, content <$> elements h' !! b = content <$> elements h !! b) →
  represents h' bs' (delete c m).
Proof.
  intros Hr Hm Hnd Hp Hc c' a' d'. rewrite Hp, NoDup_cons in Hnd.
  destruct (proj1 (Hr c a d) Hm) as [Ha (e & He & Hk & Hd)].
  rewrite lookup_delete_Some, (Hr c' a' d'), Hp, elem_of_cons, (entry_at_ext h h') by apply Hc.
  split.
  - intros (Hne & [->|Ha'] & He'); [|done]. apply (entry_at_ext h h') in He'; [|apply Hc].
    destruct He' as (e' & He' & Hk' & _). simplify_eq.
  - intros [Ha' He']. split_and!; [|by right|done]. intros <-.
    assert (m !! c = Some (a', d')) as Hm'.
    { apply Hr. rewrite Hp. split; [by right|]. by apply (entry_at_ext h h'); [apply Hc|]. }
    simplify_eq. naive_solver.
Qed.

Lemma represents_insert h h' bs bs' m c a d :
  represents h bs m → m !! c = None → a ∉ concat bs → concat bs' ≡ₚ a :: concat bs →
  (∀ b, b ∈ concat bs → content <$> elements h' !! b = content <$> elements h !! b) →
  entry_at h' c a d →
  represents h' bs' (<[c := (a, d)]> m).
Proof.
  intros Hr Hm Ha Hp Hc He c' a' d'. rewrite Hp, elem_of_cons. split.
  - intros [[<- [= <- <-]]|[Hne Hm']]%lookup_insert_Some; [by split; [left|]|].
    apply Hr in Hm' as [Ha' He']. split; [by right|]. by apply (entry_at_ext h h'); [apply Hc|].
  - intros [[->|Ha'] He'].
    + destruct He as (e & He & <- & <-), He' as (e' & He' & <- & <-). simplify_eq.
      by rewrite lookup_insert_eq.
    + assert (m !! c' = Some (a', d')) as Hm'.
      { apply Hr. split; [done|]. by apply (entry_at_ext h h'); [apply Hc|]. }
      rewrite lookup_insert_ne; [done|]. intros <-. congruence.
Qed.

(** ** Finding a key *)

(** The test of the chain loop. *)
Definition hit h k (a : nat) : bool :=
  match elements h !! a with
  | Some e => (hashvalue e =? hash k) && match_key (key e) k
  | None => false
  end.
Lemma hit_canon h bs fl b l k a :
  layout h bs fl → valid k → bs !! b = Some l → a ∈ l →
  hit h k a = true ↔ ∃ e, elements h !! a = Some e ∧ canon (key e) = canon k.
Proof.
  intros L Hv Hl Ha. unfold hit.
  destruct (lay_placed _ _ _ L _ _ _ Hl Ha) as (e & He & _ & Hh & Hve). rewrite He, Hh.
  rewrite andb_true_iff, Z.eqb_eq, match_canon by done. split.
  - intros [_ E]. by exists e.
  - intros (e' & [= <-] & E). split; [|done]. by apply (hash_canon (C:=C)).
Qed.
(** A key that is in the table is in the bucket of its hash value. *)
Lemma represents_bucket h bs fl m k a d :
  layout h bs fl → represents h bs m → valid k → m !! canon k = Some (a, d) →
  ∃ l, bs !! Z.to_nat (calc_bucket (hctl h) (hash k)) = Some l ∧ a ∈ l ∧ hit h k a = true.
Proof.
  intros L Hr Hv Em. apply Hr in Em as [Ha (e & He & Hk & _)].
  apply list_elem_of_In, in_concat in Ha as (l & Hl & Ha).
  apply list_elem_of_In in Hl, Ha. apply list_elem_of_lookup in Hl as [b Hl].
  destruct (lay_placed _ _ _ L _ _ _ Hl Ha) as (e' & He' & Hcb & Hh & Hve). simplify_eq.
  exists l. rewrite <-(hash_canon _ _ Hve Hv Hk), <-Hh, Hcb, Nat2Z.id. split_and!; [done..|].
  eapply (hit_canon h bs fl); [done..|]. by exists e.
Qed.

Lemma search_chain h bs fl m k :
  layout h bs fl → represents h bs m → valid k →
  let b := calc_bucket (hctl h) (hash k) in
  ∃ seg p l, dir h !! Z.to_nat (Z.shiftr b (sshift h)) = Some (Some seg) ∧
    load h (bucket_slot h b) = Some p ∧ 0 <= b ∧ bs !! Z.to_nat b = Some l ∧
    let res := chain_loop (S (length (elements h))) h (hash k) k (bucket_slot h b) p in
    ((m !! canon k = None ∧ res = Some (end_loc (bucket_slot h b) l, None)) ∨
     ∃ l1 a l2 e, l = l1 ++ a :: l2 ∧ elements h !! a = Some e ∧
       m !! canon k = Some (a, data e) ∧
       res = Some (end_loc (bucket_slot h b) l1, Some a)).
Proof.
  intros L Hr Hv b. pose proof (lay_geo _ _ _ L) as G.
  pose proof (calc_bucket_range (hctl h) (hash k) (geo_masks _ G)) as Hb. fold b in Hb.
  destruct (layout_lookup h bs fl b L Hb) as [l Hl].
  pose proof (lay_chain _ _ _ L _ _ Hl) as Hc. rewrite Z2Nat.id in Hc by lia.
  destruct (chain_at_load _ _ _ Hc) as (p & Hp & Hcf).
  destruct (bucket_segment h b G) as (seg & Hseg & _); [pose proof (geo_room _ G); lia|].
  exists seg, p, l. split.
  { unfold segment in Hseg. by destruct (dir h !! _) as [[]|]; simplify_eq/=. }
  split; [done|]. split; [lia|]. split; [done|]. cbv zeta.
  destruct (chain_loop_spec (hit h k) (S (length (elements h))) h (hash k) k (bucket_slot h b) p l)
    as [[Hres Hno]|(l1 & a & l2 & El & Ha & Hres)]; [by eapply chain_length|done| |..].
  { intros a Ha. destruct (lay_placed _ _ _ L _ _ _ Hl Ha) as (e & He & _).
    exists e. split; [done|]. unfold hit. by rewrite He. }
  - left. split; [|done]. destruct (m !! canon k) as [[a d]|] eqn:Em; [|done].
    destruct (represents_bucket h bs fl m k a d) as (l' & Hl' & Ha & Hh); try done.
    fold b in Hl'. simplify_eq. by rewrite Hno in Hh.
  - right. assert (a ∈ l) as Hal by (rewrite El; set_solver).
    apply (hit_canon h bs fl _ _ _ _ L Hv Hl Hal) in Ha as (e & He & Hk).
    exists l1, a, l2, e. split_and!; try done. apply Hr.
    split; [by eapply elem_of_bucket|]. by exists e.
Qed.

(** ** [hash_search] *)

Definition enters (action : HASHACTION) : Prop := action = HASH_ENTER ∨ action = HASH_ENTER_NULL.

(** What a call returns and makes of the map [m]; [fz] says whether the table is
    frozen, [mem] is what the allocator will answer. *)
Inductive search_step (fz : bool) (mem : list bool) k m :
    HASHACTION → result (option nat * bool) → gmap C (nat * D) → Prop :=
  | step_find :
      search_step fz mem k m HASH_FIND
        (Ok (fst <$> m !! canon k, bool_decide (is_Some (m !! canon k)))) m
  | step_remove :
      search_step fz mem k m HASH_REMOVE
        (Ok (fst <$> m !! canon k, bool_decide (is_Some (m !! canon k)))) (delete (canon k) m)
  | step_enter_old action a d :
      enters action → m !! canon k = Some (a, d) →
      search_step fz mem k m action (Ok (Some a, true)) m
  | step_enter_new action a d :
      enters action → m !! canon k = None → fz = false →
      (∀ c a' d', m !! c = Some (a', d') → a' ≠ a) →
      search_step fz mem k m action (Ok (Some a, false)) (<[canon k := (a, d)]> m)
  | step_frozen action :
      enters action → m !! canon k = None → fz = true →
      search_step fz mem k m action (Err "cannot insert into frozen hashtable") m
  | step_no_memory action e :
      enters action → ¬ grants 3 mem → e = "out of memory" ∨ e = "out of shared memory" →
      search_step fz mem k m action (Err e) m
  | step_null :
      m !! canon k = None → fz = false → ¬ grants 3 mem →
      search_step fz mem k m HASH_ENTER_NULL (Ok (None, false)) m.

(** The table holds the entries of [m]. *)
Definition table_ok h m : Prop := ∃ bs fl, layout h bs fl ∧ represents h bs m.

(** From the lookup to the end of the collision chain. *)
Ltac dwp_lookup Hdir Hp Hres :=
  apply dwp_bind, dwp_gets, dwp_bind; eapply dwp_deref; [exact Hdir|];
  apply dwp_bind; eapply dwp_deref; [exact Hp|];
  apply dwp_bind; eapply dwp_deref; [exact Hres|].

Lemma find_spec w m k :
  table_ok (tab w) m → valid k →
  dwp (hash_search k HASH_FIND) w (λ w' r, w' = w ∧
    r = Ok (fst <$> m !! canon k, bool_decide (is_Some (m !! canon k)))).
Proof.
  intros (bs & fl & L & R) Hv. unfold hash_search, hash_search_with_hash_value.
  apply dwp_bind, dwp_ret.
  destruct (search_chain (tab w) bs fl m k L R Hv) as (seg & p & l & Hdir & Hp & Hb0 & Hl &
    [[Em Hres]|(l1 & a & l2 & e & -> & He & Em & Hres)]); dwp_lookup Hdir Hp Hres;
    apply dwp_ret; by rewrite Em.
Qed.

Lemma unlink_perm bs b l1 a l2 :
  bs !! b = Some (l1 ++ a :: l2) → concat bs ≡ₚ a :: concat (<[b := l1 ++ l2]> bs).
Proof.
  intros Hb. destruct (concat_insert_perm _ _ _ Hb) as (rest & -> & ->). solve_Permutation.
Qed.

(** The buckets after a removal: at most one element less. *)
Definition shortened bs bs' (o : option nat) : Prop :=
  match o with
  | None => bs' = bs
  | Some a => ∃ b l1 l2, bs !! b = Some (l1 ++ a :: l2) ∧ bs' = <[b := l1 ++ l2]> bs
  end.

Lemma remove_spec w bs fl m k :
  layout (tab w) bs fl → represents (tab w) bs m → valid k →
  dwp (hash_search k HASH_REMOVE) w (λ w' r, setup w' = setup w ∧ supply w' = supply w ∧
    max_bucket (hctl (tab w')) = max_bucket (hctl (tab w)) ∧
    (∃ bs' fl', layout (tab w') bs' fl' ∧ represents (tab w') bs' (delete (canon k) m) ∧
       shortened bs bs' (fst <$> m !! canon k)) ∧
    r = Ok (fst <$> m !! canon k, bool_decide (is_Some (m !! canon k)))).
Proof.
  intros L R Hv. unfold hash_search, hash_search_with_hash_value.
  apply dwp_bind, dwp_ret.
  destruct (search_chain (tab w) bs fl m k L R Hv) as (seg & p & l & Hdir & Hp & Hb0 & Hl &
    [[Em Hres]|(l1 & a & l2 & e & -> & He & Em & Hres)]); dwp_lookup Hdir Hp Hres.
  - apply dwp_ret. rewrite Em, delete_id by done. split_and!; try done. by exists bs, fl.
  - apply dwp_bind. unfold remove_element. apply dwp_bind, dwp_gets, dwp_bind.
    eapply (dwp_deref _ (link e)); [simpl; by rewrite He|]. apply dwp_update, dwp_ret.
    set (b := Z.to_nat (calc_bucket (hctl (tab w)) (hash k))) in *.
    assert (Z.of_nat b = calc_bucket (hctl (tab w)) (hash k)) as Eb by (unfold b; lia).
    pose proof (unlink_layout (tab w) bs fl b l1 a l2 e L Hl He) as L'. rewrite Eb in L'.
    pose proof (unlink_frame (tab w) (end_loc (bucket_slot (tab w) (Z.of_nat b)) l1) a (link e)) as F.
    rewrite Eb in F. pose proof (fr_static _ _ _ F) as Hst. cbn [tab with_tab].
    change (with_hctl _ _) with (unlink (tab w)
      (end_loc (bucket_slot (tab w) (calc_bucket (hctl (tab w)) (hash k))) l1) a (link e)).
    rewrite Em. split_and!; [|done| | |done].
    + unfold setup. simpl tab. rewrite unlink_hctl. simpl. injection Hst as -> -> -> _ _ _. done.
    + by rewrite unlink_hctl.
    + eexists _, _. split; [exact L'|]. split; [|by exists b, l1, l2].
      eapply represents_remove; [done|done| | |].
      * pose proof (layout_NoDup _ _ _ L) as Hn. by apply NoDup_app in Hn as [? _].
      * by apply unlink_perm.
      * intros c. apply (frame_content _ _ _ c F).
Qed.

(** ** Entering *)

(** The buckets after an insertion without a split: at most one element more, at
    the end of a chain. *)
Definition appended bs bs' : Prop :=
  bs' = bs ∨ ∃ b l a, bs !! b = Some l ∧ bs' = <[b := l ++ [a]]> bs ∧ a ∉ concat bs.

(** What becomes of a new key; the outcomes of an allocation failure are last. *)
Definition enter_outcome (mem : list bool) k m (action : HASHACTION)
    (r : result (option nat * bool)) (m' : gmap C (nat * D)) : Prop :=
  (∃ a d, r = Ok (Some a, false) ∧ m' = <[canon k := (a, d)]> m ∧
     ∀ c a' d', m !! c = Some (a', d') → a' ≠ a) ∨
  (¬ grants 1 mem ∧ m' = m ∧
     ((action = HASH_ENTER_NULL ∧ r = Ok (None, false)) ∨
      ∃ e, r = Err e ∧ (e = "out of memory" ∨ e = "out of shared memory"))).

Lemma taken_facts h bs a h' :
  taken h bs a h' →
  ∃ h1 fl p, layout h1 bs (a :: fl) ∧ load h1 (LinkOf a) = Some p ∧
    h' = with_hctl h1 (set_entries (hctl h1) (nentries (hctl h1) + 1) p) ∧
    (ssize h1, sshift h1, max_bucket (hctl h1), high_mask (hctl h1), low_mask (hctl h1)) =
      (ssize h, sshift h, max_bucket (hctl h), high_mask (hctl h), low_mask (hctl h)) ∧
    ∀ c, (c < length (elements h))%nat → elements h1 !! c = elements h !! c.
Proof.
  intros (h1 & fl & p & Hor & L & Hp & ->). exists h1, fl, p. split_and!; try done.
  - by destruct Hor as [->|[n ->]].
  - destruct Hor as [->|[n ->]]; [done|]. intros c Hc. by apply add_elements_old.
Qed.

Lemma taken_not_in_use h bs a fl : layout h bs (a :: fl) → a ∉ concat bs.
Proof.
  intros L Ha. pose proof (layout_NoDup _ _ _ L) as Hn.
  apply NoDup_app in Hn as (_ & Hd & _). apply (Hd a Ha). left.
Qed.

Lemma link_in_table h bs fl m k l h0 a :
  layout h bs fl → represents h bs m → valid k → m !! canon k = None →
  let b := calc_bucket (hctl h) (hash k) in
  bs !! Z.to_nat b = Some l → 0 <= b → taken h bs a h0 →
  let h' := link_in h0 (end_loc (bucket_slot h b) l) a (hash k) k in
  ∃ d fl', layout h' (<[Z.to_nat b := l ++ [a]]> bs) fl' ∧
    represents h' (<[Z.to_nat b := l ++ [a]]> bs) (<[canon k := (a, d)]> m) ∧
    a ∉ concat bs ∧ ∀ c a' d', m !! c = Some (a', d') → a' ≠ a.
Proof.
  intros L R Hv Em b Hl Hb Ht h'.
  destruct (taken_facts _ _ _ _ Ht) as (h1 & fl1 & p & L1 & Hp & -> & [= E1 E2 E3 E4 E5] & Hold).
  assert (Z.of_nat (Z.to_nat b) = b) as Eb by lia.
  assert (bucket_slot h1 b = bucket_slot h b) as Es by (unfold bucket_slot; by rewrite E1, E2).
  assert (calc_bucket (hctl h1) (hash k) = Z.of_nat (Z.to_nat b)) as Hcb.
  { rewrite Eb. unfold b, calc_bucket. by rewrite E3, E4, E5. }
  pose proof (link_in_layout h1 bs fl1 _ l a p k L1 Hl Hp Hcb Hv) as L'.
  rewrite Eb, Es in L'. pose proof (taken_not_in_use _ _ _ _ L1) as Hna.
  assert (∃ e, elements h1 !! a = Some e) as [e He].
  { simpl in Hp. destruct (elements h1 !! a) as [e|]; [by exists e|done]. }
  exists (data e), fl1. split; [exact L'|]. split; [|split; [done|]].
  - eapply (represents_insert h); [done|done|done| | |].
    + destruct (concat_insert_perm _ _ _ Hl) as (rest & -> & ->). solve_Permutation.
    + intros c Hc. unfold h'. rewrite link_in_content by (by intros ->).
      rewrite <-Hold; [done|]. eapply (layout_elem_lt h bs fl); [done|]. set_solver.
    + exists (fill (hash k) k e). split; [|split; [by apply canon_keycopy|done]].
      apply link_in_elem; [|done]. intros E.
      destruct (end_loc_cases (bucket_slot h b) l) as [[_ El]|(c & Hc & El)];
        rewrite El in E; [done|]. injection E as ->. by apply Hna; eapply elem_of_bucket.
  - intros c a' d' Hm ->. apply R in Hm as [Hm _]. done.
Qed.

Lemma enter_new_spec w bs fl m k l action (sh : bool) :
  layout (tab w) bs fl → represents (tab w) bs m → valid k → m !! canon k = None →
  let b := calc_bucket (hctl (tab w)) (hash k) in
  bs !! Z.to_nat b = Some l → 0 <= b → enters action →
  dwp (e ← get_hash_entry;
      match e with
      | None =>
          match action with
          | HASH_ENTER_NULL => mret (None, false)
          | _ => raise (if sh then "out of shared memory" else "out of memory")
          end
      | Some a =>
          link_element (end_loc (bucket_slot (tab w) b) l) a (hash k) k;; mret (Some a, false)
      end) w
    (λ w' r, setup w' = setup w ∧
      (∃ i, (i ≤ 1)%nat ∧ supply w' = drop i (supply w)) ∧
      max_bucket (hctl (tab w')) = max_bucket (hctl (tab w)) ∧
      ∃ bs' fl' m', layout (tab w') bs' fl' ∧ represents (tab w') bs' m' ∧
        appended bs bs' ∧ enter_outcome (supply w) k m action r m').
Proof.
  intros L R Hv Em b Hl Hb Hact. apply dwp_bind.
  eapply dwp_mono, (get_hash_entry_spec w bs fl L). intros w1 [[a|]|e] (Es & A & Ht).
  - apply dwp_bind. unfold link_element. apply dwp_update, dwp_ret. cbn [tab with_tab].
    destruct (link_in_table (tab w) bs fl m k l (tab w1) a L R Hv Em Hl Hb Ht) as (d & fl' & L' & R' & Hna & Hfr).
    fold b in L', R'. split_and!.
    + rewrite <-Es. unfold setup. simpl. by destruct (end_loc _ l).
    + apply A.
    + destruct (taken_facts _ _ _ _ Ht) as (h1 & fl1 & p & _ & _ & E & [= _ _ E3 _ _] & _).
      rewrite E. simpl. destruct (end_loc _ l); simpl; done.
    + eexists _, fl', _. split; [exact L'|]. split; [exact R'|]. split.
      * right. by eexists _, _, _.
      * left. by exists a, d.
  - destruct Ht as [Ht Hg].
    destruct Hact as [->| ->]; [apply dwp_raise|apply dwp_ret];
      (split_and!; [done|apply A|by rewrite Ht|exists bs, fl, m; rewrite Ht;
         split_and!; [done..|by left|right; split_and!; [done..|]]]).
    + right. eexists. split; [done|]. destruct sh; auto.
    + by left.
  - destruct Ht as [Ht Hg], A as [Hsup [-> _]].
    split_and!; [done|done|by rewrite Ht|exists bs, fl, m; rewrite Ht;
      split_and!; [done..|by left|right; split_and!; [done..|]]].
    right. eexists. split; [done|]. by left.
Qed.

Lemma expanded_represents {A} w w' bs fl m (r : result A) :
  expanded w w' bs fl r → represents (tab w) bs m →
  ∃ bs', layout (tab w') bs' fl ∧ represents (tab w') bs' m.
Proof.
  intros (_ & _ & _ & Ec & bs' & L' & Hp) R. exists bs'. split; [done|].
  eapply represents_ext; [|done|done]. intros a _. by rewrite <-!list_lookup_fmap, Ec.
Qed.

Lemma grants_after i n w1 (w : World K D) :
  (i ≤ 2)%nat → supply w1 = drop i (supply w) → (n ≤ 1)%nat → ¬ grants n (supply w1) →
  ¬ grants 3 (supply w).
Proof.
  intros Hi E Hn Hg Hg'. apply Hg. rewrite E. apply grants_drop. eapply grants_le, Hg'. lia.
Qed.

(** What an insertion does; the buckets are split only if no scan is open. *)
Definition entered w bs k m action w' (r : result (option nat * bool)) : Prop :=
  setup w' = setup w ∧ (∃ i, (i ≤ 3)%nat ∧ supply w' = drop i (supply w)) ∧
  max_bucket (hctl (tab w')) <= max_bucket (hctl (tab w)) + 1 ∧
  ∃ bs' fl' m', layout (tab w') bs' fl' ∧ represents (tab w') bs' m' ∧
    (has_seq_scans_in (self w) (seq_scans w) = true → appended bs bs') ∧
    search_step (frozen (tab w)) (supply w) k m action r m'.

Lemma enter_spec w bs fl m k action :
  layout (tab w) bs fl → represents (tab w) bs m → valid k →
  max_bucket (hctl (tab w)) + 1 < 2 ^ 32 → enters action →
  dwp (hash_search k action) w (entered w bs k m action).
Proof.
  intros L0 R0 Hv Hmax Hact. unfold hash_search, hash_search_with_hash_value.
  apply dwp_bind. replace (match action with HASH_ENTER | HASH_ENTER_NULL => maybe_expand
    | _ => mret () end) with (maybe_expand (K:=K) (D:=D)) by by destruct Hact as [->| ->].
  eapply dwp_mono, (maybe_expand_spec w bs fl L0 Hmax). intros w1 r1 Hx.
  assert (∃ bs1, layout (tab w1) bs1 fl ∧ represents (tab w1) bs1 m ∧
    (has_seq_scans_in (self w) (seq_scans w) = true → bs1 = bs)) as (bs1 & L & R & Hscan).
  { destruct Hx as [Hx Hs]. destruct (has_seq_scans_in (self w) (seq_scans w)).
    - exists bs. by rewrite Hs.
    - destruct (expanded_represents _ _ _ _ _ _ Hx R0) as (bs1 & L & R). by exists bs1. }
  destruct Hx as [(Es & Hal & Hm & _) _].
  assert (∀ r, search_step (frozen (tab w)) (supply w) k m action r m →
    entered w bs k m action w1 r) as Hsame.
  { intros r Hr. destruct Hal as [(i & Hi & Esup) _].
    split_and!; [done|exists i; split; [lia|done]|lia|].
    exists bs1, fl, m. split_and!; [done..| |done].
    intros Hs. left. auto. }
  destruct r1 as [[]|e].
  2: { apply Hsame. destruct Hal as [_ [-> Hg]]. apply step_no_memory; [done| |by left].
    intros Hg'. apply Hg. eapply grants_le, Hg'. lia. }
  destruct Hal as [(i & Hi & Esup) _].
  assert (frozen (tab w1) = frozen (tab w)) as Efz by (unfold setup in Es; congruence).
  destruct (search_chain (tab w1) bs1 fl m k L R Hv) as (seg & p & l & Hdir & Hp & Hb0 & Hl &
    [[Em Hres]|(l1 & a & l2 & e & -> & He & Em & Hres)]); dwp_lookup Hdir Hp Hres;
    (destruct action; [by destruct Hact| |by destruct Hact|]).
  3,4: by apply dwp_ret, Hsame, (step_enter_old _ _ _ _ _ a (data e)).
  all: destruct (frozen (tab w1)) eqn:Ef;
    [by apply dwp_raise, Hsame, step_frozen; [| |congruence]|].
  all: eapply dwp_mono;
    [|eapply (enter_new_spec w1 bs1 fl m k l _ (isshared (tab w1)) L R Hv Em Hl Hb0 Hact)];
    intros w2 r (Es2 & (j & Hj & Esup2) & Em2 & bs' & fl' & m' & L' & R' & Hap & Ho);
    (split_and!; [congruence|exists (i + j)%nat; split; [lia|by rewrite Esup2, Esup, drop_drop]
      |lia|exists bs', fl', m'; split_and!;
       [done..|by intros Hs; rewrite <-(Hscan Hs)|]]);
    destruct Ho as [(a & d & -> & -> & Hfr)|(Hg & -> & [[Ha ->]|(e & -> & He)])].
  all: try (apply step_enter_new; [done|done|congruence|done]).
  all: try (apply step_no_memory; [done|by eapply (grants_after i 1)|done]).
  all: try done.
  apply step_null; [done|congruence|by eapply (grants_after i 1)].
Qed.

(** One call against the map. *)
Definition searched w k m action w' (r : result (option nat * bool)) : Prop :=
  setup w' = setup w ∧ (∃ i, (i ≤ 3)%nat ∧ supply w' = drop i (supply w)) ∧
  max_bucket (hctl (tab w')) <= max_bucket (hctl (tab w)) + 1 ∧
  ∃ m', table_ok (tab w') m' ∧ search_step (frozen (tab w)) (supply w) k m action r m'.

Lemma hash_search_step w m k action :
  table_ok (tab w) m → valid k → max_bucket (hctl (tab w)) + 1 < 2 ^ 32 →
  dwp (hash_search k action) w (searched w k m action).
Proof.
  intros Hok Hv Hmax. pose proof Hok as (bs & fl & L & R).
  assert (enters action → dwp (hash_search k action) w (searched w k m action)) as Henter.
  { intros Hact. eapply dwp_mono, enter_spec; [|done..].
    intros w' r (Es & Esup & Em & bs' & fl' & m' & L' & R' & _ & Hs).
    split_and!; [done|done|done|]. exists m'. split; [by exists bs', fl'|done]. }
  destruct action; [|by apply Henter; left| |by apply Henter; right].
  - eapply dwp_mono, find_spec; [|done..]. intros w' r [-> ->].
    split_and!; [done|exists 0%nat; split; [lia|done]|lia|]. exists m. split; [done|constructor].
  - eapply dwp_mono, remove_spec; [|done..].
    intros w' r (Es & Esup & Em & (bs' & fl' & L' & R' & _) & ->).
    split_and!; [done|exists 0%nat; split; [lia|done]|lia|]. eexists. split; [by exists bs', fl'|constructor].
Qed.

(** The number of entries. *)
Lemma table_ok_addresses h bs fl m :
  layout h bs fl → represents h bs m → (snd <$> map_to_list m).*1 ≡ₚ concat bs.
Proof.
  intros L R. apply NoDup_Permutation.
  - rewrite <-list_fmap_compose. apply NoDup_fmap_2_strong; [|apply NoDup_map_to_list].
    intros [c [a d]] [c' [a' d']] Hx Hx' E. simpl in E. subst a'.
    apply elem_of_map_to_list in Hx, Hx'. apply R in Hx as [_ (e & He & <- & <-)].
    apply R in Hx' as [_ (e' & He' & <- & <-)]. by simplify_eq.
  - pose proof (layout_NoDup _ _ _ L) as Hn. by apply NoDup_app in Hn as [? _].
  - intros a. rewrite <-list_fmap_compose, list_elem_of_fmap. split.
    + intros ([c [a' d]] & -> & Hx). apply elem_of_map_to_list, R in Hx as [Ha _]. done.
    + intros Ha. assert (∃ e, elements h !! a = Some e) as [e He].
      { apply lookup_lt_is_Some_2. eapply layout_elem_lt; [done|]. set_solver. }
      exists (canon (key e), (a, data e)). split; [done|]. apply elem_of_map_to_list, R.
      split; [done|]. by exists e.
Qed.
Lemma table_ok_count h m : table_ok h m → nentries (hctl h) = Z.of_nat (size m).
Proof.
  intros (bs & fl & L & R). rewrite (lay_count _ _ _ L), <-(table_ok_addresses _ _ _ _ L R).
  by rewrite !length_fmap, length_map_to_list.
Qed.

End Search.
End DynahashSearch.
