(* ===== verification/DynahashCreate.v ===== *)
(** Creating a hash table: [hash_create] leaves an empty table in good order, and
    the sizes chosen beforehand for a shared table agree with it. *)

From Stdlib Require Import ZArith Lia.
From stdpp Require Import base gmap sets list option numbers strings.
From S2P Require Import Prelude Dynahash DynahashSpec DynahashTable DynahashExpand.
From S2P Require Import DynahashSearch.
Import Dynahash DynahashSpec DynahashTable DynahashExpand DynahashSearch.

Module DynahashCreate.

(** ** Powers of two *)

Lemma log2_loop_spec fuel i num :
  0 <= i → num <= 2 ^ (i + Z.of_nat fuel) → (i = 0 ∨ 2 ^ (i - 1) < num) →
  ∃ j, log2_loop fuel i (2 ^ i) num = j ∧ i <= j <= i + Z.of_nat fuel ∧
    num <= 2 ^ j ∧ (j = 0 ∨ 2 ^ (j - 1) < num).
Proof.
  revert i. induction fuel as [|fuel IH]; intros i Hi Hn Hl; simpl.
  - exists i. rewrite Z.add_0_r in Hn. split_and!; [done|lia|lia|done|done].
  - destruct (Z.ltb_spec (2 ^ i) num) as [Hlt|Hge].
    + rewrite Z.shiftl_mul_pow2, <-Z.pow_add_r by lia.
      destruct (IH (i + 1)) as (j & Ej & Hj & Hj'); [lia| |right; by replace (i + 1 - 1) with i by lia|].
      { by replace (i + 1 + Z.of_nat fuel) with (i + Z.of_nat (S fuel)) by lia. }
      exists j. split_and!; [done|lia|lia|apply Hj'..].
    + exists i. split_and!; [done|lia|lia|done|done].
Qed.

Lemma my_log2_spec num :
  num <= 2 ^ 62 - 1 →
  let i := my_log2 num in 0 <= i <= 62 ∧ num <= 2 ^ i ∧ (i = 0 ∨ 2 ^ (i - 1) < num).
Proof.
  intros Hn. unfold my_log2. change (LONG_MAX / 2) with (2 ^ 62 - 1).
  destruct (Z.gtb_spec num (2 ^ 62 - 1)); [lia|].
  destruct (log2_loop_spec 63 0 num) as (j & Ej & Hj & Hj1 & Hj2);
    [lia|change (0 + Z.of_nat 63) with 63; lia|by left|].
  change (2 ^ 0) with 1 in Ej. rewrite Ej. split_and!; [lia| |done|done].
  destruct (decide (j <= 62)); [done|]. assert (j = 63) as -> by lia.
  destruct Hj2 as [Hj2|Hj2]; [done|]. change (2 ^ (63 - 1)) with (2 ^ 62) in Hj2. lia.
Qed.

Lemma pow2_log2_unique i s :
  0 <= i → 0 <= s → 2 ^ s <= 2 ^ i → (i = 0 ∨ 2 ^ (i - 1) < 2 ^ s) → i = s.
Proof.
  intros Hi Hs Hle Hlt. apply Z.pow_le_mono_r_iff in Hle; [|lia..].
  destruct Hlt as [->|Hlt]; [lia|]. apply Z.pow_lt_mono_r_iff in Hlt; lia.
Qed.

Lemma next_pow2_int_spec num :
  ∃ j, next_pow2_int num = 2 ^ j ∧ 0 <= j <= 30 ∧ (num <= 2 ^ 30 → num <= 2 ^ j).
Proof.
  unfold next_pow2_int. change (INT_MAX / 2) with (2 ^ 30 - 1).
  set (n := if num >? 2 ^ 30 - 1 then 2 ^ 30 - 1 else num).
  assert (n <= 2 ^ 30 - 1) as Hn.
  { unfold n. destruct (Z.gtb_spec num (2 ^ 30 - 1)); lia. }
  destruct (my_log2_spec n) as (Hi & Hge & Hlt); [lia|].
  exists (my_log2 n). rewrite Z.shiftl_mul_pow2 by lia. split; [lia|].
  assert (my_log2 n <= 30).
  { destruct Hlt as [->|Hlt]; [lia|]. assert (2 ^ (my_log2 n - 1) < 2 ^ 30) by lia.
    apply Z.pow_lt_mono_r_iff in H; lia. }
  split; [lia|]. intros Hnum. unfold n in *.
  destruct (Z.gtb_spec num (2 ^ 30 - 1)); [|done].
  assert (num = 2 ^ 30) as -> by lia.
  apply Z.pow_le_mono_r; [lia|]. destruct Hlt as [E|Hlt].
  - rewrite E in Hge. simpl in Hge. lia.
  - destruct (decide (30 <= my_log2 (2 ^ 30 - 1))); [done|].
    assert (2 ^ my_log2 (2 ^ 30 - 1) <= 2 ^ 29) by (apply Z.pow_le_mono_r; lia). lia.
Qed.

Lemma double_up_spec (wrap : Z → Z) fuel j lim bound :
  0 <= j → bound <= 2 ^ lim → j <= lim → lim <= j + Z.of_nat fuel →
  (∀ i, 0 <= i <= lim → wrap (2 ^ i) = 2 ^ i) →
  ∃ j', double_up wrap fuel (2 ^ j) bound = 2 ^ j' ∧ j <= j' <= lim ∧ bound <= 2 ^ j' ∧
    (2 ^ j' < 2 * bound ∨ j' = j).
Proof.
  intros Hj Hb Hlim Hf Hw. revert j Hj Hlim Hf. induction fuel as [|fuel IH]; intros j Hj Hlim Hf.
  - assert (lim = j) as -> by lia. exists j. split_and!; [done|lia|lia|done|by right].
  - simpl. destruct (Z.ltb_spec (2 ^ j) bound) as [Hlt|Hge].
    + rewrite Z.shiftl_mul_pow2, <-Z.pow_add_r by lia.
      assert (j < lim).
      { destruct (decide (j < lim)); [done|]. assert (j = lim) as -> by lia. lia. }
      rewrite Hw by lia. destruct (IH (j + 1)) as (j' & E & Hj' & Hb' & Ho); [lia..|].
      exists j'. split_and!; [done|lia|lia|done|]. left. destruct Ho as [Ho|Ho]; [done|].
      rewrite Ho, Z.pow_add_r by lia. lia.
    + exists j. split_and!; [done|lia|lia|done|by right].
Qed.

Lemma my_log2_mono x y : x <= y → y <= 2 ^ 62 - 1 → my_log2 x <= my_log2 y.
Proof.
  intros Hxy Hy. destruct (my_log2_spec x) as (Hx & _ & Hlt); [lia|].
  destruct (my_log2_spec y) as (Hy' & Hge & _); [lia|]. destruct Hlt as [E|Hlt].
  - lia.
  - assert (2 ^ (my_log2 x - 1) < 2 ^ my_log2 y) as Hp by lia.
    destruct (decide (my_log2 x = 0)); [lia|].
    apply Z.pow_lt_mono_r_iff in Hp; lia.
Qed.
Lemma next_pow2_int_le_long x y :
  x <= y → y <= 2 ^ 62 - 1 → next_pow2_int x <= next_pow2_long y.
Proof.
  intros Hxy Hy. unfold next_pow2_int, next_pow2_long. rewrite !Z.shiftl_1_l.
  change (INT_MAX / 2) with (2 ^ 30 - 1). apply Z.pow_le_mono_r; [lia|].
  apply my_log2_mono; [|done]. destruct (Z.gtb_spec x (2 ^ 30 - 1)); lia.
Qed.

(** ** [choose_nelem_alloc] *)

Lemma nelem_loop_spec fuel a es :
  0 < es → 0 < a < 32 * es → 32 * es <= a * 2 ^ (Z.of_nat fuel + 1) → 64 * es < 2 ^ 64 →
  32 <= nelem_loop fuel a es < 64.
Proof.
  revert a. induction fuel as [|fuel IH]; intros a Hes Ha Hf Hlim;
    cbn [nelem_loop]; rewrite Z.shiftl_mul_pow2 by lia; change (2 ^ 1) with 2;
    unfold u64; rewrite Z.mod_small by lia.
  - change (2 ^ (Z.of_nat 0 + 1)) with 2 in Hf.
    assert (32 <= a * 2 / es) by (apply Z.div_le_lower_bound; lia).
    assert (a * 2 / es < 64) by (apply Z.div_lt_upper_bound; lia).
    rewrite s32_id by (unfold is_s32; lia). lia.
  - assert (0 <= a * 2 / es) by (apply Z.div_pos; lia).
    assert (a * 2 / es < 64) by (apply Z.div_lt_upper_bound; lia).
    rewrite s32_id by (unfold is_s32; lia).
    destruct (Z.ltb_spec (a * 2 / es) 32) as [Hlt|Hge]; [|lia].
    apply IH; [done| | |done].
    + split; [lia|]. pose proof (Z.mul_succ_div_gt (a * 2) es Hes). nia.
    + replace (Z.of_nat (S fuel) + 1) with (1 + (Z.of_nat fuel + 1)) in Hf by lia.
      rewrite Z.pow_add_r in Hf by lia. change (2 ^ 1) with 2 in Hf. lia.
Qed.

Lemma MAXALIGN_spec n : 0 <= n < 2 ^ 60 → n <= MAXALIGN n < n + 8.
Proof.
  intros Hn. unfold MAXALIGN, u64. rewrite Z.mod_small by lia.
  change (2 ^ 64 - 8) with (Z.shiftl (Z.ones 61) 3).
  assert (Z.land (n + 7) (Z.shiftl (Z.ones 61) 3) = 8 * ((n + 7) / 8)) as ->.
  { assert (Z.land (n + 7) (Z.shiftl (Z.ones 61) 3) =
      Z.shiftl (Z.land (Z.shiftr (n + 7) 3) (Z.ones 61)) 3) as ->.
    { apply Z.bits_inj'. intros i Hi. rewrite Z.land_spec, !Z.shiftl_spec by lia.
      destruct (decide (i < 3)).
      - rewrite !(Z.testbit_neg_r _ (i - 3)) by lia. by rewrite andb_false_r.
      - rewrite Z.land_spec, Z.shiftr_spec by lia. by replace (i - 3 + 3) with i by lia. }
    rewrite Z.land_ones, Z.shiftr_div_pow2, Z.shiftl_mul_pow2 by lia.
    change (2 ^ 3) with 8. rewrite Z.mod_small; [lia|].
    split; [apply Z.div_pos; lia|]. apply Z.div_lt_upper_bound; lia. }
  pose proof (Z.mul_div_le (n + 7) 8). pose proof (Z.mul_succ_div_gt (n + 7) 8). lia.
Qed.

Lemma choose_nelem_alloc_spec es : 0 <= es < 2 ^ 50 → 32 <= choose_nelem_alloc es < 64.
Proof.
  intros Hes. unfold choose_nelem_alloc. pose proof (MAXALIGN_spec es ltac:(lia)).
  change (MAXALIGN sizeof_HASHELEMENT) with 16. unfold u64. rewrite Z.mod_small by lia.
  apply nelem_loop_spec; [lia..| |lia]. change (Z.of_nat 64 + 1) with 65. lia.
Qed.

(** ** Parameters *)

Section Create.
Context {K C D : Type} `{KeyLaws K C} `{Countable C} `{Inhabited K} `{Inhabited D}.
Implicit Types (h : HTAB K D) (w : World K D) (info : HASHCTL K D).

(** What the caller of [hash_create] provides. *)
Definition params_ok (nelem : Z) info (flags : Z) : Prop :=
  let c := header_of info flags in
  1 <= nelem < 2 ^ 31 ∧ 0 < ffactor c ∧ 0 < dsize c ∧ 0 <= num_partitions c <= 2 ^ 30 ∧
  0 <= entrysize c < 2 ^ 50 ∧ (∃ s, 0 <= s <= 30 ∧ hdr_ssize c = 2 ^ s) ∧
  (flag flags HASH_SHARED_MEM = true →
     flag flags HASH_ATTACH = false ∧
     Z.of_nat (length (ctl_hctl info).1.2) = dsize c) ∧
  (flag flags HASH_ALLOC = true → max_dsize c ≠ NO_MAX_DSIZE).

Lemma header_shift info flags s :
  hdr_ssize (header_of info flags) = 2 ^ s → 0 <= s <= 30 →
  hdr_sshift (header_of info flags) = s.
Proof.
  simpl. destruct (flag flags HASH_SEGMENT); intros E Hs.
  - assert (2 ^ s <= 2 ^ 30) by (apply Z.pow_le_mono_r; lia).
    destruct (my_log2_spec (ctl_ssize info)) as (Hi & Hge & Hlt); [lia|].
    rewrite E in *. apply pow2_log2_unique; lia || done.
  - change (DEF_SEGSIZE) with (2 ^ 8) in E. apply Z.pow_inj_r in E; [done|lia..].
Qed.

Lemma init_nbuckets_spec c nelem :
  0 <= num_partitions c <= 2 ^ 30 →
  ∃ j, init_nbuckets c nelem = 2 ^ j ∧ 0 <= j <= 30 ∧ num_partitions c <= 2 ^ j.
Proof.
  intros Hp. unfold init_nbuckets.
  destruct (next_pow2_int_spec ((nelem - 1) `quot` ffactor c + 1)) as (j & -> & Hj & _).
  destruct (double_up_spec s32 31 j 30 (num_partitions c)) as (j' & -> & Hj' & Hb & _);
    [lia..| |exists j'; split_and!; lia].
  intros i Hi. apply s32_id. unfold is_s32.
  assert (2 ^ i <= 2 ^ 30) by (apply Z.pow_le_mono_r; lia). lia.
Qed.

Lemma init_nsegs_spec c j s :
  0 <= j <= 30 → 0 <= s → hdr_ssize c = 2 ^ s →
  let n := init_nsegs c (2 ^ j) in 0 < n ∧ 2 ^ j - 1 < n * 2 ^ s.
Proof.
  intros Hj Hs E n. unfold n, init_nsegs. rewrite E.
  assert (2 ^ j <= 2 ^ 30) by (apply Z.pow_le_mono_r; lia).
  rewrite Z.quot_div_nonneg by lia.
  assert (0 <= (2 ^ j - 1) / 2 ^ s <= 2 ^ j - 1).
  { split; [apply Z.div_pos; lia|]. apply Z.div_le_upper_bound; nia. }
  rewrite s32_id by (unfold is_s32; lia).
  destruct (next_pow2_int_spec ((2 ^ j - 1) / 2 ^ s + 1)) as (i & -> & Hi & Hge).
  split; [lia|]. specialize (Hge ltac:(lia)).
  pose proof (Z.mul_succ_div_gt (2 ^ j - 1) (2 ^ s) ltac:(lia)). nia.
Qed.

(** ** The directory of a shared table *)

Lemma nSegments_eq num :
  nSegments num = next_pow2_long ((next_pow2_long num - 1) `quot` DEF_SEGSIZE + 1).
Proof.
  unfold nSegments, DEF_FFACTOR. rewrite Z.quot_1_r. by replace (num - 1 + 1) with num by lia.
Qed.
Lemma segs_bound num :
  num <= 2 ^ 30 → (next_pow2_long num - 1) `quot` DEF_SEGSIZE + 1 <= 2 ^ 62 - 1.
Proof.
  intros Hn. destruct (my_log2_spec num) as (Hl & _ & _); [lia|].
  assert (next_pow2_long num <= 2 ^ 62).
  { unfold next_pow2_long. rewrite Z.shiftl_1_l. apply Z.pow_le_mono_r; lia. }
  assert ((next_pow2_long num - 1) `quot` DEF_SEGSIZE <= (2 ^ 62 - 1) `quot` DEF_SEGSIZE).
  { apply Z.quot_le_mono; [done|lia]. }
  change ((2 ^ 62 - 1) `quot` DEF_SEGSIZE) with (2 ^ 54 - 1) in *. lia.
Qed.

Lemma select_dirsize_spec num :
  num <= 2 ^ 30 →
  DEF_DIRSIZE <= hash_select_dirsize num ∧ nSegments num <= hash_select_dirsize num.
Proof.
  intros Hn. unfold hash_select_dirsize, nDirEntries.
  assert (∃ i, nSegments num = 2 ^ i ∧ 0 <= i <= 62) as (i & Ei & Hi).
  { rewrite nSegments_eq. unfold next_pow2_long at 1. rewrite Z.shiftl_1_l. eexists.
    split; [done|]. by apply my_log2_spec, segs_bound. }
  change DEF_DIRSIZE with (2 ^ 8).
  destruct (double_up_spec s64 64 8 62 (nSegments num)) as (j & -> & Hj & Hge & _);
    [lia|rewrite Ei; apply Z.pow_le_mono_r; lia|lia|lia| |].
  - intros e He. unfold s64. assert (2 ^ e <= 2 ^ 62) by (apply Z.pow_le_mono_r; lia).
    rewrite Z.mod_small; lia.
  - split; [apply Z.pow_le_mono_r; lia|done].
Qed.

(** The directory that [hash_select_dirsize] chooses has room for the segments that
    [init_htab] allocates. *)
Lemma select_dirsize_enough c nelem num :
  ffactor c = DEF_FFACTOR → hdr_ssize c = DEF_SEGSIZE → 0 <= num_partitions c <= 2 ^ 16 →
  nelem <= num → num <= 2 ^ 30 →
  init_nsegs c (init_nbuckets c nelem) <= hash_select_dirsize num.
Proof.
  intros Eff Ess Hp Hn Hnum. destruct (select_dirsize_spec num Hnum) as [Hdir Hsegs].
  unfold init_nsegs, init_nbuckets. rewrite Eff, Ess.
  replace ((nelem - 1) `quot` DEF_FFACTOR + 1) with nelem
    by (change DEF_FFACTOR with 1; rewrite Z.quot_1_r; lia).
  destruct (next_pow2_int_spec nelem) as (j & Ej & Hj & _). rewrite Ej.
  destruct (double_up_spec s32 31 j 30 (num_partitions c)) as (j' & -> & Hj' & _ & Ho);
    [lia|lia|lia|lia| |].
  { intros i Hi. apply s32_id. unfold is_s32.
    assert (2 ^ i <= 2 ^ 30) by (apply Z.pow_le_mono_r; lia). lia. }
  assert (2 ^ j' <= 2 ^ 30) by (apply Z.pow_le_mono_r; lia).
  assert (∀ n, 0 < n <= 2 ^ 30 → 0 <= (n - 1) `quot` DEF_SEGSIZE <= 2 ^ 22) as Hq.
  { intros n Hn'. rewrite Z.quot_div_nonneg by (done || lia). change DEF_SEGSIZE with 256.
    split; [apply Z.div_pos; lia|]. apply Z.div_le_upper_bound; lia. }
  specialize (Hq (2 ^ j')). rewrite s32_id by (unfold is_s32; lia).
  destruct (decide (2 ^ j' <= 2 ^ 16)) as [Hle|Hgt].
  - etrans; [|exact Hdir]. assert ((2 ^ j' - 1) `quot` DEF_SEGSIZE + 1 <= 256) as H256.
    { rewrite Z.quot_div_nonneg by (done || lia). change DEF_SEGSIZE with 256.
      assert ((2 ^ j' - 1) / 256 < 256) by (apply Z.div_lt_upper_bound; lia). lia. }
    etrans; [apply (next_pow2_int_le_long _ 256); [done|lia]|done].
  - destruct Ho as [Ho|Ho]; [exfalso; assert (2 ^ j' < 2 ^ 17) as H17 by lia;
      apply Z.pow_lt_mono_r_iff in H17; [|lia..];
      assert (2 ^ j' <= 2 ^ 16) by (apply Z.pow_le_mono_r; lia); lia|].
    etrans; [|exact Hsegs]. rewrite nSegments_eq. apply next_pow2_int_le_long.
    + apply Z.add_le_mono_r. apply Z.quot_le_mono; [done|]. rewrite Ho, <-Ej.
      pose proof (next_pow2_int_le_long nelem num Hn ltac:(lia)). lia.
    + by apply segs_bound.
Qed.

(** ** The space of a shared table *)

Lemma add_size_ok a b : 0 <= a → 0 <= b → a + b < 2 ^ 64 → add_size a b = Ok (a + b).
Proof.
  intros Ha Hb Hs. unfold add_size, u64. rewrite Z.mod_small by lia.
  destruct (Z.ltb_spec (a + b) a), (Z.ltb_spec (a + b) b); simpl; done || lia.
Qed.
Lemma mul_size_ok a b : 0 <= a → 0 <= b → a * b < 2 ^ 64 → mul_size a b = Ok (a * b).
Proof.
  intros Ha Hb Hs. unfold mul_size, u64.
  destruct (Z.eqb_spec a 0) as [->|Ha0]; [done|].
  destruct (Z.eqb_spec b 0) as [->|Hb0]; [by rewrite Z.mul_0_r|]. simpl.
  rewrite Z.mod_small by nia. by rewrite Z.div_mul, Z.eqb_refl by done.
Qed.

Lemma bind_ok {A B} (a : A) (f : A → result B) : (Ok a ≫= f) = f a.
Proof. done. Qed.

(** [next_pow2_long] on the sizes that occur. *)
Lemma next_pow2_long_spec x lim :
  1 <= x <= 2 ^ lim → 0 <= lim <= 61 → x <= next_pow2_long x <= 2 ^ lim.
Proof.
  intros Hx Hlim. assert (2 ^ lim <= 2 ^ 61) by (apply Z.pow_le_mono_r; lia).
  destruct (my_log2_spec x) as (Hl & Hge & Hlt); [lia|].
  unfold next_pow2_long. rewrite Z.shiftl_1_l. split; [done|].
  apply Z.pow_le_mono_r; [lia|]. destruct Hlt as [Hlt|Hlt]; [lia|].
  assert (2 ^ (my_log2 x - 1) < 2 ^ lim) as Hp by lia.
  destruct (decide (my_log2 x = 0)); [lia|]. apply Z.pow_lt_mono_r_iff in Hp; lia.
Qed.

Lemma estimate_parts num :
  1 <= num <= 2 ^ 30 → 0 <= nSegments num <= 2 ^ 22 ∧ 0 <= nDirEntries num <= 2 ^ 22.
Proof.
  intros Hn. pose proof (next_pow2_long_spec num 30 Hn ltac:(lia)) as Hb.
  assert (1 <= nSegments num <= 2 ^ 22) as Hs.
  { assert (0 <= (next_pow2_long num - 1) `quot` DEF_SEGSIZE < 2 ^ 22) as Hq.
    { rewrite Z.quot_div_nonneg by (done || lia). change DEF_SEGSIZE with 256.
      split; [apply Z.div_pos; lia|]. apply Z.div_lt_upper_bound; lia. }
    pose proof (next_pow2_long_spec ((next_pow2_long num - 1) `quot` DEF_SEGSIZE + 1) 22
      ltac:(lia) ltac:(lia)) as Hp. rewrite nSegments_eq. lia. }
  split; [lia|]. unfold nDirEntries. change DEF_DIRSIZE with (2 ^ 8).
  destruct (double_up_spec s64 64 8 22 (nSegments num)) as (j & -> & Hj & _); [lia..| |].
  - intros e He. unfold s64. assert (2 ^ e <= 2 ^ 22) by (apply Z.pow_le_mono_r; lia).
    rewrite Z.mod_small; lia.
  - split; [lia|]. apply Z.pow_le_mono_r; lia.
Qed.

(** The estimate does not overflow and covers the header, the directory, the segments
    of all buckets and the preallocated elements. *)
Theorem hash_estimate_covers num es :
  1 <= num <= 2 ^ 30 → 0 <= es <= 2 ^ 20 →
  ∃ size, hash_estimate_size num es = Ok size ∧
    sizeof_HASHHDR + nDirEntries num * sizeof_pointer +
    nSegments num * (DEF_SEGSIZE * sizeof_pointer) +
    num * (sizeof_HASHELEMENT + es) <= size.
Proof.
  intros Hn Hes. destruct (estimate_parts num Hn) as [Hs Hd].
  pose proof (choose_nelem_alloc_spec es ltac:(lia)) as Hc.
  pose proof (MAXALIGN_spec es ltac:(lia)) as Ha. unfold hash_estimate_size.
  assert (MAXALIGN sizeof_HASHHDR = 112) as -> by done.
  assert (MAXALIGN (DEF_SEGSIZE * sizeof_pointer) = 2048) as -> by done.
  assert (MAXALIGN sizeof_HASHELEMENT = 16) as -> by done.
  unfold sizeof_pointer, sizeof_HASHHDR, sizeof_HASHELEMENT, DEF_SEGSIZE.
  set (cnt := choose_nelem_alloc es) in *. set (sz := MAXALIGN es) in *.
  unfold u64. rewrite (Z.mod_small (16 + sz)) by lia.
  rewrite Z.quot_div_nonneg by lia. set (q := (num - 1) / cnt).
  assert (0 <= q <= num - 1) as Hq.
  { split; [apply Z.div_pos; lia|]. apply Z.div_le_upper_bound; nia. }
  assert (num <= (q + 1) * cnt) as Hqc.
  { pose proof (Z.mul_succ_div_gt (num - 1) cnt ltac:(lia)). fold q in H. lia. }
  assert (0 <= cnt * (16 + sz) <= 2 ^ 28) as Hcs by nia.
  assert (0 <= (q + 1) * (cnt * (16 + sz)) <= 2 ^ 58) as Hqs by nia.
  set (nd := nDirEntries num) in *. set (segs := nSegments num) in *.
  clearbody nd segs cnt sz q.
  rewrite (mul_size_ok _ 8), bind_ok by lia. rewrite add_size_ok, bind_ok by lia.
  rewrite (mul_size_ok segs), bind_ok by lia. rewrite add_size_ok, bind_ok by lia.
  rewrite (mul_size_ok cnt), bind_ok by lia. rewrite mul_size_ok, bind_ok by lia.
  rewrite add_size_ok by lia. eexists. split; [done|].
  assert (num * (16 + es) <= num * (16 + sz)) by (apply Z.mul_le_mono_nonneg_l; lia).
  assert (num * (16 + sz) <= (q + 1) * (cnt * (16 + sz))) as Hfin.
  { rewrite Z.mul_assoc. apply Z.mul_le_mono_nonneg_r; lia. }
  set (total := (q + 1) * (cnt * (16 + sz))) in *. clearbody total. clear Hcs Hqc Hqs.
  lia.
Qed.

(** Partition numbers are the low bits of a hash value; the bucket keeps them. *)
Lemma calc_bucket_partition c p hv :
  masks c → 0 <= p → 2 ^ p <= max_bucket c + 1 → calc_bucket c hv mod 2 ^ p = hv mod 2 ^ p.
Proof.
  intros [k Hm] Hp Hle. rewrite (calc_bucket_mod _ _ _ Hm).
  assert (∀ q, p <= q → (hv mod 2 ^ q) mod 2 ^ p = hv mod 2 ^ p) as Hmm.
  { intros q Hq. symmetry. apply Znumtheory.Zmod_div_mod; [lia|lia|].
    exists (2 ^ (q - p)). rewrite <-Z.pow_add_r by lia. f_equal. lia. }
  destruct (masks_pow _ _ Hm) as [Hk <-]. destruct Hm as (Hk0 & El & Eh & Hb).
  pose proof (Z.mod_pos_bound hv (2 ^ (k + 1)) ltac:(lia)).
  destruct (Z.gtb_spec (hv mod 2 ^ (k + 1)) (max_bucket c)) as [Hgt|_]; apply Hmm.
  - assert (2 ^ p < 2 ^ (k + 1)) as Hlt by lia. apply Z.pow_lt_mono_r_iff in Hlt; lia.
  - assert (2 ^ p <= 2 ^ (k + 1)) as Hle' by lia. apply Z.pow_le_mono_r_iff in Hle'; lia.
Qed.

(** ** The initial segments *)

(** The first [n] segments are there, and empty. *)
Definition ready h (n : Z) : Prop :=
  nsegs (hctl h) = n ∧ Z.of_nat (length (dir h)) = dsize (hctl h) ∧
  ∀ i, Z.of_nat i < n → segment h i = Some (replicate (Z.to_nat (ssize h)) None).

(** All but the directory and its sizes. *)
Definition other_parts w :=
  (self w, nest_level w, seq_scans w,
   (elements (tab w), is_palloc (tab w), isshared (tab w), frozen (tab w)),
   (ssize (tab w), sshift (tab w)), set_dir_sizes (hctl (tab w)) 0 0).

Lemma ready_add h :
  ready h (nsegs (hctl h)) → 0 <= nsegs (hctl h) < dsize (hctl h) →
  ready (with_hctl
    (with_dir h (<[Z.to_nat (nsegs (hctl h)) := Some (replicate (Z.to_nat (ssize h)) None)]> (dir h)))
    (set_dir_sizes (hctl h) (dsize (hctl h)) (nsegs (hctl h) + 1))) (nsegs (hctl h) + 1).
Proof.
  intros (_ & Hd & Hs) Hn. split_and!; [done|simpl; by rewrite length_insert|].
  intros i Hi. unfold segment. simpl.
  destruct (decide (i = Z.to_nat (nsegs (hctl h)))) as [->|Hne].
  - by rewrite list_lookup_insert_eq by lia.
  - rewrite list_lookup_insert_ne by done. apply Hs. lia.
Qed.

Lemma init_segs_spec fuel w n :
  let k := nsegs (hctl (tab w)) in
  ready (tab w) k → 0 <= k <= n → n <= dsize (hctl (tab w)) →
  (Z.to_nat (n - k) < fuel)%nat →
  dwp (init_segs fuel (Z.to_nat k) n) w (λ w' r, other_parts w' = other_parts w ∧
    dsize (hctl (tab w')) = dsize (hctl (tab w)) ∧
    match r with
    | Ok true => ready (tab w') n ∧ supply w' = drop (Z.to_nat (n - k)) (supply w)
    | _ => ¬ grants (Z.to_nat (n - k)) (supply w)
    end).
Proof.
  revert w. induction fuel as [|fuel IH]; intros w k Hr Hk Hn Hf; [lia|].
  simpl init_segs. apply dwp_bind, dwp_gets. fold k.
  destruct (Z.ltb_spec k n) as [Hlt|Hge].
  2: { apply dwp_ret. assert (k = n) as -> by lia. by rewrite Z.sub_diag. }
  assert (¬ grants 1 (supply w) → ¬ grants (Z.to_nat (n - k)) (supply w)) as Hg1.
  { intros Hg Hg'. eapply Hg, grants_le, Hg'. lia. }
  apply dwp_bind. unfold seg_alloc. apply dwp_bind, dwp_alloc.
  - apply dwp_bind, dwp_gets, dwp_ret, dwp_bind, dwp_update, dwp_bind, dwp_update.
    match goal with |- dwp _ ?w1 _ => set (w' := w1) end.
    assert (nsegs (hctl (tab w')) = k + 1) as Ek by done.
    replace (S (Z.to_nat k)) with (Z.to_nat (nsegs (hctl (tab w')))) by lia.
    eapply dwp_mono, (IH w').
    + intros w2 r (Eo & Ed & Hres). split_and!; [by rewrite Eo|by rewrite Ed|].
      rewrite Ek in Hres. replace (Z.to_nat (n - k)) with (1 + Z.to_nat (n - (k + 1)))%nat by lia.
      destruct r as [[]|]; [|by intros Hg; apply Hres, grants_drop..].
      destruct Hres as [Hr2 Hs]. split; [done|]. rewrite Hs.
      change (supply w') with (drop 1 (supply w)). by rewrite drop_drop.
    + rewrite Ek. apply (ready_add (tab w)); [done|fold k; lia].
    + lia.
    + done.
    + lia.
  - intros Hg. destruct (is_palloc (tab w)); [split_and!; [done..|by apply Hg1]|].
    apply dwp_bind, dwp_gets, dwp_ret, dwp_bind, dwp_update, dwp_ret. split_and!; [done..|by apply Hg1].
Qed.

(** ** An empty table *)

Lemma concat_nils {A} n : concat (replicate n ([] : list A)) = [].
Proof. by induction n. Qed.

Lemma empty_layout h j s :
  ready h (nsegs (hctl h)) → elements h = [] → ssize h = 2 ^ s → sshift h = s → 0 <= s →
  masks_at (hctl h) j → max_bucket (hctl h) = 2 ^ j - 1 →
  0 < nsegs (hctl h) <= dsize (hctl h) → max_bucket (hctl h) < nsegs (hctl h) * ssize h →
  0 < nelem_alloc (hctl h) → may_realloc h → nentries (hctl h) = 0 → freeList (hctl h) = None →
  layout h (replicate (Z.to_nat (2 ^ j)) []) [].
Proof.
  intros (_ & Hd & Hs) Ee Ess Esh Hs0 Hm Hmax Hn Hroom Hna Hre Hent Hfl.
  assert (0 < 2 ^ j) as Hj by apply (masks_pow _ _ Hm).
  assert (geometry h) as G.
  { split; [by exists j|lia|congruence|done|done|done| |done|done].
    intros i Hi. eexists. split; [by apply Hs|]. rewrite length_replicate, Ess. lia. }
  split; rewrite ?concat_nils, ?Ee; try done.
  - rewrite length_replicate. lia.
  - intros b l [-> Hb]%lookup_replicate. split; [done|].
    destruct (bucket_slot_load h (Z.of_nat b) G) as [p Hp]; [lia|].
    change (load h (bucket_slot h (Z.of_nat b)) = Some None). rewrite Hp. unfold bucket_slot in Hp. simpl in Hp.
    rewrite Hs in Hp; [by apply lookup_replicate in Hp as [-> _]|].
    pose proof (ssize_pos _ G). rewrite Z.shiftr_div_pow2, Esh, <-Ess by lia.
    rewrite Z2Nat.id by (apply Z.div_pos; lia). apply Z.div_lt_upper_bound; lia.
  - intros b l a [-> _]%lookup_replicate Ha. by apply not_elem_of_nil in Ha.
Qed.

Lemma represents_empty h bs : concat bs = [] → represents h bs ∅.
Proof. intros E c a d. rewrite E, lookup_empty. split; [done|]. by intros [Ha%not_elem_of_nil _]. Qed.

(** ** [init_htab] *)

(** A table that is being set up: no entries yet, the masks for [2 ^ j] buckets. *)
Definition setting_up h (j s : Z) : Prop :=
  elements h = [] ∧ ssize h = 2 ^ s ∧ sshift h = s ∧ masks_at (hctl h) j ∧
  max_bucket (hctl h) = 2 ^ j - 1 ∧ nentries (hctl h) = 0 ∧ freeList (hctl h) = None ∧
  0 <= entrysize (hctl h) < 2 ^ 50 ∧ may_realloc h.

Lemma init_rest w j s n :
  0 <= s → setting_up (tab w) j s → ready (tab w) 0 → 0 < n <= dsize (hctl (tab w)) →
  2 ^ j - 1 < n * 2 ^ s →
  dwp (ok ← init_segs (S (Z.to_nat n)) 0 n;
      if negb ok then mret false else
      update (λ h, with_hctl h
        (set_nelem_alloc (hctl h) (choose_nelem_alloc (entrysize (hctl h)))));;
      mret true) w
    (λ w' r, setup w' = setup w ∧ match r with
      | Ok true => layout (tab w') (replicate (Z.to_nat (2 ^ j)) []) [] ∧
          max_bucket (hctl (tab w')) = 2 ^ j - 1 ∧
          supply w' = drop (Z.to_nat n) (supply w)
      | _ => ¬ grants (Z.to_nat n) (supply w)
      end).
Proof.
  intros Hs0 (Ee & Ess & Esh & Hm & Hmax & Hent & Hfl & Hes & Hre) Hr Hn Hroom.
  pose proof Hr as (E0 & _ & _). apply dwp_bind.
  pose proof (init_segs_spec (S (Z.to_nat n)) w n) as HS. cbv zeta in HS. rewrite E0 in HS.
  change (Z.to_nat 0) with 0%nat in HS. eapply dwp_mono, HS; [|done|lia|lia|lia].
  intros w1 r (Eo & Ed & Hres). rewrite Z.sub_0_r in Hres.
  unfold other_parts in Eo.
  injection Eo as E1 E2 E3 E4 E5 E6 E7 E8 E9 C1 C2 C3 C4 C5 C6 C7 C8 C9 C10 C11 C12 C13.
  assert (setup w1 = setup w) as Esetup by (unfold setup; congruence).
  destruct r as [[]|]; [|by apply dwp_ret|done]. simpl negb. cbv iota.
  apply dwp_bind, dwp_update, dwp_ret. destruct Hres as [Hr1 Hsup].
  cbn [tab with_tab]. split; [by rewrite <-Esetup|]. split_and!; [|simpl; congruence|done].
  pose proof Hr1 as (En1 & _). apply (empty_layout _ j s); simpl; rewrite ?En1; try congruence.
  - exact Hr1.
  - unfold masks_at in *. simpl. by rewrite C3, C4, C5.
  - rewrite C7. pose proof (choose_nelem_alloc_spec _ Hes). lia.
  - unfold may_realloc in *. simpl. by rewrite E5, C10.
Qed.

Lemma init_masks j :
  0 <= j <= 30 → u32 (2 ^ j - 1) = 2 ^ j - 1 ∧
  u32 (s32 (s32 (Z.shiftl (2 ^ j) 1) - 1)) = 2 ^ (j + 1) - 1.
Proof.
  intros Hj. rewrite Z.shiftl_mul_pow2, <-Z.pow_add_r by lia.
  assert (2 ^ j <= 2 ^ 30) by (apply Z.pow_le_mono_r; lia).
  assert (2 ^ (j + 1) = 2 * 2 ^ j) as E by (rewrite Z.pow_add_r by lia; lia).
  split; [apply u32_id; unfold is_u32; lia|]. rewrite u32_s32. unfold u32, s32.
  destruct (decide (j = 30)) as [->|Hne]; [done|].
  assert (2 ^ j <= 2 ^ 29) by (apply Z.pow_le_mono_r; lia).
  rewrite (Z.mod_small (2 ^ (j + 1) + 2 ^ 31)) by lia. rewrite Z.mod_small; lia.
Qed.

(** Allocating the directory of a table that is not shared, and the rest. *)
Lemma init_dir w j s n :
  0 <= s → setting_up (tab w) j s → nsegs (hctl (tab w)) = 0 →
  0 < n <= dsize (hctl (tab w)) → 2 ^ j - 1 < n * 2 ^ s →
  dwp (ok ← (p ← alloc;
            if p : bool then
              update (λ h, with_dir h (replicate (Z.to_nat (dsize (hctl h))) None));; mret true
            else mret false);
      if negb ok then mret false else
      ok ← init_segs (S (Z.to_nat n)) 0 n;
      if negb ok then mret false else
      update (λ h, with_hctl h
        (set_nelem_alloc (hctl h) (choose_nelem_alloc (entrysize (hctl h)))));;
      mret true) w
    (λ w' r, setup w' = setup w ∧ match r with
      | Ok true => layout (tab w') (replicate (Z.to_nat (2 ^ j)) []) [] ∧
          max_bucket (hctl (tab w')) = 2 ^ j - 1 ∧
          supply w' = drop (1 + Z.to_nat n) (supply w)
      | _ => ¬ grants (1 + Z.to_nat n) (supply w)
      end).
Proof.
  intros Hs Hup Ens Hn Hroom. apply dwp_bind, dwp_bind, dwp_alloc.
  - apply dwp_bind, dwp_update, dwp_ret. simpl negb. cbv iota.
    eapply dwp_mono, (init_rest _ j s n); [|done|exact Hup| |done|done].
    + intros w' r [Eset Hres]. split; [exact Eset|].
      destruct r as [[]|]; [|by intros Hg; apply Hres, grants_drop..].
      destruct Hres as (L & Hm & Hsup). split_and!; [done..|]. rewrite Hsup. simpl supply.
      by rewrite drop_drop.
    + split_and!; [done| |lia]. simpl. rewrite length_replicate. lia.
  - intros Hg. assert (¬ grants (1 + Z.to_nat n) (supply w)) as Hg'.
    { intros Hg'. eapply Hg, grants_le, Hg'. lia. }
    destruct (is_palloc (tab w)); [done|]. by apply dwp_ret, dwp_ret.
Qed.

Lemma init_htab_spec w nelem j s :
  let c := hctl (tab w) in
  let n := init_nsegs c (2 ^ j) in
  elements (tab w) = [] → nsegs c = 0 → nentries c = 0 → freeList c = None →
  0 <= s → hdr_ssize c = 2 ^ s → ssize (tab w) = 2 ^ s → sshift (tab w) = s →
  0 <= entrysize c < 2 ^ 50 → 0 <= j <= 30 → init_nbuckets c nelem = 2 ^ j →
  (isshared (tab w) = true → Z.of_nat (length (dir (tab w))) = dsize c) → may_realloc (tab w) →
  dwp (init_htab nelem) w (λ w' r, setup w' = setup w ∧ match r with
    | Ok true => layout (tab w') (replicate (Z.to_nat (2 ^ j)) []) [] ∧
        max_bucket (hctl (tab w')) = 2 ^ j - 1 ∧
        ∃ i, (i ≤ 1)%nat ∧ supply w' = drop (i + Z.to_nat n) (supply w)
    | _ => ¬ grants (1 + Z.to_nat n) (supply w) ∨ (isshared (tab w) = true ∧ dsize c < n)
    end).
Proof.
  intros c n Ee Ens Hent Hfl Hs Ehs Ess Esh Hes Hj Enb Hdir Hre.
  destruct (init_nsegs_spec c j s Hj Hs Ehs) as [Hn0 Hroom]. fold n in Hn0, Hroom.
  destruct (init_masks j Hj) as [Em1 Em2]. unfold init_htab. apply dwp_bind, dwp_gets. fold c.
  rewrite Enb, Em1, Em2. fold n. apply dwp_bind, dwp_update.
  assert (∀ ds ns, setting_up (with_hctl (tab w) (set_dir_sizes
    (set_buckets c (2 ^ j - 1) (2 ^ (j + 1) - 1) (2 ^ j - 1)) ds ns)) j s) as Hup.
  { intros ds ns. unfold setting_up, masks_at. simpl.
    assert (2 ^ j <= 2 ^ (j + 1)) by (apply Z.pow_le_mono_r; lia). split_and!; try done; lia. }
  destruct (isshared (tab w)) eqn:Esh'.
  - rewrite andb_true_r. destruct (Z.gtb_spec n (dsize c)) as [Hgt|Hle].
    { apply dwp_ret. split; [done|]. right. split; [done|lia]. }
    apply dwp_bind, dwp_ret, dwp_bind, dwp_ret. simpl negb. cbv iota.
    eapply dwp_mono, (init_rest _ j s n); [|done|exact (Hup (dsize c) (nsegs c))| |simpl; fold c; lia|done].
    + intros w' r [Eset Hres]. split; [exact Eset|]. destruct r as [[]|].
      * destruct Hres as (L & Hm & Hsup). split_and!; [done..|]. exists 0%nat. split; [lia|done].
      * left. intros Hg. eapply Hres, grants_le, Hg. simpl. lia.
      * left. intros Hg. eapply Hres, grants_le, Hg. simpl. lia.
    + split_and!; [done|by apply Hdir|lia].
  - rewrite andb_false_r.
    assert (∀ w' (r : result bool), setup w' = setup w ∧ match r with
      | Ok true => layout (tab w') (replicate (Z.to_nat (2 ^ j)) []) [] ∧
          max_bucket (hctl (tab w')) = 2 ^ j - 1 ∧
          supply w' = drop (1 + Z.to_nat n) (supply w)
      | _ => ¬ grants (1 + Z.to_nat n) (supply w)
      end → setup w' = setup w ∧ match r with
      | Ok true => layout (tab w') (replicate (Z.to_nat (2 ^ j)) []) [] ∧
          max_bucket (hctl (tab w')) = 2 ^ j - 1 ∧
          ∃ i, (i ≤ 1)%nat ∧ supply w' = drop (i + Z.to_nat n) (supply w)
      | _ => ¬ grants (1 + Z.to_nat n) (supply w) ∨ (false = true ∧ dsize c < n)
      end) as Hpost.
    { intros w' [[]|] [Eset Hres]; (split; [done|]); [|by left..].
      destruct Hres as (L & Hm & Hsup). split_and!; [done..|]. exists 1%nat. split; [lia|done]. }
    apply dwp_bind. destruct (Z.gtb_spec n (dsize c)) as [Hgt|Hle].
    + apply dwp_update. eapply dwp_mono, (init_dir _ j s n);
        [exact Hpost|done|exact (Hup n (nsegs c))|done|simpl; fold c; lia|done].
    + apply dwp_ret. eapply dwp_mono, (init_dir _ j s n);
        [exact Hpost|done|exact (Hup (dsize c) (nsegs c))|done|simpl; fold c; lia|done].
Qed.

(** ** [hash_create] *)

Lemma dwp_DynaHashAlloc w (Q : _ → result unit → Prop) :
  Q (with_supply w (drop 1 (supply w))) (Ok tt) →
  (¬ grants 1 (supply w) → Q (with_supply w (drop 1 (supply w))) (Err "out of memory")) →
  dwp DynaHashAlloc w Q.
Proof.
  unfold dwp, DynaHashAlloc, grants. intros Ht Hf. destruct (supply w) as [|[] s]; simpl in *; auto.
Qed.

(** The preallocation of elements at the end. *)
Lemma prealloc_spec w bs nelem :
  layout (tab w) bs [] → 1 <= nelem < 2 ^ 31 →
  dwp (ok ← element_alloc (s32 nelem);
      if negb ok then raise "out of memory" else mret ()) w
    (λ w' r, setup w' = setup w ∧ match r with
      | Ok _ => (∃ fl, layout (tab w') bs fl) ∧
          max_bucket (hctl (tab w')) = max_bucket (hctl (tab w))
      | Err _ => ¬ grants 1 (supply w)
      end).
Proof.
  intros L Hn. rewrite s32_id by (unfold is_s32; lia). apply dwp_bind.
  eapply dwp_mono, element_alloc_spec; [|lia]. intros w' [[]|e] (Es & _ & Ht).
  - apply dwp_ret. split; [done|]. rewrite Ht. split; [|done]. eexists.
    by apply add_elements_layout.
  - apply dwp_raise. split; [done|]. apply Ht.
  - split; [done|]. apply Ht.
Qed.

(** The header that [hash_create] sets up before [init_htab]. *)
Definition start_tab info flags : HTAB K D :=
  local_copies (with_hctl (with_elements (new_htab info flags) []) (header_of info flags)).

Lemma start_tab_facts info flags :
  elements (start_tab info flags) = [] ∧ hctl (start_tab info flags) = header_of info flags ∧
  isshared (start_tab info flags) = flag flags HASH_SHARED_MEM ∧
  is_palloc (start_tab info flags) = negb (flag flags HASH_ALLOC) ∧
  frozen (start_tab info flags) = false ∧
  ssize (start_tab info flags) = hdr_ssize (header_of info flags) ∧
  sshift (start_tab info flags) = hdr_sshift (header_of info flags) ∧
  (flag flags HASH_SHARED_MEM = true → dir (start_tab info flags) = (ctl_hctl info).1.2).
Proof.
  unfold start_tab, new_htab. destruct (ctl_hctl info) as [[c d] es].
  by destruct (flag flags HASH_SHARED_MEM).
Qed.

(** The outcome of [hash_create], and of its part after the start. *)
Definition created w nelem info flags w' (r : result unit) : Prop :=
  let c := header_of info flags in
  let n := init_nsegs c (init_nbuckets c nelem) in
  (self w', nest_level w', seq_scans w') = (self w, nest_level w, seq_scans w) ∧
  match r with
  | Ok _ => table_ok (tab w') ∅ ∧ frozen (tab w') = false ∧
      isshared (tab w') = flag flags HASH_SHARED_MEM ∧
      max_bucket (hctl (tab w')) + 1 = init_nbuckets c nelem
  | Err _ => ¬ grants (4 + Z.to_nat n) (supply w) ∨
      (flag flags HASH_SHARED_MEM = true ∧ dsize c < n)
  end.
Definition started w info flags j w' (r : result unit) : Prop :=
  let c := header_of info flags in
  setup w' = setup w ∧ match r with
    | Ok _ => (∃ fl, layout (tab w') (replicate (Z.to_nat (2 ^ j)) []) fl) ∧
        max_bucket (hctl (tab w')) = 2 ^ j - 1
    | Err _ => ¬ grants (2 + Z.to_nat (init_nsegs c (2 ^ j))) (supply w) ∨
        (flag flags HASH_SHARED_MEM = true ∧ dsize c < init_nsegs c (2 ^ j))
    end.

Lemma started_created w w1 i nelem info flags j w' r :
  (i ≤ 2)%nat → tab w1 = start_tab info flags → supply w1 = drop i (supply w) →
  (self w1, nest_level w1, seq_scans w1) = (self w, nest_level w, seq_scans w) →
  init_nbuckets (header_of info flags) nelem = 2 ^ j →
  started w1 info flags j w' r → created w nelem info flags w' r.
Proof.
  intros Hi Et Hsup Eenv Enb [Es Hr]. unfold created. rewrite Enb. unfold setup in Es.
  destruct (start_tab_facts info flags) as (_ & _ & Eshared & _ & Efz & _).
  split; [congruence|]. rewrite Et in Es. destruct r as [u|e].
  - destruct Hr as [[fl L] Hm]. split_and!; [|congruence|congruence|lia].
    exists (replicate (Z.to_nat (2 ^ j)) []), fl. split; [done|].
    apply represents_empty, concat_nils.
  - destruct Hr as [Hg|Hr]; [left|by right]. intros Hg'. apply Hg. rewrite Hsup.
    apply grants_drop. eapply grants_le, Hg'. lia.
Qed.

(** The table once [init_htab] and the preallocation are done. *)
Lemma create_rest w nelem info flags j :
  params_ok nelem info flags → tab w = start_tab info flags →
  0 <= j <= 30 → init_nbuckets (header_of info flags) nelem = 2 ^ j →
  dwp (ok ← init_htab nelem;
      if negb ok then raise "failed to initialize hash table" else
      h ← gets tab;
      if flag flags HASH_SHARED_MEM || (nelem <? nelem_alloc (hctl h)) then
        ok ← element_alloc (s32 nelem);
        if negb ok then raise "out of memory" else mret ()
      else mret ()) w (started w info flags j).
Proof.
  intros (Hne & Hff & Hds & Hnp & Hes & (s & Hs & Ess) & Hsh & Hal) Et Hj Enb.
  set (n := init_nsegs (header_of info flags) (2 ^ j)).
  destruct (start_tab_facts info flags) as (E1 & E2 & E3 & Ep & E4 & E5 & E6 & E7).
  apply dwp_bind. pose proof (init_htab_spec w nelem j s) as HI. cbv zeta in HI.
  rewrite Et, E2, E3 in HI. fold n in HI.
  eapply dwp_mono, HI; rewrite ?E5, ?E6; try done; [|lia|by apply header_shift| |].
  2: { intros Hf. rewrite E7 by done. by apply Hsh. }
  2: { unfold may_realloc. rewrite Ep, E2. destruct (flag flags HASH_ALLOC); [right; by apply Hal|by left]. }
  assert (∀ i, (i ≤ 1)%nat → ¬ grants 1 (drop (i + Z.to_nat n) (supply w)) →
    ¬ grants (2 + Z.to_nat n) (supply w)) as Hlate.
  { intros i Hi Hg Hg'. apply Hg, grants_drop. eapply grants_le, Hg'. lia. }
  assert (¬ grants (1 + Z.to_nat n) (supply w) → ¬ grants (2 + Z.to_nat n) (supply w)) as Hearly.
  { intros Hg Hg'. eapply Hg, grants_le, Hg'. lia. }
  intros w1 [[]|e] [Es Hres].
  - simpl negb. cbv iota. apply dwp_bind, dwp_gets.
    destruct Hres as (L & Hm & i & Hi & Hsup). destruct (_ || _).
    + eapply dwp_mono, (prealloc_spec w1 _ nelem L Hne). intros w2 [[]|e] [Es2 Hr2];
        (split; [congruence|]).
      * destruct Hr2 as [Hl2 Hm2]. split; [done|congruence].
      * left. rewrite Hsup in Hr2. by apply (Hlate i).
    + apply dwp_ret. split; [done|]. split; [by eexists|done].
  - apply dwp_raise. split; [done|]. destruct Hres; [left|right]; auto.
  - split; [done|]. destruct Hres; [left|right]; auto.
Qed.

(** A new table is empty and ready for use; it is refused only if memory is short
    or a shared directory too small. *)
Lemma hash_create_spec w nelem info flags :
  params_ok nelem info flags →
  dwp (hash_create nelem info flags) w (created w nelem info flags).
Proof.
  intros Hp. pose proof Hp as (_ & _ & _ & Hnp & _ & _ & Hsh & _).
  destruct (init_nbuckets_spec _ nelem Hnp) as (j & Enb & Hj & _).
  assert (∀ i w' e, (1 ≤ i ≤ 4)%nat → ¬ grants i (supply w) →
    (self w', nest_level w', seq_scans w') = (self w, nest_level w, seq_scans w) →
    created w nelem info flags w' (Err e)) as Hearly.
  { intros i w' e Hi Hg Eenv. split; [done|]. left. intros Hg'. eapply Hg, grants_le, Hg'. lia. }
  unfold hash_create. apply dwp_bind, dwp_DynaHashAlloc.
  2: { intros Hg. by apply (Hearly 1%nat); [lia|..]. }
  apply dwp_bind, dwp_update.
  assert (flag flags HASH_SHARED_MEM && flag flags HASH_ATTACH = false) as ->.
  { destruct (flag flags HASH_SHARED_MEM); [|done]. by apply Hsh. }
  apply dwp_bind. destruct (flag flags HASH_SHARED_MEM) eqn:Ef.
  - apply dwp_ret. simpl negb. cbv iota. apply dwp_bind, dwp_update.
    pose proof (λ w1 Et, create_rest w1 nelem info flags j Hp Et Hj Enb) as HR. rewrite Ef in HR.
    eapply dwp_mono, HR; [|done].
    intros w' r Hr. by eapply (started_created w _ 1); [lia|..|exact Hr].
  - apply dwp_alloc.
    + simpl negb. cbv iota. apply dwp_bind, dwp_update.
      pose proof (λ w1 Et, create_rest w1 nelem info flags j Hp Et Hj Enb) as HR. rewrite Ef in HR.
      eapply dwp_mono, HR; [|done].
      intros w' r Hr. eapply (started_created w _ 2); [lia|..|exact Hr]; try done.
      simpl. by rewrite drop_drop.
    + intros Hg. assert (¬ grants 2 (supply w)) as Hg2.
      { intros Hg'. by apply Hg, (grants_drop 1 1). }
      destruct (is_palloc _); [|apply dwp_raise]; by apply (Hearly 2%nat); [lia|..].
Qed.

End Create.
End DynahashCreate.
