(* ===== verification/DynahashScan.v ===== *)
(** Sequential scans of a hash table and the list of open scans.

    [position bs st rem]: a scan with status [st] still has the elements [rem] to
    return, in this order. *)

From Stdlib Require Import ZArith Lia.
From stdpp Require Import base gmap sets list option numbers strings.
From S2P Require Import Prelude Dynahash DynahashSpec DynahashTable DynahashExpand.
From S2P Require Import DynahashSearch.
Import Dynahash DynahashSpec DynahashTable DynahashExpand DynahashSearch.

Module DynahashScan.

(** ** The list of open scans *)

Lemma drop_scan_perm i scans s :
  scans !! i = Some s → scans ≡ₚ s :: drop_scan i scans.
Proof.
  intros Hi. apply lookup_lt_Some in Hi as Hlt. unfold drop_scan.
  destruct (scans !! (length scans - 1)%nat) as [t|] eqn:Et.
  2: { apply lookup_ge_None in Et. lia. }
  assert (scans = take (length scans - 1) scans ++ [t]) as E.
  { rewrite <-(take_drop_middle scans _ t Et) at 1. f_equal. by rewrite drop_ge by lia. }
  destruct (decide (i < length scans - 1)%nat) as [Hl|Hl].
  - rewrite take_insert_lt by done. set (p := take (length scans - 1) scans) in *.
    assert (p !! i = Some s) as Hp by (unfold p; by rewrite lookup_take_lt).
    rewrite E, insert_take_drop by by eapply lookup_lt_Some.
    rewrite <-(take_drop_middle p i s Hp) at 1. solve_Permutation.
  - assert (i = length scans - 1)%nat as -> by lia. rewrite take_insert_ge by done.
    simplify_eq. rewrite E at 1. solve_Permutation.
Qed.

Lemma drop_scan_lookup i scans j s :
  drop_scan i scans !! j = Some s → (i < length scans)%nat →
  (j < length scans - 1)%nat ∧
  ((j = i ∧ scans !! (length scans - 1)%nat = Some s) ∨ (j ≠ i ∧ scans !! j = Some s)).
Proof.
  unfold drop_scan. intros Hj Hlt.
  destruct (scans !! (length scans - 1)%nat) as [t|] eqn:Et.
  2: { apply lookup_ge_None in Et. lia. }
  apply lookup_take_Some in Hj as [Hj Hjl]. split; [done|].
  destruct (decide (j = i)) as [->|Hne].
  - left. rewrite list_lookup_insert_eq in Hj by done. naive_solver.
  - right. by rewrite list_lookup_insert_ne in Hj.
Qed.

Lemma deregister_loop_spec n hashp scans :
  (n ≤ length scans)%nat →
  match deregister_loop n hashp scans with
  | Some scans' => ∃ s, seq_scan_table s = hashp ∧ scans ≡ₚ s :: scans'
  | None => ∀ i s, (i < n)%nat → scans !! i = Some s → seq_scan_table s ≠ hashp
  end.
Proof.
  induction n as [|n IH]; intros Hn; cbn [deregister_loop]; [lia|].
  destruct (lookup_lt_is_Some_2 scans n) as [s Hs]; [lia|].
  rewrite Hs.
  destruct (Nat.eqb_spec (seq_scan_table s) hashp) as [E|E].
  - exists s. split; [done|]. by apply drop_scan_perm.
  - specialize (IH ltac:(lia)). destruct (deregister_loop n hashp scans); [done|].
    intros i t Hi Ht. destruct (decide (i = n)) as [->|]; [naive_solver|].
    eapply IH; [|done]. lia.
Qed.

Lemma has_seq_scans_in_spec hashp scans :
  has_seq_scans_in hashp scans = true ↔ ∃ s, s ∈ scans ∧ seq_scan_table s = hashp.
Proof.
  unfold has_seq_scans_in. rewrite existsb_exists.
  setoid_rewrite Nat.eqb_eq. by setoid_rewrite list_elem_of_In.
Qed.

Lemma subxact_loop_spec n isCommit nest warned scans :
  (n ≤ length scans)%nat →
  (∀ j s, (n ≤ j)%nat → scans !! j = Some s → seq_scan_level s < nest) →
  let '(warned', scans') := subxact_loop n isCommit nest warned scans in
  ∃ removed, scans ≡ₚ removed ++ scans' ∧
    Forall (λ s, nest <= seq_scan_level s) removed ∧ Forall (λ s, seq_scan_level s < nest) scans' ∧
    warned' = warned ++ (if isCommit then seq_scan_table <$> removed else []).
Proof.
  revert warned scans. induction n as [|n IH]; intros warned scans Hn Hdone; simpl.
  - exists []. split_and!; [done|done| |by destruct isCommit; rewrite app_nil_r].
    apply Forall_lookup. intros j s Hj. by eapply Hdone; [lia|].
  - destruct (lookup_lt_is_Some_2 scans n) as [s Hs]; [lia|].
  rewrite Hs.
    destruct (Z.geb_spec (seq_scan_level s) nest) as [Hge|Hlt].
    + pose proof (drop_scan_perm _ _ _ Hs) as Hp.
      assert (length scans = S (length (drop_scan n scans))) as Hlen by by rewrite Hp at 1.
      specialize (IH (if isCommit then warned ++ [seq_scan_table s] else warned) (drop_scan n scans)).
      destruct (subxact_loop n _ _ _ _) as [warned' scans'].
      destruct IH as (removed & Hr & Hf1 & Hf2 & Hw); [lia| |].
      { intros j t Hj Ht. apply drop_scan_lookup in Ht as [Hjl [[-> Ht]|[Hne Ht]]]; [| |lia].
        - eapply Hdone; [|done]. lia.
        - eapply Hdone; [|done]. lia. }
      exists (s :: removed). split_and!; [by rewrite Hp, Hr|constructor; [lia|done]|done|].
      rewrite Hw. destruct isCommit; simpl; by rewrite ?app_nil_r, <-?app_assoc.
    + apply IH; [lia|]. intros j t Hj Ht. destruct (decide (j = n)) as [->|]; [naive_solver lia|].
      eapply Hdone; [|done]. lia.
Qed.

(** ** Positions *)

Section Scan.
Context {K C D : Type} `{KeyLaws K C} `{Countable C} `{Inhabited K} `{Inhabited D}.
Implicit Types (h : HTAB K D) (w : World K D) (bs : list (list nat)) (fl : list nat).
Implicit Types (m : gmap C (nat * D)) (k : K) (st : HASH_SEQ_STATUS).

Definition position bs st (rem : list nat) : Prop :=
  0 <= curBucket st ∧
  match curEntry st with
  | None => rem = concat (drop (Z.to_nat (curBucket st)) bs)
  | Some a => ∃ l1 l2, bs !! Z.to_nat (curBucket st) = Some (l1 ++ a :: l2) ∧
      rem = a :: l2 ++ concat (drop (S (Z.to_nat (curBucket st))) bs)
  end.

(** Returning the element [a] of bucket [b] and moving on. *)
Lemma position_advance h bs fl b l1 a l2 :
  layout h bs fl → max_bucket (hctl h) + 1 < 2 ^ 32 → 0 <= b →
  bs !! Z.to_nat b = Some (l1 ++ a :: l2) →
  ∃ l, load h (LinkOf a) = Some l ∧
    position bs (MkSeq true (match l with None => u32 (b + 1) | Some _ => b end) l)
      (l2 ++ concat (drop (S (Z.to_nat b)) bs)).
Proof.
  intros L Hmax Hb Hl. pose proof (lay_chain _ _ _ L _ _ Hl) as Hc.
  apply chain_at_app in Hc as [_ Hc]. apply chain_at_cons in Hc as [_ Hc].
  destruct (chain_at_load _ _ _ Hc) as (l & Hload & Hcf). exists l. split; [done|].
  apply lookup_lt_Some in Hl as Hlt. pose proof (lay_buckets _ _ _ L) as Hlen.
  destruct l2 as [|a2 l2]; simpl in Hcf.
  - subst l. rewrite u32_id by (unfold is_u32; lia). split; simpl; [lia|].
    by replace (Z.to_nat (b + 1)) with (S (Z.to_nat b)) by lia.
  - destruct Hcf as [-> _]. split; [done|]. simpl. exists (l1 ++ [a]), l2.
    by rewrite <-app_assoc.
Qed.

(** The segment and index of the next bucket. *)
Lemma next_slot b ss :
  0 < ss →
  if b mod ss + 1 >=? ss
  then (b + 1) / ss = b / ss + 1 ∧ (b + 1) mod ss = 0
  else (b + 1) / ss = b / ss ∧ (b + 1) mod ss = b mod ss + 1.
Proof.
  intros Hss. pose proof (Z.div_mod b ss ltac:(lia)) as Hdm.
  pose proof (Z.mod_pos_bound b ss Hss) as Hmb.
  destruct (Z.geb_spec (b mod ss + 1) ss) as [Hw|Hw]; split; symmetry.
  - apply (Z.div_unique_pos _ _ _ 0); lia.
  - apply (Z.mod_unique_pos _ _ (b / ss + 1)); lia.
  - apply (Z.div_unique_pos _ _ _ (b mod ss + 1)); lia.
  - apply (Z.mod_unique_pos _ _ (b / ss)); lia.
Qed.

Lemma seq_loop_spec fuel h bs fl segp b :
  layout h bs fl → max_bucket (hctl h) + 1 < 2 ^ 32 → 0 <= b <= max_bucket (hctl h) →
  segment h (Z.to_nat (b / ssize h)) = Some segp →
  (Z.to_nat (max_bucket (hctl h) - b) < fuel)%nat →
  let res := seq_loop fuel h segp b (b / ssize h) (b mod ssize h) in
  (concat (drop (Z.to_nat b) bs) = [] ∧ res = Some (max_bucket (hctl h) + 1, None)) ∨
  ∃ b' a l, res = Some (b', Some a) ∧ 0 <= b' ∧ bs !! Z.to_nat b' = Some (a :: l) ∧
    concat (drop (Z.to_nat b) bs) = a :: l ++ concat (drop (S (Z.to_nat b')) bs).
Proof.
  intros L Hmax. pose proof (lay_geo _ _ _ L) as G. pose proof (lay_buckets _ _ _ L) as Hlen.
  pose proof (ssize_pos _ G) as Hss.
  revert b segp. induction fuel as [|fuel IH]; intros b segp Hb Hseg Hf; [lia|].
  destruct (layout_lookup h bs fl b L Hb) as [l Hl].
  pose proof (lay_chain _ _ _ L _ _ Hl) as Hc. rewrite Z2Nat.id in Hc by lia.
  destruct (chain_at_load _ _ _ Hc) as (p & Hp & Hcf).
  rewrite slot_div_mod in Hp by done. simpl in Hp. rewrite Hseg in Hp. simpl in Hp.
  cbn [seq_loop]. rewrite Hp. cbn [mbind option_bind].
  rewrite (drop_S bs l (Z.to_nat b) Hl).
  destruct l as [|a l]; simpl in Hcf.
  2: { destruct Hcf as [-> _]. right. exists b, a, l. split_and!; [done|lia|done|done]. }
  subst p. rewrite u32_id by (unfold is_u32; lia). cbn [concat app].
  destruct (Z.gtb_spec (b + 1) (max_bucket (hctl h))) as [Hgt|Hle].
  { left. assert (b = max_bucket (hctl h)) as -> by lia. split; [|done].
    by rewrite drop_ge by lia. }
  assert (Z.to_nat (b + 1) = S (Z.to_nat b)) as Eb by lia.
  pose proof (next_slot b (ssize h) Hss) as Hnext.
  destruct (b mod ssize h + 1 >=? ssize h); destruct Hnext as [Ed Em].
  - destruct (bucket_segment h (b + 1) G) as (seg' & Hseg' & _).
    { pose proof (geo_room _ G). lia. }
    rewrite shift_div, Ed in Hseg' by done. rewrite Hseg'. cbn [mbind option_bind].
    destruct (IH (b + 1) seg') as [HH|HH]; rewrite ?Ed, ?Em, ?Eb in *;
      [lia|done|lia|by left|by right].
  - destruct (IH (b + 1) segp) as [HH|HH]; rewrite ?Ed, ?Em, ?Eb in *;
      [lia|done|lia|by left|by right].
Qed.

(** ** [hash_seq_search] *)

Lemma seq_search_next w bs fl st a rem :
  layout (tab w) bs fl → max_bucket (hctl (tab w)) + 1 < 2 ^ 32 →
  seq_hashp st = true → position bs st (a :: rem) →
  ∃ st', hash_seq_search st w = (w, Ok (st', Some a)) ∧ seq_hashp st' = true ∧
    position bs st' rem.
Proof.
  intros L Hmax Hst [Hcur Hpos]. destruct st as [hp cur ent]; simpl in *. subst hp.
  destruct ent as [a'|].
  - destruct Hpos as (l1 & l2 & Hl & [= <- ->]).
    destruct (position_advance _ _ _ _ _ _ _ L Hmax Hcur Hl) as (l & Hload & Hp).
    eexists. split; [|split; [|exact Hp]]; [|done].
    unfold hash_seq_search, mbind, M_bind, gets. simpl. simpl in Hload.
    rewrite Hload. simpl. by destruct l.
  - pose proof (lay_geo _ _ _ L) as G. pose proof (lay_buckets _ _ _ L) as Hlen.
    assert (cur <= max_bucket (hctl (tab w))) as Hle.
    { destruct (decide (cur <= max_bucket (hctl (tab w)))); [done|].
      rewrite drop_ge in Hpos by lia. done. }
    destruct (bucket_segment (tab w) cur G) as (seg & Hseg & _).
    { pose proof (geo_room _ G). lia. }
    pose proof Hseg as Hseg0.
    rewrite shift_div in Hseg by done.
    destruct (seq_loop_spec (S (Z.to_nat (max_bucket (hctl (tab w))))) (tab w) bs fl seg cur)
      as [[E _]|(b' & a' & l & Hres & Hb' & Hl & E)]; [done|done|lia|done|lia|congruence|].
    rewrite E in Hpos. injection Hpos as -> ->.
    destruct (position_advance _ _ _ _ [] _ _ L Hmax Hb' Hl) as (q & Hload & Hp).
    eexists. split; [|split; [|exact Hp]]; [|done].
    unfold hash_seq_search, mbind, M_bind, gets. cbn [curEntry seq_hashp negb curBucket].
    destruct (Z.gtb_spec cur (max_bucket (hctl (tab w)))); [lia|].
    rewrite Hseg0. cbn [deref mret M_ret].
    rewrite shift_div, MOD_mod, Hres by done. cbn [deref mret M_ret].
    rewrite Hload. by destruct q.
Qed.

Lemma seq_search_end w bs fl st :
  layout (tab w) bs fl → max_bucket (hctl (tab w)) + 1 < 2 ^ 32 →
  seq_hashp st = true → position bs st [] →
  ∃ st', hash_seq_search st w = (hash_seq_term;; mret (st', None)) w.
Proof.
  intros L Hmax Hst [Hcur Hpos]. destruct st as [hp cur ent]; simpl in *. subst hp.
  destruct ent as [a'|]; [by destruct Hpos as (l1 & l2 & _ & ?)|].
  unfold hash_seq_search. cbn [curEntry seq_hashp negb curBucket].
  unfold mbind at 1, M_bind at 1, gets.
  destruct (Z.gtb_spec cur (max_bucket (hctl (tab w)))) as [Hgt|Hle]; [by eexists|].
  pose proof (lay_geo _ _ _ L) as G.
  destruct (bucket_segment (tab w) cur G) as (seg & Hseg & _).
  { pose proof (geo_room _ G). lia. }
  rewrite Hseg. rewrite shift_div in Hseg by done.
  destruct (seq_loop_spec (S (Z.to_nat (max_bucket (hctl (tab w))))) (tab w) bs fl seg cur)
    as [[_ Hres]|(b' & a' & l & _ & _ & _ & E)]; [done|done|lia|done|lia| |congruence].
  cbn [deref]. unfold mbind at 1, M_bind at 1. cbn [mret M_ret].
  rewrite shift_div, MOD_mod, Hres by done. by eexists.
Qed.

(** ** Changes during a scan *)

Lemma position_elem bs st rem a : position bs st rem → a ∈ rem → a ∈ concat bs.
Proof.
  intros [_ Hpos] Ha. assert (∀ n x, x ∈ concat (drop n bs) → x ∈ concat bs) as Hdrop.
  { intros n x Hx. rewrite <-(take_drop n bs), concat_app. set_solver. }
  destruct (curEntry st) as [e|].
  - destruct Hpos as (l1 & l2 & Hl & ->). rewrite app_comm_cons in Ha.
    apply elem_of_app in Ha as [Ha|Ha]; [|by eapply Hdrop].
    eapply elem_of_bucket; [done|]. set_solver.
  - subst rem. by eapply Hdrop.
Qed.

(** Removing an element that was returned already does not move the scan. *)
Lemma position_shortened bs bs' st rem a :
  shortened bs bs' (Some a) → a ∉ rem → position bs st rem → position bs' st rem.
Proof.
  intros (b & m1 & m2 & Hb & ->) Ha [Hcur Hpos]. split; [done|].
  assert (∀ n, (n ≤ b)%nat → a ∈ concat (drop n bs)) as Hin.
  { intros n Hn. rewrite list_elem_of_In, in_concat. exists (m1 ++ a :: m2).
    rewrite <-!list_elem_of_In. split; [|set_solver]. apply list_elem_of_lookup.
    exists (b - n)%nat. rewrite lookup_drop. by replace (n + (b - n))%nat with b by lia. }
  destruct (curEntry st) as [e|].
  - destruct Hpos as (l1 & l2 & Hl & ->).
    assert (b ≤ Z.to_nat (curBucket st))%nat as Hle.
    { destruct (decide (S (Z.to_nat (curBucket st)) ≤ b)%nat) as [Hgt|]; [|lia].
      specialize (Hin _ Hgt). set_solver. }
    rewrite drop_insert_lt by lia.
    destruct (decide (b = Z.to_nat (curBucket st))) as [->|Hne].
    + rewrite Hl in Hb. injection Hb as Hb. rewrite list_lookup_insert_eq by by eapply lookup_lt_Some.
      apply app_eq_inv in Hb as [(x & -> & Hx)|(x & -> & Hx)].
      2: { destruct Ha. rewrite app_comm_cons, Hx. set_solver. }
      destruct x as [|y x]; simplify_eq/=; [set_solver|].
      exists (m1 ++ x), l2. by rewrite <-app_assoc.
    + rewrite list_lookup_insert_ne by done. eauto.
  - subst rem. destruct (decide (b < Z.to_nat (curBucket st))%nat) as [Hlt|Hge].
    + by rewrite drop_insert_lt.
    + destruct Ha. apply Hin. lia.
Qed.

(** A new element is returned later or not at all, and nothing else changes. *)
Lemma position_appended bs bs' st rem :
  appended bs bs' → position bs st rem →
  ∃ rem', position bs' st rem' ∧
    (rem' = rem ∨ ∃ r1 a r2, rem = r1 ++ r2 ∧ rem' = r1 ++ a :: r2 ∧ a ∉ concat bs).
Proof.
  intros [->|(b & l & a & Hb & -> & Ha)] Hp; [by exists rem; split; [|left]|].
  destruct Hp as [Hcur Hpos]. unfold position.
  assert (∀ n, (n ≤ b)%nat → ∃ r1 r2, concat (drop n bs) = r1 ++ r2 ∧
    concat (drop n (<[b := l ++ [a]]> bs)) = r1 ++ a :: r2) as Hafter.
  { intros n Hn. rewrite drop_insert_ge by done.
    assert (drop n bs !! (b - n)%nat = Some l) as Hb'.
    { rewrite lookup_drop. by replace (n + (b - n))%nat with b by lia. }
    exists (concat (take (b - n) (drop n bs)) ++ l), (concat (drop (S (b - n)) (drop n bs))).
    rewrite insert_take_drop by by eapply lookup_lt_Some. split.
    - rewrite <-(take_drop_middle _ _ _ Hb') at 1. by rewrite concat_app, concat_cons, app_assoc.
    - rewrite concat_app, concat_cons, <-!app_assoc. done. }
  destruct (curEntry st) as [e|].
  - destruct Hpos as (l1 & l2 & Hl & ->). set (n := Z.to_nat (curBucket st)) in *.
    destruct (decide (b < n)%nat) as [Hlt|Hge].
    { eexists. split; [|by left]. rewrite drop_insert_lt, list_lookup_insert_ne by lia. eauto. }
    destruct (decide (b = n)) as [->|Hne].
    + simplify_eq. eexists. split.
      * split; [done|]. exists l1, (l2 ++ [a]).
        rewrite list_lookup_insert_eq by by eapply lookup_lt_Some.
        rewrite <-app_assoc. split; [done|]. by rewrite drop_insert_lt by lia.
      * right. exists (e :: l2), a, (concat (drop (S n) bs)).
        split_and!; [done| |done]. simpl. by rewrite <-app_assoc.
    + destruct (Hafter (S n)) as (r1 & r2 & E1 & E2); [lia|]. eexists. split.
      * split; [done|]. exists l1, l2. by rewrite list_lookup_insert_ne.
      * right. exists (e :: l2 ++ r1), a, r2. rewrite E1, E2. split_and!; [| |done];
          simpl; by rewrite <-app_assoc.
  - subst rem. eexists. split; [by split|].
    destruct (decide (b < Z.to_nat (curBucket st))%nat) as [Hlt|Hge].
    + left. by rewrite drop_insert_lt.
    + right. destruct (Hafter (Z.to_nat (curBucket st))) as (r1 & r2 & E1 & E2); [lia|].
      by exists r1, a, r2.
Qed.

End Scan.
End DynahashScan.
