(* ===== verification/DynahashKeys.v ===== *)
(** The key functions of hashfn.c and the defaults of dynahash.c: strings, tags of
    a fixed size, OIDs, integers and Bitmapsets, each with the laws that a hash
    table relies on.

    [hash_any] takes the same value whether or not the key is aligned
    ([hash_any_paths]), so the caller's key and the copy in the table agree. *)

From Stdlib Require Import ZArith Lia.
From stdpp Require Import base gmap sets list option numbers.
From S2P Require Import Prelude HashFunc Bitmapset BitmapsetSpec Dynahash DynahashTable.
Import HashFunc Bitmapset BitmapsetSpec Dynahash DynahashTable.

Module DynahashKeys.

(** ** Functions *)

(** [strncmp] on the bytes before the terminator. *)
Fixpoint strncmp (a b : list Z) (n : nat) : Z :=
  match n with
  | O => 0
  | S n =>
      let x := default 0 (head a) in
      let y := default 0 (head b) in
      if negb (x =? y) then x - y else if x =? 0 then 0 else strncmp (tail a) (tail b) n
  end.
Fixpoint memcmp (a b : list Z) (n : nat) : Z :=
  match n with
  | O => 0
  | S n =>
      let x := default 0 (head a) in
      let y := default 0 (head b) in
      if negb (x =? y) then x - y else memcmp (tail a) (tail b) n
  end.
(** [strlcpy]: what the destination holds, without the terminator. *)
Definition strlcpy (src : list Z) (size : nat) : list Z := take (size - 1) src.

Definition string_compare (key1 key2 : list Z) (keysize : nat) : Z :=
  strncmp key1 key2 (keysize - 1).
Definition string_hash (key : list Z) (keysize : nat) : Z :=
  let s_len := (length key `min` (keysize - 1))%nat in
  hash_any true (take s_len key).
Definition tag_hash (key : list Z) (keysize : nat) : Z := hash_any true (take keysize key).
Definition oid_hash (key : Z) : Z := hash_uint32 key.
Definition int32_hash (key : Z) : Z := u32 key.
Definition bitmap_hash (key : option Bitmapset) : Z := bms_hash_value key.
Definition bitmap_match (key1 key2 : option Bitmapset) : Z :=
  if bms_equal key1 key2 then 0 else 1.

(** ** Keys *)

Record StringKey (keysize : nat) := MkString { string_bytes : list Z }.
Arguments MkString {keysize} _.
Arguments string_bytes {keysize} _.
Record TagKey (keysize : nat) := MkTag { tag_bytes : list Z }.
Arguments MkTag {keysize} _.
Arguments tag_bytes {keysize} _.
Record OidKey := MkOid { oid_value : Z }.
Record Int32Key := MkInt32 { int32_value : Z }.
Record BitmapKey := MkBitmap { bitmap_value : option Bitmapset }.

(** The functions [hash_create] picks when none is given: [string_hash],
    [string_compare] and [strlcpy]. *)
#[export] Instance StringKey_functions keysize : KeyFunctions (StringKey keysize) := {
  hash k := string_hash (string_bytes k) keysize;
  match_key k k' := string_compare (string_bytes k) (string_bytes k') keysize =? 0;
  keycopy k := MkString (strlcpy (string_bytes k) keysize) }.
(** With another hash function, [memcmp] and [memcpy]. *)
#[export] Instance TagKey_functions keysize : KeyFunctions (TagKey keysize) := {
  hash k := tag_hash (tag_bytes k) keysize;
  match_key k k' := memcmp (tag_bytes k) (tag_bytes k') keysize =? 0;
  keycopy k := k }.
#[export] Instance OidKey_functions : KeyFunctions OidKey := {
  hash k := oid_hash (oid_value k);
  match_key k k' := memcmp (le_bytes (oid_value k)) (le_bytes (oid_value k')) 4 =? 0;
  keycopy k := k }.
#[export] Instance Int32Key_functions : KeyFunctions Int32Key := {
  hash k := int32_hash (int32_value k);
  match_key k k' :=
    memcmp (le_bytes (u32 (int32_value k))) (le_bytes (u32 (int32_value k'))) 4 =? 0;
  keycopy k := k }.
#[export] Instance BitmapKey_functions : KeyFunctions BitmapKey := {
  hash k := bitmap_hash (bitmap_value k);
  match_key k k' := bitmap_match (bitmap_value k) (bitmap_value k') =? 0;
  keycopy k := k }.

(** ** Laws *)

Definition is_char (b : Z) : Prop := 0 < b < 256.

Lemma strncmp_eq a b n :
  Forall is_char a → Forall is_char b → strncmp a b n = 0 ↔ take n a = take n b.
Proof.
  revert a b. induction n as [|n IH]; intros a b Ha Hb; [done|].
  destruct a as [|x a], b as [|y b]; cbn -[Z.eqb Z.sub].
  - done.
  - apply Forall_cons_iff in Hb as [Hy _]. unfold is_char in Hy.
    destruct (Z.eqb_spec 0 y); cbn -[Z.sub]; [lia|]. split; [lia|done].
  - apply Forall_cons_iff in Ha as [Hx _]. unfold is_char in Hx.
    destruct (Z.eqb_spec x 0); cbn -[Z.sub]; [lia|]. split; [lia|done].
  - apply Forall_cons_iff in Ha as [Hx Ha], Hb as [Hy Hb]. unfold is_char in *.
    destruct (Z.eqb_spec x y) as [->|Hne]; simpl.
    + destruct (Z.eqb_spec y 0); [lia|]. rewrite IH by done. split; [congruence|by intros [=]].
    + split; [lia|congruence].
Qed.
Lemma memcmp_eq a b n : length a = n → length b = n → memcmp a b n = 0 ↔ a = b.
Proof.
  revert a b. induction n as [|n IH]; intros [|x a] [|y b] Ha Hb; try done; simpl in *.
  destruct (Z.eqb_spec x y) as [->|Hne]; simpl.
  - rewrite IH by lia. split; [congruence|by intros [=]].
  - split; [lia|congruence].
Qed.

#[export, refine] Instance StringKey_laws keysize :
  KeyLaws (StringKey keysize) (list Z) := {
  valid k := Forall is_char (string_bytes k);
  canon k := take (keysize - 1) (string_bytes k) }.
Proof.
  - intros k Hk. simpl. unfold strlcpy. by apply Forall_take.
  - intros k _. simpl. unfold strlcpy. by rewrite take_idemp.
  - intros k k' Hk Hk'. cbn [match_key StringKey_functions]. unfold string_compare. by rewrite Z.eqb_eq, strncmp_eq.
  - intros k k' _ _ E. cbn [hash StringKey_functions]. unfold string_hash.
    assert (∀ l : list Z, take (length l `min` (keysize - 1)) l = take (keysize - 1) l) as Ht.
    { intros l. rewrite Nat.min_comm, <-take_take. by rewrite (take_ge l (length l)). }
    by rewrite !Ht, E.
Defined.

#[export, refine] Instance TagKey_laws keysize : KeyLaws (TagKey keysize) (list Z) := {
  valid k := length (tag_bytes k) = keysize;
  canon k := tag_bytes k }.
Proof.
  - done.
  - done.
  - intros k k' Hk Hk'. cbn [match_key TagKey_functions]. by rewrite Z.eqb_eq, memcmp_eq.
  - intros k k' _ _ E. cbn [hash TagKey_functions OidKey_functions Int32Key_functions]. by rewrite E.
Defined.

#[export, refine] Instance OidKey_laws : KeyLaws OidKey Z := {
  valid k := is_u32 (oid_value k);
  canon k := oid_value k }.
Proof.
  - done.
  - done.
  - intros k k' Hk Hk'. cbn [match_key OidKey_functions Int32Key_functions]. rewrite Z.eqb_eq, memcmp_eq by done. split; [|congruence].
    intros E. by rewrite <-(load32_le_bytes _ Hk), E, load32_le_bytes.
  - intros k k' _ _ E. cbn [hash TagKey_functions OidKey_functions Int32Key_functions]. by rewrite E.
Defined.

#[export, refine] Instance Int32Key_laws : KeyLaws Int32Key Z := {
  valid k := is_s32 (int32_value k);
  canon k := int32_value k }.
Proof.
  - done.
  - done.
  - intros k k' Hk Hk'. cbn [match_key OidKey_functions Int32Key_functions]. rewrite Z.eqb_eq, memcmp_eq by done. split; [|congruence].
    intros E. assert (u32 (int32_value k) = u32 (int32_value k')) as Eu.
    { rewrite <-(load32_le_bytes _ (u32_range (int32_value k))), E.
      by rewrite load32_le_bytes by apply u32_range. }
    unfold u32, is_s32 in *.
    assert ((int32_value k - int32_value k') mod 2 ^ 32 = 0) as Em.
    { rewrite Zminus_mod, Eu, Z.sub_diag. done. }
    apply Z.mod_divide in Em as [q Eq]; [|done]. lia.
  - intros k k' _ _ E. cbn [hash TagKey_functions OidKey_functions Int32Key_functions]. by rewrite E.
Defined.

#[export, refine] Instance BitmapKey_laws : KeyLaws BitmapKey (gset Z) := {
  valid k := bms_wf (bitmap_value k);
  canon k := to_gset (bitmap_value k) }.
Proof.
  - done.
  - done.
  - intros k k' Hk Hk'. cbn [match_key BitmapKey_functions]. unfold bitmap_match.
    rewrite to_gset_eq, <-equal_words by done. by destruct (bms_equal _ _).
  - intros k k' Hk Hk' E. cbn [hash BitmapKey_functions]. unfold bitmap_hash. apply hash_value_words; [done..|].
    by apply to_gset_eq.
Defined.

#[export] Instance StringKey_inhabited keysize : Inhabited (StringKey keysize) :=
  populate (MkString []).
#[export] Instance Int32Key_inhabited : Inhabited Int32Key := populate (MkInt32 0).

End DynahashKeys.
