(* ===== verification/DynahashProps.v ===== *)
(** What a hash table of dynahash.c promises: from its creation on it is a finite
    map, whatever the sequence of operations and the answers of the allocator; a
    scan returns every entry once; partitions never share a bucket; the list of
    open scans is cleaned up.

    The clients here are programs over the operations: [run] for sequences, [scan]
    for a loop that may delete the entry it was given. *)

From Stdlib Require Import ZArith Lia.
From stdpp Require Import base gmap sets list option numbers strings.
From S2P Require Import Prelude Dynahash DynahashSpec DynahashTable DynahashExpand.
From S2P Require Import DynahashSearch DynahashCreate DynahashScan DynahashKeys.
Import Dynahash DynahashSpec DynahashTable DynahashExpand.
Import DynahashSearch DynahashCreate DynahashScan DynahashKeys.

Module DynahashProps.

Section Clients.
Context {K C D : Type} `{KeyLaws K C} `{Countable C} `{Inhabited K} `{Inhabited D}.
Implicit Types (h : HTAB K D) (w : World K D) (m : gmap C (nat * D)) (k : K).

(** ** Sequences of operations *)

Inductive Op :=
  | Search (k : K) (action : HASHACTION)
  | Fill (k : K) (d : D)
  | Read (k : K)
  | Count
  | Freeze.
Inductive Out :=
  | OutEntry (a : option nat) (found : bool)
  | OutData (d : option D)
  | OutCount (n : Z)
  | OutDone.

Definition set_data (d : D) (e : HASHELEMENT K D) : HASHELEMENT K D :=
  MkElem (link e) (hashvalue e) (key e) d.
(** The caller fills the data field of the entry it was given. *)
Definition write_data (a : nat) (d : D) : M unit :=
  update (λ h, with_elements h (alter (set_data d) a (elements h))).

Definition run_op (op : Op) : M Out :=
  match op with
  | Search k action => '(a, found) ← hash_search k action; mret (OutEntry a found)
  | Fill k d =>
      '(a, _) ← hash_search k HASH_FIND;
      (match a with Some a => write_data a d | None => mret () end);;
      mret OutDone
  | Read k =>
      '(a, _) ← hash_search k HASH_FIND;
      match a with
      | Some a =>
          h ← gets tab; e ← deref (elements h !! a); mret (OutData (Some (data e)))
      | None => mret (OutData None)
      end
  | Count => n ← hash_get_num_entries; mret (OutCount n)
  | Freeze => hash_freeze;; mret OutDone
  end.
(** An error ends an operation, not the table. *)
Fixpoint run (ops : list Op) (w : World K D) : World K D * list (result Out) :=
  match ops with
  | [] => (w, [])
  | op :: ops =>
      let '(w, r) := run_op op w in
      let '(w, rs) := run ops w in (w, r :: rs)
  end.

Definition op_valid (op : Op) : Prop :=
  match op with Search k _ | Fill k _ | Read k => valid k | Count | Freeze => True end.

Definition out_entry (r : result (option nat * bool)) : result Out :=
  match r with Ok (a, found) => Ok (OutEntry a found) | Err e => Err e end.

(** The operations on the map [m]; [shared], [busy] and [fz] say whether the table
    is in shared memory, is being scanned, and is frozen. *)
Inductive op_step (shared busy fz : bool) (mem : list bool) m :
    Op → result Out → gmap C (nat * D) → bool → Prop :=
  | op_search k action r m' :
      search_step fz mem k m action r m' →
      op_step shared busy fz mem m (Search k action) (out_entry r) m' fz
  | op_fill k d :
      op_step shared busy fz mem m (Fill k d) (Ok OutDone)
        (alter (λ x, (x.1, d)) (canon k) m) fz
  | op_read k :
      op_step shared busy fz mem m (Read k) (Ok (OutData (snd <$> m !! canon k))) m fz
  | op_count :
      op_step shared busy fz mem m Count (Ok (OutCount (Z.of_nat (size m)))) m fz
  | op_freeze :
      shared = false → fz = true ∨ busy = false →
      op_step shared busy fz mem m Freeze (Ok OutDone) m true
  | op_freeze_shared :
      shared = true →
      op_step shared busy fz mem m Freeze (Err "cannot freeze shared hashtable") m fz
  | op_freeze_busy :
      shared = false → fz = false → busy = true →
      op_step shared busy fz mem m Freeze
        (Err "cannot freeze hashtable because it has active scans") m fz.

(** A sequence of them; each takes at most three allocations. *)
Inductive steps (shared busy : bool) :
    bool → list bool → gmap C (nat * D) → list Op → list (result Out) →
    gmap C (nat * D) → Prop :=
  | steps_nil fz mem m : steps shared busy fz mem m [] [] m
  | steps_cons fz fz' mem m m' m'' op r ops rs i :
      op_step shared busy fz mem m op r m' fz' → (i ≤ 3)%nat →
      steps shared busy fz' (drop i mem) m' ops rs m'' →
      steps shared busy fz mem m (op :: ops) (r :: rs) m''.

(** ** Proof *)

Definition with_data h (a : nat) (d : D) : HTAB K D :=
  with_elements h (alter (set_data d) a (elements h)).

Lemma with_data_lookup h a d b :
  elements (with_data h a d) !! b =
    (if decide (a = b) then set_data d <$> elements h !! b else elements h !! b).
Proof.
  simpl. destruct (decide (a = b)) as [<-|].
  - apply list_lookup_alter_eq.
  - by apply list_lookup_alter_ne.
Qed.

Lemma with_data_layout h bs fl a d : layout h bs fl → layout (with_data h a d) bs fl.
Proof.
  intros L. assert (∀ b, load (with_data h a d) (LinkOf b) = load h (LinkOf b)) as Hlink.
  { intros b. unfold load. rewrite with_data_lookup. destruct (decide (a = b)); [|done].
    by destruct (elements h !! b). }
  split.
  - destruct (lay_geo _ _ _ L). by split.
  - apply L.
  - intros b l Hb. by eapply chain_at_ext, (lay_chain _ _ _ L).
  - by eapply chain_from_ext, L.
  - simpl. rewrite length_alter. apply L.
  - apply L.
  - intros b l x Hb Hx. destruct (lay_placed _ _ _ L _ _ _ Hb Hx) as (e & He & Hr).
    unfold placed. rewrite with_data_lookup, He. destruct (decide (a = x)).
    + by exists (set_data d e).
    + by exists e.
Qed.

Lemma with_data_table h m a d c d0 :
  table_ok h m → m !! c = Some (a, d0) → table_ok (with_data h a d) (<[c := (a, d)]> m).
Proof.
  intros (bs & fl & L & R) Hm. exists bs, fl. split; [by apply with_data_layout|].
  destruct (proj1 (R c a d0) Hm) as [Ha (e & He & Hk & _)]. intros c' a' d'.
  unfold entry_at. rewrite with_data_lookup. split.
  - intros [[<- [= <- <-]]|[Hne Hm']]%lookup_insert_Some.
    + split; [done|]. exists (set_data d e). by rewrite He, decide_True.
    + apply R in Hm' as [Ha' (e' & He' & Hk' & Hd')]. split; [done|].
      exists e'. rewrite decide_False; [done|]. intros <-. congruence.
  - intros [Ha' (e' & He' & Hk' & Hd')]. destruct (decide (a = a')) as [<-|Hne].
    + rewrite He in He'. injection He' as <-. simpl in Hk', Hd'.
      subst c' d'. by rewrite Hk, lookup_insert_eq.
    + assert (m !! c' = Some (a', d')) as Hm' by (apply R; split; [done|by exists e']).
      rewrite lookup_insert_ne; [done|]. intros <-. congruence.
Qed.

(** One operation of a client. *)
Definition stepped w (op : Op) m w' (r : result Out) : Prop :=
  self w' = self w ∧ seq_scans w' = seq_scans w ∧ isshared (tab w') = isshared (tab w) ∧
  max_bucket (hctl (tab w')) <= max_bucket (hctl (tab w)) + 1 ∧
  ∃ i m', (i ≤ 3)%nat ∧ supply w' = drop i (supply w) ∧ table_ok (tab w') m' ∧
    op_step (isshared (tab w)) (has_seq_scans_in (self w) (seq_scans w)) (frozen (tab w))
      (supply w) m op r m' (frozen (tab w')).

Lemma stepped_same w op m m' r w' :
  table_ok (tab w') m' → setup w' = setup w → supply w' = supply w →
  max_bucket (hctl (tab w')) = max_bucket (hctl (tab w)) →
  op_step (isshared (tab w)) (has_seq_scans_in (self w) (seq_scans w)) (frozen (tab w))
    (supply w) m op r m' (frozen (tab w)) →
  stepped w op m w' r.
Proof.
  intros Hok Es Esup Em Hs. unfold setup in Es. injection Es as E1 E2 E3 E4 E5 E6 E7.
  split_and!; [done..|lia|]. exists 0%nat, m'. rewrite E6. split_and!; [lia|done..].
Qed.

Lemma fill_spec w m k d :
  table_ok (tab w) m → valid k → dwp (run_op (Fill k d)) w (stepped w (Fill k d) m).
Proof.
  intros Hok Hv. apply dwp_bind. eapply dwp_mono, find_spec; [|done..]. intros w' r [-> ->].
  assert (∀ w', table_ok (tab w') (alter (λ x, (x.1, d)) (canon k) m) → setup w' = setup w →
    supply w' = supply w → max_bucket (hctl (tab w')) = max_bucket (hctl (tab w)) →
    stepped w (Fill k d) m w' (Ok OutDone)) as Hst.
  { intros w' ? ? ? ?. apply (stepped_same _ _ _ (alter (λ x, (x.1, d)) (canon k) m)); try done.
    constructor. }
  destruct (m !! canon k) as [[a d0]|] eqn:Em; simpl.
  - apply dwp_bind. unfold write_data. apply dwp_update, dwp_ret, Hst; try done.
    replace (alter _ _ _) with (<[canon k := (a, d)]> m); [by eapply with_data_table|].
    apply map_eq. intros c. destruct (decide (canon k = c)) as [<-|].
    + by rewrite lookup_alter_eq, Em, lookup_insert_eq.
    + by rewrite lookup_alter_ne, lookup_insert_ne.
  - apply dwp_bind, dwp_ret, dwp_ret, Hst; try done.
    replace (alter _ _ _) with m; [done|].
    apply map_eq. intros c. destruct (decide (canon k = c)) as [<-|].
    + by rewrite lookup_alter_eq, Em.
    + by rewrite lookup_alter_ne.
Qed.

Lemma read_spec w m k :
  table_ok (tab w) m → valid k → dwp (run_op (Read k)) w (stepped w (Read k) m).
Proof.
  intros Hok Hv. apply dwp_bind. eapply dwp_mono, find_spec; [|done..]. intros w' r [-> ->].
  assert (∀ r, r = Ok (OutData (snd <$> m !! canon k)) → stepped w (Read k) m w r) as Hread.
  { intros r ->. apply (stepped_same _ _ _ m); try done. constructor. }
  destruct (m !! canon k) as [[a d0]|] eqn:Em; simpl; [|by apply dwp_ret, Hread].
  destruct Hok as (bs & fl & L & R). apply R in Em as Hm.
  destruct Hm as [_ (e & He & _ & <-)]. apply dwp_bind, dwp_gets, dwp_bind.
  eapply dwp_deref; [exact He|]. by apply dwp_ret, Hread.
Qed.

Lemma freeze_spec w m : table_ok (tab w) m → dwp (run_op Freeze) w (stepped w Freeze m).
Proof.
  intros Hok. apply dwp_bind. unfold hash_freeze. apply dwp_bind, dwp_gets.
  destruct (isshared (tab w)) eqn:Esh.
  { apply dwp_raise, (stepped_same _ _ _ m); try done. rewrite Esh. by constructor. }
  apply dwp_bind, dwp_gets. destruct (_ && _) eqn:Eb.
  - apply dwp_raise, (stepped_same _ _ _ m); try done. rewrite Esh.
    apply andb_prop in Eb as [Ef Eb]. apply negb_true_iff in Ef. by apply op_freeze_busy.
  - apply dwp_update, dwp_ret. split_and!; [done..|simpl; lia|]. exists 0%nat, m.
    split_and!; [lia|done| |].
    + destruct Hok as (bs & fl & L & R). exists bs, fl. split; [|done].
      eapply (layout_dir (tab w)); try done. destruct (lay_geo _ _ _ L). by split.
    + rewrite Esh. apply op_freeze; [done|].
      apply andb_false_iff in Eb as [Ef|Eb]; [left; by apply negb_false_iff|by right].
Qed.

Lemma run_op_spec w m op :
  table_ok (tab w) m → op_valid op → max_bucket (hctl (tab w)) + 1 < 2 ^ 32 →
  dwp (run_op op) w (stepped w op m).
Proof.
  intros Hok Hv Hmax. destruct op as [k action|k d|k| |]; simpl in Hv;
    [|by apply fill_spec|by apply read_spec| |by apply freeze_spec].
  - apply dwp_bind. eapply dwp_mono, (hash_search_step w m k action); [|done..].
    intros w' r (Es & (i & Hi & Esup) & Em & m' & Hok' & Hs).
    assert (stepped w (Search k action) m w' (out_entry r)) as Hst.
    { unfold setup in Es. injection Es as E1 E2 E3 E4 E5 E6 E7. split_and!; [done..|].
      exists i, m'. rewrite E6. split_and!; [done..|by constructor]. }
    destruct r as [[a found]|e]; [by apply dwp_ret|done].
  - apply dwp_bind, dwp_gets, dwp_ret. apply (stepped_same _ _ _ m); try done.
    rewrite (table_ok_count _ _ Hok). constructor.
Qed.

Lemma run_ops_spec ops w m :
  table_ok (tab w) m → Forall op_valid ops →
  max_bucket (hctl (tab w)) + Z.of_nat (length ops) < 2 ^ 32 →
  let '(w', rs) := run ops w in
  ∃ m', table_ok (tab w') m' ∧
    steps (isshared (tab w)) (has_seq_scans_in (self w) (seq_scans w)) (frozen (tab w))
      (supply w) m ops rs m'.
Proof.
  revert w m. induction ops as [|op ops IH]; intros w m Hok Hv Hmax; simpl.
  { exists m. split; [done|constructor]. }
  apply Forall_cons_iff in Hv as [Hv Hvs]. simpl in Hmax.
  pose proof (run_op_spec w m op Hok Hv ltac:(lia)) as Hop. unfold dwp in Hop.
  destruct (run_op op w) as [w1 r]. simpl in Hop.
  destruct Hop as (E1 & E2 & E3 & Em & i & m1 & Hi & Esup & Hok1 & Hs).
  specialize (IH w1 m1 Hok1 Hvs ltac:(lia)). destruct (run ops w1) as [w2 rs].
  destruct IH as (m2 & Hok2 & Hss). exists m2. split; [done|].
  rewrite E1, E2, E3, Esup in Hss. by econstructor.
Qed.

(** ** A loop over the table *)

(** [while ((a = hash_seq_search(&status)) != NULL)], deleting the entries that [rm]
    selects. *)
Fixpoint scan_loop (fuel : nat) (st : HASH_SEQ_STATUS) (rm : nat → bool) : M (K:=K) (D:=D) (list nat) :=
  match fuel with
  | O => raise "while"
  | S fuel =>
      '(st, o) ← hash_seq_search st;
      match o with
      | None => mret []
      | Some a =>
          (if rm a then
             h ← gets (tab (K:=K) (D:=D)); e ← deref (elements h !! a);
             _ ← hash_search (key e) HASH_REMOVE; mret ()
           else mret ());;
          rest ← scan_loop fuel st rm;
          mret (a :: rest)
      end
  end.
Definition scan (rm : nat → bool) : M (K:=K) (D:=D) (list nat) :=
  st ← hash_seq_init true;
  h ← gets (tab (K:=K) (D:=D));
  scan_loop (S (length (elements h))) st rm.

(** The map without the entries at the addresses in [l] that [rm] selects. *)
Definition purge (rm : nat → bool) (l : list nat) m : gmap C (nat * D) :=
  filter (λ x, ¬ (x.2.1 ∈ l ∧ rm x.2.1 = true)) m.

Lemma purge_keep rm a l m : rm a = false → purge rm (a :: l) m = purge rm l m.
Proof.
  intros Ha. apply map_filter_ext. intros c [b d] _. simpl. rewrite elem_of_cons.
  split; intros Hn; contradict Hn; [naive_solver|]. destruct Hn as [[->|Hn] Hb]; [congruence|done].
Qed.
Lemma purge_delete rm a l m c d :
  rm a = true → m !! c = Some (a, d) → (∀ c' d', m !! c' = Some (a, d') → c' = c) →
  purge rm (a :: l) m = purge rm l (delete c m).
Proof.
  intros Ha Hm Hinj. apply map_eq. intros c'. apply option_eq. intros [b e].
  unfold purge. rewrite !map_lookup_filter_Some, lookup_delete_Some, elem_of_cons. simpl.
  split.
  - intros [Hm' Hn]. split; [split; [|done]|naive_solver]. intros <-. simplify_eq. naive_solver.
  - intros [[Hne Hm'] Hn]. split; [done|]. intros [[->|Hb] Hb']; [|naive_solver].
    apply Hne. symmetry. by eapply Hinj.
Qed.

(** Closing the scan that was opened last. *)
Definition scan_open w (scans : list SeqScan) : Prop :=
  if frozen (tab w) then seq_scans w = scans
  else ∃ lvl, seq_scans w = scans ++ [MkScan (self w) lvl].

Lemma seq_term_spec w scans :
  scan_open w scans →
  dwp hash_seq_term w (λ w' r, r = Ok tt ∧ tab w' = tab w ∧ seq_scans w' = scans).
Proof.
  unfold scan_open, hash_seq_term. intros Ho. apply dwp_bind, dwp_gets.
  destruct (frozen (tab w)); simpl negb; cbv iota; [by apply dwp_ret|].
  destruct Ho as [lvl Ho]. unfold deregister_seq_scan. apply dwp_bind, dwp_gets, dwp_bind, dwp_gets.
  rewrite Ho, length_app, Nat.add_comm. cbn [length Nat.add deregister_loop].
  rewrite list_lookup_middle by done. cbn [seq_scan_table]. rewrite Nat.eqb_refl.
  split_and!; [done..|]. simpl. unfold drop_scan. rewrite length_app, Nat.add_comm.
  cbn [length Nat.add]. rewrite Nat.sub_succ, Nat.sub_0_r, list_lookup_middle by done.
  rewrite take_insert_ge by done. by apply take_app_length.
Qed.

Lemma remove_returned w bs fl m c a d :
  layout (tab w) bs fl → represents (tab w) bs m → m !! c = Some (a, d) →
  dwp (h ← gets (tab (K:=K) (D:=D)); e ← deref (elements h !! a);
      _ ← hash_search (key e) HASH_REMOVE; mret ()) w
    (λ w' r, r = Ok () ∧ setup w' = setup w ∧
      max_bucket (hctl (tab w')) = max_bucket (hctl (tab w)) ∧
      ∃ bs' fl', layout (tab w') bs' fl' ∧ represents (tab w') bs' (delete c m) ∧
        shortened bs bs' (Some a)).
Proof.
  intros L R Hm. destruct (proj1 (R c a d) Hm) as [Ha (e & He & Hk & Hd)].
  assert (valid (key e)) as Hv.
  { apply list_elem_of_In, in_concat in Ha as (l & Hl & Ha). apply list_elem_of_In in Hl, Ha.
    apply list_elem_of_lookup in Hl as [b Hl].
    destruct (lay_placed _ _ _ L _ _ _ Hl Ha) as (e' & He' & _ & _ & Hv). by simplify_eq. }
  apply dwp_bind, dwp_gets, dwp_bind. eapply dwp_deref; [exact He|]. apply dwp_bind.
  eapply dwp_mono, (remove_spec w bs fl m (key e) L R Hv).
  intros w' r (Es & _ & Em & (bs' & fl' & L' & R' & Hsh) & ->). apply dwp_ret.
  rewrite Hk, Hm in *. split_and!; [done..|]. by exists bs', fl'.
Qed.

Lemma represents_inj h bs m c c' a d d' :
  represents h bs m → m !! c = Some (a, d) → m !! c' = Some (a, d') → c' = c.
Proof.
  intros R Hm Hm'. apply R in Hm as [_ (e & He & <- & _)], Hm' as [_ (e' & He' & <- & _)].
  by simplify_eq.
Qed.

Lemma dwp_seq_end w bs fl st scans (Q : World K D → result (HASH_SEQ_STATUS * option nat) → Prop) :
  layout (tab w) bs fl → max_bucket (hctl (tab w)) + 1 < 2 ^ 32 →
  seq_hashp st = true → position bs st [] → scan_open w scans →
  (∀ w' st', tab w' = tab w → seq_scans w' = scans → Q w' (Ok (st', None))) →
  dwp (hash_seq_search st) w Q.
Proof.
  intros L Hmax Hst Hpos Ho HQ.
  destruct (seq_search_end w bs fl st L Hmax Hst Hpos) as [st' E].
  assert (dwp (hash_seq_term;; mret (st', None)) w Q) as Hw; [|unfold dwp in *; by rewrite E].
  apply dwp_bind. eapply dwp_mono, (seq_term_spec w scans Ho). intros w' r (-> & Et & Es).
  apply dwp_ret. by apply HQ.
Qed.
Lemma dwp_seq_next w bs fl st a rem (Q : World K D → result (HASH_SEQ_STATUS * option nat) → Prop) :
  layout (tab w) bs fl → max_bucket (hctl (tab w)) + 1 < 2 ^ 32 →
  seq_hashp st = true → position bs st (a :: rem) →
  (∀ st', seq_hashp st' = true → position bs st' rem → Q w (Ok (st', Some a))) →
  dwp (hash_seq_search st) w Q.
Proof.
  intros L Hmax Hst Hpos HQ.
  destruct (seq_search_next w bs fl st a rem L Hmax Hst Hpos) as (st' & E & Hst' & Hp).
  unfold dwp. rewrite E. by apply HQ.
Qed.

Lemma scan_loop_spec fuel w bs fl m st rem rm scans :
  layout (tab w) bs fl → represents (tab w) bs m → max_bucket (hctl (tab w)) + 1 < 2 ^ 32 →
  seq_hashp st = true → position bs st rem → NoDup rem → (length rem < fuel)%nat →
  scan_open w scans →
  dwp (scan_loop fuel st rm) w (λ w' r, r = Ok rem ∧ seq_scans w' = scans ∧
    table_ok (tab w') (purge rm rem m)).
Proof.
  revert w bs fl m st rem. induction fuel as [|fuel IH];
    intros w bs fl m st rem L R Hmax Hst Hpos Hnd Hf Ho; [lia|].
  cbn [scan_loop]. apply dwp_bind. destruct rem as [|a rem].
  { eapply dwp_seq_end; [done..|]. intros w' st' Et Es. apply dwp_ret. split_and!; [done..|].
    exists bs, fl. rewrite Et. split; [done|]. unfold purge. rewrite map_filter_id; [done|].
    intros c x _ [Hx _]. by apply not_elem_of_nil in Hx. }
  apply NoDup_cons in Hnd as [Har Hnd]. simpl in Hf.
  assert (a ∈ concat bs) as Ha by (eapply position_elem; [done|left]).
  eapply dwp_seq_next; [done..|]. intros st' Hst' Hpos'. apply dwp_bind.
  assert (∃ c d, m !! c = Some (a, d)) as (c & d & Hm).
  { assert (∃ e, elements (tab w) !! a = Some e) as [e He].
    { apply lookup_lt_is_Some_2. eapply layout_elem_lt; [done|]. set_solver. }
    exists (canon (key e)), (data e). apply R. split; [done|]. by exists e. }
  assert (∀ w' r, r = Ok rem ∧ seq_scans w' = scans ∧ table_ok (tab w') (purge rm (a :: rem) m) →
    match r with Ok rest => dwp (mret (a :: rest)) w' (λ w' r, r = Ok (a :: rem) ∧
      seq_scans w' = scans ∧ table_ok (tab w') (purge rm (a :: rem) m))
    | Err e => (Err e : result (list nat)) = Ok (a :: rem) ∧ seq_scans w' = scans ∧
      table_ok (tab w') (purge rm (a :: rem) m) end) as Hrest.
  { intros w' r (-> & ?). by apply dwp_ret. }
  destruct (rm a) eqn:Erm.
  - eapply dwp_mono, (remove_returned w bs fl m c a d L R Hm).
    intros w1 r (-> & Es & Em & bs' & fl' & L' & R' & Hsh). apply dwp_bind.
    eapply dwp_mono; [exact Hrest|]. rewrite (purge_delete rm a rem m c d); [|done..|].
    + eapply (IH w1 bs' fl'); [done..|lia|done| |done|lia|].
      * by eapply position_shortened.
      * unfold setup in Es. unfold scan_open in *.
        replace (frozen (tab w1)) with (frozen (tab w)) by congruence.
        replace (self w1) with (self w) by congruence.
        by replace (seq_scans w1) with (seq_scans w) by congruence.
    + intros c' d' Hm'. exact (represents_inj _ _ _ _ _ _ _ _ R Hm Hm').
  - apply dwp_ret, dwp_bind. eapply dwp_mono; [exact Hrest|]. rewrite purge_keep by done.
    by eapply (IH w bs fl); [..|lia|].
Qed.

Lemma scan_spec w m rm :
  table_ok (tab w) m → max_bucket (hctl (tab w)) + 1 < 2 ^ 32 →
  frozen (tab w) = true ∨ (length (seq_scans w) < MAX_SEQ_SCANS)%nat →
  dwp (scan rm) w (λ w' r, seq_scans w' = seq_scans w ∧
    table_ok (tab w') (filter (λ x, rm x.2.1 = false) m) ∧
    ∃ visited, r = Ok visited ∧ visited ≡ₚ (snd <$> map_to_list m).*1).
Proof.
  intros (bs & fl & L & R) Hmax Hs. unfold scan.
  assert (∀ w', tab w' = tab w → scan_open w' (seq_scans w) →
    dwp (h ← gets (tab (K:=K) (D:=D)); scan_loop (S (length (elements h))) (MkSeq true 0 None) rm) w'
      (λ w' r, seq_scans w' = seq_scans w ∧
        table_ok (tab w') (filter (λ x, rm x.2.1 = false) m) ∧
        ∃ visited, r = Ok visited ∧ visited ≡ₚ (snd <$> map_to_list m).*1)) as Hloop.
  { intros w' Et Ho. apply dwp_bind, dwp_gets.
    pose proof (layout_NoDup _ _ _ L) as Hnd. apply NoDup_app in Hnd as [Hnd _].
    pose proof (Permutation_length (lay_perm _ _ _ L)) as Hlen.
    rewrite length_app, length_seq in Hlen.
    eapply dwp_mono, (scan_loop_spec _ w' bs fl m _ (concat bs) rm (seq_scans w));
      rewrite ?Et; try done; [|lia].
    intros w2 r (-> & Es & Hok). split_and!; [done| |].
    - replace (filter _ m) with (purge rm (concat bs) m); [done|].
      apply map_filter_ext. intros c [a d] Hm. simpl. apply R in Hm as [Ha _].
      destruct (rm a); naive_solver.
    - eexists. split; [done|]. symmetry. by eapply table_ok_addresses. }
  unfold hash_seq_init. apply dwp_bind, dwp_bind, dwp_gets. unfold scan_open in Hloop.
  destruct (frozen (tab w)) eqn:Ef; simpl.
  - apply dwp_bind, dwp_ret, dwp_ret. apply Hloop; [done|]. by rewrite Ef.
  - destruct Hs as [|Hs]; [done|]. apply dwp_bind. unfold register_seq_scan.
    apply dwp_bind, dwp_gets. destruct (Nat.leb_spec MAX_SEQ_SCANS (length (seq_scans w))); [lia|].
    apply dwp_ret. apply Hloop; [done|]. simpl. rewrite Ef. by eexists.
Qed.

(** ** Properties *)

(** C2: a hash table refines a finite map.  From [hash_create] on, for at least one
    element and, if the table has an allocator of its own, a directory of fixed size, through every
    sequence of up to 2^31 lookups, insertions, removals, uses of an entry, counts
    and freezes, each result is that of a map from key classes to the address and
    data of their entry, also across the splits of buckets: an address stays that
    of its key until the key is removed, a new one is not in use, the count is the
    size of the map.  Errors leave the map alone, and out of memory is reported
    only if the allocator refused one of the next three requests. *)
Theorem dynahash_refines_map w0 w nelem info flags ops :
  params_ok nelem info flags → Forall op_valid ops → Z.of_nat (length ops) <= 2 ^ 31 →
  hash_create nelem info flags w0 = (w, Ok ()) →
  let '(w', rs) := run ops w in
  ∃ m, table_ok (tab w') m ∧
    steps (flag flags HASH_SHARED_MEM) (has_seq_scans_in (self w0) (seq_scans w0)) false
      (supply w) ∅ ops rs m.
Proof.
  intros Hp Hv Hlen Hc. pose proof (hash_create_spec w0 nelem info flags Hp) as Hw.
  unfold dwp in Hw. rewrite Hc in Hw. destruct Hw as [[= E1 E2 E3] (Hok & Ef & Es & Em)].
  destruct Hp as (_ & _ & _ & Hnp & _).
  destruct (init_nbuckets_spec _ nelem Hnp) as (j & Ej & Hj & _).
  assert (2 ^ j <= 2 ^ 30) by (apply Z.pow_le_mono_r; lia). simpl in *.
  pose proof (run_ops_spec ops w ∅ Hok Hv ltac:(lia)) as Hr.
  by rewrite <-E1, <-E3, <-Ef, <-Es.
Qed.

(** C13: a scan returns every entry exactly once, also if its loop removes entries
    it was just given: the addresses returned are those of the map's entries, the
    table afterwards holds the entries that were not removed, and the scan is no
    longer registered. *)
Theorem dynahash_scan_complete w m rm :
  table_ok (tab w) m → max_bucket (hctl (tab w)) + 1 < 2 ^ 32 →
  frozen (tab w) = true ∨ (length (seq_scans w) < MAX_SEQ_SCANS)%nat →
  ∃ w' visited, scan rm w = (w', Ok visited) ∧
    visited ≡ₚ (snd <$> map_to_list m).*1 ∧ NoDup visited ∧
    table_ok (tab w') (filter (λ x, rm x.2.1 = false) m) ∧ seq_scans w' = seq_scans w.
Proof.
  intros Hok Hmax Hs. pose proof (scan_spec w m rm Hok Hmax Hs) as Hw. unfold dwp in Hw.
  destruct (scan rm w) as [w' r]. destruct Hw as (Es & Hok' & visited & E & Hv). simpl in E.
  subst r. exists w', visited. split_and!; try done. destruct Hok as (bs & fl & L & R).
  rewrite Hv, (table_ok_addresses _ _ _ _ L R).
  pose proof (layout_NoDup _ _ _ L) as Hn. by apply NoDup_app in Hn as [? _].
Qed.

(** C39: an insertion while a scan is open does not split a bucket: the scan goes on
    to return what it still had to, in the same order, and the new entry at most
    once. *)
Theorem dynahash_scan_survives_insert w bs fl m st rem k action :
  layout (tab w) bs fl → represents (tab w) bs m → position bs st rem →
  has_seq_scans_in (self w) (seq_scans w) = true → valid k → enters action →
  max_bucket (hctl (tab w)) + 1 < 2 ^ 32 →
  let '(w', r) := hash_search k action w in
  ∃ bs' fl' m' rem', layout (tab w') bs' fl' ∧ represents (tab w') bs' m' ∧
    search_step (frozen (tab w)) (supply w) k m action r m' ∧ position bs' st rem' ∧
    (rem' = rem ∨ ∃ r1 a r2, rem = r1 ++ r2 ∧ rem' = r1 ++ a :: r2 ∧ a ∉ concat bs).
Proof.
  intros L R Hpos Hscan Hv Hact Hmax.
  pose proof (enter_spec w bs fl m k action L R Hv Hmax Hact) as Hw. unfold dwp in Hw.
  destruct (hash_search k action w) as [w' r].
  destruct Hw as (_ & _ & _ & bs' & fl' & m' & L' & R' & Hap & Hs).
  destruct (position_appended _ _ _ _ (Hap Hscan) Hpos) as (rem' & Hp' & Hrem).
  by exists bs', fl', m', rem'.
Qed.

(** C40: creating a table with the default fill factor and segment size succeeds if
    the allocator grants its requests, four and one for each segment; a shared table whose directory was sized with
    [hash_select_dirsize] for at least as many entries is not refused.  The new
    table is empty and keeps the partitions apart: hash values with different
    partition numbers never share a bucket. *)
Theorem dynahash_create_succeeds w nelem info flags num :
  let c := header_of info flags in
  params_ok nelem info flags → nelem <= num → num <= 2 ^ 30 →
  ffactor c = DEF_FFACTOR → hdr_ssize c = DEF_SEGSIZE → num_partitions c <= 2 ^ 16 →
  (flag flags HASH_SHARED_MEM = true → dsize c = hash_select_dirsize num) →
  grants (4 + Z.to_nat (init_nsegs c (init_nbuckets c nelem))) (supply w) →
  ∃ w', hash_create nelem info flags w = (w', Ok ()) ∧ table_ok (tab w') ∅ ∧
    ∀ p hv hv', 0 <= p → num_partitions c = 2 ^ p →
      calc_bucket (hctl (tab w')) hv = calc_bucket (hctl (tab w')) hv' →
      hv mod 2 ^ p = hv' mod 2 ^ p.
Proof.
  intros c Hp Hn Hnum Eff Ess Hpart Hshared Hg.
  pose proof (hash_create_spec w nelem info flags Hp) as Hw. unfold dwp in Hw.
  destruct (hash_create nelem info flags w) as [w' [[]|e]]; simpl in Hw; destruct Hw as [_ Hw].
  2: { exfalso. destruct Hw as [Hw|[Hs Hw]]; [by apply Hw|]. fold c in Hw.
    pose proof Hp as (_ & _ & _ & Hnp & _). specialize (Hshared Hs).
    pose proof (select_dirsize_enough c nelem num Eff Ess (conj (proj1 Hnp) Hpart) Hn Hnum).
    rewrite <-Hshared in *. lia. }
  exists w'. destruct Hw as (Hok & _ & _ & Em). split_and!; [done..|]. intros p hv hv' Hp0 Ep E.
  pose proof Hp as (_ & _ & _ & Hnp & _).
  destruct (init_nbuckets_spec c nelem Hnp) as (j & Ej & Hj & Hge).
  destruct Hok as (bs & fl & L & _). pose proof (geo_masks _ (lay_geo _ _ _ L)) as Hm.
  assert (2 ^ p <= max_bucket (hctl (tab w')) + 1) as Hpb.
  { fold c in Em. by rewrite Em, Ej, <-Ep. }
  rewrite <-(calc_bucket_partition _ p hv Hm), <-(calc_bucket_partition _ p hv' Hm) by done.
  by rewrite E.
Qed.

(** Once a table has 2^32 buckets, the number of buckets wraps around to 0 and the
    next insertion divides by it. *)
Theorem dynahash_bucket_count_wraps w k :
  max_bucket (hctl (tab w)) = 2 ^ 32 - 1 → num_partitions (hctl (tab w)) = 0 →
  frozen (tab w) = false →
  hash_search k HASH_ENTER w = (w, Err "division by zero").
Proof.
  intros Em Ep Ef. unfold hash_search, hash_search_with_hash_value, maybe_expand.
  unfold mbind, M_bind, gets, IS_PARTITIONED. by rewrite Ep, Ef, Em.
Qed.

End Clients.

Lemma filter_all {A} (P : A → Prop) `{∀ x, Decision (P x)} (l : list A) :
  Forall P l → filter P l = l.
Proof. induction 1; [done|]. rewrite filter_cons_True by done. congruence. Qed.

(** [hash_seq_term] takes one registration of its table off the list, and reports an
    error exactly if there is none. *)
Theorem dynahash_deregister_one hashp scans :
  match deregister_loop (length scans) hashp scans with
  | Some scans' => ∃ s, seq_scan_table s = hashp ∧ scans ≡ₚ s :: scans'
  | None => has_seq_scans_in hashp scans = false
  end.
Proof.
  pose proof (deregister_loop_spec (length scans) hashp scans (le_n _)) as Hd.
  destruct (deregister_loop _ _ _); [done|]. apply not_true_is_false.
  rewrite has_seq_scans_in_spec. intros (s & Hs & E). apply list_elem_of_lookup in Hs as [i Hi].
  eapply Hd; [by eapply lookup_lt_Some|done|done].
Qed.

(** At the end of a subtransaction exactly the scans opened at its nest level
    or deeper go away, and at a commit each of them is warned about; the others
    stay open. *)
Theorem dynahash_subxact_cleanup isCommit nestDepth scans :
  let '(warned, scans') := AtEOSubXact_HashTables isCommit nestDepth scans in
  scans' ≡ₚ filter (λ s, seq_scan_level s < nestDepth) scans ∧
  warned ≡ₚ (if isCommit
             then seq_scan_table <$> filter (λ s, nestDepth <= seq_scan_level s) scans
             else []).
Proof.
  unfold AtEOSubXact_HashTables.
  pose proof (subxact_loop_spec (length scans) isCommit nestDepth [] scans) as Hs.
  destruct (subxact_loop _ _ _ _ _) as [warned scans'].
  destruct Hs as (removed & Hp & Hr & Hk & ->); [done| |].
  { intros j s Hj Hs. apply lookup_lt_Some in Hs. lia. }
  split.
  - rewrite Hp, filter_app, (filter_none _ removed), (filter_all _ scans'); [done|done|].
    rewrite Forall_forall in Hr. intros s Hs. specialize (Hr s Hs). lia.
  - destruct isCommit; [|done].
    rewrite Hp, filter_app, (filter_all _ removed), (filter_none _ scans'), app_nil_r; [done| |done].
    rewrite Forall_forall in Hk. intros s Hs. specialize (Hk s Hs). lia.
Qed.

(** ** Instances *)

(** A local table of strings, created for one entry so that it splits. *)
Definition sample_info : HASHCTL (StringKey 4) Z := MkCtl 0 0 0 0 0 4 16 (hdefault, [], []).
Definition sample_start : World (StringKey 4) Z :=
  MkWorld (MkHtab hdefault [] [] true false false 0 0 0) (replicate 20 true) [] 1 1.
Definition sample_created : World (StringKey 4) Z :=
  (hash_create 1 sample_info HASH_ELEM sample_start).1.
Definition str (l : list Z) : StringKey 4 := MkString l.
Definition sample_ops : list (Op (K:=StringKey 4) (D:=Z)) :=
  [Search (str [97]) HASH_ENTER; Fill (str [97]) 1; Search (str [98; 99; 100; 101]) HASH_ENTER;
   Search (str [99]) HASH_ENTER; Fill (str [98; 99; 100]) 2; Read (str [98; 99; 100; 102]);
   Search (str [97]) HASH_REMOVE; Count; Freeze; Search (str [97]) HASH_ENTER].

(** A table of two integers in two buckets, with a free element. *)
Definition sample_hdr : HASHHDR := MkHdr 2 (Some 2%nat) 1 1 1 1 0 4 8 0 1 (-1) 2 1 32.
Definition sample_tab : HTAB Int32Key Z :=
  MkHtab sample_hdr [Some [Some 0%nat; Some 1%nat]]
    [MkElem None 4 (MkInt32 4) 40; MkElem None 7 (MkInt32 7) 70; MkElem None 0 (MkInt32 0) 0]
    true false false 4 2 1.
Definition sample_world : World Int32Key Z :=
  MkWorld sample_tab (replicate 5 true) [MkScan 1 1] 1 1.
Definition sample_bs : list (list nat) := [[0%nat]; [1%nat]].
Definition sample_map : gmap Z (nat * Z) := {[4 := (0%nat, 40); 7 := (1%nat, 70)]}.

Lemma sample_layout : layout sample_tab sample_bs [2%nat].
Proof.
  split.
  - split; try done; [exists 0; repeat split; done| |by left].
    intros [|i] Hi; [|simpl in Hi; lia]. by eexists.
  - done.
  - intros [|[|b]] l Hl; simplify_eq/=; by repeat split.
  - by repeat split.
  - done.
  - done.
  - intros [|[|b]] l a Hl Ha; simplify_eq/=; apply list_elem_of_singleton in Ha as ->;
      (eexists; split; [done|by vm_compute]).
Qed.
Lemma sample_table_represents : represents sample_tab sample_bs sample_map.
Proof.
  intros c a d. unfold sample_map. rewrite lookup_insert_Some, lookup_singleton_Some. split.
  - intros [[<- [= <- <-]]|[_ [<- [= <- <-]]]]; (split; [set_solver|by eexists]).
  - intros [Ha (e & He & Hk & Hd)]. simpl in Ha.
    repeat (apply elem_of_cons in Ha as [->|Ha]); [..|by apply not_elem_of_nil in Ha];
      simplify_eq/=; auto.
Qed.
Lemma sample_table_ok : table_ok (tab sample_world) sample_map.
Proof. exists sample_bs, [2%nat]. split; [apply sample_layout|apply sample_table_represents]. Qed.

Lemma sample_params : params_ok 1 sample_info HASH_ELEM.
Proof. split_and!; try done. by exists 8. Qed.

Lemma dynahash_refines_map_witness :
  let '(w', rs) := run sample_ops sample_created in
  ∃ m, table_ok (tab w') m ∧ steps false false false (supply sample_created) ∅ sample_ops rs m.
Proof.
  apply (dynahash_refines_map sample_start sample_created 1 sample_info HASH_ELEM sample_ops).
  - apply sample_params.
  - repeat constructor.
  - done.
  - by vm_compute.
Defined.

Lemma dynahash_scan_complete_witness :
  ∃ w' visited, scan (Nat.eqb 0) sample_world = (w', Ok visited) ∧
    visited ≡ₚ (snd <$> map_to_list sample_map).*1 ∧ NoDup visited ∧
    table_ok (tab w') (filter (λ x, Nat.eqb 0 x.2.1 = false) sample_map) ∧
    seq_scans w' = [MkScan 1 1].
Proof.
  apply (dynahash_scan_complete sample_world sample_map (Nat.eqb 0)).
  - apply sample_table_ok.
  - done.
  - right. unfold MAX_SEQ_SCANS. simpl. lia.
Defined.

Lemma dynahash_scan_survives_insert_witness :
  let '(w', r) := hash_search (MkInt32 9) HASH_ENTER sample_world in
  ∃ bs' fl' m' rem', layout (tab w') bs' fl' ∧ represents (tab w') bs' m' ∧
    search_step false (replicate 5 true) (MkInt32 9) sample_map HASH_ENTER r m' ∧
    position bs' (MkSeq true 1 None) rem' ∧
    (rem' = [1%nat] ∨ ∃ r1 a r2, [1%nat] = r1 ++ r2 ∧ rem' = r1 ++ a :: r2 ∧
       a ∉ concat sample_bs).
Proof.
  apply (dynahash_scan_survives_insert sample_world sample_bs [2%nat] sample_map
    (MkSeq true 1 None) [1%nat] (MkInt32 9) HASH_ENTER).
  - apply sample_layout.
  - apply sample_table_represents.
  - by split.
  - done.
  - by vm_compute.
  - by left.
  - done.
Defined.

(** A shared table with 16 partitions. *)
Definition shared_info : HASHCTL (StringKey 4) Z :=
  MkCtl 16 0 256 256 0 4 16 (hdefault, replicate 256 None, []).
Definition shared_flags : Z :=
  HASH_PARTITION + HASH_DIRSIZE + HASH_ELEM + HASH_SHARED_MEM + HASH_ALLOC.

Lemma dynahash_create_succeeds_witness :
  ∃ w', hash_create 100 shared_info shared_flags sample_start = (w', Ok ()) ∧
    table_ok (tab w') ∅ ∧
    ∀ p hv hv', 0 <= p → 16 = 2 ^ p →
      calc_bucket (hctl (tab w')) hv = calc_bucket (hctl (tab w')) hv' →
      hv mod 2 ^ p = hv' mod 2 ^ p.
Proof.
  apply (dynahash_create_succeeds sample_start 100 shared_info shared_flags 100).
  - split_and!; try done. by exists 8.
  - done.
  - done.
  - done.
  - done.
  - done.
  - by vm_compute.
  - by vm_compute.
Defined.

End DynahashProps.
